(* ===== verification/_CoqProject ===== *)
-Q . S2P
Prelude.v
Proc.v
ChainLink.v
JsNum.v
Encoding.v
Json.v
JsText.v
Failover.v
RuntimeCapture.v
Crypto.v
Store.v
ToyCrypto.v
MemoryStore.v
Nonce.v
RateLimiter.v
Continuity.v
GovernedRedis.v
GovernedSafety.v
GovernedLive.v
Anomaly.v
AuditChain.v
OutboxContract.v
SqlStatement.v
PgTransactor.v
OutboxCanon.v
OutboxDigest.v
OutboxPg.v
OutboxPgFacts.v
OutboxPublisher.v
HttpNonce.v
HttpTransport.v
HttpReceiver.v
HttpSafety.v
HttpExchange.v
HaSigned.v
RedisFence.v
FenceSafety.v
SourceLease.v
LeaseSafety.v
Cutover.v
CutoverSafety.v
WriteFence.v
WriteSafety.v
Snapshot.v
SnapshotSafety.v
OutboxSafety.v
OutboxLive.v
ReplicaEnvelope.v
AgentCache.v
PrincipalSession.v
PrincipalChain.v
PrincipalPin.v
PrincipalSafety.v
PrincipalFallback.v
ReplicaReceiver.v
Replicating.v
ReplicaSafety.v
Promotion.v
RollbackCheckpoint.v
World.v
AnomalyEngine.v
Registry.v
Middleware.v
Verification.v
ReplaySafety.v
Client.v
Completeness.v
StoreGuard.v
Rotation.v
UsageCap.v
Linearization.v
Lockout.v
Scenario.v
Examples.v
OutboxExamples.v
HttpExamples.v
HaExamples.v
SessionExamples.v
WriteExamples.v
