(* ===== verification/Prelude.v ===== *)
(** * BPC -- Bound Pair Credentials: verification development

    BPC is an authentication protocol for machine clients.  A client and a
    server share a _pair_: an identifier, the client's public key, a shared
    secret and limits on its use.  Every request carries a signed payload and a
    keyed hash over its method, path, time, nonce and body; the server verifies
    them, refuses replays, counts uses, watches for anomalies, locks pairs that
    fail, and keeps a hash-chained audit log.  Beside this core the server
    package has a high-availability part: a guard against lost replay state, a
    durable outbox between two databases with its HTTP transport, a replicating
    store, signed leases, epoch fences and cutovers that decide which node may
    write, and snapshots from which a node is promoted.  It also keeps the
    sessions of a principal with its providers, a sealed credential cache and
    checkpoints against rollback.

    This library models the TypeScript of [src/packages/core/src] (shared
    code), [src/packages/server/src] (the verifier and its stores) and the
    request-building and failover parts of [src/packages/client-sdk/src].

    ** Layers

    Foundations.
    - [Prelude]: notation, tactics, hints, exceptions ([error], [exc]), lists and
      insertion-ordered maps (JavaScript's [Map]).
    - [Proc]: asynchronous code.  An [async] function is a [proc W A], a tree of
      atomic steps over a world [W]; one step is the code between two [await]s.
      [run] executes it alone, [exec R] lets an environment allowed by [R] move
      before every step, and a pool runs many processes under any schedule.
    - [ChainLink]: hash-linked lists and what their head pins.
    - [JsNum]: numbers as exact finite decimals, and their text.
    - [Encoding]: base64url, UTF-8, [btoa]/[atob] (core/encoding.ts).
    - [Json], [JsText]: JavaScript values, [JSON.stringify],
      [JSON.parse], the canonical payload text (core/canonical.ts), values with
      sorted keys, the text functions of the language.
    - [Crypto]: core/hmac.ts, crypto.ts, secret.ts, nonce.ts over a class of
      primitives; [ToyCrypto] instantiates the class for concrete runs.
    - [RuntimeCapture]: core/runtime-capture.ts.

    The verifier (packages/server/src).
    - [Store]: store.ts and types.ts, the [PairStore] interface with its specification;
      [MemoryStore]: memory-store.ts, the in-memory store and its refinement.
    - [Nonce]: nonce-store.ts, memory-store.ts, redis-nonce.ts.
    - [RateLimiter]: rate-limiter.ts, in memory and over Redis.
    - [Anomaly], [AnomalyEngine]: anomaly.ts, redis-anomaly.ts.
    - [AuditChain]: audit.ts, the log in memory and in PostgreSQL.
    - [World]: the state all handlers share; [Registry]: registry.ts;
      [Middleware]: middleware.ts ([verifyBPCRequest], step for step);
      [Rotation]: rotation.ts.
    - [Verification], [ReplaySafety], [Completeness], [StoreGuard], [UsageCap],
      [Linearization], [Lockout]: theorems on these.

    The client (packages/client-sdk/src).
    - [Client]: client.ts, up to what is handed to [fetch];
      [Failover]: failover-transport.ts.

    High availability (packages/server/src).
    - [Continuity]: redis-continuity.ts; [GovernedRedis]: redis-governed.ts with
      its two Lua scripts; [GovernedSafety], [GovernedLive]: theorems.
    - [OutboxContract]: ha-outbox-contract.ts, with [OutboxCanon] and
      [OutboxDigest] for its canonical text and digests; [OutboxPg],
      [OutboxPgFacts], [OutboxPublisher]: ha-outbox-pg.ts; [OutboxSafety],
      [OutboxLive]: theorems on the two nodes of a stream.
    - [SqlStatement], [PgTransactor]: pg-transactor.ts, the scanner of statements and
      the transactions over a connection pool.
    - [HttpNonce], [HttpTransport], [HttpReceiver]: http-outbox-transport.ts, the
      nonce stores, the delivering and the receiving end; [HttpSafety],
      [HttpExchange]: theorems.
    - [ReplicaEnvelope], [ReplicaReceiver], [Replicating]: replica-envelope.ts,
      replica-receiver.ts, replicating-store.ts; [ReplicaSafety]: theorems.
    - [Promotion]: promotion.ts.
    - bpc-ha-final.ts, in five parts.  [HaSigned]: the signed records;
      [RedisFence], [FenceSafety]: the record of the writing node on a majority of
      Redis members; [SourceLease], [LeaseSafety]: leases and their history;
      [Cutover], [CutoverSafety]: the transfer of a stream to the next epoch;
      [WriteFence], [WriteSafety]: the check before every write;
      [Snapshot], [SnapshotSafety]: snapshots, their import, and promotion.

    Sessions, caches and checkpoints (packages/server/src).
    - [PrincipalSession]: principal-session.ts; [PrincipalChain], [PrincipalPin],
      [PrincipalSafety], [PrincipalFallback]: theorems.
    - [AgentCache]: agent-cache.ts.
    - [RollbackCheckpoint]: rollback-checkpoint.ts.

    Concrete runs: [Scenario] is a small deployment with executable components;
    the files named [...Examples] apply the theorems to such deployments;
    they also hold runs that end differently than the code or its comments
    intend (most of them in [Examples.Divergences]).

    ** How the parts interact

    [verifyBPCRequest] captures a pair from the store, checks the payload, the
    clock, the nonce, both authenticators and the pair's policy, and claims one
    use of the pair; on the way it moves the counters of the anomaly engine, the
    failure score of the registry, the rate limiter and the audit log.  All of
    them live in one record, the [World], and every access is one step, so the
    theorems speak of requests, rotations, revocations and clock ticks that run
    interleaved.  The components are reached through classes
    ([PairStore], [NonceBackend], [RateLimiter], [AnomalyStore], ...), each with a
    class of laws where a client relies on one; the in-memory components are
    instances that discharge the laws.

    The outbox has a world of its own, [HA]: the source's database, the
    receiver's database, what was handed to the network and what the receiver
    decided.  Appends, publishers, receivers and fence changes are processes over
    it.  [Replicating] has [Rep], the primary's and the replica's stores with the
    queue between them.  The governed replay store has a world with the key space
    and the gates of any number of verifiers.

    The write authority of a stream is spread over three places: the source's own
    tables hold its lease and, after a promotion, its activation ([SourceDb]); the
    control database holds leases, cutover receipts and the epoch witness
    ([ControlDb]); the Redis members hold the fence ([FenceWorld]).
    [assertWritableInTx] asks all of them, and [WriteSafety] composes the
    guarantees of the three.  A snapshot and a promotion work on the tables of the
    outbox ([HaDb]), so their theorems speak of the same rows as [OutboxSafety].

    ** What is shown

    - Acceptance.  [Verification.verify_sound] gives every check that held of an
      accepted request, [Completeness.honest_request_accepted] that an honest one
      passes, [ReplaySafety.verify_accepts_once] that a signed payload is not
      accepted twice, [Linearization.verify_linearizes] that an acceptance is one
      atomic use of the pair as it was captured -- so a revocation is immediate
      ([Linearization.revoked_never_accepted]) -- and [UsageCap.claims_bounded]
      that concurrent claims respect the pair's limit.
    - Lifecycle.  Rotation commits one change of key, at most one of several
      rotations succeeds, approvals create one pair each, the in-memory store
      refines the specification on finite maps, failures lock a pair and slow
      ones never do.
    - Replay state.  [GovernedSafety.governed_single_use]: no nonce is accepted
      twice within its retention, with commands lost and the whole key space lost
      at any time.  Gates close on any improper reply and on a lost marker, open
      again after the quarantine, and stay open when the key space is restored
      from its own copy ([GovernedLive.snapshot_restore_undetected]).
    - Outbox.  [OutboxSafety.outbox_exactly_once]: the receiver's tables are the
      effect of the source's rows in order, each applied once, whatever the
      network and the commits do; one drain delivers everything when the network
      answers; digests bind every field; the bounded canonical form is the JSON
      text with sorted keys, within the bounds and only there.
    - Transactions.  [PgTransactor.transaction_outcome]: a transaction sends at most
      one COMMIT, returns only when it was confirmed, and an error other than the two
      that say so never hides a commit; every connection is given back once.
      [SqlStatement.executor_accepts_iff]: the scanner accepts one statement of its
      grammar.  [SqlStatement.hidden_commit_accepted] and
      [PgTransactor.escaped_commit_unreported]: where PostgreSQL reads a text
      differently, a COMMIT gets past it.
    - Transport.  A signed request is answered with 200 once
      ([HttpSafety.request_single_use]), a receipt returned was authenticated for
      this very attempt ([HttpSafety.reply_bound]), and between two ends with the
      same keys an exchange succeeds however the bodies are cut
      ([HttpExchange.exchange_accepted]).
    - Replication.  The replica's store is the source's first numbered operations
      applied in order; what the sender posts the receiver accepts; two runs show
      what this does not give, because operations are numbered after the
      primary's commit and the queue sheds the entry in flight.
    - Write authority.  A majority fence is granted for one record per epoch
      ([FenceSafety.fence_quorum_exclusive]); lease and cutover histories are
      chains whose epochs only advance ([LeaseSafety.lease_history_safe],
      [CutoverSafety.cutover_history_safe]); two sources that pass the write check
      for one stream and epoch are one holder ([WriteSafety.writers_exclusive]);
      an old source stops before its epoch is fenced and is refused after
      ([WriteSafety.fenced_after_writes], [WriteSafety.stale_source_refused]).
      [CutoverSafety.fence_retry_after_active]: a retried fence command that comes
      after the activation fails.
    - Promotion.  [SnapshotSafety.promotion_exact]: a promotion commits only over
      exactly the signed history and state; [SnapshotSafety.import_promotable]: a
      fresh receiver that imports the snapshot satisfies it.
    - Principals.  A binding rests on a fresh proof by the principal's key and one
      proof binds one session; the ledger's chains stay continuous under any
      interleaving and a checkpoint head pins all of its history; a fallback
      grants exactly what the sealed snapshot allows, once per challenge.
    - Caches and checkpoints.  A credential read back is one that was sealed for
      this state and identity; reservations of sequence numbers are unique over
      crashes and rollbacks of Redis; writes go to the primary endpoint only.
    - Codecs and logs.  Round trips of base64url, JSON and the envelopes;
      correctness of the request hash and of signatures; the audit chain verifies
      against its head and pins the log it anchors, also under concurrent appends.

    ** Conventions

    - Exceptions are values of [exc]; a rejected promise is [Throw].
    - Strings are sequences of UTF-16 code units 0..255; byte buffers are strings
      of bytes.  A [\u] escape above 00FF is outside the model and reported as a
      syntax error.  A number is its exact value; integers stay in the safe range,
      where binary64 does not round.  The numeric fields of the control records of
      bpc-ha-final.ts are integers: any other number is refused by every check.
    - One clock for all processes of a world; the environment moves it forward.
      The outbox transport and the write authority have the clocks the code has:
      the application's, the database's and the control clock.
    - Randomness, the fate of every transaction (committed, aborted, committed
      with its acknowledgement lost) and every reply of the network are fields of
      the world the environment chooses.  A command to a Redis member may be lost
      before or after it runs, and its answer may come too late.
    - Code outside the repository is a class parameter: WebCrypto and
      [node:crypto] ([NodeBuffer], [NodeBase64], [Ed25519]), the Redis commands,
      the jsonb column type, the receipt verifier and the sanitizer the deployer
      supplies, a replica's store, the platform's data protection.  Laws
      are documented behaviour: a verified signature was signed, SET NX PX keeps a
      key until it expires.  Collision resistance is never a law; theorems that
      need it say that the two preimages at hand collide, or conclude up to it.
    - A SERIALIZABLE transaction is one atomic step, and so is a transaction of
      the control database, which holds the advisory lock of its stream; what
      Redis answers and the control clock are its inputs.  A Lua script is one
      atomic step at one server time.

    ** Bounds and fuel

    - The JSON parser's fuel is [S (2 * length)]: every level of nesting reads a
      character, and the round trips of [Json] show it is enough for every text
      [stringify] produces.
    - Decimal digits use the binary logarithm of the number, which exceeds the
      count of its decimal digits.
    - The walk of the outbox's canonical form has room [CANON_MAX_DEPTH + 1] minus
      the depth: the code refuses a deeper value before it would descend.
    - A drain has a number of rounds; [OutboxLive.drain_delivers] shows that more
      rounds than pending rows end it.  The replicating store's drainer also has
      rounds: its theorems hold for any number of them.
    - The statement scanner's fuel is the length of the text: every lexeme has a
      character ([SqlStatement.executor_contract_error] shows it never runs out).  A
      transaction's attempts recurse on the retries it has left.
    - Expiry times of Redis keys are exact integers, equal to Redis's own text
      below 10^14 milliseconds.

    ** Not modelled

    - SQL that only the database interprets: the schemas and their attestation,
      the posture of the database role, the mutation tickets and the plpgsql
      functions that consume them (bpc-ha-final.ts, ha-outbox-pg.ts), and the
      statements of the PostgreSQL pair stores (pg-store.ts,
      pg-durable-pair-store.ts).  The tables, keys and CHECKs the modelled operations
      rely on are in the model.
    - The capabilities and deadlines of a transaction handle (ha-outbox-pg.ts),
      and timers that call a modelled operation again: theorems hold for calls at
      any times.
    - The file store, the HTTP administration handlers, and the client's key
      storage and registration over HTTP: input and output around the modelled
      contract.
    - Key generation and argon2: their bodies only call the platform.
    - Symbols, accessors, holes and class instances in JavaScript values: a
      [jsval] has none, so the checks that reject them have no counterpart.
      Likewise the saving of built-ins against later tampering: the model has no
      mutable built-ins.
    - Drills, demonstrations, and the packages in other languages. *)

From stdpp Require Import base gmap strings list fin_maps sorting.
From Stdlib Require Import ZArith Lia.
From Stdlib Require Export Ascii.

#[global] Set Default Goal Selector "!".

(** ** Notations *)

Declare Scope bpc_scope.
Delimit Scope bpc_scope with bpc.

Abbreviation str_len s := (Z.of_nat (String.length s)).

(** ** Automation *)

Create HintDb bpc.

(** Case analysis on the [if] / [match] under evaluation, keeping equations. *)
Ltac cases :=
  repeat first [ progress simplify_eq/= | case_decide | case_bool_decide | case_match ].
Ltac cases1 := first [ case_decide | case_bool_decide | case_match ]; simplify_eq/=.
Ltac btrue :=
  repeat match goal with
  | H : (_ && _)%bool = true |- _ => apply andb_true_iff in H; destruct H
  | H : bool_decide _ = true |- _ => apply bool_decide_eq_true in H
  | H : bool_decide _ = false |- _ => apply bool_decide_eq_false in H
  | H : negb _ = true |- _ => apply negb_true_iff in H
  | H : negb _ = false |- _ => apply negb_false_iff in H
  | H : (_ || _)%bool = false |- _ => apply orb_false_iff in H; destruct H
  end.

(** ** Exceptions

    JavaScript exceptions are values.  The constructors are the error classes
    the modelled code throws and, where it matters, tells apart with
    [instanceof]. *)

Inductive quarantine_reason :=
  | continuity_marker_lost
  | continuity_epoch_changed
  | continuity_config_mismatch
  | continuity_store_unavailable.
#[export] Instance quarantine_reason_eq_dec : EqDecision quarantine_reason.
Proof. solve_decision. Defined.

(** A point in time that may be [Number.POSITIVE_INFINITY]. *)
Inductive ztime := At (t : Z) | Never.
#[export] Instance ztime_eq_dec : EqDecision ztime.
Proof. solve_decision. Defined.

(** [now < until] *)
Definition before (now : Z) (until : ztime) : bool :=
  match until with At t => bool_decide (now < t)%Z | Never => true end.

Inductive error :=
  | TypeError (msg : string)
  | RangeError (msg : string)
  | PlainError (msg : string)
  | SyntaxError
  | InvalidCharacterError
  | NonceStoreUnavailableError
  | AuthorizationQuarantineError (reason : quarantine_reason) (until : ztime)
  | RedisContinuityConfigurationError (status : string)
  | EvictionPolicyError (policy : string)
  | ContractValidationError (msg : string)
  | StaleFenceError (presented current : Z)
  | OutboxBackpressureError (policy : string)
  | OutboxTransportError (msg : string) (retriable : bool)
  | AckVerificationUnavailableError
  | RollbackDetectedError (redisSequence : Z) (witnessSequence : string)
  | RedisAheadError (redisSequence : Z) (witnessSequence : string)
  | WitnessMissingError (namespace : string)
  | CheckpointUnavailableError
  | CheckpointInconsistentError (redisEpoch witnessEpoch : string)
  | CheckpointConflictError
  | MalformedCasError (epoch : string) (sequence : Z)
  | SequenceExhaustedError (sequence : Z)
  | NotAuthorizedError
  | PrimaryUnavailableError
  | CacheExpiredError
  | CacheTamperedError (msg : string)
  | CacheUnavailableError (msg : string)
  | ContinuityValidationError (msg : string)
  (** A statement, constraint or connection error of the PostgreSQL driver. *)
  | PgError (msg : string).
#[export] Instance error_eq_dec : EqDecision error.
Proof. solve_decision. Defined.

Inductive exc (A : Type) := Ret (a : A) | Throw (e : error).
Arguments Ret {A} a.
Arguments Throw {A} e.
#[export] Instance exc_eq_dec `{EqDecision A} : EqDecision (exc A).
Proof. solve_decision. Defined.

#[export] Instance exc_ret : MRet exc := λ A a, Ret a.
#[export] Instance exc_bind : MBind exc := λ A B f m,
  match m with Ret a => f a | Throw e => Throw e end.
#[export] Instance exc_fmap : FMap exc := λ A B f m,
  match m with Ret a => Ret (f a) | Throw e => Throw e end.

Definition exc_of_option {A} (e : error) (o : option A) : exc A :=
  match o with Some a => Ret a | None => Throw e end.

(** [try { m } catch { h }] *)
Definition catch {A} (m : exc A) (h : error → exc A) : exc A :=
  match m with Ret a => Ret a | Throw e => h e end.

Lemma exc_bind_Ret {A B} (m : exc A) (f : A → exc B) b :
  m ≫= f = Ret b ↔ ∃ a, m = Ret a ∧ f a = Ret b.
Proof. destruct m; simpl; naive_solver. Qed.

(** ** Insertion-ordered maps

    A JavaScript [Map] iterates in insertion order, and overwriting a key keeps
    its place.  The stores that evict "the oldest" entries rely on it. *)

Section omap.
Context {K V : Type} `{!EqDecision K}.
Implicit Types (m : list (K * V)) (k : K) (v : V).

Fixpoint om_get k m : option V :=
  match m with
  | [] => None
  | (k', v) :: m => if decide (k = k') then Some v else om_get k m
  end.

Fixpoint om_set k v m : list (K * V) :=
  match m with
  | [] => [(k, v)]
  | (k', v') :: m => if decide (k = k') then (k', v) :: m else (k', v') :: om_set k v m
  end.

Definition om_has k m : bool := bool_decide (is_Some (om_get k m)).

Definition om_delete k m : list (K * V) := filter (λ p, k ≠ p.1) m.

(** Keys of an insertion-ordered map are pairwise different. *)
Definition om_wf m := NoDup m.*1.

Lemma om_get_set k v m : om_get k (om_set k v m) = Some v.
Proof.
  induction m as [|[k' v'] m IH]; simpl; [by rewrite decide_True|].
  case_decide; subst; simpl; [by rewrite decide_True|]. by rewrite decide_False.
Qed.

Lemma om_get_set_ne k k' v m : k ≠ k' → om_get k' (om_set k v m) = om_get k' m.
Proof.
  intros Hne. induction m as [|[k1 v1] m IH]; simpl; [by rewrite decide_False|].
  case_decide; subst; simpl; [by rewrite !decide_False by congruence|].
  by rewrite IH.
Qed.

Lemma om_get_Some_elem k v m : om_get k m = Some v → (k, v) ∈ m.
Proof.
  induction m as [|[k' v'] m IH]; simpl; [done|].
  case_decide; intros; simplify_eq; set_solver.
Qed.

Lemma om_get_elem k v m : om_wf m → (k, v) ∈ m → om_get k m = Some v.
Proof.
  unfold om_wf. induction m as [|[k' v'] m IH]; simpl; [set_solver|].
  intros [Hni Hnd]%NoDup_cons. intros [?|Hin]%elem_of_cons; simplify_eq.
  { by rewrite decide_True. }
  case_decide; [subst; exfalso; apply Hni|by apply IH].
  apply list_elem_of_fmap. by exists (k', v).
Qed.

Lemma om_get_None k m : om_get k m = None ↔ k ∉ m.*1.
Proof.
  induction m as [|[k' v'] m IH]; simpl; [set_solver|].
  case_decide; [naive_solver set_solver|]. rewrite IH. set_solver.
Qed.

Lemma om_get_filter k m (P : K * V → Prop) `{!∀ x, Decision (P x)} :
  om_wf m → om_get k (filter P m) = (v ← om_get k m; if decide (P (k, v)) then Some v else None).
Proof.
  intros Hwf. induction m as [|[k' v'] m IH]; [done|].
  apply NoDup_cons in Hwf as [Hni Hwf]. specialize (IH Hwf).
  rewrite filter_cons. simpl.
  destruct (decide (k = k')) as [Heq|Hne]; destruct (decide (P (k', v'))) as [HP|HP]; simpl;
    subst; simpl; [by rewrite !decide_True| |by rewrite decide_False|done].
  rewrite decide_False by done. apply om_get_None.
  intros ([k1 v1] & ? & [_ Hin]%list_elem_of_filter)%list_elem_of_fmap.
  apply Hni, list_elem_of_fmap. by exists (k1, v1).
Qed.

Lemma om_wf_filter m (P : K * V → Prop) `{!∀ x, Decision (P x)} :
  om_wf m → om_wf (filter P m).
Proof.
  unfold om_wf. induction m as [|[k v] m IH]; [done|].
  simpl. intros [Hni Hnd]%NoDup_cons. rewrite filter_cons. case_decide; simpl; [|by apply IH].
  apply NoDup_cons; split; [|by apply IH].
  intros ([k1 v1] & ? & [_ Hin]%list_elem_of_filter)%list_elem_of_fmap.
  apply Hni, list_elem_of_fmap. by exists (k1, v1).
Qed.

Lemma om_keys_set k v m :
  (om_set k v m).*1 = if decide (k ∈ m.*1) then m.*1 else m.*1 ++ [k].
Proof.
  induction m as [|[k' v'] m IH]; simpl; [done|].
  destruct (decide (k = k')) as [->|Hne]; csimpl.
  { rewrite decide_True; [done|set_solver]. }
  rewrite IH. destruct (decide (k ∈ m.*1)).
  - rewrite decide_True; [done|set_solver].
  - rewrite decide_False; [done|set_solver].
Qed.

Lemma om_wf_set k v m : om_wf m → om_wf (om_set k v m).
Proof.
  unfold om_wf. intros Hnd. rewrite om_keys_set. case_decide; [done|].
  apply NoDup_app. split_and!; [done|set_solver|apply NoDup_singleton].
Qed.

Lemma om_wf_drop n m : om_wf m → om_wf (drop n m).
Proof.
  unfold om_wf. intros Hnd. rewrite fmap_drop. by eapply sublist_NoDup, sublist_drop.
Qed.

Lemma om_get_delete k m : om_wf m → om_get k (om_delete k m) = None.
Proof.
  intros Hwf. unfold om_delete. rewrite om_get_filter by done.
  destruct (om_get k m); simpl; [|done]. by rewrite decide_False by naive_solver.
Qed.

Lemma om_get_delete_ne k k' m : om_wf m → k ≠ k' → om_get k' (om_delete k m) = om_get k' m.
Proof.
  intros Hwf Hne. unfold om_delete. rewrite om_get_filter by done.
  destruct (om_get k' m); simpl; [|done]. by rewrite decide_True.
Qed.

Lemma om_length_set k v m :
  length (om_set k v m) = if decide (k ∈ m.*1) then length m else S (length m).
Proof.
  rewrite <-(length_fmap fst (om_set k v m)), om_keys_set.
  case_decide; rewrite ?length_app, length_fmap; simpl; lia.
Qed.
End omap.

#[export] Instance om_wf_proper {K V} : Proper ((≡ₚ) ==> iff) (@om_wf K V).
Proof. intros m m' Hp. unfold om_wf. by rewrite Hp. Qed.

#[export] Hint Resolve om_wf_set om_wf_filter om_wf_drop : bpc.

(** ** Small list and string facts *)

Definition list_sumZ {A} (f : A → Z) (l : list A) : Z := foldr (λ a s, f a + s)%Z 0%Z l.

Lemma length_filter_le {A} (P : A → Prop) `{!∀ x, Decision (P x)} (l : list A) :
  length (filter P l) ≤ length l.
Proof. apply length_filter. Qed.

(** Pigeonhole: elements with pairwise different values in a range. *)
Lemma filter_values {A} (P : A → Prop) `{!∀ x, Decision (P x)} (V : nat → Z → Prop) (l : list A) :
  (∀ i x, l !! i = Some x → P x → ∃ v, V i v) → (∀ i j v, V i v → V j v → i = j) →
  ∃ vs, length vs = length (filter P l) ∧ NoDup vs ∧ ∀ v, v ∈ vs → ∃ i, V i v.
Proof.
  revert V. induction l as [|x l IH]; intros V Hex Hinj.
  { exists []. split_and!; [done|constructor|set_solver]. }
  destruct (IH (λ i, V (S i))) as (vs & Hlen & Hnd & Hvs).
  - intros i y Hi. by apply (Hex (S i)).
  - intros i j v H1 H2. apply (Hinj _ _ _ H1) in H2. lia.
  - destruct (decide (P x)) as [Hx|Hx].
    + destruct (Hex 0%nat x eq_refl Hx) as [v Hv]. exists (v :: vs).
      rewrite filter_cons_True by done. simpl. split_and!; [by rewrite Hlen| |].
      * constructor; [|done]. intros Hin. destruct (Hvs _ Hin) as [i Hi].
        by apply (Hinj _ _ _ Hv) in Hi.
      * intros v' [->|Hin]%elem_of_cons; [by exists 0%nat|]. destruct (Hvs _ Hin) as [i Hi]. by exists (S i).
    + exists vs. rewrite filter_cons_False by done. split_and!; [done..|].
      intros v Hin. destruct (Hvs _ Hin) as [i Hi]. by exists (S i).
Qed.

Lemma filter_pigeonhole {A} (P : A → Prop) `{!∀ x, Decision (P x)} (V : nat → Z → Prop) (l : list A) lo hi :
  (∀ i x, l !! i = Some x → P x → ∃ v, V i v) → (∀ i j v, V i v → V j v → i = j) →
  (∀ i v, V i v → (lo <= v < hi)%Z) → (Z.of_nat (length (filter P l)) <= Z.max 0 (hi - lo))%Z.
Proof.
  intros Hex Hinj Hr. destruct (filter_values P V l Hex Hinj) as (vs & <- & Hnd & Hvs).
  assert (vs ⊆+ seqZ lo (hi - lo)) as Hsub.
  { apply NoDup_submseteq; [done|]. intros v Hin. destruct (Hvs v Hin) as [i Hi].
    apply elem_of_seqZ. specialize (Hr _ _ Hi). lia. }
  apply submseteq_length in Hsub. rewrite length_seqZ in Hsub. lia.
Qed.

Lemma string_app_cons c (a b : string) : String c a +:+ b = String c (a +:+ b).
Proof. done. Qed.
Lemma string_app_nil (b : string) : EmptyString +:+ b = b.
Proof. done. Qed.

(** Induction on the left operand of appends. *)
Ltac sinduct a :=
  induction a as [|? a IH]; rewrite ?string_app_nil, ?string_app_cons; simpl;
  rewrite ?string_app_nil, ?string_app_cons, ?IH; simpl; try congruence.

Lemma string_app_assoc (a b c : string) : (a +:+ b) +:+ c = a +:+ (b +:+ c).
Proof. sinduct a. Qed.
Lemma string_app_nil_r (a : string) : a +:+ EmptyString = a.
Proof. sinduct a. Qed.
Lemma string_length_app (a b : string) :
  String.length (a +:+ b) = String.length a + String.length b.
Proof. sinduct a. Qed.

#[export] Hint Rewrite string_app_assoc string_app_nil_r string_length_app : bpc.

(** Characters of a string, as a list. *)
Fixpoint chars (s : string) : list Ascii.ascii :=
  match s with EmptyString => [] | String c s => c :: chars s end.
Fixpoint unchars (l : list Ascii.ascii) : string :=
  match l with [] => EmptyString | c :: l => String c (unchars l) end.

Lemma chars_unchars l : chars (unchars l) = l.
Proof. induction l; simpl; congruence. Qed.
Lemma unchars_chars s : unchars (chars s) = s.
Proof. induction s; simpl; congruence. Qed.
Lemma chars_app a b : chars (a +:+ b) = chars a ++ chars b.
Proof. sinduct a. Qed.
Lemma length_chars s : length (chars s) = String.length s.
Proof. induction s; simpl; congruence. Qed.

#[export] Instance chars_inj : Inj (=) (=) chars.
Proof. intros a b H. by rewrite <-(unchars_chars a), H, unchars_chars. Qed.

(** [s.includes(p)] and [s.startsWith(p)]. *)
Definition starts_with (p s : string) : bool := String.prefix p s.
Fixpoint includes (p s : string) : bool :=
  (String.prefix p s ||
   match s with EmptyString => false | String _ s => includes p s end)%bool.

(** Every character satisfies [f] (regular expressions of the form [^[..]*$]). *)
Fixpoint all_chars (f : Ascii.ascii → bool) (s : string) : bool :=
  match s with EmptyString => true | String c s => (f c && all_chars f s)%bool end.

Lemma all_chars_app f a b : all_chars f (a +:+ b) = (all_chars f a && all_chars f b)%bool.
Proof. sinduct a. by rewrite andb_assoc. Qed.

(** Character classes used by the validators. *)
Definition char_code (c : Ascii.ascii) : N := Ascii.N_of_ascii c.
Definition char_in (lo hi : N) (c : Ascii.ascii) : bool :=
  (bool_decide (lo ≤ char_code c)%N && bool_decide (char_code c ≤ hi)%N)%bool.
Definition is_digit : Ascii.ascii → bool := char_in 48 57.
Definition is_upper : Ascii.ascii → bool := char_in 65 90.
Definition is_lower : Ascii.ascii → bool := char_in 97 122.
Definition is_alnum (c : Ascii.ascii) : bool := (is_digit c || is_upper c || is_lower c)%bool.
Definition is_hex_lower (c : Ascii.ascii) : bool := (is_digit c || char_in 97 102 c)%bool.
Definition is_hex (c : Ascii.ascii) : bool := (is_hex_lower c || char_in 65 70 c)%bool.
Definition one_of (s : string) (c : Ascii.ascii) : bool := bool_decide (c ∈ chars s).

(** [Number.MAX_SAFE_INTEGER] and [Number.isSafeInteger] on integers. *)
Definition MAX_SAFE_INTEGER : Z := 2 ^ 53 - 1.
Definition is_safe_integer (z : Z) : bool :=
  (bool_decide (- MAX_SAFE_INTEGER ≤ z)%Z && bool_decide (z ≤ MAX_SAFE_INTEGER)%Z)%bool.

(** The [positiveSafeInteger] guard the Redis and outbox modules share. *)
Definition positiveSafeInteger (value : Z) (label : string) : exc Z :=
  if (is_safe_integer value && bool_decide (0 < value)%Z)%bool then Ret value
  else Throw (RangeError (label +:+ " must be a positive safe integer")).
