(* ===== verification/Proc.v ===== *)
(** * Asynchronous code as resumptions

    An [async] function of the program is a value of [proc W A]: a tree of
    atomic steps over a shared world [W].  One step is what JavaScript runs
    between two [await]s on a shared component; other requests, timers and the
    clock run between the steps.  The file gives

    - the monad and its exception layer ([try]/[catch], [throw]);
    - [run], the uninterrupted execution, which computes;
    - [exec R], execution where an environment step allowed by the rely [R]
      happens before every atomic step, with inversion lemmas;
    - [wpg R G], rely-guarantee preconditions;
    - pools of processes under an arbitrary schedule, with their trace. *)

From S2P Require Import Prelude.
From stdpp Require Import base list relations.

Section proc.
Context {W : Type}.

Inductive proc (A : Type) : Type :=
  | Done (a : A)
  | Step (f : W → W * proc A).
#[global] Arguments Done {A} a.
#[global] Arguments Step {A} f.

(** One atomic call on the world that returns a value. *)
Definition call {A} (f : W → W * A) : proc A :=
  Step (λ w, let '(w', a) := f w in (w', Done a)).
Definition read {A} (f : W → A) : proc A := call (λ w, (w, f w)).
Definition update (f : W → W) : proc unit := call (λ w, (f w, tt)).

Fixpoint pbind {A B} (p : proc A) (k : A → proc B) : proc B :=
  match p with
  | Done a => k a
  | Step f => Step (λ w, match f w with (w', p') => (w', pbind p' k) end)
  end.

#[global] Instance proc_ret : MRet proc := λ A a, Done a.
#[global] Instance proc_bind : MBind proc := λ A B k p, pbind p k.

(** Exceptions inside processes: [eproc A] may throw. *)
Definition ebind {A B} (p : proc (exc A)) (k : A → proc (exc B)) : proc (exc B) :=
  pbind p (λ r, match r with Ret a => k a | Throw e => Done (Throw e) end).
Definition eret {A} (a : A) : proc (exc A) := Done (Ret a).
Definition ethrow {A} (e : error) : proc (exc A) := Done (Throw e).
Definition etry {A} (p : proc (exc A)) (h : error → proc (exc A)) : proc (exc A) :=
  pbind p (λ r, match r with Ret a => Done (Ret a) | Throw e => h e end).
Definition elift {A} (p : proc A) : proc (exc A) := pbind p eret.

(** Uninterrupted execution. *)
Fixpoint run {A} (p : proc A) (w : W) : W * A :=
  match p with
  | Done a => (w, a)
  | Step f => match f w with (w', p') => run p' w' end
  end.

Lemma run_bind {A B} (p : proc A) (k : A → proc B) w :
  run (pbind p k) w = (let '(w', a) := run p w in run (k a) w').
Proof.
  revert p w. fix IH 1. intros [a|f] w; [done|].
  cbn. destruct (f w) as [w' p']. apply IH.
Qed.

Lemma run_ebind {A B} (p : proc (exc A)) (k : A → proc (exc B)) w :
  run (ebind p k) w = match run p w with (w', Ret a) => run (k a) w' | (w', Throw e) => (w', Throw e) end.
Proof. unfold ebind. rewrite run_bind. by destruct (run p w) as [w' [a|e]]. Qed.

(** ** Execution under interference

    [exec R p w tr w' a]: started in [w], with an [R]-move of the environment
    before each of its steps, [p] ends with [a]; [w'] is the world after its
    last step and [tr] the list of its own steps, each with the world before
    and after. *)
Definition steps : Type := list (W * W).

Inductive exec (R : W → W → Prop) {A} : proc A → W → steps → W → A → Prop :=
  | exec_done a w : exec R (Done a) w [] w a
  | exec_step f w w1 w2 p' tr w' a :
      R w w1 → f w1 = (w2, p') → exec R p' w2 tr w' a →
      exec R (Step f) w ((w1, w2) :: tr) w' a.

Lemma exec_done_inv R {A} (x a : A) w tr w' :
  exec R (Done x) w tr w' a → a = x ∧ tr = [] ∧ w' = w.
Proof. by inversion 1. Qed.

Lemma exec_step_inv R {A} (f : W → W * proc A) w tr w' a :
  exec R (Step f) w tr w' a →
  ∃ w1 w2 p' tr', R w w1 ∧ f w1 = (w2, p') ∧ exec R p' w2 tr' w' a ∧ tr = (w1, w2) :: tr'.
Proof. inversion 1; subst. naive_solver. Qed.

Lemma exec_call_inv R {A} (f : W → W * A) w tr w' a :
  exec R (call f) w tr w' a → ∃ w1, R w w1 ∧ f w1 = (w', a) ∧ tr = [(w1, w')].
Proof.
  intros (w1 & w2 & p' & tr' & HR & Hf & Hex & ->)%exec_step_inv.
  destruct (f w1) as [w2' a'] eqn:Ef. injection Hf as <- <-.
  apply exec_done_inv in Hex as (-> & -> & ->). eauto.
Qed.

Lemma exec_bind_inv R {A B} (p : proc A) (k : A → proc B) w tr w' b :
  exec R (pbind p k) w tr w' b →
  ∃ a w1 tr1 tr2, exec R p w tr1 w1 a ∧ exec R (k a) w1 tr2 w' b ∧ tr = tr1 ++ tr2.
Proof.
  revert p w tr. fix IH 1. intros [a|f] w tr Hex.
  - exists a, w, [], tr. split_and!; [constructor|done|done].
  - cbn in Hex. apply exec_step_inv in Hex as (w1 & w2 & p' & tr' & HR & Hf & Hex & ->).
    destruct (f w1) as [w3 p''] eqn:Ef. injection Hf as -> <-.
    destruct (IH p'' w2 tr' Hex) as (a & w4 & tr1 & tr2 & Hp & Hk & ->).
    exists a, w4, ((w1, w2) :: tr1), tr2. split_and!; [|done|done]. by econstructor.
Qed.

Lemma exec_ebind_inv R {A B} (p : proc (exc A)) (k : A → proc (exc B)) w tr w' b :
  exec R (ebind p k) w tr w' (Ret b) →
  ∃ a w1 tr1 tr2, exec R p w tr1 w1 (Ret a) ∧ exec R (k a) w1 tr2 w' (Ret b) ∧ tr = tr1 ++ tr2.
Proof.
  intros ([a|e] & w1 & tr1 & tr2 & Hp & Hk & ->)%exec_bind_inv; [by eauto 10|].
  apply exec_done_inv in Hk as (? & _). done.
Qed.

(** The uninterrupted execution is one of them, and with [R] the identity the
    only one. *)
Lemma run_exec {A} (p : proc A) w : ∃ tr, exec eq p w tr (run p w).1 (run p w).2.
Proof.
  revert p w. fix IH 1. intros [a|f] w; simpl; [eexists; constructor|].
  destruct (f w) as [w' p'] eqn:Hf. destruct (IH p' w') as [tr Htr].
  eexists. econstructor; [done|exact Hf|exact Htr].
Qed.

Lemma exec_run {A} (p : proc A) w tr w' a : exec eq p w tr w' a → run p w = (w', a).
Proof.
  induction 1 as [|f w w1 w2 p' tr w' a <- Hf Hex IH]; simpl; [done|]. by rewrite Hf.
Qed.

Lemma exec_mono (R R' : W → W → Prop) {A} (p : proc A) w tr w' a :
  (∀ w1 w2, R w1 w2 → R' w1 w2) → exec R p w tr w' a → exec R' p w tr w' a.
Proof. intros HR. induction 1; econstructor; eauto. Qed.

(** ** Guarantees

    [wpg R G p Q w]: under the rely [R], every step of [p] from [w] satisfies
    [G], and the result satisfies [Q].  A process that has not finished is
    covered too. *)
Fixpoint wpg (R G : W → W → Prop) {A} (p : proc A) (Q : A → W → Prop) (w : W) : Prop :=
  match p with
  | Done a => Q a w
  | Step f => ∀ w1, R w w1 → match f w1 with (w2, p') => G w1 w2 ∧ wpg R G p' Q w2 end
  end.

Lemma wpg_exec R G {A} (p : proc A) Q w tr w' a :
  wpg R G p Q w → exec R p w tr w' a → Q a w' ∧ Forall (λ s, G s.1 s.2) tr.
Proof.
  intros Hwp Hex. induction Hex as [|f w w1 w2 p' tr w' a HR Hf Hex IH]; [done|].
  specialize (Hwp w1 HR). rewrite Hf in Hwp. destruct Hwp as [HG Hwp].
  destruct (IH Hwp). by repeat constructor.
Qed.

Lemma wpg_bind R G {A B} (p : proc A) (k : A → proc B) Q w :
  wpg R G p (λ a w', wpg R G (k a) Q w') w → wpg R G (pbind p k) Q w.
Proof.
  revert p w. fix IH 1. intros [a|f] w H; simpl in *; [done|].
  intros w1 HR. specialize (H w1 HR). destruct (f w1) as [w2 p']. destruct H. split; [done|]. by apply IH.
Qed.

Lemma wpg_mono R G {A} (p : proc A) (Q Q' : A → W → Prop) w :
  (∀ a w', Q a w' → Q' a w') → wpg R G p Q w → wpg R G p Q' w.
Proof.
  intros HQ. revert p w. fix IH 1. intros [a|f] w H; simpl in *; [by apply HQ|].
  intros w1 HR. specialize (H w1 HR). destruct (f w1) as [w2 p']. destruct H. split; [done|]. by apply IH.
Qed.

Lemma wpg_call R G {A} (f : W → W * A) Q w :
  (∀ w1, R w w1 → G w1 (f w1).1 ∧ Q (f w1).2 (f w1).1) → wpg R G (call f) Q w.
Proof. intros H w1 HR. specialize (H w1 HR). by destruct (f w1). Qed.

(** A precondition survives moves of a transitive rely. *)
Lemma wpg_stable R G {A} (p : proc A) (Q : A → W → Prop) w w' :
  (∀ w1 w2 w3, R w1 w2 → R w2 w3 → R w1 w3) → (∀ a w1 w2, R w1 w2 → Q a w1 → Q a w2) →
  R w w' → wpg R G p Q w → wpg R G p Q w'.
Proof.
  intros Htr HQ HR. destruct p as [a|f]; simpl; [by apply HQ|]. intros H w1 HR1. apply H. by eapply Htr.
Qed.

(** [always G p]: every step of [p], in whatever world it is taken, satisfies
    [G]. *)
Fixpoint always (G : W → W → Prop) {A} (p : proc A) : Prop :=
  match p with
  | Done _ => True
  | Step f => ∀ w, G w (f w).1 ∧ always G (f w).2
  end.

Lemma always_call G {A} (f : W → W * A) : (∀ w, G w (f w).1) → always G (call f).
Proof. intros H w. specialize (H w). simpl. by destruct (f w). Qed.

Lemma always_exec (G R : W → W → Prop) {A} (p : proc A) w tr w' a :
  always G p → exec R p w tr w' a → Forall (λ s, G s.1 s.2) tr.
Proof.
  intros Hp Hex. induction Hex as [|f w w1 w2 p' tr w' a _ Hf _ IH]; [done|].
  destruct (Hp w1) as [HG Hp']. rewrite Hf in HG, Hp'. constructor; [done|by apply IH].
Qed.

Lemma always_read (G : W → W → Prop) {A} (f : W → A) : (∀ w, G w w) → always G (read f).
Proof. intros H. by apply always_call. Qed.

Lemma always_bind G {A B} (p : proc A) (k : A → proc B) :
  always G p → (∀ a, always G (k a)) → always G (pbind p k).
Proof.
  intros Hp Hk. revert p Hp. fix IH 1. intros [a|f] Hp; simpl; [apply Hk|].
  intros w. destruct (Hp w) as [HG Hp']. destruct (f w) as [w' p']. split; [done|]. by apply IH.
Qed.

Lemma always_ebind G {A B} (p : proc (exc A)) (k : A → proc (exc B)) :
  always G p → (∀ a, always G (k a)) → always G (ebind p k).
Proof. intros Hp Hk. apply always_bind; [done|]. by intros [a|e]; [apply Hk|]. Qed.

(** ** Pools

    Processes take their steps in any order; the environment moves in between.
    The trace records who moved: [Some i] for process [i], [None] for the
    environment. *)
Definition ptrace : Type := list (option nat * (W * W)).

Inductive pool_run (R : W → W → Prop) {A} : list (proc A) → W → ptrace → W → list (proc A) → Prop :=
  | pool_stop ps w : pool_run R ps w [] w ps
  | pool_proc i f ps w w1 p' tr w' ps' :
      ps !! i = Some (Step f) → f w = (w1, p') → pool_run R (<[i := p']> ps) w1 tr w' ps' →
      pool_run R ps w ((Some i, (w, w1)) :: tr) w' ps'
  | pool_env ps w w1 tr w' ps' :
      R w w1 → pool_run R ps w1 tr w' ps' → pool_run R ps w ((None, (w, w1)) :: tr) w' ps'.

Lemma pool_length R {A} (ps ps' : list (proc A)) w tr w' : pool_run R ps w tr w' ps' → length ps' = length ps.
Proof. induction 1 as [|i f ps w w1 p' tr w' ps' _ _ _ IH|]; [done| |done]. by rewrite IH, length_insert. Qed.

Lemma pool_run_app R {A} (ps ps1 ps2 : list (proc A)) w tr w1 tr' w2 :
  pool_run R ps w tr w1 ps1 → pool_run R ps1 w1 tr' w2 ps2 → pool_run R ps w (tr ++ tr') w2 ps2.
Proof. induction 1; intros Hrun; [done|..]; simpl; by econstructor; eauto. Qed.

Lemma pool_run_mono (R R' : W → W → Prop) {A} (ps ps' : list (proc A)) w tr w' :
  (∀ w1 w2, R w1 w2 → R' w1 w2) → pool_run R ps w tr w' ps' → pool_run R' ps w tr w' ps'.
Proof. intros HR. induction 1; econstructor; eauto. Qed.

(** The steps of process [i]. *)
Definition own_steps (i : nat) (tr : list (option nat * (W * W))) : list (W * W) := (filter (λ e, e.1 = Some i) tr).*2.

(** A process of a pool runs as it would alone among other moves. *)
Lemma pool_exec R {A} (ps ps' : list (proc A)) w tr w' i p a :
  pool_run R ps w tr w' ps' → ps !! i = Some p → ps' !! i = Some (Done a) →
  ∀ w0, ∃ w1, exec (λ _ _, True) p w0 (own_steps i tr) w1 a.
Proof.
  intros Hrun. revert p. induction Hrun as [ps w|j f ps w w1 p' tr w' ps' Hj Hf Hrun IH|ps w w1 tr w' ps' HR Hrun IH];
    intros p Hi Hd w0.
  - simplify_eq. exists w0. constructor.
  - unfold own_steps. destruct (decide (i = j)) as [<-|Hne].
    + simplify_eq. rewrite filter_cons_True by done.
      destruct (IH p') with (w0 := w1) as [w2 Hex]; [|done|].
      { apply list_lookup_insert_eq. by apply lookup_lt_Some in Hj. }
      exists w2. by econstructor.
    + rewrite filter_cons_False by naive_solver. apply IH; [|done]. by rewrite list_lookup_insert_ne.
  - unfold own_steps. rewrite filter_cons_False by done. by apply IH.
Qed.

(** Rely-guarantee: when every process keeps [G] under the rely [R], the
    environment keeps [R], and [G] is contained in [R], then every step of the
    pool is an [R]-step and finished processes satisfy their postconditions. *)
Lemma pool_guarantee (R G : W → W → Prop) {A} (Q : nat → A → W → Prop) ps w tr w' ps' :
  (∀ w1 w2 w3, R w1 w2 → R w2 w3 → R w1 w3) → (∀ w1 w2, G w1 w2 → R w1 w2) → (∀ w1, R w1 w1) →
  (∀ i a w1 w2, R w1 w2 → Q i a w1 → Q i a w2) →
  pool_run R ps w tr w' ps' →
  (∀ i p, ps !! i = Some p → wpg R G p (Q i) w) →
  Forall (λ e, R e.2.1 e.2.2) tr ∧ (∀ i p, ps' !! i = Some p → wpg R G p (Q i) w').
Proof.
  intros Htr HGR Hrefl HQ. induction 1 as [ps w|j f ps w w1 p' tr w' ps' Hj Hf Hrun IH|ps w w1 tr w' ps' HR Hrun IH];
    intros Hps.
  - done.
  - pose proof (Hps j _ Hj w (Hrefl w)) as Hstep. rewrite Hf in Hstep. destruct Hstep as [HG Hp'].
    destruct IH as [Hall Hend].
    { intros i p Hi. destruct (decide (i = j)) as [->|Hne].
      - rewrite list_lookup_insert_eq in Hi by (by apply lookup_lt_Some in Hj). by simplify_eq.
      - rewrite list_lookup_insert_ne in Hi by done.
        eapply wpg_stable; [exact Htr|intros ???; apply HQ|by apply HGR|by apply Hps]. }
    split; [|done]. constructor; [by apply HGR|done].
  - destruct IH as [Hall Hend]; [|split; [by constructor|done]].
    intros i p Hi. eapply wpg_stable; [exact Htr|intros ???; apply HQ|exact HR|by apply Hps].
Qed.

(** In a pool of such processes every step that is not the environment's
    satisfies [G]. *)
Lemma pool_always R G {A} (ps ps' : list (proc A)) w tr w' :
  pool_run R ps w tr w' ps' → Forall (always G) ps →
  Forall (λ e, match e.1 with Some _ => G e.2.1 e.2.2 | None => R e.2.1 e.2.2 end) tr.
Proof.
  induction 1 as [ps w|j f ps w w1 p' tr w' ps' Hj Hf Hrun IH|ps w w1 tr w' ps' HR Hrun IH]; intros Hps.
  - constructor.
  - rewrite Forall_lookup in Hps. pose proof (Hps j _ Hj w) as [HG Hp']. rewrite Hf in HG, Hp'. simpl in *.
    constructor; [done|]. apply IH, Forall_insert; [by rewrite Forall_lookup|done].
  - constructor; [done|]. by apply IH.
Qed.

(** The worlds of a trace form a chain: from the end of one step to the start of
    any later one there are only steps of the trace. *)
Definition trace_step (tr : ptrace) (w1 w2 : W) : Prop := ∃ e, e ∈ tr ∧ e.2 = (w1, w2).

Lemma trace_step_cons e tr w1 w2 : trace_step tr w1 w2 → trace_step (e :: tr) w1 w2.
Proof. intros (e' & ? & ?). exists e'. split; [by apply elem_of_cons; right|done]. Qed.

Lemma trace_chain_cons e tr w1 w2 : rtc (trace_step tr) w1 w2 → rtc (trace_step (e :: tr)) w1 w2.
Proof. apply rtc_subrel. intros ??. apply trace_step_cons. Qed.

Lemma pool_chain_from R {A} (ps ps' : list (proc A)) w tr w' : pool_run R ps w tr w' ps' →
  ∀ tr2 e2 tr3, tr = tr2 ++ e2 :: tr3 → rtc (trace_step tr) w e2.2.1.
Proof.
  induction 1 as [ps w|j f ps w w1 p' tr w' ps' Hj Hf Hrun IH|ps w w1 tr w' ps' HR Hrun IH];
    intros tr2 e2 tr3 Heq; [by destruct tr2|destruct tr2 as [|e tr2]; simplify_eq/=; [done|]..].
  all: eapply rtc_l; [eexists; split; [by apply elem_of_cons; left|done]|].
  all: apply trace_chain_cons; by eapply IH.
Qed.

Lemma pool_chain R {A} (ps ps' : list (proc A)) w tr w' : pool_run R ps w tr w' ps' →
  ∀ tr1 e1 tr2 e2 tr3, tr = tr1 ++ e1 :: tr2 ++ e2 :: tr3 → rtc (trace_step tr) e1.2.2 e2.2.1.
Proof.
  induction 1 as [ps w|j f ps w w1 p' tr w' ps' Hj Hf Hrun IH|ps w w1 tr w' ps' HR Hrun IH];
    intros tr1 e1 tr2 e2 tr3 Heq; [by destruct tr1|destruct tr1 as [|e tr1]; simplify_eq/=..].
  1,3: apply trace_chain_cons; by eapply pool_chain_from.
  all: apply trace_chain_cons; by eapply IH.
Qed.
Lemma pool_chain_all R {A} (ps ps' : list (proc A)) w tr w' : pool_run R ps w tr w' ps' → rtc (trace_step tr) w w'.
Proof.
  induction 1 as [ps w|j f ps w w1 p' tr w' ps' Hj Hf Hrun IH|ps w w1 tr w' ps' HR Hrun IH]; [done|..].
  all: eapply rtc_l; [eexists; split; [by apply elem_of_cons; left|done]|by apply trace_chain_cons].
Qed.

Lemma pool_chain_to R {A} (ps ps' : list (proc A)) w tr w' : pool_run R ps w tr w' ps' →
  ∀ tr1 e1 tr2, tr = tr1 ++ e1 :: tr2 → rtc (trace_step tr) e1.2.2 w'.
Proof.
  induction 1 as [ps w|j f ps w w1 p' tr w' ps' Hj Hf Hrun IH|ps w w1 tr w' ps' HR Hrun IH];
    intros tr1 e1 tr2 Heq; [by destruct tr1|destruct tr1 as [|e tr1]; simplify_eq/=..].
  all: apply trace_chain_cons; first [by eapply pool_chain_all|by eapply IH].
Qed.

(** What runs after a step of the trace is again a run of the pool. *)
Lemma pool_suffix R {A} (ps ps' : list (proc A)) w tr w' : pool_run R ps w tr w' ps' →
  ∀ tr1 e tr2, tr = tr1 ++ e :: tr2 → ∃ ps1, pool_run R ps1 e.2.2 tr2 w' ps'.
Proof.
  induction 1 as [ps w|j f ps w w1 p' tr w' ps' Hj Hf Hrun IH|ps w w1 tr w' ps' HR Hrun IH];
    intros tr1 e tr2 Heq; [by destruct tr1|destruct tr1 as [|e' tr1]; simplify_eq/=; [by eexists|by eapply IH]..].
Qed.

(** Steps of one process are steps of the pool, in the same order. *)
Lemma own_steps_split i (tr : ptrace) b x a : own_steps i tr = b ++ x :: a →
  ∃ t1 t2, tr = t1 ++ (Some i, x) :: t2 ∧ own_steps i t2 = a.
Proof.
  revert b. unfold own_steps. induction tr as [|[o s] tr IH]; intros b Heq; [by destruct b|].
  destruct (decide (o = Some i)) as [->|Hne].
  - rewrite filter_cons_True in Heq by done. destruct b as [|y b]; simplify_eq/=.
    + by exists [], tr.
    + destruct (IH b) as (t1 & t2 & -> & Ha); [done|]. by exists ((Some i, y) :: t1), t2.
  - rewrite filter_cons_False in Heq by (simpl; congruence).
    destruct (IH b Heq) as (t1 & t2 & -> & Ha). by exists ((o, s) :: t1), t2.
Qed.

Lemma own_step_pool i (tr : ptrace) s : s ∈ own_steps i tr → (Some i, s) ∈ tr.
Proof.
  unfold own_steps. intros ([o s'] & -> & Hs)%list_elem_of_fmap. by apply list_elem_of_filter in Hs as [[= ->] Hs].
Qed.

(** A preorder that every step keeps is kept along the trace. *)
Lemma pool_rtc (K : W → W → Prop) `{!PreOrder K} (tr : ptrace) w1 w2 :
  Forall (λ e, K e.2.1 e.2.2) tr → rtc (trace_step tr) w1 w2 → K w1 w2.
Proof.
  rewrite Forall_forall. intros Hall. induction 1 as [w1|w1 w2 w3 (e & Hin & He) _ IH]; [done|].
  specialize (Hall e Hin). rewrite He in Hall. by etrans.
Qed.

(** Of two steps of different processes one comes first. *)
Lemma trace_order (tr : ptrace) i j x y : i ≠ j → (Some i, x) ∈ tr → (Some j, y) ∈ tr →
  ∃ t1 t2 t3, tr = t1 ++ (Some i, x) :: t2 ++ (Some j, y) :: t3 ∨ tr = t1 ++ (Some j, y) :: t2 ++ (Some i, x) :: t3.
Proof.
  intros Hne Hi Hj. destruct (list_elem_of_split _ _ Hi) as (t1 & t2 & ->).
  apply elem_of_app in Hj as [Hj|[Heq|Hj]%elem_of_cons]; [|by simplify_eq|].
  - destruct (list_elem_of_split _ _ Hj) as (t0 & t1' & ->). exists t0, t1', t2. right. by rewrite <-app_assoc.
  - destruct (list_elem_of_split _ _ Hj) as (t0 & t1' & ->). exists t1, t0, t1'. by left.
Qed.

(** ** Schedules

    A schedule names the process that moves next; a finished process is passed
    over.  It computes one run of the pool without environment moves. *)
Fixpoint sched {A} (sc : list nat) (ps : list (proc A)) (w : W) : ptrace * W * list (proc A) :=
  match sc with
  | [] => ([], w, ps)
  | i :: sc =>
      match ps !! i with
      | Some (Step f) =>
          let '(w1, p') := f w in
          let '(tr, w', ps') := sched sc (<[i := p']> ps) w1 in
          ((Some i, (w, w1)) :: tr, w', ps')
      | _ => sched sc ps w
      end
  end.

Lemma sched_pool R {A} sc (ps : list (proc A)) w tr w' ps' :
  sched sc ps w = (tr, w', ps') → pool_run R ps w tr w' ps'.
Proof.
  revert ps w tr. induction sc as [|i sc IH]; intros ps w tr; simpl.
  - intros [= <- <- <-]. constructor.
  - destruct (ps !! i) as [[a|f]|] eqn:Hi; [apply IH| |apply IH].
    destruct (f w) as [w1 p'] eqn:Hf. destruct (sched sc _ w1) as [[tr1 w2] ps2] eqn:Hs.
    intros [= <- <- <-]. econstructor; [done..|]. by apply IH.
Qed.

Lemma sched_snd R {A} sc (ps : list (proc A)) w :
  pool_run R ps w (sched sc ps w).1.1 (sched sc ps w).1.2 (sched sc ps w).2.
Proof. apply (sched_pool R sc). by destruct (sched sc ps w) as [[tr w'] ps']. Qed.
End proc.
Arguments steps W : clear implicits.
Arguments ptrace W : clear implicits.
Arguments proc W A : clear implicits.

(** Running a process of a component inside a larger world. *)
Section lens.
Context {V W : Type} (get : W → V) (put : V → W → W).

Fixpoint lift {A} (p : proc V A) : proc W A :=
  match p with
  | Done a => Done a
  | Step f => Step (λ w, match f (get w) with (v, p') => (put v w, lift p') end)
  end.

Lemma run_lift {A} (p : proc V A) w :
  (∀ v w, get (put v w) = v) → (∀ v v' w, put v (put v' w) = put v w) →
  (∀ w, put (get w) w = w) →
  run (lift p) w = (let '(v, a) := run p (get w) in (put v w, a)).
Proof.
  intros Hgp Hpp Hpg. revert p w. fix IH 1. intros [a|f] w; simpl; [by rewrite Hpg|].
  destruct (f (get w)) as [v p']. rewrite IH, Hgp.
  destruct (run p' v). by rewrite Hpp.
Qed.

End lens.

(** [let* x := p in k] awaits; [let+ x := p in k] awaits and passes an
    exception on; [do* p in k] ignores the value. *)
Notation "'let*' x ':=' p 'in' k" := (pbind p (λ x, k))
  (at level 200, x name, p at level 100, k at level 200, right associativity) : bpc_scope.
Notation "'let+' x ':=' p 'in' k" := (ebind p (λ x, k))
  (at level 200, x name, p at level 100, k at level 200, right associativity) : bpc_scope.
Notation "'do*' p 'in' k" := (pbind p (λ _, k))
  (at level 200, p at level 100, k at level 200, right associativity) : bpc_scope.
Notation "'do+' p 'in' k" := (ebind p (λ _, k))
  (at level 200, p at level 100, k at level 200, right associativity) : bpc_scope.
