(* ===== verification/ChainLink.v ===== *)
(** * Hash-linked lists

    A list whose entries carry a sequence number, the hash of their predecessor
    and their own hash; the loop that checks it from a starting point; and what a
    head pins: two lists that check from one starting point to one head in the same
    number of entries carry the same texts, or an entry of the one collides with an
    entry of the other. *)

From S2P Require Import Prelude.
From stdpp Require Import base strings list.
From Stdlib Require Import ZArith Lia.

(** What is wrong with the first entry that does not fit. *)
Inductive link_fault := bad_seq | bad_prev | bad_hash.

Section links.
Context {A : Type} (seq : A → Z) (prev hash compute : A → string).
Implicit Types (e : A) (l : list A) (i : Z) (p h : string).

(** [i] entries precede the list, and the last of them has the hash [p]; the
    result is the head, or the entry at fault. *)
Fixpoint check_links i p l : (A * link_fault) + string :=
  match l with
  | [] => inr p
  | e :: l =>
      if decide (seq e ≠ i + 1)%Z then inl (e, bad_seq)
      else if decide (prev e ≠ p) then inl (e, bad_prev)
      else if decide (compute e ≠ hash e) then inl (e, bad_hash)
      else check_links (i + 1) (hash e) l
  end.

Definition fits i p e : Prop := seq e = (i + 1)%Z ∧ prev e = p ∧ compute e = hash e.

Lemma check_links_cons i p e l h :
  check_links i p (e :: l) = inr h ↔ fits i p e ∧ check_links (i + 1) (hash e) l = inr h.
Proof.
  unfold fits. simpl. split; [intros H; by cases|]. intros ((-> & -> & ->) & H). by rewrite !decide_False by naive_solver.
Qed.

Lemma check_links_app i p l1 l2 h :
  check_links i p (l1 ++ l2) = inr h ↔
  ∃ h1, check_links i p l1 = inr h1 ∧ check_links (i + Z.of_nat (length l1)) h1 l2 = inr h.
Proof.
  revert i p. induction l1 as [|e l1 IH]; intros i p.
  - simpl. rewrite Z.add_0_r. naive_solver.
  - rewrite <-app_comm_cons, check_links_cons, IH.
    assert (i + 1 + Z.of_nat (length l1) = i + Z.of_nat (length (e :: l1)))%Z as -> by (simpl; lia).
    split.
    + intros (Hf & h1 & Hl & Hr). exists h1. by rewrite check_links_cons.
    + intros (h1 & [Hf Hl]%check_links_cons & Hr). eauto.
Qed.

(** An appended entry that fits extends the chain. *)
Lemma check_links_snoc i p l e h :
  check_links i p l = inr h → fits (i + Z.of_nat (length l)) h e → check_links i p (l ++ [e]) = inr (hash e).
Proof. intros Hl He. apply check_links_app. exists h. split; [done|]. by apply check_links_cons. Qed.

(** ** What a head pins *)

Context (digest : string → string) (text : A → string).
Hypothesis compute_digest : ∀ e, compute e = digest (text e).
Hypothesis text_prev : ∀ e1 e2, text e1 = text e2 → prev e1 = prev e2.

(** Two entries, one of each list, with different texts and one digest. *)
Definition collision l1 l2 : Prop :=
  ∃ e1 e2, e1 ∈ l1 ∧ e2 ∈ l2 ∧ text e1 ≠ text e2 ∧ digest (text e1) = digest (text e2).

Lemma collision_snoc l1 l2 e1 e2 : collision l1 l2 → collision (l1 ++ [e1]) (l2 ++ [e2]).
Proof. intros (x & y & Hx & Hy & Hc). exists x, y. rewrite !elem_of_app. tauto. Qed.

Lemma head_pins i p l1 l2 h :
  check_links i p l1 = inr h → check_links i p l2 = inr h → length l1 = length l2 →
  text <$> l1 = text <$> l2 ∨ collision l1 l2.
Proof.
  revert l2 h. induction l1 as [|e1 l1 IH] using rev_ind; intros l2 h H1 H2 Hlen; [by destruct l2; left|].
  destruct l2 as [|e2 l2 _] using rev_ind; rewrite length_app in Hlen; [simpl in Hlen; lia|].
  rewrite length_app in Hlen. simpl in Hlen. assert (length l1 = length l2) as Hl by lia.
  apply check_links_app in H1 as (h1 & H1 & (F1 & [= Hh1])%check_links_cons).
  apply check_links_app in H2 as (h2 & H2 & (F2 & [= Hh2])%check_links_cons).
  destruct F1 as (_ & Hp1 & Hc1), F2 as (_ & Hp2 & Hc2).
  destruct (decide (text e1 = text e2)) as [Ht|Ht].
  - assert (h1 = h2) as <- by (rewrite <-Hp1, <-Hp2; by apply text_prev).
    destruct (IH l2 h1 H1 H2 Hl) as [Heq|]; [left|by right; apply collision_snoc]. by rewrite !fmap_app, Heq; simpl; rewrite Ht.
  - right. exists e1, e2. rewrite !elem_of_app, !list_elem_of_singleton. split_and!; [by right..|done|]. rewrite <-!compute_digest. congruence.
Qed.
End links.
