(* ===== verification/JsNum.v ===== *)
(** * JavaScript numbers

    A finite number is modelled by its exact value, a finite decimal
    [dm / 10 ^ dk] in lowest terms (every binary64 value is one).  Rounding to
    binary64 is not modelled: integers the code computes with stay in the safe
    range, where it does not round.  [num_to_string] is [Number::toString] on
    numbers that print without an exponent. *)

From S2P Require Import Prelude.
From stdpp Require Import base strings list.
From Stdlib Require Import ZArith Lia.

Local Open Scope Z_scope.

Record dec := Dec { dm : Z; dk : nat }.
#[export] Instance dec_eq_dec : EqDecision dec.
Proof. solve_decision. Defined.

Inductive num := Fin (d : dec) | Inf (neg : bool) | NaN.
#[export] Instance num_eq_dec : EqDecision num.
Proof. solve_decision. Defined.

Definition int (z : Z) : num := Fin (Dec z 0).

(** Lowest terms: drop trailing zeros of the fraction. *)
Fixpoint dec_norm (m : Z) (k : nat) : dec :=
  match k with
  | O => Dec m 0
  | S k' => if decide (m mod 10 = 0) then dec_norm (m / 10) k' else Dec m k
  end.

Definition pow10 (k : nat) : Z := 10 ^ Z.of_nat k.

(** [x + z] and [x / 2 ^ w]. *)
Definition dec_addZ (x : dec) (z : Z) : dec := dec_norm (dm x + z * pow10 (dk x)) (dk x).
Definition dec_half (x : dec) (w : nat) : dec :=
  dec_norm (dm x * 5 ^ Z.of_nat w) (dk x + w).

(** [x < z], [x <= z] and [x >= z] for an integer [z]. *)
Definition dec_ltZ (x : dec) (z : Z) : bool := bool_decide (dm x < z * pow10 (dk x)).
Definition dec_geZ (x : dec) (z : Z) : bool := bool_decide (z * pow10 (dk x) <= dm x).

(** [Math.abs(z - x) > bound]. *)
Definition dec_far (z : Z) (x : dec) (bound : Z) : bool :=
  bool_decide (bound * pow10 (dk x) < Z.abs (z * pow10 (dk x) - dm x)).

Definition num_is_finite (n : num) : bool := match n with Fin _ => true | _ => false end.

(** [x < y] and [x <= y] on any two numbers: false when one is NaN. *)
Definition dec_ltb (x y : dec) : bool := bool_decide (dm x * pow10 (dk y) < dm y * pow10 (dk x)).
Definition dec_leb (x y : dec) : bool := bool_decide (dm x * pow10 (dk y) <= dm y * pow10 (dk x)).
Definition num_ltb (x y : num) : bool :=
  match x, y with
  | NaN, _ | _, NaN => false
  | Fin a, Fin b => dec_ltb a b
  | Inf true, Inf true => false | Inf true, _ => true
  | Inf false, _ => false
  | Fin _, Inf neg => negb neg
  end.
Definition num_leb (x y : num) : bool :=
  match x, y with
  | NaN, _ | _, NaN => false
  | Fin a, Fin b => dec_leb a b
  | Inf true, _ => true
  | Inf false, Inf neg => negb neg | Inf false, Fin _ => false
  | Fin _, Inf neg => negb neg
  end.
(** [Math.abs(z - n)] for an integer [z]. *)
Definition num_dist (z : Z) (n : num) : num :=
  match n with
  | Fin d => Fin (Dec (Z.abs (z * pow10 (dk d) - dm d)) (dk d))
  | Inf _ => Inf false
  | NaN => NaN
  end.

(** [Number.isSafeInteger(n)], with the integer it then is. *)
Definition num_safe_int (n : num) : option Z :=
  match n with
  | Fin (Dec z 0) => if is_safe_integer z then Some z else None
  | _ => None
  end.

Lemma pow10_pos k : 0 < pow10 k.
Proof. apply Z.pow_pos_nonneg; lia. Qed.
(** The order is total but for NaN: a comparison fails when the opposite one holds
    or when one side is NaN. *)
Lemma num_ltb_false x y : num_ltb x y = false ↔ x = NaN ∨ y = NaN ∨ num_leb y x = true.
Proof.
  destruct x as [a|[]|], y as [b|[]|]; simpl; try naive_solver.
  unfold dec_ltb, dec_leb. rewrite bool_decide_eq_false, bool_decide_eq_true. split; [intros; right; right; lia|].
  intros [?|[?|?]]; (done || lia).
Qed.
Lemma num_leb_false x y : num_leb x y = false ↔ x = NaN ∨ y = NaN ∨ num_ltb y x = true.
Proof.
  destruct x as [a|[]|], y as [b|[]|]; simpl; try naive_solver.
  unfold dec_ltb, dec_leb. rewrite bool_decide_eq_false, bool_decide_eq_true. split; [intros; right; right; lia|].
  intros [?|[?|?]]; (done || lia).
Qed.
Lemma num_dist_NaN z n : num_dist z n = NaN ↔ n = NaN.
Proof. by destruct n. Qed.

(** Two moments near one timestamp are near each other. *)
Lemma dec_far_near t1 t2 ts k : dec_far t1 ts k = false → dec_far t2 ts k = false → (t1 <= t2 + 2 * k)%Z.
Proof.
  unfold dec_far. rewrite !bool_decide_eq_false. pose proof (pow10_pos (dk ts)). nia.
Qed.

Lemma pow10_S k : pow10 (S k) = 10 * pow10 k.
Proof. unfold pow10. rewrite Nat2Z.inj_succ, Z.pow_succ_r; lia. Qed.
Lemma pow10_add a b : pow10 (a + b) = pow10 a * pow10 b.
Proof. unfold pow10. rewrite Nat2Z.inj_add, Z.pow_add_r; lia. Qed.

(** Normalisation keeps the value. *)
Lemma dec_norm_value m k :
  dm (dec_norm m k) * pow10 k = m * pow10 (dk (dec_norm m k)).
Proof.
  revert m. induction k as [|k IH]; intros m; simpl; [done|].
  case_decide as Hm; simpl; [|done].
  specialize (IH (m / 10)). rewrite pow10_S.
  pose proof (Z.div_mod m 10 ltac:(lia)) as Hd. rewrite Hm in Hd.
  replace m with (10 * (m / 10)) at 2 by lia. lia.
Qed.

(** [x] is at least / below [z] exactly when its value is. *)
Lemma dec_norm_lt m k z :
  dec_ltZ (dec_norm m k) z = bool_decide (m < z * pow10 k).
Proof.
  unfold dec_ltZ. apply bool_decide_ext.
  pose proof (dec_norm_value m k). pose proof (pow10_pos k).
  pose proof (pow10_pos (dk (dec_norm m k))). nia.
Qed.

(** ** Decimal digits *)

Definition digit_char (d : Z) : Ascii.ascii := Ascii.ascii_of_N (Z.to_N (48 + d)).
Definition digit_val (c : Ascii.ascii) : Z := Z.of_N (char_code c) - 48.

Fixpoint digits_go (fuel : nat) (n : Z) (acc : string) : string :=
  match fuel with
  | O => acc
  | S fuel =>
      let acc' := String (digit_char (n mod 10)) acc in
      if decide (n < 10) then acc' else digits_go fuel (n / 10) acc'
  end.

(** Digits of a natural number; [log2] of the number bounds their count. *)
Definition digits (n : Z) : string := digits_go (S (Z.to_nat (Z.log2 n))) n EmptyString.

Definition z_to_string (z : Z) : string :=
  if decide (z < 0) then "-" +:+ digits (- z) else digits z.

(** A fraction of [k] digits after the point, with leading zeros. *)
Fixpoint pad_zeros (k : nat) (s : string) : string :=
  match k with
  | O => s
  | S k => if decide (String.length s < S k)%nat then String "0"%char (pad_zeros k s) else s
  end.

Definition num_to_string (n : num) : string :=
  match n with
  | Fin (Dec m O) => z_to_string m
  | Fin (Dec m k) =>
      let a := Z.abs m in
      (if decide (m < 0) then "-" else EmptyString) +:+
      digits (a / pow10 k) +:+ "." +:+ pad_zeros k (digits (a mod pow10 k))
  | Inf false => "Infinity"
  | Inf true => "-Infinity"
  | NaN => "NaN"
  end.

(** Value of a digit string read after the value [v]. *)
Fixpoint digits_value (v : Z) (s : string) : Z :=
  match s with EmptyString => v | String c s => digits_value (v * 10 + digit_val c) s end.

Lemma digit_char_val d : 0 <= d < 10 → digit_val (digit_char d) = d.
Proof.
  intros Hd. unfold digit_val, digit_char, char_code.
  rewrite Ascii.N_ascii_embedding by lia. lia.
Qed.

Lemma digit_char_is_digit d : 0 <= d < 10 → is_digit (digit_char d) = true.
Proof.
  intros Hd. unfold is_digit, char_in, digit_char, char_code.
  rewrite Ascii.N_ascii_embedding by lia.
  by rewrite !bool_decide_eq_true_2 by lia.
Qed.

Lemma log2_div10 n : 10 <= n → Z.log2 (n / 10) < Z.log2 n.
Proof.
  intros Hn. apply Z.le_lt_trans with (Z.log2 (n / 2)).
  { apply Z.log2_le_mono. apply Z.div_le_compat_l; lia. }
  rewrite <-Z.div2_div. change (Z.div2 n) with (Z.shiftr n 1).
  rewrite Z.log2_shiftr by lia.
  assert (1 <= Z.log2 n) by (apply Z.log2_le_pow2; lia). lia.
Qed.

Lemma digits_go_value fuel n acc :
  0 <= n → (Z.log2 n < Z.of_nat fuel) → digits_value 0 (digits_go fuel n acc) = digits_value n acc.
Proof.
  revert n acc. induction fuel as [|fuel IH]; intros n acc Hn Hf.
  { pose proof (Z.log2_nonneg n). lia. }
  simpl. case_decide as H10; simpl.
  - rewrite Z.mod_small, digit_char_val by lia. done.
  - rewrite IH; simpl.
    + rewrite digit_char_val by (apply Z.mod_pos_bound; lia).
      f_equal. pose proof (Z.div_mod n 10). lia.
    + apply Z.div_pos; lia.
    + pose proof (log2_div10 n). lia.
Qed.

Lemma digits_go_all fuel n acc :
  0 <= n → all_chars is_digit acc = true → all_chars is_digit (digits_go fuel n acc) = true.
Proof.
  revert n acc. induction fuel as [|fuel IH]; intros n acc Hn Hacc; simpl; [done|].
  pose proof (Z.mod_pos_bound n 10 ltac:(lia)).
  assert (all_chars is_digit (String (digit_char (n mod 10)) acc) = true).
  { simpl. by rewrite digit_char_is_digit, Hacc by lia. }
  case_decide; [done|]. apply IH; [apply Z.div_pos; lia|done].
Qed.

Lemma digits_value_digits n : 0 <= n → digits_value 0 (digits n) = n.
Proof.
  intros Hn. unfold digits. rewrite digits_go_value; [done|done|].
  pose proof (Z.log2_nonneg n). lia.
Qed.

Lemma digits_all n : 0 <= n → all_chars is_digit (digits n) = true.
Proof. intros Hn. by apply digits_go_all. Qed.

Lemma digits_go_head fuel n acc :
  0 < n → Z.log2 n < Z.of_nat fuel → ∃ c s, digits_go fuel n acc = String c s ∧
    is_digit c = true ∧ c ≠ "0"%char.
Proof.
  revert n acc. induction fuel as [|fuel IH]; intros n acc Hn Hf.
  { pose proof (Z.log2_nonneg n). lia. }
  simpl. case_decide as H10.
  - eexists _, _; split; [done|]. rewrite Z.mod_small by lia.
    split; [apply digit_char_is_digit; lia|].
    intros Heq. apply (f_equal digit_val) in Heq. rewrite digit_char_val in Heq by lia.
    cbv in Heq. lia.
  - apply IH; [apply Z.div_str_pos; lia|].
    pose proof (log2_div10 n). lia.
Qed.

(** A digit string is ["0"] or starts with a non-zero digit. *)
Lemma digits_shape n : 0 <= n →
  (n = 0 ∧ digits n = "0") ∨
  (0 < n ∧ ∃ c s, digits n = String c s ∧ is_digit c = true ∧ c ≠ "0"%char).
Proof.
  intros Hn. destruct (decide (n = 0)) as [->|Hne]; [by left|right].
  split; [lia|]. apply digits_go_head; [lia|]. pose proof (Z.log2_nonneg n). lia.
Qed.

Lemma digits_inj a b : 0 <= a → 0 <= b → digits a = digits b → a = b.
Proof.
  intros Ha Hb H. by rewrite <-(digits_value_digits a), <-(digits_value_digits b), H.
Qed.

Example num_to_string_frac : num_to_string (Fin (Dec (-1205) 2)) = "-12.05".
Proof. reflexivity. Qed.
Example dec_half_ex : dec_half (Dec 9 0) 1 = Dec 45 1.
Proof. reflexivity. Qed.
