(* ===== verification/Encoding.v ===== *)
(** * Base64url and UTF-8 (packages/core/src/encoding.ts)

    A string is a sequence of UTF-16 code units; the model covers the code units
    0..255, and a byte buffer is a string of bytes.  [btoa] and [atob] are the
    platform functions (forgiving base64 of the WHATWG Infra standard),
    [b64url] and [b64urlDecode] the functions of the source. *)

From S2P Require Import Prelude.
From stdpp Require Import base strings list.
From Stdlib Require Import NArith ZArith Lia ZifyNat.

Local Open Scope N_scope.

Definition codes (s : string) : list N := char_code <$> chars s.
Definition of_codes (l : list N) : string := unchars (ascii_of_N <$> l).

(** The base64 alphabet. *)
Definition b64_char (v : N) : ascii :=
  ascii_of_N
    (if decide (v < 26) then v + 65
     else if decide (v < 52) then v + 71
     else if decide (v < 62) then v - 4
     else if decide (v = 62) then 43 else 47).

Definition b64_val (c : ascii) : option N :=
  let n := char_code c in
  if is_upper c then Some (n - 65)
  else if is_lower c then Some (n - 71)
  else if is_digit c then Some (n + 4)
  else if decide (n = 43) then Some 62
  else if decide (n = 47) then Some 63
  else None.

(** Bytes to 6-bit groups and back; incomplete groups drop the unused bits. *)
Fixpoint b64_enc (l : list N) : list N :=
  match l with
  | a :: b :: c :: t =>
      a / 4 :: (a mod 4) * 16 + b / 16 :: (b mod 16) * 4 + c / 64 :: c mod 64 :: b64_enc t
  | [a; b] => [a / 4; (a mod 4) * 16 + b / 16; (b mod 16) * 4]
  | [a] => [a / 4; (a mod 4) * 16]
  | [] => []
  end.

Fixpoint b64_dec (l : list N) : list N :=
  match l with
  | a :: b :: c :: d :: t =>
      a * 4 + b / 16 :: (b mod 16) * 16 + c / 4 :: (c mod 4) * 64 + d :: b64_dec t
  | [a; b; c] => [a * 4 + b / 16; (b mod 16) * 16 + c / 4]
  | [a; b] => [a * 4 + b / 16]
  | _ => []
  end.

(** [(4 - n % 4) % 4] *)
Definition pad_len (n : nat) : nat := ((4 - n mod 4) mod 4)%nat.

Definition btoa (s : string) : string :=
  let v := b64_enc (codes s) in
  unchars ((b64_char <$> v) ++ replicate (pad_len (length v)) "="%char).

Definition is_ascii_space (c : ascii) : bool :=
  bool_decide (char_code c ∈ [9; 10; 12; 13; 32]).

(** Drop one [=] from the end, if there is one. *)
Definition strip_pad (l : list ascii) : list ascii :=
  match reverse l with
  | c :: r => if decide (c = "="%char) then reverse r else l
  | [] => l
  end.

Definition atob (s : string) : exc string :=
  let l := filter (λ c, is_ascii_space c = false) (chars s) in
  let l := if decide (length l mod 4 = 0)%nat then strip_pad (strip_pad l) else l in
  if decide (length l mod 4 = 1)%nat then Throw InvalidCharacterError
  else match mapM b64_val l with
       | Some v => Ret (of_codes (b64_dec v))
       | None => Throw InvalidCharacterError
       end.

(** [s.replace(/a/g, 'b')] for single characters. *)
Definition replace_char (a b : ascii) (s : string) : string :=
  unchars ((λ c, if decide (c = a) then b else c) <$> chars s).
Definition remove_char (a : ascii) (s : string) : string :=
  unchars (filter (λ c, c ≠ a) (chars s)).

Definition b64url (buf : string) : string :=
  remove_char "="%char
    (replace_char "/"%char "_"%char (replace_char "+"%char "-"%char (btoa buf))).

Definition b64urlDecode (str : string) : exc string :=
  let padded := replace_char "_"%char "/"%char (replace_char "-"%char "+"%char str) in
  let padLen := pad_len (String.length padded) in
  atob (padded +:+ unchars (replicate padLen "="%char)).

(** [TextEncoder.encode]: UTF-8 of the code units 0..255. *)
Fixpoint utf8_encode (s : string) : string :=
  match s with
  | EmptyString => EmptyString
  | String c s =>
      let n := char_code c in
      if decide (n < 128) then String c (utf8_encode s)
      else String (ascii_of_N (192 + n / 64))
             (String (ascii_of_N (128 + n mod 64)) (utf8_encode s))
  end.

Definition is_ascii (s : string) : bool := all_chars (char_in 0 127) s.

(** ** Facts *)

Lemma char_code_bound c : char_code c < 256.
Proof. apply N_ascii_bounded. Qed.

Lemma codes_bound s : Forall (λ n, n < 256) (codes s).
Proof. apply Forall_fmap, Forall_true. intros c. apply char_code_bound. Qed.

Lemma of_codes_codes s : of_codes (codes s) = s.
Proof.
  unfold of_codes, codes. rewrite <-list_fmap_compose.
  rewrite (list_fmap_ext _ id (chars s)).
  - by rewrite list_fmap_id, unchars_chars.
  - intros i c _. apply ascii_N_embedding.
Qed.

(** A property of the 64 digits, checked one by one. *)
Lemma N_below (P : N → bool) (n : N) k :
  forallb (λ i, P (N.of_nat i)) (seq 0 k) = true → n < N.of_nat k → P n = true.
Proof.
  intros Hall Hn. rewrite forallb_forall in Hall.
  rewrite <-(N2Nat.id n). apply Hall, in_seq. lia.
Qed.

Lemma b64_val_char v : v < 64 → b64_val (b64_char v) = Some v.
Proof.
  intros Hv.
  assert (bool_decide (b64_val (b64_char v) = Some v) = true) as H.
  { apply (N_below (λ v, bool_decide (b64_val (b64_char v) = Some v)) v 64); [by vm_compute|done]. }
  by apply bool_decide_eq_true in H.
Qed.

(** The URL-safe digit of a 6-bit value. *)
Definition to_url (c : ascii) : ascii :=
  let c := if decide (c = "+"%char) then "-"%char else c in
  if decide (c = "/"%char) then "_"%char else c.
Definition from_url (c : ascii) : ascii :=
  let c := if decide (c = "-"%char) then "+"%char else c in
  if decide (c = "_"%char) then "/"%char else c.

Definition is_b64url_char (c : ascii) : bool := (is_alnum c || one_of "-_" c)%bool.

Definition b64_char_ok (v : N) : bool :=
  (bool_decide (from_url (to_url (b64_char v)) = b64_char v) &&
   is_b64url_char (to_url (b64_char v)) &&
   bool_decide (to_url (b64_char v) ≠ "="%char) &&
   bool_decide (b64_char v ≠ "="%char) &&
   negb (is_ascii_space (b64_char v)))%bool.

Lemma b64_char_facts v : v < 64 → b64_char_ok v = true.
Proof. apply (N_below b64_char_ok v 64). by vm_compute. Qed.

(** The values a 6-bit group can take. *)
Lemma group_bounds (a b : N) : a < 256 → b < 256 →
  a / 4 < 64 ∧ a mod 4 * 16 + b / 16 < 64 ∧ a mod 16 * 4 + b / 64 < 64 ∧
  a mod 4 * 16 < 64 ∧ a mod 16 * 4 < 64 ∧ a mod 64 < 64.
Proof. intros. zify. Z.to_euclidean_division_equations. lia. Qed.

(** Induction on lists that are consumed in steps of several elements. *)
Lemma list_strong_ind {A} (P : list A → Prop) :
  (∀ l, (∀ l', length l' < length l → P l')%nat → P l) → ∀ l, P l.
Proof.
  intros HP l. remember (length l) as k eqn:Hk. revert l Hk.
  induction k as [k IH] using (well_founded_induction lt_wf). intros l ->.
  apply HP. intros l' Hl. by eapply IH.
Qed.

Lemma b64_enc_bound l : Forall (λ n, n < 256) l → Forall (λ v, v < 64) (b64_enc l).
Proof.
  induction l as [l IH] using list_strong_ind. intros Hl.
  destruct l as [|a [|b [|c t]]]; decompose_Forall_hyps; cbn [b64_enc].
  - done.
  - pose proof (group_bounds a a). naive_solver.
  - pose proof (group_bounds a b). pose proof (group_bounds b a). naive_solver.
  - pose proof (group_bounds a b). pose proof (group_bounds b c). pose proof (group_bounds c a).
    do 4 (constructor; [naive_solver|]). apply IH; simpl; [lia|done].
Qed.

Lemma b64_dec_enc l : Forall (λ n, n < 256) l → b64_dec (b64_enc l) = l.
Proof.
  induction l as [l IH] using list_strong_ind. intros Hl.
  destruct l as [|a [|b [|c t]]]; [done|..]; decompose_Forall_hyps; cbn [b64_enc b64_dec].
  - f_equal. zify; Z.to_euclidean_division_equations; lia.
  - f_equal; [|f_equal]; zify; Z.to_euclidean_division_equations; lia.
  - rewrite IH; [|simpl; lia|done].
    f_equal; [|f_equal; [|f_equal]]; zify; Z.to_euclidean_division_equations; lia.
Qed.

Lemma length_b64_enc l : length (b64_enc l) = ((4 * length l + 2) / 3)%nat.
Proof.
  induction l as [l IH] using list_strong_ind.
  destruct l as [|a [|b [|c t]]]; cbn [b64_enc length]; [done..|].
  rewrite IH by (simpl; lia).
  replace (4 * S (S (S (length t))) + 2)%nat with (4 * length t + 2 + 4 * 3)%nat by lia.
  rewrite Nat.div_add by lia. lia.
Qed.

Lemma length_b64_enc_mod l : (length (b64_enc l) mod 4 ≠ 1)%nat.
Proof.
  rewrite length_b64_enc. intros H. zify. Z.to_euclidean_division_equations. lia.
Qed.

(** What the two wrappers compute on the digits. *)
Lemma remove_char_app a s t : remove_char a (s +:+ t) = remove_char a s +:+ remove_char a t.
Proof.
  apply (inj chars). unfold remove_char. by rewrite !chars_unchars, !chars_app, !chars_unchars, filter_app.
Qed.

Lemma b64url_digits buf :
  chars (b64url buf) = (λ v, to_url (b64_char v)) <$> b64_enc (codes buf).
Proof.
  unfold b64url, btoa, remove_char, replace_char.
  rewrite !chars_unchars, !fmap_app, !fmap_replicate, filter_app.
  pose proof (b64_enc_bound _ (codes_bound buf)) as Hb. revert Hb.
  generalize (b64_enc (codes buf)). intros l Hb.
  rewrite <-!list_fmap_compose.
  replace (filter _ (replicate _ _)) with (@nil ascii).
  2: { generalize (pad_len (length l)). intros k. induction k; [done|].
       simpl. rewrite filter_cons_False; [done|]. cbv. naive_solver. }
  rewrite app_nil_r. induction Hb as [|v l Hv Hl IH]; [done|].
  csimpl. rewrite filter_cons_True; [by rewrite IH|].
  pose proof (b64_char_facts v Hv) as Hf. unfold b64_char_ok in Hf. btrue. done.
Qed.

Lemma b64url_alphabet buf : all_chars is_b64url_char (b64url buf) = true.
Proof.
  rewrite <-(unchars_chars (b64url buf)), b64url_digits.
  pose proof (b64_enc_bound _ (codes_bound buf)) as Hb.
  induction Hb as [|v l Hv Hl IH]; [done|]. csimpl. rewrite IH, andb_true_r.
  pose proof (b64_char_facts v Hv) as Hf. unfold b64_char_ok in Hf. btrue. done.
Qed.

Lemma length_b64url buf :
  String.length (b64url buf) = ((4 * String.length buf + 2) / 3)%nat.
Proof.
  rewrite <-length_chars, b64url_digits, length_fmap, length_b64_enc.
  unfold codes. by rewrite length_fmap, length_chars.
Qed.

Lemma filter_all {A} (P : A → Prop) `{!∀ x, Decision (P x)} (l : list A) :
  Forall P l → filter P l = l.
Proof. induction 1; [done|]. rewrite filter_cons_True by done. by f_equal. Qed.

Lemma strip_pad_snoc l : strip_pad (l ++ ["="%char]) = l.
Proof. unfold strip_pad. rewrite reverse_snoc. simpl. by rewrite reverse_involutive. Qed.

Lemma strip_pad_id l : Forall (λ c, c ≠ "="%char) l → strip_pad l = l.
Proof.
  intros Hl. unfold strip_pad. destruct (reverse l) as [|c r] eqn:Hr; [done|].
  rewrite decide_False; [done|]. apply (f_equal reverse) in Hr.
  rewrite reverse_involutive, reverse_cons in Hr. subst l.
  apply Forall_app in Hl as [_ Hl]. by decompose_Forall_hyps.
Qed.

Lemma mapM_b64_val l : Forall (λ v, v < 64) l → mapM b64_val (b64_char <$> l) = Some l.
Proof.
  intros Hl. apply mapM_Some_2, Forall2_fmap_l.
  induction Hl; constructor; [by apply b64_val_char|done].
Qed.

(** [atob] on the digits of [l] with the padding [b64urlDecode] appends. *)
Lemma atob_padded l :
  Forall (λ v, v < 64) l → (length l mod 4 ≠ 1)%nat →
  atob (unchars ((b64_char <$> l) ++ replicate (pad_len (length l)) "="%char)) =
  Ret (of_codes (b64_dec l)).
Proof.
  intros Hl Hmod. unfold atob. rewrite chars_unchars, filter_app.
  assert (Forall (λ v, b64_char_ok v = true) l) as Hok.
  { eapply Forall_impl; [exact Hl|]. apply b64_char_facts. }
  assert (Forall (λ c, c ≠ "="%char) (b64_char <$> l)) as Hne.
  { apply Forall_fmap. eapply Forall_impl; [exact Hok|]. intros v Hv. simpl.
    unfold b64_char_ok in Hv. by btrue. }
  rewrite (filter_all _ (b64_char <$> l)).
  2: { apply Forall_fmap. eapply Forall_impl; [exact Hok|]. intros v Hv. simpl.
       unfold b64_char_ok in Hv. by btrue. }
  rewrite (filter_all _ (replicate _ _)).
  2: { apply Forall_replicate. by vm_compute. }
  rewrite length_app, length_fmap, length_replicate.
  assert ((length l + pad_len (length l)) mod 4 = 0)%nat as Hz.
  { unfold pad_len. zify. Z.to_euclidean_division_equations. lia. }
  rewrite (decide_True (P := (_ mod 4 = 0)%nat)) by done.
  assert (strip_pad (strip_pad ((b64_char <$> l) ++ replicate (pad_len (length l)) "="%char))
          = b64_char <$> l) as ->.
  { assert (length l mod 4 < 4)%nat by (apply Nat.mod_upper_bound; lia).
    revert Hne. generalize (b64_char <$> l) as u. intros u Hne.
    unfold pad_len. destruct (length l mod 4)%nat as [|[|[|[|n]]]] eqn:Hm; simpl; try lia.
    - rewrite app_nil_r, (strip_pad_id u) by done. by apply strip_pad_id.
    - rewrite (app_assoc _ ["="%char] ["="%char]), !strip_pad_snoc. done.
    - rewrite strip_pad_snoc. by apply strip_pad_id. }
  rewrite length_fmap, decide_False by done. by rewrite mapM_b64_val.
Qed.

Lemma replace_from_url s :
  replace_char "_"%char "/"%char (replace_char "-"%char "+"%char s) =
  unchars (from_url <$> chars s).
Proof. unfold replace_char. by rewrite chars_unchars, <-list_fmap_compose. Qed.

(** Decoding inverts encoding on every byte buffer. *)
Lemma b64url_decode_encode buf : b64urlDecode (b64url buf) = Ret buf.
Proof.
  unfold b64urlDecode. rewrite replace_from_url, b64url_digits.
  pose proof (b64_enc_bound _ (codes_bound buf)) as Hb.
  assert (from_url <$> ((λ v, to_url (b64_char v)) <$> b64_enc (codes buf))
          = b64_char <$> b64_enc (codes buf)) as ->.
  { rewrite <-list_fmap_compose. apply list_fmap_ext. intros i v Hv.
    pose proof (b64_char_facts v) as Hf. rewrite Forall_lookup in Hb.
    specialize (Hf (Hb i v Hv)). unfold b64_char_ok in Hf. by btrue. }
  rewrite <-length_chars, chars_unchars, length_fmap.
  replace (unchars (b64_char <$> b64_enc (codes buf)) +:+
           unchars (replicate (pad_len (length (b64_enc (codes buf)))) "="%char))
    with (unchars ((b64_char <$> b64_enc (codes buf)) ++
           replicate (pad_len (length (b64_enc (codes buf)))) "="%char))
    by (apply (inj chars); by rewrite chars_app, !chars_unchars).
  rewrite atob_padded by (done || apply length_b64_enc_mod).
  by rewrite b64_dec_enc, of_codes_codes by apply codes_bound.
Qed.

Lemma b64url_inj a b : b64url a = b64url b → a = b.
Proof.
  intros H. pose proof (b64url_decode_encode a) as Ha.
  rewrite H, b64url_decode_encode in Ha. congruence.
Qed.

Lemma utf8_encode_ascii s : is_ascii s = true → utf8_encode s = s.
Proof.
  induction s as [|c s IH]; [done|]. unfold is_ascii in *. simpl. intros H. btrue.
  unfold char_in in *. btrue. rewrite decide_True by lia. by rewrite IH.
Qed.

Example b64url_ex : b64url "any?>~carnal" = "YW55Pz5-Y2FybmFs".
Proof. reflexivity. Qed.
Example b64urlDecode_spaces : b64urlDecode "Y W 5 5" = Throw InvalidCharacterError.
Proof. reflexivity. Qed.
Example b64urlDecode_bad : b64urlDecode "abcde" = Throw InvalidCharacterError.
Proof. reflexivity. Qed.
