(* ===== verification/Json.v ===== *)
(** * JSON values, JSON.stringify, JSON.parse and the canonical form
    (packages/core/src/canonical.ts)

    [stringify] and [parse] are the language's [JSON.stringify] and
    [JSON.parse] on the modelled values (strings of code units 0..255, exact
    numbers).  A [\u] escape above 00FF is outside the modelled strings and is
    reported as a syntax error; [-0] is read as [0].  Round trips are proved for
    every well-formed value, hence [stringify] is injective on them. *)

From S2P Require Import Prelude JsNum.
From stdpp Require Import base strings list sorting sets.
From Stdlib Require Import ZArith Lia.

Local Open Scope string_scope.

(** ** Values *)

Inductive jsval :=
  | JUndef
  | JNull
  | JBool (b : bool)
  | JNum (n : num)
  | JStr (s : string)
  | JArr (l : list jsval)
  | JObj (l : list (string * jsval)).

Section jsval_ind.
Context (P : jsval → Prop)
  (Hundef : P JUndef) (Hnull : P JNull) (Hbool : ∀ b, P (JBool b)) (Hnum : ∀ n, P (JNum n))
  (Hstr : ∀ s, P (JStr s)) (Harr : ∀ l, Forall P l → P (JArr l))
  (Hobj : ∀ l, Forall (λ kv, P kv.2) l → P (JObj l)).

Fixpoint jsval_induction (v : jsval) : P v :=
  match v with
  | JUndef => Hundef
  | JNull => Hnull
  | JBool b => Hbool b
  | JNum n => Hnum n
  | JStr s => Hstr s
  | JArr l => Harr l ((fix go l : Forall P l :=
      match l with [] => Forall_nil_2 _ | x :: l => Forall_cons_2 _ _ _ (jsval_induction x) (go l) end) l)
  | JObj l => Hobj l ((fix go l : Forall (λ kv, P kv.2) l :=
      match l with
      | [] => Forall_nil_2 _
      | kv :: l => Forall_cons_2 _ _ _
          (match kv return P kv.2 with (k, x) => jsval_induction x end) (go l)
      end) l)
  end.
End jsval_ind.

#[export] Instance jsval_eq_dec : EqDecision jsval.
Proof.
  refine (fix go (x y : jsval) : Decision (x = y) :=
    match x, y with
    | JUndef, JUndef | JNull, JNull => left eq_refl
    | JBool a, JBool b => cast_if (decide (a = b))
    | JNum a, JNum b => cast_if (decide (a = b))
    | JStr a, JStr b => cast_if (decide (a = b))
    | JArr a, JArr b => cast_if (@list_eq_dec _ go a b)
    | JObj a, JObj b => cast_if (@list_eq_dec _ (@prod_eq_dec _ _ _ go) a b)
    | _, _ => right _
    end); clear go; abstract congruence.
Defined.

(** [v[key]]: own data properties; the names the code reads are not inherited. *)
Definition prop (v : jsval) (key : string) : exc jsval :=
  match v with
  | JUndef | JNull => Throw (TypeError "Cannot read properties of null or undefined")
  | JObj l => Ret (default JUndef (om_get key l))
  | _ => Ret JUndef
  end.

(** The same where the value is known not to be null or undefined. *)
Definition field (v : jsval) (key : string) : jsval := match prop v key with Ret x => x | Throw _ => JUndef end.

Definition truthy (v : jsval) : bool :=
  match v with
  | JUndef | JNull => false
  | JBool b => b
  | JNum (Fin d) => bool_decide (d ≠ Dec 0 0)
  | JNum (Inf _) => true
  | JNum NaN => false
  | JStr s => bool_decide (s ≠ EmptyString)
  | JArr _ | JObj _ => true
  end.

(** ** Property order

    An object enumerates its array-index keys first, in ascending order, and
    then the others in order of creation. *)

Definition array_index (k : string) : option Z :=
  let n := digits_value 0 k in
  if (bool_decide (k ≠ EmptyString) && all_chars is_digit k &&
      bool_decide (digits n = k) && bool_decide (n < 4294967295)%Z)%bool
  then Some n else None.

Definition index_le {A} (a b : string * A) : Prop :=
  (default 0 (array_index a.1) <= default 0 (array_index b.1))%Z.
#[export] Instance index_le_dec {A} : RelDecision (@index_le A).
Proof. unfold index_le. intros a b. apply _. Defined.

Definition js_order {A} (l : list (string * A)) : list (string * A) :=
  (merge_sort index_le (filter (λ kv, is_Some (array_index kv.1)) l) ++
   filter (λ kv, array_index kv.1 = None) l)%list.

(** The object built by assigning the keys in this order. *)
Definition obj_of {A} (l : list (string * A)) : list (string * A) :=
  js_order (foldl (λ acc kv, om_set kv.1 kv.2 acc) [] l).

(** ** JSON.stringify *)

Definition DQ : ascii := "034"%char.
Definition BSL : ascii := "092"%char.
Definition hex_digit (n : Z) : ascii :=
  if decide (n < 10)%Z then digit_char n else ascii_of_N (Z.to_N (87 + n)).

Definition escape_char (c : ascii) : string :=
  let n := Z.of_N (char_code c) in
  if decide (c = DQ ∨ c = BSL) then String BSL (String c EmptyString)
  else if decide (n = 8)%Z then String BSL "b"
  else if decide (n = 9)%Z then String BSL "t"
  else if decide (n = 10)%Z then String BSL "n"
  else if decide (n = 12)%Z then String BSL "f"
  else if decide (n = 13)%Z then String BSL "r"
  else if decide (n < 32)%Z then
    String BSL ("u00" +:+ String (hex_digit (n / 16)) (String (hex_digit (n mod 16)) EmptyString))
  else String c EmptyString.

Fixpoint escape (s : string) : string :=
  match s with EmptyString => EmptyString | String c s => escape_char c +:+ escape s end.

Definition quote (s : string) : string := String DQ (escape s +:+ String DQ EmptyString).

Fixpoint str_join (sep : string) (l : list string) : string :=
  match l with [] => EmptyString | [s] => s | s :: l => s +:+ sep +:+ str_join sep l end.

(** [None] is JavaScript's [undefined]: the property is left out. *)
Fixpoint stringify_opt (v : jsval) : option string :=
  match v with
  | JUndef => None
  | JNull => Some "null"
  | JBool true => Some "true"
  | JBool false => Some "false"
  | JNum (Fin d) => Some (num_to_string (Fin d))
  | JNum _ => Some "null"
  | JStr s => Some (quote s)
  | JArr l =>
      Some ("[" +:+ str_join "," (List.map (λ x, default "null" (stringify_opt x)) l) +:+ "]")
  | JObj l =>
      Some ("{" +:+ str_join "," (omap id (List.map (λ kv : string * jsval, let (k, x) := kv in
               option_map (λ s, quote k +:+ ":" +:+ s) (stringify_opt x)) l)) +:+ "}")
  end.

Definition stringify (v : jsval) : string := default "undefined" (stringify_opt v).

(** ** JSON.parse *)

Definition is_ws (c : ascii) : bool := bool_decide (char_code c ∈ [9%N; 10%N; 13%N; 32%N]).

Fixpoint skip_ws (s : string) : string :=
  match s with
  | String c s' => if is_ws c then skip_ws s' else s
  | EmptyString => EmptyString
  end.

Fixpoint span (f : ascii → bool) (s : string) : string * string :=
  match s with
  | String c s' => if f c then let (a, b) := span f s' in (String c a, b) else (EmptyString, s)
  | EmptyString => (EmptyString, EmptyString)
  end.

Definition hex_val (c : ascii) : option Z :=
  let n := Z.of_N (char_code c) in
  if is_digit c then Some (n - 48)%Z
  else if char_in 97 102 c then Some (n - 87)%Z
  else if char_in 65 70 c then Some (n - 55)%Z
  else None.

Definition simple_escape (c : ascii) : option ascii :=
  if decide (c = DQ) then Some DQ
  else if decide (c = BSL) then Some BSL
  else if decide (c = "/"%char) then Some "/"%char
  else if decide (c = "b"%char) then Some "008"%char
  else if decide (c = "t"%char) then Some "009"%char
  else if decide (c = "n"%char) then Some "010"%char
  else if decide (c = "f"%char) then Some "012"%char
  else if decide (c = "r"%char) then Some "013"%char
  else None.

(** [Some r] when [s] is [p] followed by [r]. *)
Fixpoint expect (p s : string) : option string :=
  match p, s with
  | EmptyString, _ => Some s
  | String a p, String b s => if decide (a = b) then expect p s else None
  | _, _ => None
  end.

(** The characters after an opening quote, and what follows the closing one. *)
Fixpoint parse_chars (s : string) : option (string * string) :=
  match s with
  | EmptyString => None
  | String c s1 =>
      if decide (c = DQ) then Some (EmptyString, s1)
      else if decide (c = BSL) then
        match s1 with
        | String e s2 =>
            if decide (e = "u"%char) then
              match s2 with
              | String h1 (String h2 (String h3 (String h4 s3))) =>
                  a ← hex_val h1; b ← hex_val h2; x ← hex_val h3; y ← hex_val h4;
                  if decide (a = 0 ∧ b = 0)%Z then
                    r ← parse_chars s3;
                    Some (String (ascii_of_N (Z.to_N (x * 16 + y))) r.1, r.2)
                  else None
              | _ => None
              end
            else e' ← simple_escape e; r ← parse_chars s2; Some (String e' r.1, r.2)
        | EmptyString => None
        end
      else if decide (char_code c < 32)%N then None
      else r ← parse_chars s1; Some (String c r.1, r.2)
  end.

Definition max_finite : Z := (2 ^ 1024 - 2 ^ 970)%Z.

(** The number [(-1)^neg * m * 10^(e - k)]. *)
Definition make_num (neg : bool) (m : Z) (k : nat) (e : Z) : num :=
  let '(m, k) :=
    if decide (e < 0)%Z then (m, (k + Z.to_nat (- e))%nat)
    else if decide (e <= Z.of_nat k)%Z then (m, (k - Z.to_nat e)%nat)
    else ((m * pow10 (Z.to_nat e - k))%Z, O) in
  if decide (max_finite * pow10 k <= m)%Z then Inf neg
  else Fin (dec_norm (if neg then (- m)%Z else m) k).

Definition parse_digits (s : string) : option (string * string) :=
  let (a, r) := span is_digit s in if decide (a = EmptyString) then None else Some (a, r).

Definition parse_int_part (s : string) : option (string * string) :=
  match expect "0" s with Some r => Some ("0", r) | None => parse_digits s end.

Definition parse_frac (s : string) : option (string * string) :=
  match expect "." s with Some r => parse_digits r | None => Some (EmptyString, s) end.

Definition parse_exp (s : string) : option (Z * string) :=
  match (match expect "e" s with Some r => Some r | None => expect "E" s end) with
  | Some r =>
      let '(neg, r) := match expect "-" r with
        | Some r' => (true, r') | None => (false, default r (expect "+" r)) end in
      d ← parse_digits r;
      Some ((if neg : bool then - digits_value 0 d.1 else digits_value 0 d.1)%Z, d.2)
  | None => Some (0%Z, s)
  end.

Definition parse_number (s : string) : option (num * string) :=
  let '(neg, s1) := match expect "-" s with Some r => (true, r) | None => (false, s) end in
  ip ← parse_int_part s1;
  fp ← parse_frac ip.2;
  ep ← parse_exp fp.2;
  Some (make_num neg (digits_value 0 (ip.1 +:+ fp.1)) (String.length fp.1) ep.1, ep.2).

Fixpoint parse_value (n : nat) (s : string) : option (jsval * string) :=
  match n with
  | O => None
  | S n =>
      match skip_ws s with
      | EmptyString => None
      | String c s' =>
          if decide (c = DQ) then r ← parse_chars s'; Some (JStr r.1, r.2)
          else if decide (c = "["%char) then
            match expect "]" (skip_ws s') with
            | Some s'' => Some (JArr [], s'')
            | None => r ← parse_elements n s'; Some (JArr r.1, r.2)
            end
          else if decide (c = "{"%char) then
            match expect "}" (skip_ws s') with
            | Some s'' => Some (JObj [], s'')
            | None => r ← parse_members n s'; Some (JObj (obj_of r.1), r.2)
            end
          else if decide (c = "n"%char) then r ← expect "ull" s'; Some (JNull, r)
          else if decide (c = "t"%char) then r ← expect "rue" s'; Some (JBool true, r)
          else if decide (c = "f"%char) then r ← expect "alse" s'; Some (JBool false, r)
          else r ← parse_number (String c s'); Some (JNum r.1, r.2)
      end
  end
with parse_elements (n : nat) (s : string) : option (list jsval * string) :=
  match n with
  | O => None
  | S n =>
      v ← parse_value n s;
      match expect "," (skip_ws v.2) with
      | Some s' => r ← parse_elements n s'; Some (v.1 :: r.1, r.2)
      | None => s' ← expect "]" (skip_ws v.2); Some ([v.1], s')
      end
  end
with parse_members (n : nat) (s : string) : option (list (string * jsval) * string) :=
  match n with
  | O => None
  | S n =>
      s1 ← expect (String DQ EmptyString) (skip_ws s);
      k ← parse_chars s1;
      s2 ← expect ":" (skip_ws k.2);
      v ← parse_value n s2;
      match expect "," (skip_ws v.2) with
      | Some s' => r ← parse_members n s'; Some ((k.1, v.1) :: r.1, r.2)
      | None => s' ← expect "}" (skip_ws v.2); Some ([(k.1, v.1)], s')
      end
  end.

(** Every call consumes a character, so the length bounds the depth: see
    [parse_value_fuel]. *)
Definition parse (s : string) : exc jsval :=
  match parse_value (S (2 * String.length s)) s with
  | Some (v, r) => if decide (skip_ws r = EmptyString) then Ret v else Throw SyntaxError
  | None => Throw SyntaxError
  end.

(** JSON text for the examples, with ['] for the double quote. *)
Definition dq (s : string) : string :=
  unchars (List.map (λ c, if decide (c = "'"%char) then DQ else c) (chars s)).

Example parse_ex :
  parse (dq "{ 'b' : [1, -2.50, true], '2':null, '10':{}, 'a':1e3, 'b':0 } ") =
  Ret (JObj [("2", JNull); ("10", JObj []); ("b", JNum (int 0)); ("a", JNum (int 1000))]).
Proof. vm_compute. reflexivity. Qed.
Example stringify_ex :
  stringify (JObj [("k", JArr [JUndef; JNum (Fin (Dec 15 1)); JStr (dq "a'b")]); ("u", JUndef)]) =
  dq "{'k':[null,1.5,'a\'b']}".
Proof. vm_compute. reflexivity. Qed.

(** ** Strings *)

Lemma parse_chars_escape_char c t :
  parse_chars (escape_char c +:+ t) = (r ← parse_chars t; Some (String c r.1, r.2)).
Proof. destruct c as [[] [] [] [] [] [] [] []]; reflexivity. Qed.

Lemma parse_chars_escape s rest :
  parse_chars (escape s +:+ String DQ rest) = Some (s, rest).
Proof.
  induction s as [|c s IH]; [done|].
  change (escape (String c s)) with (escape_char c +:+ escape s).
  by rewrite string_app_assoc, parse_chars_escape_char, IH.
Qed.

(** ** Numbers *)

(** Text that cannot continue a number. *)
Definition ends_number (s : string) : Prop :=
  match s with
  | EmptyString => True
  | String c _ => is_digit c = false ∧ c ≠ "."%char ∧ c ≠ "e"%char ∧ c ≠ "E"%char
  end.

Definition non_digit_head (s : string) : Prop :=
  match s with EmptyString => True | String c _ => is_digit c = false end.

Lemma span_digits_app a rest :
  all_chars is_digit a = true → non_digit_head rest → span is_digit (a +:+ rest) = (a, rest).
Proof.
  intros Ha Hr. induction a as [|c a IH].
  - rewrite string_app_nil. destruct rest as [|c rest]; [done|]. simpl in *. by rewrite Hr.
  - rewrite string_app_cons. simpl in *. btrue. by rewrite H, IH.
Qed.

Lemma parse_digits_app a rest :
  all_chars is_digit a = true → a ≠ EmptyString → non_digit_head rest →
  parse_digits (a +:+ rest) = Some (a, rest).
Proof.
  intros Ha Hne Hr. unfold parse_digits. rewrite span_digits_app by done. by rewrite decide_False.
Qed.

Lemma digits_nonempty n : (0 <= n)%Z → digits n ≠ EmptyString.
Proof. intros Hn. destruct (digits_shape n Hn) as [[_ ->]|(_ & c & s & -> & _)]; done. Qed.

Lemma expect_other c d s : c ≠ d → expect (String c EmptyString) (String d s) = None.
Proof. intros. simpl. by rewrite decide_False. Qed.
Lemma expect_same c s : expect (String c EmptyString) (String c s) = Some s.
Proof. simpl. by rewrite decide_True. Qed.

Lemma parse_int_part_digits n rest : (0 <= n)%Z → non_digit_head rest →
  parse_int_part (digits n +:+ rest) = Some (digits n, rest).
Proof.
  intros Hn Hr. unfold parse_int_part.
  destruct (digits_shape n Hn) as [[-> Hd]|(_ & c & s & Hd & Hc & Hne)].
  - by rewrite Hd.
  - rewrite Hd, string_app_cons, expect_other by done. rewrite <-string_app_cons, <-Hd.
    apply parse_digits_app; [by apply digits_all|by apply digits_nonempty|done].
Qed.

Lemma digits_value_acc v s :
  digits_value v s = (v * pow10 (String.length s) + digits_value 0 s)%Z.
Proof.
  revert v. induction s as [|c s IH]; intros v; [unfold pow10; simpl; lia|].
  cbn [digits_value String.length].
  rewrite (IH (v * 10 + digit_val c)%Z), (IH (0 * 10 + digit_val c)%Z), pow10_S. lia.
Qed.

Lemma digits_value_app a b :
  digits_value 0 (a +:+ b) = (digits_value 0 a * pow10 (String.length b) + digits_value 0 b)%Z.
Proof.
  assert (∀ v, digits_value v (a +:+ b) = digits_value (digits_value v a) b) as ->.
  { induction a as [|c a IH]; intros v; [done|]. rewrite string_app_cons. simpl. apply IH. }
  apply digits_value_acc.
Qed.

Lemma digit_val_nonneg c : is_digit c = true → (0 <= digit_val c)%Z.
Proof. unfold is_digit, char_in, digit_val. intros H. btrue. lia. Qed.

Lemma digits_value_nonneg s : all_chars is_digit s = true → (0 <= digits_value 0 s)%Z.
Proof.
  induction s as [|c s IH]; [done|]. cbn. intros H. btrue.
  rewrite digits_value_acc. pose proof (digit_val_nonneg c H). pose proof (pow10_pos (String.length s)).
  specialize (IH H0). nia.
Qed.

(** A number below [10^k] prints with at most [k] digits. *)
Lemma digits_length_le n k : (0 <= n < pow10 k)%Z → (0 < k)%nat → (String.length (digits n) <= k)%nat.
Proof.
  intros [Hn Hk] Hk0. destruct (digits_shape n Hn) as [[-> ->]|(Hpos & c & s & Hd & Hc & Hne)].
  { simpl. lia. }
  pose proof (digits_value_digits n Hn) as Hv. pose proof (digits_all n Hn) as Hall.
  rewrite Hd in *. cbn in Hv, Hall. btrue. rewrite digits_value_acc in Hv.
  pose proof (digits_value_nonneg s H0).
  assert (1 <= digit_val c)%Z.
  { assert (digit_val c ≠ 0)%Z; [|pose proof (digit_val_nonneg c Hc); lia].
    intros H0'. apply Hne. unfold digit_val in H0'.
    rewrite <-(ascii_N_embedding c). replace (N_of_ascii c) with 48%N; [done|].
    unfold char_code in H0'. lia. }
  assert (pow10 (String.length s) <= n)%Z by (pose proof (pow10_pos (String.length s)); nia).
  assert (Z.of_nat (String.length s) < Z.of_nat k)%Z; [|simpl; lia].
  apply (Z.pow_lt_mono_r_iff 10); [lia|lia|]. unfold pow10 in *. lia.
Qed.

Lemma pad_zeros_facts k s :
  (String.length s <= k)%nat → all_chars is_digit s = true →
  String.length (pad_zeros k s) = k ∧ all_chars is_digit (pad_zeros k s) = true ∧
  digits_value 0 (pad_zeros k s) = digits_value 0 s.
Proof.
  intros Hl Ha. induction k as [|k IH]; simpl; [split_and!; [lia|done..]|].
  case_decide as Hlt; [|split_and!; [lia|done..]].
  destruct IH as (H1 & H2 & H3); [lia|].
  cbn. rewrite H2. split_and!; [lia|done|exact H3].
Qed.

Definition dec_normal (d : dec) : Prop := dk d = O ∨ (dm d mod 10 ≠ 0)%Z.
Definition dec_finite (d : dec) : Prop := (Z.abs (dm d) < max_finite * pow10 (dk d))%Z.

Lemma dec_norm_normal d : dec_normal d → dec_norm (dm d) (dk d) = d.
Proof.
  destruct d as [m [|k]]; [done|]. intros [?|Hm]; simpl in *; [done|]. by rewrite decide_False.
Qed.

Lemma make_num_dec d : dec_normal d → dec_finite d →
  make_num (bool_decide (dm d < 0)%Z) (Z.abs (dm d)) (dk d) 0 = Fin d.
Proof.
  intros Hn Hf. unfold make_num.
  rewrite decide_False by lia. rewrite decide_True by lia. unfold dec_finite in Hf.
  replace (dk d - Z.to_nat 0)%nat with (dk d) by lia.
  rewrite decide_False by lia. f_equal. case_bool_decide; rewrite <-(dec_norm_normal d Hn) at 3; f_equal; lia.
Qed.

Lemma num_to_string_split d :
  num_to_string (Fin d) =
  (if bool_decide (dm d < 0)%Z then "-" else EmptyString) +:+
  digits (Z.abs (dm d) / pow10 (dk d)) +:+
  match dk d with
  | O => EmptyString
  | _ => "." +:+ pad_zeros (dk d) (digits (Z.abs (dm d) mod pow10 (dk d)))
  end.
Proof.
  destruct d as [m [|k]]; simpl.
  - unfold z_to_string, pow10. simpl. rewrite Z.div_1_r, string_app_nil_r.
    case_decide; case_bool_decide; try lia; rewrite ?string_app_nil; do 2 f_equal; lia.
  - by rewrite decide_bool_decide.
Qed.

Lemma parse_exp_none s : ends_number s → parse_exp s = Some (0%Z, s).
Proof.
  unfold parse_exp. destruct s as [|c s]; [done|]. intros (_ & _ & He & HE).
  by rewrite !expect_other by congruence.
Qed.

Lemma parse_number_num d rest : dec_normal d → dec_finite d → ends_number rest →
  parse_number (num_to_string (Fin d) +:+ rest) = Some (Fin d, rest).
Proof.
  intros Hn Hf Hr. rewrite num_to_string_split, !string_app_assoc. unfold parse_number.
  pose proof (pow10_pos (dk d)) as Hp.
  assert (0 <= Z.abs (dm d) / pow10 (dk d))%Z as Hq by (apply Z.div_pos; lia).
  set (ip := digits (Z.abs (dm d) / pow10 (dk d))) in *.
  set (fp := match dk d with O => EmptyString | _ => _ end) in *.
  assert (match expect "-" ((if bool_decide (dm d < 0)%Z then "-" else EmptyString) +:+ ip +:+ fp +:+ rest) with
          | Some r => (true, r)
          | None => (false, (if bool_decide (dm d < 0)%Z then "-" else EmptyString) +:+ ip +:+ fp +:+ rest) end
         = (bool_decide (dm d < 0)%Z, ip +:+ fp +:+ rest)) as ->.
  { case_bool_decide; [by rewrite string_app_cons, expect_same|].
    rewrite !string_app_nil.
    destruct (digits_shape _ Hq) as [[_ Hd]|(_ & c & s & Hd & Hc & _)]; fold ip in Hd; rewrite Hd; [done|].
    rewrite string_app_cons, expect_other; [done|]. intros <-. done. }
  set (f := (Z.abs (dm d) mod pow10 (dk d))%Z) in *.
  assert (0 <= f < pow10 (dk d))%Z as Hfb by (apply Z.mod_pos_bound; lia).
  assert (Z.abs (dm d) = Z.abs (dm d) / pow10 (dk d) * pow10 (dk d) + f)%Z as Habs.
  { pose proof (Z.div_mod (Z.abs (dm d)) (pow10 (dk d)) ltac:(lia)). unfold f. lia. }
  assert (non_digit_head (fp +:+ rest)) as Hnd.
  { unfold fp. destruct (dk d); [|done]. rewrite string_app_nil. destruct rest; [done|]. by destruct Hr. }
  unfold ip. rewrite parse_int_part_digits by done. fold ip. cbn [mbind option_bind fst snd].
  assert (∃ fs, parse_frac (fp +:+ rest) = Some (fs, rest) ∧ String.length fs = dk d ∧
          digits_value 0 fs = f) as (fs & -> & Hlen & Hval).
  { unfold fp. destruct (dk d) as [|k] eqn:Hk.
    - exists EmptyString. rewrite string_app_nil. split_and!; [|done|unfold pow10 in Hfb; simpl in *; lia].
      unfold parse_frac. destruct rest as [|c rest]; [done|]. destruct Hr as (_ & Hdot & _).
      by rewrite expect_other by congruence.
    - pose proof (digits_length_le f (S k) Hfb ltac:(lia)) as Hl.
      destruct (pad_zeros_facts (S k) (digits f) Hl (digits_all f ltac:(lia))) as (H1 & H2 & H3).
      exists (pad_zeros (S k) (digits f)). split_and!; [|done|by rewrite H3, digits_value_digits by lia].
      unfold parse_frac. rewrite !string_app_cons, expect_same.
      rewrite string_app_nil. apply parse_digits_app; [done| |].
      + intros He. by rewrite He in H1.
      + destruct rest; [done|]. by destruct Hr. }
  cbn [mbind option_bind fst snd]. rewrite parse_exp_none by done. cbn [mbind option_bind fst snd].
  do 2 f_equal. rewrite Hlen, digits_value_app, Hval, Hlen. unfold ip.
  rewrite digits_value_digits, <-Habs by done. by apply make_num_dec.
Qed.

(** ** Values *)

Definition obj_wf {A} (l : list (string * A)) : Prop := NoDup l.*1 ∧ js_order l = l.

(** Values a JSON text can carry, the keys of an object pairwise different but in
    any order. *)
Fixpoint jfin (v : jsval) : Prop :=
  match v with
  | JUndef => False
  | JNull | JBool _ | JStr _ => True
  | JNum (Fin d) => dec_normal d ∧ dec_finite d
  | JNum _ => False
  | JArr l => foldr (λ x P, jfin x ∧ P) True l
  | JObj l => NoDup l.*1 ∧ foldr (λ kv P, jfin kv.2 ∧ P) True l
  end.

(** The same value with the properties in enumeration order. *)
Fixpoint jreorder (v : jsval) : jsval :=
  match v with
  | JArr l => JArr (List.map jreorder l)
  | JObj l => JObj (js_order (List.map (λ kv : string * jsval, let (k, x) := kv in (k, jreorder x)) l))
  | v => v
  end.

Fixpoint jsize (v : jsval) : nat :=
  match v with
  | JArr l => S (foldr (λ x n, S (jsize x) + n)%nat O l)
  | JObj l => S (foldr (λ kv n, S (jsize kv.2) + n)%nat O l)
  | _ => 1
  end.

Definition member_text (kv : string * jsval) : string := quote kv.1 +:+ ":" +:+ stringify kv.2.
Definition elements_text (l : list jsval) : string := str_join "," (List.map stringify l).
Definition members_text (l : list (string * jsval)) : string := str_join "," (List.map member_text l).

Lemma foldr_and_Forall {A} (P : A → Prop) l :
  foldr (λ x Q, P x ∧ Q) True l ↔ Forall P l.
Proof. induction l; simpl; [done|]. rewrite Forall_cons. naive_solver. Qed.

Lemma jfin_defined v : jfin v → ∃ s, stringify_opt v = Some s.
Proof. destruct v as [| |[]|[| |]| | |]; simpl; naive_solver. Qed.

Lemma stringify_defined v : jfin v → stringify_opt v = Some (stringify v).
Proof. unfold stringify. intros Hv. by destruct (jfin_defined v Hv) as [s ->]. Qed.

Lemma stringify_arr l : Forall jfin l → stringify (JArr l) = "[" +:+ elements_text l +:+ "]".
Proof.
  intros Hl.
  change (stringify (JArr l)) with
    ("[" +:+ str_join "," (List.map (λ x, default "null" (stringify_opt x)) l) +:+ "]").
  unfold elements_text. replace (List.map (λ x, default "null" (stringify_opt x)) l)
    with (List.map stringify l); [done|].
  induction Hl as [|v l Hv Hl IH]; [done|]. simpl. by rewrite IH, (stringify_defined v).
Qed.

Definition member_opt (kv : string * jsval) : option string :=
  let (k, x) := kv in option_map (λ s, quote k +:+ ":" +:+ s) (stringify_opt x).
Lemma stringify_obj_pieces l :
  stringify (JObj l) = "{" +:+ str_join "," (omap id (List.map member_opt l)) +:+ "}".
Proof. done. Qed.

Lemma stringify_obj l : Forall (λ kv, jfin kv.2) l →
  stringify (JObj l) = "{" +:+ members_text l +:+ "}".
Proof.
  intros Hl.
  rewrite stringify_obj_pieces. unfold members_text.
  replace (omap id (List.map member_opt l)) with (List.map member_text l); [done|].
  induction Hl as [|[k v] l Hv Hl IH]; [done|]. simpl in *. by rewrite IH, (stringify_defined v).
Qed.

(** The first character decides how a value is read. *)
Inductive value_head : jsval → ascii → Prop :=
  | head_null : value_head JNull "n"
  | head_true : value_head (JBool true) "t"
  | head_false : value_head (JBool false) "f"
  | head_num n c : is_digit c = true ∨ c = "-"%char → value_head (JNum n) c
  | head_str s : value_head (JStr s) DQ
  | head_arr l : value_head (JArr l) "["
  | head_obj l : value_head (JObj l) "{".

Lemma num_to_string_head d : ∃ c t, num_to_string (Fin d) = String c t ∧
  (is_digit c = true ∨ c = "-"%char).
Proof.
  rewrite num_to_string_split.
  case_bool_decide as Hneg; [rewrite string_app_cons; eexists _, _; split; [done|by right]|].
  rewrite string_app_nil. pose proof (pow10_pos (dk d)).
  destruct (digits_shape (Z.abs (dm d) / pow10 (dk d))) as [[_ ->]|(_ & c & s & -> & Hc & _)];
    [apply Z.div_pos; lia| |]; rewrite string_app_cons; eexists _, _; (split; [done|]); by left.
Qed.

Lemma stringify_head v : jfin v → ∃ c t, stringify v = String c t ∧ value_head v c.
Proof.
  destruct v as [| |[]|[d| |]|s|l|l]; try done; intros Hwf; simpl in Hwf.
  1-3: eexists _, _; split; [reflexivity|constructor].
  - destruct (num_to_string_head d) as (c & t & Ht & Hc). exists c, t. split; [done|by constructor].
  - eexists _, _; split; [reflexivity|constructor].
  - rewrite foldr_and_Forall in Hwf. rewrite stringify_arr by done.
    eexists _, _; split; [reflexivity|constructor].
  - destruct Hwf as [_ Hwf]. rewrite (foldr_and_Forall (λ kv, jfin kv.2)) in Hwf. rewrite stringify_obj by done.
    eexists _, _; split; [reflexivity|constructor].
Qed.

Lemma is_digit_cases c : is_digit c = true →
  c ≠ DQ ∧ c ≠ "["%char ∧ c ≠ "{"%char ∧ c ≠ "n"%char ∧ c ≠ "t"%char ∧ c ≠ "f"%char ∧
  c ≠ "]"%char ∧ c ≠ "}"%char ∧ is_ws c = false.
Proof. destruct c as [[] [] [] [] [] [] [] []]; cbv; intros; naive_solver. Qed.

Lemma value_head_not_closing v c : value_head v c →
  is_ws c = false ∧ c ≠ "]"%char ∧ c ≠ "}"%char.
Proof.
  destruct 1 as [| | |n c [Hc| ->]| | |]; try done.
  destruct (is_digit_cases c Hc) as (_ & _ & _ & _ & _ & _ & ? & ? & ?). done.
Qed.

Lemma skip_ws_cons c s : is_ws c = false → skip_ws (String c s) = String c s.
Proof. intros H. simpl. by rewrite H. Qed.

Lemma skip_ws_stringify v rest : jfin v → skip_ws (stringify v +:+ rest) = stringify v +:+ rest.
Proof.
  intros Hv. destruct (stringify_head v Hv) as (c & t & -> & Hh).
  rewrite string_app_cons. apply skip_ws_cons. by destruct (value_head_not_closing _ _ Hh).
Qed.

Lemma expect_app p s : expect p (p +:+ s) = Some s.
Proof. induction p as [|c p IH]; [done|]. rewrite string_app_cons. simpl. by rewrite decide_True. Qed.

Lemma om_set_fresh {V} k (v : V) (m : list (string * V)) : k ∉ m.*1 → om_set k v m = (m ++ [(k, v)])%list.
Proof.
  induction m as [|[k' v'] m IH]; [done|]. csimpl. intros Hk.
  rewrite decide_False by set_solver. by rewrite IH by set_solver.
Qed.

Lemma foldl_om_set_id {V} (acc l : list (string * V)) :
  NoDup (acc ++ l)%list.*1 → foldl (λ acc kv, om_set kv.1 kv.2 acc) acc l = (acc ++ l)%list.
Proof.
  revert acc. induction l as [|[k v] l IH]; intros acc Hnd; [by rewrite app_nil_r|].
  cbn [foldl fst snd].
  assert (k ∉ acc.*1).
  { rewrite fmap_app in Hnd. apply NoDup_app in Hnd as (_ & Hd & _). intros Hin. eapply Hd; [done|]. csimpl. set_solver. }
  rewrite om_set_fresh by done. rewrite IH by (by rewrite <-app_assoc). by rewrite <-app_assoc.
Qed.

Lemma obj_of_NoDup {A} (l : list (string * A)) : NoDup l.*1 → obj_of l = js_order l.
Proof. intros Hnd. unfold obj_of. by rewrite foldl_om_set_id. Qed.

Definition reorder_field (kv : string * jsval) : string * jsval :=
  let (k, x) := kv in (k, jreorder x).
Lemma reorder_field_keys l : (List.map reorder_field l).*1 = l.*1.
Proof. induction l as [|[k v] l IH]; [done|]. csimpl. by rewrite IH. Qed.

(** What may follow a value inside a text. *)
Definition ends_value (s : string) : Prop :=
  match s with
  | EmptyString => True
  | String c _ => c ∈ [","%char; "]"%char; "}"%char]
  end.

Lemma ends_value_number s : ends_value s → ends_number s.
Proof. destruct s as [|c s]; [done|]. simpl. intros Hc. set_unfold in Hc. by destruct_or!; subst. Qed.

Lemma parse_value_num n d rest : dec_normal d → dec_finite d → ends_value rest →
  parse_value (S n) (num_to_string (Fin d) +:+ rest) = Some (JNum (Fin d), rest).
Proof.
  intros Hn Hf Hr. destruct (num_to_string_head d) as (c & t & Ht & Hc).
  pose proof (parse_number_num d rest Hn Hf (ends_value_number _ Hr)) as Hp.
  rewrite Ht, string_app_cons in *.
  assert (c ≠ DQ ∧ c ≠ "["%char ∧ c ≠ "{"%char ∧ c ≠ "n"%char ∧ c ≠ "t"%char ∧ c ≠ "f"%char ∧ is_ws c = false)
    as (? & ? & ? & ? & ? & ? & Hws).
  { destruct Hc as [Hc| ->]; [|done]. pose proof (is_digit_cases c Hc). naive_solver. }
  cbn [parse_value]. rewrite skip_ws_cons by done. rewrite !decide_False by done.
  by rewrite Hp.
Qed.

(** The size of a value bounds the nesting of the parser's calls. *)
Definition parses (n : nat) : Prop :=
  (∀ v rest, jfin v → (jsize v < n)%nat → ends_value rest →
     parse_value n (stringify v +:+ rest) = Some (jreorder v, rest)) ∧
  (∀ l rest, l ≠ [] → Forall jfin l → (foldr (λ x n, S (jsize x) + n) 0 l < n)%nat →
     parse_elements n (elements_text l +:+ "]" +:+ rest) = Some (List.map jreorder l, rest)) ∧
  (∀ l rest, l ≠ [] → Forall (λ kv, jfin kv.2) l →
     (foldr (λ kv n, S (jsize kv.2) + n) 0 l < n)%nat →
     parse_members n (members_text l +:+ "}" +:+ rest) = Some (List.map reorder_field l, rest)).

Lemma parse_value_step n v rest : parses n → jfin v → (jsize v < S n)%nat → ends_value rest →
  parse_value (S n) (stringify v +:+ rest) = Some (jreorder v, rest).
Proof.
  intros (_ & Hels & Hmems) Hwf Hsz Hr.
  destruct v as [| |b|[d| |]|s|l|l]; try done.
  - by destruct b.
  - destruct Hwf. by apply parse_value_num.
  - change (stringify (JStr s)) with (quote s).
    unfold quote. rewrite string_app_cons, string_app_assoc, string_app_cons, string_app_nil.
    cbn [parse_value]. rewrite skip_ws_cons by done. rewrite decide_True by done.
    by rewrite parse_chars_escape.
  - cbn [jfin] in Hwf. rewrite foldr_and_Forall in Hwf. rewrite stringify_arr by done.
    rewrite string_app_assoc, string_app_cons, string_app_nil, string_app_assoc. cbn [parse_value].
    rewrite skip_ws_cons by done. cbn [decide]. rewrite decide_False, decide_True by done.
    destruct l as [|v l]; [done|].
    assert (expect "]" (skip_ws (elements_text (v :: l) +:+ "]" +:+ rest)) = None) as ->.
    { inversion Hwf as [|? ? Hv _]; subst. destruct (stringify_head v Hv) as (c & t & Ht & Hh).
      apply value_head_not_closing in Hh as (? & ? & _).
      unfold elements_text. cbn [List.map]. destruct (List.map stringify l); cbn [str_join]; rewrite Ht;
        rewrite !string_app_cons, skip_ws_cons, expect_other by done; done. }
    rewrite Hels; [done|done|done|]. simpl in *. lia.
  - destruct Hwf as [Ho Hwf]. rewrite (foldr_and_Forall (λ kv, jfin kv.2)) in Hwf.
    rewrite stringify_obj by done.
    rewrite string_app_assoc, string_app_cons, string_app_nil, string_app_assoc. cbn [parse_value].
    rewrite skip_ws_cons by done. rewrite !(decide_False (P := "{"%char = _)) by done.
    rewrite decide_True by done.
    destruct l as [|kv l]; [done|].
    assert (expect "}" (skip_ws (members_text (kv :: l) +:+ "}" +:+ rest)) = None) as ->.
    { unfold members_text. cbn [List.map]. unfold member_text at 1, quote.
      destruct (List.map member_text l); cbn [str_join];
        rewrite !string_app_cons, skip_ws_cons, expect_other by done; done. }
    rewrite Hmems; [|done|done|simpl in *; lia]. cbn [mbind option_bind fst snd].
    by rewrite obj_of_NoDup by (by rewrite reorder_field_keys).
Qed.

Lemma parses_all n : parses n.
Proof.
  induction n as [|n IH]; [split_and!; intros; lia|].
  split_and!.
  - intros. by apply parse_value_step.
  - intros l rest Hne Hwf Hsz. destruct IH as (Hval & Hels & _).
    destruct l as [|v l]; [done|]. inversion Hwf as [|? ? Hv Hl]; subst.
    assert (∀ t, ends_value (String "," t)) as Hc by (intros; simpl; set_solver).
    assert (∀ t, ends_value (String "]" t)) as Hb by (intros; simpl; set_solver).
    simpl in Hsz. cbn [parse_elements]. unfold elements_text. cbn [List.map].
    destruct l as [|v' l]; cbn [List.map str_join].
    + rewrite Hval by (done || lia || apply Hb).
      cbn [mbind option_bind snd fst]. by rewrite string_app_cons, skip_ws_cons.
    + rewrite !string_app_assoc. rewrite Hval by (done || lia || apply Hc).
      cbn [mbind option_bind snd fst].
      rewrite (string_app_cons ","%char), string_app_nil, skip_ws_cons, expect_same by done.
      specialize (Hels (v' :: l) rest). unfold elements_text in Hels. cbn [List.map str_join] in Hels.
      rewrite Hels; [done|done|done|simpl in *; lia].
  - intros l rest Hne Hwf Hsz. destruct IH as (Hval & _ & Hmems).
    destruct l as [|[k v] l]; [done|]. inversion Hwf as [|? ? Hv Hl]; subst. simpl in Hv, Hsz.
    assert (∀ t, ends_value (String "," t)) as Hc by (intros; simpl; set_solver).
    assert (∀ t, ends_value (String "}" t)) as Hb by (intros; simpl; set_solver).
    cbn [parse_members]. unfold members_text. cbn [List.map].
    assert (∀ t, parse_chars (escape k +:+ String DQ t) = Some (k, t)) as Hk by (intros; apply parse_chars_escape).
    assert (str_join "," (member_text (k, v) :: List.map member_text l) +:+ "}" +:+ rest =
      String DQ (escape k +:+ String DQ (String ":" (stringify v +:+
        match l with [] => String "}" rest | _ => String "," (members_text l +:+ "}" +:+ rest) end)))) as ->.
    { unfold member_text at 1, quote. cbn [fst snd].
      destruct l; cbn [List.map str_join]; rewrite ?string_app_assoc, !string_app_cons, !string_app_assoc,
        !string_app_cons, !string_app_nil, ?string_app_cons, ?string_app_nil; done. }
    rewrite skip_ws_cons, expect_same by done. cbn [mbind option_bind]. rewrite Hk.
    cbn [mbind option_bind fst snd]. rewrite skip_ws_cons, expect_same by done. cbn [mbind option_bind].
    rewrite Hval; [|done|lia|by destruct l].
    cbn [mbind option_bind fst snd]. destruct l as [|kv l].
    + by rewrite skip_ws_cons.
    + rewrite skip_ws_cons, expect_same by done. rewrite Hmems; [done|done|done|simpl in *; lia].
Qed.

Lemma join_length_ge (l : list string) (f : list nat) :
  Forall2 (λ s n, n ≤ String.length s)%nat l f →
  (foldr (λ n m, S n + m) 0 f ≤ S (String.length (str_join "," l)))%nat.
Proof.
  induction 1 as [|s n l f Hs Hl IH]; [simpl; lia|].
  destruct Hl as [|s' n' l f Hs' Hl]; [simpl; lia|].
  cbn [str_join] in *. rewrite !string_length_app. simpl in *. lia.
Qed.

Lemma jsize_length v : jfin v → (jsize v ≤ String.length (stringify v))%nat.
Proof.
  induction v as [| |b|[d| |]|s|l IH|l IH] using jsval_induction; try done; intros Hwf.
  - simpl. unfold stringify. simpl. lia.
  - destruct b; cbv; lia.
  - destruct (num_to_string_head d) as (c & t & Ht & _).
    change (stringify (JNum (Fin d))) with (num_to_string (Fin d)). rewrite Ht. simpl. lia.
  - unfold stringify. simpl. lia.
  - cbn [jfin] in Hwf. rewrite foldr_and_Forall in Hwf. rewrite stringify_arr by done.
    rewrite !string_length_app. cbn [jsize].
    assert (Forall2 (λ s n, n ≤ String.length s)%nat (List.map stringify l) (jsize <$> l)) as Hj.
    { induction Hwf as [|v l Hv Hl IHl]; decompose_Forall_hyps; constructor; auto. }
    apply join_length_ge in Hj. rewrite foldr_fmap in Hj. unfold elements_text. simpl in *. lia.
  - destruct Hwf as [_ Hwf]. rewrite (foldr_and_Forall (λ kv, jfin kv.2)) in Hwf. rewrite stringify_obj by done.
    rewrite !string_length_app. cbn [jsize].
    assert (Forall2 (λ s n, n ≤ String.length s)%nat (List.map member_text l) ((λ kv, jsize kv.2) <$> l)) as Hj.
    { induction Hwf as [|kv l Hv Hl IHl]; decompose_Forall_hyps; constructor; auto.
      unfold member_text. rewrite !string_length_app. transitivity (String.length (stringify kv.2)); [auto|lia]. }
    apply join_length_ge in Hj. rewrite foldr_fmap in Hj. unfold members_text. simpl in *. lia.
Qed.

(** Reading the text of a value gives the value in enumeration order. *)
Lemma parse_stringify_fin v : jfin v → parse (stringify v) = Ret (jreorder v).
Proof.
  intros Hwf. unfold parse. pose proof (jsize_length v Hwf).
  destruct (parses_all (S (2 * String.length (stringify v)))) as (Hval & _ & _).
  specialize (Hval v EmptyString Hwf ltac:(lia) I). rewrite string_app_nil_r in Hval.
  by rewrite Hval.
Qed.

(** Values [JSON.parse] can produce. *)
Fixpoint jwf (v : jsval) : Prop :=
  match v with
  | JUndef => False
  | JNull | JBool _ | JStr _ => True
  | JNum (Fin d) => dec_normal d ∧ dec_finite d
  | JNum _ => False
  | JArr l => foldr (λ x P, jwf x ∧ P) True l
  | JObj l => obj_wf l ∧ foldr (λ kv P, jwf kv.2 ∧ P) True l
  end.

Lemma jwf_jfin v : jwf v → jfin v.
Proof.
  induction v as [| |b|[d| |]|s|l IH|l IH] using jsval_induction; try done; cbn [jwf jfin].
  - rewrite !foldr_and_Forall. intros Hl. decompose_Forall. auto.
  - rewrite (foldr_and_Forall (λ kv, jwf kv.2)), (foldr_and_Forall (λ kv, jfin kv.2)).
    intros [[Hnd _] Hl]. split; [done|]. decompose_Forall. auto.
Qed.

Lemma jwf_reorder v : jwf v → jreorder v = v.
Proof.
  induction v as [| |b|[d| |]|s|l IH|l IH] using jsval_induction; try done; cbn [jwf].
  - rewrite foldr_and_Forall. intros Hl. cbn [jreorder]. f_equal.
    induction Hl; decompose_Forall_hyps; f_equal; auto.
  - rewrite (foldr_and_Forall (λ kv, jwf kv.2)). intros [[_ Ho] Hl].
    change (JObj (js_order (List.map reorder_field l)) = JObj l). f_equal.
    rewrite <-Ho at 2. f_equal. clear Ho.
    induction Hl as [|[k v] l Hv Hl IHl]; decompose_Forall_hyps; [done|]. f_equal; [|by apply IHl].
    f_equal. auto.
Qed.

(** [JSON.parse(JSON.stringify(v))] is [v] on every value in enumeration order. *)
Lemma parse_stringify_wf v : jwf v → parse (stringify v) = Ret v.
Proof. intros Hwf. by rewrite parse_stringify_fin, jwf_reorder by auto using jwf_jfin. Qed.

Lemma stringify_inj v w : jwf v → jwf w → stringify v = stringify w → v = w.
Proof.
  intros Hv Hw H. pose proof (parse_stringify_wf v Hv) as Hp.
  rewrite H, parse_stringify_wf in Hp by done. congruence.
Qed.

(** ** Property order *)

#[export] Instance index_le_total {A} : Total (@index_le A).
Proof. intros a b. unfold index_le. lia. Qed.
#[export] Instance index_le_trans {A} : Transitive (@index_le A).
Proof. intros a b c. unfold index_le. lia. Qed.

Lemma filter_split_perm {A} (P Q : A → Prop) `{!∀ x, Decision (P x)} `{!∀ x, Decision (Q x)} l :
  (∀ x, P x ↔ ¬ Q x) → filter P l ++ filter Q l ≡ₚ l.
Proof.
  intros HPQ. induction l as [|x l IH]; [done|]. rewrite !filter_cons.
  destruct (decide (P x)) as [HP|HP], (decide (Q x)) as [HQ|HQ]; try (exfalso; naive_solver).
  - simpl. by rewrite IH.
  - rewrite <-Permutation_middle. by rewrite IH.
Qed.

Lemma js_order_perm {A} (l : list (string * A)) : js_order l ≡ₚ l.
Proof.
  unfold js_order. rewrite merge_sort_Permutation. apply filter_split_perm.
  intros x. rewrite <-not_eq_None_Some. tauto.
Qed.

Lemma array_index_inj k k' n : array_index k = Some n → array_index k' = Some n → k = k'.
Proof.
  unfold array_index. intros H H'. case_match eqn:E; [|done]. case_match eqn:E'; [|done].
  btrue. simplify_eq. congruence.
Qed.

Lemma filter_none {A} (P : A → Prop) `{!∀ x, Decision (P x)} l :
  Forall (λ x, ¬ P x) l → filter P l = [].
Proof. induction 1; [done|]. by rewrite filter_cons_False. Qed.
Lemma filter_all' {A} (P : A → Prop) `{!∀ x, Decision (P x)} l :
  Forall P l → filter P l = l.
Proof. induction 1; [done|]. rewrite filter_cons_True by done. by f_equal. Qed.

Lemma js_order_no_index {A} (l : list (string * A)) :
  Forall (λ kv, array_index kv.1 = None) l → js_order l = l.
Proof.
  intros Hl. unfold js_order. rewrite (filter_all' (λ kv, array_index kv.1 = None)) by done.
  rewrite filter_none; [done|]. eapply Forall_impl; [exact Hl|]. simpl. intros x ->. by intros [].
Qed.

(** Index entries with different keys have one sorted order. *)
Lemma index_sorted_unique {A} (l1 l2 : list (string * A)) :
  StronglySorted index_le l1 → StronglySorted index_le l2 → l1 ≡ₚ l2 → NoDup l1.*1 →
  Forall (λ kv, is_Some (array_index kv.1)) l1 → l1 = l2.
Proof.
  intros H1 H2 Hp Hnd HI. apply (StronglySorted_unique_strong index_le); [|done..].
  intros [k v] [k' v'] Hx Hy Hxy Hyx. rewrite <-Hp in Hy.
  rewrite Forall_forall in HI.
  destruct (HI _ Hx) as [n Hn]. destruct (HI _ Hy) as [n' Hn']. unfold index_le in *. simpl in *.
  rewrite Hn, Hn' in *. simpl in *. assert (n = n') by lia. subst n'.
  assert (k = k') as -> by (by eapply array_index_inj).
  pose proof (om_get_elem k' v l1 Hnd Hx). pose proof (om_get_elem k' v' l1 Hnd Hy). congruence.
Qed.

Lemma NoDup_filter_keys {A} (P : string * A → Prop) `{!∀ x, Decision (P x)} (l : list (string * A)) :
  NoDup l.*1 → NoDup (filter P l).*1.
Proof. apply om_wf_filter. Qed.

Lemma filter_fmap {A B} (f : A → B) (P : B → Prop) (Q : A → Prop)
    `{!∀ x, Decision (P x)} `{!∀ x, Decision (Q x)} (l : list A) :
  (∀ x, P (f x) ↔ Q x) → filter P (f <$> l) = f <$> filter Q l.
Proof.
  intros HPQ. induction l as [|x l IH]; [done|]. csimpl. rewrite !filter_cons.
  destruct (decide (P (f x))), (decide (Q x)); try (exfalso; naive_solver); csimpl; by rewrite IH.
Qed.

Lemma js_order_fmap {A B} (f : string * A → string * B) (l : list (string * A)) :
  (∀ kv, (f kv).1 = kv.1) → NoDup l.*1 → js_order (f <$> l) = f <$> js_order l.
Proof.
  intros Hf Hnd. unfold js_order. rewrite fmap_app.
  rewrite (filter_fmap f (λ kv, array_index kv.1 = None) (λ kv, array_index kv.1 = None)) by (intros x; simpl; rewrite Hf; tauto).
  rewrite (filter_fmap f (λ kv, is_Some (array_index kv.1)) (λ kv, is_Some (array_index kv.1))) by (intros x; simpl; rewrite Hf; tauto).
  f_equal. set (I := filter (λ kv, is_Some (array_index kv.1)) l).
  assert (∀ l : list (string * A), (f <$> l).*1 = l.*1) as Hkeys.
  { intros m. rewrite <-list_fmap_compose. apply list_fmap_ext. intros; apply Hf. }
  apply index_sorted_unique.
  - apply (StronglySorted_merge_sort index_le).
  - apply (StronglySorted_fmap f index_le index_le); [intros x y; unfold index_le; by rewrite !Hf|].
    apply (StronglySorted_merge_sort index_le).
  - by rewrite !merge_sort_Permutation.
  - rewrite merge_sort_Permutation, Hkeys. by apply NoDup_filter_keys.
  - rewrite merge_sort_Permutation. apply Forall_fmap, Forall_forall. intros x Hx. simpl. rewrite Hf.
    by apply list_elem_of_filter in Hx as [? _].
Qed.

Lemma js_order_idem {A} (l : list (string * A)) : NoDup l.*1 → js_order (js_order l) = js_order l.
Proof.
  intros Hnd. unfold js_order at 2 3.
  set (I := filter (λ kv, is_Some (array_index kv.1)) l).
  set (N := filter (λ kv, array_index kv.1 = None) l).
  assert (Forall (λ kv, is_Some (array_index kv.1)) (merge_sort index_le I)) as HI.
  { rewrite merge_sort_Permutation. apply Forall_forall. intros x Hx.
    by apply list_elem_of_filter in Hx as [? _]. }
  assert (Forall (λ kv, array_index kv.1 = None) N) as HN.
  { apply Forall_forall. intros x Hx. by apply list_elem_of_filter in Hx as [? _]. }
  unfold js_order. rewrite !filter_app.
  rewrite (filter_all' _ (merge_sort _ I)), (filter_none _ N), (filter_none _ (merge_sort _ I)), (filter_all' _ N), app_nil_r.
  2: done.
  2: { eapply Forall_impl; [exact HI|]. simpl. intros x [? ->]. done. }
  2: { eapply Forall_impl; [exact HN|]. simpl. intros x ->. by intros []. }
  2: done.
  simpl. f_equal.
  apply index_sorted_unique; try apply (StronglySorted_merge_sort index_le).
  - apply merge_sort_Permutation.
  - rewrite !merge_sort_Permutation. by apply NoDup_filter_keys.
  - by rewrite merge_sort_Permutation.
Qed.

Lemma js_order_wf {A} (l : list (string * A)) : NoDup l.*1 → obj_wf (js_order l).
Proof.
  intros Hnd. split; [|by apply js_order_idem].
  by rewrite js_order_perm.
Qed.

(** ** The canonical form *)

Definition FORBIDDEN_KEYS : list string :=
  ["__proto__"; "constructor"; "prototype"; "__defineGetter__"; "__defineSetter__";
   "__lookupGetter__"; "__lookupSetter__"].

Fixpoint assertNoForbidden_loop (keys : list string) (rawJson : string) : exc unit :=
  match keys with
  | [] => Ret tt
  | key :: keys =>
      if includes (String DQ (key +:+ String DQ EmptyString)) rawJson
      then Throw (TypeError ("BPC: forbidden key " +:+ quote key +:+ " detected in payload"))
      else assertNoForbidden_loop keys rawJson
  end.
Definition assertNoForbiddenKeys (rawJson : string) : exc unit :=
  assertNoForbidden_loop FORBIDDEN_KEYS rawJson.

(** [value !== null && typeof value === 'object'] *)
Definition is_nested (v : jsval) : bool :=
  match v with JArr _ | JObj _ => true | _ => false end.

Fixpoint canonicalize_loop (obj : list (string * jsval)) (keys : list string)
    (sorted : list (string * jsval)) : exc (list (string * jsval)) :=
  match keys with
  | [] => Ret sorted
  | key :: keys =>
      if decide (key ∈ FORBIDDEN_KEYS)
      then Throw (TypeError ("BPC canonicalize: forbidden key " +:+ quote key +:+ " in payload"))
      else
        let value := default JUndef (om_get key obj) in
        if is_nested value
        then Throw (TypeError ("BPC canonicalize: nested object at key " +:+ quote key +:+ " is not allowed"))
        else canonicalize_loop obj keys (om_set key value sorted)
  end.

Definition sorted_keys (obj : list (string * jsval)) : list string := merge_sort String.le obj.*1.

Definition canonicalize (obj : jsval) : exc string :=
  match obj with
  | JObj l =>
      sorted ← canonicalize_loop l (sorted_keys l) [];
      Ret (stringify (JObj (js_order sorted)))
  | _ => Throw (TypeError "BPC canonicalize: input must be a plain object")
  end.

Example canonicalize_ex :
  canonicalize (JObj [("b", JNum (int 1)); ("10", JNull); ("a", JStr "x"); ("9", JBool true)]) =
  Ret (dq "{'9':true,'10':null,'a':'x','b':1}").
Proof. vm_compute. reflexivity. Qed.

(** The fields of [l] in the order the canonical form visits them. *)
Definition fields_sorted (l : list (string * jsval)) : list (string * jsval) :=
  (λ k, (k, default JUndef (om_get k l))) <$> sorted_keys l.

Lemma sorted_keys_perm l : sorted_keys l ≡ₚ l.*1.
Proof. apply merge_sort_Permutation. Qed.

Lemma fields_sorted_keys l : (fields_sorted l).*1 = sorted_keys l.
Proof. unfold fields_sorted. rewrite <-list_fmap_compose. apply list_fmap_id. Qed.

Lemma fields_sorted_perm l : NoDup l.*1 → fields_sorted l ≡ₚ l.
Proof.
  intros Hnd. unfold fields_sorted. rewrite sorted_keys_perm, <-list_fmap_compose.
  assert (((λ k, (k, default JUndef (om_get k l))) ∘ fst) <$> l = id <$> l) as ->; [|by rewrite list_fmap_id].
  apply list_fmap_ext. intros i [k v] Hi. simpl.
  rewrite (om_get_elem k v l Hnd); [done|]. by eapply list_elem_of_lookup_2.
Qed.

Definition flat (l : list (string * jsval)) : Prop :=
  Forall (λ kv, is_nested kv.2 = false ∧ kv.1 ∉ FORBIDDEN_KEYS) l.

Lemma canonicalize_loop_ok obj keys acc :
  NoDup (acc.*1 ++ keys) →
  (∀ k, k ∈ keys → k ∉ FORBIDDEN_KEYS ∧ is_nested (default JUndef (om_get k obj)) = false) →
  canonicalize_loop obj keys acc =
  Ret (acc ++ ((λ k, (k, default JUndef (om_get k obj))) <$> keys))%list.
Proof.
  revert acc. induction keys as [|k keys IH]; intros acc Hnd Hk; cbn [canonicalize_loop].
  { by rewrite app_nil_r. }
  destruct (Hk k) as [Hf Hn]; [set_solver|]. rewrite decide_False by done. rewrite Hn.
  assert (k ∉ acc.*1) as Hfresh.
  { apply NoDup_app in Hnd as (_ & Hd & _). intros ?. eapply Hd; [done|set_solver]. }
  rewrite om_set_fresh by done. rewrite IH.
  - csimpl. by rewrite <-app_assoc.
  - rewrite fmap_app, <-app_assoc. done.
  - intros k' Hk'. apply Hk. set_solver.
Qed.

Lemma canonicalize_loop_inv obj keys acc r :
  canonicalize_loop obj keys acc = Ret r →
  ∀ k, k ∈ keys → k ∉ FORBIDDEN_KEYS ∧ is_nested (default JUndef (om_get k obj)) = false.
Proof.
  revert acc. induction keys as [|k keys IH]; intros acc; cbn [canonicalize_loop]; [set_solver|].
  destruct (decide (k ∈ FORBIDDEN_KEYS)) as [|Hf]; [done|].
  destruct (is_nested _) eqn:Hn; [done|]. intros Hr k' [->|Hin]%elem_of_cons; [done|]. by eapply IH.
Qed.

(** The canonical form of a flat object is the text of its sorted fields. *)
Lemma canonicalize_flat l : NoDup l.*1 → flat l →
  canonicalize (JObj l) = Ret (stringify (JObj (js_order (fields_sorted l)))).
Proof.
  intros Hnd Hflat. unfold canonicalize. rewrite canonicalize_loop_ok; [done|..].
  - simpl. by rewrite sorted_keys_perm.
  - intros k Hk. rewrite sorted_keys_perm in Hk. apply list_elem_of_fmap in Hk as ([k' v] & -> & Hin).
    unfold flat in Hflat. rewrite Forall_forall in Hflat. simpl. rewrite (om_get_elem k' v) by done.
    by destruct (Hflat _ Hin).
Qed.

Lemma canonicalize_Ret l s : NoDup l.*1 → canonicalize (JObj l) = Ret s →
  flat l ∧ s = stringify (JObj (js_order (fields_sorted l))).
Proof.
  intros Hnd Hs.
  assert (flat l) as Hflat.
  { unfold canonicalize in Hs. destruct (canonicalize_loop _ _ _) eqn:Hl; [|done].
    apply Forall_forall. intros [k v] Hin.
    eapply canonicalize_loop_inv with (k := k) in Hl.
    - rewrite (om_get_elem k v) in Hl by done. naive_solver.
    - rewrite sorted_keys_perm. apply list_elem_of_fmap. by exists (k, v). }
  split; [done|]. rewrite canonicalize_flat in Hs by done. congruence.
Qed.

(** Scalars as [JSON.parse] returns them; an out-of-range number is infinite
    and prints as [null]. *)
Definition scalar_ok (v : jsval) : Prop :=
  match v with
  | JNull | JBool _ | JStr _ => True
  | JNum (Fin d) => dec_normal d ∧ dec_finite d
  | JNum (Inf _) => True
  | _ => False
  end.
Definition jnorm (v : jsval) : jsval := match v with JNum (Inf _) => JNull | v => v end.
Definition norm_field (kv : string * jsval) : string * jsval := (kv.1, jnorm kv.2).

Lemma jnorm_wf v : scalar_ok v → jwf (jnorm v).
Proof. by destruct v as [| |[]|[d|[]|]| | |]. Qed.

Lemma stringify_norm l : Forall (λ kv, scalar_ok kv.2) l →
  stringify (JObj (norm_field <$> l)) = stringify (JObj l).
Proof.
  intros Hl. rewrite !stringify_obj_pieces.
  replace (List.map member_opt (norm_field <$> l)) with (List.map member_opt l); [done|].
  induction Hl as [|[k v] l Hv Hl IH]; [done|]. csimpl. rewrite IH. f_equal.
  by destruct v as [| |[]|[d|[]|]| | |].
Qed.

Lemma norm_fields_keys l : (norm_field <$> l).*1 = l.*1.
Proof. rewrite <-list_fmap_compose. by apply list_fmap_ext. Qed.

(** Parsing a canonical text gives the fields back. *)
Lemma parse_canonical l s : NoDup l.*1 → Forall (λ kv, scalar_ok kv.2) l →
  canonicalize (JObj l) = Ret s →
  parse s = Ret (JObj (norm_field <$> js_order (fields_sorted l))).
Proof.
  intros Hnd Hsc Hs. apply canonicalize_Ret in Hs as [Hflat ->]; [|done].
  assert (NoDup (fields_sorted l).*1) as Hnd'.
  { by rewrite fields_sorted_keys, sorted_keys_perm. }
  assert (Forall (λ kv, scalar_ok kv.2) (js_order (fields_sorted l))) as Hsc'.
  { by rewrite js_order_perm, fields_sorted_perm. }
  rewrite <-stringify_norm by done. apply parse_stringify_wf. cbn [jwf]. split.
  - rewrite <-js_order_fmap by done. apply js_order_wf. by rewrite norm_fields_keys.
  - apply (foldr_and_Forall (λ kv, jwf kv.2)), Forall_fmap.
    eapply Forall_impl; [exact Hsc'|]. intros [k v]. apply jnorm_wf.
Qed.

(** Two objects with one canonical form have the same fields. *)
Lemma canonicalize_same l l' s :
  NoDup l.*1 → NoDup l'.*1 → Forall (λ kv, scalar_ok kv.2) l → Forall (λ kv, scalar_ok kv.2) l' →
  canonicalize (JObj l) = Ret s → canonicalize (JObj l') = Ret s →
  norm_field <$> l ≡ₚ norm_field <$> l'.
Proof.
  intros Hnd Hnd' Hsc Hsc' Hs Hs'.
  pose proof (parse_canonical l s Hnd Hsc Hs) as Hp.
  rewrite (parse_canonical l' s Hnd' Hsc' Hs') in Hp. injection Hp as Heq.
  rewrite <-(fields_sorted_perm l Hnd), <-(fields_sorted_perm l' Hnd').
  rewrite <-(js_order_perm (fields_sorted l)), <-(js_order_perm (fields_sorted l')). by rewrite Heq.
Qed.

Lemma fields_sorted_ext l l' : NoDup l.*1 → l ≡ₚ l' → fields_sorted l = fields_sorted l'.
Proof.
  intros Hnd Hp. unfold fields_sorted.
  assert (sorted_keys l = sorted_keys l') as ->.
  { apply (StronglySorted_unique String.le); [apply (StronglySorted_merge_sort String.le)..|].
    by rewrite !sorted_keys_perm, Hp. }
  apply list_fmap_ext. intros i k Hk. f_equal. f_equal.
  assert (k ∈ l'.*1) as Hin.
  { rewrite <-(sorted_keys_perm l'). by eapply list_elem_of_lookup_2. }
  apply list_elem_of_fmap in Hin as ([k' v] & -> & Hin). simpl.
  rewrite (om_get_elem k' v l'); [|by rewrite <-Hp|done].
  apply om_get_elem; [done|by rewrite Hp].
Qed.

(** The canonical form does not depend on the order of the properties. *)
Lemma canonicalize_perm l l' s : NoDup l.*1 → l ≡ₚ l' →
  canonicalize (JObj l) = Ret s → canonicalize (JObj l') = Ret s.
Proof.
  intros Hnd Hp Hs. apply canonicalize_Ret in Hs as [Hflat ->]; [|done].
  rewrite canonicalize_flat; [by rewrite (fields_sorted_ext l l')|by rewrite <-Hp|].
  unfold flat. by rewrite <-Hp.
Qed.

Lemma om_get_perm {V} k (l l' : list (string * V)) : NoDup l.*1 → l ≡ₚ l' → om_get k l = om_get k l'.
Proof.
  intros Hnd Hp. destruct (om_get k l) as [v|] eqn:Hv; symmetry.
  - apply om_get_elem; [by unfold om_wf; rewrite <-Hp|]. rewrite <-Hp. by apply om_get_Some_elem.
  - apply om_get_None. apply om_get_None in Hv. by rewrite <-Hp.
Qed.

(** ** What the parser returns *)

(** Values [JSON.parse] returns: numbers in lowest terms or infinite, objects
    without duplicate keys and in enumeration order. *)
Fixpoint jparsed (v : jsval) : Prop :=
  match v with
  | JUndef => False
  | JNull | JBool _ | JStr _ => True
  | JNum (Fin d) => dec_normal d ∧ dec_finite d
  | JNum (Inf _) => True
  | JNum NaN => False
  | JArr l => foldr (λ x P, jparsed x ∧ P) True l
  | JObj l => obj_wf l ∧ foldr (λ kv P, jparsed kv.2 ∧ P) True l
  end.

Lemma jparsed_scalar v : jparsed v → is_nested v = false → scalar_ok v.
Proof. by destruct v as [| |[]|[d|[]|]| | |]. Qed.

Lemma dec_norm_is_normal m k : dec_normal (dec_norm m k).
Proof. revert m. induction k as [|k IH]; intros m; simpl; [by left|]. case_decide; [done|by right]. Qed.

Lemma dec_norm_finite m k : (Z.abs m < max_finite * pow10 k)%Z → dec_finite (dec_norm m k).
Proof.
  intros Hm. unfold dec_finite. pose proof (dec_norm_value m k) as Hv.
  pose proof (pow10_pos k). pose proof (pow10_pos (dk (dec_norm m k))).
  apply (Zmult_lt_reg_r _ _ (pow10 k)); [lia|].
  rewrite <-(Z.abs_eq (pow10 k)) at 1 by lia. rewrite <-Z.abs_mul, Hv, Z.abs_mul.
  rewrite (Z.abs_eq (pow10 (dk _))) by lia. nia.
Qed.

Lemma span_facts f s a r : span f s = (a, r) →
  all_chars f a = true ∧ s = a +:+ r.
Proof.
  revert a r. induction s as [|c s IH]; intros a r; simpl.
  { intros [= <- <-]. done. }
  destruct (f c) eqn:Hc; [|intros [= <- <-]; done].
  destruct (span f s) as [a' r']. intros [= <- <-]. destruct (IH a' r' eq_refl) as [Ha ->].
  simpl. rewrite Hc, Ha, string_app_cons. done.
Qed.

Lemma expect_Some p s r : expect p s = Some r → s = p +:+ r.
Proof.
  revert s. induction p as [|a p IH]; intros s; [by intros [= ->]|].
  destruct s as [|b s]; simpl; [done|]. case_decide; [|done]. subst. intros Hr.
  by rewrite string_app_cons, <-(IH s Hr).
Qed.

Lemma parse_digits_Some s a r : parse_digits s = Some (a, r) →
  all_chars is_digit a = true ∧ s = a +:+ r ∧ a ≠ EmptyString.
Proof.
  unfold parse_digits. destruct (span is_digit s) as [a' r'] eqn:Hs. case_decide; [done|].
  intros [= <- <-]. apply span_facts in Hs as [? ?]. done.
Qed.

Lemma parse_int_part_Some s a r : parse_int_part s = Some (a, r) →
  all_chars is_digit a = true ∧ s = a +:+ r ∧ a ≠ EmptyString.
Proof.
  unfold parse_int_part. destruct (expect "0" s) eqn:He.
  - intros [= <- <-]. by apply expect_Some in He.
  - apply parse_digits_Some.
Qed.

Lemma parse_frac_Some s a r : parse_frac s = Some (a, r) →
  all_chars is_digit a = true ∧ (String.length r ≤ String.length s)%nat.
Proof.
  unfold parse_frac. destruct (expect "." s) eqn:He.
  - intros (Ha & -> & _)%parse_digits_Some. apply expect_Some in He as ->. split; [done|].
    rewrite !string_length_app. lia.
  - intros [= <- <-]. done.
Qed.

Lemma expect_length p s r : expect p s = Some r → (String.length s = String.length p + String.length r)%nat.
Proof. intros ->%expect_Some. apply string_length_app. Qed.

Lemma parse_exp_length s e r : parse_exp s = Some (e, r) → (String.length r ≤ String.length s)%nat.
Proof.
  unfold parse_exp.
  destruct (match expect "e" s with Some r => Some r | None => expect "E" s end) as [t|] eqn:Ht;
    [|by intros [= <- <-]].
  assert (String.length s = S (String.length t)) as Hl.
  { destruct (expect "e" s) eqn:He; simplify_eq; [by apply expect_length in He|by apply expect_length in Ht]. }
  intros Hr. destruct (expect "-" t) eqn:Hm.
  - apply bind_Some in Hr as ([a r'] & (_ & -> & _)%parse_digits_Some & [= _ <-]).
    apply expect_length in Hm. rewrite string_length_app in Hm. simpl in *. lia.
  - destruct (expect "+" t) eqn:Hp; simpl in Hr;
      apply bind_Some in Hr as ([a r'] & (_ & -> & _)%parse_digits_Some & [= _ <-]).
    + apply expect_length in Hp. rewrite string_length_app in Hp. simpl in *. lia.
    + rewrite string_length_app in Hl. simpl. lia.
Qed.

Lemma make_num_parsed neg m k e : (0 <= m)%Z → jparsed (JNum (make_num neg m k e)).
Proof.
  intros Hm. unfold make_num.
  destruct (if decide (e < 0)%Z then _ else _) as [m' k'] eqn:Hmk.
  assert (0 <= m')%Z as Hm'.
  { revert Hmk. repeat case_decide; intros; simplify_eq; [done..|].
    pose proof (pow10_pos (Z.to_nat e - k)). nia. }
  clear Hmk. case_decide; [exact I|]. cbn [jparsed]. split; [apply dec_norm_is_normal|].
  apply dec_norm_finite. destruct neg; lia.
Qed.

Lemma parse_number_Some s x r : parse_number s = Some (x, r) →
  jparsed (JNum x) ∧ (String.length r < String.length s)%nat.
Proof.
  unfold parse_number.
  assert (∃ neg s1, match expect "-" s with Some r => (true, r) | None => (false, s) end = (neg, s1) ∧
    (String.length s1 ≤ String.length s)%nat) as (neg & s1 & -> & Hl).
  { destruct (expect "-" s) eqn:He; eexists _, _; split; [done| |done|done].
    apply expect_length in He. lia. }
  intros ([ip r1] & Hip & ([fp r2] & Hfp & ([e r3] & Hep & [= <- <-])%bind_Some)%bind_Some)%bind_Some.
  apply parse_int_part_Some in Hip as (Hia & -> & Hne). apply parse_frac_Some in Hfp as [Hfa Hfl].
  apply parse_exp_length in Hep. cbn [fst snd] in *. split.
  - apply make_num_parsed, digits_value_nonneg. by rewrite all_chars_app, Hia, Hfa.
  - rewrite string_length_app in Hl. destruct ip; [done|]. simpl in *. lia.
Qed.

Lemma parse_chars_length s a r : parse_chars s = Some (a, r) → (String.length r < String.length s)%nat.
Proof.
  revert a r. remember (String.length s) as n eqn:Hn. revert s Hn.
  induction n as [n IH] using (well_founded_induction lt_wf). intros s -> a r.
  destruct s as [|c s1]; [done|]. cbn [parse_chars].
  case_decide; [intros [= <- <-]; simpl; lia|].
  case_decide.
  - destruct s1 as [|e s2]; [done|]. case_decide.
    + destruct s2 as [|h1 [|h2 [|h3 [|h4 s3]]]]; try done.
      intros (? & _ & (? & _ & (? & _ & (? & _ & Hr)%bind_Some)%bind_Some)%bind_Some)%bind_Some.
      case_decide; [|done]. apply bind_Some in Hr as ([a' r'] & Hp & [= <- <-]).
      eapply IH in Hp; [|  |done]; simpl in *; lia.
    + intros (? & _ & ([a' r'] & Hp & [= <- <-])%bind_Some)%bind_Some.
      eapply IH in Hp; [| |done]; simpl in *; lia.
  - case_decide; [done|]. intros ([a' r'] & Hp & [= <- <-])%bind_Some.
    eapply IH in Hp; [| |done]; simpl in *; lia.
Qed.

Lemma skip_ws_length s : (String.length (skip_ws s) ≤ String.length s)%nat.
Proof. induction s as [|c s IH]; simpl; [done|]. destruct (is_ws c); simpl; lia. Qed.

Lemma expect_ws_length c s r : expect (String c EmptyString) (skip_ws s) = Some r →
  (String.length r < String.length s)%nat.
Proof. intros H%expect_length. pose proof (skip_ws_length s). simpl in *. lia. Qed.

Lemma foldl_om_set_In {V} (l acc : list (string * V)) (P : V → Prop) :
  NoDup acc.*1 → Forall (λ kv, P kv.2) acc → Forall (λ kv, P kv.2) l →
  NoDup (foldl (λ acc kv, om_set kv.1 kv.2 acc) acc l).*1 ∧
  Forall (λ kv, P kv.2) (foldl (λ acc kv, om_set kv.1 kv.2 acc) acc l).
Proof.
  intros Hnd Hacc Hl. revert acc Hnd Hacc. induction Hl as [|[k v] l Hv Hl IH]; intros acc Hnd Hacc; [done|].
  cbn [foldl fst snd]. apply IH; [by apply om_wf_set|]. clear -Hacc Hv.
  induction Hacc as [|[k' v'] acc Hv' Hacc IH]; simpl; [by repeat constructor|].
  case_decide; constructor; auto.
Qed.

Lemma obj_of_parsed l : Forall (λ kv, jparsed kv.2) l → jparsed (JObj (obj_of l)).
Proof.
  intros Hl. destruct (foldl_om_set_In l [] jparsed) as [Hnd Hf]; [constructor|constructor|done|].
  cbn [jparsed]. split; [by apply js_order_wf|].
  apply (foldr_and_Forall (λ kv, jparsed kv.2)). unfold obj_of. by rewrite js_order_perm.
Qed.

Definition shorter (r s : string) : Prop := (String.length r < String.length s)%nat.

Lemma parse_result n :
  (∀ s v r, parse_value n s = Some (v, r) → jparsed v ∧ shorter r s) ∧
  (∀ s l r, parse_elements n s = Some (l, r) → Forall jparsed l ∧ shorter r s) ∧
  (∀ s l r, parse_members n s = Some (l, r) → Forall (λ kv, jparsed kv.2) l ∧ shorter r s).
Proof.
  unfold shorter. induction n as [|n (IHv & IHe & IHm)]; [done|]. split_and!.
  - intros s v r. cbn [parse_value]. pose proof (skip_ws_length s) as Hws.
    destruct (skip_ws s) as [|c s'] eqn:Hs; [done|]. simpl in Hws.
    case_decide.
    { intros ([a t] & Hp%parse_chars_length & [= <- <-])%bind_Some. simpl. split; [done|lia]. }
    case_decide.
    { destruct (expect "]" _) eqn:He; [intros [= <- <-]; apply expect_ws_length in He; simpl; split; [done|lia]|].
      intros ([l t] & [Hl Ht]%IHe & [= <- <-])%bind_Some. simpl. rewrite foldr_and_Forall. split; [done|lia]. }
    case_decide.
    { destruct (expect "}" _) eqn:He; [intros [= <- <-]; apply expect_ws_length in He; split;
        [by apply (obj_of_parsed [])|lia]|].
      intros ([l t] & [Hl Ht]%IHm & [= <- <-])%bind_Some. split; [by apply obj_of_parsed|cbn [fst snd]; lia]. }
    repeat (case_decide; [intros (t & Ht%expect_length & [= <- <-])%bind_Some; simpl in *; split; [done|lia]|]).
    intros ([x t] & [Hx Ht]%parse_number_Some & [= <- <-])%bind_Some. split; [done|]. simpl in *. lia.
  - intros s l r. cbn [parse_elements]. intros ([v t] & [Hv Ht]%IHv & Hr)%bind_Some. cbn [fst snd] in Hr.
    destruct (expect "," _) eqn:He.
    + apply bind_Some in Hr as ([l' t'] & [Hl Ht']%IHe & [= <- <-]). apply expect_ws_length in He.
      split; [by constructor|simpl; lia].
    + apply bind_Some in Hr as (t' & He'%expect_ws_length & [= <- <-]). split; [by repeat constructor|lia].
  - intros s l r. cbn [parse_members].
    intros (s1 & H1%expect_ws_length & ([k t] & Hk%parse_chars_length & (s2 & H2%expect_ws_length & ([v t'] & [Hv Ht]%IHv & Hr)%bind_Some)%bind_Some)%bind_Some)%bind_Some.
    cbn [fst snd] in *. destruct (expect "," _) eqn:He.
    + apply bind_Some in Hr as ([l' t''] & [Hl Ht']%IHm & [= <- <-]). apply expect_ws_length in He.
      split; [by constructor|simpl; lia].
    + apply bind_Some in Hr as (t'' & He'%expect_ws_length & [= <- <-]). split; [by repeat constructor|lia].
Qed.

Lemma parse_parsed s v : parse s = Ret v → jparsed v.
Proof.
  unfold parse. destruct (parse_value _ s) as [[v' r]|] eqn:Hp; [|done]. case_decide; [|done].
  intros [= <-]. by apply (proj1 (parse_result _)) in Hp as [? _].
Qed.

(** Any fuel above twice the length gives the same result: the parser never
    stops for lack of fuel. *)
Lemma parse_fuel (n : nat) : ∀ m : nat, (n ≤ m)%nat →
  (∀ s, (2 * String.length s < n)%nat → parse_value n s = parse_value m s) ∧
  (∀ s, (2 * String.length s + 1 < n)%nat → parse_elements n s = parse_elements m s) ∧
  (∀ s, (2 * String.length s + 1 < n)%nat → parse_members n s = parse_members m s).
Proof.
  induction n as [|n IH]; intros m Hm; [split_and!; intros; lia|].
  destruct m as [|m]; [lia|]. destruct (IH m) as (IHv & IHe & IHm); [lia|].
  split_and!; intros s Hs.
  - cbn [parse_value]. pose proof (skip_ws_length s). destruct (skip_ws s) as [|c s']; [done|]. simpl in *.
    by rewrite IHe, IHm by lia.
  - cbn [parse_elements]. rewrite <-IHv by lia. destruct (parse_value n s) as [[v t]|] eqn:Hv; [|done].
    cbn [mbind option_bind fst snd]. apply (proj1 (parse_result n)) in Hv as [_ Ht]. unfold shorter in Ht.
    destruct (expect "," _) eqn:He; [|done]. apply expect_ws_length in He. by rewrite IHe by lia.
  - cbn [parse_members]. destruct (expect _ (skip_ws s)) as [s1|] eqn:H1; [|done].
    apply expect_ws_length in H1. cbn [mbind option_bind].
    destruct (parse_chars s1) as [[k t]|] eqn:Hk; [|done]. apply parse_chars_length in Hk.
    cbn [mbind option_bind fst snd]. destruct (expect ":" _) as [s2|] eqn:H2; [|done].
    apply expect_ws_length in H2. cbn [mbind option_bind]. rewrite <-IHv by lia.
    destruct (parse_value n s2) as [[v t']|] eqn:Hv; [|done].
    cbn [mbind option_bind fst snd]. apply (proj1 (parse_result n)) in Hv as [_ Ht]. unfold shorter in Ht.
    destruct (expect "," _) eqn:He; [|done]. apply expect_ws_length in He. by rewrite IHm by lia.
Qed.

Lemma parse_value_fuel s n : (2 * String.length s < n)%nat →
  parse_value n s = parse_value (S (2 * String.length s)) s.
Proof. intros Hn. symmetry. apply (parse_fuel (S (2 * String.length s)) n); lia. Qed.

(** ** Properties *)

(** JSON round trip: [JSON.parse] of [JSON.stringify] of a well-formed value
    (finite decimal numbers, property lists in JavaScript's enumeration order)
    is the value. *)
Theorem json_roundtrip v : jwf v → parse (stringify v) = Ret v.
Proof. apply parse_stringify_wf. Qed.

(** The canonical form is unambiguous: two flat payloads with one canonical
    text have the same fields with the same values (an infinite number counts as
    [null], as [JSON.stringify] writes it). *)
Theorem canonicalize_injective l l' s :
  NoDup l.*1 → NoDup l'.*1 → Forall (λ kv, scalar_ok kv.2) l → Forall (λ kv, scalar_ok kv.2) l' →
  canonicalize (JObj l) = Ret s → canonicalize (JObj l') = Ret s →
  norm_field <$> l ≡ₚ norm_field <$> l'.
Proof. apply canonicalize_same. Qed.

(** The canonical form is canonical: it does not depend on the order in which
    the properties were inserted. *)
Theorem canonicalize_order l l' s : NoDup l.*1 → l ≡ₚ l' →
  canonicalize (JObj l) = Ret s → canonicalize (JObj l') = Ret s.
Proof. apply canonicalize_perm. Qed.
