(* ===== verification/JsText.v ===== *)
(** * Text functions of the language, and sorted values

    [trim], [Number] and [toLowerCase] on strings of code units 0..255, and the
    text of a UTF-8 buffer.  Below, the JSON text of a value with the keys of every
    object sorted, which several modules hash or sign: [jsorted] is that value, and
    two values with one sorted text are the same value up to the order of
    properties ([sorted_text_inj]). *)

From S2P Require Import Prelude JsNum Encoding Json.
From stdpp Require Import base strings list sorting sets.
From Stdlib Require Import NArith ZArith Lia.

Local Open Scope Z_scope.

Definition is_js_space (c : ascii) : bool := bool_decide (char_code c ∈ [9; 10; 11; 12; 13; 32; 160]%N).
Fixpoint drop_space (l : list ascii) : list ascii :=
  match l with c :: t => if is_js_space c then drop_space t else l | [] => [] end.
Definition trim (s : string) : string := unchars (reverse (drop_space (reverse (drop_space (chars s))))).

Definition radix_val (base : Z) (c : ascii) : option Z :=
  v ← hex_val c; if decide (v < base) then Some v else None.
Definition radix_value (base : Z) (s : string) : num :=
  match chars s, mapM (radix_val base) (chars s) with
  | _ :: _, Some l => int (foldl (λ v d, v * base + d) 0 l)
  | _, _ => NaN
  end.

Definition decimal_value (neg : bool) (s : string) : num :=
  let '(ip, r1) := span is_digit s in
  let '(fp, r2) := match r1 with
                   | String c r => if decide (c = "."%char) then span is_digit r else (EmptyString, r1)
                   | EmptyString => (EmptyString, EmptyString)
                   end in
  if decide (ip +:+ fp = EmptyString) then NaN
  else match parse_exp r2 with
       | Some (e, EmptyString) => make_num neg (digits_value 0 (ip +:+ fp)) (String.length fp) e
       | _ => NaN
       end.

(** [Number(s)] on a string. *)
Definition Number_string (s : string) : num :=
  match trim s with
  | EmptyString => int 0
  | String "0" (String "x" r) | String "0" (String "X" r) => radix_value 16 r
  | String "0" (String "o" r) | String "0" (String "O" r) => radix_value 8 r
  | String "0" (String "b" r) | String "0" (String "B" r) => radix_value 2 r
  | String "-" r => if decide (r = "Infinity"%string) then Inf true else decimal_value true r
  | String "+" r => if decide (r = "Infinity"%string) then Inf false else decimal_value false r
  | t => if decide (t = "Infinity"%string) then Inf false else decimal_value false t
  end.

(** [s.toLowerCase()] on code units 0..255 *)
Definition to_lower (s : string) : string :=
  unchars ((λ c, if (is_upper c || (char_in 192 222 c && negb (char_in 215 215 c)))%bool
                 then ascii_of_N (char_code c + 32) else c) <$> chars s).

(** [buf.toString('utf8')] when every code unit of the text is below 256; [None]
    otherwise: longer sequences, and the replacement character for bytes that are
    no UTF-8. *)
Fixpoint utf8_decode (buf : string) : option string :=
  match buf with
  | EmptyString => Some EmptyString
  | String c r =>
      if decide (char_code c < 128)%N then String c <$> utf8_decode r
      else match r with
           | String d r =>
               if (char_in 194 195 c && char_in 128 191 d)%bool
               then String (ascii_of_N ((char_code c - 192) * 64 + (char_code d - 128))) <$> utf8_decode r
               else None
           | EmptyString => None
           end
  end.

(** [JSON.parse(buf.toString('utf8'))]; a text outside the modelled strings is
    reported as a syntax error, as [parse] does for its escapes. *)
Definition parse_utf8 (buf : string) : exc jsval :=
  match utf8_decode buf with Some text => parse text | None => Throw SyntaxError end.

Lemma utf8_decode_encode s : utf8_decode (utf8_encode s) = Some s.
Proof.
  induction s as [|c s IH]; [done|]. simpl. pose proof (char_code_bound c) as Hc. case_decide as Hs; simpl.
  { by rewrite decide_True, IH. }
  assert (Hcc : ∀ m, (m < 256)%N → char_code (ascii_of_N m) = m) by apply N_ascii_embedding.
  assert (char_code c / 64 < 4)%N by (apply N.Div0.div_lt_upper_bound; lia).
  assert (2 <= char_code c / 64)%N by (apply N.div_le_lower_bound; lia).
  pose proof (N.mod_lt (char_code c) 64 ltac:(lia)).
  assert (E1 : char_code (ascii_of_N (192 + char_code c / 64)) = (192 + char_code c / 64)%N) by (apply Hcc; lia).
  assert (E2 : char_code (ascii_of_N (128 + char_code c mod 64)) = (128 + char_code c mod 64)%N) by (apply Hcc; lia).
  unfold char_in. rewrite E1, E2. rewrite decide_False by lia. rewrite !bool_decide_true by lia. simpl.
  rewrite IH. simpl. do 2 f_equal.
  replace ((192 + char_code c / 64 - 192) * 64 + (128 + char_code c mod 64 - 128))%N with (char_code c).
  { apply ascii_N_embedding. }
  rewrite (N.div_mod (char_code c) 64) at 1 by lia. lia.
Qed.
Lemma parse_utf8_encode s : parse_utf8 (utf8_encode s) = parse s.
Proof. unfold parse_utf8. by rewrite utf8_decode_encode. Qed.

(** ** Decimal digits *)

Lemma drop_space_digits l : Forall (λ c, is_digit c = true) l → drop_space l = l.
Proof.
  destruct l as [|c l]; [done|]. intros [Hc _]%Forall_cons. simpl.
  assert (Hs : is_js_space c = false); [|by rewrite Hs].
  destruct c as [[] [] [] [] [] [] [] []]; first [by vm_compute|by vm_compute in Hc].
Qed.

Lemma all_chars_Forall f s : all_chars f s = true → Forall (λ c, f c = true) (chars s).
Proof. induction s as [|c s IH]; simpl; [constructor|]. intros [Hc Hs]%andb_true_iff. constructor; auto. Qed.

Lemma trim_digits s : all_chars is_digit s = true → trim s = s.
Proof.
  intros Hs%all_chars_Forall. unfold trim. rewrite (drop_space_digits (chars s)) by done.
  rewrite drop_space_digits by (by rewrite Forall_reverse). rewrite reverse_involutive. apply unchars_chars.
Qed.

Lemma span_digits s : all_chars is_digit s = true → span is_digit s = (s, EmptyString).
Proof. induction s as [|c s IH]; simpl; [done|]. intros [-> Hs]%andb_true_iff. by rewrite IH. Qed.

Lemma Number_string_digits n : 0 < n → is_safe_integer n = true → num_safe_int (Number_string (z_to_string n)) = Some n.
Proof.
  intros Hn Hsafe. unfold z_to_string. rewrite decide_False by lia.
  pose proof (digits_all n ltac:(lia)) as Hall. pose proof (digits_value_digits n ltac:(lia)) as Hval.
  assert (Hdec : num_safe_int (decimal_value false (digits n)) = Some n).
  { unfold decimal_value. rewrite span_digits by done. rewrite string_app_nil_r, Hval.
    destruct (digits_shape n ltac:(lia)) as [[-> _]|(_ & d & s & Hd & _)]; [lia|].
    rewrite decide_False by (by rewrite Hd). cbn [parse_exp expect]. simpl.
    unfold is_safe_integer, MAX_SAFE_INTEGER in Hsafe. apply andb_true_iff in Hsafe as [_ Hle%bool_decide_eq_true].
    unfold make_num. rewrite decide_False by lia. rewrite decide_True by done. simpl.
    rewrite decide_False.
    - cbn [dec_norm num_safe_int]. unfold is_safe_integer, MAX_SAFE_INTEGER.
      rewrite !bool_decide_eq_true_2 by lia. done.
    - change (pow10 0) with 1. assert (2 ^ 53 - 1 < max_finite) by (by vm_compute). lia. }
  destruct (digits_shape n ltac:(lia)) as [[-> _]|(_ & d & s & Hd & Hdig & Hd0)]; [lia|].
  unfold Number_string. rewrite trim_digits by done. rewrite Hd in *.
  destruct d as [[] [] [] [] [] [] [] []]; try (by vm_compute in Hdig); try done; exact Hdec.
Qed.

(** ** Values with sorted keys *)

Local Open Scope string_scope.

(** The own keys of an object are pairwise different, at every level. *)
Fixpoint keys_distinct (v : jsval) : Prop :=
  match v with
  | JArr l => foldr (λ x P, keys_distinct x ∧ P) True l
  | JObj l => NoDup l.*1 ∧ foldr (λ kv P, keys_distinct kv.2 ∧ P) True l
  | _ => True
  end.

(** The value with the keys of every object sorted by code units. *)
Fixpoint jsorted (v : jsval) : jsval :=
  match v with
  | JArr l => JArr (List.map jsorted l)
  | JObj l => JObj (fields_sorted (List.map (λ kv : string * jsval, let (k, x) := kv in (k, jsorted x)) l))
  | v => v
  end.
Definition sort_field (kv : string * jsval) : string * jsval := let (k, x) := kv in (k, jsorted x).

Lemma jsorted_obj l : jsorted (JObj l) = JObj (fields_sorted (sort_field <$> l)).
Proof. done. Qed.
Lemma jsorted_arr l : jsorted (JArr l) = JArr (jsorted <$> l).
Proof. done. Qed.

Lemma sort_field_keys l : (sort_field <$> l).*1 = l.*1.
Proof. induction l as [|[k v] l IH]; [done|]. csimpl. by rewrite IH. Qed.

Lemma keys_distinct_arr l : keys_distinct (JArr l) ↔ Forall keys_distinct l.
Proof. apply (foldr_and_Forall keys_distinct). Qed.
Lemma keys_distinct_obj l :
  keys_distinct (JObj l) ↔ NoDup l.*1 ∧ Forall (λ kv, keys_distinct kv.2) l.
Proof. cbn [keys_distinct]. by rewrite (foldr_and_Forall (λ kv, keys_distinct kv.2)). Qed.
Lemma jfin_arr l : jfin (JArr l) ↔ Forall jfin l.
Proof. apply (foldr_and_Forall jfin). Qed.
Lemma jfin_obj l : jfin (JObj l) ↔ NoDup l.*1 ∧ Forall (λ kv, jfin kv.2) l.
Proof. cbn [jfin]. by rewrite (foldr_and_Forall (λ kv, jfin kv.2)). Qed.

Lemma jfin_distinct v : jfin v → keys_distinct v.
Proof.
  induction v as [| |b|[d| |]|s|l IH|l IH] using jsval_induction; try done.
  - rewrite jfin_arr, keys_distinct_arr. intros Hl. decompose_Forall. auto.
  - rewrite jfin_obj, keys_distinct_obj. intros [? Hl]. split; [done|]. decompose_Forall. auto.
Qed.

Lemma jfin_jsorted v : jfin v → jfin (jsorted v).
Proof.
  induction v as [| |b|[d| |]|s|l IH|l IH] using jsval_induction; try done.
  - rewrite jsorted_arr, !jfin_arr. intros Hl. apply Forall_fmap. decompose_Forall. simpl. auto.
  - rewrite jsorted_obj, !jfin_obj. intros [Hnd Hl].
    rewrite fields_sorted_keys, sorted_keys_perm, sort_field_keys. split; [done|].
    rewrite fields_sorted_perm by (by rewrite sort_field_keys). apply Forall_fmap.
    decompose_Forall. destruct x. simpl in *. auto.
Qed.

Lemma fmap_id_Forall {A} (f : A → A) l : Forall (λ x, f x = x) l → f <$> l = l.
Proof. induction 1; [done|]. csimpl. congruence. Qed.
Lemma fmap_eq_Forall {A B} (f g : A → B) l : Forall (λ x, f x = g x) l → f <$> l = g <$> l.
Proof. induction 1; [done|]. csimpl. congruence. Qed.

(** Sorting forgets the order the properties had. *)
Lemma jsorted_reorder v : keys_distinct v → jsorted (jreorder v) = jsorted v.
Proof.
  induction v as [| |b|n|s|l IH|l IH] using jsval_induction; try done.
  - rewrite keys_distinct_arr. intros Hl. cbn [jreorder]. rewrite !jsorted_arr. f_equal.
    change (jsorted <$> (jreorder <$> l) = jsorted <$> l). rewrite <-list_fmap_compose.
    apply fmap_eq_Forall. decompose_Forall. simpl. auto.
  - rewrite keys_distinct_obj. intros [Hnd Hl].
    change (jreorder (JObj l)) with (JObj (js_order (List.map reorder_field l))).
    rewrite !jsorted_obj. f_equal. apply fields_sorted_ext.
    { by rewrite sort_field_keys, js_order_perm, reorder_field_keys. }
    rewrite js_order_perm. change (List.map reorder_field l) with (reorder_field <$> l).
    rewrite <-list_fmap_compose. rewrite (fmap_eq_Forall _ sort_field); [done|]. decompose_Forall.
    destruct x as [k x]. simpl in *. f_equal. auto.
Qed.

Lemma jsorted_idem v : keys_distinct v → jsorted (jsorted v) = jsorted v.
Proof.
  induction v as [| |b|n|s|l IH|l IH] using jsval_induction; try done.
  - rewrite keys_distinct_arr. intros Hl. rewrite !jsorted_arr. f_equal.
    rewrite <-list_fmap_compose. apply fmap_eq_Forall. decompose_Forall. simpl. auto.
  - rewrite keys_distinct_obj. intros [Hnd Hl]. rewrite !jsorted_obj. f_equal.
    assert (NoDup (sort_field <$> l).*1) as Hnd' by (by rewrite sort_field_keys).
    apply fields_sorted_ext.
    { by rewrite sort_field_keys, fields_sorted_keys, sorted_keys_perm. }
    rewrite fields_sorted_perm by done. rewrite <-list_fmap_compose.
    rewrite (fmap_eq_Forall _ sort_field); [done|]. decompose_Forall.
    destruct x as [k x]. simpl in *. f_equal. auto.
Qed.

(** One sorted text, one value up to the order of properties. *)
Lemma sorted_text_inj v w : jfin v → jfin w →
  stringify (jsorted v) = stringify (jsorted w) → jsorted v = jsorted w.
Proof.
  intros Hv Hw H.
  assert (∀ u, jfin u → jsorted (jreorder (jsorted u)) = jsorted u) as Hback.
  { intros u Hu. rewrite jsorted_reorder by auto using jfin_distinct, jfin_jsorted.
    by apply jsorted_idem, jfin_distinct. }
  pose proof (parse_stringify_fin _ (jfin_jsorted v Hv)) as Hp.
  rewrite H, parse_stringify_fin in Hp by auto using jfin_jsorted. injection Hp as Hp.
  by rewrite <-(Hback v Hv), <-(Hback w Hw), Hp.
Qed.
