(* ===== verification/Failover.v ===== *)
(** * Client failover (packages/client-sdk/src/failover-transport.ts)

    [FailoverTransport] sends reads along the chain primary, replicas and writes to
    the primary only, and keeps a health state per endpoint.  Its operations are
    processes over [FtWorld]; a request is recorded when it is sent, and what the
    network answers -- a response, an error, a timeout -- is the environment's. *)

From S2P Require Import Prelude Proc JsNum Encoding Json.
From stdpp Require Import base strings list relations sorting.
From Stdlib Require Import ZArith Lia.

Local Open Scope string_scope.
Local Open Scope bpc_scope.

Record FailoverConfig := mkFailoverConfig {
  fc_primary : string; fc_replicas : option (list string); fc_healthPath : option string;
  fc_missThreshold : option Z; fc_windowMs : option Z; fc_timeoutMs : option Z }.

Record EndpointState := mkEndpoint { ep_url : string; ep_healthy : bool; ep_streak : Z; ep_streakStartedAt : option Z }.

(** The fields that are set once. *)
Record FailoverSettings := mkSettings { fs_healthPath : string; fs_missThreshold : Z; fs_windowMs : Z; fs_timeoutMs : Z }.

Record HttpResponse := mkHttpResponse { hr_status : Z; hr_body : string }.
Definition response_ok (r : HttpResponse) : bool := (bool_decide (200 <= hr_status r)%Z && bool_decide (hr_status r <= 299)%Z)%bool.

(** A request as it was sent: by which endpoint of the chain, its URL and method. *)
Record SentRequest := mkSent { sr_endpoint : nat; sr_url : string; sr_method : string }.

(** [ft_endpoints] is [[this.primary, ...this.replicas]]; [ft_network] answers. *)
Record FtWorld := mkFt {
  ft_now : Z; ft_endpoints : list EndpointState; ft_network : SentRequest → exc HttpResponse; ft_sent : list SentRequest }.

Definition fresh_endpoint (url : string) : EndpointState := mkEndpoint url true 0 None.
Definition FailoverTransport_new (cfg : FailoverConfig) (now : Z) (network : SentRequest → exc HttpResponse) : FailoverSettings * FtWorld :=
  (mkSettings (default "/health" (fc_healthPath cfg)) (default 3%Z (fc_missThreshold cfg))
     (default 15000%Z (fc_windowMs cfg)) (default 3000%Z (fc_timeoutMs cfg)),
   mkFt now (fresh_endpoint (fc_primary cfg) :: (fresh_endpoint <$> default [] (fc_replicas cfg))) network []).

Section transport.
Context (settings : FailoverSettings).

Definition recordSuccess (ep : EndpointState) : EndpointState := mkEndpoint (ep_url ep) true 0 None.

Definition recordMiss (now : Z) (ep : EndpointState) : EndpointState :=
  let ep := match ep_streakStartedAt ep with
            | Some t => if decide (fs_windowMs settings < now - t)%Z then mkEndpoint (ep_url ep) (ep_healthy ep) 1 (Some now)
                        else mkEndpoint (ep_url ep) (ep_healthy ep) (ep_streak ep + 1) (Some t)
            | None => mkEndpoint (ep_url ep) (ep_healthy ep) 1 (Some now)
            end in
  if decide (fs_missThreshold settings <= ep_streak ep)%Z
  then mkEndpoint (ep_url ep) false (ep_streak ep) (ep_streakStartedAt ep) else ep.

Definition set_endpoints f (w : FtWorld) : FtWorld := mkFt (ft_now w) (f (ft_endpoints w)) (ft_network w) (ft_sent w).
Definition on_success (i : nat) (w : FtWorld) : FtWorld := set_endpoints (alter recordSuccess i) w.
Definition on_miss (i : nat) (w : FtWorld) : FtWorld := set_endpoints (alter (recordMiss (ft_now w)) i) w.

Definition activeReadUrl (w : FtWorld) : string :=
  match ft_endpoints w with
  | [] => EmptyString
  | primary :: replicas =>
      if ep_healthy primary then ep_url primary
      else ep_url (default primary (List.find ep_healthy replicas))
  end.
Definition primaryHealthy (w : FtWorld) : bool := match ft_endpoints w with primary :: _ => ep_healthy primary | [] => false end.

(** Sending a request to endpoint [i]: the request, if [guard] lets it out. *)
Definition send (i : nat) (guard : EndpointState → bool) (path method : string) (w : FtWorld) : FtWorld * option SentRequest :=
  match ft_endpoints w !! i with
  | Some ep =>
      if guard ep then
        let req := mkSent i (ep_url ep +:+ path) method in
        (mkFt (ft_now w) (ft_endpoints w) (ft_network w) (ft_sent w ++ [req])%list, Some req)
      else (w, None)
  | None => (w, None)
  end.

(** The end of [await this.fetchOnce(...)], with what is recorded in the same turn. *)
Definition settle (i : nat) (req : SentRequest) (miss : bool) (w : FtWorld) : FtWorld * exc HttpResponse :=
  match ft_network w req with
  | Ret r => (on_success i w, Ret r)
  | Throw e => (if miss then on_miss i w else w, Throw e)
  end.

(** One loop of [read] over the endpoints [idx], by index. *)
Fixpoint read_loop (guard : EndpointState → bool) (miss : bool) (path method : string) (idx : list nat) (lastErr : option error) :
    proc FtWorld (HttpResponse + option error) :=
  match idx with
  | [] => Done (inr lastErr)
  | i :: idx =>
      let* sent := call (send i guard path method) in
      match sent with
      | None => read_loop guard miss path method idx lastErr
      | Some req =>
          let* r := call (settle i req miss) in
          match r with
          | Ret res => Done (inl res)
          | Throw e => read_loop guard miss path method idx (Some e)
          end
      end
  end.

(** [n] is the number of endpoints; [method] is [init.method]. *)
Definition transport_read (n : nat) (path : string) (method : option string) : proc FtWorld (exc HttpResponse) :=
  let* r := read_loop ep_healthy true path (default "GET" method) (seq 0 n) None in
  match r with
  | inl res => eret res
  | inr lastErr =>
      let* r := read_loop (λ _, true) false path (default "GET" method) (seq 0 n) lastErr in
      match r with
      | inl res => eret res
      | inr lastErr => ethrow (default (PlainError "all endpoints failed") lastErr)
      end
  end.

Definition transport_write (path : string) (method : option string) : proc FtWorld (exc HttpResponse) :=
  let* sent := call (send 0 ep_healthy path (default "POST" method)) in
  match sent with
  | None => ethrow PrimaryUnavailableError
  | Some req => call (settle 0 req true)
  end.

Definition healthy_at (i : nat) (w : FtWorld) : bool := match ft_endpoints w !! i with Some ep => ep_healthy ep | None => false end.

Definition probe (i : nat) : proc FtWorld bool :=
  let* sent := call (send i (λ _, true) (fs_healthPath settings) "GET") in
  match sent with
  | None => Done false
  | Some req =>
      call (λ w, match ft_network w req with
                 | Ret r => if response_ok r then (on_success i w, true) else (on_miss i w, healthy_at i (on_miss i w))
                 | Throw _ => (on_miss i w, healthy_at i (on_miss i w))
                 end)
  end.
Definition probePrimary : proc FtWorld bool := probe 0.

(** [probeAll] starts the probes together; its processes run interleaved. *)
Definition probes (n : nat) : list (proc FtWorld bool) := probe <$> seq 0 n.
Definition health_map (w : FtWorld) : list (string * bool) :=
  foldl (λ m ep, om_set (ep_url ep) (ep_healthy ep) m) [] (ft_endpoints w).
End transport.

(** ** Writes *)

Section theorems.
Context (settings : FailoverSettings).

Lemma send_inv i guard path method w w' o : send i guard path method w = (w', o) →
  match o with
  | Some req => ∃ ep, ft_endpoints w !! i = Some ep ∧ guard ep = true ∧ req = mkSent i (ep_url ep +:+ path) method ∧
      ft_sent w' = (ft_sent w ++ [req])%list ∧ ft_endpoints w' = ft_endpoints w ∧ ft_network w' = ft_network w ∧ ft_now w' = ft_now w
  | None => w' = w ∧ ∀ ep, ft_endpoints w !! i = Some ep → guard ep = false
  end.
Proof.
  unfold send. destruct (ft_endpoints w !! i) as [ep|] eqn:Hi; [|by intros [= <- <-]].
  destruct (guard ep) eqn:Hg; intros [= <- <-]; [by exists ep|]. split; [done|]. by intros ? [= <-].
Qed.

Lemma settle_sent i req miss w : ft_sent (settle settings i req miss w).1 = ft_sent w ∧ (settle settings i req miss w).2 = ft_network w req.
Proof. unfold settle. destruct (ft_network w req); [done|]. by destruct miss. Qed.

(** A write goes to the primary or nowhere, whatever runs concurrently: with the
    primary marked unhealthy nothing is sent and it throws; otherwise exactly one
    request is sent, to the primary's URL, and its outcome -- response or error --
    is the write's outcome, never retried elsewhere. *)
Theorem write_primary_only R path method w tr w' r : exec R (transport_write settings path method) w tr w' r →
  (∃ u, tr = [(u, u)] ∧ r = Throw PrimaryUnavailableError ∧ primaryHealthy u = false) ∨
  ∃ s1 s2 req ep, tr = [s1; s2] ∧ ft_endpoints s1.1 !! 0%nat = Some ep ∧ ep_healthy ep = true ∧
    req = mkSent 0 (ep_url ep +:+ path) (default "POST" method) ∧ ft_sent s1.2 = (ft_sent s1.1 ++ [req])%list ∧
    ft_sent s2.2 = ft_sent s2.1 ∧ r = ft_network s2.1 req.
Proof.
  unfold transport_write. intros (o & w1 & t1 & t2 & (u & _ & Hs & ->)%exec_call_inv & Hex & ->)%exec_bind_inv.
  apply send_inv in Hs. destruct o as [req|].
  - destruct Hs as (ep & Hep & Hh & Hreq & Hsent & _). right.
    apply exec_call_inv in Hex as (u2 & _ & Hset & ->). exists (u, w1), (u2, w'), req, ep.
    destruct (settle_sent 0 req true u2) as [H1 H2]. rewrite Hset in H1, H2. by split_and!.
  - destruct Hs as [-> Hg]. apply exec_done_inv in Hex as (-> & -> & ->). left. exists u. split_and!; [done|done|].
    unfold primaryHealthy. destruct (ft_endpoints u) as [|ep l] eqn:He; [done|]. by apply Hg.
Qed.

(** ** Reads *)

(** What the network answers endpoint [i] of [w], asked now. *)
Definition asked (w : FtWorld) (path method : string) (i : nat) : exc HttpResponse :=
  match ft_endpoints w !! i with
  | Some ep => ft_network w (mkSent i (ep_url ep +:+ path) method)
  | None => Throw (PlainError "no endpoint")
  end.
Fixpoint first_answer (answers : list (exc HttpResponse)) (lastErr : option error) : HttpResponse + option error :=
  match answers with
  | [] => inr lastErr
  | Ret r :: _ => inl r
  | Throw e :: answers => first_answer answers (Some e)
  end.

(** The endpoints that [read] asks: first the healthy ones, then all. *)
Definition read_spec (w : FtWorld) (path method : string) : exc HttpResponse :=
  let all := seq 0 (length (ft_endpoints w)) in
  match first_answer (asked w path method <$> filter (λ i, healthy_at i w = true) all) None with
  | inl r => Ret r
  | inr e =>
      match first_answer (asked w path method <$> all) e with
      | inl r => Ret r
      | inr e => Throw (default (PlainError "all endpoints failed") e)
      end
  end.

Definition ep_guard (i : nat) (guard : EndpointState → bool) (w : FtWorld) : Prop :=
  match ft_endpoints w !! i with Some ep => guard ep = true | None => False end.
#[local] Instance ep_guard_dec i guard w : Decision (ep_guard i guard w).
Proof. unfold ep_guard. destruct (ft_endpoints w !! i); apply _. Defined.

(** Worlds that differ in the state of the endpoints before [i] only. *)
Definition same_from (i : nat) (w w' : FtWorld) : Prop :=
  ft_network w' = ft_network w ∧ (∀ j, (i ≤ j)%nat → ft_endpoints w' !! j = ft_endpoints w !! j) ∧
  (∀ j, ep_url <$> ft_endpoints w' !! j = ep_url <$> ft_endpoints w !! j).

Lemma recordMiss_url now ep : ep_url (recordMiss settings now ep) = ep_url ep.
Proof. unfold recordMiss. destruct (ep_streakStartedAt ep) as [t|]; repeat case_decide; done. Qed.

Lemma same_alter i f w w' : same_from i w w' → (∀ ep, ep_url (f ep) = ep_url ep) → same_from (S i) w (set_endpoints (alter f i) w').
Proof.
  intros (Hn & He & Hu) Hf. split_and!; [done| |]; cbn.
  - intros j Hj. rewrite list_lookup_alter_ne by lia. apply He. lia.
  - intros j. rewrite <-Hu. destruct (decide (i = j)) as [->|Hne]; [|by rewrite list_lookup_alter_ne].
    rewrite list_lookup_alter_eq. destruct (ft_endpoints w' !! j) as [ep|]; [|done]. cbn. by rewrite Hf.
Qed.

Lemma asked_same i w w' path method : same_from i w w' → ∀ j, asked w' path method j = asked w path method j.
Proof.
  intros (Hn & _ & Hu) j. unfold asked. rewrite Hn. specialize (Hu j).
  destruct (ft_endpoints w' !! j) as [ep'|], (ft_endpoints w !! j) as [ep|]; try done. cbn in Hu. by injection Hu as ->.
Qed.

Lemma run_call_bind {W A B} (f : W → W * A) (k : A → proc W B) w : run (pbind (call f) k) w = run (k (f w).2) (f w).1.
Proof. simpl. by destruct (f w). Qed.

Lemma send_ok i guard path method w ep : ft_endpoints w !! i = Some ep → guard ep = true →
  send i guard path method w =
  (mkFt (ft_now w) (ft_endpoints w) (ft_network w) (ft_sent w ++ [mkSent i (ep_url ep +:+ path) method])%list,
   Some (mkSent i (ep_url ep +:+ path) method)).
Proof. intros Hi Hg. unfold send. by rewrite Hi, Hg. Qed.
Lemma send_held i guard path method w ep : ft_endpoints w !! i = Some ep → guard ep = false →
  send i guard path method w = (w, None).
Proof. intros Hi Hg. unfold send. by rewrite Hi, Hg. Qed.

(** A loop over the endpoints from [i] on finds the first answer among those its
    guard lets it ask. *)
Lemma read_loop_finds guard miss path method n : ∀ i w0 w lastErr, same_from i w0 w →
  (i + n ≤ length (ft_endpoints w0))%nat →
  ∃ w', run (read_loop settings guard miss path method (seq i n) lastErr) w =
    (w', first_answer (asked w0 path method <$> filter (λ j, ep_guard j guard w0) (seq i n)) lastErr) ∧
    ft_network w' = ft_network w0 ∧ (∀ j, ep_url <$> ft_endpoints w' !! j = ep_url <$> ft_endpoints w0 !! j).
Proof.
  induction n as [|n IH]; intros i w0 w lastErr Hsame Hlen; cbn [seq read_loop].
  { exists w. split; [done|]. by destruct Hsame as (? & _ & ?). }
  pose proof Hsame as (Hnet & Hep & Hurl). rewrite run_call_bind.
  destruct (lookup_lt_is_Some_2 (ft_endpoints w0) i) as [ep Hi]; [lia|].
  assert (ft_endpoints w !! i = Some ep) as Hwi by (by rewrite Hep).
  assert (∀ w1, same_from i w0 w1 → same_from (S i) w0 w1) as Hnext.
  { intros w1 (H1 & H2 & H3). split_and!; [done| |done]. intros j Hj. apply H2. lia. }
  destruct (guard ep) eqn:Hg; [rewrite (send_ok _ _ _ _ _ ep) by done|rewrite (send_held _ _ _ _ _ ep) by done]; cbn [fst snd].
  - rewrite filter_cons_True by (unfold ep_guard; by rewrite Hi). cbn [fmap list_fmap first_answer].
    set (req := mkSent i _ _). set (w1 := mkFt _ _ _ _). rewrite run_call_bind.
    assert (same_from i w0 w1) as Hs1 by done. unfold settle. change (ft_network w1) with (ft_network w). rewrite Hnet.
    assert (asked w0 path method i = ft_network w0 req) as -> by (unfold asked; by rewrite Hi).
    destruct (ft_network w0 req) as [r|e].
    + cbn [run fst snd]. eexists. split; [done|]. destruct (same_alter i recordSuccess w0 w1 Hs1) as (H1 & _ & H3); [done|].
      by split.
    + cbn [fst snd]. apply IH; [|lia]. destruct miss; [|by apply Hnext]. apply same_alter; [done|]. intros x. apply recordMiss_url.
  - rewrite filter_cons_False by (unfold ep_guard; rewrite Hi; by rewrite Hg). apply IH; [by apply Hnext|lia].
Qed.

(** Without interference a read returns the answer of the first healthy endpoint
    of the chain that answers, else of the first endpoint that answers at all; it
    fails only when none does, with the last error. *)
Theorem read_finds_answer path method w :
  (run (transport_read settings (length (ft_endpoints w)) path method) w).2 = read_spec w path (default "GET" method).
Proof.
  set (m := default "GET" method). unfold transport_read, read_spec. fold m. rewrite run_bind.
  destruct (read_loop_finds ep_healthy true path m (length (ft_endpoints w)) 0 w w None) as (w1 & -> & Hn1 & Hu1); [done|done|].
  rewrite (list_filter_iff (λ j, ep_guard j ep_healthy w) (λ i, healthy_at i w = true)).
  2: { intros j. unfold ep_guard, healthy_at. by destruct (ft_endpoints w !! j). }
  destruct (first_answer _ None) as [r|e]; [done|]. rewrite run_bind.
  assert (length (ft_endpoints w1) = length (ft_endpoints w)) as Hlen.
  { assert (ep_url <$> ft_endpoints w1 = ep_url <$> ft_endpoints w) as Hl by (apply list_eq; intros j; rewrite !list_lookup_fmap; apply Hu1).
    apply (f_equal length) in Hl. by rewrite !length_fmap in Hl. }
  destruct (read_loop_finds (λ _, true) false path m (length (ft_endpoints w)) 0 w1 w1 e) as (w2 & -> & _); [done|by rewrite Hlen|].
  rewrite (list_filter_iff (λ j, ep_guard j (λ _, true) w1) (λ j, (j < length (ft_endpoints w))%nat)).
  2: { intros j. unfold ep_guard. rewrite <-Hlen. destruct (ft_endpoints w1 !! j) eqn:Hj.
       - apply lookup_lt_Some in Hj. naive_solver.
       - apply lookup_ge_None in Hj. split; [done|lia]. }
  assert (filter (λ j, (j < length (ft_endpoints w))%nat) (seq 0 (length (ft_endpoints w))) = seq 0 (length (ft_endpoints w))) as ->.
  { apply filter_all'. apply Forall_forall. intros j Hj%elem_of_seq. lia. }
  assert (asked w1 path m <$> seq 0 (length (ft_endpoints w)) = asked w path m <$> seq 0 (length (ft_endpoints w))) as ->.
  { apply list_fmap_ext. intros k j _. unfold asked. rewrite Hn1. specialize (Hu1 j).
    destruct (ft_endpoints w1 !! j) as [a|], (ft_endpoints w !! j) as [b|]; try done. cbn in Hu1. by injection Hu1 as ->. }
  by destruct (first_answer _ e).
Qed.
(** ** The health of an endpoint *)

Definition misses (ep : EndpointState) (ts : list Z) : EndpointState := foldl (λ ep t, recordMiss settings t ep) ep ts.

Lemma misses_in_window url t0 ts : (1 <= fs_missThreshold settings)%Z → Forall (λ t, t - t0 <= fs_windowMs settings)%Z ts →
  misses (fresh_endpoint url) (t0 :: ts) =
  mkEndpoint url (bool_decide (Z.of_nat (S (length ts)) < fs_missThreshold settings)%Z) (Z.of_nat (S (length ts))) (Some t0).
Proof.
  intros Hth. induction ts as [|t ts IH] using rev_ind; intros Hts.
  - unfold misses, recordMiss. cbn. case_decide; case_bool_decide; done || lia.
  - apply Forall_app in Hts as [Hts Ht]. apply Forall_cons in Ht as [Ht _]. unfold misses in *. rewrite app_comm_cons, foldl_app, IH by done.
    cbn [foldl]. unfold recordMiss at 1. cbn [ep_streakStartedAt ep_url ep_healthy ep_streak].
    rewrite (decide_False (P := fs_windowMs settings < t - t0)%Z) by lia.
    cbn [ep_streakStartedAt ep_url ep_healthy ep_streak]. rewrite length_app. cbn [length].
    replace (Z.of_nat (S (length ts)) + 1)%Z with (Z.of_nat (S (length ts + 1))) by lia.
    destruct (decide (fs_missThreshold settings <= _)%Z); [rewrite (bool_decide_false (Z.of_nat (S (length ts + 1)) < fs_missThreshold settings)%Z) by lia|rewrite !bool_decide_true by lia]; done.
Qed.

Lemma misses_apart ts : (2 <= fs_missThreshold settings)%Z → ∀ url streak t0, (streak <= 1)%Z →
  Sorted (λ a b, fs_windowMs settings < b - a)%Z (t0 :: ts) →
  ∃ t, misses (mkEndpoint url true streak (Some t0)) ts = mkEndpoint url true (if ts is [] then streak else 1) (Some t).
Proof.
  intros Hth. induction ts as [|t ts IH]; intros url streak t0 Hst Hs; [by exists t0|].
  apply Sorted_inv in Hs as [Hs Hd]. apply HdRel_inv in Hd. unfold misses. cbn [foldl]. unfold recordMiss at 2.
  cbn [ep_streakStartedAt ep_url ep_healthy ep_streak]. rewrite (decide_True (P := fs_windowMs settings < t - t0)%Z) by done. cbn [ep_streak ep_streakStartedAt ep_url ep_healthy].
  rewrite decide_False by lia. destruct (IH url 1%Z t) as [t' Ht']; [done|done|]. exists t'. etrans; [exact Ht'|]. by destruct ts.
Qed.

(** Health follows the threshold: from a clean state, misses that all fall within
    the window of the first mark an endpoint unhealthy exactly when they reach the
    threshold; misses that are each further apart than the window never do. *)
Theorem health_threshold url t0 ts : (2 <= fs_missThreshold settings)%Z →
  (Forall (λ t, t - t0 <= fs_windowMs settings)%Z ts →
     ep_healthy (misses (fresh_endpoint url) (t0 :: ts)) = bool_decide (Z.of_nat (S (length ts)) < fs_missThreshold settings)%Z) ∧
  (Sorted (λ a b, fs_windowMs settings < b - a)%Z (t0 :: ts) → ep_healthy (misses (fresh_endpoint url) (t0 :: ts)) = true).
Proof.
  intros Hth. split.
  - intros Hts. rewrite misses_in_window by (done || lia). done.
  - intros Hs. unfold misses. cbn [foldl]. unfold recordMiss at 2. cbn. rewrite decide_False by lia.
    destruct (misses_apart ts Hth url 1%Z t0) as [t Ht]; [done|done|]. unfold misses in Ht. by rewrite Ht.
Qed.
End theorems.

(** ** Concrete runs *)

Definition demo_settings : FailoverSettings := mkSettings "/health" 3 15000 3000.
Definition demo_endpoints (primaryUp : bool) : list EndpointState :=
  [mkEndpoint "https://a" primaryUp 0 None; fresh_endpoint "https://b"].
Definition demo_ft (primaryUp : bool) (status : nat → exc HttpResponse) : FtWorld :=
  mkFt 0 (demo_endpoints primaryUp) (λ req, status (sr_endpoint req)) [].
Definition answered (status : Z) : exc HttpResponse := Ret (mkHttpResponse status EmptyString).
Definition timed_out : exc HttpResponse := Throw (PlainError "timeout").

Lemma write_primary_only_witness :
  (run (transport_write demo_settings "/pairs" None) (demo_ft false (λ _, answered 200))).2 = Throw PrimaryUnavailableError ∧
  ∃ s1 req, ft_sent s1.2 = (ft_sent s1.1 ++ [req])%list ∧ sr_url req = "https://a/pairs" ∧
    (run (transport_write demo_settings "/pairs" None) (demo_ft true (λ _, timed_out))).2 = timed_out ∧ sr_endpoint req = 0%nat.
Proof.
  split; [vm_compute; reflexivity|].
  destruct (run_exec (transport_write demo_settings "/pairs" None) (demo_ft true (λ _, timed_out))) as [tr Hex].
  assert (run (transport_write demo_settings "/pairs" None) (demo_ft true (λ _, timed_out)) =
    (mkFt 0 [mkEndpoint "https://a" true 1 (Some 0%Z); fresh_endpoint "https://b"] (λ req, timed_out) [mkSent 0 "https://a/pairs" "POST"],
     timed_out)) as Hr by reflexivity.
  rewrite Hr in Hex. cbn [fst snd] in Hex.
  destruct (write_primary_only demo_settings eq "/pairs" None _ tr _ _ Hex) as [(u & _ & Hx & _)|(s1 & s2 & req & ep & Htr & He & _ & Hreq & Hs & _)].
  - exfalso. unfold timed_out in Hx. congruence.
  - rewrite Htr in Hex. apply exec_step_inv in Hex as (w1 & w2 & p' & tr' & <- & _ & _ & Heq).
    injection Heq as Hs1 _. subst s1. cbn in He. injection He as <-.
    eexists (_, w2), req. split; [exact Hs|]. subst req. split; [reflexivity|]. rewrite Hr. split; reflexivity.
Defined.

Lemma health_threshold_witness :
  ep_healthy (misses demo_settings (fresh_endpoint "https://a") [0; 5; 15000]%Z) = false ∧
  ep_healthy (misses demo_settings (fresh_endpoint "https://a") [0; 15001; 40000]%Z) = true.
Proof.
  split.
  - destruct (health_threshold demo_settings "https://a" 0 [5; 15000]%Z) as [H _]; [by vm_compute|].
    rewrite H; [reflexivity|]. repeat constructor; by vm_compute.
  - destruct (health_threshold demo_settings "https://a" 0 [15001; 40000]%Z) as [_ H]; [by vm_compute|].
    apply H. repeat constructor; by vm_compute.
Defined.

(** The window is anchored at the first miss: three misses within two milliseconds
    do not count as three when an old one lies before them. *)
Example anchored_window : ep_healthy (misses demo_settings (fresh_endpoint "https://a") [0; 15000; 15001; 15002]%Z) = true.
Proof. reflexivity. Qed.

(** Any response restores an endpoint, not only a 2xx: here the primary, in the last
    resort of a read that it answers with 503. *)
Example error_response_restores :
  let w := demo_ft false (λ i, if decide (i = 0%nat) then answered 503 else timed_out) in
  let '(w', r) := run (transport_read demo_settings 2 "/pairs" None) w in
  r = answered 503 ∧ primaryHealthy w = false ∧ primaryHealthy w' = true.
Proof. vm_compute. done. Qed.

(** A read with a mutating method is a write that fails over. *)
Example mutating_read_reaches_replica :
  let '(w', r) := run (transport_read demo_settings 2 "/pairs" (Some "POST")) (demo_ft false (λ _, answered 200)) in
  r = answered 200 ∧ ft_sent w' = [mkSent 1 "https://b/pairs" "POST"].
Proof. vm_compute. done. Qed.
