(* ===== verification/RuntimeCapture.v ===== *)
(** * Runtime metadata and its redaction (packages/core/src/runtime-capture.ts)

    [sanitizeCaptureValue] replaces what stands under a sensitive field name;
    [collectRuntimeMetadata] and [emitKeyGenerationCapture] build the audit record
    of a key generation from the process's environment and hand it, sanitized, to
    the sink.  The sink and the process are arguments. *)

From S2P Require Import Prelude JsNum Encoding Json JsText.
From stdpp Require Import base strings list.
From Stdlib Require Import ZArith Lia.

Local Open Scope string_scope.

Definition REDACTED : string := "[REDACTED]".

(** [re.test(s)] for a text that [re] must find anywhere. *)
Fixpoint contains (p s : string) : bool :=
  (String.prefix p s || match s with String _ s => contains p s | EmptyString => false end)%bool.

(** The alternatives of [SENSITIVE_FIELD], with their optional separators. *)
Definition SENSITIVE_WORDS : list string :=
  ["secret"; "token"; "password"; "private"; "credential"; "apikey"; "api_key"; "api-key";
   "sharedsecret"; "shared_secret"; "shared-secret"; "rawkey"; "raw_key"; "raw-key"; "authorization"].
Definition SENSITIVE_FIELD (name : string) : bool := existsb (λ w, contains w (to_lower name)) SENSITIVE_WORDS.

(** Assigning to [out['__proto__']] adds no property. *)
Fixpoint sanitizeCaptureValue (value : jsval) (fieldName : string) : jsval :=
  if SENSITIVE_FIELD fieldName then JStr REDACTED
  else match value with
       | JArr l => JArr (List.map (λ item, sanitizeCaptureValue item EmptyString) l)
       | JObj l => JObj (filter (λ kv, kv.1 ≠ "__proto__")
                     (List.map (λ kv : string * jsval, let (k, x) := kv in (k, sanitizeCaptureValue x k)) l))
       | v => v
       end.

Record RuntimeProcess := mkProcess {
  rp_env : option (list (string * string)); rp_cwd : option (exc string); rp_version : option string }.

Fixpoint firstEnv (env : list (string * string)) (names : list string) : option string :=
  match names with
  | [] => None
  | name :: names =>
      match om_get name env with
      | Some value => if decide (trim value ≠ EmptyString) then Some value else firstEnv env names
      | None => firstEnv env names
      end
  end.
Definition safeCwd (p : option RuntimeProcess) : option string :=
  match p with Some p => match rp_cwd p with Some (Ret d) => Some d | _ => None end | None => None end.

Definition opt_value (o : option string) : jsval := match o with Some s => JStr s | None => JUndef end.
(** [{...a, ...b}] *)
Definition spread (a b : list (string * jsval)) : list (string * jsval) := foldl (λ m kv, om_set kv.1 kv.2 m) a b.
(** [a ?? b] *)
Definition nullish (a b : jsval) : jsval := match a with JUndef | JNull => b | v => v end.

(** [envMetadata]; [isoNow] is [new Date().toISOString()]. *)
Definition env_metadata (runtimeProcess : option RuntimeProcess) (isoNow : string) : list (string * jsval) :=
  let env := default [] (runtimeProcess ≫= rp_env) in
  let first names := firstEnv env names in
  let or (a b : option string) := match a with Some _ => a | None => b end in
  [("capturedAt", JStr isoNow); ("source", JStr "env");
   ("tool", opt_value (first ["AI_RUNTIME_TOOL"; "CODEX_RUNTIME_TOOL"; "CLAUDE_RUNTIME_TOOL"]));
   ("toolVersion", opt_value (or (first ["AI_RUNTIME_TOOL_VERSION"; "CODEX_VERSION"; "CLAUDE_CODE_VERSION"])
                                 (runtimeProcess ≫= rp_version)));
   ("model", opt_value (first ["AI_RUNTIME_MODEL"; "CODEX_MODEL"; "CLAUDE_MODEL"; "ANTHROPIC_MODEL"]));
   ("reasoning", opt_value (first ["AI_RUNTIME_REASONING"; "CODEX_REASONING"; "CLAUDE_REASONING"]));
   ("summaryMode", opt_value (first ["AI_RUNTIME_SUMMARY_MODE"; "CODEX_SUMMARY_MODE"; "CLAUDE_SUMMARY_MODE"]));
   ("directory", opt_value (first ["AI_RUNTIME_DIRECTORY"; "AI_RUNTIME_CWD"; "CODEX_CWD"; "CLAUDE_PROJECT_DIR"]));
   ("cwd", opt_value (or (first ["AI_RUNTIME_CWD"; "CODEX_CWD"; "CLAUDE_PROJECT_DIR"]) (safeCwd runtimeProcess)));
   ("permissions", opt_value (first ["AI_RUNTIME_PERMISSIONS"; "CODEX_PERMISSIONS"; "CLAUDE_PERMISSIONS"]));
   ("agentsMd", opt_value (first ["AI_RUNTIME_AGENTS_MD"; "CODEX_AGENTS_MD"; "CLAUDE_AGENTS_MD"]));
   ("account", opt_value (first ["AI_RUNTIME_ACCOUNT"; "CODEX_ACCOUNT"; "CLAUDE_ACCOUNT"]));
   ("email", opt_value (first ["AI_RUNTIME_EMAIL"; "CODEX_EMAIL"; "CLAUDE_EMAIL"]));
   ("organization", opt_value (first ["AI_RUNTIME_ORGANIZATION"; "CODEX_ORGANIZATION"; "CLAUDE_ORGANIZATION"]));
   ("loginMethod", opt_value (first ["AI_RUNTIME_LOGIN_METHOD"; "CODEX_LOGIN_METHOD"; "CLAUDE_LOGIN_METHOD"]));
   ("collaborationMode", opt_value (first ["AI_RUNTIME_COLLABORATION_MODE"; "CODEX_COLLABORATION_MODE"; "CLAUDE_COLLABORATION_MODE"]));
   ("sessionId", opt_value (first ["AI_RUNTIME_SESSION_ID"; "CODEX_SESSION_ID"; "CLAUDE_SESSION_ID"]));
   ("sessionName", opt_value (first ["AI_RUNTIME_SESSION_NAME"; "CODEX_SESSION_NAME"; "CLAUDE_SESSION_NAME"]));
   ("contextWindow", opt_value (first ["AI_RUNTIME_CONTEXT_WINDOW"; "CODEX_CONTEXT_WINDOW"; "CLAUDE_CONTEXT_WINDOW"]));
   ("contextUsed", opt_value (first ["AI_RUNTIME_CONTEXT_USED"; "CODEX_CONTEXT_USED"; "CLAUDE_CONTEXT_USED"]));
   ("contextLeft", opt_value (first ["AI_RUNTIME_CONTEXT_LEFT"; "CODEX_CONTEXT_LEFT"; "CLAUDE_CONTEXT_LEFT"]));
   ("limits", opt_value (first ["AI_RUNTIME_LIMITS"; "CODEX_LIMITS"; "CLAUDE_LIMITS"]));
   ("mcpServers", opt_value (first ["AI_RUNTIME_MCP_SERVERS"; "CODEX_MCP_SERVERS"; "CLAUDE_MCP_SERVERS"]));
   ("settingSources", opt_value (first ["AI_RUNTIME_SETTING_SOURCES"; "CODEX_SETTING_SOURCES"; "CLAUDE_SETTING_SOURCES"]));
   ("statusText", opt_value (first ["AI_RUNTIME_STATUS_TEXT"; "CODEX_STATUS_TEXT"; "CLAUDE_STATUS_TEXT"]));
   ("configText", opt_value (first ["AI_RUNTIME_CONFIG_TEXT"; "CODEX_CONFIG_TEXT"; "CLAUDE_CONFIG_TEXT"]));
   ("usageText", opt_value (first ["AI_RUNTIME_USAGE_TEXT"; "CODEX_USAGE_TEXT"; "CLAUDE_USAGE_TEXT"]));
   ("statsText", opt_value (first ["AI_RUNTIME_STATS_TEXT"; "CODEX_STATS_TEXT"; "CLAUDE_STATS_TEXT"]))].

Definition collectRuntimeMetadata (runtimeProcess : option RuntimeProcess) (isoNow : string)
    (overrides : list (string * jsval)) : jsval :=
  let hasOverrides := bool_decide (overrides ≠ []) in
  sanitizeCaptureValue (JObj
    (om_set "source" (JStr (if hasOverrides then "combined" else "env"))
    (om_set "capturedAt" (nullish (default JUndef (om_get "capturedAt" overrides)) (JStr isoNow))
    (spread (env_metadata runtimeProcess isoNow) overrides)))) EmptyString.

(** What the sink is given, if there is one, and the outcome: a sink that throws,
    or whose promise rejects, is ignored.  The two instants are the clock readings of
    the event and of its metadata. *)
Definition emitKeyGenerationCapture (captureSink : option (jsval → exc unit)) (runtimeProcess : option RuntimeProcess)
    (isoNow isoNow' : string) (event : list (string * jsval)) : option jsval * exc unit :=
  match captureSink with
  | None => (None, Ret tt)
  | Some sink =>
      let runtime := match nullish (default JUndef (om_get "runtime" event)) (JObj []) with JObj l => l | _ => [] end in
      let sanitized := sanitizeCaptureValue (JObj
        (om_set "runtime" (collectRuntimeMetadata runtimeProcess isoNow' runtime)
        (om_set "generatedAt" (nullish (default JUndef (om_get "generatedAt" event)) (JStr isoNow)) event))) EmptyString in
      (Some sanitized, catch (sink sanitized) (λ _, Ret tt))
  end.

(** ** Redaction *)

Lemma sanitize_arr l : sanitizeCaptureValue (JArr l) EmptyString = JArr ((λ v, sanitizeCaptureValue v EmptyString) <$> l).
Proof. reflexivity. Qed.

Definition sanitize_field (kv : string * jsval) : string * jsval := (kv.1, sanitizeCaptureValue kv.2 kv.1).
Lemma sanitize_obj l name : SENSITIVE_FIELD name = false →
  sanitizeCaptureValue (JObj l) name = JObj (filter (λ kv, kv.1 ≠ "__proto__") (sanitize_field <$> l)).
Proof.
  intros Hn. cbn [sanitizeCaptureValue]. rewrite Hn. f_equal. f_equal. apply map_ext. by intros [k x].
Qed.

Lemma sanitize_sensitive v name : SENSITIVE_FIELD name = true → sanitizeCaptureValue v name = JStr REDACTED.
Proof. intros Hn. destruct v; cbn [sanitizeCaptureValue]; by rewrite Hn. Qed.

(** At every depth, a property with a sensitive name holds the placeholder. *)
Fixpoint redacted (v : jsval) : Prop :=
  match v with
  | JArr l => foldr (λ x P, redacted x ∧ P) True l
  | JObj l => foldr (λ kv P, (match kv with (k, x) => (SENSITIVE_FIELD k = true → x = JStr REDACTED) ∧ redacted x end) ∧ P) True l
  | _ => True
  end.

Lemma redacted_arr l : redacted (JArr l) ↔ Forall redacted l.
Proof. cbn [redacted]. induction l as [|x l IH]; simpl; [by split|]. by rewrite IH, Forall_cons. Qed.
Lemma redacted_obj l : redacted (JObj l) ↔
  Forall (λ kv, (SENSITIVE_FIELD kv.1 = true → kv.2 = JStr REDACTED) ∧ redacted kv.2) l.
Proof. cbn [redacted]. induction l as [|[k x] l IH]; simpl; [by split|]. by rewrite IH, Forall_cons. Qed.

Lemma sanitize_redacts v name : redacted (sanitizeCaptureValue v name).
Proof.
  revert name. induction v as [| | | | |l IH|l IH] using jsval_induction; intros name;
    (destruct (SENSITIVE_FIELD name) eqn:Hn; [by cbn [sanitizeCaptureValue]; rewrite Hn|]);
    try by (cbn [sanitizeCaptureValue]; rewrite Hn).
  - cbn [sanitizeCaptureValue]. rewrite Hn. apply redacted_arr, Forall_fmap. eapply Forall_impl; [exact IH|].
    intros x Hx. apply Hx.
  - rewrite sanitize_obj by done. apply redacted_obj, Forall_forall. intros kv [_ Hin]%list_elem_of_filter.
    apply list_elem_of_fmap in Hin as ([k x] & -> & Hin). rewrite Forall_forall in IH. 
    pose proof (IH _ Hin) as Hx. split; [|apply Hx]. cbn [fst snd sanitize_field]. intros Hk. by apply sanitize_sensitive.
Qed.

(** Sanitizing again changes nothing. *)
Lemma sanitize_idem v name : sanitizeCaptureValue (sanitizeCaptureValue v name) name = sanitizeCaptureValue v name.
Proof.
  revert name. induction v as [| | | | |l IH|l IH] using jsval_induction; intros name;
    (destruct (SENSITIVE_FIELD name) eqn:Hn; [by cbn [sanitizeCaptureValue]; rewrite Hn; cbn [sanitizeCaptureValue]; rewrite Hn|]);
    try by (cbn [sanitizeCaptureValue]; rewrite Hn; cbn [sanitizeCaptureValue]; rewrite Hn).
  - cbn [sanitizeCaptureValue]. rewrite Hn. cbn [sanitizeCaptureValue]. rewrite Hn. f_equal. rewrite map_map.
    apply map_ext_Forall. eapply Forall_impl; [exact IH|]. intros x Hx. apply Hx.
  - rewrite (sanitize_obj l) by done. rewrite sanitize_obj by done. f_equal. induction l as [|[k x] l IHl]; [done|].
    apply Forall_cons in IH as [Hx Hl]. rewrite fmap_cons. destruct (decide (k ≠ "__proto__")) as [Hk|Hk].
    + rewrite filter_cons_True, fmap_cons, filter_cons_True by done. rewrite IHl by done. f_equal.
      unfold sanitize_field. cbn [fst snd]. f_equal. apply Hx.
    + rewrite filter_cons_False by done. by apply IHl.
Qed.

(** Whatever is handed to the capture sink carries no value under a sensitive
    field name, at any depth and whoever put it there, and a failing sink never
    breaks the key generation that reports to it. *)
Theorem capture_redacted sink runtimeProcess isoNow isoNow' event :
  let '(passed, outcome) := emitKeyGenerationCapture sink runtimeProcess isoNow isoNow' event in
  outcome = Ret tt ∧ (∀ v, passed = Some v → redacted v ∧ sanitizeCaptureValue v EmptyString = v).
Proof.
  unfold emitKeyGenerationCapture. destruct sink as [sink|]; [|done]. split.
  - by destruct (sink _) as [[]|].
  - intros v Hv. apply (inj Some) in Hv as <-. split; [apply sanitize_redacts|apply sanitize_idem].
Qed.

Example capture_ex :
  (emitKeyGenerationCapture (Some (λ _, Throw (PlainError "sink")))
     (Some (mkProcess (Some [("CODEX_VERSION", "1.2")]) None None)) "2024-01-01T00:00:00.000Z" "2024-01-01T00:00:00.001Z"
     [("event", JStr "keygen"); ("details", JObj [("apiKey", JStr "k"); ("n", JNum (int 1))])]).1
  ≫= (λ v, Some (field v "details", field (field v "runtime") "toolVersion")) =
  Some (JObj [("apiKey", JStr REDACTED); ("n", JNum (int 1))], JStr "1.2").
Proof. vm_compute. reflexivity. Qed.
