(* ===== verification/Crypto.v ===== *)
(** * Cryptographic core (packages/core/src: hmac.ts, crypto.ts, secret.ts, nonce.ts)

    The WebCrypto primitives are a class of functions on byte strings; what the
    code relies on is a second class of documented laws.  Everything the source
    computes around them is translated: key derivation, the request HMAC and its
    constant-time comparison, payload signatures, the key fingerprint, the
    secret policy and identifier generation. *)

From S2P Require Import Prelude JsNum Encoding Json.
From stdpp Require Import base strings list.
From Stdlib Require Import NArith ZArith Lia.

Local Open Scope string_scope.

(** ** WebCrypto *)

Class WebCrypto := {
  PublicKey : Type;
  PrivateKey : Type;
  (** [digest('SHA-256', data)] *)
  sha256 : string → string;
  (** [deriveBits({HKDF, SHA-256, salt, info}, secret, 256)] *)
  hkdf_sha256 : string → string → string → string;
  (** [importKey('raw', key, HMAC)] and [sign('HMAC', key, data)] *)
  hmac_sha256 : string → string → exc string;
  (** [importKey('jwk', jwk, ECDSA P-256)] *)
  import_jwk : jsval → exc PublicKey;
  (** [sign(ECDSA, key, data)]; the first argument is the signer's randomness *)
  ecdsa_sign : N → PrivateKey → string → string;
  (** [verify(ECDSA, key, signature, data)] *)
  ecdsa_verify : PublicKey → string → string → exc bool;
}.

Class WebCryptoLaws (WC : WebCrypto) := {
  sha256_length m : String.length (sha256 m) = 32%nat;
  hkdf_length m salt info : String.length (hkdf_sha256 m salt info) = 32%nat;
  (** A non-empty raw key imports, and the tag has 256 bits. *)
  hmac_total k m : k ≠ EmptyString →
    ∃ tag, hmac_sha256 k m = Ret tag ∧ String.length tag = 32%nat;
  hmac_length k m tag : hmac_sha256 k m = Ret tag → String.length tag = 32%nat;
}.

(** [pk] is the public half of [sk]: what [sk] signs, [pk] verifies. *)
Definition key_pair `{WebCrypto} (sk : PrivateKey) (pk : PublicKey) : Prop :=
  ∀ r m, ecdsa_verify pk (ecdsa_sign r sk m) m = Ret true.

(** ** String conversion of JSON values *)

(** [String(v)] for a value of [JSON.parse].  No property of such a value is
    callable, so an own [toString] makes the conversion throw. *)
Fixpoint js_to_string (v : jsval) : exc string :=
  match v with
  | JUndef => Ret "undefined"
  | JNull => Ret "null"
  | JBool b => Ret (if b then "true" else "false")
  | JNum n => Ret (num_to_string n)
  | JStr s => Ret s
  | JArr l =>
      let fix go l : exc (list string) :=
        match l with
        | [] => Ret []
        | x :: l =>
            match (match x with JUndef | JNull => Ret EmptyString | _ => js_to_string x end) with
            | Ret s => (λ r, s :: r) <$> go l
            | Throw e => Throw e
            end
        end in
      str_join "," <$> go l
  | JObj l =>
      if om_has "toString" l then Throw (TypeError "Cannot convert object to primitive value")
      else Ret "[object Object]"
  end.

(** [v.length < bound].  A [length] property that is itself a string or an
    object is taken as not a number. *)
Definition js_length_lt (v : jsval) (bound : Z) : bool :=
  match v with
  | JStr s => bool_decide (str_len s < bound)%Z
  | JArr l => bool_decide (Z.of_nat (length l) < bound)%Z
  | JObj l =>
      match om_get "length" l with
      | Some (JNum (Fin d)) => dec_ltZ d bound
      | Some (JNum (Inf neg)) => neg
      | Some JNull => bool_decide (0 < bound)%Z
      | Some (JBool b) => bool_decide ((if b then 1 else 0) < bound)%Z
      | _ => false
      end
  | _ => false
  end.

(** ** hmac.ts *)

Definition HKDF_INFO : string := "bpc-v1-hmac-key".
Definition HKDF_SALT : string := "bpc-protocol-hmac-salt-v1".

Section hmac.
Context `{WC : WebCrypto}.

Definition hashSecret (secret : string) : exc string :=
  if decide (secret = EmptyString)
  then Throw (TypeError "BPC hashSecret: secret must not be empty")
  else Ret (b64url (hkdf_sha256 (utf8_encode secret) HKDF_SALT HKDF_INFO)).

Definition hmacDerive (keyMaterial data : string) : exc string :=
  if decide (keyMaterial = EmptyString)
  then Throw (TypeError "BPC hmacDerive: keyMaterial must not be empty")
  else
    keyBytes ← b64urlDecode keyMaterial;
    tag ← hmac_sha256 keyBytes (utf8_encode data);
    Ret (b64url tag).

(** The comparison loop: [diff |= a[i] ^ (b[i] ?? 0)] over the bytes of [a]. *)
Fixpoint ct_diff (a b : list N) (diff : N) : N :=
  match a with
  | [] => diff
  | x :: a =>
      let '(y, b) := match b with [] => (0%N, []) | y :: b => (y, b) end in
      ct_diff a b (N.lor diff (N.lxor x y))
  end.
Definition ct_equal (a b : string) : bool :=
  let ab := codes (utf8_encode a) in
  let bb := codes (utf8_encode b) in
  bool_decide (ct_diff ab bb (if decide (length ab ≠ length bb) then 1%N else 0%N) = 0%N).

(** [/^[A-Za-z0-9_-]+=*$/] *)
Definition b64url_tag_re (s : string) : bool :=
  let (a, r) := span is_b64url_char s in
  (bool_decide (a ≠ EmptyString) && all_chars (λ c, bool_decide (c = "="%char)) r)%bool.

Definition verifySecretHmac (storedHmacKey nonce : string) (timestamp : num)
    (providedHmac : jsval) : exc bool :=
  if decide (storedHmacKey = EmptyString) then Ret false
  else if (negb (truthy providedHmac) || js_length_lt providedHmac 43)%bool then Ret false
  else
    provided ← js_to_string providedHmac;
    if negb (b64url_tag_re provided) then Ret false
    else
      match hmacDerive storedHmacKey (nonce +:+ num_to_string timestamp) with
      | Throw _ => Ret false
      | Ret expected => Ret (ct_equal expected provided)
      end.
End hmac.

(** ** crypto.ts *)

Section crypto.
Context `{WC : WebCrypto}.

Definition computeFingerprint (jwk : jsval) : exc string :=
  kty ← prop jwk "kty"; crv ← prop jwk "crv"; x ← prop jwk "x"; y ← prop jwk "y";
  if (bool_decide (kty ≠ JStr "EC") || bool_decide (crv ≠ JStr "P-256") ||
      negb (truthy x) || negb (truthy y))%bool
  then Throw (TypeError "BPC fingerprint requires an EC P-256 public JWK")
  else
    let data := utf8_encode (stringify (JObj [("crv", crv); ("kty", kty); ("x", x); ("y", y)])) in
    Ret (String.substring 0 20 (b64url (sha256 data))).

Definition signPayload (rnd : N) (privateKey : PrivateKey) (payload : jsval) : exc string :=
  c ← canonicalize payload;
  Ret (b64url (ecdsa_sign rnd privateKey (utf8_encode c))).

Definition verifyPayload (publicKey : PublicKey) (payload : jsval) (signature : string) : bool :=
  match
    c ← canonicalize payload;
    sigBuf ← b64urlDecode signature;
    ecdsa_verify publicKey sigBuf (utf8_encode c)
  with Ret b => b | Throw _ => false end.

Definition importPublicKeyFromJwk (jwk : jsval) : exc PublicKey := import_jwk jwk.
End crypto.

(** ** secret.ts *)

Definition MIN_SECRET_LENGTH : Z := 16.
Definition MAX_SECRET_LENGTH : Z := 128.

Fixpoint any_char (f : ascii → bool) (s : string) : bool :=
  match s with EmptyString => false | String c s => (f c || any_char f s)%bool end.
Fixpoint count_chars (f : ascii → bool) (s : string) : Z :=
  match s with EmptyString => 0 | String c s => (if f c then 1 else 0) + count_chars f s end.

(** [None] is [{ valid: true }]. *)
Definition validateSecret (secret : jsval) : option string :=
  match secret with
  | JStr s =>
      if decide (str_len s < MIN_SECRET_LENGTH)%Z
      then Some ("Secret must be at least " +:+ z_to_string MIN_SECRET_LENGTH +:+ " characters")
      else if decide (MAX_SECRET_LENGTH < str_len s)%Z
      then Some ("Secret must be at most " +:+ z_to_string MAX_SECRET_LENGTH +:+ " characters")
      else if negb (any_char is_upper s) then Some "Secret must contain at least one uppercase letter"
      else if negb (any_char is_lower s) then Some "Secret must contain at least one lowercase letter"
      else if negb (any_char is_digit s) then Some "Secret must contain at least one digit"
      else if decide (count_chars (λ c, negb (is_alnum c)) s < 2)%Z
      then Some "Secret must contain at least two special characters"
      else None
  | _ => Some "Secret must be a string"
  end.

(** ** nonce.ts *)

(** [b.toString(16).padStart(2, '0')] of a byte. *)
Definition hex_byte (b : Z) : string :=
  String (hex_digit (b / 16)) (String (hex_digit (b mod 16)) EmptyString).

(** [arr] is the 16 random bytes of [getRandomValues]. *)
Definition generateId (prefix : string) (arr : list Z) : string :=
  prefix +:+ "_" +:+ String.substring 0 16 (foldr (λ b s, hex_byte b +:+ s) EmptyString arr).

Example generateId_ex :
  generateId "pair" [0; 171; 16; 255; 1; 2; 3; 4; 5; 6; 7; 8; 9; 10; 11; 12]%Z = "pair_00ab10ff01020304".
Proof. reflexivity. Qed.
Example validateSecret_ex : validateSecret (JStr "Correct-Horse-9-Battery") = None.
Proof. reflexivity. Qed.

(** ** Facts *)

Section facts.
Context `{WC : WebCrypto}.

Lemma ct_diff_zero a b diff : length a = length b →
  ct_diff a b diff = 0%N ↔ diff = 0%N ∧ a = b.
Proof.
  revert b diff. induction a as [|x a IH]; intros [|y b] diff Hl; simplify_eq/=; [naive_solver|].
  rewrite IH by done. rewrite N.lor_eq_0_iff, N.lxor_eq_0_iff. naive_solver.
Qed.

Lemma ct_diff_monotone a b diff : diff ≠ 0%N → ct_diff a b diff ≠ 0%N.
Proof.
  revert b diff. induction a as [|x a IH]; intros b diff Hd; simpl; [done|].
  destruct b as [|y b]; apply IH; rewrite N.lor_eq_0_iff; naive_solver.
Qed.

(** The constant-time comparison is equality of the encoded bytes. *)
Lemma ct_equal_true a b : ct_equal a b = true ↔ utf8_encode a = utf8_encode b.
Proof.
  unfold ct_equal. rewrite bool_decide_eq_true.
  assert (∀ s t : string, codes s = codes t → s = t) as Hinj.
  { intros s t H. by rewrite <-(of_codes_codes s), <-(of_codes_codes t), H. }
  destruct (decide (length (codes (utf8_encode a)) ≠ length (codes (utf8_encode b)))) as [Hl|Hl].
  - split; [intros H; exfalso; by eapply ct_diff_monotone in H|].
    intros H. exfalso. by rewrite H in Hl.
  - apply dec_stable in Hl. rewrite ct_diff_zero by done. split; [naive_solver|].
    intros H. by rewrite H.
Qed.

Lemma span_all f s : all_chars f s = true → span f s = (s, EmptyString).
Proof.
  induction s as [|c s IH]; simpl; [done|]. intros H. btrue. rewrite H. by rewrite IH.
Qed.

Lemma is_b64url_char_ascii c : is_b64url_char c = true → char_in 0 127 c = true.
Proof. destruct c as [[] [] [] [] [] [] [] []]; vm_compute; congruence. Qed.

Lemma all_chars_impl (f g : ascii → bool) s :
  (∀ c, f c = true → g c = true) → all_chars f s = true → all_chars g s = true.
Proof. intros Hfg. induction s as [|c s IH]; simpl; [done|]. intros H. btrue. by rewrite Hfg, IH. Qed.

Lemma b64url_ascii s : is_ascii (b64url s) = true.
Proof. eapply all_chars_impl; [apply is_b64url_char_ascii|apply b64url_alphabet]. Qed.

Lemma b64url_tag_ascii s : b64url_tag_re s = true → is_ascii s = true.
Proof.
  unfold b64url_tag_re. destruct (span is_b64url_char s) as [a r] eqn:Hs. intros H. btrue.
  apply span_facts in Hs as [Ha ->]. unfold is_ascii. rewrite all_chars_app.
  rewrite (all_chars_impl _ _ _ is_b64url_char_ascii Ha). simpl.
  eapply all_chars_impl; [|exact H0]. intros c Hc. by apply bool_decide_eq_true in Hc as ->.
Qed.

Context `{!WebCryptoLaws WC}.

Lemma b64url_32 s : String.length s = 32%nat → String.length (b64url s) = 43%nat.
Proof. intros H. by rewrite length_b64url, H. Qed.

Lemma b64url_nonempty s : s ≠ EmptyString → b64url s ≠ EmptyString.
Proof.
  intros Hs H. apply (f_equal b64urlDecode) in H. rewrite b64url_decode_encode in H.
  vm_compute in H. congruence.
Qed.

(** A derived key has 43 characters, is in the base64url alphabet and is
    accepted as key material. *)
Lemma hashSecret_ok secret : secret ≠ EmptyString →
  ∃ h, hashSecret secret = Ret h ∧ String.length h = 43%nat ∧ all_chars is_b64url_char h = true ∧
    ∀ data, ∃ tag, hmacDerive h data = Ret (b64url tag) ∧ String.length tag = 32%nat.
Proof.
  intros Hs. unfold hashSecret. rewrite decide_False by done.
  pose proof (hkdf_length (utf8_encode secret) HKDF_SALT HKDF_INFO) as Hl.
  set (k := hkdf_sha256 _ _ _) in *. exists (b64url k).
  split_and!; [done|by apply b64url_32|apply b64url_alphabet|].
  intros data. unfold hmacDerive.
  assert (k ≠ EmptyString) as Hk by (by intros ->).
  rewrite decide_False by (by apply b64url_nonempty).
  rewrite b64url_decode_encode. cbn [mbind exc_bind].
  destruct (hmac_total k (utf8_encode data) Hk) as (tag & -> & Hl'). by exists tag.
Qed.

Lemma hmacDerive_Ret k data h : hmacDerive k data = Ret h →
  ∃ tag, h = b64url tag ∧ String.length tag = 32%nat.
Proof.
  unfold hmacDerive. case_decide; [done|].
  intros (kb & _ & Hh)%exc_bind_Ret. apply exc_bind_Ret in Hh as (tag & Htag & [= <-]).
  exists tag. split; [done|]. by eapply hmac_length.
Qed.

Lemma verifySecretHmac_str stored nonce ts h :
  verifySecretHmac stored nonce ts (JStr h) = Ret true ↔
  hmacDerive stored (nonce +:+ num_to_string ts) = Ret h.
Proof.
  unfold verifySecretHmac. case_decide as Hst.
  { subst. split; [done|]. unfold hmacDerive. by rewrite decide_True. }
  split.
  - case_match eqn:Hg; [done|]. cbn [js_to_string mbind exc_bind].
    destruct (b64url_tag_re h) eqn:Hre; [|done]. cbn [negb].
    destruct (hmacDerive _ _) as [e|] eqn:He; [|done]. intros [= Hct]. f_equal.
    apply ct_equal_true in Hct. apply hmacDerive_Ret in He as (tag & -> & _).
    by rewrite !utf8_encode_ascii in Hct by (apply b64url_ascii || by apply b64url_tag_ascii).
  - intros He. destruct (hmacDerive_Ret _ _ _ He) as (tag & -> & Hl).
    pose proof (b64url_32 tag Hl) as Hl43.
    assert ((negb (truthy (JStr (b64url tag))) || js_length_lt (JStr (b64url tag)) 43)%bool = false) as ->.
    { simpl. rewrite Hl43. rewrite bool_decide_true; [done|]. intros H. by rewrite H in Hl43. }
    cbn [js_to_string mbind exc_bind].
    assert (b64url_tag_re (b64url tag) = true) as ->.
    { unfold b64url_tag_re. rewrite span_all by apply b64url_alphabet.
      rewrite bool_decide_true; [done|]. intros H. by rewrite H in Hl43. }
    cbn [negb]. rewrite He. f_equal. by apply ct_equal_true.
Qed.

(** A payload signed with one half of a key pair verifies with the other. *)
Lemma verifyPayload_signPayload rnd sk pk payload s :
  key_pair sk pk → signPayload rnd sk payload = Ret s → verifyPayload pk payload s = true.
Proof.
  intros Hkp. unfold signPayload, verifyPayload.
  intros (c & -> & [= <-])%exc_bind_Ret. cbn [mbind exc_bind].
  rewrite b64url_decode_encode. cbn [mbind exc_bind]. by rewrite Hkp.
Qed.

Lemma verifyPayload_true pk payload s : verifyPayload pk payload s = true →
  ∃ c sigBuf, canonicalize payload = Ret c ∧ b64urlDecode s = Ret sigBuf ∧
    ecdsa_verify pk sigBuf (utf8_encode c) = Ret true.
Proof.
  unfold verifyPayload. destruct (canonicalize payload) as [c|]; [|done]. cbn [mbind exc_bind].
  destruct (b64urlDecode s) as [b|]; [|done]. cbn [mbind exc_bind].
  destruct (ecdsa_verify _ _ _) as [[]|] eqn:E; [|done..]. by exists c, b.
Qed.
End facts.

(** ** Properties *)

(** Base64url round trip: decoding the encoding of any byte buffer gives the
    buffer back. *)
Theorem b64url_roundtrip buf : b64urlDecode (b64url buf) = Ret buf.
Proof. apply b64url_decode_encode. Qed.

Section crypto_properties.
Context `{WC : WebCrypto}.

(** The comparison of [verifySecretHmac], which looks at every byte of the
    expected tag whatever it finds, decides equality of the encoded strings. *)
Theorem ct_equal_correct a b : ct_equal a b = bool_decide (utf8_encode a = utf8_encode b).
Proof. apply Bool.eq_iff_eq_true. rewrite bool_decide_eq_true. apply ct_equal_true. Qed.

(** A request HMAC is accepted exactly when it is the tag that [hmacDerive]
    computes from the stored key over nonce and timestamp. *)
Theorem verifySecretHmac_correct `{!WebCryptoLaws WC} stored nonce ts h :
  verifySecretHmac stored nonce ts (JStr h) = Ret true ↔
  hmacDerive stored (nonce +:+ num_to_string ts) = Ret h.
Proof. apply verifySecretHmac_str. Qed.

(** A payload signed with one half of a key pair verifies with the other,
    whatever the order in which its fields arrive. *)
Theorem sign_verify_roundtrip rnd sk pk l l' s : key_pair sk pk → NoDup l.*1 → l ≡ₚ l' →
  signPayload rnd sk (JObj l) = Ret s → verifyPayload pk (JObj l') s = true.
Proof.
  intros Hkp Hnd Hp Hs. destruct (canonicalize (JObj l)) as [c|] eqn:Hc; [|by unfold signPayload in Hs; rewrite Hc in Hs].
  rewrite <-(verifyPayload_signPayload rnd sk pk (JObj l) s Hkp Hs).
  unfold verifyPayload. by rewrite Hc, (canonicalize_perm l l' c Hnd Hp Hc).
Qed.
End crypto_properties.
