(* ===== verification/Store.v ===== *)
(** * Pairs, policies and the store interface
    (packages/server/src: types.ts, store.ts)

    [StoredPair] is the record of the source, [canonicalAuthorizationJwk] and the
    policy functions are its functions.  [PairStore] and [AtomicPairStore] are the
    two store interfaces as type classes over the store's state; an operation
    returns the new state and a value or an exception.  [PairStoreLaws] and
    [AtomicPairStoreLaws] say what the operations promise, in terms of an
    abstract map of pairs; the specifications ([claim_spec], [expire_spec], ...)
    are pure functions on that map. *)

From S2P Require Import Prelude JsNum Encoding Json.
From stdpp Require Import base gmap strings list fin_maps.
From Stdlib Require Import ZArith Lia.

Local Open Scope string_scope.

(** ** types.ts *)

Inductive CanaryClass := env_file | docs | registry_exfil.
Inductive PairKind := legitimate | ghost.
Inductive PairStatus := active | locked | expired | rotated | revoked.
Inductive AnomalyVerdict := clean | suspicious | shadow | attack.

#[export] Instance CanaryClass_eq_dec : EqDecision CanaryClass.
Proof. solve_decision. Defined.
#[export] Instance PairKind_eq_dec : EqDecision PairKind.
Proof. solve_decision. Defined.
#[export] Instance PairStatus_eq_dec : EqDecision PairStatus.
Proof. solve_decision. Defined.
#[export] Instance AnomalyVerdict_eq_dec : EqDecision AnomalyVerdict.
Proof. solve_decision. Defined.

Definition TARPIT_DELAY_MS (v : AnomalyVerdict) : Z :=
  match v with clean => 0 | suspicious => 500 | shadow => 2000 | attack => 0 end.

(** [scope] and [mode] are strings: registrations arrive from outside and are
    checked at run time.  An optional field is an [option]; [firstFailureAt] may
    be undefined ([None]), null ([Some None]) or a time. *)
Record StoredPair := mkPair {
  sp_id : string;
  sp_name : string;
  sp_scope : string;
  sp_mode : string;
  sp_secretHash : string;
  sp_pubJwk : jsval;
  sp_status : PairStatus;
  sp_created : Z;
  sp_lastActive : option Z;
  sp_requests : Z;
  sp_failedSigs : Z;
  sp_cumulativeFailures : option dec;
  sp_firstFailureAt : option (option Z);
  sp_expiresAt : option Z;
  sp_maxRequests : option Z;
  sp_kind : option PairKind;
  sp_canaryClass : option CanaryClass;
}.
#[export] Instance StoredPair_eq_dec : EqDecision StoredPair.
Proof. solve_decision. Defined.

Record PairRegistration := mkRegistration {
  r_name : string;
  r_scope : string;
  r_mode : string;
  r_secretHash : string;
  r_pubJwk : jsval;
  r_expiresAt : option Z;
  r_maxRequests : option Z;
  r_kind : option PairKind;
  r_canaryClass : option CanaryClass;
}.
#[export] Instance PairRegistration_eq_dec : EqDecision PairRegistration.
Proof. solve_decision. Defined.

Record Pending := mkPending { pd_registration : PairRegistration; pd_requestedAt : Z }.
#[export] Instance Pending_eq_dec : EqDecision Pending.
Proof. solve_decision. Defined.

(** Record updates of the source's object spreads. *)
Definition with_status (st : PairStatus) (p : StoredPair) : StoredPair :=
  mkPair (sp_id p) (sp_name p) (sp_scope p) (sp_mode p) (sp_secretHash p) (sp_pubJwk p) st
    (sp_created p) (sp_lastActive p) (sp_requests p) (sp_failedSigs p) (sp_cumulativeFailures p)
    (sp_firstFailureAt p) (sp_expiresAt p) (sp_maxRequests p) (sp_kind p) (sp_canaryClass p).
Definition with_failures (failed : Z) (cum : option dec) (first : option (option Z)) (p : StoredPair) :=
  mkPair (sp_id p) (sp_name p) (sp_scope p) (sp_mode p) (sp_secretHash p) (sp_pubJwk p) (sp_status p)
    (sp_created p) (sp_lastActive p) (sp_requests p) failed cum first
    (sp_expiresAt p) (sp_maxRequests p) (sp_kind p) (sp_canaryClass p).
Definition with_activity (requests : Z) (last : option Z) (p : StoredPair) :=
  mkPair (sp_id p) (sp_name p) (sp_scope p) (sp_mode p) (sp_secretHash p) (sp_pubJwk p) (sp_status p)
    (sp_created p) last requests (sp_failedSigs p) (sp_cumulativeFailures p)
    (sp_firstFailureAt p) (sp_expiresAt p) (sp_maxRequests p) (sp_kind p) (sp_canaryClass p).
Definition with_policy (name scope : string) (exp max : option Z) (p : StoredPair) :=
  mkPair (sp_id p) name scope (sp_mode p) (sp_secretHash p) (sp_pubJwk p) (sp_status p)
    (sp_created p) (sp_lastActive p) (sp_requests p) (sp_failedSigs p) (sp_cumulativeFailures p)
    (sp_firstFailureAt p) exp max (sp_kind p) (sp_canaryClass p).

(** ** store.ts: the canonical public key *)

Record CanonicalAuthorizationJwk := mkJwk { jwk_x : string; jwk_y : string }.
#[export] Instance CanonicalAuthorizationJwk_eq_dec : EqDecision CanonicalAuthorizationJwk.
Proof. solve_decision. Defined.

(** [{ kty: 'EC', crv: 'P-256', x, y }] *)
Definition jwk_value (k : CanonicalAuthorizationJwk) : jsval :=
  JObj [("kty", JStr "EC"); ("crv", JStr "P-256"); ("x", JStr (jwk_x k)); ("y", JStr (jwk_y k))].

Definition JWK_FIELDS : list string := ["kty"; "crv"; "x"; "y"; "key_ops"; "ext"].

(** [/^[A-Za-z0-9_-]{42}[AEIMQUYcgkosw048]$/] *)
Fixpoint b64url_256 (n : nat) (s : string) : bool :=
  match n, s with
  | O, String c EmptyString => one_of "AEIMQUYcgkosw048" c
  | S n, String c s => (is_b64url_char c && b64url_256 n s)%bool
  | _, _ => false
  end.
Definition B64URL_256 (s : string) : bool := b64url_256 42 s.

Definition own (l : list (string * jsval)) (key : string) : jsval := default JUndef (om_get key l).

(** Values are plain data here: proxies, symbols, accessors and exotic
    prototypes, which the source also refuses, do not occur. *)
Definition canonicalAuthorizationJwk (value : jsval) : exc CanonicalAuthorizationJwk :=
  match value with
  | JObj l =>
      match List.find (λ key, negb (bool_decide (key ∈ JWK_FIELDS))) l.*1 with
      | Some key => Throw (PlainError ("pubJwk contains unexpected field '" +:+ key +:+ "'"))
      | None =>
          match own l "kty", own l "crv", own l "x", own l "y" with
          | JStr kty, JStr crv, JStr x, JStr y =>
              if (bool_decide (kty = "EC") && bool_decide (crv = "P-256") && B64URL_256 x && B64URL_256 y)%bool
              then
                if negb (bool_decide (own l "key_ops" = JUndef ∨ own l "key_ops" = JArr [JStr "verify"]))
                then Throw (PlainError "pubJwk.key_ops must be exactly [verify] when present")
                else if negb (bool_decide (own l "ext" = JUndef ∨ own l "ext" = JBool true))
                then Throw (PlainError "pubJwk.ext must be true when present")
                else Ret (mkJwk x y)
              else Throw (PlainError "pubJwk must be an exact public P-256 key")
          | _, _, _, _ => Throw (PlainError "pubJwk must be an exact public P-256 key")
          end
      end
  | JArr _ => Throw (PlainError "pubJwk must be a plain object")
  | _ => Throw (PlainError "pubJwk must be a non-proxy object")
  end.

(** [sameData], at the one type it is applied to. *)
Definition sameData (left right : CanonicalAuthorizationJwk) : bool := bool_decide (left = right).

(** ** store.ts: policies *)

Definition pair_kind (k : option PairKind) : PairKind := default legitimate k.

(** [m && m > 0] *)
Definition capped (m : option Z) : option Z :=
  match m with Some m => if decide (0 < m)%Z then Some m else None | None => None end.
(** [m && m > 0 && n >= m] *)
Definition cap_reached (m : option Z) (n : Z) : bool :=
  match capped m with Some m => bool_decide (m <= n)%Z | None => false end.
(** [e !== undefined && e < at] *)
Definition elapsed (e : option Z) (at_ : Z) : bool :=
  match e with Some e => bool_decide (e < at_)%Z | None => false end.

Definition hasInitialPairState (p : StoredPair) : bool :=
  bool_decide (sp_status p = active ∧ sp_lastActive p = None ∧ sp_requests p = 0%Z ∧
    sp_failedSigs p = 0%Z ∧ sp_cumulativeFailures p = None ∧ sp_firstFailureAt p = None).

(** Conjunction that stops at the first [false], as [&&] does. *)
Definition eand (b : bool) (m : exc bool) : exc bool := if b then m else Ret false.

Definition sameKeys (a b : jsval) : exc bool :=
  ca ← canonicalAuthorizationJwk a; cb ← canonicalAuthorizationJwk b; Ret (sameData ca cb).

Definition pairMatchesRegistration (p : StoredPair) (r : PairRegistration) : exc bool :=
  eand (bool_decide (sp_name p = r_name r ∧ sp_scope p = r_scope r ∧ sp_mode p = r_mode r ∧
                     sp_secretHash p = r_secretHash r))
    (same ← sameKeys (sp_pubJwk p) (r_pubJwk r);
     Ret (same && bool_decide (sp_expiresAt p = r_expiresAt r ∧ sp_maxRequests p = r_maxRequests r ∧
            pair_kind (sp_kind p) = pair_kind (r_kind r) ∧ sp_canaryClass p = r_canaryClass r))%bool).

Definition rotationPolicyMatches (oldPair replacement : StoredPair) : bool :=
  bool_decide (sp_name oldPair = sp_name replacement ∧ sp_scope oldPair = sp_scope replacement ∧
    sp_mode oldPair = sp_mode replacement ∧ sp_secretHash oldPair = sp_secretHash replacement ∧
    sp_expiresAt oldPair = sp_expiresAt replacement ∧ sp_maxRequests oldPair = sp_maxRequests replacement ∧
    pair_kind (sp_kind oldPair) = pair_kind (sp_kind replacement) ∧
    sp_canaryClass oldPair = sp_canaryClass replacement).

Record SuccessfulUsePolicy := mkPolicy {
  up_status : PairStatus;
  up_scope : string;
  up_mode : string;
  up_secretHash : string;
  up_pubJwk : jsval;
  up_expiresAt : option Z;
  up_maxRequests : option Z;
  up_kind : PairKind;
  up_canaryClass : option CanaryClass;
}.

Definition successfulUsePolicy (p : StoredPair) : exc SuccessfulUsePolicy :=
  k ← canonicalAuthorizationJwk (sp_pubJwk p);
  Ret (mkPolicy (sp_status p) (sp_scope p) (sp_mode p) (sp_secretHash p) (jwk_value k)
         (sp_expiresAt p) (sp_maxRequests p) (pair_kind (sp_kind p)) (sp_canaryClass p)).

Definition successfulUsePolicyMatches (p : StoredPair) (e : SuccessfulUsePolicy) : exc bool :=
  eand (bool_decide (sp_status p = up_status e ∧ sp_scope p = up_scope e ∧ sp_mode p = up_mode e ∧
                     sp_secretHash p = up_secretHash e))
    (same ← sameKeys (sp_pubJwk p) (up_pubJwk e);
     Ret (same && bool_decide (sp_expiresAt p = up_expiresAt e ∧ sp_maxRequests p = up_maxRequests e ∧
            pair_kind (sp_kind p) = up_kind e ∧ sp_canaryClass p = up_canaryClass e))%bool).

Inductive SuccessfulUseClaim :=
  | claimed | missing | inactive | policy_changed | time_expired | usage_exhausted.
#[export] Instance SuccessfulUseClaim_eq_dec : EqDecision SuccessfulUseClaim.
Proof. solve_decision. Defined.

(** ** store.ts: the interfaces *)

Class PairStore (S : Type) := {
  store_get : string → S → S * exc (option StoredPair);
  store_set : StoredPair → S → S * exc unit;
  store_delete : string → S → S * exc unit;
  store_list : S → S * exc (list StoredPair);
  store_getPending : string → S → S * exc (option Pending);
  store_setPending : string → PairRegistration → Z → S → S * exc unit;
  store_deletePending : string → S → S * exc unit;
  store_listPending : S → S * exc (list (string * Pending));
}.

(** [PairAtomicMutation]: no result keeps the pair. *)
Definition PairAtomicMutation : Type := StoredPair → exc (option StoredPair).

Class AtomicPairStore (S : Type) := {
  atomicMutate : string → PairAtomicMutation → S → S * exc (option StoredPair);
  approvePending : string → Pending → StoredPair → Z → S → S * exc bool;
  rotatePair : StoredPair → StoredPair → S → S * exc bool;
  store_claimSuccessfulUse : string → Z → SuccessfulUsePolicy → S → S * exc SuccessfulUseClaim;
  expireIfElapsed : string → Z → S → S * exc bool;
  expireIfUsageExhausted : string → S → S * exc bool;
  lockIfFailureThreshold : string → Z → S → S * exc bool;
}.

(** ** Specifications on the abstract map of pairs *)

Notation pairs := (gmap string StoredPair).

Definition isActive (p : StoredPair) : bool := bool_decide (sp_status p = active).
Definition active_count (m : pairs) : Z := Z.of_nat (size (filter (λ kv, isActive kv.2 = true) m)).

(** The pair after a successful use at [at_]. *)
Definition used (at_ : Z) (p : StoredPair) : StoredPair :=
  let requests := (sp_requests p + 1)%Z in
  let p' := with_failures 0 (Some (Dec 0 0)) (Some None) (with_activity requests (Some at_) p) in
  if cap_reached (sp_maxRequests p) requests then with_status expired p' else p'.

(** One pair's claim: the pair to store, if it changes, and the outcome. *)
Definition claim_pair (at_ : Z) (e : SuccessfulUsePolicy) (p : StoredPair) :
    exc (option StoredPair * SuccessfulUseClaim) :=
  if decide (sp_status p = expired ∧ elapsed (sp_expiresAt p) at_ = true) then Ret (None, time_expired)
  else if decide (sp_status p = expired ∧ cap_reached (sp_maxRequests p) (sp_requests p) = true)
  then Ret (None, usage_exhausted)
  else if decide (sp_status p ≠ active) then Ret (None, inactive)
  else if elapsed (sp_expiresAt p) at_ then Ret (Some (with_status expired p), time_expired)
  else if cap_reached (sp_maxRequests p) (sp_requests p)
  then Ret (Some (with_status expired p), usage_exhausted)
  else
    m ← successfulUsePolicyMatches p e;
    if m : bool then Ret (Some (used at_ p), claimed) else Ret (None, policy_changed).

Definition store_opt (k : string) (p : option StoredPair) (m : pairs) : pairs :=
  match p with Some p => <[k := p]> m | None => m end.

Definition claim_spec (k : string) (at_ : Z) (e : SuccessfulUsePolicy) (m : pairs) :
    pairs * exc SuccessfulUseClaim :=
  match m !! k with
  | None => (m, Ret missing)
  | Some p =>
      match claim_pair at_ e p with
      | Ret (p', r) => (store_opt k p' m, Ret r)
      | Throw err => (m, Throw err)
      end
  end.

Definition mutate_spec (k : string) (f : PairAtomicMutation) (m : pairs) : pairs * exc (option StoredPair) :=
  match m !! k with
  | None => (m, Ret None)
  | Some p =>
      match f p with
      | Throw err => (m, Throw err)
      | Ret None => (m, Ret (Some p))
      | Ret (Some p') =>
          if decide (sp_id p' = k) then (<[k := p']> m, Ret (Some p'))
          else (m, Throw (PlainError "Atomic pair mutation cannot change pair identity"))
      end
  end.

(** A conditional status change of one pair. *)
Definition status_spec (cond : StoredPair → bool) (st : PairStatus) (k : string) (m : pairs) : pairs * exc bool :=
  match m !! k with
  | Some p => if cond p then (<[k := with_status st p]> m, Ret true) else (m, Ret false)
  | None => (m, Ret false)
  end.
Definition expirable (now : Z) (p : StoredPair) : bool := (isActive p && elapsed (sp_expiresAt p) now)%bool.
Definition exhausted (p : StoredPair) : bool := (isActive p && cap_reached (sp_maxRequests p) (sp_requests p))%bool.
Definition lockable (n : Z) (p : StoredPair) : bool := (isActive p && bool_decide (n <= sp_failedSigs p)%Z)%bool.

Definition rotate_spec (old new : StoredPair) (m : pairs) : pairs * exc bool :=
  match m !! sp_id old with
  | Some cur =>
      if (bool_decide (cur = old) && isActive cur && hasInitialPairState new &&
          rotationPolicyMatches cur new && bool_decide (m !! sp_id new = None))%bool
      then (<[sp_id new := new]> (<[sp_id old := with_status rotated cur]> m), Ret true)
      else (m, Ret false)
  | None => (m, Ret false)
  end.

(** ** What the operations promise *)

(** The abstract content of a store and the invariant of its representation. *)
Class StoreModel (S : Type) := {
  abs : S → pairs;
  abs_pending : S → gmap string Pending;
  store_inv : S → Prop;
}.

Section promises.
Context {S : Type} `{StoreModel S}.

(** The operation behaves as [spec]; when it throws, the change may or may not
    have been made (a lost connection), and nothing else happened. *)
Definition implements {A} (op : S → S * exc A) (spec : pairs → pairs * exc A) : Prop :=
  ∀ s, store_inv s →
    store_inv (op s).1 ∧ abs_pending (op s).1 = abs_pending s ∧
    match (op s).2 with
    | Ret a => spec (abs s) = (abs (op s).1, Ret a)
    | Throw _ => abs (op s).1 = abs s ∨ abs (op s).1 = (spec (abs s)).1
    end.

(** The operation never fails by itself. *)
Definition refines {A} (op : S → S * exc A) (spec : pairs → pairs * exc A) : Prop :=
  ∀ s, store_inv s →
    store_inv (op s).1 ∧ abs_pending (op s).1 = abs_pending s ∧
    (abs (op s).1, (op s).2) = spec (abs s).

Lemma refines_implements {A} (op : S → S * exc A) spec : refines op spec → implements op spec.
Proof.
  intros Href s Hs. destruct (Href s Hs) as (Hi & Hp & Heq).
  split_and!; [done|done|]. destruct ((op s).2) eqn:E; [done|]. right. by rewrite <-Heq.
Qed.
End promises.

Definition get_spec (k : string) (m : pairs) : pairs * exc (option StoredPair) := (m, Ret (m !! k)).
Definition set_spec (p : StoredPair) (m : pairs) : pairs * exc unit := (<[sp_id p := p]> m, Ret tt).
Definition delete_spec (k : string) (m : pairs) : pairs * exc unit := (delete k m, Ret tt).

Class PairStoreLaws (S : Type) `{!PairStore S} `{!StoreModel S} := {
  get_law k : implements (store_get k) (get_spec k);
  set_law p : implements (store_set p) (set_spec p);
  delete_law k : implements (store_delete k) (delete_spec k);
  list_law s l : store_inv s → (store_list s).2 = Ret l →
    NoDup (sp_id <$> l) ∧ ∀ p, p ∈ l ↔ ∃ k, abs s !! k = Some p;
  list_same s : store_inv s → store_inv (store_list s).1 ∧ abs (store_list s).1 = abs s ∧
    abs_pending (store_list s).1 = abs_pending s;
}.

(** [approvePending]: the pending registration is consumed and the pair
    created in one step. *)
Definition approve_spec (token : string) (expected : Pending) (p : StoredPair) (maxActive : Z)
    (m : pairs) (pend : gmap string Pending) : exc (option (pairs * gmap string Pending)) :=
  match pend !! token with
  | Some pd =>
      if decide (pd ≠ expected) then Ret None
      else
        ok ← (if hasInitialPairState p then pairMatchesRegistration p (pd_registration expected) else Ret false);
        if negb ok then Throw (PlainError "Approved pair initial state is invalid")
        else if decide (maxActive <= active_count m)%Z
        then Throw (PlainError ("Maximum pair capacity (" +:+ z_to_string maxActive +:+ ") reached"))
        else if decide (is_Some (m !! sp_id p))
        then Throw (PlainError "Replacement pair identity already exists")
        else Ret (Some (<[sp_id p := p]> m, delete token pend))
  | None => Ret None
  end.

(** The operation throws and changes nothing. *)
Definition reject {A} (e : error) (m : pairs) : pairs * exc A := (m, Throw e).

Class AtomicPairStoreLaws (S : Type) `{!AtomicPairStore S} `{!StoreModel S} := {
  atomicMutate_law k f : implements (atomicMutate k f) (mutate_spec k f);
  rotatePair_law old new : implements (rotatePair old new) (rotate_spec old new);
  claim_law k at_ e : (is_safe_integer at_ && bool_decide (0 <= at_)%Z)%bool = true →
    implements (store_claimSuccessfulUse k at_ e) (claim_spec k at_ e);
  expireIfElapsed_law k now : (is_safe_integer now && bool_decide (0 <= now)%Z)%bool = true →
    implements (expireIfElapsed k now) (status_spec (expirable now) expired k);
  expireIfUsageExhausted_law k :
    implements (expireIfUsageExhausted k) (status_spec exhausted expired k);
  lock_law k n : (is_safe_integer n && bool_decide (1 <= n)%Z)%bool = true →
    implements (lockIfFailureThreshold k n) (status_spec (lockable n) locked k);
  (** Arguments out of range change nothing. *)
  claim_invalid_law k at_ e : (is_safe_integer at_ && bool_decide (0 <= at_)%Z)%bool = false →
    implements (store_claimSuccessfulUse k at_ e) (reject (PlainError "Successful-use timestamp is invalid"));
  expireIfElapsed_invalid_law k now : (is_safe_integer now && bool_decide (0 <= now)%Z)%bool = false →
    implements (expireIfElapsed k now) (reject (PlainError "Expiry check timestamp is invalid"));
  lock_invalid_law k n : (is_safe_integer n && bool_decide (1 <= n)%Z)%bool = false →
    implements (lockIfFailureThreshold k n) (reject (PlainError "Failure threshold is invalid"));
  approve_law token expected p maxActive s : store_inv s →
    store_inv (approvePending token expected p maxActive s).1 ∧
    match (approvePending token expected p maxActive s).2 with
    | Ret true => approve_spec token expected p maxActive (abs s) (abs_pending s) =
        Ret (Some (abs (approvePending token expected p maxActive s).1,
                   abs_pending (approvePending token expected p maxActive s).1))
    | _ => True
    end;
}.

(** ** Facts about policies *)

Definition pair_jwk (p : StoredPair) : exc CanonicalAuthorizationJwk := canonicalAuthorizationJwk (sp_pubJwk p).

Lemma canonical_jwk_value k v : canonicalAuthorizationJwk v = Ret k →
  canonicalAuthorizationJwk (jwk_value k) = Ret k.
Proof.
  destruct v as [| | | | | |l]; try done. unfold canonicalAuthorizationJwk.
  destruct (List.find _ _); [done|].
  destruct (own l "kty") as [| | | |kty| |]; try done. destruct (own l "crv") as [| | | |crv| |]; try done.
  destruct (own l "x") as [| | | |x| |]; try done. destruct (own l "y") as [| | | |y| |]; try done.
  destruct (_ && _ && B64URL_256 x && B64URL_256 y)%bool eqn:Hc; [|done]. btrue.
  do 2 (case_match; [done|]). intros [= <-].
  unfold jwk_value. replace (List.find _ _) with (@None string) by (vm_compute; reflexivity).
  cbn [jwk_x jwk_y]. set (l' := [("kty", _); _; _; _]).
  assert (own l' "kty" = JStr "EC" ∧ own l' "crv" = JStr "P-256" ∧ own l' "x" = JStr x ∧
    own l' "y" = JStr y ∧ own l' "key_ops" = JUndef ∧ own l' "ext" = JUndef)
    as (-> & -> & -> & -> & -> & ->) by done.
  by rewrite !bool_decide_true, H0, H1 by (done || by left).
Qed.

(** Matching a policy means: active-policy fields are those of the policy. *)
Definition policy_agrees (p : StoredPair) (e : SuccessfulUsePolicy) : Prop :=
  sp_status p = up_status e ∧ sp_scope p = up_scope e ∧ sp_mode p = up_mode e ∧
  sp_secretHash p = up_secretHash e ∧
  (∃ k, canonicalAuthorizationJwk (sp_pubJwk p) = Ret k ∧ canonicalAuthorizationJwk (up_pubJwk e) = Ret k) ∧
  sp_expiresAt p = up_expiresAt e ∧ sp_maxRequests p = up_maxRequests e ∧
  pair_kind (sp_kind p) = up_kind e ∧ sp_canaryClass p = up_canaryClass e.

Lemma sameKeys_true a b : sameKeys a b = Ret true ↔
  ∃ k, canonicalAuthorizationJwk a = Ret k ∧ canonicalAuthorizationJwk b = Ret k.
Proof.
  unfold sameKeys. destruct (canonicalAuthorizationJwk a) as [ka|]; simpl; [|naive_solver].
  destruct (canonicalAuthorizationJwk b) as [kb|]; simpl; [|naive_solver].
  unfold sameData. split; [intros [= H]; btrue; subst; eauto|]. intros (k & [= ->] & [= ->]).
  by rewrite bool_decide_true.
Qed.

Lemma policy_matches_true p e : successfulUsePolicyMatches p e = Ret true ↔ policy_agrees p e.
Proof.
  unfold successfulUsePolicyMatches, policy_agrees, eand.
  case_bool_decide as H1; [|split; [done|naive_solver]].
  split.
  - intros (b & Hb & [= Hand])%exc_bind_Ret. btrue. subst b. apply sameKeys_true in Hb. naive_solver.
  - intros (? & ? & ? & ? & Hk & ? & ? & ? & ?). apply sameKeys_true in Hk as ->. cbn.
    by rewrite bool_decide_true.
Qed.

Lemma successfulUsePolicy_matches p e : successfulUsePolicy p = Ret e →
  successfulUsePolicyMatches p e = Ret true.
Proof.
  unfold successfulUsePolicy. intros (k & Hk & [= <-])%exc_bind_Ret. apply policy_matches_true.
  unfold policy_agrees. simpl. split_and!; try done. exists k. split; [done|]. by eapply canonical_jwk_value.
Qed.

Lemma capped_Some m n : capped m = Some n ↔ m = Some n ∧ (0 < n)%Z.
Proof. unfold capped. destruct m; [case_decide|]; naive_solver. Qed.

Lemma cap_reached_iff m n : cap_reached m n = true ↔ ∃ c, m = Some c ∧ (0 < c)%Z ∧ (c <= n)%Z.
Proof.
  unfold cap_reached. destruct (capped m) as [c|] eqn:Hc.
  - apply capped_Some in Hc as [-> Hc]. rewrite bool_decide_eq_true. naive_solver.
  - split; [done|]. intros (c & -> & Hp & _). unfold capped in Hc. by rewrite decide_True in Hc.
Qed.

Lemma claim_pair_claimed at_ e p p' : claim_pair at_ e p = Ret (p', claimed) ↔
  p' = Some (used at_ p) ∧ sp_status p = active ∧ elapsed (sp_expiresAt p) at_ = false ∧
  cap_reached (sp_maxRequests p) (sp_requests p) = false ∧ policy_agrees p e.
Proof.
  unfold claim_pair. rewrite <-policy_matches_true.
  destruct (decide (sp_status p = expired ∧ _)) as [[Hs He]|H1]; [split; [done|intros (_ & ? & ? & ? & _); congruence]|].
  destruct (decide (sp_status p = expired ∧ _)) as [[Hs Hc]|H2]; [split; [done|intros (_ & ? & ? & ? & _); congruence]|].
  destruct (decide (sp_status p ≠ active)) as [Ha|Ha]; [split; [done|intros (_ & ? & ? & ? & _); congruence]|]. apply dec_stable in Ha.
  destruct (elapsed _ _) eqn:He; [split; [done|intros (_ & ? & ? & ? & _); congruence]|].
  destruct (cap_reached _ _) eqn:Hc; [split; [done|intros (_ & ? & ? & ? & _); congruence]|].
  split.
  - intros (b & Hb & Hr)%exc_bind_Ret. destruct b; [|done]. by simplify_eq.
  - intros (-> & _ & _ & _ & Hm). by rewrite Hm.
Qed.
