(* ===== verification/ToyCrypto.v ===== *)
(** * A concrete instance of the cryptographic interface

    Not cryptography: small computable functions that satisfy [WebCryptoLaws],
    so that the theorems that assume them can be run on concrete inputs. *)

From S2P Require Import Prelude JsNum Encoding Json Crypto Store.
From stdpp Require Import base strings list.
From Stdlib Require Import NArith ZArith Lia.

(** 32 bytes from a 32-bit mixing function. *)
Fixpoint mix (h : Z) (s : string) : Z :=
  match s with
  | EmptyString => h
  | String c s => mix (Z.land (33 * h + Z.of_N (char_code c) + 7) 4294967295)%Z s
  end.
Definition toy_hash (m : string) : string :=
  let h := mix 5381 m in
  unchars ((λ i, ascii_of_N (Z.to_N (Z.land (Z.shiftr h (8 * (Z.of_nat i mod 4))) 255))) <$> seq 0 32).

Lemma toy_hash_length m : String.length (toy_hash m) = 32%nat.
Proof. unfold toy_hash. by rewrite <-length_chars, chars_unchars, length_fmap, length_seq. Qed.

(** A key pair is its public coordinates; a signature is a hash of them and the
    message. *)
#[export] Instance toy : WebCrypto := {
  PublicKey := CanonicalAuthorizationJwk;
  PrivateKey := CanonicalAuthorizationJwk;
  sha256 := toy_hash;
  hkdf_sha256 m salt info := toy_hash (info +:+ salt +:+ m);
  hmac_sha256 k m :=
    if decide (k = EmptyString) then Throw (PlainError "DataError") else Ret (toy_hash (k +:+ m));
  import_jwk := canonicalAuthorizationJwk;
  ecdsa_sign _ sk m := toy_hash (jwk_x sk +:+ jwk_y sk +:+ m);
  ecdsa_verify pk s m := Ret (bool_decide (s = toy_hash (jwk_x pk +:+ jwk_y pk +:+ m)));
}.

#[export] Instance toy_laws : WebCryptoLaws toy.
Proof.
  split.
  - intros m. exact (toy_hash_length m).
  - intros m salt info. exact (toy_hash_length _).
  - intros k m Hk. exists (toy_hash (k +:+ m)). cbn [hmac_sha256 toy]. rewrite decide_False by done.
    split; [done|exact (toy_hash_length _)].
  - intros k m tag. cbn [hmac_sha256 toy]. case_decide; [done|]. intros [= <-]. exact (toy_hash_length _).
Qed.

Lemma toy_key_pair (k : CanonicalAuthorizationJwk) : key_pair (k : @PrivateKey toy) (k : @PublicKey toy).
Proof. intros r m. simpl. by rewrite bool_decide_true. Qed.
