(* ===== verification/MemoryStore.v ===== *)
(** * The in-memory pair store (packages/server/src/memory-store.ts)

    [MemoryPairStore] keeps two JavaScript maps.  Its operations are translated
    one by one -- each runs inside [exclusively], so it is one atomic step -- and
    shown to refine the specifications of [Store]. *)

From S2P Require Import Prelude JsNum Encoding Json Store.
From stdpp Require Import base gmap strings list fin_maps.
From Stdlib Require Import ZArith Lia.

Local Open Scope string_scope.

Record MemoryPairStore := mkMem {
  mp_pairs : list (string * StoredPair);
  mp_pending : list (string * Pending);
}.

Definition MemoryPairStore_new : MemoryPairStore := mkMem [] [].

Implicit Types s : MemoryPairStore.

Definition put_pair (k : string) (p : StoredPair) s := mkMem (om_set k p (mp_pairs s)) (mp_pending s).

Definition mem_get (pairId : string) s : MemoryPairStore * exc (option StoredPair) :=
  (s, Ret (om_get pairId (mp_pairs s))).
Definition mem_set (p : StoredPair) s : MemoryPairStore * exc unit :=
  (put_pair (sp_id p) p s, Ret tt).
Definition mem_delete (pairId : string) s : MemoryPairStore * exc unit :=
  (mkMem (om_delete pairId (mp_pairs s)) (mp_pending s), Ret tt).
Definition mem_list s : MemoryPairStore * exc (list StoredPair) := (s, Ret (mp_pairs s).*2).
Definition mem_getPending (token : string) s : MemoryPairStore * exc (option Pending) :=
  (s, Ret (om_get token (mp_pending s))).
Definition mem_setPending (token : string) (r : PairRegistration) (at_ : Z) s : MemoryPairStore * exc unit :=
  (mkMem (mp_pairs s) (om_set token (mkPending r at_) (mp_pending s)), Ret tt).
Definition mem_deletePending (token : string) s : MemoryPairStore * exc unit :=
  (mkMem (mp_pairs s) (om_delete token (mp_pending s)), Ret tt).
Definition mem_listPending s : MemoryPairStore * exc (list (string * Pending)) := (s, Ret (mp_pending s)).

Definition mem_atomicMutate (pairId : string) (mutate : PairAtomicMutation) s :
    MemoryPairStore * exc (option StoredPair) :=
  match om_get pairId (mp_pairs s) with
  | None => (s, Ret None)
  | Some current =>
      match mutate current with
      | Throw e => (s, Throw e)
      | Ret None => (s, Ret (Some current))
      | Ret (Some next) =>
          if decide (sp_id next ≠ pairId)
          then (s, Throw (PlainError "Atomic pair mutation cannot change pair identity"))
          else (put_pair pairId next s, Ret (Some next))
      end
  end.

(** [JSON.stringify(pending) !== JSON.stringify(expected)] and the same test on
    pairs are equality of the records: a record fixes the property order, which
    [structuredClone] keeps, and on JSON data the texts of two records are equal
    exactly when the records are ([pending_text_inj], [pair_text_inj] below). *)
Definition mem_approvePending (token : string) (expected : Pending) (p : StoredPair) (maxActivePairs : Z) s :
    MemoryPairStore * exc bool :=
  match om_get token (mp_pending s) with
  | None => (s, Ret false)
  | Some pending =>
      if decide (pending ≠ expected) then (s, Ret false)
      else
        match (if hasInitialPairState p then pairMatchesRegistration p (pd_registration expected) else Ret false) with
        | Throw e => (s, Throw e)
        | Ret false => (s, Throw (PlainError "Approved pair initial state is invalid"))
        | Ret true =>
            let active := Z.of_nat (length (filter (λ item, isActive item = true) (mp_pairs s).*2)) in
            if decide (maxActivePairs <= active)%Z
            then (s, Throw (PlainError ("Maximum pair capacity (" +:+ z_to_string maxActivePairs +:+ ") reached")))
            else if om_has (sp_id p) (mp_pairs s)
            then (s, Throw (PlainError "Replacement pair identity already exists"))
            else (mkMem (om_set (sp_id p) p (mp_pairs s)) (om_delete token (mp_pending s)), Ret true)
        end
  end.

Definition mem_rotatePair (expectedOld replacement : StoredPair) s : MemoryPairStore * exc bool :=
  match om_get (sp_id expectedOld) (mp_pairs s) with
  | None => (s, Ret false)
  | Some current =>
      if decide (current ≠ expectedOld) then (s, Ret false)
      else if (negb (isActive current) || negb (hasInitialPairState replacement) ||
               negb (rotationPolicyMatches current replacement) || om_has (sp_id replacement) (mp_pairs s))%bool
      then (s, Ret false)
      else (put_pair (sp_id replacement) replacement (put_pair (sp_id current) (with_status rotated current) s), Ret true)
  end.

Definition valid_time (at_ : Z) : bool := (is_safe_integer at_ && bool_decide (0 <= at_)%Z)%bool.

Definition with_pubJwk (k : jsval) (e : SuccessfulUsePolicy) : SuccessfulUsePolicy :=
  mkPolicy (up_status e) (up_scope e) (up_mode e) (up_secretHash e) k (up_expiresAt e)
    (up_maxRequests e) (up_kind e) (up_canaryClass e).

Definition mem_claimSuccessfulUse (pairId : string) (at_ : Z) (expected : SuccessfulUsePolicy) s :
    MemoryPairStore * exc SuccessfulUseClaim :=
  if negb (valid_time at_) then (s, Throw (PlainError "Successful-use timestamp is invalid"))
  else
    match canonicalAuthorizationJwk (up_pubJwk expected) with
    | Throw e => (s, Throw e)
    | Ret k =>
        let captured := with_pubJwk (jwk_value k) expected in
        match om_get pairId (mp_pairs s) with
        | None => (s, Ret missing)
        | Some current =>
            let isExpired := bool_decide (sp_status current = expired) in
            if (isExpired && elapsed (sp_expiresAt current) at_)%bool then (s, Ret time_expired)
            else if (isExpired && cap_reached (sp_maxRequests current) (sp_requests current))%bool
            then (s, Ret usage_exhausted)
            else if decide (sp_status current ≠ active) then (s, Ret inactive)
            else if elapsed (sp_expiresAt current) at_
            then (put_pair pairId (with_status expired current) s, Ret time_expired)
            else if cap_reached (sp_maxRequests current) (sp_requests current)
            then (put_pair pairId (with_status expired current) s, Ret usage_exhausted)
            else
              match successfulUsePolicyMatches current captured with
              | Throw e => (s, Throw e)
              | Ret false => (s, Ret policy_changed)
              | Ret true =>
                  let requests := (sp_requests current + 1)%Z in
                  let next := with_failures 0 (Some (Dec 0 0)) (Some None)
                                (with_activity requests (Some at_) current) in
                  let next := if cap_reached (sp_maxRequests current) requests
                              then with_status expired next else next in
                  (put_pair pairId next s, Ret claimed)
              end
        end
    end.

Definition mem_expireIfElapsed (pairId : string) (now : Z) s : MemoryPairStore * exc bool :=
  if negb (valid_time now) then (s, Throw (PlainError "Expiry check timestamp is invalid"))
  else
    match om_get pairId (mp_pairs s) with
    | Some p =>
        if (negb (isActive p) || negb (elapsed (sp_expiresAt p) now))%bool then (s, Ret false)
        else (put_pair pairId (with_status expired p) s, Ret true)
    | None => (s, Ret false)
    end.

Definition mem_expireIfUsageExhausted (pairId : string) s : MemoryPairStore * exc bool :=
  match om_get pairId (mp_pairs s) with
  | Some p =>
      if (negb (isActive p) || negb (cap_reached (sp_maxRequests p) (sp_requests p)))%bool then (s, Ret false)
      else (put_pair pairId (with_status expired p) s, Ret true)
  | None => (s, Ret false)
  end.

Definition mem_lockIfFailureThreshold (pairId : string) (minimumFailures : Z) s : MemoryPairStore * exc bool :=
  if negb (is_safe_integer minimumFailures && bool_decide (1 <= minimumFailures)%Z)%bool
  then (s, Throw (PlainError "Failure threshold is invalid"))
  else
    match om_get pairId (mp_pairs s) with
    | Some p =>
        if (negb (isActive p) || bool_decide (sp_failedSigs p < minimumFailures)%Z)%bool then (s, Ret false)
        else (put_pair pairId (with_status locked p) s, Ret true)
    | None => (s, Ret false)
    end.

#[export] Instance MemoryPairStore_store : PairStore MemoryPairStore := {
  store_get := mem_get; store_set := mem_set; store_delete := mem_delete; store_list := mem_list;
  store_getPending := mem_getPending; store_setPending := mem_setPending;
  store_deletePending := mem_deletePending; store_listPending := mem_listPending;
}.

#[export] Instance MemoryPairStore_atomic : AtomicPairStore MemoryPairStore := {
  atomicMutate := mem_atomicMutate; approvePending := mem_approvePending; rotatePair := mem_rotatePair;
  store_claimSuccessfulUse := mem_claimSuccessfulUse; expireIfElapsed := mem_expireIfElapsed;
  expireIfUsageExhausted := mem_expireIfUsageExhausted;
  lockIfFailureThreshold := mem_lockIfFailureThreshold;
}.

(** ** The texts of pairs and pending registrations

    What the comparisons of JSON texts decide. *)

Definition status_text (st : PairStatus) : string :=
  match st with active => "active" | locked => "locked" | expired => "expired" | rotated => "rotated" | revoked => "revoked" end.
Definition kind_text (k : PairKind) : string := match k with legitimate => "legitimate" | ghost => "ghost" end.
Definition canary_text (c : CanaryClass) : string :=
  match c with env_file => "env_file" | docs => "docs" | registry_exfil => "registry_exfil" end.
Definition opt_field {A} (f : A → jsval) (o : option A) : jsval := match o with Some x => f x | None => JUndef end.
Definition time_field (z : Z) : jsval := JNum (int z).
Definition null_field (o : option Z) : jsval := match o with Some z => time_field z | None => JNull end.

(** The objects that the records stand for; [JSON.stringify] leaves the
    undefined members out. *)
Definition pair_object (p : StoredPair) : list (string * jsval) :=
  [("id", JStr (sp_id p)); ("name", JStr (sp_name p)); ("scope", JStr (sp_scope p)); ("mode", JStr (sp_mode p));
   ("secretHash", JStr (sp_secretHash p)); ("pubJwk", sp_pubJwk p); ("status", JStr (status_text (sp_status p)));
   ("created", time_field (sp_created p)); ("lastActive", null_field (sp_lastActive p));
   ("requests", time_field (sp_requests p)); ("failedSigs", time_field (sp_failedSigs p));
   ("cumulativeFailures", opt_field (λ d, JNum (Fin d)) (sp_cumulativeFailures p));
   ("firstFailureAt", opt_field null_field (sp_firstFailureAt p)); ("expiresAt", opt_field time_field (sp_expiresAt p));
   ("maxRequests", opt_field time_field (sp_maxRequests p)); ("kind", opt_field (λ k, JStr (kind_text k)) (sp_kind p));
   ("canaryClass", opt_field (λ c, JStr (canary_text c)) (sp_canaryClass p))].
Definition registration_object (r : PairRegistration) : list (string * jsval) :=
  [("name", JStr (r_name r)); ("scope", JStr (r_scope r)); ("mode", JStr (r_mode r)); ("secretHash", JStr (r_secretHash r));
   ("pubJwk", r_pubJwk r); ("expiresAt", opt_field time_field (r_expiresAt r));
   ("maxRequests", opt_field time_field (r_maxRequests r)); ("kind", opt_field (λ k, JStr (kind_text k)) (r_kind r));
   ("canaryClass", opt_field (λ c, JStr (canary_text c)) (r_canaryClass r))].

Definition defined_members (l : list (string * jsval)) : list (string * jsval) := filter (λ kv, kv.2 ≠ JUndef) l.
Definition pending_object (f : list (string * jsval) → list (string * jsval)) (pd : Pending) : list (string * jsval) :=
  [("registration", JObj (f (registration_object (pd_registration pd)))); ("requestedAt", time_field (pd_requestedAt pd))].

(** A pair, or a pending registration, of JSON data: its numbers are finite and
    its key is a JSON value. *)
Definition pair_data (p : StoredPair) : Prop := jwf (JObj (defined_members (pair_object p))).
Definition pending_data (pd : Pending) : Prop := jwf (JObj (pending_object defined_members pd)).

Lemma stringify_defined_members l : stringify_opt (JObj (defined_members l)) = stringify_opt (JObj l).
Proof.
  unfold defined_members. cbn [stringify_opt]. do 4 f_equal.
  induction l as [|[k v] l IH]; [done|]. rewrite filter_cons. cbn [List.map omap list_omap option_map snd].
  destruct (decide (v ≠ JUndef)) as [Hv|Hv].
  - cbn [List.map omap list_omap]. by rewrite IH.
  - apply dec_stable in Hv as ->. cbn. exact IH.
Qed.

Lemma own_defined l k : NoDup l.*1 → own (defined_members l) k = own l k.
Proof.
  unfold defined_members, own. induction l as [|[k' v] l IH]; [done|]. csimpl. intros [Hni Hnd]%NoDup_cons.
  rewrite filter_cons. cbn [snd]. destruct (decide (v ≠ JUndef)) as [Hv|Hv]; cbn [om_get]; case_decide; subst; [done|by apply IH| |by apply IH].
  apply dec_stable in Hv as ->. rewrite IH by done. apply om_get_None in Hni. by rewrite Hni.
Qed.

(** The values of an object are recovered from its text. *)
Lemma object_text_inj l l' : NoDup l.*1 → NoDup l'.*1 → jwf (JObj (defined_members l)) → jwf (JObj (defined_members l')) →
  stringify (JObj l) = stringify (JObj l') → ∀ k, own l k = own l' k.
Proof.
  intros Hl Hl' Hw Hw' Heq k.
  assert (∀ l, stringify (JObj l) = stringify (JObj (defined_members l))) as Hd.
  { intros l0. unfold stringify. by rewrite stringify_defined_members. }
  rewrite (Hd l), (Hd l') in Heq.
  apply stringify_inj in Heq; [|done..]. injection Heq as Heq. by rewrite <-(own_defined l), Heq, own_defined.
Qed.

Lemma opt_field_inj {A} (f : A → jsval) o o' : (∀ x y, f x = f y → x = y) → (∀ x, f x ≠ JUndef) →
  opt_field f o = opt_field f o' → o = o'.
Proof. intros Hi Hu. destruct o, o'; simpl; [intros ->%Hi; done|by intros ?%Hu|intros H; by destruct (Hu a)|done]. Qed.
Lemma time_field_inj x y : time_field x = time_field y → x = y.
Proof. by intros [= ->]. Qed.
Lemma null_field_inj x y : null_field x = null_field y → x = y.
Proof. destruct x, y; unfold null_field, time_field, int; congruence. Qed.
Lemma status_text_inj x y : status_text x = status_text y → x = y.
Proof. by destruct x, y. Qed.
Lemma kind_text_inj x y : kind_text x = kind_text y → x = y.
Proof. by destruct x, y. Qed.
Lemma canary_text_inj x y : canary_text x = canary_text y → x = y.
Proof. by destruct x, y. Qed.

Lemma pair_object_keys p : NoDup (pair_object p).*1.
Proof. apply (bool_decide_unpack _). vm_compute. exact I. Qed.
Lemma registration_object_keys r : NoDup (registration_object r).*1.
Proof. apply (bool_decide_unpack _). vm_compute. exact I. Qed.

(** An optional member determines the field. *)
Ltac field :=
  intros Hf; eapply opt_field_inj in Hf; [exact Hf| |by intros []]; intros a b;
  first [apply time_field_inj|apply null_field_inj|destruct a, b; cbn; congruence|congruence].
Lemma kind_field_inj x y : opt_field (λ k, JStr (kind_text k)) x = opt_field (λ k, JStr (kind_text k)) y → x = y.
Proof. field. Qed.
Lemma canary_field_inj x y : opt_field (λ k, JStr (canary_text k)) x = opt_field (λ k, JStr (canary_text k)) y → x = y.
Proof. field. Qed.
Lemma times_field_inj x y : opt_field time_field x = opt_field time_field y → x = y.
Proof. field. Qed.
Lemma first_field_inj x y : opt_field null_field x = opt_field null_field y → x = y.
Proof. field. Qed.
Lemma score_field_inj x y : opt_field (λ d, JNum (Fin d)) x = opt_field (λ d, JNum (Fin d)) y → x = y.
Proof. field. Qed.

Lemma pair_text_inj p q : pair_data p → pair_data q →
  stringify (JObj (pair_object p)) = stringify (JObj (pair_object q)) → p = q.
Proof.
  intros Hp Hq Heq.
  pose proof (object_text_inj _ _ (pair_object_keys p) (pair_object_keys q) Hp Hq Heq) as H. clear Hp Hq Heq.
  pose proof (H "id" : JStr (sp_id p) = JStr (sp_id q)) as H1. pose proof (H "name" : JStr (sp_name p) = JStr (sp_name q)) as H2. pose proof (H "scope" : JStr (sp_scope p) = JStr (sp_scope q)) as H3. pose proof (H "mode" : JStr (sp_mode p) = JStr (sp_mode q)) as H4.
  pose proof (H "secretHash" : JStr (sp_secretHash p) = JStr (sp_secretHash q)) as H5. pose proof (H "pubJwk" : sp_pubJwk p = sp_pubJwk q) as H6. pose proof (H "status" : JStr (status_text (sp_status p)) = JStr (status_text (sp_status q))) as H7.
  pose proof (H "created") as H8. pose proof (H "lastActive") as H9. pose proof (H "requests") as H10.
  pose proof (H "failedSigs") as H11. pose proof (score_field_inj _ _ (H "cumulativeFailures")) as H12.
  pose proof (first_field_inj _ _ (H "firstFailureAt")) as H13. pose proof (times_field_inj _ _ (H "expiresAt")) as H14.
  pose proof (times_field_inj _ _ (H "maxRequests")) as H15. pose proof (kind_field_inj _ _ (H "kind")) as H16.
  pose proof (canary_field_inj _ _ (H "canaryClass")) as H17. clear H.
  apply null_field_inj in H9. apply time_field_inj in H8, H10, H11.
  injection H7 as H7%status_text_inj. destruct p, q. cbn in *. by simplify_eq.
Qed.

Lemma registration_text_inj r r' :
  (∀ k, own (registration_object r) k = own (registration_object r') k) → r = r'.
Proof.
  intros H. pose proof (H "name" : JStr (r_name r) = JStr (r_name r')) as H2. pose proof (H "scope" : JStr (r_scope r) = JStr (r_scope r')) as H3. pose proof (H "mode" : JStr (r_mode r) = JStr (r_mode r')) as H4.
  pose proof (H "secretHash" : JStr (r_secretHash r) = JStr (r_secretHash r')) as H5. pose proof (H "pubJwk" : r_pubJwk r = r_pubJwk r') as H6. pose proof (times_field_inj _ _ (H "expiresAt")) as H14.
  pose proof (times_field_inj _ _ (H "maxRequests")) as H15. pose proof (kind_field_inj _ _ (H "kind")) as H16.
  pose proof (canary_field_inj _ _ (H "canaryClass")) as H17. clear H.
  destruct r, r'. cbn in *. by simplify_eq.
Qed.

Lemma pending_text_inj a b : pending_data a → pending_data b →
  stringify (JObj (pending_object id a)) = stringify (JObj (pending_object id b)) → a = b.
Proof.
  assert (∀ pd, stringify (JObj (pending_object id pd)) = stringify (JObj (pending_object defined_members pd))) as Hd.
  { intros [r t]. unfold stringify. f_equal.
    change (Some ("{" +:+ str_join "," (omap id [option_map (λ x : string, quote "registration" +:+ ":" +:+ x)
      (stringify_opt (JObj (registration_object r))); option_map (λ x : string, quote "requestedAt" +:+ ":" +:+ x)
      (stringify_opt (time_field t))]) +:+ "}") = Some ("{" +:+ str_join "," (omap id [option_map
      (λ x : string, quote "registration" +:+ ":" +:+ x) (stringify_opt (JObj (defined_members (registration_object r))));
      option_map (λ x : string, quote "requestedAt" +:+ ":" +:+ x) (stringify_opt (time_field t))]) +:+ "}")).
    by rewrite stringify_defined_members. }
  intros Ha Hb Heq. rewrite (Hd a), (Hd b) in Heq. apply stringify_inj in Heq; [|exact Ha|exact Hb]. destruct a as [r t], b as [r' t'].
  assert (defined_members (registration_object r) = defined_members (registration_object r') ∧ t = t') as [Hr ->].
  { unfold pending_object, time_field, int in Heq. cbn [pd_registration pd_requestedAt] in Heq.
    revert Heq. generalize (defined_members (registration_object r)), (defined_members (registration_object r')).
    intros x y Heq. by simplify_eq. }
  f_equal. apply registration_text_inj. intros k.
  rewrite <-(own_defined (registration_object r) k (registration_object_keys r)).
  rewrite <-(own_defined (registration_object r') k (registration_object_keys r')). by rewrite Hr.
Qed.

(** ** The abstract content *)

Definition om_map {V} (m : list (string * V)) : gmap string V := list_to_map m.

Lemma om_map_lookup {V} (m : list (string * V)) k : om_map m !! k = om_get k m.
Proof.
  induction m as [|[k' v] m IH]; [done|]. unfold om_map in *. simpl.
  case_decide; subst; [by rewrite lookup_insert_eq|]. by rewrite lookup_insert_ne.
Qed.

Lemma om_map_set {V} (m : list (string * V)) k v : om_map (om_set k v m) = <[k := v]> (om_map m).
Proof.
  apply map_eq. intros k'. rewrite om_map_lookup. destruct (decide (k = k')) as [->|Hne].
  - by rewrite om_get_set, lookup_insert_eq.
  - by rewrite om_get_set_ne, lookup_insert_ne, om_map_lookup.
Qed.

Lemma om_map_delete {V} (m : list (string * V)) k : om_wf m → om_map (om_delete k m) = delete k (om_map m).
Proof.
  intros Hwf. apply map_eq. intros k'. rewrite om_map_lookup. destruct (decide (k = k')) as [->|Hne].
  - by rewrite om_get_delete, lookup_delete_eq.
  - by rewrite om_get_delete_ne, lookup_delete_ne, om_map_lookup.
Qed.

Lemma om_has_lookup {V} (m : list (string * V)) k : om_has k m = bool_decide (is_Some (om_map m !! k)).
Proof. unfold om_has. by rewrite om_map_lookup. Qed.

Lemma om_map_active (m : list (string * StoredPair)) : om_wf m →
  active_count (om_map m) = Z.of_nat (length (filter (λ p, isActive p = true) m.*2)).
Proof.
  intros Hwf. unfold active_count. f_equal. unfold om_wf in Hwf.
  induction m as [|[k p] m IH]; [done|].
  csimpl in *. apply NoDup_cons in Hwf as [Hni Hwf]. unfold om_map in *. simpl.
  assert (list_to_map (M := pairs) m !! k = None) as Hk by (by apply not_elem_of_list_to_map_1).
  rewrite filter_cons. destruct (decide (isActive p = true)) as [Ha|Ha].
  - rewrite map_filter_insert_True by done. simpl.
    rewrite map_size_insert_None; [by rewrite IH|]. rewrite map_lookup_filter, Hk. done.
  - rewrite map_filter_insert_False by done. rewrite delete_id by done. by apply IH.
Qed.

#[export] Instance MemoryPairStore_model : StoreModel MemoryPairStore := {
  abs s := om_map (mp_pairs s);
  abs_pending s := om_map (mp_pending s);
  store_inv s := om_wf (mp_pairs s) ∧ om_wf (mp_pending s) ∧
    Forall (λ kp, sp_id kp.2 = kp.1) (mp_pairs s);
}.

(** ** Refinement *)

Lemma put_pair_inv k p s : sp_id p = k → store_inv s → store_inv (put_pair k p s).
Proof.
  intros Hk (Hp & Hpend & Hids). split_and!; [by apply om_wf_set|done|]. simpl.
  clear -Hk Hids. induction Hids as [|[k' p'] m Hid Hids IH]; simpl in *; [by repeat constructor|].
  case_decide; constructor; simpl; naive_solver.
Qed.

Lemma put_pair_abs k p s : abs (put_pair k p s) = <[k := p]> (abs s).
Proof. apply om_map_set. Qed.

Lemma abs_lookup s k : abs s !! k = om_get k (mp_pairs s).
Proof. apply om_map_lookup. Qed.

Lemma mem_id s k p : store_inv s → abs s !! k = Some p → sp_id p = k.
Proof.
  rewrite abs_lookup. intros (_ & _ & Hids) Hg%om_get_Some_elem.
  rewrite Forall_forall in Hids. apply (Hids _ Hg).
Qed.

Lemma mem_status_refines (cond : StoredPair → bool) st k :
  refines (λ s, match om_get k (mp_pairs s) with
                | Some p => if cond p then (put_pair k (with_status st p) s, Ret true) else (s, Ret false)
                | None => (s, Ret false)
                end) (status_spec cond st k).
Proof.
  intros s Hs. unfold status_spec. rewrite abs_lookup.
  destruct (om_get k (mp_pairs s)) as [p|] eqn:Hget; [|done].
  destruct (cond p); [|done]. split_and!; [|done|cbn [fst snd]; by rewrite put_pair_abs].
  apply put_pair_inv; [|done]. change (sp_id p = k). apply (mem_id s); [done|]. by rewrite abs_lookup.
Qed.

Lemma refines_ext {A} (op op' : MemoryPairStore → MemoryPairStore * exc A) spec :
  (∀ s, op s = op' s) → refines op spec → refines op' spec.
Proof. intros Hop Href s Hs. rewrite <-Hop. by apply Href. Qed.

Lemma mem_expireIfElapsed_refines k now : valid_time now = true →
  refines (mem_expireIfElapsed k now) (status_spec (expirable now) expired k).
Proof.
  intros Hv. eapply refines_ext; [|apply mem_status_refines]. intros s.
  unfold mem_expireIfElapsed. rewrite Hv. simpl. destruct (om_get k (mp_pairs s)) as [p|]; [|done].
  unfold expirable. by destruct (isActive p), (elapsed _ _).
Qed.

Lemma mem_expireIfUsageExhausted_refines k :
  refines (mem_expireIfUsageExhausted k) (status_spec exhausted expired k).
Proof.
  eapply refines_ext; [|apply mem_status_refines]. intros s.
  unfold mem_expireIfUsageExhausted. destruct (om_get k (mp_pairs s)) as [p|]; [|done].
  unfold exhausted. by destruct (isActive p), (cap_reached _ _).
Qed.

Lemma mem_lock_refines k n : (is_safe_integer n && bool_decide (1 <= n)%Z)%bool = true →
  refines (mem_lockIfFailureThreshold k n) (status_spec (lockable n) locked k).
Proof.
  intros Hv. eapply refines_ext; [|apply mem_status_refines]. intros s.
  unfold mem_lockIfFailureThreshold. rewrite Hv. simpl. destruct (om_get k (mp_pairs s)) as [p|]; [|done].
  unfold lockable. destruct (isActive p); [|done]. simpl.
  repeat case_bool_decide; try lia; done.
Qed.

Lemma mem_get_refines k : refines (mem_get k) (get_spec k).
Proof. intros s Hs. split_and!; [done|done|]. unfold get_spec. by rewrite abs_lookup. Qed.

Lemma mem_set_refines p : refines (mem_set p) (set_spec p).
Proof.
  intros s Hs. split_and!; [by apply put_pair_inv|done|]. unfold set_spec, mem_set. simpl fst.
  by rewrite put_pair_abs.
Qed.

Lemma mem_delete_refines k : refines (mem_delete k) (delete_spec k).
Proof.
  intros s (Hp & Hpend & Hids). split_and!; [|done|].
  - split_and!; [by apply om_wf_filter|done|]. simpl. apply Forall_forall. intros x [_ Hx]%list_elem_of_filter.
    rewrite Forall_forall in Hids. by apply Hids.
  - unfold delete_spec. simpl. by rewrite om_map_delete.
Qed.

Lemma mem_atomicMutate_refines k f : refines (mem_atomicMutate k f) (mutate_spec k f).
Proof.
  intros s Hs. unfold mem_atomicMutate, mutate_spec. rewrite abs_lookup.
  destruct (om_get k (mp_pairs s)) as [p|]; [|done]. destruct (f p) as [[p'|]|]; [|done..].
  destruct (decide (sp_id p' = k)) as [Hk|Hk].
  - rewrite decide_False by naive_solver.
    split_and!; [by apply put_pair_inv|done|]. simpl fst. by rewrite put_pair_abs.
  - by rewrite decide_True.
Qed.

Lemma mem_rotate_refines old new : refines (mem_rotatePair old new) (rotate_spec old new).
Proof.
  intros s Hs. unfold mem_rotatePair, rotate_spec. rewrite !abs_lookup.
  destruct (om_get (sp_id old) (mp_pairs s)) as [cur|] eqn:Hget; [|done].
  destruct (decide (cur = old)) as [->|Hne].
  2: { rewrite decide_True by done. by rewrite bool_decide_false. }
  rewrite decide_False by naive_solver. rewrite bool_decide_true by done.
  rewrite om_has_lookup, om_map_lookup.
  destruct (isActive old), (hasInitialPairState new), (rotationPolicyMatches old new); try done.
  destruct (om_get (sp_id new) (mp_pairs s)) as [q|] eqn:Hnew.
  { rewrite bool_decide_true by eauto. by rewrite bool_decide_false. }
  rewrite bool_decide_false by (by intros []). rewrite bool_decide_true by done.
  cbn [fst snd negb andb orb].
  split_and!; [|done|by rewrite !put_pair_abs].
  by apply put_pair_inv, put_pair_inv.
Qed.

(** A claim whose expected key is canonical behaves exactly as specified. *)
Lemma policy_matches_canonical p e k : canonicalAuthorizationJwk (up_pubJwk e) = Ret k →
  successfulUsePolicyMatches p (with_pubJwk (jwk_value k) e) = successfulUsePolicyMatches p e.
Proof.
  intros Hk. unfold successfulUsePolicyMatches, with_pubJwk, sameKeys.
  cbn [up_status up_scope up_mode up_secretHash up_pubJwk up_expiresAt up_maxRequests up_kind up_canaryClass].
  by rewrite Hk, (canonical_jwk_value _ _ Hk).
Qed.

Lemma mem_claim_refines k at_ e ck : valid_time at_ = true →
  canonicalAuthorizationJwk (up_pubJwk e) = Ret ck →
  refines (mem_claimSuccessfulUse k at_ e) (claim_spec k at_ e).
Proof.
  intros Hv Hck s Hs. unfold mem_claimSuccessfulUse, claim_spec. rewrite Hv, Hck, abs_lookup. simpl negb.
  cbv iota. destruct (om_get k (mp_pairs s)) as [p|] eqn:Hget; [|done].
  assert (∀ p', sp_id p' = sp_id p → store_inv (put_pair k p' s)) as Hput.
  { intros p' Hp'. apply put_pair_inv; [|done]. rewrite Hp'. apply (mem_id s); [done|]. by rewrite abs_lookup. }
  unfold claim_pair. rewrite policy_matches_canonical by done.
  case_bool_decide as He; simpl andb; cbv iota zeta.
  - destruct (elapsed _ _) eqn:Hel; [by rewrite (decide_True (P := _ ∧ _))|]. rewrite (decide_False (P := _ ∧ _)) by (intros [? ?]; congruence).
    destruct (cap_reached _ _) eqn:Hc; [by rewrite (decide_True (P := _ ∧ _))|]. rewrite (decide_False (P := _ ∧ _)) by (intros [? ?]; congruence).
    by rewrite !decide_True by congruence.
  - rewrite !(decide_False (P := _ ∧ _)) by (intros [? ?]; congruence).
    destruct (decide (sp_status p ≠ active)); [done|].
    destruct (elapsed _ _); [split_and!; [by apply Hput|done|]; simpl; by rewrite om_map_set|].
    destruct (cap_reached _ (sp_requests p)); [split_and!; [by apply Hput|done|]; simpl; by rewrite om_map_set|].
    destruct (successfulUsePolicyMatches p e) as [[]|]; [|done..]. cbn [mbind exc_bind].
    fold (used at_ p). change (if cap_reached _ _ then _ else _) with (used at_ p).
    split_and!; [apply Hput|done|simpl; by rewrite om_map_set].
    unfold used. by destruct (cap_reached _ _).
Qed.

Lemma mem_approve_spec token expected p maxActive s s' : store_inv s →
  mem_approvePending token expected p maxActive s = (s', Ret true) →
  approve_spec token expected p maxActive (abs s) (abs_pending s) = Ret (Some (abs s', abs_pending s')).
Proof.
  intros (Hp & Hpend & Hids). unfold mem_approvePending, approve_spec.
  simpl abs_pending. rewrite om_map_lookup.
  destruct (om_get token (mp_pending s)) as [pd|]; [|done].
  case_decide; [done|].
  destruct (if hasInitialPairState p then _ else _) as [[]|]; [|done..]. cbn [mbind exc_bind negb].
  rewrite <-om_map_active by done. change (om_map (mp_pairs s)) with (abs s). case_decide; [done|].
  rewrite om_has_lookup. change (om_map (mp_pairs s)) with (abs s).
  case_bool_decide; [done|]. intros [= <-].
  rewrite decide_False by done. simpl. by rewrite om_map_set, om_map_delete.
Qed.

Lemma mem_approve_inv token expected p maxActive s : store_inv s →
  store_inv (mem_approvePending token expected p maxActive s).1.
Proof.
  intros Hs. unfold mem_approvePending. repeat case_match; try done.
  destruct Hs as (Hp & Hpend & Hids). simpl. split_and!; [by apply om_wf_set|by apply om_wf_filter|].
  by apply (put_pair_inv (sp_id p) p s).
Qed.

#[export] Instance MemoryPairStore_laws : PairStoreLaws MemoryPairStore.
Proof.
  split.
  - intros k. apply refines_implements, mem_get_refines.
  - intros p. apply refines_implements, mem_set_refines.
  - intros k. apply refines_implements, mem_delete_refines.
  - intros s l (Hp & _ & Hids) [= <-].
    assert (sp_id <$> (mp_pairs s).*2 = (mp_pairs s).*1) as Heq.
    { clear Hp. induction Hids as [|[k p] m Hid Hids IH]; [done|]. csimpl in *. by rewrite IH, Hid. }
    rewrite Heq. split; [done|]. intros p. rewrite list_elem_of_fmap. split.
    + intros ([k p'] & -> & Hin). exists k. rewrite abs_lookup. by apply om_get_elem.
    + intros (k & Hk). rewrite abs_lookup in Hk. apply om_get_Some_elem in Hk. by exists (k, p).
  - done.
Qed.

#[export] Instance MemoryPairStore_atomic_laws : AtomicPairStoreLaws MemoryPairStore.
Proof.
  split.
  - intros k f. apply refines_implements, mem_atomicMutate_refines.
  - intros old new. apply refines_implements, mem_rotate_refines.
  - intros k at_ e Hv. destruct (canonicalAuthorizationJwk (up_pubJwk e)) as [ck|err] eqn:Hck.
    + by eapply refines_implements, mem_claim_refines.
    + intros s Hs. change (store_claimSuccessfulUse k at_ e s) with (mem_claimSuccessfulUse k at_ e s).
      unfold mem_claimSuccessfulUse, valid_time. rewrite Hv, Hck. cbn [negb fst snd].
      split; [done|]. split; [done|by left].
  - intros k now Hv. by apply refines_implements, mem_expireIfElapsed_refines.
  - intros k. apply refines_implements, mem_expireIfUsageExhausted_refines.
  - intros k n Hv. by apply refines_implements, mem_lock_refines.
  - intros k at_ e Hv s Hs. simpl. unfold mem_claimSuccessfulUse, valid_time. rewrite Hv. simpl. auto.
  - intros k now Hv s Hs. simpl. unfold mem_expireIfElapsed, valid_time. rewrite Hv. simpl. auto.
  - intros k n Hv s Hs. simpl. unfold mem_lockIfFailureThreshold. rewrite Hv. simpl. auto.
  - intros token expected p maxActive s Hs. split; [by apply mem_approve_inv|].
    destruct (approvePending token expected p maxActive s) as [s' [[]|]] eqn:E; simpl; try done.
    by apply mem_approve_spec.
Qed.

(** ** Properties *)

(** The operations on pending registrations, on the abstract map of them. *)
Definition refines_pending {A} (op : MemoryPairStore → MemoryPairStore * exc A)
    (spec : gmap string Pending → gmap string Pending * exc A) : Prop :=
  ∀ s, store_inv s → store_inv (op s).1 ∧ abs (op s).1 = abs s ∧ (abs_pending (op s).1, (op s).2) = spec (abs_pending s).

(** The claim with the checks on its arguments. *)
Definition checked_claim_spec (k : string) (at_ : Z) (e : SuccessfulUsePolicy) (m : pairs) : pairs * exc SuccessfulUseClaim :=
  if negb (valid_time at_) then reject (PlainError "Successful-use timestamp is invalid") m
  else match canonicalAuthorizationJwk (up_pubJwk e) with
       | Throw err => reject err m
       | Ret _ => claim_spec k at_ e m
       end.

(** [approvePending] on both maps; a failure, of either kind, changes nothing. *)
Definition refines_approve (op : MemoryPairStore → MemoryPairStore * exc bool)
    (spec : pairs → gmap string Pending → exc (option (pairs * gmap string Pending))) : Prop :=
  ∀ s, store_inv s → store_inv (op s).1 ∧
    match spec (abs s) (abs_pending s) with
    | Ret (Some (m, pend)) => (op s).2 = Ret true ∧ abs (op s).1 = m ∧ abs_pending (op s).1 = pend
    | Ret None => op s = (s, Ret false)
    | Throw e => op s = (s, Throw e)
    end.

Lemma om_map_to_list {V} (m : list (string * V)) : om_wf m → m ≡ₚ map_to_list (om_map m).
Proof. intros Hwf. symmetry. by apply map_to_list_to_map. Qed.

Lemma mem_approve_refines token expected p maxActive :
  refines_approve (mem_approvePending token expected p maxActive) (approve_spec token expected p maxActive).
Proof.
  intros s Hs. split; [by apply mem_approve_inv|]. destruct Hs as (Hp & Hpend & Hids).
  unfold mem_approvePending, approve_spec. simpl abs_pending. rewrite om_map_lookup.
  destruct (om_get token (mp_pending s)) as [pd|]; [|done]. case_decide; [done|].
  destruct (if hasInitialPairState p then _ else _) as [[]|]; [|done..]. cbn [mbind exc_bind negb].
  rewrite <-om_map_active by done. change (om_map (mp_pairs s)) with (abs s). case_decide; [done|].
  rewrite om_has_lookup. change (om_map (mp_pairs s)) with (abs s).
  case_bool_decide; [by rewrite decide_True|]. rewrite decide_False by done. simpl.
  by rewrite om_map_set, om_map_delete.
Qed.

Lemma mem_pending_refines :
  (∀ t, refines_pending (mem_getPending t) (λ m, (m, Ret (m !! t)))) ∧
  (∀ t r at_, refines_pending (mem_setPending t r at_) (λ m, (<[t := mkPending r at_]> m, Ret tt))) ∧
  (∀ t, refines_pending (mem_deletePending t) (λ m, (delete t m, Ret tt))).
Proof.
  split_and!; [intros t|intros t r at_|intros t]; intros s (Hp & Hpend & Hids).
  - split_and!; [done..|]. simpl. by rewrite om_map_lookup.
  - split_and!; [split_and!; [done|by apply om_wf_set|done]|done|]. simpl. by rewrite om_map_set.
  - split_and!; [split_and!; [done|by apply om_wf_filter|done]|done|]. simpl. by rewrite om_map_delete.
Qed.

Lemma mem_claim_checked k at_ e : refines (mem_claimSuccessfulUse k at_ e) (checked_claim_spec k at_ e).
Proof.
  destruct (valid_time at_) eqn:Hv.
  - destruct (canonicalAuthorizationJwk (up_pubJwk e)) as [ck|err] eqn:Hck.
    + pose proof (mem_claim_refines k at_ e ck Hv Hck) as H. unfold checked_claim_spec. by rewrite Hv, Hck.
    + intros s Hs. unfold mem_claimSuccessfulUse, checked_claim_spec. rewrite Hv, Hck. done.
  - intros s Hs. unfold mem_claimSuccessfulUse, checked_claim_spec. by rewrite Hv.
Qed.
Lemma mem_elapsed_checked k now : refines (mem_expireIfElapsed k now)
  (if valid_time now then status_spec (expirable now) expired k else reject (PlainError "Expiry check timestamp is invalid")).
Proof.
  destruct (valid_time now) eqn:Hv; [by apply mem_expireIfElapsed_refines|].
  intros s Hs. unfold mem_expireIfElapsed. by rewrite Hv.
Qed.
Lemma mem_lock_checked k n : refines (mem_lockIfFailureThreshold k n)
  (if (is_safe_integer n && bool_decide (1 <= n)%Z)%bool then status_spec (lockable n) locked k
   else reject (PlainError "Failure threshold is invalid")).
Proof.
  destruct (_ && _)%bool eqn:Hv; [by apply mem_lock_refines|].
  intros s Hs. unfold mem_lockIfFailureThreshold. by rewrite Hv.
Qed.

(** C7 The in-memory store implements the store specification, all fifteen
    operations of it: each keeps the representation invariant and does to the
    abstract maps of pairs and of pending registrations exactly what its
    specification says -- result, exception and invalid arguments included; the
    two listings return the contents, each entry once. *)
Theorem memory_store_refines :
  (∀ k, refines (mem_get k) (get_spec k)) ∧ (∀ p, refines (mem_set p) (set_spec p)) ∧
  (∀ k, refines (mem_delete k) (delete_spec k)) ∧
  (∀ s, store_inv s → ∃ l, mem_list s = (s, Ret l) ∧ l ≡ₚ (map_to_list (abs s)).*2) ∧
  (∀ t, refines_pending (mem_getPending t) (λ m, (m, Ret (m !! t)))) ∧
  (∀ t r at_, refines_pending (mem_setPending t r at_) (λ m, (<[t := mkPending r at_]> m, Ret tt))) ∧
  (∀ t, refines_pending (mem_deletePending t) (λ m, (delete t m, Ret tt))) ∧
  (∀ s, store_inv s → ∃ l, mem_listPending s = (s, Ret l) ∧ l ≡ₚ map_to_list (abs_pending s)) ∧
  (∀ k f, refines (mem_atomicMutate k f) (mutate_spec k f)) ∧
  (∀ t expected p maxActive, refines_approve (mem_approvePending t expected p maxActive) (approve_spec t expected p maxActive)) ∧
  (∀ old new, refines (mem_rotatePair old new) (rotate_spec old new)) ∧
  (∀ k at_ e, refines (mem_claimSuccessfulUse k at_ e) (checked_claim_spec k at_ e)) ∧
  (∀ k now, refines (mem_expireIfElapsed k now)
     (if valid_time now then status_spec (expirable now) expired k else reject (PlainError "Expiry check timestamp is invalid"))) ∧
  (∀ k, refines (mem_expireIfUsageExhausted k) (status_spec exhausted expired k)) ∧
  (∀ k n, refines (mem_lockIfFailureThreshold k n)
     (if (is_safe_integer n && bool_decide (1 <= n)%Z)%bool then status_spec (lockable n) locked k
      else reject (PlainError "Failure threshold is invalid"))).
Proof.
  destruct mem_pending_refines as (Hg & Hs & Hd).
  split_and!; [apply mem_get_refines|apply mem_set_refines|apply mem_delete_refines| |done|done|done|
    |apply mem_atomicMutate_refines|apply mem_approve_refines|apply mem_rotate_refines|apply mem_claim_checked
    |apply mem_elapsed_checked|apply mem_expireIfUsageExhausted_refines|apply mem_lock_checked].
  - intros s (Hp & _). eexists. split; [done|]. by apply fmap_Permutation, om_map_to_list.
  - intros s (_ & Hp & _). eexists. split; [done|]. by apply om_map_to_list.
Qed.

(** Approval is atomic and bounded: an approval that succeeds consumed the
    pending registration it was asked for and created the pair, in its initial
    state and as registered, under an unused identifier, while fewer than the
    maximum number of pairs were active. *)
Theorem approve_creates token expected p maxActive s s' : store_inv s →
  mem_approvePending token expected p maxActive s = (s', Ret true) →
  abs_pending s !! token = Some expected ∧ abs_pending s' = delete token (abs_pending s) ∧
  abs s' = <[sp_id p := p]> (abs s) ∧ abs s !! sp_id p = None ∧ (active_count (abs s) < maxActive)%Z ∧
  hasInitialPairState p = true ∧ pairMatchesRegistration p (pd_registration expected) = Ret true ∧ store_inv s'.
Proof.
  intros Hinv Happ. pose proof (mem_approve_spec _ _ _ _ _ _ Hinv Happ) as Hs.
  pose proof (mem_approve_inv token expected p maxActive s Hinv) as Hinv'. rewrite Happ in Hinv'.
  unfold approve_spec in Hs. destruct (abs_pending s !! token) as [pd|]; [|done].
  destruct (decide (pd ≠ expected)) as [|Heq]; [done|]. apply dec_stable in Heq as ->.
  apply exc_bind_Ret in Hs as (ok & Hok & Hs). destruct ok; [|done]. cbn [negb] in Hs.
  destruct (decide (maxActive <= active_count (abs s))%Z); [done|].
  destruct (decide (is_Some (abs s !! sp_id p))) as [|Hn]; [done|].
  injection Hs as Habs Hpend.
  destruct (hasInitialPairState p); [|done]. split_and!; try done; [by apply eq_None_not_Some|lia].
Qed.
