(* ===== verification/Nonce.v ===== *)
(** * Nonce stores
    (packages/server/src: memory-store.ts, nonce-store.ts, redis-nonce.ts;
     packages/core/src/nonce.ts)

    [NonceBackend] is the replay-store interface: one atomic check-and-consume.
    [NonceLaws] is the promise the verifier needs -- a consumed nonce is not
    accepted again before it expires.  A Redis key space with [SET NX PX]
    satisfies it outright; the in-memory backend sheds its oldest entries when
    it is full, so it satisfies [BoundedNonceLaws], the promise for a number of
    calls, and the bound is proved exact. *)

From S2P Require Import Prelude JsNum Encoding.
From stdpp Require Import base strings list gmap.
From Stdlib Require Import ZArith Lia.


(** ** The interface *)

(** [checkAndConsume nonce ttlMs] at the time [now]: true for a replay. *)
Class NonceBackend (N : Type) := {
  checkAndConsume : string → Z → Z → N → N * exc bool;
}.

(** What a backend promises.  [remembers s n t]: at times up to [t] the state
    [s] still knows the nonce [n]. *)
Class NonceLaws (N : Type) `{!NonceBackend N} := {
  remembers : N → string → Z → Prop;
  (** An accepted nonce is remembered for its time to live. *)
  accept_remembers n ttl now s s' :
    checkAndConsume n ttl now s = (s', Ret false) → remembers s' n (now + ttl);
  (** A remembered nonce is not accepted. *)
  remembered_not_accepted n ttl now s t :
    remembers s n t → (now <= t)%Z → (checkAndConsume n ttl now s).2 ≠ Ret false;
  (** Other calls do not make it forgotten. *)
  remembers_stable m ttl now s n t :
    remembers s n t → (now <= t)%Z → remembers (checkAndConsume m ttl now s).1 n t;
}.

(** The same promise of a backend that may forget after many calls.
    [recalls s n t k]: at times up to [t] the state [s] knows the nonce [n], and
    will after [k] more calls; [within k]: a nonce outlasts [k] calls. *)
Class BoundedNonceLaws (N : Type) `{!NonceBackend N} := {
  nonce_inv : N → Prop;
  within : nat → Prop;
  recalls : N → string → Z → nat → Prop;
  nonce_inv_stable m ttl now s : nonce_inv s → nonce_inv (checkAndConsume m ttl now s).1;
  accept_recalls n ttl now s s' k : nonce_inv s → within k →
    checkAndConsume n ttl now s = (s', Ret false) → recalls s' n (now + ttl) k;
  recalled_not_accepted n ttl now s t k : nonce_inv s →
    recalls s n t k → (now <= t)%Z → (checkAndConsume n ttl now s).2 ≠ Ret false;
  recalls_stable m ttl now s n t k : nonce_inv s →
    recalls s n t (S k) → (now <= t)%Z → recalls (checkAndConsume m ttl now s).1 n t k;
}.

(** A backend that does not forget keeps the promise for any number of calls. *)
#[export] Program Instance lawful_bounded `{NonceLaws N} : BoundedNonceLaws N := {
  nonce_inv _ := True; within _ := True; recalls s n t _ := remembers s n t;
}.
Next Obligation. done. Qed.
Next Obligation. simpl. intros. by eapply accept_remembers. Qed.
Next Obligation. simpl. intros. by eapply remembered_not_accepted. Qed.
Next Obligation. simpl. intros. by eapply remembers_stable. Qed.

(** ** memory-store.ts: MemoryNonceBackend *)

Definition MAX_NONCE_ENTRIES : nat := N.to_nat 100000.
(** [Math.ceil(MAX_NONCE_ENTRIES * 0.1)] *)
Definition EVICT_COUNT : nat := N.to_nat 10000.

Lemma nonce_caps : (0 < EVICT_COUNT < MAX_NONCE_ENTRIES)%nat.
Proof. unfold EVICT_COUNT, MAX_NONCE_ENTRIES. lia. Qed.
Lemma nonce_lifetime : (MAX_NONCE_ENTRIES - EVICT_COUNT = N.to_nat 90000)%nat.
Proof. unfold EVICT_COUNT, MAX_NONCE_ENTRIES. lia. Qed.
#[global] Opaque MAX_NONCE_ENTRIES EVICT_COUNT.

Definition MemoryNonceBackend : Type := list (string * Z).

(** The loop that deletes expired entries. *)
Definition purge (now : Z) (seen : list (string * Z)) : list (string * Z) :=
  filter (λ e, ¬ (e.2 < now)%Z) seen.

Definition memory_checkAndConsume (nonce : string) (ttlMs now : Z) (seen : MemoryNonceBackend) :
    MemoryNonceBackend * exc bool :=
  let seen := purge now seen in
  if om_has nonce seen then (seen, Ret true)
  else
    let seen := if decide (MAX_NONCE_ENTRIES ≤ length seen)%nat then drop EVICT_COUNT seen else seen in
    (om_set nonce (now + ttlMs)%Z seen, Ret false).

#[export] Instance memory_backend : NonceBackend MemoryNonceBackend := {
  checkAndConsume := memory_checkAndConsume;
}.

(** ** core/nonce.ts: NonceStore *)

Record NonceStore := mkNonceStore { ns_windowMs : Z; ns_seen : list (string * Z) }.

Definition NonceStore_evict (now : Z) (s : NonceStore) : NonceStore :=
  mkNonceStore (ns_windowMs s) (purge now (ns_seen s)).
Definition NonceStore_has (nonce : string) (now : Z) (s : NonceStore) : NonceStore * bool :=
  let s := NonceStore_evict now s in (s, om_has nonce (ns_seen s)).
Definition NonceStore_add (nonce : string) (now : Z) (s : NonceStore) : NonceStore :=
  mkNonceStore (ns_windowMs s) (om_set nonce (now + ns_windowMs s)%Z (ns_seen s)).
Definition NonceStore_size (now : Z) (s : NonceStore) : NonceStore * nat :=
  let s := NonceStore_evict now s in (s, length (ns_seen s)).

(** ** nonce-store.ts: ServerNonceStore *)

Record ServerNonceStore (N : Type) := mkServerNonceStore { sns_backend : N; sns_windowMs : Z }.
Arguments mkServerNonceStore {N}.
Arguments sns_backend {N}.
Arguments sns_windowMs {N}.

Definition ServerNonceStore_new {N} (backend : N) (windowMs : Z) : exc (ServerNonceStore N) :=
  if (negb (is_safe_integer windowMs) || bool_decide (windowMs <= 0)%Z)%bool
  then Throw (RangeError "Nonce retention window must be a positive safe integer")
  else Ret (mkServerNonceStore backend windowMs).

(** Any failure that is not already a replay-store verdict becomes
    [NonceStoreUnavailableError]. *)
Definition wrap_nonce_error (e : error) : error :=
  match e with
  | NonceStoreUnavailableError | AuthorizationQuarantineError _ _ => e
  | _ => NonceStoreUnavailableError
  end.

Definition ServerNonceStore_checkAndConsume `{NonceBackend B} (nonce : string) (now : Z)
    (s : ServerNonceStore B) : ServerNonceStore B * exc bool :=
  let '(b, r) := checkAndConsume nonce (sns_windowMs s) now (sns_backend s) in
  (mkServerNonceStore b (sns_windowMs s), catch r (λ e, Throw (wrap_nonce_error e))).

(** ** redis-nonce.ts *)

Definition DEFAULT_NONCE_SAFETY_BUFFER_MS : Z := 10000.
Definition DEFAULT_REDIS_NONCE_TIMEOUT_MS : Z := 2000.

Definition deriveNonceRetentionMs (sigWindowMs safetyBufferMs : Z) : exc Z :=
  _ ← positiveSafeInteger sigWindowMs "sigWindowMs";
  if (negb (is_safe_integer safetyBufferMs) || bool_decide (safetyBufferMs < 0)%Z)%bool
  then Throw (RangeError "safetyBufferMs must be a non-negative safe integer")
  else
    let retentionMs := (sigWindowMs * 2 + safetyBufferMs)%Z in
    if negb (is_safe_integer retentionMs)
    then Throw (RangeError "Derived nonce retention exceeds the safe integer range")
    else Ret retentionMs.

(** What [SET key 1 NX PX ttl], raced against the command timeout, gives the
    client: the server's reply, an unexpected reply, or a failure. *)
Inductive set_reply := SetOK | SetNull | SetOther | SetError | SetTimeout.

Definition RedisNonceStore_result (reply : set_reply) : exc bool :=
  match reply with
  | SetOK => Ret false
  | SetNull => Ret true
  | SetOther | SetError | SetTimeout => Throw NonceStoreUnavailableError
  end.

(** The Redis client is a parameter: the connection's state, and
    [SET key 1 NX PX ttl] at a server time. *)
Class RedisClient (K : Type) := {
  redis_set_nx_px : string → Z → Z → K → K * set_reply;
}.

(** The documented behaviour of [SET NX PX] the store relies on: a key that was
    set lives until its expiry, and a live key is not set again. *)
Class RedisClientLaws (K : Type) `{!RedisClient K} := {
  live : K → string → Z → Prop;
  set_ok_live k ttl now s s' : redis_set_nx_px k ttl now s = (s', SetOK) → live s' k (now + ttl);
  live_not_set k ttl now s t : live s k t → (now <= t)%Z → (redis_set_nx_px k ttl now s).2 ≠ SetOK;
  live_stable k' ttl now s k t : live s k t → (now <= t)%Z → live (redis_set_nx_px k' ttl now s).1 k t;
}.

Record RedisNonceStore (K : Type) := mkRedisNonceStore { rn_redis : K; rn_prefix : string }.
Arguments mkRedisNonceStore {K}.
Arguments rn_redis {K}.
Arguments rn_prefix {K}.

Definition RedisNonceStore_new {K} (redis : K) (prefix : string) (commandTimeoutMs : Z) :
    exc (RedisNonceStore K) :=
  _ ← positiveSafeInteger commandTimeoutMs "commandTimeoutMs";
  if decide (prefix = EmptyString)
  then Throw (RangeError "Redis nonce key prefix must not be empty")
  else Ret (mkRedisNonceStore redis prefix).

Definition RedisNonceStore_checkAndConsume `{RedisClient K} (nonce : string) (ttlMs now : Z)
    (s : RedisNonceStore K) : RedisNonceStore K * exc bool :=
  match positiveSafeInteger ttlMs "ttlMs" with
  | Throw e => (s, Throw e)
  | Ret _ =>
      let '(redis, reply) := redis_set_nx_px (rn_prefix s +:+ nonce) ttlMs now (rn_redis s) in
      (mkRedisNonceStore redis (rn_prefix s), RedisNonceStore_result reply)
  end.

#[export] Instance redis_backend `{RedisClient K} : NonceBackend (RedisNonceStore K) := {
  checkAndConsume := RedisNonceStore_checkAndConsume;
}.

Definition is_namespace_char (c : ascii) : bool := (is_alnum c || one_of "._-" c)%bool.
(** [/^[A-Za-z0-9][A-Za-z0-9._-]{0,63}$/] *)
Definition NAMESPACE_RE (s : string) : bool :=
  match s with
  | EmptyString => false
  | String c t => (is_alnum c && all_chars is_namespace_char t && bool_decide (str_len t <= 63)%Z)%bool
  end.

Definition createRedisBackedNonceStore {K} (redis : K) (continuityMode namespace : string)
    (sigWindowMs : Z) (safetyBufferMs commandTimeoutMs : option Z) :
    exc (ServerNonceStore (RedisNonceStore K)) :=
  if decide (continuityMode ≠ "ungoverned-development")
  then Throw (RangeError "continuityMode must explicitly be ungoverned-development")
  else if negb (NAMESPACE_RE namespace)
  then Throw (RangeError "namespace must be 1-64 ASCII letters, digits, dot, underscore, or hyphen")
  else
    retentionMs ← deriveNonceRetentionMs sigWindowMs (default DEFAULT_NONCE_SAFETY_BUFFER_MS safetyBufferMs);
    timeout ← positiveSafeInteger (default DEFAULT_REDIS_NONCE_TIMEOUT_MS commandTimeoutMs) "commandTimeoutMs";
    backend ← RedisNonceStore_new redis ("bpc:" +:+ namespace +:+ ":nonce:") timeout;
    ServerNonceStore_new backend retentionMs.

(** ** Facts: Redis *)

Lemma redis_result_Ret r b : RedisNonceStore_result r = Ret b → r = if b then SetNull else SetOK.
Proof. by destruct r; intros [= <-]. Qed.

#[export] Program Instance redis_laws `{RedisClientLaws K} : NonceLaws (RedisNonceStore K) := {
  remembers s n t := live (rn_redis s) (rn_prefix s +:+ n) t;
}.
Next Obligation.
  intros K ?? n ttl now s s'. simpl. unfold RedisNonceStore_checkAndConsume.
  destruct (positiveSafeInteger _ _); [|done]. destruct (redis_set_nx_px _ _ _ _) as [r reply] eqn:E.
  intros [= <- Hr%redis_result_Ret]. subst. by eapply set_ok_live.
Qed.
Next Obligation.
  intros K ?? n ttl now s t Hlive Hnow. simpl. unfold RedisNonceStore_checkAndConsume.
  destruct (positiveSafeInteger _ _); [|done].
  pose proof (live_not_set _ ttl now _ t Hlive Hnow) as Hne.
  destruct (redis_set_nx_px _ _ _ _) as [r reply]. simpl in *. by intros Hr%redis_result_Ret.
Qed.
Next Obligation.
  intros K ?? m ttl now s n t Hlive Hnow. simpl. unfold RedisNonceStore_checkAndConsume.
  destruct (positiveSafeInteger _ _); [|done].
  pose proof (live_stable (rn_prefix s +:+ m) ttl now _ _ t Hlive Hnow) as Hst.
  by destruct (redis_set_nx_px _ _ _ _) as [r reply].
Qed.

(** A concrete key space for examples: each key with its expiry. *)
#[export] Instance RedisKeys_client : RedisClient (gmap string Z) := {
  redis_set_nx_px key ttlMs now keys :=
    match keys !! key with
    | Some exp => if decide (now <= exp)%Z then (keys, SetNull) else (<[key := (now + ttlMs)%Z]> keys, SetOK)
    | None => (<[key := (now + ttlMs)%Z]> keys, SetOK)
    end;
}.

#[export] Program Instance RedisKeys_laws : RedisClientLaws (gmap string Z) := {
  live s k t := ∃ exp, s !! k = Some exp ∧ (t <= exp)%Z;
}.
Next Obligation.
  intros k ttl now s s'. simpl. destruct (s !! k) as [exp|]; [case_decide; [done|]|]; intros [= <-];
    exists (now + ttl)%Z; rewrite lookup_insert_eq; split; done || lia.
Qed.
Next Obligation.
  intros k ttl now s t (exp & Hk & Hle) Hnow. simpl. rewrite Hk. by rewrite decide_True by lia.
Qed.
Next Obligation.
  intros k' ttl now s k t (exp & Hk & Hle) Hnow. simpl. exists exp. split; [|done].
  destruct (decide (k' = k)) as [->|Hne].
  - by rewrite Hk, decide_True by lia.
  - destruct (s !! k'); [case_decide|]; simpl; rewrite ?lookup_insert_ne by done; done.
Qed.

(** The retention covers both sides of the signature window. *)
Lemma deriveNonceRetentionMs_value w buf r : deriveNonceRetentionMs w buf = Ret r → r = (w * 2 + buf)%Z.
Proof.
  unfold deriveNonceRetentionMs. intros (w' & _ & Hr)%exc_bind_Ret.
  repeat (case_match; [done|]). by injection Hr as <-.
Qed.

Lemma deriveNonceRetentionMs_covers w buf r : deriveNonceRetentionMs w buf = Ret r →
  (0 < w ∧ 2 * w <= r <= MAX_SAFE_INTEGER)%Z.
Proof.
  unfold deriveNonceRetentionMs. intros (w' & Hw & Hr)%exc_bind_Ret.
  unfold positiveSafeInteger in Hw.
  destruct (is_safe_integer w && bool_decide (0 < w)%Z)%bool eqn:Hpos; [|done].
  destruct (negb (is_safe_integer buf) || bool_decide (buf < 0)%Z)%bool eqn:Hb; [done|].
  destruct (negb (is_safe_integer (w * 2 + buf))) eqn:Hs; [done|]. injection Hr as <-.
  unfold is_safe_integer in *. btrue. lia.
Qed.

(** ** Facts: the in-memory backend *)

Lemma purge_wf now s : om_wf s → om_wf (purge now s).
Proof. apply om_wf_filter. Qed.

Lemma memory_wf n ttl now s : om_wf s → om_wf (memory_checkAndConsume n ttl now s).1.
Proof.
  intros Hwf. unfold memory_checkAndConsume. pose proof (purge_wf now s Hwf).
  case_match; [done|]. simpl. apply om_wf_set. case_decide; [by apply om_wf_drop|done].
Qed.

(** The map never grows beyond its cap. *)
Lemma memory_bound n ttl now s : om_wf s → (length s ≤ MAX_NONCE_ENTRIES)%nat →
  (length (memory_checkAndConsume n ttl now s).1 ≤ MAX_NONCE_ENTRIES)%nat.
Proof.
  intros Hwf Hlen. assert (length (purge now s) ≤ length s)%nat by apply length_filter_le.
  unfold memory_checkAndConsume. case_match; [simpl; lia|]. simpl. rewrite om_length_set.
  pose proof nonce_caps.
  case_decide; case_decide; rewrite ?length_drop in *; lia.
Qed.

(** [held s n t k]: [n] is stored with an expiry of at least [t] and at most [k]
    entries are younger. *)
Definition held (s : MemoryNonceBackend) (n : string) (t : Z) (k : nat) : Prop :=
  ∃ old new exp, s = old ++ (n, exp) :: new ∧ (t <= exp)%Z ∧ (length new ≤ k)%nat.

Lemma held_purge s n t k now : held s n t k → (now <= t)%Z → held (purge now s) n t k.
Proof.
  intros (old & new & exp & -> & Ht & Hk) Hnow.
  exists (purge now old), (purge now new), exp. split_and!; [|done|].
  - unfold purge. rewrite filter_app, filter_cons_True by (simpl; lia). done.
  - etrans; [apply length_filter_le|done].
Qed.

Lemma held_get s n t k : om_wf s → held s n t k → om_has n s = true.
Proof.
  intros Hwf (old & new & exp & -> & _ & _). unfold om_has.
  rewrite (om_get_elem n exp); [by rewrite bool_decide_true|done|set_solver].
Qed.

Lemma held_set s n t k m e : om_wf s → n ≠ m → held s n t k → held (om_set m e s) n t (S k).
Proof.
  intros Hwf Hne (old & new & exp & -> & Ht & Hk). clear Hwf.
  assert (∀ l, (length (om_set m e l) ≤ S (length l))%nat) as Hlen.
  { intros l. rewrite om_length_set. case_decide; lia. }
  induction old as [|[k' v'] old IH]; simpl.
  - rewrite decide_False by done. exists [], (om_set m e new), exp. split_and!; [done|done|].
    specialize (Hlen new). lia.
  - case_decide; subst.
    + exists ((k', e) :: old), new, exp. split_and!; [done|done|lia].
    + destruct IH as (old' & new' & exp' & -> & ? & ?). exists ((k', v') :: old'), new', exp'. done.
Qed.

Lemma held_drop s n t k j : held s n t k → (j + k < length s)%nat → held (drop j s) n t k.
Proof.
  intros (old & new & exp & -> & Ht & Hk) Hlen.
  rewrite length_app in Hlen. simpl in Hlen.
  exists (drop j old), new, exp. split_and!; [|done|done].
  rewrite drop_app_le by lia. done.
Qed.

(** The number of younger entries one call can add. *)
Lemma held_step s n t k m ttl now : om_wf s → held s n t k → (now <= t)%Z →
  (k < MAX_NONCE_ENTRIES - EVICT_COUNT)%nat →
  held (memory_checkAndConsume m ttl now s).1 n t (S k).
Proof.
  intros Hwf Hheld Hnow Hk. apply (held_purge _ _ _ _ now) in Hheld; [|done].
  pose proof (purge_wf now s Hwf) as Hwf'. unfold memory_checkAndConsume.
  destruct (om_has m (purge now s)) eqn:Hm.
  { destruct Hheld as (old & new & exp & -> & ? & ?). exists old, new, exp. split_and!; [done..|lia]. }
  assert (n ≠ m) as Hne. { intros ->. by rewrite (held_get _ _ _ _ Hwf' Hheld) in Hm. }
  simpl. apply held_set; [case_decide; [by apply om_wf_drop|done]|done|].
  case_decide; [|done]. apply held_drop; [done|]. lia.
Qed.

Lemma elem_of_drop_inv {A} (x : A) j l : x ∈ drop j l → x ∈ l.
Proof. intros Hin. rewrite <-(take_drop j l). set_solver. Qed.

Lemma accept_held n ttl now s s' : om_wf s →
  memory_checkAndConsume n ttl now s = (s', Ret false) → held s' n (now + ttl) 0.
Proof.
  intros Hwf. unfold memory_checkAndConsume. destruct (om_has n (purge now s)) eqn:Hm; [done|].
  intros [= <-]. set (m := if decide _ then _ else _).
  assert (n ∉ m.*1) as Hfresh.
  { unfold om_has in Hm. apply bool_decide_eq_false in Hm.
    assert (om_get n (purge now s) = None) as Hn%om_get_None by (by apply eq_None_not_Some).
    unfold m. case_decide; [|done]. rewrite fmap_drop. intros Hin. apply Hn. by eapply elem_of_drop_inv. }
  exists m, [], (now + ttl)%Z. split_and!; [|lia|done].
  clear -Hfresh. induction m as [|[k v] m IH]; [done|]. csimpl in *.
  rewrite decide_False by set_solver. by rewrite IH by set_solver.
Qed.

(** A sequence of calls, each with its nonce and time. *)
Fixpoint memory_calls (ttl : Z) (cs : list (string * Z)) (s : MemoryNonceBackend) : MemoryNonceBackend :=
  match cs with
  | [] => s
  | (m, now) :: cs => memory_calls ttl cs (memory_checkAndConsume m ttl now s).1
  end.

Lemma held_calls ttl cs s n t k : om_wf s → held s n t k → Forall (λ c, c.2 <= t)%Z cs →
  (k + length cs ≤ MAX_NONCE_ENTRIES - EVICT_COUNT)%nat →
  om_wf (memory_calls ttl cs s) ∧ held (memory_calls ttl cs s) n t (k + length cs).
Proof.
  revert s k. induction cs as [|[m now] cs IH]; intros s k Hwf Hh Hcs Hlen.
  { simpl. by rewrite Nat.add_0_r. }
  inversion Hcs; subst. simpl in *.
  replace (k + S (length cs))%nat with (S k + length cs)%nat by lia.
  apply IH; [by apply memory_wf| |done|lia]. apply held_step; [done|done|done|lia].
Qed.

(** A nonce that was accepted is a replay at every later time up to its expiry,
    as long as at most 90000 calls came in between. *)
Lemma memory_replay n ttl now s s' cs now' : om_wf s →
  memory_checkAndConsume n ttl now s = (s', Ret false) →
  Forall (λ c, c.2 <= now + ttl)%Z cs → (length cs ≤ MAX_NONCE_ENTRIES - EVICT_COUNT)%nat →
  (now' <= now + ttl)%Z →
  (memory_checkAndConsume n ttl now' (memory_calls ttl cs s')).2 = Ret true.
Proof.
  intros Hwf Hacc Hcs Hlen Hnow'.
  assert (om_wf s') as Hwf'. { pose proof (memory_wf n ttl now s Hwf) as H. by rewrite Hacc in H. }
  destruct (held_calls ttl cs s' n (now + ttl) 0) as [Hw Hh]; [done|by apply (accept_held n ttl now s)|done|done|].
  unfold memory_checkAndConsume.
  apply (held_purge _ _ _ _ now') in Hh; [|done]. apply (purge_wf now') in Hw.
  by rewrite (held_get _ _ _ _ Hw Hh).
Qed.

(** The in-memory backend keeps the promise for 90000 calls. *)
#[export] Program Instance memory_bounded : BoundedNonceLaws MemoryNonceBackend := {
  nonce_inv := om_wf;
  within k := (k ≤ MAX_NONCE_ENTRIES - EVICT_COUNT)%nat;
  recalls s n t k := ∃ j, held s n t j ∧ (j + k ≤ MAX_NONCE_ENTRIES - EVICT_COUNT)%nat;
}.
Next Obligation. intros m ttl now s. apply memory_wf. Qed.
Next Obligation. intros n ttl now s s' k Hwf Hk Hacc. exists 0%nat. split; [by eapply accept_held|done]. Qed.
Next Obligation.
  intros n ttl now s t k Hwf (j & Hh & _) Hnow. simpl. unfold memory_checkAndConsume.
  apply (held_purge _ _ _ _ now) in Hh; [|done]. by rewrite (held_get _ _ _ _ (purge_wf now s Hwf) Hh).
Qed.
Next Obligation.
  intros m ttl now s n t k Hwf (j & Hh & Hj) Hnow. exists (S j). split; [apply held_step; [done..|lia]|lia].
Qed.

(** A full map forgets its oldest nonce: the replay is then accepted. *)
Lemma memory_shed n m ttl now exp s : n ≠ m → om_wf ((n, exp) :: s) →
  (length s = MAX_NONCE_ENTRIES - 1)%nat → Forall (λ e, now <= e.2)%Z ((n, exp) :: s) →
  m ∉ s.*1 → (0 <= ttl)%Z →
  (memory_checkAndConsume n ttl now (memory_checkAndConsume m ttl now ((n, exp) :: s)).1).2 = Ret false.
Proof.
  intros Hne Hwf Hlen Hall Hm Httl.
  assert (∀ l : MemoryNonceBackend, Forall (λ e, now <= e.2)%Z l → purge now l = l) as Hpurge.
  { intros l. induction 1; [done|]. unfold purge in *. rewrite filter_cons_True by lia. by f_equal. }
  unfold memory_checkAndConsume at 2. rewrite (Hpurge _ Hall).
  assert (om_has m ((n, exp) :: s) = false) as ->.
  { unfold om_has. apply bool_decide_eq_false, eq_None_not_Some, om_get_None. set_solver. }
  pose proof nonce_caps.
  rewrite decide_True by (simpl length; lia).
  apply NoDup_cons in Hwf as [Hn _]. inversion Hall as [|? ? _ Hs]; subst.
  destruct EVICT_COUNT as [|j] eqn:Hj; [lia|]. cbn [fst drop].
  set (l := om_set m (now + ttl)%Z (drop j s)).
  assert (Forall (λ e, now <= e.2)%Z l) as Hl.
  { unfold l. assert (Forall (λ e, now <= e.2)%Z (drop j s)) as Hd by (by apply Forall_drop).
    induction Hd as [|[k v] d Hv Hd IH]; simpl; [repeat constructor; simpl; lia|].
    case_decide; constructor; simpl; auto; lia. }
  unfold memory_checkAndConsume. rewrite (Hpurge _ Hl).
  assert (om_has n l = false) as ->; [|done].
  unfold om_has. apply bool_decide_eq_false, eq_None_not_Some, om_get_None.
  unfold l. rewrite om_keys_set. assert (n ∉ (drop j s).*1).
  { rewrite fmap_drop. intros Hin. apply Hn. by eapply elem_of_drop_inv. }
  case_decide; set_solver.
Qed.

(** ** Properties *)

(** The in-memory replay store remembers: a nonce that was accepted is
    reported as a replay at any time up to its expiry, as long as at most 90000
    other calls came in between. *)
Theorem memory_nonce_remembered n ttl now s s' cs now' : om_wf s →
  memory_checkAndConsume n ttl now s = (s', Ret false) →
  Forall (λ c, c.2 <= now + ttl)%Z cs → (length cs ≤ MAX_NONCE_ENTRIES - EVICT_COUNT)%nat →
  (now' <= now + ttl)%Z →
  (memory_checkAndConsume n ttl now' (memory_calls ttl cs s')).2 = Ret true.
Proof. apply memory_replay. Qed.

(** The capacity guard of the in-memory replay store re-opens replays: when
    the map is full of live nonces, one more request makes the oldest of them
    acceptable again before it has expired. *)
Theorem memory_nonce_shed n m ttl now exp s : n ≠ m → om_wf ((n, exp) :: s) →
  (length s = MAX_NONCE_ENTRIES - 1)%nat → Forall (λ e, now <= e.2)%Z ((n, exp) :: s) →
  m ∉ s.*1 → (0 <= ttl)%Z →
  (memory_checkAndConsume n ttl now (memory_checkAndConsume m ttl now ((n, exp) :: s)).1).2 = Ret false.
Proof. apply memory_shed. Qed.

(** The in-memory replay store's memory is bounded. *)
Theorem memory_nonce_bound n ttl now s : om_wf s → (length s ≤ MAX_NONCE_ENTRIES)%nat →
  (length (memory_checkAndConsume n ttl now s).1 ≤ MAX_NONCE_ENTRIES)%nat.
Proof. apply memory_bound. Qed.

(** The derived retention covers the signature window on both sides and stays
    in the range of exact integers. *)
Theorem retention_covers_window w buf r : deriveNonceRetentionMs w buf = Ret r →
  (0 < w ∧ 2 * w <= r <= MAX_SAFE_INTEGER)%Z.
Proof. apply deriveNonceRetentionMs_covers. Qed.
