(* ===== verification/RateLimiter.v ===== *)
(** * Rate limiting (packages/server/src/rate-limiter.ts)

    [RateLimiter] is the interface.  The in-memory limiter keeps one list of
    request times per key; the Redis limiter keeps a sorted set and is a process
    of several commands.  Proved: the sliding-window bound, the bound on the
    number of tracked keys, and that the Redis limiter's commands may interleave. *)

From S2P Require Import Prelude Proc JsNum.
From stdpp Require Import base strings list gmap sorting.
From Stdlib Require Import ZArith Lia.

Record RateLimitResult := mkRateLimit { rl_allowed : bool; rl_remaining : Z; rl_resetAt : Z }.

(** [check key] at the time [now]. *)
Class RateLimiter (L : Type) := {
  limiter_check : string → Z → L → L * exc RateLimitResult;
}.

Definition MAX_TRACKED_KEYS : nat := N.to_nat 50000.
(** [Math.ceil(MAX_TRACKED_KEYS * 0.1)] *)
Definition EVICT_KEYS : nat := N.to_nat 5000.

Lemma tracked_caps : (10 <= EVICT_KEYS < MAX_TRACKED_KEYS)%nat.
Proof. unfold EVICT_KEYS, MAX_TRACKED_KEYS. lia. Qed.
#[global] Opaque MAX_TRACKED_KEYS EVICT_KEYS.

(** ** MemoryRateLimiter *)

Record MemoryRateLimiter := mkMemoryRateLimiter {
  mrl_limit : Z;
  mrl_windowMs : Z;
  mrl_windows : list (string * list Z);
}.

Definition memory_limiter_check (key : string) (now : Z) (s : MemoryRateLimiter) :
    MemoryRateLimiter * exc RateLimitResult :=
  let cutoff := (now - mrl_windowMs s)%Z in
  let windows := if decide (MAX_TRACKED_KEYS ≤ length (mrl_windows s))%nat
                 then drop EVICT_KEYS (mrl_windows s) else mrl_windows s in
  let timestamps := filter (λ t, cutoff < t)%Z (default [] (om_get key windows)) in
  let allowed := bool_decide (Z.of_nat (length timestamps) < mrl_limit s)%Z in
  let timestamps := if allowed then timestamps ++ [now] else timestamps in
  (mkMemoryRateLimiter (mrl_limit s) (mrl_windowMs s) (om_set key timestamps windows),
   Ret (mkRateLimit allowed (Z.max 0 (mrl_limit s - Z.of_nat (length timestamps)))
          (default now (head timestamps) + mrl_windowMs s))).

#[export] Instance MemoryRateLimiter_limiter : RateLimiter MemoryRateLimiter := {
  limiter_check := memory_limiter_check;
}.

(** ** RedisRateLimiter *)

Class RedisZSetClient (K : Type) := {
  zadd : string → Z → string → K → K;
  (** [zremrangebyscore key -inf max] *)
  zremrangebyscore : string → Z → K → K;
  zcard : string → K → Z;
  zexpire : string → Z → K → K;
}.

(** The clock, the connection and the supply of random identifiers. *)
Record LimiterWorld (K : Type) := mkLimiterWorld { lw_now : Z; lw_redis : K; lw_uuids : list string }.
Arguments mkLimiterWorld {K}.
Arguments lw_now {K}.
Arguments lw_redis {K}.
Arguments lw_uuids {K}.

Section redis_limiter.
Context {K : Type} `{RedisZSetClient K}.

Definition redis_command {A} (f : K → K * A) : proc (LimiterWorld K) A :=
  call (λ w, let '(r, a) := f (lw_redis w) in (mkLimiterWorld (lw_now w) r (lw_uuids w), a)).
Definition randomUUID : proc (LimiterWorld K) string :=
  call (λ w, (mkLimiterWorld (lw_now w) (lw_redis w) (tail (lw_uuids w)), default EmptyString (head (lw_uuids w)))).

(** [show] prints the time inside the member. *)
Definition RedisRateLimiter_check (limit windowMs : Z) (prefix : string) (show : Z → string) (key : string) :
    proc (LimiterWorld K) RateLimitResult :=
  (let* now := read lw_now in
   let cutoff := (now - windowMs)%Z in
   let fullKey := prefix +:+ key in
   do* redis_command (λ r, (zremrangebyscore fullKey cutoff r, tt)) in
   let* count := redis_command (λ r, (r, zcard fullKey r)) in
   if decide (limit <= count)%Z then Done (mkRateLimit false 0 (now + windowMs))
   else
     let* uuid := randomUUID in
     do* redis_command (λ r, (zadd fullKey now (show now +:+ "-" +:+ uuid) r, tt)) in
     do* redis_command (λ r, (zexpire fullKey ((windowMs + 999) / 1000 + 1)%Z r, tt)) in
     Done (mkRateLimit true (limit - count - 1) (now + windowMs)))%bpc.
End redis_limiter.

(** ** Facts *)

Lemma limiter_wf key now s : om_wf (mrl_windows s) → om_wf (mrl_windows (memory_limiter_check key now s).1).
Proof. intros Hwf. simpl. apply om_wf_set. case_decide; [by apply om_wf_drop|done]. Qed.

(** The number of tracked keys is bounded. *)
Lemma limiter_bound key now s : (length (mrl_windows s) ≤ MAX_TRACKED_KEYS)%nat →
  (length (mrl_windows (memory_limiter_check key now s).1) ≤ MAX_TRACKED_KEYS)%nat.
Proof.
  intros Hlen. pose proof tracked_caps. simpl. rewrite om_length_set.
  repeat case_decide; rewrite ?length_drop in *; lia.
Qed.

(** A run of checks, and the times at which [k] was allowed. *)
Fixpoint checks (k : string) (cs : list (string * Z)) (s : MemoryRateLimiter) : MemoryRateLimiter * list Z :=
  match cs with
  | [] => (s, [])
  | (key, now) :: cs =>
      let '(s', r) := memory_limiter_check key now s in
      let '(s'', log) := checks k cs s' in
      (s'', if decide (key = k) then
              match r with Ret res => if rl_allowed res then now :: log else log | Throw _ => log end
            else log)
  end.

Definition in_window (W t a : Z) : Prop := (t - W < a ∧ a <= t)%Z.
#[export] Instance in_window_dec W t a : Decision (in_window W t a).
Proof. unfold in_window. apply _. Defined.

(** The state knows every allowed time of [k] that can still matter. *)
Definition knows (k : string) (s : MemoryRateLimiter) (log : list Z) (last : Z) : Prop :=
  ∃ c, (c <= last - mrl_windowMs s)%Z ∧
    default [] (om_get k (mrl_windows s)) = filter (λ a, c < a)%Z log.

Definition window_bound (W limit : Z) (log : list Z) : Prop :=
  ∀ t, (Z.of_nat (length (filter (in_window W t) log)) <= limit)%Z.

Lemma filter_length_sub {A} (P Q : A → Prop) `{!∀ x, Decision (P x)} `{!∀ x, Decision (Q x)} (l : list A) :
  (∀ x, x ∈ l → P x → Q x) → (length (filter P l) ≤ length (filter Q l))%nat.
Proof.
  intros HPQ. induction l as [|x l IH]; [done|]. rewrite !filter_cons.
  assert (length (filter P l) ≤ length (filter Q l))%nat by (apply IH; intros; apply HPQ; [set_solver|done]).
  destruct (decide (P x)) as [HP|]; [rewrite decide_True by (apply HPQ; [set_solver|done]); simpl; lia|].
  case_decide; simpl; lia.
Qed.

Lemma filter_ext_in {A} (P Q : A → Prop) `{!∀ x, Decision (P x)} `{!∀ x, Decision (Q x)} (l : list A) :
  (∀ x, x ∈ l → P x ↔ Q x) → filter P l = filter Q l.
Proof.
  intros HPQ. induction l as [|x l IH]; [done|]. rewrite !filter_cons.
  rewrite IH by (intros; apply HPQ; set_solver).
  assert (P x ↔ Q x) by (apply HPQ; set_solver). repeat case_decide; naive_solver.
Qed.

Lemma knows_other k key now last s log : key ≠ k → (last <= now)%Z →
  (length (mrl_windows s) < MAX_TRACKED_KEYS)%nat →
  knows k s log last → knows k (memory_limiter_check key now s).1 log now.
Proof.
  intros Hne Hnow Hlen (c & Hc & Hk). exists c. simpl. rewrite decide_False by lia.
  rewrite om_get_set_ne by done. split; [lia|done].
Qed.

(** One check of [k]: the request is allowed exactly when fewer than [limit]
    allowed requests lie in the window before it. *)
Lemma check_decides k now last s log : (last <= now)%Z → (0 < mrl_windowMs s)%Z →
  (length (mrl_windows s) < MAX_TRACKED_KEYS)%nat → knows k s log last →
  let ok := bool_decide (Z.of_nat (length (filter (λ a, now - mrl_windowMs s < a)%Z log)) < mrl_limit s)%Z in
  (∃ rem reset, (memory_limiter_check k now s).2 = Ret (mkRateLimit ok rem reset)) ∧
  knows k (memory_limiter_check k now s).1 (if ok then log ++ [now] else log) now.
Proof.
  intros Hnow HW Hlen (c & Hc & Hk) ok. subst ok. simpl. rewrite decide_False by lia. rewrite Hk.
  assert (filter (λ t, now - mrl_windowMs s < t)%Z (filter (λ a, c < a)%Z log) =
          filter (λ a, now - mrl_windowMs s < a)%Z log) as ->.
  { rewrite list_filter_filter. apply filter_ext_in. intros x _. simpl. lia. }
  split; [by eexists _, _|].
  exists (now - mrl_windowMs s)%Z. simpl. split; [lia|]. rewrite om_get_set. simpl.
  case_bool_decide; [|done]. by rewrite filter_app, filter_cons_True by lia.
Qed.

(** Allowing one more request at [now] keeps the bound of every window. *)
Lemma window_bound_snoc W limit log now : (0 < W)%Z → Forall (λ a, a <= now)%Z log →
  window_bound W limit log →
  (Z.of_nat (length (filter (λ a, now - W < a)%Z log)) < limit)%Z →
  window_bound W limit (log ++ [now]).
Proof.
  intros HW Hall Hb Hlt t. rewrite filter_app, length_app.
  destruct (decide (in_window W t now)) as [Hin|Hout].
  - rewrite filter_cons_True by done. simpl.
    assert (length (filter (in_window W t) log) ≤ length (filter (λ a, now - W < a)%Z log))%nat; [|lia].
    apply filter_length_sub. intros x _. unfold in_window in *. lia.
  - rewrite filter_cons_False by done. simpl. specialize (Hb t). lia.
Qed.

Lemma checks_bound k W limit cs : ∀ s log last,
  mrl_windowMs s = W → mrl_limit s = limit → (0 < W)%Z →
  (length (mrl_windows s) + length cs ≤ MAX_TRACKED_KEYS)%nat →
  Sorted Z.le (last :: cs.*2) → Forall (λ a, a <= last)%Z log →
  knows k s log last → window_bound W limit log →
  window_bound W limit (log ++ (checks k cs s).2).
Proof.
  induction cs as [|[key now] cs IH]; intros s log last HWs Hls HW Hlen Hsorted Hlog Hk Hb.
  { by rewrite app_nil_r. }
  simpl in Hlen. csimpl in Hsorted.
  apply Sorted_inv in Hsorted as [Hsorted Hhd]. apply HdRel_inv in Hhd. subst W limit.
  assert (mrl_windowMs (memory_limiter_check key now s).1 = mrl_windowMs s ∧
          mrl_limit (memory_limiter_check key now s).1 = mrl_limit s) as [HWs' Hls'] by done.
  assert (length (mrl_windows (memory_limiter_check key now s).1) ≤ S (length (mrl_windows s)))%nat as Hlen'.
  { simpl. rewrite om_length_set. repeat case_decide; rewrite ?length_drop in *; lia. }
  assert (Forall (λ a, a <= now)%Z log) as Hlog'.
  { eapply Forall_impl; [exact Hlog|]. simpl. lia. }
  cbn [checks]. destruct (decide (key = k)) as [->|Hne].
  - destruct (check_decides k now last s log Hhd HW ltac:(lia) Hk) as ((rem & reset & Hr) & Hk').
    set (ok := bool_decide _) in *.
    destruct (memory_limiter_check k now s) as [s' r]. cbn [fst snd] in *. subst r.
    destruct (checks k cs s') as [s'' log'] eqn:Hcs. cbn [fst snd rl_allowed].
    change log' with (s'', log').2. rewrite <-Hcs.
    destruct ok eqn:Hok; subst ok.
    + apply bool_decide_eq_true in Hok.
      cut (window_bound (mrl_windowMs s) (mrl_limit s) ((log ++ [now]) ++ (checks k cs s').2)).
      { rewrite <-app_assoc. simpl. by rewrite Hcs. }
      apply (IH s' (log ++ [now]) now); try done; [lia| |].
      * apply Forall_app; split; [done|]. by constructor.
      * by apply window_bound_snoc.
    + apply (IH s' log now); done || lia.
  - pose proof (knows_other k key now last s log Hne Hhd ltac:(lia) Hk) as Hk'.
    destruct (memory_limiter_check key now s) as [s' r]. cbn [fst snd] in *.
    destruct (checks k cs s') as [s'' log'] eqn:Hcs. cbn [fst snd].
    change log' with (s'', log').2. rewrite <-Hcs. apply (IH s' log now); done || lia.
Qed.

(** *** The Redis limiter is not atomic *)

(** A concrete sorted-set store for examples. *)
#[export] Instance ZSetKeys_client : RedisZSetClient (gmap string (list (Z * string))) := {
  zadd key score member s :=
    <[key := (score, member) :: filter (λ e, e.2 ≠ member) (default [] (s !! key))]> s;
  zremrangebyscore key max s := <[key := filter (λ e, ¬ (e.1 <= max)%Z) (default [] (s !! key))]> s;
  zcard key s := Z.of_nat (length (default [] (s !! key)));
  zexpire key seconds s := s;
}.

(** ** Properties *)

(** The in-memory limiter enforces its limit over every sliding window: in
    any sequence of checks in time order that stays below the capacity of the
    map, no window of [windowMs] milliseconds contains more than [limit] allowed
    requests of one key. *)
Theorem limiter_window_bound k limit windowMs cs : (0 < windowMs)%Z → (0 <= limit)%Z →
  (length cs ≤ MAX_TRACKED_KEYS)%nat → Sorted Z.le cs.*2 →
  window_bound windowMs limit (checks k cs (mkMemoryRateLimiter limit windowMs [])).2.
Proof.
  intros HW Hl Hlen Hs. destruct cs as [|[key t] cs]; [by intros t|].
  change (checks k ((key, t) :: cs) _).2 with ([] ++ (checks k ((key, t) :: cs) (mkMemoryRateLimiter limit windowMs [])).2).
  apply (checks_bound k windowMs limit _ _ [] t); try done.
  - csimpl. by constructor; [|constructor].
  - by exists (t - windowMs)%Z.
  - by intros t'.
Qed.

(** The limiter's memory is bounded, whatever keys arrive. *)
Theorem limiter_memory_bound key now s : (length (mrl_windows s) ≤ MAX_TRACKED_KEYS)%nat →
  (length (mrl_windows (memory_limiter_check key now s).1) ≤ MAX_TRACKED_KEYS)%nat.
Proof. apply limiter_bound. Qed.

(** The Redis limiter can be overrun: its commands are separate, and two
    concurrent checks on an empty key with limit 1 are both allowed. *)
Theorem redis_limiter_race : ∃ tr w',
  pool_run eq (replicate 2 (RedisRateLimiter_check 1 60000 "bpc:ratelimit:" z_to_string "pair:a"))
    (mkLimiterWorld 1000 (∅ : gmap string (list (Z * string))) ["u1"; "u2"]) tr w'
    (replicate 2 (Done (mkRateLimit true 0 61000))).
Proof.
  pose proof (sched_snd eq [0; 0; 0; 1; 1; 1; 0; 0; 0; 1; 1; 1]%nat
    (replicate 2 (RedisRateLimiter_check 1 60000 "bpc:ratelimit:" z_to_string "pair:a"))
    (mkLimiterWorld 1000 (∅ : gmap string (list (Z * string))) ["u1"; "u2"])) as Hrun.
  match type of Hrun with pool_run _ _ _ _ _ ?ps =>
    replace ps with (replicate 2 (@Done (LimiterWorld (gmap string (list (Z * string)))) _ (mkRateLimit true 0 61000)))
      in Hrun by (vm_compute; reflexivity)
  end.
  do 2 eexists. exact Hrun.
Qed.
