(* ===== verification/Continuity.v ===== *)
(** * redis-continuity.ts: the continuity guard

    The guard quarantines authorization when the continuity marker in Redis is
    lost, changed or unreachable.  [reconcile] is a process over a world with
    the clock, the Redis connection, the epoch source and the guard's fields;
    everything between two commands is one step.  The Redis client is a
    parameter: a connection state, and the outcome of each command raced against
    its timeout.  [assertNoEvictionPolicy] and the option checks of the
    constructor and of the reconcile loop are functions.  Timers are not
    modelled: the theorems hold for reconciliations at any times. *)

From S2P Require Import Prelude Proc JsNum Json Nonce.
From stdpp Require Import base strings list.
From Stdlib Require Import ZArith Lia.

Local Open Scope Z_scope.

(** ** The eviction policy *)

(** The reply of [CONFIG GET maxmemory-policy], as a client may shape it. *)
Definition policy_of_reply (raw : jsval) : option string :=
  match raw with
  | JArr [JStr key; JStr value] => if decide (key = "maxmemory-policy"%string) then Some value else None
  | JObj [(key, JStr value)] => if decide (key = "maxmemory-policy"%string) then Some value else None
  | _ => None
  end.

Definition assertNoEvictionPolicy (reply : exc jsval) : exc unit :=
  raw ← reply;
  match policy_of_reply raw with
  | None | Some EmptyString => Throw (EvictionPolicyError "unknown")
  | Some policy => if decide (policy = "noeviction"%string) then Ret tt else Throw (EvictionPolicyError policy)
  end.

(** ** The options of the reconcile loop *)

Definition startContinuityReconcileLoop (intervalMs retentionMs : Z) : exc unit :=
  _ ← positiveSafeInteger intervalMs "intervalMs";
  _ ← positiveSafeInteger retentionMs "retentionMs";
  if decide (retentionMs <= intervalMs)
  then Throw (RangeError "intervalMs must be shorter than retentionMs") else Ret tt.

(** ** The guard *)

Definition DEFAULT_CONTINUITY_SAFETY_ALLOWANCE_MS : Z := 30000.
Definition DEFAULT_CONTINUITY_TIMEOUT_MS : Z := 2000.

Record RedisContinuityGuard := mkGuard {
  g_markerKey : string;
  g_quarantineMs : Z;
  g_trustedEpoch : option string;
  g_initialized : bool;
  g_quarantinedUntilMs : ztime;
  g_quarantineReason : quarantine_reason;
}.

Definition RedisContinuityGuard_new (namespace : string) (retentionMs : Z)
    (safetyAllowanceMs commandTimeoutMs : option Z) : exc RedisContinuityGuard :=
  if negb (NAMESPACE_RE namespace)
  then Throw (RangeError "namespace must be 1-64 ASCII letters, digits, dot, underscore, or hyphen")
  else
    _ ← positiveSafeInteger retentionMs "retentionMs";
    let allowance := default DEFAULT_CONTINUITY_SAFETY_ALLOWANCE_MS safetyAllowanceMs in
    if (negb (is_safe_integer allowance) || bool_decide (allowance < 0))%bool
    then Throw (RangeError "safetyAllowanceMs must be a non-negative safe integer")
    else
      _ ← positiveSafeInteger (default DEFAULT_CONTINUITY_TIMEOUT_MS commandTimeoutMs) "commandTimeoutMs";
      Ret (mkGuard ("bpc:" +:+ namespace +:+ ":continuity") (retentionMs + allowance)
             None false Never continuity_store_unavailable).

Definition isQuarantined (nowMs : Z) (g : RedisContinuityGuard) : bool := before nowMs (g_quarantinedUntilMs g).

Definition quarantineRemainingMs (nowMs : Z) (g : RedisContinuityGuard) : ztime :=
  match g_quarantinedUntilMs g with At t => At (Z.max 0 (t - nowMs)) | Never => Never end.

(** [if (until > this.quarantinedUntilMs) this.quarantinedUntilMs = until] *)
Definition extend_until (until : Z) (current : ztime) : ztime :=
  match current with At t => if decide (t < until) then At until else At t | Never => Never end.

Definition enterQuarantine (reason : quarantine_reason) (nowMs : Z) (g : RedisContinuityGuard) :=
  mkGuard (g_markerKey g) (g_quarantineMs g) (g_trustedEpoch g) (g_initialized g)
    (extend_until (nowMs + g_quarantineMs g) (g_quarantinedUntilMs g)) reason.

(** [initialized = true], and the first reconciliation leaves [Infinity]. *)
Definition initialize (epoch : option string) (g : RedisContinuityGuard) : RedisContinuityGuard :=
  mkGuard (g_markerKey g) (g_quarantineMs g) epoch true
    (match g_quarantinedUntilMs g with Never => At 0 | At t => At t end) (g_quarantineReason g).

(** What [reconcile] does with the marker it read. *)
Definition guard_unavailable (nowMs : Z) (g : RedisContinuityGuard) :=
  enterQuarantine continuity_store_unavailable nowMs (initialize (g_trustedEpoch g) g).
Definition guard_lost (nowMs : Z) (g : RedisContinuityGuard) :=
  enterQuarantine continuity_marker_lost nowMs (initialize None g).
Definition guard_present (nowMs : Z) (current : string) (g : RedisContinuityGuard) :=
  match g_trustedEpoch g with
  | None => initialize (Some current) g
  | Some trusted =>
      if decide (current ≠ trusted)
      then enterQuarantine continuity_epoch_changed nowMs (initialize (Some current) g)
      else g
  end.

Definition guard_assertAcceptable (nowMs : Z) (g : RedisContinuityGuard) : exc unit :=
  if (negb (g_initialized g) || before nowMs (g_quarantinedUntilMs g))%bool
  then Throw (AuthorizationQuarantineError (g_quarantineReason g) (g_quarantinedUntilMs g))
  else Ret tt.

(** ** The client and the world *)

(** [GET] and [SET … NX] as the guard awaits them: the reply, or the rejection
    of the command or of its timeout.  [SET] may reply [OK] or null; any other
    reply is [None] and makes the guard throw. *)
Class RedisContinuityClient (R : Type) := {
  marker_get : string → R → R * exc (option string);
  marker_set_nx : string → string → R → R * exc (option bool);
}.

Record GuardWorld (R : Type) := mkGuardWorld {
  gw_now : Z;
  gw_epochs : nat → string;   (* the draws of newEpoch *)
  gw_drawn : nat;
  gw_redis : R;
  gw_guard : RedisContinuityGuard;
}.
Arguments mkGuardWorld {R}.
Arguments gw_now {R}.
Arguments gw_epochs {R}.
Arguments gw_drawn {R}.
Arguments gw_redis {R}.
Arguments gw_guard {R}.

Section guard.
Context {R : Type} `{!RedisContinuityClient R}.
Notation W := (GuardWorld R).
Implicit Types (w : W) (g : RedisContinuityGuard).

Definition set_redis (r : R) w : W := mkGuardWorld (gw_now w) (gw_epochs w) (gw_drawn w) r (gw_guard w).
Definition set_guard g w : W := mkGuardWorld (gw_now w) (gw_epochs w) (gw_drawn w) (gw_redis w) g.

(** The reply of a command, and what the guard does at once with it, are one
    step: there is no [await] in between. *)
Definition reconcile : proc W unit :=
  pbind (read gw_now) (λ nowMs, Step (λ w,
    match marker_get (g_markerKey (gw_guard w)) (gw_redis w) with
    | (r, Throw _) => (set_guard (guard_unavailable nowMs (gw_guard w)) (set_redis r w), Done tt)
    | (r, Ret (Some current)) => (set_guard (guard_present nowMs current (gw_guard w)) (set_redis r w), Done tt)
    | (r, Ret None) =>
        let epoch := gw_epochs w (gw_drawn w) in
        (mkGuardWorld (gw_now w) (gw_epochs w) (S (gw_drawn w)) r (gw_guard w),
         call (λ w,
           match marker_set_nx (g_markerKey (gw_guard w)) epoch (gw_redis w) with
           | (r, Ret (Some _)) => (set_guard (guard_lost nowMs (gw_guard w)) (set_redis r w), tt)
           | (r, _) => (set_guard (guard_unavailable nowMs (gw_guard w)) (set_redis r w), tt)
           end))
    end)).

End guard.

(** ** A quarantine only ever grows *)

Definition quarantined_until (t : Z) (g : RedisContinuityGuard) : Prop :=
  g_initialized g = true ∧ ∃ u, g_quarantinedUntilMs g = At u ∧ t <= u.

Lemma quarantined_closed t g now : quarantined_until t g → now < t →
  guard_assertAcceptable now g = Throw (AuthorizationQuarantineError (g_quarantineReason g) (g_quarantinedUntilMs g)).
Proof.
  intros (Hi & u & Hu & Ht) Hnow. unfold guard_assertAcceptable. rewrite Hi, Hu. simpl.
  by rewrite bool_decide_eq_true_2 by lia.
Qed.

(** What a reconciliation may do to the guard: the settings stay, and no
    quarantine gets shorter. *)
Record guard_grows (g g' : RedisContinuityGuard) : Prop := {
  grows_key : g_markerKey g' = g_markerKey g;
  grows_ms : g_quarantineMs g' = g_quarantineMs g;
  grows_until t : quarantined_until t g → quarantined_until t g';
}.

#[export] Instance guard_grows_preorder : PreOrder guard_grows.
Proof.
  split; [by intros g; split|]. intros g1 g2 g3 [???] [???]. split; [congruence..|]. naive_solver.
Qed.

Lemma initialize_grows e g : guard_grows g (initialize e g).
Proof. split; [done..|]. intros t (Hi & u & Hu & Ht). split; [done|]. exists u. simpl. by rewrite Hu. Qed.

Lemma initialize_until e g : g_initialized (initialize e g) = true ∧ ∃ u, g_quarantinedUntilMs (initialize e g) = At u.
Proof. split; [done|]. simpl. by destruct (g_quarantinedUntilMs g); eexists. Qed.

Lemma enter_grows reason nowMs g : guard_grows g (enterQuarantine reason nowMs g).
Proof.
  split; [done..|]. intros t (Hi & u & Hu & Ht). split; [done|]. simpl. rewrite Hu. simpl.
  case_decide; eexists; (split; [done|lia]).
Qed.

Lemma enter_until reason nowMs e g :
  quarantined_until (nowMs + g_quarantineMs g) (enterQuarantine reason nowMs (initialize e g)).
Proof.
  destruct (initialize_until e g) as (Hi & u & Hu). split; [done|].
  cbn -[initialize]. rewrite Hu. cbn -[initialize].
  assert (Hq : g_quarantineMs (initialize e g) = g_quarantineMs g) by done. rewrite Hq.
  case_decide; eexists; (split; [done|lia]).
Qed.

(** The marker that was read is the one the guard trusts, or its first. *)
Definition intact (current : string) (g : RedisContinuityGuard) : Prop :=
  g_trustedEpoch g = None ∨ g_trustedEpoch g = Some current.

Lemma present_cases nowMs current g : guard_grows g (guard_present nowMs current g) ∧
  (intact current g ∨ quarantined_until (nowMs + g_quarantineMs g) (guard_present nowMs current g)).
Proof.
  unfold guard_present, intact. destruct (g_trustedEpoch g) as [trusted|] eqn:Ht.
  - case_decide as Hne.
    + split; [|right; apply enter_until]. etrans; [apply initialize_grows|apply enter_grows].
    + split; [done|]. left. right. f_equal. destruct (decide (current = trusted)); [done|contradiction].
  - split; [apply initialize_grows|]. by left; left.
Qed.

Lemma guard_new_inv ns retentionMs allowance timeout g :
  RedisContinuityGuard_new ns retentionMs allowance timeout = Ret g →
  g = mkGuard ("bpc:" +:+ ns +:+ ":continuity")
        (retentionMs + default DEFAULT_CONTINUITY_SAFETY_ALLOWANCE_MS allowance) None false Never continuity_store_unavailable.
Proof.
  unfold RedisContinuityGuard_new. destruct (negb _); [done|].
  intros (x & _ & Hx)%exc_bind_Ret. destruct (_ || _)%bool; [done|]. by apply exc_bind_Ret in Hx as (y & _ & [= <-]).
Qed.

Section guard_safety.
Context {R : Type} `{!RedisContinuityClient R}.
Notation W := (GuardWorld R).
Implicit Types (w : W).

(** A move of the world around the guard: time passes, Redis may do anything,
    and the guard is touched by reconciliations only. *)
Record world_grows w w' : Prop := {
  wg_now : gw_now w <= gw_now w';
  wg_guard : guard_grows (gw_guard w) (gw_guard w');
}.
#[export] Instance world_grows_preorder : PreOrder world_grows.
Proof.
  split; [split; reflexivity|]. intros w1 w2 w3 [??] [??]. split; [lia|by etrans].
Qed.

(** One step of a reconciliation that closes the guard for the whole
    quarantine, and a step that finds the marker intact. *)
Definition closes (nowMs : Z) (s : W * W) : Prop :=
  quarantined_until (nowMs + g_quarantineMs (gw_guard s.1)) (gw_guard s.2).
Definition reads_intact (s : W * W) : Prop := ∃ current,
  (marker_get (g_markerKey (gw_guard s.1)) (gw_redis s.1)).2 = Ret (Some current) ∧ intact current (gw_guard s.1).

Lemma reconcile_always : always world_grows (reconcile (R := R)).
Proof.
  apply always_bind; [by apply always_read; intros w; reflexivity|]. intros nowMs w.
  assert (Hlost : ∀ r, world_grows w (set_guard (guard_lost nowMs (gw_guard w)) (set_redis r w))).
  { split; [simpl; lia|]. simpl. etrans; [apply initialize_grows|apply enter_grows]. }
  assert (Hfail : ∀ w r, world_grows w (set_guard (guard_unavailable nowMs (gw_guard w)) (set_redis r w))).
  { clear. split; [simpl; lia|]. simpl. etrans; [apply initialize_grows|apply enter_grows]. }
  destruct (marker_get _ _) as [r [[current|]|e]]; simpl.
  - split; [|done]. split; [simpl; lia|]. apply present_cases.
  - split; [split; simpl; [lia|done]|]. intros w1. simpl.
    destruct (marker_set_nx _ _ _) as [r1 [[[]|]|e]]; simpl; (split; [|done]).
    3,4: apply Hfail.
    all: split; simpl; [lia|]; etrans; [apply initialize_grows|apply enter_grows].
  - split; [|done]. apply Hfail.
Qed.

(** A reconciliation that ended: the clock was read first, and then either the
    marker was found intact or the guard was closed. *)
Lemma reconcile_exec Rly w0 tr w' : exec Rly (reconcile (R := R)) w0 tr w' tt →
  ∃ s0 rest, tr = s0 :: rest ∧ ∃ s, s ∈ rest ∧ (reads_intact s ∨ closes (gw_now s0.1) s).
Proof.
  unfold reconcile. intros (nowMs & w1 & tr1 & tr2 & H1 & H2 & ->)%exec_bind_inv.
  apply exec_call_inv in H1 as (w2 & _ & Heq & ->). injection Heq as <- <-.
  eexists _, tr2. split; [done|]. simpl.
  apply exec_step_inv in H2 as (w3 & w4 & p' & tr' & _ & Hstep & Hex & ->).
  destruct (marker_get (g_markerKey (gw_guard w3)) (gw_redis w3)) as [r [[current|]|e]] eqn:Hget;
    injection Hstep as <- <-.
  - exists (w3, set_guard (guard_present (gw_now w2) current (gw_guard w3)) (set_redis r w3)).
    split; [by apply elem_of_cons; left|].
    destruct (proj2 (present_cases (gw_now w2) current (gw_guard w3))) as [Hi|Hq]; [left|right; exact Hq].
    exists current. cbn [fst]. by rewrite Hget.
  - apply exec_call_inv in Hex as (w5 & _ & Heq & ->).
    exists (w5, w'). split; [by apply elem_of_cons; right; apply list_elem_of_here|]. right.
    destruct (marker_set_nx _ _ _) as [r1 [[[]|]|e]]; injection Heq as <-; apply enter_until.
  - exists (w3, set_guard (guard_unavailable (gw_now w2) (gw_guard w3)) (set_redis r w3)).
    split; [by apply elem_of_cons; left|]. right. apply enter_until.
Qed.

Lemma reconciles_grow ps w tr w' ps' :
  pool_run world_grows ps w tr w' ps' → Forall (eq (reconcile (R := R))) ps →
  Forall (λ e, world_grows e.2.1 e.2.2) tr.
Proof.
  intros Hrun Hps. eapply Forall_impl; [eapply (pool_always world_grows world_grows)|]; [exact Hrun| |].
  - eapply Forall_impl; [exact Hps|]. intros ? <-. apply reconcile_always.
  - by intros [[?|] ?].
Qed.

(** C11 Reconciliation fails closed: of any number of concurrent reconciliations,
    with Redis failing, losing state or changing in any way, one that ended
    either found the marker the guard trusts (or its first), or has closed the
    gate for the whole quarantine counted from its clock reading; and the gate
    is still closed, for that long, after everything that follows. *)
Theorem reconcile_fails_closed n w tr w' ps' i now :
  pool_run world_grows (replicate n reconcile) w tr w' ps' → ps' !! i = Some (Done tt) → (i < n)%nat →
  now < gw_now w + g_quarantineMs (gw_guard w) →
  (∃ s, (Some i, s) ∈ tr ∧ reads_intact s) ∨
  guard_assertAcceptable now (gw_guard w') = Throw (AuthorizationQuarantineError
    (g_quarantineReason (gw_guard w')) (g_quarantinedUntilMs (gw_guard w'))).
Proof.
  intros Hrun Hi Hn Hnow. pose proof (reconciles_grow _ _ _ _ _ Hrun (Forall_replicate_eq _ _)) as Hgrow.
  destruct (pool_exec _ _ _ _ _ _ i reconcile tt Hrun (proj2 (lookup_replicate _ _ _ _) (conj eq_refl Hn)) Hi w) as (w1 & Hex).
  destruct (reconcile_exec _ _ _ _ Hex) as (s0 & rest & Hown & s & Hs & Hcase).
  destruct (list_elem_of_split _ _ Hs) as (r1 & r2 & ->).
  destruct (own_steps_split i tr [] s0 _ Hown) as (t1 & t2 & -> & Hown2).
  destruct (own_steps_split i t2 r1 s r2 Hown2) as (t3 & t4 & -> & _).
  destruct Hcase as [Hint|Hcl]; [left; exists s; split; [|done]|right].
  { apply elem_of_app. right. apply elem_of_cons. right. apply elem_of_app. right. apply list_elem_of_here. }
  pose proof (pool_rtc _ _ _ _ Hgrow (pool_chain_from _ _ _ _ _ _ Hrun _ _ _ eq_refl)) as [Hnow0 Hg0].
  simpl in Hnow0, Hg0.
  pose proof (pool_rtc _ _ _ _ Hgrow (pool_chain_from _ _ _ _ _ _ Hrun
    (t1 ++ (Some i, s0) :: t3) (Some i, s) t4 ltac:(by rewrite <-app_assoc))) as [_ Hg1].
  pose proof (pool_rtc _ _ _ _ Hgrow (pool_chain_to _ _ _ _ _ _ Hrun
    (t1 ++ (Some i, s0) :: t3) (Some i, s) t4 ltac:(by rewrite <-app_assoc))) as [_ Hg2].
  apply (quarantined_closed (gw_now s0.1 + g_quarantineMs (gw_guard s.1))); [by apply Hg2|].
  pose proof (grows_ms _ _ Hg1). simpl in *. lia.
Qed.
End guard_safety.

(** The quarantine outlives the nonces it protects: a timestamp that was
    within the signature window when its request was verified, before a break was
    detected, is outside the window whenever the gate opens again; so a replay
    is refused by the timestamp check even if its nonce was lost. *)
Theorem quarantine_outlives_nonces ns sigWindowMs buffer allowance timeout retentionMs g g'
    timestamp verifiedAt detectedAt now :
  deriveNonceRetentionMs sigWindowMs buffer = Ret retentionMs →
  RedisContinuityGuard_new ns retentionMs (Some allowance) timeout = Ret g → 0 < buffer + allowance →
  dec_far verifiedAt timestamp sigWindowMs = false → verifiedAt <= detectedAt →
  quarantined_until (detectedAt + g_quarantineMs g) g' → guard_assertAcceptable now g' = Ret tt →
  dec_far now timestamp sigWindowMs = true.
Proof.
  intros Hret Hnew Hpos Hfar Hle Hq Hopen.
  apply deriveNonceRetentionMs_value in Hret. apply guard_new_inv in Hnew. subst g. simpl in Hq.
  destruct (dec_far now timestamp sigWindowMs) eqn:Hnow; [done|]. exfalso.
  pose proof (dec_far_near _ _ _ _ Hnow Hfar).
  rewrite (quarantined_closed _ _ now Hq) in Hopen; [done|lia].
Qed.

(** ** What the guard does not see *)

Section restart.
Context {R : Type} `{!RedisContinuityClient R}.

(** A restarted process forgets the quarantine: right after a guard has found
    the marker lost, claimed a fresh epoch and closed the gate, a new guard on
    the same Redis adopts that epoch and its gate is open at once. *)
Theorem restart_forgets_quarantine ns retentionMs allowance timeout g0 (w : GuardWorld R) r r' :
  RedisContinuityGuard_new ns retentionMs allowance timeout = Ret g0 →
  g_markerKey (gw_guard w) = g_markerKey g0 →
  (∀ k v s s', marker_set_nx k v s = (s', Ret (Some true)) → (marker_get k s').2 = Ret (Some v)) →
  marker_get (g_markerKey g0) (gw_redis w) = (r, Ret None) →
  marker_set_nx (g_markerKey g0) (gw_epochs w (gw_drawn w)) r = (r', Ret (Some true)) →
  let w1 := (run reconcile w).1 in
  (∀ now, now < gw_now w + g_quarantineMs (gw_guard w) → guard_assertAcceptable now (gw_guard w1) ≠ Ret tt) ∧
  (∀ now, 0 <= now → guard_assertAcceptable now (gw_guard (run reconcile (set_guard g0 w1)).1) = Ret tt).
Proof.
  intros Hnew Hkey Hlaw Hget Hset. apply guard_new_inv in Hnew. set (g0k := g_markerKey g0) in *.
  assert (Hep : g_trustedEpoch g0 = None) by (by subst g0). assert (Hun : g_quarantinedUntilMs g0 = Never) by (by subst g0).
  clear Hnew. subst g0k.
  cbn zeta. unfold reconcile. cbn [run pbind read call]. rewrite Hkey, Hget. cbn [run call gw_guard gw_redis].
  rewrite Hkey, Hset. cbn [run fst]. split.
  - intros now Hnow. cbn [set_guard set_redis gw_guard gw_redis gw_now].
    unfold guard_lost. rewrite (quarantined_closed _ _ now (enter_until _ _ _ _) Hnow). done.
  - intros now Hnow. cbn [set_guard set_redis gw_guard gw_redis].
    pose proof (Hlaw _ _ _ _ Hset) as Hgot. destruct (marker_get (g_markerKey g0) r') as [r2 rep].
    simpl in Hgot. subst rep. cbn [run fst set_guard set_redis gw_guard]. unfold guard_present. rewrite Hep.
    unfold guard_assertAcceptable, initialize. simpl. rewrite Hun. simpl. by rewrite bool_decide_eq_false_2 by lia.
Qed.
End restart.
