(* ===== verification/GovernedRedis.v ===== *)
(** * redis-governed.ts: the governed replay store

    The two Lua scripts are functions on a key space, run at one server time
    (Redis runs a script alone and freezes its clock).  The key space is a
    parameter with the documented behaviour of the commands the scripts call.
    The gate, the replay store and the bootstrap and reconcile procedures are
    functions and processes over a world with the clock, the key space, the
    gates of any number of verifiers, and the outcome of each client command:
    answered, lost before or after the script ran, or answered by anything.

    Times in replies are exact integers; Redis prints them with 14 significant
    digits, which is the same below 10^14 ms.  Client and server share one
    clock.  The scheduling of the reconcile loop is not modelled. *)

From S2P Require Import Prelude Proc JsNum Json JsText Nonce Continuity.
From stdpp Require Import base strings list gmap.
From Stdlib Require Import ZArith Lia Ascii.

Local Open Scope bpc_scope.
Local Open Scope Z_scope.

(** ** The key space *)

Class RedisKeyspace (K : Type) := {
  rk_get : string → Z → K → option string;              (* GET key, at a time *)
  rk_pttl : string → Z → K → Z;                         (* PTTL key *)
  rk_set_px : string → string → Z → Z → K → K;          (* SET key value PX ms *)
  rk_set_nx : string → string → Z → K → K * bool;       (* SET key value NX *)
  rk_set_nx_px : string → string → Z → Z → K → K * bool; (* SET key value NX PX ms *)
}.

(** The documented behaviour the scripts rely on.  Keys are not evicted. *)
Class RedisKeyspaceLaws (K : Type) `{!RedisKeyspace K} := {
  get_absent_stays k (t t' : Z) (s : K) : rk_get k t s = None → t <= t' → rk_get k t' s = None;
  get_set_px k v ms now t (s : K) : now <= t < now + ms → rk_get k t (rk_set_px k v ms now s) = Some v;
  get_set_px_after k v ms now t (s : K) : now + ms < t → rk_get k t (rk_set_px k v ms now s) = None;
  pttl_absent k now (s : K) : rk_get k now s = None → rk_pttl k now s = -2;
  get_set_px_ne k k' v ms now t (s : K) : k ≠ k' → rk_get k' t (rk_set_px k v ms now s) = rk_get k' t s;
  pttl_set_px k v ms now (s : K) : 0 < ms → rk_pttl k now (rk_set_px k v ms now s) = ms;
  set_nx_present k v v' now (s : K) : rk_get k now s = Some v' → rk_set_nx k v now s = (s, false);
  set_nx_absent k v now t (s : K) : rk_get k now s = None → now <= t →
    (rk_set_nx k v now s).2 = true ∧ rk_get k t (rk_set_nx k v now s).1 = Some v;
  set_nx_ne k k' v now t (s : K) : k ≠ k' → rk_get k' t (rk_set_nx k v now s).1 = rk_get k' t s;
  pttl_nx_ne k k' v now t (s : K) : k ≠ k' → rk_pttl k' t (rk_set_nx k v now s).1 = rk_pttl k' t s;
  set_nx_px_present k v v' ms now (s : K) : rk_get k now s = Some v' → rk_set_nx_px k v ms now s = (s, false);
  set_nx_px_absent k v ms now t (s : K) : rk_get k now s = None → now <= t < now + ms →
    (rk_set_nx_px k v ms now s).2 = true ∧ rk_get k t (rk_set_nx_px k v ms now s).1 = Some v;
  set_nx_px_ne k k' v ms now t (s : K) : k ≠ k' → rk_get k' t (rk_set_nx_px k v ms now s).1 = rk_get k' t s;
}.

(** A key space for examples: each key with its value and its expiry. *)
Abbreviation Keys := (gmap string (string * option Z)).
Definition keys_get (k : string) (now : Z) (s : Keys) : option string :=
  match s !! k with
  | Some (v, Some expiry) => if decide (now <= expiry) then Some v else None
  | Some (v, None) => Some v
  | None => None
  end.
#[export] Instance keys_space : RedisKeyspace Keys := {
  rk_get := keys_get;
  rk_pttl k now s := match keys_get k now s, s !! k with
                     | Some _, Some (_, Some expiry) => expiry - now
                     | Some _, _ => -1
                     | None, _ => -2
                     end;
  rk_set_px k v ms now s := <[k := (v, Some (now + ms))]> s;
  rk_set_nx k v now s := match keys_get k now s with Some _ => (s, false) | None => (<[k := (v, None)]> s, true) end;
  rk_set_nx_px k v ms now s := match keys_get k now s with
                               | Some _ => (s, false) | None => (<[k := (v, Some (now + ms))]> s, true) end;
}.

Lemma keys_get_insert k v e t (s : Keys) : (∀ x, e = Some x → t <= x) → keys_get k t (<[k := (v, e)]> s) = Some v.
Proof. intros He. unfold keys_get. rewrite lookup_insert_eq. destruct e as [x|]; [|done]. by rewrite decide_True by auto. Qed.
Lemma keys_get_insert_ne k k' x t (s : Keys) : k ≠ k' → keys_get k' t (<[k := x]> s) = keys_get k' t s.
Proof. intros Hne. unfold keys_get. by rewrite lookup_insert_ne. Qed.
Lemma keys_get_expired k v e t (s : Keys) : e < t → keys_get k t (<[k := (v, Some e)]> s) = None.
Proof. intros He. unfold keys_get. rewrite lookup_insert_eq. by rewrite decide_False by lia. Qed.
Lemma keys_pttl_insert k v e t (s : Keys) : t <= e → rk_pttl k t (<[k := (v, Some e)]> s) = e - t.
Proof.
  intros He. cbn [rk_pttl keys_space]. rewrite keys_get_insert by (by intros x [= <-]).
  by rewrite lookup_insert_eq.
Qed.

#[export] Program Instance keys_space_laws : RedisKeyspaceLaws Keys.
Next Obligation.
  intros k t t' s. simpl. unfold keys_get. destruct (s !! k) as [[v [e|]]|]; [|done..].
  case_decide; [done|]. intros _ Ht. by rewrite decide_False by lia.
Qed.
Next Obligation. intros k v ms now t s Ht. simpl. apply keys_get_insert. intros x [= <-]. lia. Qed.
Next Obligation.
  intros k v ms now t s Ht. by apply keys_get_expired.
Qed.
Next Obligation. intros k now s. simpl. by intros ->. Qed.
Next Obligation. intros k k' v ms now t s Hne. simpl. by apply keys_get_insert_ne. Qed.
Next Obligation.
  intros k v ms now s Hms. etrans; [apply keys_pttl_insert|]; lia.
Qed.
Next Obligation. intros k v v' now s. simpl. by intros ->. Qed.
Next Obligation. intros k v now t s Hk Ht. simpl in *. rewrite Hk. split; [done|]. by apply keys_get_insert. Qed.
Next Obligation. intros k k' v now t s Hne. simpl. destruct (keys_get k now s); [done|]. by apply keys_get_insert_ne. Qed.
Next Obligation.
  intros k k' v now t s Hne. simpl. destruct (keys_get k now s); [done|]. simpl.
  rewrite keys_get_insert_ne by done. by rewrite lookup_insert_ne by done.
Qed.
Next Obligation. intros k v v' ms now s. simpl. by intros ->. Qed.
Next Obligation.
  intros k v ms now t s Hk Ht. simpl in *. rewrite Hk. split; [done|]. apply keys_get_insert. intros x [= <-]. lia.
Qed.
Next Obligation. intros k k' v ms now t s Hne. simpl. destruct (keys_get k now s); [done|]. by apply keys_get_insert_ne. Qed.

(** ** Lua *)

(** [tonumber] on the strings the scripts apply it to: decimal digits. *)
Definition lua_tonumber (s : string) : option Z :=
  if (bool_decide (s ≠ EmptyString) && all_chars is_digit s)%bool then Some (digits_value 0 s) else None.

(** [string.match(config, '^(%d+):(%d+)$')], both captures as numbers. *)
Definition config_numbers (config : string) : option (Z * Z) :=
  let '(retention, rest) := span is_digit config in
  match rest with
  | String c quarantine =>
      if decide (c = ":"%char) then
        a ← lua_tonumber retention; b ← lua_tonumber quarantine;
        if decide (0 < a ∧ 0 < b) then Some (a, b) else None
      else None
  | EmptyString => None
  end.

Definition reply (status epoch ttl : string) : jsval := JArr [JStr status; JStr epoch; JStr ttl].

Section scripts.
Context {K : Type} `{!RedisKeyspace K}.
Implicit Types s : K.

(** KEYS[1], KEYS[2] and KEYS[3] of both scripts. *)
Record ContinuityKeys := mkKeys { ck_epoch : string; ck_quarantine : string; ck_config : string }.

Definition quarantine_at_least (keys : ContinuityKeys) (epoch : string) (minimum_ms now : Z) s : K * Z :=
  let ttl := rk_pttl (ck_quarantine keys) now s in
  let duration := if decide (minimum_ms < ttl) then ttl else minimum_ms in
  let s := rk_set_px (ck_quarantine keys) epoch duration now s in
  (s, rk_pttl (ck_quarantine keys) now s).

(** The part both scripts share: the configuration is malformed or another. *)
Definition config_rejected (keys : ContinuityKeys) (config argConfig epoch : string) (quarantine_ms now : Z) s :
    option (K * jsval) :=
  match config_numbers config with
  | None =>
      let '(s, ttl) := quarantine_at_least keys epoch quarantine_ms now s in
      Some (s, reply "CONFIG_INVALID" epoch (z_to_string ttl))
  | Some (_, stored_quarantine) =>
      if decide (config ≠ argConfig) then
        let minimum := if decide (quarantine_ms < stored_quarantine) then stored_quarantine else quarantine_ms in
        let '(s, ttl) := quarantine_at_least keys epoch minimum now s in
        Some (s, reply "CONFIG_MISMATCH" epoch (z_to_string ttl))
      else None
  end.

(** RECONCILE_SCRIPT from [if ARGV[3] ~= ''] on. *)
Definition reconcile_epoch (keys : ContinuityKeys) (status epoch expected : string) (quarantine_ms now : Z) s :
    K * jsval :=
  let '(s, status) := if decide (expected ≠ EmptyString ∧ epoch ≠ expected)
                      then ((quarantine_at_least keys epoch quarantine_ms now s).1, "EPOCH_CHANGED"%string)
                      else (s, status) in
  let quarantine := rk_get (ck_quarantine keys) now s in
  let ttl := rk_pttl (ck_quarantine keys) now s in
  let '(s, ttl) := match quarantine with
                   | Some q => if decide (q ≠ epoch ∨ ttl <= 0) then quarantine_at_least keys epoch quarantine_ms now s
                               else (s, ttl)
                   | None => (s, ttl)
                   end in
  (s, reply status epoch (z_to_string ttl)).

Definition RECONCILE_SCRIPT (keys : ContinuityKeys) (fresh quarantineArg expected argConfig : string) (now : Z) s :
    K * jsval :=
  match lua_tonumber quarantineArg with
  | None => (s, reply "INVALID" EmptyString "-2")
  | Some quarantine_ms =>
      if decide (quarantine_ms <= 0) then (s, reply "INVALID" EmptyString "-2")
      else
        let epoch := rk_get (ck_epoch keys) now s in
        let epochOr := default fresh epoch in
        let '(s, config, status) := match rk_get (ck_config keys) now s with
          | Some config => (s, Some config, "OK"%string)
          | None =>
              let s := (quarantine_at_least keys epochOr quarantine_ms now s).1 in
              let s := (rk_set_nx (ck_config keys) argConfig now s).1 in
              (s, rk_get (ck_config keys) now s, "CONFIG_ESTABLISHED"%string)
          end in
        match config_rejected keys (default EmptyString config) argConfig epochOr quarantine_ms now s with
        | Some r => r
        | None =>
            match epoch with
            | Some epoch => reconcile_epoch keys status epoch expected quarantine_ms now s
            | None =>
                let s := (quarantine_at_least keys fresh quarantine_ms now s).1 in
                let s := (rk_set_nx (ck_epoch keys) fresh now s).1 in
                match rk_get (ck_epoch keys) now s with
                | None => (s, reply "INVALID" EmptyString (z_to_string (rk_pttl (ck_quarantine keys) now s)))
                | Some epoch => reconcile_epoch keys "MISSING" epoch expected quarantine_ms now s
                end
            end
        end
  end.

Definition CONSUME_SCRIPT (keys : ContinuityKeys) (nonceKey expected fresh quarantineArg : string) (ttlMs : Z)
    (argConfig : string) (now : Z) s : K * jsval :=
  match lua_tonumber quarantineArg with
  | None => (s, reply "INVALID" EmptyString "-2")
  | Some quarantine_ms =>
      if decide (quarantine_ms <= 0) then (s, reply "INVALID" EmptyString "-2")
      else
        let epoch := rk_get (ck_epoch keys) now s in
        let epochOr := default fresh epoch in
        match rk_get (ck_config keys) now s with
        | None =>
            let '(s, ttl) := quarantine_at_least keys epochOr quarantine_ms now s in
            ((rk_set_nx (ck_config keys) argConfig now s).1, reply "CONFIG_MISSING" epochOr (z_to_string ttl))
        | Some config =>
            match config_rejected keys config argConfig epochOr quarantine_ms now s with
            | Some r => r
            | None =>
                match epoch with
                | None =>
                    let s := (quarantine_at_least keys fresh quarantine_ms now s).1 in
                    let s := (rk_set_nx (ck_epoch keys) fresh now s).1 in
                    (s, reply "MISSING" (default EmptyString (rk_get (ck_epoch keys) now s))
                          (z_to_string (rk_pttl (ck_quarantine keys) now s)))
                | Some epoch =>
                    if decide (epoch ≠ expected) then
                      let '(s, ttl) := quarantine_at_least keys epoch quarantine_ms now s in
                      (s, reply "EPOCH_CHANGED" epoch (z_to_string ttl))
                    else
                      match rk_get (ck_quarantine keys) now s with
                      | Some q =>
                          let ttl := rk_pttl (ck_quarantine keys) now s in
                          if decide (q ≠ epoch ∨ ttl <= 0) then
                            let '(s, ttl) := quarantine_at_least keys epoch quarantine_ms now s in
                            (s, reply "MALFORMED" epoch (z_to_string ttl))
                          else (s, reply "QUARANTINED" epoch (z_to_string ttl))
                      | None =>
                          let '(s, result) := rk_set_nx_px nonceKey "1" ttlMs now s in
                          (s, reply (if result : bool then "FRESH" else "REPLAY") epoch "-2")
                      end
                end
            end
        end
  end.

End scripts.

(** ** Replies *)

Definition is_epoch_char (c : ascii) : bool := (is_alnum c || one_of "._-" c)%bool.
Definition EPOCH_RE (s : string) : bool :=
  (bool_decide (1 <= str_len s <= 128) && all_chars is_epoch_char s)%bool.
Definition validateEpoch (epoch label : string) : exc string :=
  if EPOCH_RE epoch then Ret epoch
  else Throw (RangeError (label +:+ " must be 1-128 ASCII letters, digits, dot, underscore, or hyphen")).

Definition parse_ttl (status epoch : string) (n : num) : exc (string * string * Z) :=
  match num_safe_int n with
  | Some ttl => if decide (ttl < -2) then Throw NonceStoreUnavailableError else Ret (status, epoch, ttl)
  | None => Throw NonceStoreUnavailableError
  end.
Definition parseReply (raw : jsval) : exc (string * string * Z) :=
  match raw with
  | JArr [JStr status; JStr epoch; JStr ttl] => parse_ttl status epoch (Number_string ttl)
  | JArr [JStr status; JStr epoch; JNum ttl] => parse_ttl status epoch ttl
  | _ => Throw NonceStoreUnavailableError
  end.

(** ** The shared gate *)

Record SharedContinuityGate := mkGate {
  sg_epoch : option string;
  sg_quarantinedUntilMs : ztime;
  sg_reason : quarantine_reason;
  sg_stopped : bool;
}.
Definition SharedContinuityGate_new : SharedContinuityGate := mkGate None Never continuity_store_unavailable false.

Definition gate_error (g : SharedContinuityGate) : error :=
  AuthorizationQuarantineError (sg_reason g) (sg_quarantinedUntilMs g).
Definition continuityEpoch (g : SharedContinuityGate) : exc string :=
  match sg_epoch g with Some e => Ret e | None => Throw (gate_error g) end.
Definition gate_assertAcceptable (nowMs : Z) (g : SharedContinuityGate) : exc unit :=
  if (sg_stopped g || bool_decide (sg_epoch g = None) || before nowMs (sg_quarantinedUntilMs g))%bool
  then Throw (gate_error g) else Ret tt.
Definition gate_expectedEpoch (nowMs : Z) (g : SharedContinuityGate) : exc string :=
  _ ← gate_assertAcceptable nowMs g; continuityEpoch g.
Definition gate_apply (nowMs : Z) (epoch : string) (ttlMs : Z) (reason : option quarantine_reason)
    (g : SharedContinuityGate) : exc SharedContinuityGate :=
  _ ← validateEpoch epoch "Redis continuity epoch";
  if sg_stopped g then Ret g
  else Ret (mkGate (Some epoch) (if decide (0 < ttlMs) then At (nowMs + ttlMs) else At 0)
              (default continuity_marker_lost reason) false).
Definition failClosed (reason : quarantine_reason) (g : SharedContinuityGate) : SharedContinuityGate :=
  mkGate (sg_epoch g) Never reason (sg_stopped g).
Definition gate_close (g : SharedContinuityGate) : SharedContinuityGate :=
  failClosed continuity_store_unavailable
    (mkGate (sg_epoch g) (sg_quarantinedUntilMs g) (sg_reason g) true).

(** ** What the client does with a reply *)

Definition quarantine_statuses : list string :=
  ["MISSING"; "EPOCH_CHANGED"; "MALFORMED"; "QUARANTINED"; "CONFIG_MISSING"; "CONFIG_MISMATCH"; "CONFIG_INVALID"].

Definition consume_reason (status : string) : quarantine_reason :=
  if decide (status = "EPOCH_CHANGED"%string) then continuity_epoch_changed
  else if starts_with "CONFIG_" status then continuity_config_mismatch else continuity_marker_lost.

(** The [try] block of [AtomicContinuityNonceStore.checkAndConsume] after the
    [await]: the gate it leaves and the answer or the exception. *)
Definition consume_try (now : Z) (expectedEpoch : string) (raw : exc jsval) (g : SharedContinuityGate) :
    SharedContinuityGate * exc bool :=
  match (r ← raw; parseReply r) with
  | Throw e => (g, Throw e)
  | Ret (status, epoch, quarantineTtlMs) =>
      if decide (status = "FRESH"%string ∨ status = "REPLAY"%string) then
        if decide (epoch ≠ expectedEpoch ∨ quarantineTtlMs ≠ -2) then (g, Throw NonceStoreUnavailableError)
        else (g, Ret (bool_decide (status = "REPLAY"%string)))
      else if decide (status ∈ quarantine_statuses) then
        match validateEpoch epoch ("Redis governed " +:+ status +:+ " epoch") with
        | Throw e => (g, Throw e)
        | Ret _ =>
            if decide (quarantineTtlMs <= 0) then (g, Throw NonceStoreUnavailableError)
            else
              let reason := consume_reason status in
              match gate_apply now epoch quarantineTtlMs (Some reason) g with
              | Throw e => (g, Throw e)
              | Ret g => (g, Throw (AuthorizationQuarantineError reason (At (now + quarantineTtlMs))))
              end
        end
      else (g, Throw NonceStoreUnavailableError)
  end.

(** Its [catch] clause. *)
Definition consume_reply (now : Z) (expectedEpoch : string) (raw : exc jsval) (g : SharedContinuityGate) :
    SharedContinuityGate * exc bool :=
  match consume_try now expectedEpoch raw g with
  | (g, Throw (AuthorizationQuarantineError reason until)) => (g, Throw (AuthorizationQuarantineError reason until))
  | (g, Throw _) => (failClosed continuity_store_unavailable g, Throw NonceStoreUnavailableError)
  | r => r
  end.

Definition reconcile_statuses : list string := ["OK"; "CONFIG_ESTABLISHED"; "MISSING"; "EPOCH_CHANGED"].

Definition reconcile_reason (status : string) : quarantine_reason :=
  if decide (status = "EPOCH_CHANGED"%string) then continuity_epoch_changed
  else if decide (status = "CONFIG_ESTABLISHED"%string) then continuity_config_mismatch
  else continuity_marker_lost.

(** The errors the two callers throw for a reply they do not accept; those of
    the bootstrap are causes of a [NonceStoreUnavailableError]. *)
Inductive reply_fault := UnknownStatus | InvalidTtl | WrongEpoch | KeptEpoch.
Definition reconcile_error (fault : reply_fault) (status : string) : error :=
  PlainError match fault with
    | UnknownStatus => "Unknown continuity reconcile status: " +:+ status
    | InvalidTtl => "Redis continuity " +:+ status +:+ " response had an invalid quarantine TTL"
    | WrongEpoch => "Redis continuity " +:+ status +:+ " response violated the expected epoch"
    | KeptEpoch => "Redis continuity EPOCH_CHANGED response retained the expected epoch"
    end.
Definition bootstrap_error (fault : reply_fault) (status : string) : error := NonceStoreUnavailableError.

(** The checks [reconcile] and the bootstrap make of a reply; [expected] is the
    epoch sent along ([EmptyString] for a bootstrap without one). *)
Definition accept_reconcile (oops : reply_fault → string → error) (expected : string) (raw : jsval) :
    exc (string * Z * quarantine_reason) :=
  '(status, epoch, ttlMs) ← parseReply raw;
  if decide (status = "CONFIG_MISMATCH"%string ∨ status = "CONFIG_INVALID"%string)
  then Throw (RedisContinuityConfigurationError status)
  else if decide (status ∉ reconcile_statuses)
  then Throw (oops UnknownStatus status)
  else
    _ ← validateEpoch epoch ("Redis continuity " +:+ status +:+ " epoch");
    let established := bool_decide (status ≠ "OK"%string) in
    if (established && bool_decide (ttlMs <= 0) || negb established && bool_decide (ttlMs ≠ -2 ∧ ttlMs <= 0))%bool
    then Throw (oops InvalidTtl status)
    else if decide (expected ≠ EmptyString ∧ (status = "OK"%string ∨ status = "CONFIG_ESTABLISHED"%string) ∧
                    epoch ≠ expected)
    then Throw (oops WrongEpoch status)
    else if decide (status = "EPOCH_CHANGED"%string ∧ (expected = EmptyString ∨ epoch = expected))
    then Throw (oops KeptEpoch status)
    else Ret (epoch, ttlMs, reconcile_reason status).

(** [reconcile] after its [await], [catch] included. *)
Definition reconcile_reply (now : Z) (expected : string) (raw : exc jsval) (g : SharedContinuityGate) :
    SharedContinuityGate * exc unit :=
  match (r ← raw; '(epoch, ttlMs, reason) ← accept_reconcile reconcile_error expected r;
         gate_apply now epoch ttlMs (Some reason) g) with
  | Ret g => (g, Ret tt)
  | Throw e => (failClosed continuity_store_unavailable g, Throw e)
  end.

Definition bootstrap_reply (now : Z) (expected : string) (raw : exc jsval) (g : SharedContinuityGate) :
    SharedContinuityGate * exc unit :=
  match (r ← raw; '(epoch, ttlMs, reason) ← accept_reconcile bootstrap_error expected r;
         gate_apply now epoch ttlMs (Some reason) g) with
  | Ret g => (g, Ret tt)
  | Throw e => (g, Throw e)
  end.

(** ** The options *)

Record GovernedOptions := mkOptions {
  go_namespace : string;
  go_sigWindowMs : Z;
  go_safetyBufferMs : option Z;
  go_commandTimeoutMs : option Z;
  go_continuitySafetyAllowanceMs : option Z;
  go_reconcileIntervalMs : option Z;
  go_expectedEpoch : option string;
}.

(** What the factory derives before it talks to Redis. *)
Record GovernedConfig := mkGoverned {
  gc_retentionMs : Z;
  gc_quarantineMs : Z;
  gc_intervalMs : Z;
  gc_expectedEpoch : string;
  gc_keys : ContinuityKeys;
  gc_noncePrefix : string;
  gc_continuityConfig : string;
}.

Definition nonNegativeSafeInteger (value : Z) (label : string) : exc Z :=
  if (is_safe_integer value && bool_decide (0 <= value))%bool then Ret value
  else Throw (RangeError (label +:+ " must be a non-negative safe integer")).

Definition governed_keys (namespace : string) : ContinuityKeys :=
  let tag := "{" +:+ namespace +:+ "}" in
  mkKeys ("bpc:" +:+ tag +:+ ":continuity:v2") ("bpc:" +:+ tag +:+ ":continuity-quarantine:v2")
    ("bpc:" +:+ tag +:+ ":continuity-config:v2").
Definition governed_prefix (namespace : string) : string := "bpc:" +:+ ("{" +:+ namespace +:+ "}") +:+ ":nonce:".

(** [initialEpoch] is the first draw of [newEpoch]. *)
Definition governed_config (o : GovernedOptions) (initialEpoch : string) : exc GovernedConfig :=
  if negb (NAMESPACE_RE (go_namespace o))
  then Throw (RangeError "namespace must be 1-64 ASCII letters, digits, dot, underscore, or hyphen")
  else
    retentionMs ← deriveNonceRetentionMs (go_sigWindowMs o)
                    (default DEFAULT_NONCE_SAFETY_BUFFER_MS (go_safetyBufferMs o));
    allowanceMs ← nonNegativeSafeInteger
                    (default DEFAULT_CONTINUITY_SAFETY_ALLOWANCE_MS (go_continuitySafetyAllowanceMs o))
                    "continuitySafetyAllowanceMs";
    quarantineMs ← positiveSafeInteger (retentionMs + allowanceMs) "quarantineMs";
    _ ← positiveSafeInteger (default DEFAULT_REDIS_NONCE_TIMEOUT_MS (go_commandTimeoutMs o)) "commandTimeoutMs";
    intervalMs ← positiveSafeInteger
                   (default (Z.min 5000 (Z.max 1 (retentionMs / 2))) (go_reconcileIntervalMs o)) "reconcileIntervalMs";
    if decide (retentionMs <= intervalMs)
    then Throw (RangeError "reconcileIntervalMs must be shorter than nonce retentionMs")
    else
      _ ← validateEpoch initialEpoch "newEpoch() result";
      expectedEpoch ← match go_expectedEpoch o with
                      | None => Ret EmptyString
                      | Some e => validateEpoch e "expectedEpoch"
                      end;
      Ret (mkGoverned retentionMs quarantineMs intervalMs expectedEpoch (governed_keys (go_namespace o))
             (governed_prefix (go_namespace o)) (z_to_string retentionMs +:+ ":" +:+ z_to_string quarantineMs)).

(** ** The processes *)

(** What becomes of one client command: the script runs and its reply arrives;
    the command is lost on the way, or its reply is, and the promise is rejected
    (a timeout is either); or something else arrives as its reply. *)
Inductive link := Delivered | NotSent (e : error) | ReplyLost (e : error) | ReplyIs (raw : jsval).

Record GovernedWorld (K : Type) := mkGWorld {
  vw_now : Z;
  vw_redis : K;
  vw_gates : nat → SharedContinuityGate;   (* one gate per verifier process *)
  vw_epochs : nat → string;                (* the draws of newEpoch *)
  vw_links : nat → link;                   (* the fates of the commands *)
  vw_policies : nat → exc jsval;           (* the replies of CONFIG GET *)
  vw_draws : nat;
}.
Arguments mkGWorld {K}.
Arguments vw_now {K}.
Arguments vw_redis {K}.
Arguments vw_gates {K}.
Arguments vw_epochs {K}.
Arguments vw_links {K}.
Arguments vw_policies {K}.
Arguments vw_draws {K}.

Section governed.
Context {K : Type} `{!RedisKeyspace K} (c : GovernedConfig).
Notation W := (GovernedWorld K).
Implicit Types w : W.

Definition vw_set_redis (s : K) w : W :=
  mkGWorld (vw_now w) s (vw_gates w) (vw_epochs w) (vw_links w) (vw_policies w) (vw_draws w).
Definition vw_set_gate (v : nat) (g : SharedContinuityGate) w : W :=
  mkGWorld (vw_now w) (vw_redis w) (λ u, if decide (u = v) then g else vw_gates w u) (vw_epochs w) (vw_links w)
    (vw_policies w) (vw_draws w).
Definition vw_drawn w : W :=
  mkGWorld (vw_now w) (vw_redis w) (vw_gates w) (vw_epochs w) (vw_links w) (vw_policies w) (S (vw_draws w)).

(** [redis.eval], executed at the server as one step. *)
Definition eval_op (script : Z → K → K * jsval) : proc W (exc jsval) :=
  call (λ w,
    let w' := vw_drawn w in
    match vw_links w (vw_draws w) with
    | NotSent e => (w', Throw e)
    | Delivered => let '(s, r) := script (vw_now w) (vw_redis w) in (vw_set_redis s w', Ret r)
    | ReplyLost e => let '(s, _) := script (vw_now w) (vw_redis w) in (vw_set_redis s w', Throw e)
    | ReplyIs raw => let '(s, _) := script (vw_now w) (vw_redis w) in (vw_set_redis s w', Ret raw)
    end).

Definition draw_epoch : proc W (exc string) :=
  call (λ w, (vw_drawn w, validateEpoch (vw_epochs w (vw_draws w)) "newEpoch() result")).
Definition policy_op : proc W (exc unit) :=
  call (λ w, (vw_drawn w, assertNoEvictionPolicy (vw_policies w (vw_draws w)))).
Definition reply_op {A} (v : nat) (handle : Z → SharedContinuityGate → SharedContinuityGate * exc A) : proc W (exc A) :=
  call (λ w, let '(g, r) := handle (vw_now w) (vw_gates w v) in (vw_set_gate v g w, r)).

Definition quarantineArg : string := z_to_string (gc_quarantineMs c).

Definition consume_script (nonce expected fresh : string) (ttlMs : Z) : Z → K → K * jsval :=
  CONSUME_SCRIPT (gc_keys c) (gc_noncePrefix c +:+ nonce) expected fresh quarantineArg ttlMs (gc_continuityConfig c).
Definition reconcile_script (fresh expected : string) : Z → K → K * jsval :=
  RECONCILE_SCRIPT (gc_keys c) fresh quarantineArg expected (gc_continuityConfig c).

Section verifier.
Variable v : nat.

(** [AtomicContinuityNonceStore.checkAndConsume], as [ServerNonceStore] calls it
    with the retention.  What it throws passes through [ServerNonceStore]
    unchanged, or wrapped. *)
Definition governed_checkAndConsume (nonce : string) : proc W (exc bool) :=
  match positiveSafeInteger (gc_retentionMs c) "ttlMs" with
  | Throw e => ethrow (wrap_nonce_error e)
  | Ret ttlMs =>
      let* expected := read (λ w, gate_expectedEpoch (vw_now w) (vw_gates w v)) in
      match expected with
      | Throw e => ethrow (wrap_nonce_error e)
      | Ret expectedEpoch =>
          let* fresh := draw_epoch in
          match fresh with
          | Throw e => ethrow (wrap_nonce_error e)
          | Ret replacementEpoch =>
              let* raw := eval_op (consume_script nonce expectedEpoch replacementEpoch ttlMs) in
              reply_op v (λ now, consume_reply now expectedEpoch raw)
          end
      end
  end.

Definition gate_fail (e : error) : proc W (exc unit) :=
  do* update (λ w, vw_set_gate v (failClosed continuity_store_unavailable (vw_gates w v)) w) in ethrow e.

Definition governed_reconcile : proc W (exc unit) :=
  let* policy := policy_op in
  match policy with
  | Throw e => gate_fail e
  | Ret _ =>
      let* expected := read (λ w, continuityEpoch (vw_gates w v)) in
      match expected with
      | Throw e => gate_fail e
      | Ret expectedEpoch =>
          let* fresh := draw_epoch in
          match fresh with
          | Throw e => gate_fail e
          | Ret epoch =>
              let* raw := eval_op (reconcile_script epoch expectedEpoch) in
              reply_op v (λ now, reconcile_reply now expectedEpoch raw)
          end
      end
  end.

(** The asynchronous part of the factory: nothing is returned unless the policy
    and the first reconciliation are accepted. *)
Definition governed_bootstrap (initialEpoch : string) : proc W (exc unit) :=
  do+ policy_op in
  let* raw := eval_op (reconcile_script initialEpoch (gc_expectedEpoch c)) in
  reply_op v (λ now, bootstrap_reply now (gc_expectedEpoch c) raw).

Definition governed_stop : proc W unit := update (λ w, vw_set_gate v (gate_close (vw_gates w v)) w).
End verifier.
End governed.

(** [createGovernedRedisBackedNonceStore] of verifier [v]: the options, the
    bootstrap and the options of the reconcile loop. *)
Definition createGovernedRedisBackedNonceStore {K} `{!RedisKeyspace K} (v : nat) (o : GovernedOptions) :
    proc (GovernedWorld K) (exc GovernedConfig) :=
  let* drawn := call (λ w, (vw_drawn w, vw_epochs w (vw_draws w))) in
  match governed_config o drawn with
  | Throw e => ethrow e
  | Ret c =>
      do* update (vw_set_gate v SharedContinuityGate_new) in
      do+ governed_bootstrap c v drawn in
      match startContinuityReconcileLoop (gc_intervalMs c) (gc_retentionMs c) with
      | Throw e => ethrow e
      | Ret _ => eret c
      end
  end.
