(* ===== verification/GovernedSafety.v ===== *)
(** * Single use across state loss

    The governed replay store never accepts a nonce twice within its retention,
    for any number of verifiers and reconciliations in any interleaving, with
    commands and replies lost, and with the whole key space lost at any moment.
    The argument is one invariant of the key space, [shielded]: until the
    retention ends, the nonce is there, or the configuration is gone (so the next
    script must quarantine first), or the quarantine outlasts the nonce. *)

From S2P Require Import Prelude Proc JsNum Json JsText Nonce Continuity GovernedRedis.
From stdpp Require Import base strings list relations.
From Stdlib Require Import ZArith Lia Ascii.

Local Open Scope Z_scope.

(** ** What a script writes *)

Section scripts.
Context {K : Type} `{RedisKeyspaceLaws K} (keys : ContinuityKeys) (Q now : Z).
Implicit Types s : K.

Record distinct_keys : Prop := {
  epoch_quarantine : ck_epoch keys ≠ ck_quarantine keys;
  epoch_config : ck_epoch keys ≠ ck_config keys;
  quarantine_config : ck_quarantine keys ≠ ck_config keys;
}.

Inductive guard_write : K → K → Prop :=
  | write_quarantine e m s : Q <= m → guard_write s (quarantine_at_least keys e m now s).1
  | write_nx k v s : k = ck_epoch keys ∨ k = ck_config keys → guard_write s (rk_set_nx k v now s).1.

(** A script that writes at all writes the quarantine first; and one that
    does not has found the configuration. *)
Definition quarantined s s' : Prop :=
  ∃ e m, Q <= m ∧ rtc guard_write (quarantine_at_least keys e m now s).1 s'.
Definition disciplined s s' : Prop :=
  (s' = s ∧ rk_get (ck_config keys) now s ≠ None) ∨ quarantined s s'.

Lemma quarantined_first s e m : Q <= m → quarantined s (quarantine_at_least keys e m now s).1.
Proof. by exists e, m. Qed.

Lemma quarantined_write s s1 s2 : quarantined s s1 → guard_write s1 s2 → quarantined s s2.
Proof. intros (e & m & Hm & Hw) Hs. exists e, m. split; [done|]. by eapply rtc_r. Qed.

Lemma disciplined_quarantine s s1 e m : disciplined s s1 → Q <= m →
  quarantined s (quarantine_at_least keys e m now s1).1.
Proof. intros [[-> _]|Hq] Hm; [by apply quarantined_first|]. eapply quarantined_write; [done|by constructor]. Qed.

Lemma disciplined_claim s s1 e k v : disciplined s s1 → k = ck_epoch keys ∨ k = ck_config keys →
  quarantined s (rk_set_nx k v now (quarantine_at_least keys e Q now s1).1).1.
Proof. intros Hd Hk. eapply quarantined_write; [by apply (disciplined_quarantine s s1 e Q)|by constructor]. Qed.

Lemma config_rejected_disciplined s s1 config arg e r : disciplined s s1 →
  config_rejected keys config arg e Q now s1 = Some r → disciplined s r.1.
Proof.
  intros Hd. unfold config_rejected. destruct (config_numbers config) as [[a b]|].
  - case_decide; [|done]. destruct (quarantine_at_least _ _ _ _ _) as [s2 ttl] eqn:Eq. intros [= <-]. simpl.
    replace s2 with (quarantine_at_least keys e (if decide (Q < b) then b else Q) now s1).1 by (by rewrite Eq).
    right. apply disciplined_quarantine; [done|]. case_decide; lia.
  - destruct (quarantine_at_least _ _ _ _ _) as [s2 ttl] eqn:Eq. intros [= <-]. simpl.
    replace s2 with (quarantine_at_least keys e Q now s1).1 by (by rewrite Eq).
    right. by apply disciplined_quarantine.
Qed.

Lemma reconcile_epoch_disciplined s s1 status epoch expected : disciplined s s1 →
  disciplined s (reconcile_epoch keys status epoch expected Q now s1).1.
Proof.
  intros Hd. unfold reconcile_epoch.
  assert (Hd1 : ∀ s2, disciplined s s2 → ∀ ttl e, disciplined s
     (match rk_get (ck_quarantine keys) now s2 with
      | Some q => if decide (q ≠ e ∨ ttl <= 0) then quarantine_at_least keys e Q now s2 else (s2, ttl)
      | None => (s2, ttl) end).1).
  { intros s2 Hd2 ttl e. destruct (rk_get _ _ s2) as [q|]; [|done]. case_decide; [|done].
    right. by apply disciplined_quarantine. }
  case_decide.
  - specialize (Hd1 _ (or_intror (disciplined_quarantine _ _ epoch Q Hd ltac:(lia)))
      (rk_pttl (ck_quarantine keys) now (quarantine_at_least keys epoch Q now s1).1) epoch).
    by destruct (match rk_get _ _ _ with Some _ => _ | None => _ end) as [s3 ttl].
  - specialize (Hd1 _ Hd (rk_pttl (ck_quarantine keys) now s1) epoch).
    by destruct (match rk_get _ _ _ with Some _ => _ | None => _ end) as [s3 ttl].
Qed.

Context (arg : string) (Harg : lua_tonumber arg = Some Q) (HQ : 0 < Q).

Lemma reconcile_disciplined fresh expected config s :
  disciplined s (RECONCILE_SCRIPT keys fresh arg expected config now s).1.
Proof.
  unfold RECONCILE_SCRIPT. rewrite Harg, decide_False by lia.
  assert (Hrest : ∀ s1 cfg status, disciplined s s1 → disciplined s
    (match config_rejected keys cfg config (default fresh (rk_get (ck_epoch keys) now s)) Q now s1 with
     | Some r => r
     | None => match rk_get (ck_epoch keys) now s with
         | Some epoch => reconcile_epoch keys status epoch expected Q now s1
         | None =>
             let s1 := (quarantine_at_least keys fresh Q now s1).1 in
             let s1 := (rk_set_nx (ck_epoch keys) fresh now s1).1 in
             match rk_get (ck_epoch keys) now s1 with
             | None => (s1, reply "INVALID" EmptyString (z_to_string (rk_pttl (ck_quarantine keys) now s1)))
             | Some epoch => reconcile_epoch keys "MISSING" epoch expected Q now s1
             end
         end
     end).1).
  { intros s1 cfg status Hd. destruct (config_rejected _ _ _ _ _ _ s1) as [r|] eqn:Hrej;
      [by eapply config_rejected_disciplined|].
    destruct (rk_get (ck_epoch keys) now s) as [epoch|]; [by apply reconcile_epoch_disciplined|].
    pose proof (disciplined_claim s s1 fresh (ck_epoch keys) fresh Hd ltac:(by left)) as Hq. cbv zeta.
    destruct (rk_get (ck_epoch keys) now _) as [epoch|]; [apply reconcile_epoch_disciplined|]; by right. }
  destruct (rk_get (ck_config keys) now s) as [cfg|] eqn:Hcfg; apply Hrest.
  - left. by rewrite Hcfg.
  - right. eapply quarantined_write; [|constructor; by right]. apply quarantined_first. lia.
Qed.

(** The only way to an answer [FRESH], and everything else the script does. *)
Lemma consume_cases nonceKey expected fresh ttlMs config s :
  let r := CONSUME_SCRIPT keys nonceKey expected fresh arg ttlMs config now s in
  (∃ status epoch ttl, r.2 = reply status epoch ttl ∧ status ≠ "FRESH"%string) ∧ disciplined s r.1 ∨
  rk_get (ck_config keys) now s ≠ None ∧ rk_get (ck_quarantine keys) now s = None ∧
    r = (let '(s', result) := rk_set_nx_px nonceKey "1" ttlMs now s in
         (s', reply (if result : bool then "FRESH" else "REPLAY") expected "-2")).
Proof.
  cbv zeta. unfold CONSUME_SCRIPT. rewrite Harg, decide_False by lia.
  assert (Hqal : ∀ e m status ttl, Q <= m → status ≠ "FRESH"%string → ∀ epoch,
    (∃ status' epoch' ttl', reply status epoch ttl = reply status' epoch' ttl' ∧ status' ≠ "FRESH"%string) ∧
    disciplined s (quarantine_at_least keys e m now s).1).
  { intros e m status ttl Hm Hne epoch. split; [by eauto|]. right. by apply quarantined_first. }
  destruct (rk_get (ck_config keys) now s) as [cfg|] eqn:Hcfg.
  2: { left. destruct (quarantine_at_least _ _ _ _ _) as [s1 ttl] eqn:Eq. split; [by eexists _, _, _|]. right.
       eapply quarantined_write; [apply (quarantined_first s (default fresh (rk_get (ck_epoch keys) now s)) Q); lia|].
       rewrite Eq. constructor. by right. }
  assert (Hd : disciplined s s) by (left; by rewrite Hcfg).
  destruct (config_rejected _ _ _ _ _ _ s) as [r|] eqn:Hrej.
  { left. split; [|by eapply config_rejected_disciplined]. unfold config_rejected in Hrej.
    destruct (config_numbers cfg) as [[a b]|]; [case_decide; [|done]|];
      destruct (quarantine_at_least _ _ _ _ _) as [s1 ttl]; injection Hrej as <-; by eexists _, _, _. }
  destruct (rk_get (ck_epoch keys) now s) as [epoch|].
  2: { left. split; [by eexists _, _, _|]. right. by apply disciplined_claim; [|left]. }
  case_decide as He.
  { left. destruct (quarantine_at_least _ _ _ _ _) as [s1 ttl] eqn:Eq.
    rewrite <-(f_equal fst Eq : _ = s1). by apply Hqal. }
  destruct (decide (epoch = expected)) as [->|]; [|contradiction].
  destruct (rk_get (ck_quarantine keys) now s) as [q|] eqn:Hq; [|by right].
  left. case_decide; [|split; [by eexists _, _, _|done]].
  destruct (quarantine_at_least _ _ _ _ _) as [s1 ttl] eqn:Eq.
  rewrite <-(f_equal fst Eq : _ = s1). by apply Hqal.
Qed.
End scripts.

(** ** The shield *)

Section shield.
Context {K : Type} `{RedisKeyspaceLaws K} (keys : ContinuityKeys) (Q : Z).
Context (Hkeys : distinct_keys keys).
Implicit Types s : K.

Definition other_key (k : string) : Prop := k ≠ ck_epoch keys ∧ k ≠ ck_quarantine keys ∧ k ≠ ck_config keys.

(** The key is there at every moment before [D]. *)
Definition holds (k : string) (D now : Z) s : Prop := ∀ t, now <= t < D → rk_get k t s ≠ None.
Definition shielded (k : string) (D now : Z) s : Prop :=
  now < D → holds k D now s ∨ rk_get (ck_config keys) now s = None ∨ holds (ck_quarantine keys) D now s.

Lemma quarantine_holds e m now D s : 0 < Q → Q <= m → D <= now + Q →
  holds (ck_quarantine keys) D now (quarantine_at_least keys e m now s).1.
Proof.
  intros HQ Hm HD t Ht. unfold quarantine_at_least. cbn [fst].
  rewrite get_set_px; [done|]. case_decide; lia.
Qed.

Lemma quarantine_other k e m now D s : k ≠ ck_quarantine keys → holds k D now s →
  holds k D now (quarantine_at_least keys e m now s).1.
Proof. intros Hk Hh t Ht. unfold quarantine_at_least. cbn [fst]. rewrite get_set_px_ne by done. by apply Hh. Qed.

Lemma write_holds k now D s s' : 0 < Q → D <= now + Q → k ≠ ck_epoch keys → k ≠ ck_config keys →
  guard_write keys Q now s s' → holds k D now s → holds k D now s'.
Proof.
  intros HQ HD He Hc [e m s0 Hm|k' v s0 Hk'] Hh.
  - destruct (decide (k = ck_quarantine keys)) as [->|Hne]; [by apply quarantine_holds|by apply quarantine_other].
  - intros t Ht. rewrite set_nx_ne by naive_solver. by apply Hh.
Qed.

Lemma writes_hold k now D s s' : 0 < Q → D <= now + Q → k ≠ ck_epoch keys → k ≠ ck_config keys →
  rtc (guard_write keys Q now) s s' → holds k D now s → holds k D now s'.
Proof. intros HQ HD He Hc. induction 1 as [|s1 s2 s3 Hw _ IH]; [done|]. intros Hh. apply IH. by eapply write_holds. Qed.

(** A script keeps every shield whose nonce is not older than the quarantine. *)
Lemma disciplined_shield k now D s s' : 0 < Q → D <= now + Q →
  disciplined keys Q now s s' → shielded k D now s → shielded k D now s'.
Proof.
  intros HQ HD [[-> _]|(e & m & Hm & Hw)] Hs Hnow; [by apply Hs|]. right. right.
  eapply writes_hold; [done..| | |exact Hw|by apply quarantine_holds]; pose proof Hkeys as []; congruence.
Qed.

(** Consuming another nonce, or the same one again, keeps the shield. *)
Lemma set_nonce_shield k k' ttl now D s : other_key k' →
  shielded k D now s → shielded k D now (rk_set_nx_px k' "1" ttl now s).1.
Proof.
  intros (He & Hq & Hc) Hs Hnow. destruct (Hs Hnow) as [Hh|[Hcfg|Hh]].
  - left. destruct (decide (k' = k)) as [->|Hne].
    + destruct (rk_get k now s) as [v|] eqn:Hk; [|destruct (Hh now); [lia|done]].
      by rewrite (set_nx_px_present k "1" v).
    + intros t Ht. rewrite set_nx_px_ne by done. by apply Hh.
  - right; left. by rewrite set_nx_px_ne.
  - right; right. intros t Ht. rewrite set_nx_px_ne by done. by apply Hh.
Qed.

(** Time keeps it too. *)
Lemma time_shield k now now' D s : now <= now' → shielded k D now s → shielded k D now' s.
Proof.
  intros Hle Hs Hnow. destruct (Hs ltac:(lia)) as [Hh|[Hcfg|Hh]].
  - left. intros t Ht. apply Hh. lia.
  - right; left. by eapply get_absent_stays.
  - right; right. intros t Ht. apply Hh. lia.
Qed.

Context (arg : string) (Harg : lua_tonumber arg = Some Q) (HQ : 0 < Q).

Lemma consume_shield k k' expected fresh ttl config now D s : other_key k' → D <= now + Q →
  shielded k D now s → shielded k D now (CONSUME_SCRIPT keys k' expected fresh arg ttl config now s).1.
Proof.
  intros Hk' HD Hs.
  destruct (consume_cases keys Q now arg Harg HQ k' expected fresh ttl config s) as [[_ Hd]|(_ & _ & Hr)].
  - by eapply disciplined_shield.
  - rewrite Hr. pose proof (set_nonce_shield k k' ttl now D s Hk' Hs) as Hsh.
    by destruct (rk_set_nx_px _ _ _ _ _) as [s' b].
Qed.

Lemma reconcile_shield k fresh expected config now D s : D <= now + Q →
  shielded k D now s → shielded k D now (RECONCILE_SCRIPT keys fresh arg expected config now s).1.
Proof. intros HD Hs. eapply disciplined_shield; [done|done| |done]. by apply reconcile_disciplined. Qed.

Definition answers_fresh (r : jsval) : Prop := ∃ epoch ttl, r = reply "FRESH" epoch ttl.

(** A nonce that is consumed is shielded for its time to live, and a shielded
    nonce is not consumed. *)
Lemma fresh_shields k expected fresh ttl config now s :
  answers_fresh (CONSUME_SCRIPT keys k expected fresh arg ttl config now s).2 →
  shielded k (now + ttl) now (CONSUME_SCRIPT keys k expected fresh arg ttl config now s).1 ∧
  (∀ D, shielded k D now s → D <= now).
Proof.
  intros (e & t & Hr).
  destruct (consume_cases keys Q now arg Harg HQ k expected fresh ttl config s)
    as [[(st & e' & t' & Hr' & Hne) _]|(Hcfg & Hqn & Heq)].
  - rewrite Hr in Hr'. by injection Hr' as <- <- <-.
  - rewrite Heq in *. destruct (rk_get k now s) as [v|] eqn:Hk.
    { rewrite (set_nx_px_present k "1" v) in Hr by done. by injection Hr. }
    split.
    + destruct (rk_set_nx_px k "1" ttl now s) as [s' b] eqn:Hset. intros Hnow. left. intros t1 Ht1.
      destruct (set_nx_px_absent k "1" ttl now t1 s Hk Ht1) as [_ Hget]. rewrite Hset in Hget. simpl in *. congruence.
    + intros D Hs. destruct (decide (now < D)) as [Hlt|]; [|lia].
      destruct (Hs Hlt) as [Hh|[Hc|Hh]]; [by destruct (Hh now); [lia|]|done|by destruct (Hh now); [lia|]].
Qed.
End shield.

(** ** Facts on the options *)

Lemma z_to_string_digits n : 0 < n → lua_tonumber (z_to_string n) = Some n.
Proof.
  intros Hn. unfold lua_tonumber, z_to_string. rewrite decide_False by lia.
  pose proof (digits_shape n ltac:(lia)) as Hs. rewrite (digits_all n) by lia.
  rewrite bool_decide_eq_true_2; [simpl; f_equal; apply digits_value_digits; lia|].
  by destruct Hs as [[_ ->]|(_ & d & s & -> & _)].
Qed.

Lemma positive_Ret v label z : positiveSafeInteger v label = Ret z → z = v ∧ 0 < v.
Proof.
  unfold positiveSafeInteger. destruct (_ && _)%bool eqn:Hb; [|done]. intros [= <-].
  apply andb_true_iff in Hb as [_ Hb]. by apply bool_decide_eq_true in Hb.
Qed.

Record sound_config (c : GovernedConfig) : Prop := {
  sc_retention : 0 < gc_retentionMs c;
  sc_quarantine : gc_retentionMs c <= gc_quarantineMs c;
  sc_keys : distinct_keys (gc_keys c);
  sc_nonces nonce : other_key (gc_keys c) (gc_noncePrefix c +:+ nonce);
}.

Lemma string_app_cancel (p a b : string) : p +:+ a = p +:+ b → a = b.
Proof. intros Heq%(f_equal chars). rewrite !chars_app in Heq. apply app_inv_head in Heq. by apply chars_inj. Qed.

Lemma governed_config_sound o e c : governed_config o e = Ret c → sound_config c.
Proof.
  unfold governed_config. destruct (negb _); [done|].
  intros (ret & Hret & H1)%exc_bind_Ret. apply exc_bind_Ret in H1 as (allow & Hallow & H1).
  apply exc_bind_Ret in H1 as (quar & Hquar & H1). apply exc_bind_Ret in H1 as (? & _ & H1).
  apply exc_bind_Ret in H1 as (interval & _ & H1). destruct (decide _); [done|].
  apply exc_bind_Ret in H1 as (? & _ & H1). apply exc_bind_Ret in H1 as (? & _ & [= <-]).
  apply positive_Ret in Hquar as [-> Hq]. pose proof (deriveNonceRetentionMs_covers _ _ _ Hret) as Hc.
  unfold nonNegativeSafeInteger in Hallow. destruct (_ && _)%bool eqn:Hb; [|done]. injection Hallow as <-.
  apply andb_true_iff in Hb as [_ Hb%bool_decide_eq_true].
  split; simpl; [lia|lia| |].
  - unfold governed_keys. cbn zeta. rewrite !string_app_assoc.
    split; cbn [ck_epoch ck_quarantine ck_config]; intros Hk; do 4 apply string_app_cancel in Hk; by vm_compute in Hk.
  - intros nonce. unfold governed_keys, governed_prefix, other_key. cbn zeta.
    cbn [ck_epoch ck_quarantine ck_config]. rewrite !string_app_assoc.
    split_and!; intros Hk; do 4 apply string_app_cancel in Hk; by vm_compute in Hk.
Qed.

(** ** Processes *)

Inductive verifier_call := Consume (v : nat) (nonce : string) | Reconcile (v : nat).

Section pools.
Context {K : Type} `{RedisKeyspaceLaws K} (c : GovernedConfig) (Hc : sound_config c).
Notation W := (GovernedWorld K).
Implicit Types w : W.

Definition perform (call : verifier_call) : proc W (exc bool) :=
  match call with
  | Consume v nonce => governed_checkAndConsume c v nonce
  | Reconcile v => pbind (governed_reconcile c v) (λ r, Done ((λ _, true) <$> r))
  end.

(** What may happen around the calls: time passes, the key space is lost, late
    commands of this deployment run, a gate changes. *)
Inductive env_move w : W → Prop :=
  | env_time t : vw_now w <= t → env_move w
      (mkGWorld t (vw_redis w) (vw_gates w) (vw_epochs w) (vw_links w) (vw_policies w) (vw_draws w))
  | env_loss s : (∀ k, rk_get k (vw_now w) s = None) → env_move w (vw_set_redis s w)
  | env_consume nonce expected fresh ttl :
      env_move w (vw_set_redis (consume_script c nonce expected fresh ttl (vw_now w) (vw_redis w)).1 w)
  | env_reconcile fresh expected :
      env_move w (vw_set_redis (reconcile_script c fresh expected (vw_now w) (vw_redis w)).1 w)
  | env_gate v g : env_move w (vw_set_gate v g w).

Definition world_shield (nonce : string) (D : Z) w : Prop :=
  shielded (gc_keys c) (gc_noncePrefix c +:+ nonce) D (vw_now w) (vw_redis w).
Record keeps_shields w w' : Prop := {
  ks_now : vw_now w <= vw_now w';
  ks_links : vw_links w' = vw_links w;
  ks_shield nonce D : D <= vw_now w + gc_quarantineMs c → world_shield nonce D w → world_shield nonce D w';
}.
#[export] Instance keeps_shields_preorder : PreOrder keeps_shields.
Proof.
  split; [by split|]. intros w1 w2 w3 [???] [???]. split; [lia|congruence|].
  intros nonce D HD Hs. naive_solver lia.
Qed.

Lemma quarantine_pos : 0 < gc_quarantineMs c.
Proof. pose proof (sc_retention c Hc). pose proof (sc_quarantine c Hc). lia. Qed.

Lemma quarantineArg_number : lua_tonumber (quarantineArg c) = Some (gc_quarantineMs c).
Proof. apply z_to_string_digits, quarantine_pos. Qed.

Lemma same_redis_keeps w w' : vw_now w' = vw_now w → vw_links w' = vw_links w → vw_redis w' = vw_redis w →
  keeps_shields w w'.
Proof. intros Hn Hl Hr. split; [lia|done|]. intros nonce D HD. unfold world_shield. by rewrite Hn, Hr. Qed.

(** The scripts of the deployment keep the shields. *)
Definition keeps_script (script : Z → K → K * jsval) : Prop := ∀ nonce D now s, D <= now + gc_quarantineMs c →
  shielded (gc_keys c) (gc_noncePrefix c +:+ nonce) D now s →
  shielded (gc_keys c) (gc_noncePrefix c +:+ nonce) D now (script now s).1.

Lemma consume_script_keeps nonce expected fresh ttl : keeps_script (consume_script c nonce expected fresh ttl).
Proof.
  intros nonce' D now s HD Hs. apply (consume_shield _ (gc_quarantineMs c)); try done.
  - apply (sc_keys c Hc).
  - apply quarantineArg_number.
  - apply quarantine_pos.
  - apply (sc_nonces c Hc).
Qed.

Lemma reconcile_script_keeps fresh expected : keeps_script (reconcile_script c fresh expected).
Proof.
  intros nonce' D now s HD Hs. apply (reconcile_shield _ (gc_quarantineMs c)); try done.
  - apply (sc_keys c Hc).
  - apply quarantineArg_number.
  - apply quarantine_pos.
Qed.

Lemma script_keeps script w w' : keeps_script script → vw_now w' = vw_now w → vw_links w' = vw_links w →
  vw_redis w' = (script (vw_now w) (vw_redis w)).1 → keeps_shields w w'.
Proof.
  intros Hk Hn Hl Hr. split; [lia|done|]. intros nonce D HD Hs. unfold world_shield. rewrite Hn, Hr. by apply Hk.
Qed.

Lemma env_keeps w w' : env_move w w' → keeps_shields w w'.
Proof.
  intros [t Ht|s Hs|nonce e f ttl|f e|v g].
  - split; [done|done|]. intros nonce D HD. by apply time_shield.
  - split; [done|done|]. intros nonce D HD _ Hlt. right; left. apply Hs.
  - by eapply script_keeps; [apply consume_script_keeps|..].
  - by eapply script_keeps; [apply reconcile_script_keeps|..].
  - by apply same_redis_keeps.
Qed.

Lemma always_eval script : keeps_script script → always keeps_shields (eval_op script).
Proof.
  intros Hk. apply always_call. intros w. cbv zeta.
  destruct (script (vw_now w) (vw_redis w)) as [s r] eqn:Hs.
  destruct (vw_links w (vw_draws w)); simpl; try (by apply same_redis_keeps);
    (eapply script_keeps; [exact Hk|done|done|simpl; by rewrite Hs]).
Qed.

Lemma always_reply {A} v (handle : Z → SharedContinuityGate → SharedContinuityGate * exc A) :
  always keeps_shields (reply_op (K := K) v handle).
Proof. apply always_call. intros w. destruct (handle _ _). by apply same_redis_keeps. Qed.

Lemma always_draw : always keeps_shields (draw_epoch (K := K)).
Proof. apply always_call. intros w. by apply same_redis_keeps. Qed.

Lemma always_perform op : always keeps_shields (perform op).
Proof.
  assert (Hfail : ∀ v e, always keeps_shields (gate_fail (K := K) v e)).
  { intros v e. apply always_bind; [|done]. apply always_call. intros w. by apply same_redis_keeps. }
  destruct op as [v nonce|v]; unfold perform.
  - unfold governed_checkAndConsume. destruct (positiveSafeInteger _ _); [|done].
    apply always_bind; [by apply always_read; intros w; reflexivity|]. intros [e|]; [|done].
    apply always_bind; [apply always_draw|]. intros [f|]; [|done].
    apply always_bind; [apply always_eval, consume_script_keeps|]. intros raw. apply always_reply.
  - apply always_bind; [|done]. unfold governed_reconcile.
    apply always_bind; [apply always_call; intros w; by apply same_redis_keeps|]. intros [[]|]; [|apply Hfail].
    apply always_bind; [by apply always_read; intros w; reflexivity|]. intros [e|]; [|apply Hfail].
    apply always_bind; [apply always_draw|]. intros [f|]; [|apply Hfail].
    apply always_bind; [apply always_eval, reconcile_script_keeps|]. intros raw. apply always_reply.
Qed.

(** The server step at which a verifier consumes [nonce]. *)
Definition consumes_at (nonce : string) (s : W * W) : Prop := ∃ expected fresh,
  answers_fresh (consume_script c nonce expected fresh (gc_retentionMs c) (vw_now s.1) (vw_redis s.1)).2 ∧
  vw_now s.2 = vw_now s.1 ∧
  vw_redis s.2 = (consume_script c nonce expected fresh (gc_retentionMs c) (vw_now s.1) (vw_redis s.1)).1.

Lemma consume_reply_form nonce expected fresh ttl now s :
  ∃ status epoch t, (consume_script c nonce expected fresh ttl now s).2 = reply status epoch t.
Proof.
  destruct (consume_cases (gc_keys c) _ now _ quarantineArg_number quarantine_pos (gc_noncePrefix c +:+ nonce) expected fresh ttl
    (gc_continuityConfig c) s) as [[(st & e & t & Hr & _) _]|(_ & _ & Hr)]; unfold consume_script.
  - by exists st, e, t.
  - rewrite Hr. destruct (rk_set_nx_px _ _ _ _ _) as [s' b]. by eexists _, _, _.
Qed.

Lemma accepted_reply now expected status epoch ttl g g' :
  consume_reply now expected (Ret (reply status epoch ttl)) g = (g', Ret false) → status = "FRESH"%string.
Proof.
  unfold consume_reply, consume_try. cbn [mbind exc_bind reply parseReply].
  destruct (parse_ttl status epoch (Number_string ttl)) as [[[st ep] z]|e] eqn:Hp; [|by destruct e].
  unfold parse_ttl in Hp. destruct (num_safe_int _) as [z'|]; [|done]. case_decide; [done|]. injection Hp as -> -> ->.
  case_decide as Hst; [|case_decide; [|done]].
  - case_decide; [done|]. destruct Hst as [->| ->]; [done|]. rewrite bool_decide_eq_true_2 by done. by intros [=].
  - destruct (validateEpoch _ _) as [?|e]; [|by destruct e]. case_decide; [done|].
    destruct (gate_apply _ _ _ _ _) as [?|e]; [done|by destruct e].
Qed.

Lemma consume_exec Rly v nonce w tr w' : exec Rly (governed_checkAndConsume c v nonce) w tr w' (Ret false) →
  (∀ s n raw, s ∈ tr → vw_links s.1 n ≠ ReplyIs raw) → ∃ s, s ∈ tr ∧ consumes_at nonce s.
Proof.
  unfold governed_checkAndConsume. intros Hex Hlinks.
  destruct (positiveSafeInteger _ _) as [ttl|e] eqn:Httl; [|by apply exec_done_inv in Hex as [? _]].
  apply positive_Ret in Httl as [-> _].
  apply exec_bind_inv in Hex as ([expected|e] & w1 & tr1 & tr2 & _ & Hex & ->); [|by apply exec_done_inv in Hex as [? _]].
  apply exec_bind_inv in Hex as ([fresh|e] & w2 & tr3 & tr4 & _ & Hex & ->); [|by apply exec_done_inv in Hex as [? _]].
  apply exec_bind_inv in Hex as (raw & w3 & tr5 & tr6 & Heval & Hreply & ->).
  apply exec_call_inv in Heval as (w4 & _ & Heval & ->).
  apply exec_call_inv in Hreply as (w5 & _ & Hreply & ->). cbv zeta in Heval.
  exists (w4, w3). split; [rewrite !elem_of_app, list_elem_of_singleton; naive_solver|]. exists expected, fresh. cbn [fst snd].
  assert (Hin : (w4, w3) ∈ tr1 ++ tr3 ++ [(w4, w3)] ++ [(w5, w')]).
  { rewrite !elem_of_app, list_elem_of_singleton. naive_solver. }
  destruct (consume_reply_form nonce expected fresh (gc_retentionMs c) (vw_now w4) (vw_redis w4)) as (st & ep & t & Hform).
  destruct (consume_script _ _ _ _ _ _ _) as [s r] eqn:Hscript. simpl in Hform. subst r.
  destruct (vw_links w4 (vw_draws w4)) as [|e|e|raw'] eqn:Hl; injection Heval as <- <-.
  - destruct (consume_reply _ _ _ _) as [g b] eqn:Hcr. injection Hreply as _ ->.
    apply accepted_reply in Hcr as ->. split_and!; [by eexists _, _|done..].
  - unfold consume_reply, consume_try in Hreply. cbn in Hreply. by destruct e.
  - unfold consume_reply, consume_try in Hreply. cbn in Hreply. by destruct e.
  - by destruct (Hlinks _ (vw_draws w4) raw' Hin).
Qed.

Lemma pool_moves ops w tr w' ps' : pool_run env_move (perform <$> ops) w tr w' ps' →
  Forall (λ e, keeps_shields e.2.1 e.2.2) tr.
Proof.
  intros Hrun. eapply Forall_impl; [eapply (pool_always env_move keeps_shields); [exact Hrun|]|].
  - apply Forall_fmap, Forall_true. apply always_perform.
  - intros [[i|] s]; [done|]. apply env_keeps.
Qed.

Lemma consumed_before nonce s1 s2 : consumes_at nonce s1 → consumes_at nonce s2 → keeps_shields s1.2 s2.1 →
  vw_now s1.1 + gc_retentionMs c <= vw_now s2.1.
Proof.
  intros (e1 & f1 & Hf1 & Hn1 & Hr1) (e2 & f2 & Hf2 & _ & _) [_ _ Hk].
  destruct (fresh_shields _ _ _ quarantineArg_number quarantine_pos _ _ _ _ _ _ _ Hf1) as [Hsh _].
  destruct (fresh_shields _ _ _ quarantineArg_number quarantine_pos _ _ _ _ _ _ _ Hf2) as [_ Hle].
  apply Hle, Hk; [rewrite Hn1; pose proof (sc_quarantine c Hc); lia|].
  unfold world_shield. by rewrite Hn1, Hr1.
Qed.

(** C8 No nonce is accepted twice within its retention: of any number of
    verifiers consuming nonces and reconciling against one Redis, in any
    interleaving, with requests and replies lost, late commands, and the whole
    key space lost at any moment, two that accept one nonce did so at server
    times at least the retention apart. *)
Theorem governed_single_use ops w tr w' ps' i j vi vj nonce :
  pool_run env_move (perform <$> ops) w tr w' ps' → (∀ n raw, vw_links w n ≠ ReplyIs raw) → i ≠ j →
  ops !! i = Some (Consume vi nonce) → ops !! j = Some (Consume vj nonce) →
  ps' !! i = Some (Done (Ret false)) → ps' !! j = Some (Done (Ret false)) →
  ∃ si sj, (Some i, si) ∈ tr ∧ (Some j, sj) ∈ tr ∧ consumes_at nonce si ∧ consumes_at nonce sj ∧
    gc_retentionMs c <= Z.abs (vw_now sj.1 - vw_now si.1).
Proof.
  intros Hrun Hlinks Hne Hi Hj Hdi Hdj. pose proof (pool_moves _ _ _ _ _ Hrun) as Hall.
  assert (Hconsume : ∀ i v, ops !! i = Some (Consume v nonce) → ps' !! i = Some (Done (Ret false)) →
    ∃ s, (Some i, s) ∈ tr ∧ consumes_at nonce s).
  { intros k v Hk Hd.
    destruct (pool_exec _ _ _ _ _ _ k (perform (Consume v nonce)) (Ret false) Hrun) with (w0 := w) as (w1 & Hex);
      [by rewrite list_lookup_fmap, Hk|done|].
    destruct (consume_exec _ _ _ _ _ _ Hex) as (s & Hs & Hcs).
    - intros s n raw Hin. apply own_step_pool in Hin. destruct (list_elem_of_split _ _ Hin) as (t1 & t2 & Htr).
      destruct (pool_rtc _ _ _ _ Hall (pool_chain_from _ _ _ _ _ _ Hrun t1 (Some k, s) t2 Htr)) as [_ Hl _].
      simpl in Hl. rewrite Hl. apply Hlinks.
    - exists s. split; [by apply own_step_pool|done]. }
  destruct (Hconsume i vi Hi Hdi) as (si & Hsi & Hci). destruct (Hconsume j vj Hj Hdj) as (sj & Hsj & Hcj).
  exists si, sj. split_and!; [done..|].
  destruct (trace_order _ _ _ _ _ Hne Hsi Hsj) as (t1 & t2 & t3 & [Htr|Htr]);
    pose proof (pool_rtc _ _ _ _ Hall (pool_chain _ _ _ _ _ _ Hrun t1 _ t2 _ t3 Htr)) as Hk; simpl in Hk.
  - pose proof (consumed_before _ _ _ Hci Hcj Hk). pose proof (sc_retention c Hc). lia.
  - pose proof (consumed_before _ _ _ Hcj Hci Hk). pose proof (sc_retention c Hc). lia.
Qed.
End pools.
