(* ===== verification/GovernedLive.v ===== *)
(** * Recovery, failure and blind spots of the governed replay store

    A deployment on an empty key space quarantines itself and then accepts
    nonces; a verifier that gets any reply but a proper verdict, or none, closes
    its gate; a stopped gate stays closed; and a key space restored from an
    earlier copy of itself is not noticed. *)

From S2P Require Import Prelude Proc JsNum Json JsText Nonce Continuity GovernedRedis GovernedSafety.
From stdpp Require Import base strings list.
From Stdlib Require Import ZArith Lia Ascii.

Local Open Scope Z_scope.

(** ** Numbers in replies *)

Lemma span_digits_colon s r : all_chars is_digit s = true → span is_digit (s +:+ String ":" r) = (s, String ":" r).
Proof.
  induction s as [|d s IH]; simpl; [done|]. intros [Hd Hs]%andb_true_iff.
  rewrite ?string_app_cons. simpl. by rewrite Hd, IH.
Qed.

Lemma config_numbers_config c : sound_config c →
  gc_continuityConfig c = z_to_string (gc_retentionMs c) +:+ ":" +:+ z_to_string (gc_quarantineMs c) →
  config_numbers (gc_continuityConfig c) = Some (gc_retentionMs c, gc_quarantineMs c).
Proof.
  intros Hc ->. pose proof (sc_retention c Hc). pose proof (quarantine_pos c Hc).
  unfold config_numbers. rewrite (string_app_cons ":"%char EmptyString), string_app_nil.
  assert (Hall : all_chars is_digit (z_to_string (gc_retentionMs c)) = true).
  { unfold z_to_string. rewrite decide_False by lia. apply digits_all. lia. }
  rewrite span_digits_colon, decide_True by done. rewrite !z_to_string_digits by lia.
  cbn [mbind option_bind]. by rewrite decide_True by lia.
Qed.

(** The settings of a deployment: derived by [governed_config]. *)
Record deployment (c : GovernedConfig) : Prop := {
  dp_sound : sound_config c;
  dp_config : gc_continuityConfig c = z_to_string (gc_retentionMs c) +:+ ":" +:+ z_to_string (gc_quarantineMs c);
  dp_safe : is_safe_integer (gc_quarantineMs c) = true;
}.

Lemma governed_config_deployment o e c : governed_config o e = Ret c →
  deployment c ∧ EPOCH_RE e = true ∧ gc_expectedEpoch c = default EmptyString (go_expectedEpoch o).
Proof.
  intros Hcfg. pose proof (governed_config_sound _ _ _ Hcfg) as Hs. revert Hcfg.
  unfold governed_config. destruct (negb _); [done|].
  intros (ret & Hret & H1)%exc_bind_Ret. apply exc_bind_Ret in H1 as (allow & Hallow & H1).
  apply exc_bind_Ret in H1 as (quar & Hquar & H1). apply exc_bind_Ret in H1 as (? & _ & H1).
  apply exc_bind_Ret in H1 as (interval & _ & H1). destruct (decide _); [done|].
  apply exc_bind_Ret in H1 as (e' & He & H1). apply exc_bind_Ret in H1 as (sent & Hx & [= <-]).
  split_and!; [split; [done|done|]| |].
  - revert Hquar. unfold positiveSafeInteger. destruct (is_safe_integer _ && _)%bool eqn:Hb; [|done]. intros [= <-].
    by apply andb_true_iff in Hb as [? _].
  - revert He. unfold validateEpoch. by destruct (EPOCH_RE e).
  - revert Hx. simpl. destruct (go_expectedEpoch o) as [e0|]; [|by intros [= <-]].
    unfold validateEpoch. destruct (EPOCH_RE e0); [by intros [= <-]|done].
Qed.

(** ** Replies *)

Lemma gate_closed_never t reason g : gate_assertAcceptable t (failClosed reason g) ≠ Ret tt.
Proof. unfold gate_assertAcceptable. simpl. by rewrite !orb_true_r. Qed.

Lemma gate_apply_closes now epoch ttl reason g g' : 0 < ttl → gate_apply now epoch ttl reason g = Ret g' →
  ∀ t, t < now + ttl → gate_assertAcceptable t g' ≠ Ret tt.
Proof.
  intros Httl. unfold gate_apply. destruct (validateEpoch _ _); [|done]. cbn [mbind exc_bind].
  destruct (sg_stopped g) eqn:Hs; intros [= <-] t Ht; unfold gate_assertAcceptable; [by rewrite Hs|].
  simpl. rewrite decide_True by lia. simpl. by rewrite bool_decide_eq_true_2 by lia.
Qed.

Lemma parse_ttl_cases status epoch n :
  parse_ttl status epoch n = Throw NonceStoreUnavailableError ∨ ∃ ttl, parse_ttl status epoch n = Ret (status, epoch, ttl).
Proof. unfold parse_ttl. destruct (num_safe_int n); [case_decide|]; eauto. Qed.

Lemma parseReply_cases raw : parseReply raw = Throw NonceStoreUnavailableError ∨
  ∃ status epoch x ttl, raw = JArr [JStr status; JStr epoch; x] ∧ parseReply raw = Ret (status, epoch, ttl).
Proof.
  destruct raw as [| | | | |[|[] [|[] [|x [|]]]]|]; try (by left); destruct x; try (by left);
    cbn [parseReply]; match goal with |- context [parse_ttl ?s ?e ?n] => destruct (parse_ttl_cases s e n) as [?|[ttl ?]] end;
    [by left|right; by eexists _, _, _, ttl|by left|right; by eexists _, _, _, ttl].
Qed.

Lemma validateEpoch_error epoch label e : validateEpoch epoch label = Throw e → ∃ m, e = RangeError m.
Proof. unfold validateEpoch. destruct (EPOCH_RE epoch); [done|]. intros [= <-]. eauto. Qed.

(** What [redis.eval] may have given: a verdict under the epoch that was asked
    for, with the TTL of a key that has none; or the report of a quarantine. *)
Definition proper_verdict (expected : string) (raw : exc jsval) (replay : bool) : Prop :=
  ∃ r0, raw = Ret r0 ∧ parseReply r0 = Ret (if replay then "REPLAY" else "FRESH", expected, -2)%string.
Definition quarantine_report (raw : exc jsval) (status epoch : string) (ttl : Z) : Prop :=
  ∃ r0, raw = Ret r0 ∧ parseReply r0 = Ret (status, epoch, ttl) ∧ status ∈ quarantine_statuses ∧
    EPOCH_RE epoch = true ∧ 0 < ttl.

Definition closed_until (until : Z) (g : SharedContinuityGate) : Prop :=
  ∀ t, t < until → gate_assertAcceptable t g ≠ Ret tt.

(** The verdict, the quarantine with its exact length and reason, and the
    permanently closed gate: [consume_try] and its [catch]. *)
Lemma consume_reply_cases now expected raw g g' r : (∀ reason until, raw ≠ Throw (AuthorizationQuarantineError reason until)) →
  consume_reply now expected raw g = (g', r) →
  (∃ b, proper_verdict expected raw b ∧ r = Ret b ∧ g' = g) ∨
  (∃ status epoch ttl, quarantine_report raw status epoch ttl ∧
     r = Throw (AuthorizationQuarantineError (consume_reason status) (At (now + ttl))) ∧
     gate_apply now epoch ttl (Some (consume_reason status)) g = Ret g') ∨
  ((∀ b, ¬ proper_verdict expected raw b) ∧ (∀ status epoch ttl, ¬ quarantine_report raw status epoch ttl) ∧
   r = Throw NonceStoreUnavailableError ∧ g' = failClosed continuity_store_unavailable g).
Proof.
  intros Hraw Hr. unfold consume_reply, consume_try in Hr. unfold proper_verdict, quarantine_report.
  destruct raw as [r0|e0]; cycle 1.
  { right; right. cbn in Hr. split_and!; [by intros b (? & ? & _)|by intros ??? (? & ? & _)|..];
      destruct e0; (try by injection Hr as <- <-); by destruct (Hraw reason until). }
  cbn [mbind exc_bind] in Hr. destruct (parseReply_cases r0) as [H0|(status & epoch & x & ttl & -> & H0)]; rewrite H0 in Hr.
  { injection Hr as <- <-. right; right. split_and!; [|..|done|done].
    - intros b (? & [= <-] & ?). congruence.
    - intros ??? (? & [= <-] & ? & _). congruence. }
  assert (∀ P : Prop, (status = "FRESH"%string ∨ status = "REPLAY"%string) → status ∈ quarantine_statuses → P) as Hdis.
  { intros P [-> | ->]; unfold quarantine_statuses; rewrite !elem_of_cons, elem_of_nil; intros H; exfalso; by repeat destruct H as [H|H]. }
  case_decide as Hst.
  - destruct (decide (epoch ≠ expected ∨ ttl ≠ -2)) as [Hbad|Hok].
    + injection Hr as <- <-. right; right. split_and!; [|..|done|done].
      * intros b (? & [= <-] & Hp). rewrite H0 in Hp. injection Hp as _ -> ->. tauto.
      * intros ??? (? & [= <-] & Hp & Hq & _). rewrite H0 in Hp. injection Hp as -> _ _. by eapply Hdis.
    + injection Hr as <- <-. left. exists (bool_decide (status = "REPLAY"%string)). split_and!; [|done|done].
      eexists. split; [done|]. rewrite H0. assert (epoch = expected ∧ ttl = -2) as [-> ->] by (split; apply dec_stable; tauto).
      by destruct Hst as [-> | ->].
  - assert (∀ b, ¬ ∃ r1, Ret (JArr [JStr status; JStr epoch; x]) = Ret r1 ∧
      parseReply r1 = Ret (if b : bool then "REPLAY" else "FRESH", expected, -2)%string) as Hnp.
    { intros b (? & [= <-] & Hp). rewrite H0 in Hp. injection Hp as -> _ _. apply Hst. destruct b; tauto. }
    destruct (decide (status ∈ quarantine_statuses)) as [Hq|Hq]; cycle 1.
    { injection Hr as <- <-. right; right. split_and!; [done| |done|done].
      intros ??? (? & [= <-] & Hp & Hq' & _). rewrite H0 in Hp. by injection Hp as -> _ _. }
    unfold validateEpoch at 1 in Hr. destruct (EPOCH_RE epoch) eqn:He; cycle 1.
    { injection Hr as <- <-. right; right. split_and!; [done| |done|done].
      intros ??? (? & [= <-] & Hp & _ & He' & _). rewrite H0 in Hp. injection Hp as _ -> _. congruence. }
    destruct (decide (ttl <= 0)) as [Hle|Hgt].
    { injection Hr as <- <-. right; right. split_and!; [done| |done|done].
      intros ??? (? & [= <-] & Hp & _ & _ & Hpos). rewrite H0 in Hp. injection Hp as _ _ ->. lia. }
    right; left. exists status, epoch, ttl. destruct (gate_apply now epoch ttl _ g) as [g1|e] eqn:Ha.
    + injection Hr as <- <-. split_and!; [eexists; split_and!; [done|done|done|done|lia]|done|done].
    + exfalso. unfold gate_apply, validateEpoch in Ha. rewrite He in Ha. cbn in Ha. by destruct (sg_stopped g).
Qed.

(** C9 A verifier fails closed on every reply, whatever the command gave: a value,
    a rejection or a timeout.  A nonce is judged only by a verdict [FRESH] or
    [REPLAY] that carries the verifier's epoch and the TTL -2, and then the gate is
    left as it was.  A quarantine report with a valid epoch and a positive TTL
    throws the quarantine error with its reason and end, and the gate refuses at
    every time before now plus that TTL.  Everything else throws
    [NonceStoreUnavailableError], and the gate refuses at every time. *)
Theorem replies_fail_closed now expected raw g g' r : (∀ reason until, raw ≠ Throw (AuthorizationQuarantineError reason until)) →
  consume_reply now expected raw g = (g', r) →
  (∃ b, proper_verdict expected raw b ∧ r = Ret b ∧ g' = g) ∨
  (∃ status epoch ttl, quarantine_report raw status epoch ttl ∧
     r = Throw (AuthorizationQuarantineError (consume_reason status) (At (now + ttl))) ∧ closed_until (now + ttl) g') ∨
  ((∀ b, ¬ proper_verdict expected raw b) ∧ (∀ status epoch ttl, ¬ quarantine_report raw status epoch ttl) ∧
   r = Throw NonceStoreUnavailableError ∧ ∀ until, closed_until until g').
Proof.
  intros Hraw Hr. destruct (consume_reply_cases _ _ _ _ _ _ Hraw Hr) as [H|[(status & epoch & ttl & Hq & -> & Ha)|(H1 & H2 & -> & ->)]].
  - by left.
  - right; left. exists status, epoch, ttl. split_and!; [done|done|]. intros t Ht. eapply gate_apply_closes; [|exact Ha|exact Ht].
    destruct Hq as (? & _ & _ & _ & _ & ?). done.
  - right; right. split_and!; [done|done|done|]. intros u t _. apply gate_closed_never.
Qed.

(** ** Scripts on an intact and on an empty key space *)

Section spaces.
Context {K : Type} `{RedisKeyspaceLaws K} (c : GovernedConfig) (Hd : deployment c).
Notation W := (GovernedWorld K).
Implicit Types (s : K) (w : W).

Lemma config_accepted epoch now s :
  config_rejected (gc_keys c) (gc_continuityConfig c) (gc_continuityConfig c) epoch (gc_quarantineMs c) now s = None.
Proof.
  unfold config_rejected. rewrite config_numbers_config by apply Hd. by rewrite decide_False by tauto.
Qed.

(** From [t0] on the epoch and the configuration are there, and no quarantine. *)
Definition calm (epoch : string) (t0 : Z) s : Prop := ∀ t, t0 <= t →
  rk_get (ck_config (gc_keys c)) t s = Some (gc_continuityConfig c) ∧
  rk_get (ck_epoch (gc_keys c)) t s = Some epoch ∧ rk_get (ck_quarantine (gc_keys c)) t s = None.

Lemma calm_consume epoch nonce fresh t0 now s : calm epoch t0 s → t0 <= now →
  rk_get (gc_noncePrefix c +:+ nonce) now s = None →
  (consume_script c nonce epoch fresh (gc_retentionMs c) now s).2 = reply "FRESH" epoch "-2".
Proof.
  intros Hcalm Ht Hn. destruct (Hcalm now Ht) as (Hcfg & Hep & Hq). pose proof (quarantine_pos c (dp_sound c Hd)).
  unfold consume_script, CONSUME_SCRIPT. rewrite quarantineArg_number, decide_False by (apply Hd || lia).
  rewrite Hcfg, Hep, config_accepted, Hq. rewrite decide_False by tauto.
  destruct (set_nx_px_absent (gc_noncePrefix c +:+ nonce) "1" (gc_retentionMs c) now now s Hn) as [Hb _].
  { pose proof (sc_retention c (dp_sound c Hd)). lia. }
  destruct (rk_set_nx_px _ _ _ _ _) as [s' b]. simpl in Hb. by subst b.
Qed.

Lemma calm_reconcile epoch fresh t0 now s : calm epoch t0 s → t0 <= now →
  reconcile_script c fresh epoch now s = (s, reply "OK" epoch "-2").
Proof.
  intros Hcalm Ht. destruct (Hcalm now Ht) as (Hcfg & Hep & Hq). pose proof (quarantine_pos c (dp_sound c Hd)).
  unfold reconcile_script, RECONCILE_SCRIPT. rewrite quarantineArg_number, decide_False by (apply Hd || lia).
  rewrite Hcfg, Hep. cbn [default from_option]. rewrite config_accepted.
  unfold reconcile_epoch. rewrite decide_False by tauto. rewrite Hq, (pttl_absent _ _ _ Hq). done.
Qed.

(** A key space restored from an earlier copy of itself is not noticed: when
    the copy was taken before a nonce was consumed, with the epoch and the
    configuration in place, reconciliation reports nothing, and the nonce is
    accepted again at any later time, retention or not. *)
Theorem snapshot_restore_undetected epoch nonce fresh t0 s :
  calm epoch t0 s → (∀ t, t0 <= t → rk_get (gc_noncePrefix c +:+ nonce) t s = None) →
  ∀ now later, t0 <= now <= later →
    answers_fresh (consume_script c nonce epoch fresh (gc_retentionMs c) now s).2 ∧
    reconcile_script c fresh epoch later s = (s, reply "OK" epoch "-2") ∧
    answers_fresh (consume_script c nonce epoch fresh (gc_retentionMs c) later s).2.
Proof.
  intros Hcalm Hn now later [H1 H2]. unfold answers_fresh. split_and!.
  - eexists _, _. apply (calm_consume _ _ _ t0); [done..|]. by apply Hn.
  - apply (calm_reconcile _ _ t0); [done|lia].
  - eexists _, _. apply (calm_consume _ _ _ t0); [done|lia|]. apply Hn. lia.
Qed.

(** What a bootstrap leaves in an empty key space. *)
Lemma bootstrap_empty epoch now s : (∀ k, rk_get k now s = None) →
  (reconcile_script c epoch EmptyString now s).2 = reply "MISSING" epoch (z_to_string (gc_quarantineMs c)) ∧
  calm epoch (now + gc_quarantineMs c + 1) (reconcile_script c epoch EmptyString now s).1 ∧
  ∀ nonce t, now <= t → rk_get (gc_noncePrefix c +:+ nonce) t (reconcile_script c epoch EmptyString now s).1 = None.
Proof.
  intros Hempty. pose proof (quarantine_pos c (dp_sound c Hd)) as HQ.
  destruct (sc_keys c (dp_sound c Hd)) as [Heq Hec Hqc].
  assert (Hother : ∀ nonce, other_key (gc_keys c) (gc_noncePrefix c +:+ nonce)) by apply Hd.
  unfold reconcile_script, RECONCILE_SCRIPT. rewrite quarantineArg_number, decide_False by (apply Hd || lia).
  unfold calm. set (keys := gc_keys c) in *.
  set (ke := ck_epoch keys) in *. set (kq := ck_quarantine keys) in *. set (kc := ck_config keys) in *.
  rewrite !Hempty. cbn [default from_option id].
  set (Q := gc_quarantineMs c) in *. set (cfg := gc_continuityConfig c) in *.
  assert (Hqal : ∀ s1, rk_pttl kq now s1 <= Q →
    quarantine_at_least keys epoch Q now s1 = (rk_set_px kq epoch Q now s1, Q)).
  { intros s1 Hle. unfold quarantine_at_least. fold kq. rewrite decide_False by lia.
    by rewrite pttl_set_px by lia. }
  rewrite Hqal by (rewrite pttl_absent by done; lia). cbn [fst].
  set (s1 := rk_set_px kq epoch Q now s).
  assert (H1 : rk_get kc now s1 = None) by (unfold s1; by rewrite get_set_px_ne).
  destruct (set_nx_absent kc cfg now now s1 H1 ltac:(lia)) as [_ H2]. rewrite H2. cbn [default from_option id].
  set (s2 := (rk_set_nx kc cfg now s1).1) in *.
  assert (Hrej : config_rejected keys cfg cfg epoch Q now s2 = None).
  { unfold config_rejected, cfg. rewrite config_numbers_config by apply Hd. by rewrite decide_False by tauto. }
  rewrite Hrej. rewrite Hqal by (unfold s2, s1; rewrite pttl_nx_ne by done; rewrite pttl_set_px by lia; lia).
  cbn [fst]. set (s3 := rk_set_px kq epoch Q now s2).
  assert (H3 : rk_get ke now s3 = None).
  { unfold s3, s2, s1. rewrite get_set_px_ne, set_nx_ne, get_set_px_ne by done. apply Hempty. }
  destruct (set_nx_absent ke epoch now now s3 H3 ltac:(lia)) as [_ H4]. rewrite H4.
  set (s4 := (rk_set_nx ke epoch now s3).1) in *.
  assert (Hq4 : rk_get kq now s4 = Some epoch).
  { unfold s4. rewrite set_nx_ne by done. unfold s3. by rewrite get_set_px by lia. }
  unfold reconcile_epoch. rewrite decide_False by tauto. fold kq. rewrite Hq4.
  assert (Hp4 : rk_pttl kq now s4 = Q).
  { unfold s4. rewrite pttl_nx_ne by done. unfold s3. by rewrite pttl_set_px by lia. }
  rewrite Hp4, decide_False by (intros [?|?]; [done|lia]). cbn [fst snd]. split_and!; [done| |].
  - intros t Ht. split_and!.
    + unfold s4, s3, s2. rewrite set_nx_ne, get_set_px_ne by done. by apply set_nx_absent; [|lia].
    + by apply set_nx_absent; [|lia].
    + unfold s4. rewrite set_nx_ne by done. unfold s3. rewrite get_set_px_after by lia. done.
  - intros nonce t Ht. destruct (Hother nonce) as (N1 & N2 & N3). fold ke in N1; fold kq in N2; fold kc in N3.
    unfold s4, s3, s2, s1. rewrite set_nx_ne, get_set_px_ne, set_nx_ne, get_set_px_ne by congruence.
    by apply (get_absent_stays _ now).
Qed.

Definition at_time (t : Z) w : W :=
  mkGWorld t (vw_redis w) (vw_gates w) (vw_epochs w) (vw_links w) (vw_policies w) (vw_draws w).

(** A world without faults. *)
Record faultless w : Prop := {
  fl_links n : vw_links w n = Delivered;
  fl_policies n : assertNoEvictionPolicy (vw_policies w n) = Ret tt;
  fl_epochs n : EPOCH_RE (vw_epochs w n) = true;
}.

Lemma run_eval script w : faultless w →
  run (eval_op script) w =
    (vw_set_redis (script (vw_now w) (vw_redis w)).1 (vw_drawn w), Ret (script (vw_now w) (vw_redis w)).2).
Proof. intros Hf. unfold eval_op. cbn [run call]. rewrite (fl_links w Hf). by destruct (script _ _). Qed.

(** What the bootstrap leaves: an empty key space is claimed, and the gate is
    closed for the quarantine. *)
Lemma run_bootstrap v epoch w : faultless w → EPOCH_RE epoch = true → gc_expectedEpoch c = EmptyString →
  (∀ k, rk_get k (vw_now w) (vw_redis w) = None) →
  ∃ w1, run (governed_bootstrap c v epoch) w = (w1, Ret tt) ∧
    vw_now w1 = vw_now w ∧ vw_redis w1 = (reconcile_script c epoch EmptyString (vw_now w) (vw_redis w)).1 ∧
    vw_gates w1 v = (if sg_stopped (vw_gates w v) then vw_gates w v
                     else mkGate (Some epoch) (At (vw_now w + gc_quarantineMs c)) continuity_marker_lost false) ∧
    faultless w1.
Proof.
  intros Hf He Hexp Hempty. pose proof (quarantine_pos c (dp_sound c Hd)) as HQ.
  unfold governed_bootstrap, policy_op. rewrite run_ebind. cbn [run call]. rewrite (fl_policies w Hf). cbv iota.
  assert (Hf1 : faultless (vw_drawn w)) by (split; apply Hf).
  rewrite run_bind, (run_eval _ _ Hf1), Hexp. cbv iota.
  destruct (bootstrap_empty epoch (vw_now w) (vw_redis w) Hempty) as (Hr & _ & _).
  cbn [vw_drawn vw_now vw_redis]. rewrite Hr.
  unfold reply_op. cbn [run call]. unfold bootstrap_reply. cbn [mbind exc_bind].
  assert (Hacc : accept_reconcile bootstrap_error EmptyString (reply "MISSING" epoch (z_to_string (gc_quarantineMs c)))
      = Ret (epoch, gc_quarantineMs c, continuity_marker_lost)).
  { unfold accept_reconcile, reply, parseReply, parse_ttl.
    rewrite Number_string_digits by (done || apply Hd). rewrite decide_False by lia. cbn [mbind exc_bind].
    rewrite decide_False by (intros [?|?]; done). rewrite decide_False by (intros Hn; apply Hn; unfold reconcile_statuses; rewrite !elem_of_cons; tauto).
    unfold validateEpoch. rewrite He. cbn [mbind exc_bind]. rewrite (bool_decide_eq_true_2 ("MISSING" ≠ "OK")) by done.
    rewrite (bool_decide_eq_false_2 (gc_quarantineMs c <= 0)) by lia. cbn [negb andb orb].
    rewrite decide_False by tauto. by rewrite decide_False by (by intros [[=] _]). }
  rewrite Hacc. cbn [mbind exc_bind]. unfold gate_apply, validateEpoch. rewrite He. cbn [mbind exc_bind].
  cbn [vw_set_redis vw_drawn vw_gates vw_now]. rewrite decide_True by lia. cbn [default from_option id].
  destruct (sg_stopped (vw_gates w v)) eqn:Hs; (eexists; split; [reflexivity|]);
    (split_and!; [done|done|cbn; by rewrite decide_True|split; apply Hf]).
Qed.

(** C10 A deployment recovers: bootstrapped on an empty key space it refuses
    every nonce for the whole quarantine, and accepts a fresh nonce, once, at any
    time after it, if no further fault or loss intervenes. *)
Theorem governed_recovers v epoch nonce w t :
  faultless w → EPOCH_RE epoch = true → gc_expectedEpoch c = EmptyString → vw_gates w v = SharedContinuityGate_new →
  (∀ k, rk_get k (vw_now w) (vw_redis w) = None) → vw_now w + gc_quarantineMs c < t →
  ∃ w1 w2, run (governed_bootstrap c v epoch) w = (w1, Ret tt) ∧
    (∀ t', t' < vw_now w + gc_quarantineMs c → gate_assertAcceptable t' (vw_gates w1 v) ≠ Ret tt) ∧
    run (governed_checkAndConsume c v nonce) (at_time t w1) = (w2, Ret false) ∧
    vw_gates w2 v = vw_gates w1 v.
Proof.
  intros Hf He Hexp Hnew Hempty Ht.
  destruct (run_bootstrap v epoch w Hf He Hexp Hempty) as (w1 & Hrun & Hnow1 & Hredis1 & Hgate1 & Hf1).
  destruct (bootstrap_empty epoch (vw_now w) (vw_redis w) Hempty) as (_ & Hcalm & Hnone).
  rewrite <-Hredis1 in Hcalm, Hnone. rewrite Hnew in Hgate1. cbn [sg_stopped SharedContinuityGate_new] in Hgate1.
  assert (Hopen : gate_expectedEpoch t (vw_gates w1 v) = Ret epoch).
  { rewrite Hgate1. unfold gate_expectedEpoch, gate_assertAcceptable. cbn.
    by rewrite bool_decide_eq_false_2 by lia. }
  pose proof (sc_retention c (dp_sound c Hd)) as Hret.
  assert (Hpos : positiveSafeInteger (gc_retentionMs c) "ttlMs" = Ret (gc_retentionMs c)).
  { pose proof (sc_quarantine c (dp_sound c Hd)). pose proof (dp_safe c Hd) as Hs.
    unfold positiveSafeInteger, is_safe_integer, MAX_SAFE_INTEGER in *.
    apply andb_true_iff in Hs as [_ Hs%bool_decide_eq_true]. by rewrite !bool_decide_eq_true_2 by lia. }
  exists w1. unfold governed_checkAndConsume. rewrite Hpos, run_bind. cbn [run call read at_time vw_now vw_gates].
  rewrite Hopen. unfold draw_epoch. rewrite run_bind. cbn [run call]. unfold validateEpoch at 1. cbn [at_time vw_epochs vw_draws].
  rewrite (fl_epochs w1 Hf1). cbv iota. rewrite run_bind.
  assert (Hf2 : faultless (vw_drawn (at_time t w1))) by (split; apply Hf1).
  rewrite (run_eval _ _ Hf2). cbv iota. cbn [at_time vw_drawn vw_now vw_redis].
  rewrite (calm_consume epoch _ _ (vw_now w + gc_quarantineMs c + 1)); [|exact Hcalm|lia|apply Hnone; pose proof (quarantine_pos c (dp_sound c Hd)); lia].
  unfold reply_op. cbn [run call]. unfold consume_reply, consume_try. cbn [mbind exc_bind reply parseReply].
  assert (Htwo : parse_ttl "FRESH" epoch (Number_string "-2") = Ret ("FRESH"%string, epoch, -2)) by done.
  rewrite Htwo. rewrite decide_True by tauto. rewrite decide_False by tauto.
  rewrite bool_decide_eq_false_2 by done. eexists. split_and!; [done| |reflexivity|].
  - intros t' Ht'. rewrite Hgate1. unfold gate_assertAcceptable. cbn. by rewrite bool_decide_eq_true_2 by lia.
  - cbn. by rewrite decide_True.
Qed.
End spaces.
