(* ===== verification/Anomaly.v ===== *)
(** * Anomaly counters and the threat score
    (packages/server/src: anomaly.ts, memory-store.ts, redis-anomaly.ts)

    [AnomalyStore] is the counter interface, with the in-memory store as an
    instance.  [AnomalyEngine] is the state of the engine: counters, the shadow
    map and the tarpit map.  The engine's synchronous parts and the score are
    here; its asynchronous methods are in [AnomalyEngine]. *)

From S2P Require Import Prelude JsNum Store.
From stdpp Require Import base strings list.
From Stdlib Require Import ZArith Lia.

(** ** Counters *)

Class AnomalyStore (A : Type) := {
  (** [increment key ttlMs] and [get key], at a time. *)
  counter_increment : string → Z → Z → A → A * exc Z;
  counter_get : string → Z → A → A * exc Z;
  counter_reset : string → A → A * exc unit;
}.

(** Counters are never negative. *)
Class AnomalyStoreLaws (A : Type) `{!AnomalyStore A} := {
  counters_ok : A → Prop;
  counters_ok_increment key ttl now s : counters_ok s → counters_ok (counter_increment key ttl now s).1;
  counters_ok_get key now s : counters_ok s → counters_ok (counter_get key now s).1;
  counter_get_nonneg key now s v : counters_ok s → (counter_get key now s).2 = Ret v → (0 <= v)%Z;
}.

(** memory-store.ts: [MemoryAnomalyStore] *)
Record Counter := mkCounter { c_value : Z; c_expiresAt : Z }.
Definition MemoryAnomalyStore : Type := list (string * Counter).

Definition memory_increment (key : string) (ttlMs now : Z) (s : MemoryAnomalyStore) :
    MemoryAnomalyStore * exc Z :=
  match om_get key s with
  | Some entry =>
      if decide (c_expiresAt entry < now)%Z
      then (om_set key (mkCounter 1 (now + ttlMs)) s, Ret 1%Z)
      else (om_set key (mkCounter (c_value entry + 1) (c_expiresAt entry)) s, Ret (c_value entry + 1)%Z)
  | None => (om_set key (mkCounter 1 (now + ttlMs)) s, Ret 1%Z)
  end.
Definition memory_get (key : string) (now : Z) (s : MemoryAnomalyStore) : MemoryAnomalyStore * exc Z :=
  match om_get key s with
  | Some entry => if decide (c_expiresAt entry < now)%Z then (s, Ret 0%Z) else (s, Ret (c_value entry))
  | None => (s, Ret 0%Z)
  end.
Definition memory_reset (key : string) (s : MemoryAnomalyStore) : MemoryAnomalyStore * exc unit :=
  (om_delete key s, Ret tt).

#[export] Instance MemoryAnomalyStore_store : AnomalyStore MemoryAnomalyStore := {
  counter_increment := memory_increment; counter_get := memory_get; counter_reset := memory_reset;
}.

Lemma om_set_Forall {V} (P : V → Prop) k v (m : list (string * V)) :
  P v → Forall (λ kv, P kv.2) m → Forall (λ kv, P kv.2) (om_set k v m).
Proof.
  intros Hv. induction 1 as [|[k' v'] m Hv' Hm IH]; simpl; [by repeat constructor|].
  case_decide; constructor; auto.
Qed.

#[export] Program Instance MemoryAnomalyStore_laws : AnomalyStoreLaws MemoryAnomalyStore := {
  counters_ok s := Forall (λ kc : string * Counter, (λ c, 0 <= c_value c)%Z kc.2) s;
}.
Next Obligation.
  intros key ttl now s Hs. cbn [counter_increment MemoryAnomalyStore_store]. unfold memory_increment.
  destruct (om_get key s) as [e|] eqn:He; [case_decide|];
    apply (om_set_Forall (λ c, 0 <= c_value c)%Z); simpl; try done.
  apply om_get_Some_elem in He. rewrite Forall_forall in Hs. apply Hs in He. simpl in *. lia.
Qed.
Next Obligation.
  intros key now s Hs. cbn [counter_get MemoryAnomalyStore_store]. unfold memory_get.
  destruct (om_get key s); [case_decide|]; done.
Qed.
Next Obligation.
  intros key now s v Hs. cbn [counter_get MemoryAnomalyStore_store]. unfold memory_get.
  destruct (om_get key s) as [e|] eqn:He; [case_decide|]; intros [= <-]; try lia.
  apply om_get_Some_elem in He. rewrite Forall_forall in Hs. by apply Hs in He.
Qed.

(** redis-anomaly.ts: [RedisAnomalyStore] over the commands of a Redis client,
    which is a parameter; [parse] is [parseInt(val, 10)]. *)
Class RedisIncrClient (K : Type) := {
  redis_incr : string → K → K * exc Z;
  redis_get : string → K → K * exc (option string);
  redis_del : string → K → K * exc Z;
  redis_expire : string → Z → K → K * exc Z;
}.

Record RedisAnomalyStore (K : Type) := mkRedisAnomaly { ra_redis : K; ra_prefix : string }.
Arguments mkRedisAnomaly {K}.
Arguments ra_redis {K}.
Arguments ra_prefix {K}.

(** [parseInt(val, 10)] of an optionally signed digit string. *)
Definition parse_int10 (s : string) : Z :=
  match s with
  | String "-"%char t => (- digits_value 0 t)%Z
  | _ => digits_value 0 s
  end.

Definition redis_increment `{RedisIncrClient K} (key : string) (ttlMs : Z) (s : RedisAnomalyStore K) :
    RedisAnomalyStore K * exc Z :=
  let fullKey := ra_prefix s +:+ key in
  let '(r, val) := redis_incr fullKey (ra_redis s) in
  match val with
  | Throw e => (mkRedisAnomaly r (ra_prefix s), Throw e)
  | Ret v =>
      if decide (v = 1)%Z then
        let '(r, x) := redis_expire fullKey ((ttlMs + 999) / 1000)%Z r in
        (mkRedisAnomaly r (ra_prefix s), match x with Ret _ => Ret v | Throw e => Throw e end)
      else (mkRedisAnomaly r (ra_prefix s), Ret v)
  end.
Definition redis_counter_get `{RedisIncrClient K} (key : string) (s : RedisAnomalyStore K) :
    RedisAnomalyStore K * exc Z :=
  let '(r, val) := redis_get (ra_prefix s +:+ key) (ra_redis s) in
  (mkRedisAnomaly r (ra_prefix s),
   match val with
   | Throw e => Throw e
   | Ret None => Ret 0%Z
   | Ret (Some v) => Ret (if decide (v = EmptyString) then 0%Z else parse_int10 v)
   end).
Definition redis_counter_reset `{RedisIncrClient K} (key : string) (s : RedisAnomalyStore K) :
    RedisAnomalyStore K * exc unit :=
  let '(r, x) := redis_del (ra_prefix s +:+ key) (ra_redis s) in
  (mkRedisAnomaly r (ra_prefix s), match x with Ret _ => Ret tt | Throw e => Throw e end).

#[export] Instance RedisAnomalyStore_store `{RedisIncrClient K} : AnomalyStore (RedisAnomalyStore K) := {
  counter_increment key ttl _ s := redis_increment key ttl s;
  counter_get key _ s := redis_counter_get key s;
  counter_reset := redis_counter_reset;
}.

(** ** The engine *)

Definition WINDOW_MS : Z := 3600000.
Definition SUSPICIOUS_SIG_FAIL_THRESHOLD : Z := 3.
Definition SHADOW_SIG_FAIL_THRESHOLD : Z := 7.

Record ShadowRecord := mkShadow {
  sh_enteredAt : Z;
  sh_sourceIp : string;
  sh_pairId : string;
  sh_reason : string;
}.
Record TarpitEntry := mkTarpit { tp_verdict : AnomalyVerdict; tp_since : Z }.

Record AnomalyEngine (A : Type) := mkEngine {
  ae_store : A;
  ae_shadowState : list (string * ShadowRecord);
  ae_tarpitState : list (string * TarpitEntry);
}.
Arguments mkEngine {A}.
Arguments ae_store {A}.
Arguments ae_shadowState {A}.
Arguments ae_tarpitState {A}.

Definition shadowKey (pairId sourceIp : string) : string := pairId +:+ ":" +:+ sourceIp.

Section engine.
Context {A : Type}.
Implicit Types e : AnomalyEngine A.

Definition enterShadowState (pairId sourceIp reason : string) (now : Z) e : AnomalyEngine A :=
  mkEngine (ae_store e)
    (om_set (shadowKey pairId sourceIp) (mkShadow now sourceIp pairId reason) (ae_shadowState e))
    (om_set sourceIp (mkTarpit shadow now) (ae_tarpitState e)).

Definition clearShadowState (pairId sourceIp : string) e : AnomalyEngine A :=
  mkEngine (ae_store e) (om_delete (shadowKey pairId sourceIp) (ae_shadowState e))
    (om_delete sourceIp (ae_tarpitState e)).

Definition isInShadowState (pairId sourceIp : string) e : bool :=
  om_has (shadowKey pairId sourceIp) (ae_shadowState e).

Definition listShadowState e : list ShadowRecord := (ae_shadowState e).*2.

(** The state change of [applyTarpit]; the delay itself is a wait. *)
Definition setTarpit (sourceIp : string) (verdict : AnomalyVerdict) (now : Z) e : AnomalyEngine A :=
  if decide (0 < TARPIT_DELAY_MS verdict)%Z
  then mkEngine (ae_store e) (ae_shadowState e) (om_set sourceIp (mkTarpit verdict now) (ae_tarpitState e))
  else e.

Definition getTarpitState (sourceIp : string) e : option TarpitEntry := om_get sourceIp (ae_tarpitState e).
End engine.

(** ** The threat score *)

(** [Math.round(p / q)] for [q > 0]. *)
Definition round_div (p q : Z) : Z := ((2 * p + q) / (2 * q))%Z.

(** [Math.round(unknownRate * 30 + sigRate * 30 + replayRate * 20 + expiredRate
    * 20)] with rates [min(n / total, 1)], in exact arithmetic. *)
Definition score (total unknownPair sigFail replay expiredTs : Z) : Z :=
  if decide (total = 0)%Z then 0%Z
  else
    round_div (30 * Z.min unknownPair total + 30 * Z.min sigFail total +
               20 * Z.min replay total + 20 * Z.min expiredTs total) total.

Lemma score_bounds total u s r x :
  (0 <= total)%Z → (0 <= u)%Z → (0 <= s)%Z → (0 <= r)%Z → (0 <= x)%Z →
  (0 <= score total u s r x <= 100)%Z.
Proof.
  intros. unfold score, round_div. case_decide; [lia|].
  set (p := (30 * Z.min u total + 30 * Z.min s total + 20 * Z.min r total + 20 * Z.min x total)%Z).
  assert (0 <= p <= 100 * total)%Z by lia.
  split; [apply Z.div_pos; lia|].
  assert ((2 * p + total) / (2 * total) < 101)%Z; [|lia].
  apply Z.div_lt_upper_bound; lia.
Qed.

(** Only a mix of denials reaches the attack threshold: unknown pairs alone, or
    signature failures alone, score at most 30. *)
Lemma score_single total u : (0 < total)%Z → (0 <= u)%Z →
  (score total u 0 0 0 <= 30)%Z ∧ (score total 0 u 0 0 <= 30)%Z.
Proof.
  intros Ht Hu. unfold score, round_div. rewrite !decide_False by lia.
  assert (∀ p, 0 <= p <= 30 * total → (2 * p + total) / (2 * total) <= 30)%Z as Hle.
  { intros p Hp. assert ((2 * p + total) / (2 * total) < 31)%Z; [|lia].
    apply Z.div_lt_upper_bound; lia. }
  split; apply Hle; lia.
Qed.

(** ** Shadow scoping *)

Lemma shadow_enter_in {A} p ip r now (e : AnomalyEngine A) :
  isInShadowState p ip (enterShadowState p ip r now e) = true.
Proof. unfold isInShadowState, om_has. simpl. by rewrite om_get_set, bool_decide_true. Qed.

Lemma shadow_enter_other {A} p ip r now p' ip' (e : AnomalyEngine A) :
  shadowKey p ip ≠ shadowKey p' ip' →
  isInShadowState p' ip' (enterShadowState p ip r now e) = isInShadowState p' ip' e.
Proof. intros Hne. unfold isInShadowState, om_has. simpl. by rewrite om_get_set_ne. Qed.

(** The key determines the pair and the address when the pair identifier has
    no colon, which the verifier's pattern guarantees. *)
Lemma shadowKey_inj p ip p' ip' :
  all_chars (λ c, bool_decide (c ≠ ":"%char)) p = true →
  all_chars (λ c, bool_decide (c ≠ ":"%char)) p' = true →
  shadowKey p ip = shadowKey p' ip' → p = p' ∧ ip = ip'.
Proof.
  unfold shadowKey. revert p'. induction p as [|c p IH]; intros [|c' p'] Hp Hp'.
  - rewrite !string_app_nil, !string_app_cons. naive_solver.
  - rewrite string_app_nil, !string_app_cons. simpl in Hp'. btrue. congruence.
  - rewrite string_app_nil, !string_app_cons. simpl in Hp. btrue. congruence.
  - rewrite (string_app_cons c), (string_app_cons c'). simpl in Hp, Hp'. btrue.
    intros [= -> Heq]. destruct (IH p' H2 H0 Heq) as [-> ->]. done.
Qed.
