(* ===== verification/AuditChain.v ===== *)
(** * The hash-chained audit log (packages/server/src/audit.ts)

    Entries, the canonical preimage and the chain hash; [verifyEntries], the
    verifier every log shares; [MemoryAuditLog]; and [PgAuditLog], whose [write]
    is a process of SELECT and INSERT commands that retries on a racing
    append.  SHA-256 is the primitive of [Crypto]; tamper evidence assumes that
    the entries at hand do not collide. *)

From S2P Require Import Prelude Proc JsNum Encoding Json Crypto.
From stdpp Require Import base strings list sets.
From Stdlib Require Import ZArith Lia.

(** ** Entries *)

Inductive AuditAction :=
  | verify_pass | verify_fail | register | revoke | rotate | lockout
  | shadow_mode_hit | shadow_mode_enter | ghost_pair_triggered.
Inductive AuditSeverity := info | warn | critical | HIGH | CRITICAL.
#[export] Instance AuditAction_eq_dec : EqDecision AuditAction.
Proof. solve_decision. Defined.
#[export] Instance AuditSeverity_eq_dec : EqDecision AuditSeverity.
Proof. solve_decision. Defined.

Definition action_string (a : AuditAction) : string :=
  match a with
  | verify_pass => "verify_pass" | verify_fail => "verify_fail" | register => "register"
  | revoke => "revoke" | rotate => "rotate" | lockout => "lockout"
  | shadow_mode_hit => "shadow_mode_hit" | shadow_mode_enter => "shadow_mode_enter"
  | ghost_pair_triggered => "ghost_pair_triggered"
  end.
Definition severity_string (s : AuditSeverity) : string :=
  match s with
  | info => "info" | warn => "warn" | critical => "critical" | HIGH => "HIGH" | CRITICAL => "CRITICAL"
  end.

(** The fields the caller supplies. *)
Record AuditInput := mkInput {
  ai_action : AuditAction;
  ai_severity : option AuditSeverity;
  ai_pairId : option string;
  ai_error : option string;
  ai_ip : option string;
  ai_method : option string;
  ai_path : option string;
  ai_userAgent : option string;
  ai_requestId : option string;
  ai_detail : option string;
}.

(** An entry without its hash, and with it. *)
Record AuditBase := mkBase {
  ab_input : AuditInput;
  ab_id : string;
  ab_timestamp : Z;
  ab_seq : Z;
  ab_prevHash : string;
}.
Record AuditEntry := mkEntry { e_base : AuditBase; e_chainHash : string }.
Definition e_seq (e : AuditEntry) : Z := ab_seq (e_base e).
Definition e_prevHash (e : AuditEntry) : string := ab_prevHash (e_base e).

Record ChainHead := mkHead { h_seq : Z; h_chainHash : string; h_count : Z }.
Record VerifyResult := mkVerify { v_valid : bool; v_brokenAtSeq : option Z; v_reason : option string }.

Definition GENESIS_HASH : string := unchars (replicate 64 "0"%char).

Definition opt_json (o : option string) : jsval := match o with Some s => JStr s | None => JNull end.

Definition chainPreimage (e : AuditBase) (severity : AuditSeverity) : string :=
  let i := ab_input e in
  stringify (JArr [
    JNum (int (ab_seq e)); JStr (ab_prevHash e); JStr (ab_id e); JNum (int (ab_timestamp e));
    JStr (action_string (ai_action i)); JStr (severity_string severity);
    opt_json (ai_pairId i); opt_json (ai_error i); opt_json (ai_ip i); opt_json (ai_method i);
    opt_json (ai_path i); opt_json (ai_userAgent i); opt_json (ai_requestId i); opt_json (ai_detail i)]).

Section hash.
Context `{WC : WebCrypto}.

Definition sha256hex (input : string) : string :=
  foldr (λ b s, hex_byte b +:+ s) EmptyString (Z.of_N <$> codes (sha256 (utf8_encode input))).

Definition computeChainHash (e : AuditBase) : string :=
  sha256hex (chainPreimage e (default info (ai_severity (ab_input e)))).

(** ** verifyEntries *)

(** [sort((a, b) => a.seq - b.seq)], which is stable. *)
Fixpoint insert_seq (e : AuditEntry) (l : list AuditEntry) : list AuditEntry :=
  match l with
  | [] => [e]
  | x :: l => if decide (e_seq e <= e_seq x)%Z then e :: x :: l else x :: insert_seq e l
  end.
Definition sort_seq (l : list AuditEntry) : list AuditEntry := foldr insert_seq [] l.

Definition invalid (seq : Z) (reason : string) : VerifyResult := mkVerify false (Some seq) (Some reason).
Definition valid : VerifyResult := mkVerify true None None.

(** The loop over the sorted entries; [prev] is [sorted[i - 1]]. *)
Fixpoint verify_loop (prev : option AuditEntry) (l : list AuditEntry) : option VerifyResult :=
  match l with
  | [] => None
  | e :: l =>
      if decide (computeChainHash (e_base e) ≠ e_chainHash e)
      then Some (invalid (e_seq e) "entry_hash_mismatch")
      else
        match prev with
        | Some p =>
            if decide (e_seq e ≠ e_seq p + 1)%Z then Some (invalid (e_seq e) "non_contiguous_seq")
            else if decide (e_prevHash e ≠ e_chainHash p) then Some (invalid (e_seq e) "broken_link")
            else verify_loop (Some e) l
        | None => verify_loop (Some e) l
        end
  end.

Definition verify_anchor (sorted : list AuditEntry) (anchor : ChainHead) : VerifyResult :=
  match last sorted with
  | None => invalid (h_seq anchor) "truncated_below_anchor"
  | Some l =>
      if decide (e_seq l < h_seq anchor)%Z then invalid (h_seq anchor) "truncated_below_anchor"
      else
        match List.find (λ e, bool_decide (e_seq e = h_seq anchor)) sorted with
        | Some e =>
            if decide (e_chainHash e ≠ h_chainHash anchor) then invalid (h_seq anchor) "anchor_mismatch"
            else valid
        | None => invalid (h_seq anchor) "anchor_mismatch"
        end
  end.

Definition verifyEntries (entries : list AuditEntry) (expectedHead : option ChainHead) : VerifyResult :=
  let sorted := sort_seq entries in
  match verify_loop None sorted with
  | Some r => r
  | None => match expectedHead with Some anchor => verify_anchor sorted anchor | None => valid end
  end.
End hash.

(** ** MemoryAuditLog *)

(** [auditId()]: the time and a process-wide counter in base 36. *)
Definition base36_digit (d : Z) : ascii :=
  if decide (d < 10)%Z then digit_char d else ascii_of_N (Z.to_N (87 + d)).
Fixpoint base36_go (fuel : nat) (n : Z) (acc : string) : string :=
  match fuel with
  | O => acc
  | S fuel =>
      let acc := String (base36_digit (n mod 36)) acc in
      if decide (n < 36)%Z then acc else base36_go fuel (n / 36) acc
  end.
Definition base36 (n : Z) : string := base36_go (S (Z.to_nat (Z.log2 n))) n EmptyString.
Definition auditId (now counter : Z) : string :=
  "audit_" +:+ z_to_string now +:+ "_" +:+ base36 counter.

Record MemoryAuditLog := mkAuditLog {
  al_entries : list AuditEntry;
  al_maxSize : option Z;  (* None: Infinity *)
  al_seqCounter : Z;
  al_headHash : string;
  al_totalWritten : Z;
  al_idCounter : Z;
}.
Definition MemoryAuditLog_new (maxSize : option Z) : MemoryAuditLog :=
  mkAuditLog [] maxSize 0 GENESIS_HASH 0 0.

(** [entry.severity ?? (entry.error ? 'warn' : 'info')] *)
Definition default_severity (i : AuditInput) : AuditSeverity :=
  default (match ai_error i with Some e => if decide (e = EmptyString) then info else warn | None => info end)
    (ai_severity i).
Definition with_severity (s : AuditSeverity) (i : AuditInput) : AuditInput :=
  mkInput (ai_action i) (Some s) (ai_pairId i) (ai_error i) (ai_ip i) (ai_method i) (ai_path i)
    (ai_userAgent i) (ai_requestId i) (ai_detail i).

(** The log as a class, so that the verifier can run with any log. *)
Class AuditLog (U : Type) := { audit_write : AuditInput → Z → U → U * exc unit }.

Section memory.
Context `{WC : WebCrypto}.

Definition MemoryAuditLog_write (entry : AuditInput) (now : Z) (s : MemoryAuditLog) :
    MemoryAuditLog * exc unit :=
  let seq := (al_seqCounter s + 1)%Z in
  let counter := (al_idCounter s + 1)%Z in
  let base := mkBase (with_severity (default_severity entry) entry) (auditId now counter) now seq
                (al_headHash s) in
  let full := mkEntry base (computeChainHash base) in
  let entries := al_entries s ++ [full] in
  let entries := match al_maxSize s with
                 | Some m => if decide (m < Z.of_nat (length entries))%Z then tail entries else entries
                 | None => entries
                 end in
  (mkAuditLog entries (al_maxSize s) seq (e_chainHash full) (al_totalWritten s + 1) counter, Ret tt).

#[export] Instance MemoryAuditLog_log : AuditLog MemoryAuditLog := { audit_write := MemoryAuditLog_write }.

(** [l.slice(-limit)] *)
Definition slice_neg {A} (limit : Z) (l : list A) : list A :=
  if decide (0 < limit)%Z then drop (length l - Z.to_nat limit) l else drop (Z.to_nat (- limit)) l.

Definition MemoryAuditLog_query (pairId : string) (limit : Z) (s : MemoryAuditLog) : list AuditEntry :=
  reverse (slice_neg limit (filter (λ e, ai_pairId (ab_input (e_base e)) = Some pairId) (al_entries s))).
Definition MemoryAuditLog_queryAll (limit : nat) (s : MemoryAuditLog) : list AuditEntry :=
  take limit (reverse (al_entries s)).
Definition MemoryAuditLog_head (s : MemoryAuditLog) : ChainHead :=
  mkHead (al_seqCounter s) (al_headHash s) (al_totalWritten s).
Definition MemoryAuditLog_verifyChain (expectedHead : option ChainHead) (s : MemoryAuditLog) : VerifyResult :=
  verifyEntries (al_entries s) expectedHead.
End memory.

(** ** PgAuditLog *)

(** How a statement fares apart from the unique constraints: it answers, fails
    before it had an effect, or has its effect and loses the answer. *)
Inductive statement_fault := answers | fails (e : error) | answer_lost (e : error).

(** The rows of [bpc_audit], where [id] is the primary key and [seq] is unique, the
    clock, the identifier counter, and the fate of the coming statements, which
    answer when the list is empty. *)
Record PgAudit := mkPgAudit { pg_rows : list AuditEntry; pg_now : Z; pg_idCounter : Z; pg_faults : list statement_fault }.

Inductive insert_result := Inserted | UniqueViolation.

(** [SELECT seq, chain_hash ... ORDER BY seq DESC LIMIT 1] *)
Definition pg_select_head (rows : list AuditEntry) : option (Z * string) :=
  match last (sort_seq rows) with Some e => Some (e_seq e, e_chainHash e) | None => None end.

Definition pg_insert (e : AuditEntry) (rows : list AuditEntry) : list AuditEntry * insert_result :=
  if decide (e_seq e ∈ (e_seq <$> rows) ∨ ab_id (e_base e) ∈ ((λ e, ab_id (e_base e)) <$> rows))
  then (rows, UniqueViolation) else (rows ++ [e], Inserted).

(** [pool.query] of a statement with this effect on the rows and this answer. *)
Definition pg_query {A} (statement : list AuditEntry → list AuditEntry * A) (w : PgAudit) : PgAudit * exc A :=
  let '(rows, a) := statement (pg_rows w) in
  let world rows := mkPgAudit rows (pg_now w) (pg_idCounter w) (tail (pg_faults w)) in
  match default answers (head (pg_faults w)) with
  | answers => (world rows, Ret a)
  | fails e => (world (pg_rows w), Throw e)
  | answer_lost e => (world rows, Throw e)
  end.

Section pg.
Context `{WC : WebCrypto}.

(** The body of one attempt, and the retry loop: only a unique violation is retried,
    any other error of either statement is thrown. *)
Fixpoint PgAuditLog_attempts (n : nat) (entry : AuditInput) (id : string) (timestamp : Z)
    (severity : AuditSeverity) : proc PgAudit (exc unit) :=
  match n with
  | O => ethrow (PlainError "bpc_audit: append contention exceeded retry budget")
  | S n =>
      (let+ head := call (pg_query (λ rows, (rows, pg_select_head rows))) in
       let '(prevSeq, prevHash) := default (0%Z, GENESIS_HASH) head in
       let base := mkBase (with_severity severity entry) id timestamp (prevSeq + 1)%Z prevHash in
       let row := mkEntry base (computeChainHash base) in
       let+ r := call (pg_query (pg_insert row)) in
       match r with
       | Inserted => eret tt
       | UniqueViolation => PgAuditLog_attempts n entry id timestamp severity
       end)%bpc
  end.

Definition PgAuditLog_write (maxRetries : nat) (entry : AuditInput) : proc PgAudit (exc unit) :=
  (let* idt := call (λ w, (mkPgAudit (pg_rows w) (pg_now w) (pg_idCounter w + 1) (pg_faults w),
                           (auditId (pg_now w) (pg_idCounter w + 1), pg_now w))) in
   PgAuditLog_attempts maxRetries entry idt.1 idt.2 (default_severity entry))%bpc.

Definition PgAuditLog_verifyChain (expectedHead : option ChainHead) (w : PgAudit) : VerifyResult :=
  verifyEntries (sort_seq (pg_rows w)) expectedHead.
End pg.

(** ** Chains *)

Section chain.
Context `{WC : WebCrypto}.

Definition hash_ok (e : AuditEntry) : Prop := computeChainHash (e_base e) = e_chainHash e.

Fixpoint chain_from (seq : Z) (hash : string) (l : list AuditEntry) : Prop :=
  match l with
  | [] => True
  | e :: l => hash_ok e ∧ e_seq e = (seq + 1)%Z ∧ e_prevHash e = hash ∧ chain_from (e_seq e) (e_chainHash e) l
  end.
Definition chain (l : list AuditEntry) : Prop :=
  match l with [] => True | e :: l => hash_ok e ∧ chain_from (e_seq e) (e_chainHash e) l end.

Lemma verify_loop_from p l : verify_loop (Some p) l = None ↔ chain_from (e_seq p) (e_chainHash p) l.
Proof.
  revert p. induction l as [|e l IH]; intros p; [done|]. cbn [verify_loop chain_from]. unfold hash_ok.
  destruct (decide (computeChainHash (e_base e) ≠ e_chainHash e)); [naive_solver|].
  destruct (decide (e_seq e ≠ e_seq p + 1)%Z); [naive_solver|].
  destruct (decide (e_prevHash e ≠ e_chainHash p)); [naive_solver|]. rewrite IH.
  split; [|naive_solver]. intros. split_and!; try done; by apply dec_stable.
Qed.

Lemma verify_loop_chain l : verify_loop None l = None ↔ chain l.
Proof.
  destruct l as [|e l]; [done|]. cbn [verify_loop chain]. unfold hash_ok.
  destruct (decide (computeChainHash (e_base e) ≠ e_chainHash e)) as [|Hh]; [naive_solver|].
  rewrite verify_loop_from. apply dec_stable in Hh. naive_solver.
Qed.

Lemma chain_from_chain seq hash l : chain_from seq hash l → chain l.
Proof. destruct l; simpl; naive_solver. Qed.

Lemma chain_tail e l : chain (e :: l) → chain l.
Proof. simpl. intros [_ H]. by eapply chain_from_chain. Qed.

Lemma chain_drop k l : chain l → chain (drop k l).
Proof.
  revert l. induction k as [|k IH]; intros [|e l]; try done.
  intros Hc. simpl drop. eapply IH, chain_tail, Hc.
Qed.

Lemma chain_from_seqs seq hash l e : chain_from seq hash l → e ∈ l → (seq < e_seq e)%Z.
Proof.
  revert seq hash. induction l as [|x l IH]; intros seq hash; [set_solver|].
  intros (_ & Hs & _ & Hc) [->|Hin]%elem_of_cons; [lia|]. specialize (IH _ _ Hc Hin). lia.
Qed.

Lemma chain_from_lower seq hash x l : chain_from seq hash (x :: l) → (seq < e_seq x)%Z.
Proof. simpl. lia. Qed.

Lemma insert_seq_head e l : Forall (λ x, e_seq e <= e_seq x)%Z l → insert_seq e l = e :: l.
Proof. destruct 1; [done|]. simpl. by rewrite decide_True. Qed.

Lemma chain_sorted l : chain l → sort_seq l = l.
Proof.
  induction l as [|e l IH]; intros Hc; [done|]. simpl. rewrite IH by (by eapply chain_tail).
  apply insert_seq_head, Forall_forall. intros x Hx. destruct Hc as [_ Hc].
  pose proof (chain_from_seqs _ _ _ _ Hc Hx). lia.
Qed.

Lemma chain_from_snoc seq hash l e : chain_from seq hash l → hash_ok e →
  (match last l with Some p => e_seq e = (e_seq p + 1)%Z ∧ e_prevHash e = e_chainHash p
   | None => e_seq e = (seq + 1)%Z ∧ e_prevHash e = hash end) → chain_from seq hash (l ++ [e]).
Proof.
  revert seq hash. induction l as [|x l IH]; intros seq hash; [simpl; naive_solver|].
  intros (Hh & Hs & Hp & Hc) He Hlast. simpl. split_and!; [done..|]. apply IH; [done|done|].
  rewrite last_cons in Hlast. by destruct (last l).
Qed.

Lemma chain_snoc l e : chain l → hash_ok e →
  (match last l with Some p => e_seq e = (e_seq p + 1)%Z ∧ e_prevHash e = e_chainHash p | None => True end) →
  chain (l ++ [e]).
Proof.
  destruct l as [|x l]; [simpl; naive_solver|]. intros [Hh Hc] He Hlast. split; [done|].
  apply chain_from_snoc; [done|done|]. rewrite last_cons in Hlast. by destruct (last l).
Qed.

(** The verifier accepts exactly the chains, and, given an anchor, exactly the
    chains that contain the anchored entry and do not end before it. *)
Definition anchored (l : list AuditEntry) (anchor : ChainHead) : Prop :=
  (∃ e, last l = Some e ∧ (h_seq anchor <= e_seq e)%Z) ∧
  ∃ e, e ∈ l ∧ e_seq e = h_seq anchor ∧ e_chainHash e = h_chainHash anchor.

Lemma chain_from_NoDup seq hash l e e' : chain_from seq hash l → e ∈ l → e' ∈ l → e_seq e = e_seq e' → e = e'.
Proof.
  revert seq hash. induction l as [|x l IH]; intros seq hash; [set_solver|].
  intros (_ & _ & _ & Hc) [->|Hin]%elem_of_cons [->|Hin']%elem_of_cons Heq; [done| | |by eapply IH].
  - pose proof (chain_from_seqs _ _ _ _ Hc Hin'). lia.
  - pose proof (chain_from_seqs _ _ _ _ Hc Hin). lia.
Qed.

Lemma chain_NoDup l e e' : chain l → e ∈ l → e' ∈ l → e_seq e = e_seq e' → e = e'.
Proof.
  destruct l as [|x l]; [set_solver|]. intros [_ Hc] [->|Hin]%elem_of_cons [->|Hin']%elem_of_cons Heq;
    [done| | |by eapply chain_from_NoDup].
  - pose proof (chain_from_seqs _ _ _ _ Hc Hin'). lia.
  - pose proof (chain_from_seqs _ _ _ _ Hc Hin). lia.
Qed.

Lemma find_Some_spec {A} (f : A → bool) l x : List.find f l = Some x → x ∈ l ∧ f x = true.
Proof. intros H%List.find_some. by rewrite list_elem_of_In. Qed.

Lemma verify_anchor_valid l anchor : chain l →
  verify_anchor l anchor = valid ↔ anchored l anchor.
Proof.
  intros Hc. unfold verify_anchor, anchored.
  destruct (last l) as [x|] eqn:Hlast; [|split; [done|naive_solver]].
  destruct (decide (e_seq x < h_seq anchor)%Z).
  { split; [done|]. intros ((e & [= <-] & ?) & _). lia. }
  destruct (List.find _ l) as [e|] eqn:Hf.
  - apply find_Some_spec in Hf as [Hin Hs]. apply bool_decide_eq_true in Hs.
    destruct (decide (e_chainHash e ≠ h_chainHash anchor)) as [Hne|Heq].
    + split; [done|]. intros (_ & e' & Hin' & Hs' & Hh'). destruct Hne.
      by rewrite (chain_NoDup l e e' Hc Hin Hin') by congruence.
    + apply dec_stable in Heq. split; [|done]. intros _. split; [exists x; split; [done|lia]|by exists e].
  - split; [done|]. intros (_ & e & Hin & Hs & _).
    apply List.find_none with (x := e) in Hf; [|by apply list_elem_of_In].
    apply bool_decide_eq_false in Hf. done.
Qed.

Lemma verifyEntries_chain l anchor : chain l →
  verifyEntries l anchor = match anchor with Some a => verify_anchor l a | None => valid end.
Proof.
  intros Hc. unfold verifyEntries. rewrite chain_sorted by done.
  by rewrite (proj2 (verify_loop_chain l)).
Qed.

Lemma verify_loop_not_valid p l r : verify_loop p l = Some r → v_valid r = false.
Proof.
  revert p. induction l as [|e l IH]; intros p; cbn [verify_loop]; [done|].
  case_decide; [by intros [= <-]|]. destruct p; [|apply IH].
  case_decide; [by intros [= <-]|]. case_decide; [by intros [= <-]|]. apply IH.
Qed.

Lemma verifyEntries_valid l anchor : v_valid (verifyEntries l anchor) = true →
  chain (sort_seq l) ∧ match anchor with Some a => anchored (sort_seq l) a | None => True end.
Proof.
  unfold verifyEntries. destruct (verify_loop None (sort_seq l)) as [r|] eqn:Hl.
  { intros Hv. by rewrite (verify_loop_not_valid _ _ _ Hl) in Hv. }
  apply verify_loop_chain in Hl. destruct anchor as [a|]; [|done]. intros Hv. split; [done|].
  apply verify_anchor_valid; [done|]. unfold verify_anchor in *. repeat case_match; done.
Qed.

Lemma insert_seq_perm e l : insert_seq e l ≡ₚ e :: l.
Proof. induction l as [|x l IH]; simpl; [done|]. case_decide; [done|]. rewrite IH. apply Permutation_swap. Qed.
Lemma sort_seq_perm l : sort_seq l ≡ₚ l.
Proof. induction l as [|e l IH]; simpl; [done|]. by rewrite insert_seq_perm, IH. Qed.

(** ** Tamper evidence *)

(** What the hash covers: an undefined severity counts as [info]. *)
Definition covered (e : AuditBase) : AuditBase :=
  mkBase (with_severity (default info (ai_severity (ab_input e))) (ab_input e)) (ab_id e)
    (ab_timestamp e) (ab_seq e) (ab_prevHash e).

Definition in_range (e : AuditEntry) : Prop :=
  is_safe_integer (e_seq e) = true ∧ is_safe_integer (ab_timestamp (e_base e)) = true.

Lemma int_jwf z : is_safe_integer z = true → jwf (JNum (int z)).
Proof.
  unfold is_safe_integer. intros H. btrue. split; [by left|]. unfold dec_finite, int. simpl.
  unfold MAX_SAFE_INTEGER, max_finite, pow10 in *. lia.
Qed.

Lemma opt_json_inj a b : opt_json a = opt_json b → a = b.
Proof. destruct a, b; simpl; congruence. Qed.
Lemma opt_json_wf a : jwf (opt_json a).
Proof. by destruct a. Qed.

Lemma preimage_inj e e' s s' :
  is_safe_integer (ab_seq e) = true → is_safe_integer (ab_timestamp e) = true →
  is_safe_integer (ab_seq e') = true → is_safe_integer (ab_timestamp e') = true →
  chainPreimage e s = chainPreimage e' s' →
  mkBase (with_severity s (ab_input e)) (ab_id e) (ab_timestamp e) (ab_seq e) (ab_prevHash e) =
  mkBase (with_severity s' (ab_input e')) (ab_id e') (ab_timestamp e') (ab_seq e') (ab_prevHash e').
Proof.
  intros H1 H2 H3 H4 Heq. unfold chainPreimage in Heq. apply stringify_inj in Heq.
  2,3: repeat (split; [first [by apply int_jwf|apply opt_json_wf|done]|]); done.
  injection Heq as Hseq Hprev Hid Hts Hact Hsev Ha Hb Hc Hd He Hf Hg Hh.
  repeat match goal with H : opt_json _ = opt_json _ |- _ => apply opt_json_inj in H end.
  assert (ai_action (ab_input e) = ai_action (ab_input e')).
  { by destruct (ai_action (ab_input e)), (ai_action (ab_input e')). }
  assert (s = s') by (by destruct s, s').
  unfold with_severity. congruence.
Qed.

(** No two of the entries at hand have different preimages with one hash. *)
Definition no_collision (l l' : list AuditEntry) : Prop :=
  ∀ e e', e ∈ l → e' ∈ l' → computeChainHash (e_base e) = computeChainHash (e_base e') →
    chainPreimage (e_base e) (default info (ai_severity (ab_input (e_base e)))) =
    chainPreimage (e_base e') (default info (ai_severity (ab_input (e_base e')))).

Lemma chain_pred l e : chain l → e ∈ l → (∀ x, head l = Some x → e_seq x < e_seq e)%Z →
  ∃ p, p ∈ l ∧ e_seq e = (e_seq p + 1)%Z ∧ e_prevHash e = e_chainHash p.
Proof.
  destruct l as [|x l]; [set_solver|]. intros [_ Hc] [->|Hin]%elem_of_cons Hlt.
  { specialize (Hlt x eq_refl). lia. }
  clear Hlt. revert x Hc Hin. induction l as [|y l IH]; intros x Hc Hin; [set_solver|].
  destruct Hc as (_ & Hs & Hp & Hc). apply elem_of_cons in Hin as [->|Hin].
  - exists x. split_and!; [set_solver|done|done].
  - destruct (IH y Hc Hin) as (p & Hin' & ?). exists p. split; [set_solver|done].
Qed.

Lemma chain_hash_ok l e : chain l → e ∈ l → hash_ok e.
Proof.
  destruct l as [|x l]; [set_solver|]. intros [Hh Hc] [->|Hin]%elem_of_cons; [done|]. clear Hh.
  revert x Hc Hin. induction l as [|y l IH]; intros x Hc Hin; [set_solver|].
  destruct Hc as (? & _ & _ & Hc). apply elem_of_cons in Hin as [->|Hin]; [done|]. by eapply IH.
Qed.

Lemma chain_head_min l x e : chain l → head l = Some x → e ∈ l → (e_seq x <= e_seq e)%Z.
Proof.
  destruct l as [|y l]; [done|]. intros [_ Hc] [= ->] [->|Hin]%elem_of_cons; [done|].
  pose proof (chain_from_seqs _ _ _ _ Hc Hin). lia.
Qed.

(** A chain contains every number between two of its entries. *)
Lemma chain_contains l e a : chain l → e ∈ l → a ∈ l → (e_seq e < e_seq a)%Z →
  ∃ n, n ∈ l ∧ e_seq n = (e_seq e + 1)%Z ∧ e_prevHash n = e_chainHash e.
Proof.
  intros Hc He Ha. remember (Z.to_nat (e_seq a - e_seq e)) as d eqn:Hd. revert a Hd Ha.
  induction d as [|d IH]; intros a Hd Ha Hlt; [lia|].
  destruct (chain_pred l a Hc Ha) as (p & Hp & Hs & Hprev).
  { intros x Hx. pose proof (chain_head_min l x e Hc Hx He). lia. }
  destruct (decide (e_seq p = e_seq e)) as [Heq|Hne].
  - exists a. rewrite (chain_NoDup l e p Hc He Hp) by done. split_and!; [done|lia|done].
  - apply (IH p); [lia|done|lia].
Qed.

Lemma anchor_agrees l l' (a : ChainHead) :
  chain l → chain l' → anchored l a → anchored l' a → no_collision l l' →
  Forall in_range l → Forall in_range l' →
  ∀ e e', e ∈ l → e' ∈ l' → e_seq e = e_seq e' → (e_seq e <= h_seq a)%Z →
    covered (e_base e) = covered (e_base e') ∧ e_chainHash e = e_chainHash e'.
Proof.
  intros Hc Hc' (_ & x & Hx & Hxs & Hxh) (_ & x' & Hx' & Hxs' & Hxh') Hnc Hr Hr'.
  assert (∀ e e', e ∈ l → e' ∈ l' → e_chainHash e = e_chainHash e' →
    covered (e_base e) = covered (e_base e')) as Hcov.
  { intros e e' He He' Hh. rewrite Forall_forall in Hr, Hr'.
    destruct (Hr _ He), (Hr' _ He'). apply preimage_inj; try done. apply Hnc; [done|done|].
    by rewrite (chain_hash_ok l e), (chain_hash_ok l' e'). }
  intros e e'. remember (Z.to_nat (h_seq a - e_seq e)) as d eqn:Hd. revert e e' Hd.
  induction d as [|d IH]; intros e e' Hd He He' Heq Hle.
  - rewrite (chain_NoDup l e x), (chain_NoDup l' e' x') by (done || lia).
    split; [apply Hcov; [done|done|]|]; congruence.
  - destruct (chain_contains l e x) as (n & Hn & Hns & Hnp); [done..|lia|].
    destruct (chain_contains l' e' x') as (n' & Hn' & Hns' & Hnp'); [done..|lia|].
    destruct (IH n n') as [Hcn _]; [lia|done|done|lia|lia|].
    assert (e_prevHash n = e_prevHash n') as Hprev by (by injection Hcn).
    assert (e_chainHash e = e_chainHash e') as Hh by congruence. split; [by apply Hcov|done].
Qed.

(** ** MemoryAuditLog *)

Definition audit_writes (maxSize : option Z) (ws : list (AuditInput * Z)) : MemoryAuditLog :=
  foldl (λ s w, (MemoryAuditLog_write w.1 w.2 s).1) (MemoryAuditLog_new maxSize) ws.

Definition log_ok (s : MemoryAuditLog) : Prop :=
  chain (al_entries s) ∧ (0 <= al_seqCounter s)%Z ∧ (∀ e, e ∈ al_entries s → 1 <= e_seq e <= al_seqCounter s)%Z ∧
  match last (al_entries s) with
  | Some e => e_seq e = al_seqCounter s ∧ e_chainHash e = al_headHash s
  | None => al_seqCounter s = 0%Z ∧ al_headHash s = GENESIS_HASH
  end.

Definition retains (maxSize : option Z) : Prop := match maxSize with Some m => (1 <= m)%Z | None => True end.

Lemma write_ok i now s : retains (al_maxSize s) → log_ok s → log_ok (MemoryAuditLog_write i now s).1.
Proof.
  intros Hret (Hc & Hpos & Hrange & Hlast). unfold MemoryAuditLog_write.
  set (base := mkBase _ _ _ _ _). set (full := mkEntry base (computeChainHash base)).
  set (entries := al_entries s ++ [full]).
  assert (chain entries) as Hc'.
  { apply chain_snoc; [done|done|]. destruct (last (al_entries s)) as [p|]; [|done].
    destruct Hlast as [Hs Hh]. unfold e_seq, e_prevHash. simpl. unfold e_seq in Hs. split; [lia|done]. }
  set (kept := match al_maxSize s with Some m => _ | None => entries end).
  assert (chain kept ∧ last kept = Some full ∧ ∀ e, e ∈ kept → e ∈ entries) as (Hk & Hkl & Hsub).
  { assert (last entries = Some full) as Hle by apply last_snoc.
    unfold kept. destruct (al_maxSize s) as [m|]; [|done]. case_decide as Hm; [|done].
    destruct entries as [|x t] eqn:He; [done|]. simpl tail. split_and!; [by eapply chain_tail| |set_solver].
    rewrite last_cons in Hle. destruct (last t) eqn:Ht; [done|].
    apply last_None in Ht as ->. simpl in Hm, Hret. lia. }
  cbn [al_entries al_seqCounter al_headHash fst]. split_and!.
  - exact Hk.
  - cbn. lia.
  - cbn. intros e He%Hsub. apply elem_of_app in He as [He|He].
    + specialize (Hrange e He). lia.
    + apply list_elem_of_singleton in He as ->. unfold full, e_seq. simpl. lia.
  - change (al_entries _) with kept. rewrite Hkl. done.
Qed.

Lemma write_maxSize i now s : al_maxSize (MemoryAuditLog_write i now s).1 = al_maxSize s.
Proof. done. Qed.

Lemma writes_ok m ws : retains m → log_ok (audit_writes m ws) ∧ al_maxSize (audit_writes m ws) = m.
Proof.
  intros Hm. unfold audit_writes.
  assert (∀ s, retains (al_maxSize s) → log_ok s → al_maxSize s = m →
    log_ok (foldl (λ s w, (MemoryAuditLog_write w.1 w.2 s).1) s ws) ∧
    al_maxSize (foldl (λ s w, (MemoryAuditLog_write w.1 w.2 s).1) s ws) = m) as H.
  { induction ws as [|[i now] ws IH]; intros s Hr Hok Hmax; [done|]. simpl. apply IH; [done| |done].
    by apply write_ok. }
  apply H; [done| |done]. split_and!; [done|simpl; lia|set_solver|done].
Qed.

Lemma audit_writes_snoc m ws i now :
  audit_writes m (ws ++ [(i, now)]) = (MemoryAuditLog_write i now (audit_writes m ws)).1.
Proof. unfold audit_writes. by rewrite foldl_snoc. Qed.

Lemma writes_snoc_head m ws i now : retains m →
  let s := audit_writes m (ws ++ [(i, now)]) in
  ∃ e, last (al_entries s) = Some e ∧ e_seq e = h_seq (MemoryAuditLog_head s) ∧
    e_chainHash e = h_chainHash (MemoryAuditLog_head s).
Proof.
  intros Hm s. destruct (writes_ok m (ws ++ [(i, now)]) Hm) as [(_ & _ & _ & Hlast) _].
  fold s in Hlast. destruct (last (al_entries s)) as [e|] eqn:Hl; [by exists e|].
  exfalso. destruct Hlast as [Hz _]. unfold s in Hz. rewrite audit_writes_snoc in Hz.
  assert (al_seqCounter (audit_writes m ws) + 1 = 0)%Z as Hz' by exact Hz.
  destruct (writes_ok m ws Hm) as [(_ & Hp & _) _]. lia.
Qed.

(** An unbounded log only grows at its end. *)
Lemma writes_prefix ws1 ws2 :
  ∃ l, al_entries (audit_writes None (ws1 ++ ws2)) = al_entries (audit_writes None ws1) ++ l.
Proof.
  induction ws2 as [|[i now] ws2 IH] using rev_ind; [exists []; by rewrite !app_nil_r|].
  destruct IH as [l Hl]. destruct (writes_ok None (ws1 ++ ws2) I) as [_ Hmax].
  rewrite app_assoc, audit_writes_snoc. revert Hl Hmax.
  generalize (audit_writes None (ws1 ++ ws2)) as s. intros s Hl Hmax.
  unfold MemoryAuditLog_write. cbn [al_entries fst]. rewrite Hmax, Hl, <-app_assoc. by eexists.
Qed.
End chain.

(** ** PgAuditLog under concurrent appends *)

Section pg_concurrency.
Context `{WC : WebCrypto}.

(** The table is one chain from the genesis entry. *)
Definition table_ok (w : PgAudit) : Prop := chain_from 0 GENESIS_HASH (pg_rows w).
(** Other writers append and keep the chain; nobody updates or deletes. *)
Definition appends (w w' : PgAudit) : Prop :=
  (∃ l, pg_rows w' = pg_rows w ++ l) ∧ (table_ok w → table_ok w').

Lemma appends_refl w : appends w w.
Proof. split; [exists []; by rewrite app_nil_r|done]. Qed.
Lemma appends_trans w1 w2 w3 : appends w1 w2 → appends w2 w3 → appends w1 w3.
Proof.
  intros [[l1 Hl1] H1] [[l2 Hl2] H2]. split; [|naive_solver].
  exists (l1 ++ l2). by rewrite Hl2, Hl1, app_assoc.
Qed.

(** The head that was read is still the end of the table, or its successor's
    number is taken. *)
Lemma chain_from_split seq hash l l' : chain_from seq hash (l ++ l') →
  match last l with
  | Some p => chain_from (e_seq p) (e_chainHash p) l'
  | None => chain_from seq hash l'
  end.
Proof.
  revert seq hash. induction l as [|x l IH]; intros seq hash; [done|].
  intros (_ & _ & _ & Hc). specialize (IH _ _ Hc). rewrite last_cons. by destruct (last l).
Qed.

Lemma select_head rows : chain_from 0 GENESIS_HASH rows →
  default (0%Z, GENESIS_HASH) (pg_select_head rows) =
  match last rows with Some e => (e_seq e, e_chainHash e) | None => (0%Z, GENESIS_HASH) end.
Proof.
  intros Hc. unfold pg_select_head. rewrite chain_sorted by (by eapply chain_from_chain). by destruct (last rows).
Qed.

Lemma insert_extends rows l row prevSeq prevHash :
  chain_from 0 GENESIS_HASH (rows ++ l) →
  match last rows with Some e => (e_seq e, e_chainHash e) | None => (0%Z, GENESIS_HASH) end = (prevSeq, prevHash) →
  hash_ok row → e_seq row = (prevSeq + 1)%Z → e_prevHash row = prevHash →
  e_seq row ∉ (e_seq <$> rows ++ l) → chain_from 0 GENESIS_HASH ((rows ++ l) ++ [row]).
Proof.
  intros Hc Hlast Hh Hs Hp Hfresh.
  assert (l = []) as ->.
  { destruct l as [|x l]; [done|]. exfalso. apply Hfresh.
    apply chain_from_split in Hc. apply list_elem_of_fmap. exists x. split; [|set_solver].
    destruct (last rows); simplify_eq; destruct Hc as (_ & Hx & _); congruence. }
  rewrite app_nil_r in *. apply chain_from_snoc; [done|done|].
  destruct (last rows); simplify_eq; done.
Qed.

Definition written (entry : AuditInput) (severity : AuditSeverity) (w : PgAudit) : Prop :=
  ∃ row, row ∈ pg_rows w ∧ ab_input (e_base row) = with_severity severity entry.

(** A statement of a process: with the answer it goes on, with an error it throws,
    and in either case the rows are those before it or those it makes. *)
Lemma wpg_query {A} (statement : list AuditEntry → list AuditEntry * A) (k : A → proc PgAudit (exc unit)) Q w :
  (∀ w1 w2, appends w w1 → pg_rows w2 = pg_rows w1 ∨ pg_rows w2 = (statement (pg_rows w1)).1 →
     appends w1 w2 ∧ (∀ e, Q (Throw e) w2)) →
  (∀ w1 w2, appends w w1 → pg_rows w2 = (statement (pg_rows w1)).1 →
     wpg appends appends (k (statement (pg_rows w1)).2) Q w2) →
  wpg appends appends (ebind (call (pg_query statement)) k) Q w.
Proof.
  intros Hstep Hk. apply wpg_bind, wpg_call. intros w1 Hw1. specialize (Hstep w1). specialize (Hk w1).
  unfold pg_query in *. destruct (statement (pg_rows w1)) as [rows a]. cbn [fst snd] in *.
  destruct (default answers (head (pg_faults w1))); cbn; (split; [by apply Hstep; auto|]);
    first [by apply Hk | by apply Hstep; auto].
Qed.

(** An insert of the successor of a head that was read: refused, or the table is
    still the one that was read and stays a chain. *)
Lemma insert_ok w1 w2 row prevSeq prevHash : table_ok w1 → appends w1 w2 →
  default (0%Z, GENESIS_HASH) (pg_select_head (pg_rows w1)) = (prevSeq, prevHash) →
  hash_ok row → e_seq row = (prevSeq + 1)%Z → e_prevHash row = prevHash →
  pg_insert row (pg_rows w2) = (pg_rows w2, UniqueViolation) ∨
  pg_insert row (pg_rows w2) = (pg_rows w2 ++ [row], Inserted) ∧ chain_from 0 GENESIS_HASH (pg_rows w2 ++ [row]).
Proof.
  intros Hok1 [[l Hl] Hok2] Hhead Hh Hs Hp. specialize (Hok2 Hok1). rewrite select_head in Hhead by done.
  unfold pg_insert. case_decide as Hdup; [by left|right]. split; [done|]. unfold table_ok in Hok2. rewrite Hl in *.
  apply (insert_extends _ _ _ prevSeq prevHash); try done. intros Hin. apply Hdup. by left.
Qed.

Lemma appends_rows w1 w2 l : pg_rows w2 = pg_rows w1 ++ l → (table_ok w1 → chain_from 0 GENESIS_HASH (pg_rows w1 ++ l)) →
  appends w1 w2.
Proof. intros Hl Hc. split; [by exists l|]. unfold table_ok in *. by rewrite Hl. Qed.

Lemma attempts_safe n entry id timestamp severity w : table_ok w →
  wpg appends appends (PgAuditLog_attempts n entry id timestamp severity)
    (λ r w', table_ok w' ∧ (r = Ret tt → written entry severity w')) w.
Proof.
  assert (∀ w1 w2, pg_rows w2 = pg_rows w1 → appends w1 w2) as Hsame.
  { intros w1 w2 Hw. apply (appends_rows _ _ []); by rewrite app_nil_r. }
  revert w. induction n as [|n IH]; intros w Hok; [done|]. cbn [PgAuditLog_attempts]. apply wpg_query; cbn [fst snd].
  { intros w1 w2 [_ Hok1] Hr. assert (appends w1 w2) as Hw2 by (apply Hsame; by destruct Hr).
    split; [done|]. intros e. split; [by apply Hw2, Hok1|done]. }
  intros w0 w1 [_ Hok0] Hw1. rewrite <-Hw1. assert (table_ok w1) as Hok1 by (unfold table_ok in *; rewrite Hw1; auto).
  destruct (default _ _) as [prevSeq prevHash] eqn:Hhead. set (row := mkEntry _ _).
  assert (∀ w2, appends w1 w2 → _) as Hins by (intros w2 Hw2; exact (insert_ok w1 w2 row _ _ Hok1 Hw2 Hhead eq_refl eq_refl eq_refl)).
  apply wpg_query.
  - intros w2 w3 Hw2 Hr. assert (appends w2 w3) as Hw3.
    { destruct (Hins w2 Hw2) as [Hi|[Hi Hc]]; rewrite Hi in Hr; destruct Hr as [Hr|Hr]; try by apply Hsame. by apply (appends_rows _ _ [row]). }
    split; [done|]. intros e. split; [|done]. by apply Hw3, Hw2.
  - intros w2 w3 Hw2 Hr. destruct (Hins w2 Hw2) as [Hi|[Hi Hc]]; rewrite Hi in Hr |- *; cbn [fst snd] in *.
    + apply IH. by apply (Hsame w2 w3), Hw2.
    + split; [by unfold table_ok; rewrite Hr|]. intros _. exists row. rewrite Hr. split; [set_solver|done].
Qed.

Lemma write_safe maxRetries entry w : table_ok w →
  wpg appends appends (PgAuditLog_write maxRetries entry)
    (λ r w', table_ok w' ∧ (r = Ret tt → written entry (default_severity entry) w')) w.
Proof.
  intros Hok. apply wpg_bind, wpg_call. intros w1 [_ Hok1]. cbn [fst snd].
  split; [split; [by exists []; rewrite app_nil_r|done]|]. apply attempts_safe. unfold table_ok in *. by apply Hok1.
Qed.

(** An identifier that is already in the table is never inserted again: all the
    retries of [write] use the same one. *)
Lemma attempts_same_id n entry id timestamp severity w : pg_faults w = [] →
  id ∈ ((λ e, ab_id (e_base e)) <$> pg_rows w) →
  run (PgAuditLog_attempts n entry id timestamp severity) w =
  (w, Throw (PlainError "bpc_audit: append contention exceeded retry budget")).
Proof.
  destruct w as [rows now counter faults]. cbn [pg_faults pg_rows]. intros -> Hid.
  induction n as [|n IH]; [done|]. cbn [PgAuditLog_attempts]. rewrite run_ebind. cbn [run call pg_query pg_rows pg_faults head tail default fst snd].
  rewrite (surjective_pairing (default _ _)), run_ebind. cbn [run call]. unfold pg_query. cbn [pg_rows pg_faults]. unfold pg_insert.
  rewrite decide_True by (right; done). exact IH.
Qed.
End pg_concurrency.


(** ** Properties *)

Section audit_properties.
Context `{WC : WebCrypto}.

Lemma writes_length ws : length (al_entries (audit_writes None ws)) = length ws.
Proof.
  induction ws as [|[i now] ws IH] using rev_ind; [done|].
  destruct (writes_ok None ws I) as [_ Hmax]. rewrite audit_writes_snoc. unfold MemoryAuditLog_write.
  cbn [al_entries fst]. rewrite Hmax, !length_app. by rewrite IH.
Qed.

(** Everything the in-memory log writes verifies: after any writes at any
    times, with or without a (positive) capacity, the retained entries form a
    valid chain. *)
Theorem audit_log_verifies maxSize ws : retains maxSize →
  MemoryAuditLog_verifyChain None (audit_writes maxSize ws) = valid.
Proof.
  intros Hm. destruct (writes_ok maxSize ws Hm) as [(Hc & _) _].
  unfold MemoryAuditLog_verifyChain. by rewrite verifyEntries_chain.
Qed.

(** An anchor stays valid as an unbounded log grows: the head taken after at
    least one write is confirmed by every later state of the log. *)
Theorem anchor_stays_valid ws i now ws' :
  MemoryAuditLog_verifyChain (Some (MemoryAuditLog_head (audit_writes None (ws ++ [(i, now)]))))
    (audit_writes None ((ws ++ [(i, now)]) ++ ws')) = valid.
Proof.
  destruct (writes_ok None ((ws ++ [(i, now)]) ++ ws') I) as [(Hc & _ & Hr & Hlast) _].
  destruct (writes_snoc_head None ws i now I) as (e & He & Hs & Hh).
  destruct (writes_prefix (ws ++ [(i, now)]) ws') as [l Hl].
  assert (e ∈ al_entries (audit_writes None ((ws ++ [(i, now)]) ++ ws'))) as Hin.
  { rewrite Hl. apply elem_of_app. left. by apply last_Some_elem_of. }
  unfold MemoryAuditLog_verifyChain. rewrite verifyEntries_chain by done. apply verify_anchor_valid; [done|].
  split; [|by exists e]. destruct (last (al_entries (audit_writes None ((ws ++ [(i, now)]) ++ ws')))) as [x|] eqn:Hx.
  - exists x. split; [done|]. specialize (Hr e Hin). destruct Hlast as [Hlast _]. lia.
  - apply last_None in Hx. rewrite Hx in Hin. set_solver.
Qed.

(** Tamper evidence: two logs that both verify against the same trusted
    anchor agree on every entry up to it that both contain -- the same content,
    chain position and hash -- unless they exhibit a SHA-256 collision between
    entries at hand. *)
Theorem anchored_logs_agree l l' anchor e e' :
  v_valid (verifyEntries l (Some anchor)) = true → v_valid (verifyEntries l' (Some anchor)) = true →
  no_collision l l' → Forall in_range l → Forall in_range l' →
  e ∈ l → e' ∈ l' → e_seq e = e_seq e' → (e_seq e <= h_seq anchor)%Z →
  covered (e_base e) = covered (e_base e') ∧ e_chainHash e = e_chainHash e'.
Proof.
  intros [Hc Ha]%verifyEntries_valid [Hc' Ha']%verifyEntries_valid Hnc Hr Hr' He He' Hs Hle.
  apply (anchor_agrees (sort_seq l) (sort_seq l') anchor); try done; [|by rewrite sort_seq_perm..].
  intros x x'. rewrite !sort_seq_perm. apply Hnc.
Qed.

(** C30 Concurrent appends to the PostgreSQL log keep one chain: in any
    interleaving of any number of [write]s, with other writers that only append
    to the chain, the table stays a single chain from the genesis hash, and
    every write that reports success has its row in it. *)
Theorem pg_writes_keep_chain maxRetries entries w tr w' ps' : table_ok w →
  pool_run appends (PgAuditLog_write maxRetries <$> entries) w tr w' ps' →
  table_ok w' ∧ ∀ i entry, entries !! i = Some entry → ps' !! i = Some (Done (Ret tt)) →
    written entry (default_severity entry) w'.
Proof.
  intros Hok Hrun.
  edestruct (pool_guarantee appends appends
    (λ i r w', table_ok w' ∧ (∀ entry, entries !! i = Some entry → r = Ret tt → written entry (default_severity entry) w')))
    as [Hall Hend]; [exact appends_trans|done|exact appends_refl| |exact Hrun| |].
  - intros i r w1 w2 [[l Hl] Ht] [H1 H2]. split; [by apply Ht|]. intros entry He Hr.
    destruct (H2 entry He Hr) as (row & Hrow & Hin). exists row. rewrite Hl. split; [set_solver|done].
  - intros i p Hi. rewrite list_lookup_fmap in Hi. destruct (entries !! i) as [entry|] eqn:He; [|done].
    injection Hi as <-. eapply wpg_mono; [|by apply write_safe]. intros r w1 [H1 H2]. split; [done|].
    intros entry' [= <-]. apply H2.
  - split.
    + assert (∀ tr (ps ps' : list (proc PgAudit (exc unit))) w w', pool_run appends ps w tr w' ps' →
        Forall (λ e, appends e.2.1 e.2.2) tr → table_ok w → table_ok w') as Hchain.
      { clear. induction 1; intros Hall Hok; [done|..]; inversion Hall as [|? ? Ha Hall']; subst;
          apply IHpool_run; try done; by apply Ha. }
      by eapply Hchain.
    + intros i entry He Hd. pose proof (Hend i _ Hd) as [_ H]. by apply H.
Qed.

(** The anchor of an empty log can never be confirmed: [head()] of a fresh
    log, given to [verifyChain] of any later state of the log, is reported as a
    broken chain. *)
Theorem genesis_anchor_fails ws :
  v_valid (MemoryAuditLog_verifyChain (Some (MemoryAuditLog_head (audit_writes None []))) (audit_writes None ws)) = false.
Proof.
  destruct (writes_ok None ws I) as [(Hc & _ & Hr & _) _]. apply not_true_is_false. intros Hv.
  apply verifyEntries_valid in Hv as [_ [_ (e & Hin & Hs & _)]]. rewrite sort_seq_perm in Hin.
  specialize (Hr e Hin). cbn in Hs. lia.
Qed.

(** Deleting the oldest entries is not detected: any suffix of a log that
    still contains the anchored entry verifies against the anchor, although the
    anchor records the number of entries. *)
Theorem prefix_deletion_undetected ws i now n : (n <= length ws)%nat →
  let s := audit_writes None (ws ++ [(i, now)]) in
  verifyEntries (drop n (al_entries s)) (Some (MemoryAuditLog_head s)) = valid.
Proof.
  intros Hn s. destruct (writes_ok None (ws ++ [(i, now)]) I) as [(Hc & _ & Hr & _) _].
  destruct (writes_snoc_head None ws i now I) as (e & He & Hs & Hh). fold s in He, Hs, Hh, Hc.
  assert (length (al_entries s) = S (length ws)) as Hlen.
  { unfold s. rewrite <-(Nat.add_1_r (length ws)). change 1%nat with (length [(i, now)]).
    rewrite <-(length_app ws). apply writes_length. }
  rewrite verifyEntries_chain by (by apply chain_drop). apply verify_anchor_valid; [by apply chain_drop|].
  assert (last (drop n (al_entries s)) = Some e) as Hl.
  { rewrite last_lookup, length_drop, lookup_drop, Hlen. rewrite last_lookup, Hlen in He.
    rewrite <-He. f_equal. simpl. lia. }
  split; [exists e; split; [done|lia]|]. exists e. split; [by apply last_Some_elem_of|done].
Qed.
End audit_properties.
