(* ===== verification/OutboxContract.v ===== *)
(** * The durable-outbox contract (packages/server/src/ha-outbox-contract.ts)

    The canonical text of a mutation (RFC 8785 restricted to I-JSON, with bounds
    on depth, nodes and bytes), the length-prefixed framing of digest preimages,
    the operation digest, header conformance, the digest of an epoch transition
    and the tumbler stream head.

    Record fields are JSON values: the checks decide at run time what the types
    promise at compile time.  A [jsval] has no accessors, symbols, holes or class
    instances, so the checks that reject those have no counterpart. *)

From S2P Require Import Prelude JsNum Encoding Json JsText Crypto AuditChain.
From stdpp Require Import base strings list sorting sets.
From Stdlib Require Import ZArith Lia.

Local Open Scope string_scope.

(** ** Bounds and grammars *)

Definition HA_OUTBOX_CONTRACT_VERSION : string := "1".
Definition HA_OUTBOX_DIGEST_DOMAIN : string := "selfconnect/ha-outbox/v1".
Definition CANON_MAX_DEPTH : nat := 64.
Definition CANON_MAX_NODES : Z := 10000.
Definition CANON_MAX_STRING_BYTES : Z := Z.shiftl 1 16.
Definition CANON_MAX_TOTAL_BYTES : Z := Z.shiftl 1 20.
Definition U32_CEIL : Z := 4294967296.

Definition contract_error {A} (msg : string) : exc A := Throw (ContractValidationError msg).

(** [/^[A-Za-z0-9][A-Za-z0-9:._/-]{0,127}$/] *)
Definition ID_PATTERN (s : string) : bool :=
  match s with
  | EmptyString => false
  | String c r =>
      (is_alnum c && all_chars (λ c, is_alnum c || one_of ":._/-" c) r &&
       bool_decide (str_len r <= 127)%Z)%bool
  end.
Definition ID_PATTERN_TEXT : string := "/^[A-Za-z0-9][A-Za-z0-9:._/-]{0,127}$/".

(** [/^(0|[1-9][0-9]{0,38})$/] *)
Definition FENCE_TOKEN_PATTERN (s : string) : bool :=
  match s with
  | EmptyString => false
  | String c r =>
      bool_decide (s = "0") ||
      (char_in 49 57 c && all_chars is_digit r && bool_decide (str_len r <= 38)%Z)
  end.

(** [/^[0-9a-f]{64}$/] *)
Definition HEX64 (s : string) : bool :=
  (all_chars is_hex_lower s && bool_decide (str_len s = 64)%Z)%bool.

(** [re.test(v)] on a value that need not be a string: it is converted first. *)
Definition re_test (re : string → bool) (v : jsval) : exc bool := re <$> js_to_string v.

Definition assertId (value : jsval) (label : string) : exc unit :=
  match value with
  | JStr s => if ID_PATTERN s then Ret tt
              else contract_error (label +:+ " must match " +:+ ID_PATTERN_TEXT +:+ " (bounded, no separators)")
  | _ => contract_error (label +:+ " must match " +:+ ID_PATTERN_TEXT +:+ " (bounded, no separators)")
  end.

(** ** Canonicalization *)

(** The loop over [s.charCodeAt(i)]; [i++] on a valid pair skips its second half. *)
Fixpoint surrogate_loop (l : list N) : exc unit :=
  match l with
  | [] => Ret tt
  | c :: l =>
      if decide (55296 <= c ∧ c <= 56319)%N then
        match l with
        | n :: l' => if decide (56320 <= n ∧ n <= 57343)%N then surrogate_loop l'
                     else contract_error "lone high surrogate is not canonicalizable"
        | [] => contract_error "lone high surrogate is not canonicalizable"
        end
      else if decide (56320 <= c ∧ c <= 57343)%N
      then contract_error "lone low surrogate is not canonicalizable"
      else surrogate_loop l
  end.
Definition assertNoLoneSurrogate (s : string) : exc unit := surrogate_loop (codes s).

Definition utf8Len (s : string) : Z := str_len (utf8_encode s).

Definition JCS_STRING_ESCAPE (ch : ascii) : option string :=
  if decide (ch = DQ) then Some (String BSL (String DQ EmptyString))
  else if decide (ch = BSL) then Some (String BSL (String BSL EmptyString))
  else if decide (ch = "008"%char) then Some (String BSL "b")
  else if decide (ch = "012"%char) then Some (String BSL "f")
  else if decide (ch = "010"%char) then Some (String BSL "n")
  else if decide (ch = "013"%char) then Some (String BSL "r")
  else if decide (ch = "009"%char) then Some (String BSL "t")
  else None.

(** [code.toString(16)] of a code below 256 *)
Definition to_base16 (n : Z) : string :=
  if decide (n < 16)%Z then String (hex_digit n) EmptyString
  else String (hex_digit (n / 16)) (String (hex_digit (n mod 16)) EmptyString).
(** [s.padStart(w, '0')] *)
Definition padStart0 (w : nat) (s : string) : string :=
  unchars (replicate (w - String.length s) "0"%char) +:+ s.

Definition jcs_char (ch : ascii) : string :=
  let code := Z.of_N (char_code ch) in
  match JCS_STRING_ESCAPE ch with
  | Some e => e
  | None =>
      if decide (code < 32)%Z then String BSL "u" +:+ padStart0 4 (to_base16 code)
      else String ch EmptyString
  end.
Fixpoint jcs_chars (s out : string) : string :=
  match s with EmptyString => out | String ch s => jcs_chars s (out +:+ jcs_char ch) end.

Definition jcsString (s : string) : exc string :=
  _ ← assertNoLoneSurrogate s;
  if decide (CANON_MAX_STRING_BYTES < utf8Len s)%Z
  then contract_error "string exceeds CANON_MAX_STRING_BYTES"
  else Ret (jcs_chars s (String DQ EmptyString) +:+ String DQ EmptyString).

Definition jcsNumber (n : num) : exc string :=
  match num_safe_int n with
  | Some z => Ret (if decide (z = 0)%Z then "0" else z_to_string z)
  | None => contract_error "only safe-integer numbers are canonicalizable"
  end.

Record canon := mkCanon { cn_nodes : Z; cn_bytes : Z; cn_parts : list string }.

Definition push (s : string) (st : canon) : exc canon :=
  let bytes := (cn_bytes st + utf8Len s)%Z in
  if decide (CANON_MAX_TOTAL_BYTES < bytes)%Z
  then contract_error "canonical form exceeds CANON_MAX_TOTAL_BYTES"
  else Ret (mkCanon (cn_nodes st) bytes (cn_parts st ++ [s])).

(** [for (i ...) { if (i) push(','); f(x_i); }] *)
Fixpoint push_all {A} (f : A → canon → exc canon) (i : nat) (l : list A) (st : canon) : exc canon :=
  match l with
  | [] => Ret st
  | x :: l =>
      st ← (if decide (i = 0) then Ret st else push "," st);
      st ← f x st;
      push_all f (S i) l st
  end.

(** [room] is [CANON_MAX_DEPTH + 1 - depth]. *)
Fixpoint walk (room : nat) (v : jsval) (st : canon) : exc canon :=
  match room with
  | O => contract_error "max canonicalization depth exceeded"
  | S room =>
      let st := mkCanon (cn_nodes st + 1) (cn_bytes st) (cn_parts st) in
      if decide (CANON_MAX_NODES < cn_nodes st)%Z
      then contract_error "max canonicalization node count exceeded"
      else
        match v with
        | JNull => push "null" st
        | JBool b => push (if b then "true" else "false") st
        | JNum n => s ← jcsNumber n; push s st
        | JStr s => s ← jcsString s; push s st
        | JUndef => contract_error "undefined is not canonicalizable"
        | JArr l =>
            st ← push "[" st;
            st ← push_all (walk room) 0 l st;
            push "]" st
        | JObj l =>
            if bool_decide ("__proto__" ∈ l.*1) then contract_error "__proto__ key is rejected"
            else
              st ← push "{" st;
              st ← push_all (λ k st,
                     _ ← assertNoLoneSurrogate k;
                     s ← jcsString k;
                     st ← push (s +:+ ":") st;
                     walk room (default JUndef (om_get k l)) st) 0 (sorted_keys l) st;
              push "}" st
        end
  end.

Definition jcs_canonicalize (value : jsval) : exc string :=
  st ← walk (S CANON_MAX_DEPTH) value (mkCanon 0 0 []);
  Ret (str_join "" (cn_parts st)).

Example jcs_canonicalize_ex :
  jcs_canonicalize (JObj [("b", JArr [JNum (int (-7)); JBool true]); ("10", JNull); ("2", JStr (dq "a'"))]) =
  Ret (dq "{'10':null,'2':'a\'','b':[-7,true]}").
Proof. vm_compute. reflexivity. Qed.
Example jcs_canonicalize_float : ∃ m, jcs_canonicalize (JNum (Fin (Dec 15 1))) = contract_error m.
Proof. eexists. vm_compute. reflexivity. Qed.

(** ** Length-prefixed framing *)

(** [Buffer.writeUInt32BE] *)
Definition u32be (n : Z) : exc string :=
  if (bool_decide (n < 0)%Z || bool_decide (U32_CEIL <= n)%Z)%bool
  then contract_error "field byte length exceeds the u32 framing ceiling"
  else Ret (of_codes (Z.to_N <$> [(n / 16777216) mod 256; (n / 65536) mod 256; (n / 256) mod 256; n mod 256]%Z)).

(** What the hash is fed: for each field its length, then its bytes. *)
Fixpoint frame_fields (fields : list string) (h : string) : exc string :=
  match fields with
  | [] => Ret h
  | f :: fields =>
      let bytes := utf8_encode f in
      len ← u32be (str_len bytes);
      frame_fields fields (h +:+ len +:+ bytes)
  end.

(** [digest('hex')] *)
Definition hex_of (buf : string) : string :=
  foldr (λ b s, hex_byte b +:+ s) EmptyString (Z.of_N <$> codes buf).

Definition assertFenceToken (t : jsval) : exc string :=
  match t with
  | JStr s => if FENCE_TOKEN_PATTERN s then Ret s
              else contract_error "fenceToken must be canonical non-negative decimal (no leading zeros)"
  | _ => contract_error "fenceToken must be canonical non-negative decimal (no leading zeros)"
  end.

(** [Number.isSafeInteger(v)], with the integer it then is. *)
Definition js_safe_int (v : jsval) : option Z := match v with JNum n => num_safe_int n | _ => None end.
(** The string an assertion has established. *)
Definition js_str (v : jsval) : string := match v with JStr s => s | _ => EmptyString end.

Definition assertBoundedId (value : jsval) (label : string) : exc string :=
  _ ← assertId value label;
  _ ← assertNoLoneSurrogate (js_str value);
  Ret (js_str value).

(** ** Records *)

Record OutboxRecordHeader := mkHeader {
  oh_contractVersion : jsval; oh_streamId : jsval; oh_sourceEpoch : jsval;
  oh_sequence : jsval; oh_fenceToken : jsval; oh_opDigest : jsval }.
#[export] Instance OutboxRecordHeader_eq_dec : EqDecision OutboxRecordHeader.
Proof. solve_decision. Defined.

(** [OutboxRecord extends OutboxRecordHeader] *)
Record OutboxRecord := mkRecord { or_header : OutboxRecordHeader; or_mutation : jsval }.
#[export] Instance OutboxRecord_eq_dec : EqDecision OutboxRecord.
Proof. solve_decision. Defined.

Record IdempotencyKey := mkIdem { ik_streamId : jsval; ik_sourceEpoch : jsval; ik_sequence : jsval }.
Definition idempotencyKeyOf (h : OutboxRecordHeader) : IdempotencyKey :=
  mkIdem (oh_streamId h) (oh_sourceEpoch h) (oh_sequence h).

Definition assertHeaderConformant (h : OutboxRecordHeader) : exc unit :=
  if decide (oh_contractVersion h ≠ JStr HA_OUTBOX_CONTRACT_VERSION) then
    v ← js_to_string (oh_contractVersion h);
    contract_error ("unsupported contractVersion " +:+ v)
  else
    _ ← assertBoundedId (oh_streamId h) "streamId";
    _ ← assertBoundedId (oh_sourceEpoch h) "sourceEpoch";
    match js_safe_int (oh_sequence h) with
    | Some sequence =>
        if decide (sequence < 1)%Z
        then contract_error "mutation record sequence must be a safe integer >= 1 (0 is genesis)"
        else
          _ ← assertFenceToken (oh_fenceToken h);
          ok ← re_test HEX64 (oh_opDigest h);
          if negb ok then contract_error "opDigest must be 64 lowercase hex" else Ret tt
    | None => contract_error "mutation record sequence must be a safe integer >= 1 (0 is genesis)"
    end.

(** [FenceToken] is a [bigint]. *)
Definition fenceTokenToDecimal (t : Z) : exc string :=
  if decide (t < 0)%Z then contract_error "fenceToken must be a non-negative bigint" else Ret (z_to_string t).

Record EpochTransitionRecord := mkTransition {
  et_contractVersion : string; et_streamId : string;
  et_fromEpoch : string; et_fromEpochIndex : num;
  et_toEpoch : string; et_toEpochIndex : num;
  et_snapshotSequence : num; et_snapshotDigest : string;
  et_fenceToken : string; et_transitionDigest : string }.

Record SignedStreamHead := mkHead {
  sh_streamId : string; sh_sequence : num; sh_prevHeadDigest : string; sh_opDigest : string;
  sh_keyId : string; sh_alg : string; sh_headDigest : string; sh_signature : string }.

Definition STREAM_HEAD_ALGS : list string := ["ed25519"; "ecdsa-p256-sha256"].
Definition KEY_ID_PATTERN : string → bool := ID_PATTERN.

(** ** Digests *)

Section digests.
Context `{WC : WebCrypto}.

Definition hash_fields (fields : list string) : exc string :=
  h ← frame_fields fields EmptyString;
  Ret (hex_of (sha256 h)).

(** The fields of the operation digest, once validated. *)
Definition op_fields (streamId sourceEpoch sequence fenceToken mutation : jsval) : exc (list string) :=
  streamId ← assertBoundedId streamId "streamId";
  sourceEpoch ← assertBoundedId sourceEpoch "sourceEpoch";
  match js_safe_int sequence with
  | Some seq =>
      if decide (seq < 1)%Z
      then contract_error "mutation sequence must be a safe integer >= 1 (0 is genesis)"
      else
        fenceToken ← assertFenceToken fenceToken;
        text ← jcs_canonicalize mutation;
        Ret [HA_OUTBOX_DIGEST_DOMAIN; HA_OUTBOX_CONTRACT_VERSION; streamId; sourceEpoch;
             z_to_string seq; fenceToken; text]
  | None => contract_error "mutation sequence must be a safe integer >= 1 (0 is genesis)"
  end.
Definition canonicalOpDigest (streamId sourceEpoch sequence fenceToken mutation : jsval) : exc string :=
  fields ← op_fields streamId sourceEpoch sequence fenceToken mutation;
  hash_fields fields.

Definition epoch_fields (r : EpochTransitionRecord) : exc (list string) :=
  streamId ← assertBoundedId (JStr (et_streamId r)) "streamId";
  fromEpoch ← assertBoundedId (JStr (et_fromEpoch r)) "fromEpoch";
  toEpoch ← assertBoundedId (JStr (et_toEpoch r)) "toEpoch";
  if decide (fromEpoch = toEpoch) then contract_error "epoch transition fromEpoch must differ from toEpoch"
  else
    match num_safe_int (et_fromEpochIndex r) with
    | Some fromIndex =>
        if decide (fromIndex < 0)%Z then contract_error "fromEpochIndex must be a non-negative safe integer"
        else if decide (et_toEpochIndex r ≠ int (fromIndex + 1))
        then contract_error "toEpochIndex must be exactly fromEpochIndex + 1 (no skipped epochs)"
        else
          match num_safe_int (et_snapshotSequence r) with
          | Some snapshotSequence =>
              if decide (snapshotSequence < 0)%Z
              then contract_error "snapshotSequence must be a non-negative safe integer"
              else if negb (HEX64 (et_snapshotDigest r))
              then contract_error "snapshotDigest must be 64 lowercase hex"
              else
                fenceToken ← assertFenceToken (JStr (et_fenceToken r));
                Ret [HA_OUTBOX_DIGEST_DOMAIN +:+ "/epoch-transition"; HA_OUTBOX_CONTRACT_VERSION;
                     streamId; fromEpoch; z_to_string fromIndex; toEpoch; z_to_string (fromIndex + 1);
                     z_to_string snapshotSequence; et_snapshotDigest r; fenceToken]
          | None => contract_error "snapshotSequence must be a non-negative safe integer"
          end
    | None => contract_error "fromEpochIndex must be a non-negative safe integer"
    end.
Definition epochTransitionDigest (r : EpochTransitionRecord) : exc string :=
  fields ← epoch_fields r; hash_fields fields.

Definition assertEpochTransitionConformant (r : EpochTransitionRecord) : exc unit :=
  if decide (et_contractVersion r ≠ HA_OUTBOX_CONTRACT_VERSION)
  then contract_error "epoch transition contractVersion must be 1"
  else
    expect ← epochTransitionDigest r;
    if decide (et_transitionDigest r ≠ expect) then contract_error "epoch transitionDigest mismatch"
    else Ret tt.

Definition head_fields (h : SignedStreamHead) : exc (list string) :=
  streamId ← assertBoundedId (JStr (sh_streamId h)) "streamId";
  match num_safe_int (sh_sequence h) with
  | Some sequence =>
      if decide (sequence < 1)%Z
      then contract_error "mutation stream-head sequence must be a safe integer >= 1"
      else if negb (HEX64 (sh_prevHeadDigest h)) then contract_error "prevHeadDigest must be 64 lowercase hex"
      else if negb (HEX64 (sh_opDigest h)) then contract_error "opDigest must be 64 lowercase hex"
      else if negb (KEY_ID_PATTERN (sh_keyId h)) then contract_error "invalid keyId"
      else if decide (sh_alg h ∉ STREAM_HEAD_ALGS) then contract_error "unknown alg"
      else
        Ret [HA_OUTBOX_DIGEST_DOMAIN +:+ "/tsk-stream-head"; HA_OUTBOX_CONTRACT_VERSION; streamId;
             z_to_string sequence; sh_prevHeadDigest h; sh_opDigest h; sh_keyId h; sh_alg h]
  | None => contract_error "mutation stream-head sequence must be a safe integer >= 1"
  end.
Definition streamHeadDigest (h : SignedStreamHead) : exc string :=
  fields ← head_fields h; hash_fields fields.

Definition assertStreamHeadBinds (record : OutboxRecordHeader) (head : SignedStreamHead) : exc unit :=
  if decide (JStr (sh_streamId head) ≠ oh_streamId record) then contract_error "stream head streamId != record"
  else if decide (JNum (sh_sequence head) ≠ oh_sequence record ∨ sh_sequence head = NaN) then contract_error "stream head sequence != record"
  else if decide (JStr (sh_opDigest head) ≠ oh_opDigest record) then contract_error "stream head opDigest != record"
  else if decide (sh_alg head ∉ STREAM_HEAD_ALGS) then contract_error "unknown stream head alg"
  else if negb (KEY_ID_PATTERN (sh_keyId head)) then contract_error "invalid keyId"
  else
    expect ← streamHeadDigest head;
    if decide (sh_headDigest head ≠ expect) then contract_error "stream head digest mismatch" else Ret tt.
End digests.
