(* ===== verification/SqlStatement.v ===== *)
(** * The statements a transaction callback may send (packages/server/src/pg-transactor.ts)

    [assertExecutorStatement] scans the text of a statement before it is sent: one
    statement, no control of the transaction or the session.  The file has the
    scanner, the lexical grammar it implements as a relation on lexemes, and the
    theorem that the two agree.  The grammar is the scanner's; the examples show
    texts PostgreSQL reads differently. *)

From S2P Require Import Prelude JsNum Encoding Json JsText OutboxContract.
From stdpp Require Import base sets strings list.
From Stdlib Require Import ZArith Lia.

Local Open Scope string_scope.

(** ** The scanner *)

Definition FORBIDDEN_EXECUTOR_KEYWORDS : list string :=
  ["BEGIN"; "START"; "COMMIT"; "END"; "ROLLBACK"; "ABORT"; "SAVEPOINT"; "RELEASE"; "PREPARE";
   "SET"; "RESET"; "DISCARD"; "CALL"; "DO"].

Definition newline : ascii := ascii_of_N 10.
(** [/[A-Za-z_]/], [/[A-Za-z0-9_]/] and [/[A-Za-z0-9_$]/] *)
Definition word_start (c : ascii) : bool := (is_upper c || is_lower c || bool_decide (c = "_"%char))%bool.
Definition tag_char (c : ascii) : bool := (is_alnum c || bool_decide (c = "_"%char))%bool.
Definition word_char (c : ascii) : bool := (tag_char c || bool_decide (c = "$"%char))%bool.
Definition char_upper (c : ascii) : ascii := if is_lower c then ascii_of_N (N_of_ascii c - 32) else c.
Definition to_upper (s : list ascii) : string := unchars (char_upper <$> s).

(** [while(i<sql.length&&sql[i]!=='\n')i++] *)
Fixpoint to_newline (s : list ascii) : list ascii :=
  match s with [] => [] | c :: s' => if decide (c = newline) then s else to_newline s' end.

(** The loop of a block comment; [None] when the text ends inside. *)
Fixpoint skip_comment (depth : nat) (s : list ascii) {struct s} : option (list ascii) :=
  match depth with
  | O => Some s
  | S d =>
      match s with
      | [] => None
      | c :: s1 =>
          match s1 with
          | c' :: s2 =>
              if decide (c = "/"%char ∧ c' = "*"%char) then skip_comment (S depth) s2
              else if decide (c = "*"%char ∧ c' = "/"%char) then skip_comment d s2
              else skip_comment depth s1
          | [] => skip_comment depth s1
          end
      end
  end.

(** The loop of a quoted string or identifier, after the opening quote. *)
Fixpoint skip_quote (quote : ascii) (s : list ascii) : option (list ascii) :=
  match s with
  | [] => None
  | c :: s1 =>
      if decide (c = quote) then
        match s1 with
        | c' :: s2 => if decide (c' = quote) then skip_quote quote s2 else Some s1
        | [] => Some []
        end
      else skip_quote quote s1
  end.

Fixpoint take_while (f : ascii → bool) (s : list ascii) : list ascii :=
  match s with [] => [] | c :: s' => if f c then c :: take_while f s' else [] end.
Fixpoint drop_while (f : ascii → bool) (s : list ascii) : list ascii :=
  match s with [] => [] | c :: s' => if f c then drop_while f s' else s end.

(** The name between the dollars of [/^\$[A-Za-z_][A-Za-z0-9_]*\$|^\$\$/], matched
    after the first dollar. *)
Definition dollar_name (s : list ascii) : option (list ascii) :=
  let name := take_while tag_char s in
  match drop_while tag_char s with
  | c :: _ => if (bool_decide (c = "$"%char) && match name with [] => true | x :: _ => word_start x end)%bool then Some name else None
  | [] => None
  end.
Definition dollar_tag (name : list ascii) : list ascii := ("$"%char :: name ++ ["$"%char])%list.

Fixpoint strip_prefix (p s : list ascii) : option (list ascii) :=
  match p, s with
  | [], _ => Some s
  | x :: p, y :: s => if decide (x = y) then strip_prefix p s else None
  | _ :: _, [] => None
  end.
(** What follows the first occurrence, [indexOf]. *)
Fixpoint after_first (p s : list ascii) : option (list ascii) :=
  match strip_prefix p s with
  | Some r => Some r
  | None => match s with [] => None | _ :: s' => after_first p s' end
  end.

Record Scan := mkScan { sc_firstWord : option (list ascii); sc_hasContent : bool; sc_ended : bool }.
Definition scan_init : Scan := mkScan None false false.

Definition content (st : Scan) : exc Scan :=
  if sc_ended st then contract_error "PostgreSQL executor accepts exactly one statement"
  else Ret (mkScan (sc_firstWord st) true (sc_ended st)).
Definition semicolon (st : Scan) : exc Scan :=
  if (negb (sc_hasContent st) || sc_ended st)%bool then contract_error "PostgreSQL executor accepts exactly one statement"
  else Ret (mkScan (sc_firstWord st) (sc_hasContent st) true).
(** [if(!firstWord)firstWord=word.toUpperCase()]; a word is never empty. *)
Definition see_word (w : list ascii) (st : Scan) : Scan :=
  mkScan (match sc_firstWord st with None => Some w | o => o end) (sc_hasContent st) (sc_ended st).

Definition closed (msg : string) (r : option (list ascii)) : exc (list ascii) :=
  match r with Some s => Ret s | None => contract_error msg end.

(** One round of the loop at [ch], with [s] behind it. *)
Definition scan_step (st : Scan) (ch : ascii) (s : list ascii) : exc (Scan * list ascii) :=
  if is_js_space ch then Ret (st, s) else
  if decide (ch = "-"%char ∧ head s = Some "-"%char) then Ret (st, to_newline (tail s)) else
  if decide (ch = "/"%char ∧ head s = Some "*"%char) then
    rest ← closed "PostgreSQL executor SQL has an unterminated comment" (skip_comment 1 (tail s)); Ret (st, rest) else
  if decide (ch = ";"%char) then st ← semicolon st; Ret (st, s) else
  if decide (ch = "'"%char ∨ ch = ascii_of_N 34) then
    st ← content st; rest ← closed "PostgreSQL executor SQL has an unterminated quote" (skip_quote ch s); Ret (st, rest) else
  match (if decide (ch = "$"%char) then dollar_name s else None) with
  | Some name =>
      st ← content st;
      rest ← closed "PostgreSQL executor SQL has an unterminated dollar quote" (after_first (dollar_tag name) (drop (S (length name)) s));
      Ret (st, rest)
  | None =>
      if word_start ch then st ← content st; Ret (see_word (ch :: take_while word_char s) st, drop_while word_char s)
      else st ← content st; Ret (st, s)
  end.

Fixpoint scan_loop (fuel : nat) (st : Scan) (s : list ascii) : exc Scan :=
  match s with
  | [] => Ret st
  | ch :: s' =>
      match fuel with
      | O => Throw (RangeError "fuel")
      | S fuel => r ← scan_step st ch s'; scan_loop fuel r.1 r.2
      end
  end.

Definition assertExecutorStatement (sql : string) : exc unit :=
  if (bool_decide (str_len sql < 1)%Z || bool_decide (str_len sql > 10000000)%Z)%bool then contract_error "PostgreSQL executor SQL is invalid" else
  st ← scan_loop (String.length sql) scan_init (chars sql);
  if negb (sc_hasContent st) then contract_error "PostgreSQL executor SQL is empty" else
  match sc_firstWord st with
  | Some w =>
      if bool_decide (to_upper w ∈ FORBIDDEN_EXECUTOR_KEYWORDS)
      then contract_error ("PostgreSQL executor forbids " +:+ to_upper w +:+ " statements") else Ret tt
  | None => Ret tt
  end.

(** ** The grammar *)

Inductive lexeme :=
  | Blank (c : ascii)
  | LineComment (body : list ascii)
  | BlockComment (body : list ascii)
  | Semi
  | Quoted (quote : ascii) (body : list ascii)
  | DollarQuoted (name body : list ascii)
  | Word (w : list ascii)
  | Symbol (c : ascii).

#[export] Instance lexeme_eq_dec : EqDecision lexeme.
Proof. solve_decision. Defined.

Definition is_content (t : lexeme) : bool :=
  match t with Quoted _ _ | DollarQuoted _ _ | Word _ | Symbol _ => true | _ => false end.

(** [nested d b]: [b] closes [d] open comments, the last one at its end. *)
Inductive nested : nat → list ascii → Prop :=
  | nested_end : nested 0 []
  | nested_open d b : nested (S (S d)) b → nested (S d) ("/"%char :: "*"%char :: b)
  | nested_close d b : nested d b → nested (S d) ("*"%char :: "/"%char :: b)
  | nested_char d c b : nested (S d) b →
      ¬ (c = "/"%char ∧ head b = Some "*"%char) → ¬ (c = "*"%char ∧ head b = Some "/"%char) → nested (S d) (c :: b).

(** [quoted q b]: the inside of a quotation and its closing quote; a doubled quote
    is a quote. *)
Inductive quoted (q : ascii) : list ascii → Prop :=
  | quoted_end : quoted q [q]
  | quoted_double b : quoted q b → quoted q (q :: q :: b)
  | quoted_char c b : c ≠ q → quoted q b → quoted q (c :: b).

Definition starts_dollar (s : list ascii) : Prop := ∃ name r, s = (name ++ "$"%char :: r)%list ∧
  Forall (λ c, tag_char c = true) name ∧ (name = [] ∨ ∃ c l, name = c :: l ∧ word_start c = true).

(** [lex s t r]: the text [s] begins with the lexeme [t], and [r] follows it. *)
Inductive lex : list ascii → lexeme → list ascii → Prop :=
  | lex_blank c r : is_js_space c = true → lex (c :: r) (Blank c) r
  | lex_line b r : newline ∉ b → (r = [] ∨ head r = Some newline) → lex ("-"%char :: "-"%char :: b ++ r) (LineComment b) r
  | lex_block b r : nested 1 b → lex ("/"%char :: "*"%char :: b ++ r) (BlockComment b) r
  | lex_semi r : lex (";"%char :: r) Semi r
  | lex_quoted q b r : q = "'"%char ∨ q = ascii_of_N 34 → quoted q b → head r ≠ Some q → lex (q :: b ++ r) (Quoted q b) r
  | lex_dollar name b r : Forall (λ c, tag_char c = true) name → (name = [] ∨ ∃ c l, name = c :: l ∧ word_start c = true) →
      (∀ b1 b2, (b1 ++ b2 = b)%list → b2 ≠ [] → ¬ dollar_tag name `prefix_of` (b2 ++ dollar_tag name ++ r)%list) →
      lex (dollar_tag name ++ b ++ dollar_tag name ++ r) (DollarQuoted name b) r
  | lex_word c w r : word_start c = true → Forall (λ c, word_char c = true) w →
      (∀ x, head r = Some x → word_char x = false) → lex (c :: w ++ r) (Word (c :: w)) r
  | lex_symbol c r : is_js_space c = false → word_start c = false → c ≠ ";"%char → c ≠ "'"%char → c ≠ ascii_of_N 34 →
      ¬ (c = "-"%char ∧ head r = Some "-"%char) → ¬ (c = "/"%char ∧ head r = Some "*"%char) →
      ¬ (c = "$"%char ∧ starts_dollar r) → lex (c :: r) (Symbol c) r.

Inductive lexes : list ascii → list lexeme → Prop :=
  | lexes_end : lexes [] []
  | lexes_next s t r ts : lex s t r → lexes r ts → lexes s (t :: ts).

(** Exactly one statement: some content, and after a semicolon only blanks and
    comments. *)
Definition one_statement (ts : list lexeme) : Prop := ∃ body rest, ts = (body ++ rest)%list ∧
  Semi ∉ body ∧ (∃ t, t ∈ body ∧ is_content t = true) ∧
  (rest = [] ∨ ∃ l, rest = Semi :: l ∧ Forall (λ t, is_content t = false ∧ t ≠ Semi) l).
Fixpoint first_word (ts : list lexeme) : option (list ascii) :=
  match ts with [] => None | Word w :: _ => Some w | _ :: ts => first_word ts end.
Definition uncontrolled (ts : list lexeme) : Prop :=
  ∀ w, first_word ts = Some w → to_upper w ∉ FORBIDDEN_EXECUTOR_KEYWORDS.

(** ** The parts of a lexeme *)

Lemma to_newline_spec s r : to_newline s = r ↔ ∃ b, s = (b ++ r)%list ∧ newline ∉ b ∧ (r = [] ∨ head r = Some newline).
Proof.
  split.
  - intros <-. induction s as [|c s (b & Hs & Hb & Hr)]; simpl; [exists []; split_and!; [done|set_solver|by left]|].
    case_decide as Hc; [exists []; subst; split_and!; [done|set_solver|by right]|].
    exists (c :: b). split_and!; [by rewrite Hs at 1|set_solver|done].
  - intros (b & -> & Hb & Hr). induction b as [|c b IH]; cbn [to_newline app].
    + destruct r as [|c r]; [done|]. destruct Hr as [?|[= ->]]; [done|]. cbn [to_newline]. by rewrite decide_True.
    + rewrite decide_False by set_solver. apply IH. set_solver.
Qed.

Lemma nested_nonempty d b : nested (S d) b → b ≠ [].
Proof. by inversion 1. Qed.

Lemma skip_comment_step d c c' s : skip_comment (S d) (c :: c' :: s) =
  if decide (c = "/"%char ∧ c' = "*"%char) then skip_comment (S (S d)) s
  else if decide (c = "*"%char ∧ c' = "/"%char) then skip_comment d s else skip_comment (S d) (c' :: s).
Proof. done. Qed.

Lemma skip_comment_sound s d r : skip_comment d s = Some r → ∃ b, s = (b ++ r)%list ∧ nested d b.
Proof.
  remember (length s) as n eqn:Hn. revert s Hn d. induction (lt_wf n) as [n _ IH]. intros s -> d.
  destruct d as [|d]; [destruct s; simpl; intros [= <-]; exists []; by repeat constructor|].
  destruct s as [|c [|c' s]]; [done|done|]. rewrite skip_comment_step.
  case_decide as H1; [|case_decide as H2]; intros Hs.
  - destruct H1 as [-> ->]. destruct (IH (length s) ltac:(simpl; lia) s eq_refl _ Hs) as (b & -> & Hb).
    eexists (_ :: _ :: b). split; [done|by constructor].
  - destruct H2 as [-> ->]. destruct (IH (length s) ltac:(simpl; lia) s eq_refl _ Hs) as (b & -> & Hb).
    eexists (_ :: _ :: b). split; [done|by constructor].
  - destruct (IH (S (length s)) ltac:(simpl; lia) (c' :: s) eq_refl _ Hs) as (b & Heq & Hb).
    exists (c :: b). split; [by rewrite Heq|].
    destruct b as [|x b]; [by apply nested_nonempty in Hb|]. simplify_eq/=.
    constructor; [done|simpl; naive_solver..].
Qed.

Lemma skip_comment_complete d b r : nested d b → skip_comment d (b ++ r) = Some r.
Proof.
  induction 1 as [|d b _ IH|d b _ IH|d c b Hb IH H1 H2]; [by destruct r|..].
  - cbn [app]. rewrite skip_comment_step. by rewrite decide_True.
  - cbn [app]. rewrite skip_comment_step. rewrite decide_False by naive_solver. by rewrite decide_True.
  - destruct b as [|x b]; [by apply nested_nonempty in Hb|].
    cbn [app] in *. rewrite skip_comment_step. rewrite decide_False by (intros [-> ->]; by apply H1).
    rewrite decide_False by (intros [-> ->]; by apply H2). done.
Qed.

Lemma skip_quote_spec q s r : skip_quote q s = Some r ↔ ∃ b, s = (b ++ r)%list ∧ quoted q b ∧ head r ≠ Some q.
Proof.
  split.
  - remember (length s) as n eqn:Hn. revert s Hn. induction (lt_wf n) as [n _ IH]. intros s ->.
    destruct s as [|c s]; [done|]. cbn [skip_quote]. case_decide as Hc; [subst c; destruct s as [|c' s]|].
    + intros [= <-]. exists [q]. split_and!; [done|constructor|done].
    + case_decide as Hc'; [subst c'|].
      * intros (b & -> & Hb & Hr)%(IH (length s) ltac:(simpl; lia) s eq_refl).
        exists (q :: q :: b). split_and!; [done|by constructor|done].
      * intros [= <-]. exists [q]. split_and!; [done|constructor|]. simpl. congruence.
    + intros (b & -> & Hb & Hr)%(IH (length s) ltac:(simpl; lia) s eq_refl).
      exists (c :: b). split_and!; [done|by constructor|done].
  - intros (b & -> & Hb & Hr). induction Hb as [|b _ IH|c b Hc _ IH]; cbn [skip_quote app].
    + rewrite decide_True by done. destruct r as [|x r]; [done|]. rewrite decide_False; [done|]. simpl in Hr. congruence.
    + by rewrite !decide_True.
    + by rewrite decide_False.
Qed.

Lemma take_drop_while f s : (take_while f s ++ drop_while f s)%list = s.
Proof. induction s as [|c s IH]; simpl; [done|]. destruct (f c); simpl; by rewrite ?IH. Qed.
Lemma take_while_all f s : Forall (λ c, f c = true) (take_while f s).
Proof. induction s as [|c s IH]; simpl; [constructor|]. destruct (f c) eqn:?; by constructor. Qed.
Lemma drop_while_head f s c : head (drop_while f s) = Some c → f c = false.
Proof. induction s as [|x s IH]; simpl; [done|]. destruct (f x) eqn:?; [done|]. simpl. congruence. Qed.
Lemma while_app f w r : Forall (λ c, f c = true) w → (∀ x, head r = Some x → f x = false) →
  take_while f (w ++ r) = w ∧ drop_while f (w ++ r) = r.
Proof.
  intros Hw Hr. induction Hw as [|c w Hc _ [IH1 IH2]]; simpl; [|rewrite Hc; by rewrite IH1, IH2].
  destruct r as [|x r]; [done|]. simpl. by rewrite (Hr x).
Qed.

Lemma dollar_name_spec s name : dollar_name s = Some name ↔ ∃ r, s = (name ++ "$"%char :: r)%list ∧
  Forall (λ c, tag_char c = true) name ∧ (name = [] ∨ ∃ c l, name = c :: l ∧ word_start c = true).
Proof.
  unfold dollar_name. split.
  - pose proof (take_drop_while tag_char s) as Hs. pose proof (take_while_all tag_char s) as Ht.
    destruct (drop_while tag_char s) as [|c r]; [done|].
    destruct (bool_decide (c = "$"%char)) eqn:Hc; [apply bool_decide_eq_true in Hc as ->|done]. cbn.
    destruct (take_while tag_char s) as [|x l] eqn:Hn.
    + intros [= <-]. exists r. split_and!; [done|done|by left].
    + destruct (word_start x) eqn:Hx; [|done]. intros [= <-]. exists r. split_and!; [done|done|right; eauto].
  - intros (r & -> & Hn & Hst).
    destruct (while_app tag_char name ("$"%char :: r) Hn) as [-> ->]; [by intros x [= <-]|].
    rewrite bool_decide_eq_true_2 by done. destruct Hst as [->|(c & l & -> & ->)]; done.
Qed.

Lemma strip_prefix_spec p s r : strip_prefix p s = Some r ↔ s = (p ++ r)%list.
Proof.
  revert s. induction p as [|x p IH]; intros s; simpl; [by destruct s; naive_solver|].
  destruct s as [|y s]; [done|]. case_decide; [subst; rewrite IH; naive_solver|naive_solver].
Qed.
Lemma strip_prefix_app p r : strip_prefix p (p ++ r) = Some r.
Proof. by apply strip_prefix_spec. Qed.

Lemma after_first_spec p s r : p ≠ [] → after_first p s = Some r ↔
  ∃ b, s = (b ++ p ++ r)%list ∧ ∀ b1 b2, (b1 ++ b2 = b)%list → b2 ≠ [] → ¬ p `prefix_of` (b2 ++ p ++ r)%list.
Proof.
  intros Hp. split.
  - induction s as [|c s IH]; simpl; [by destruct p|]. destruct (strip_prefix p (c :: s)) as [r'|] eqn:Hst.
    + intros [= ->]. apply strip_prefix_spec in Hst. exists []. split; [done|].
      intros b1 b2 [-> ->]%app_nil. done.
    + intros (b & -> & Hb)%IH. exists (c :: b). split; [done|]. intros [|x b1] b2 Heq Hb2 [k Hk]; simplify_eq/=.
      * rewrite Hk in Hst. by rewrite strip_prefix_app in Hst.
      * apply (Hb b1 b2); [done|done|by exists k].
  - intros (b & -> & Hb). induction b as [|c b IH]; simpl.
    + replace (after_first p (p ++ r)) with (match strip_prefix p (p ++ r) with Some r => Some r
        | None => match (p ++ r)%list with [] => None | _ :: s' => after_first p s' end end) by (by destruct (p ++ r)%list).
      by rewrite strip_prefix_app.
    + destruct (strip_prefix p (c :: (b ++ p ++ r)%list)) as [r'|] eqn:Hst.
      * apply strip_prefix_spec in Hst. destruct (Hb [] (c :: b)); [done|done|by exists r'].
      * apply IH. intros b1 b2 <- Hne. apply (Hb (c :: b1) b2); done.
Qed.

Lemma starts_dollar_name s : starts_dollar s ↔ is_Some (dollar_name s).
Proof.
  split.
  - intros (name & r & ?). exists name. apply dollar_name_spec. by exists r.
  - intros [name (r & ?)%dollar_name_spec]. by exists name, r.
Qed.

(** ** A round of the loop reads a lexeme *)

(** What a lexeme does to the state of the scan. *)
Definition absorb (st : Scan) (t : lexeme) : exc Scan :=
  match t with
  | Blank _ | LineComment _ | BlockComment _ => Ret st
  | Semi => semicolon st
  | Quoted _ _ | DollarQuoted _ _ | Symbol _ => content st
  | Word w => st ← content st; Ret (see_word w st)
  end.

Lemma closed_Ret msg o r : closed msg o = Ret r ↔ o = Some r.
Proof. destruct o; simpl; naive_solver. Qed.
Lemma drop_name (name : list ascii) c x : drop (S (length name)) (name ++ c :: x) = x.
Proof. rewrite (cons_middle _ name), app_assoc. apply drop_app_length'. rewrite length_app. simpl. lia. Qed.

(** The characters that open a lexeme of their own. *)
Definition special (c : ascii) : bool := existsb (Ascii.eqb c) ["-"; "/"; ";"; "'"; "$"; ascii_of_N 34]%char.
Lemma space_class c : is_js_space c = true → word_start c = false ∧ special c = false.
Proof. destruct c as [[] [] [] [] [] [] [] []]; vm_compute; intros; by split. Qed.
Lemma word_class c : word_start c = true → is_js_space c = false ∧ special c = false.
Proof. destruct c as [[] [] [] [] [] [] [] []]; vm_compute; intros; by split. Qed.

(** A round succeeds exactly when the text begins with a lexeme the state admits. *)
Lemma scan_step_sound st ch s st' r : scan_step st ch s = Ret (st', r) → ∃ t, lex (ch :: s) t r ∧ absorb st t = Ret st'.
Proof.
  unfold scan_step. destruct (is_js_space ch) eqn:Hsp; [intros [= <- <-]; exists (Blank ch); split; [by constructor|done]|].
  case_decide as Hd; [|case_decide as Hc; [|case_decide as Hs; [|case_decide as Hq]]].
  - destruct Hd as [-> Hd]. destruct s as [|x s]; simplify_eq/=. intros [= <- <-].
    destruct (proj1 (to_newline_spec s (to_newline s)) eq_refl) as (b & Hb & ? & ?).
    exists (LineComment b). split; [rewrite Hb at 1; by constructor|done].
  - destruct Hc as [-> Hc]. destruct s as [|x s]; simplify_eq/=.
    intros (rest & Hr%closed_Ret & [= <- <-])%exc_bind_Ret. apply skip_comment_sound in Hr as (b & -> & Hb).
    exists (BlockComment b). split; [by constructor|done].
  - subst ch. intros (st1 & Hst & [= <- <-])%exc_bind_Ret. exists Semi. split; [constructor|done].
  - intros (st1 & Hst & (rest & Hr%closed_Ret & [= <- <-])%exc_bind_Ret)%exc_bind_Ret.
    apply skip_quote_spec in Hr as (b & -> & Hb & Hh). exists (Quoted ch b). split; [by constructor|done].
  - destruct (if decide (ch = "$"%char) then dollar_name s else None) as [name|] eqn:Hn.
    + case_decide as Hch; [subst ch|done]. apply dollar_name_spec in Hn as (r1 & -> & Hn & Hst).
      intros (st1 & Hst1 & (rest & Hr%closed_Ret & [= <- <-])%exc_bind_Ret)%exc_bind_Ret.
      rewrite drop_name in Hr.
      apply after_first_spec in Hr as (b & -> & Hb); [|done]. exists (DollarQuoted name b). split; [|done].
      replace ("$"%char :: name ++ "$"%char :: b ++ dollar_tag name ++ rest)%list
        with (dollar_tag name ++ b ++ dollar_tag name ++ rest)%list by (unfold dollar_tag; cbn [app]; by rewrite <-!app_assoc).
      by constructor.
    + destruct (word_start ch) eqn:Hw.
      * intros (st1 & Hst & [= <- <-])%exc_bind_Ret. exists (Word (ch :: take_while word_char s)). split.
        { rewrite <-(take_drop_while word_char s) at 1. constructor; [done|apply take_while_all|apply drop_while_head]. }
        simpl. by rewrite Hst.
      * intros (st1 & Hst & [= <- <-])%exc_bind_Ret. exists (Symbol ch). split; [|done].
        constructor; [done..|intros ->; naive_solver|intros ->; naive_solver|done|done|].
        intros [-> [x Hx]%starts_dollar_name]. rewrite decide_True in Hn by done. congruence.
Qed.

Lemma dollar_text name b r : (dollar_tag name ++ b ++ dollar_tag name ++ r)%list =
  ("$"%char :: name ++ "$"%char :: b ++ dollar_tag name ++ r)%list.
Proof. unfold dollar_tag. cbn [app]. by rewrite <-!app_assoc. Qed.

Lemma lex_shorter s t r : lex s t r → (length r < length s)%nat.
Proof.
  destruct 1; rewrite ?dollar_text; cbn [length app]; rewrite ?length_app; cbn [length]; rewrite ?length_app; try lia.
Qed.

Lemma scan_step_complete st ch s t r st' : lex (ch :: s) t r → absorb st t = Ret st' → scan_step st ch s = Ret (st', r).
Proof.
  intros Hl Ha. remember (ch :: s) as l eqn:Hls. unfold scan_step.
  destruct Hl as [c r Hc|b r Hb Hr|b r Hb|r|q b r Hq Hb Hr|name b r Hn Hst Hb|c w r Hc Hw Hr|c r Hsp Hws H1 H2 H3 H4 H5 H6]; simplify_eq; cbn [absorb] in Ha; simplify_eq.
  - by rewrite Hc.
  - simpl. by rewrite (proj2 (to_newline_spec (b ++ r) r)) by eauto.
  - simpl. by rewrite (skip_comment_complete 1 b r).
  - simpl. by rewrite Ha.
  - replace (is_js_space ch) with false by (by destruct Hq as [-> | ->]).
    rewrite !decide_False by (destruct Hq as [-> | ->]; intros ?; naive_solver). rewrite decide_True by done. rewrite Ha. cbn.
    by rewrite (proj2 (skip_quote_spec ch (b ++ r) r)) by eauto.
  - rewrite dollar_text in Hls. injection Hls as <- <-.
    replace (is_js_space "$"%char) with false by done. rewrite !decide_False by (intros ?; naive_solver). rewrite decide_True by done.
    change ("$"%char :: (name ++ ["$"%char]) ++ r)%list with (dollar_tag name ++ r)%list.
    rewrite (proj2 (dollar_name_spec (name ++ "$"%char :: b ++ dollar_tag name ++ r) name)) by eauto.
    rewrite Ha. cbn [mbind exc_bind]. rewrite drop_name.
    by rewrite (proj2 (after_first_spec (dollar_tag name) (b ++ dollar_tag name ++ r) r ltac:(done))) by eauto.
  - destruct (word_class ch Hc) as [-> Hsp].
    rewrite !decide_False by (intros ?; destruct_and?; destruct_or?; subst ch; by vm_compute in Hsp).
    rewrite Hc. apply exc_bind_Ret in Ha as (st1 & -> & [= <-]). cbn.
    destruct (while_app word_char w r Hw Hr) as [-> ->]. done.
  - rewrite Hsp. rewrite (decide_False (P := ch = "-"%char ∧ _)), (decide_False (P := ch = "/"%char ∧ _)) by done.
    rewrite (decide_False (P := ch = ";"%char)), (decide_False (P := _ ∨ _)) by tauto. rewrite Hws.
    replace (if decide (ch = "$"%char) then dollar_name s else None) with (@None (list ascii)); [by rewrite Ha|].
    case_decide as Hd; [|done]. destruct (dollar_name s) eqn:Hn; [|done]. exfalso. apply H6. split; [done|].
    apply starts_dollar_name. by rewrite Hn.
Qed.

(** ** The loop reads the lexemes of the text *)

Fixpoint absorb_all (st : Scan) (ts : list lexeme) : exc Scan :=
  match ts with [] => Ret st | t :: ts => st ← absorb st t; absorb_all st ts end.

Lemma scan_loop_sound n st s st' : scan_loop n st s = Ret st' → ∃ ts, lexes s ts ∧ absorb_all st ts = Ret st'.
Proof.
  revert st s. induction n as [|n IH]; intros st [|ch s]; simpl; [intros [= ->]; exists []; by split; [constructor|]|done| |].
  { intros [= ->]. exists []. by split; [constructor|]. }
  intros ([st1 r] & Hst & Hl)%exc_bind_Ret. apply scan_step_sound in Hst as (t & Ht & Ha).
  apply IH in Hl as (ts & Hts & Hall). exists (t :: ts). split; [by econstructor|]. simpl in *. by rewrite Ha.
Qed.

Lemma scan_loop_complete s ts : lexes s ts → ∀ n st st', (length s <= n)%nat → absorb_all st ts = Ret st' → scan_loop n st s = Ret st'.
Proof.
  induction 1 as [|s t r ts Ht _ IH]; intros n st st' Hn Ha; [by destruct n|].
  pose proof (lex_shorter _ _ _ Ht). destruct s as [|ch s]; [simpl in *; lia|]. destruct n as [|n]; [simpl in *; lia|].
  simpl in Ha. apply exc_bind_Ret in Ha as (st1 & Ha & Hall). cbn [scan_loop].
  rewrite (scan_step_complete st ch s t r st1) by done. cbn. apply IH; [simpl in *; lia|done].
Qed.

(** ** The state of the scan at the end *)

Definition inert (t : lexeme) : Prop := is_content t = false ∧ t ≠ Semi.

Lemma absorb1_ended st t st' : sc_ended st = true → absorb st t = Ret st' ↔ st' = st ∧ inert t.
Proof.
  intros He. unfold inert. destruct t; simpl; unfold content, semicolon; rewrite ?He, ?orb_true_r; simpl; naive_solver.
Qed.

Lemma absorb_ended st ts st' : sc_ended st = true → absorb_all st ts = Ret st' ↔ st' = st ∧ Forall inert ts.
Proof.
  intros He. induction ts as [|t ts IH]; simpl; [naive_solver|]. rewrite Forall_cons, exc_bind_Ret. split.
  - intros (st1 & [-> Ht]%absorb1_ended & [-> Hts]%IH); done.
  - intros (-> & Ht & Hts). exists st. split; [by apply absorb1_ended|by apply IH].
Qed.

Lemma first_word_inert l : Forall inert l → first_word l = None.
Proof. induction 1 as [|t l [Ht _] _ IH]; [done|]. by destruct t. Qed.

Lemma absorb_open w h ts st' : absorb_all (mkScan w h false) ts = Ret st' →
  ∃ body rest, ts = (body ++ rest)%list ∧ Semi ∉ body ∧ (rest = [] ∨ ∃ l, rest = Semi :: l ∧ Forall inert l) ∧
    (sc_hasContent st' = true ↔ h = true ∨ ∃ t, t ∈ body ∧ is_content t = true) ∧ (rest ≠ [] → sc_hasContent st' = true) ∧
    sc_firstWord st' = match w with Some x => Some x | None => first_word ts end.
Proof.
  revert w h. induction ts as [|t ts IH]; intros w h; simpl.
  { intros [= <-]. exists [], []. simpl. split_and!; [done|set_solver|by left|set_solver|done|by destruct w]. }
  intros (st1 & Ha & Hall)%exc_bind_Ret. destruct (decide (t = Semi)) as [->|Hne].
  - simpl in Ha. unfold semicolon in Ha. simpl in Ha. destruct h; simplify_eq/=.
    apply absorb_ended in Hall as [-> Hin]; [|done]. exists [], (Semi :: ts). simpl.
    split_and!; [done|set_solver|right; by exists ts|split; [by left|done]|done|].
    destruct w; [done|]. symmetry. by apply first_word_inert.
  - assert (st1 = mkScan (match t with Word x => match w with Some y => Some y | None => Some x end | _ => w end) (h || is_content t)%bool false) as ->.
    { destruct t; simpl in Ha; unfold content, see_word in Ha; simpl in Ha; simplify_eq/=; rewrite ?orb_false_r, ?orb_true_r; try done; by destruct w. }
    apply IH in Hall as (body & rest & -> & Hb & Hr & Hc & Hc' & Hw). exists (t :: body), rest. split_and!; [done|set_solver|done| |done|].
    + rewrite Hc, orb_true_iff. set_solver.
    + rewrite Hw. destruct t, w; done.
Qed.

Lemma absorb_body w h body : Semi ∉ body → absorb_all (mkScan w h false) body =
  Ret (mkScan (match w with Some x => Some x | None => first_word body end) (h || existsb is_content body)%bool false).
Proof.
  revert w h. induction body as [|t body IH]; intros w h Hs; simpl; [by rewrite orb_false_r; destruct w|].
  apply not_elem_of_cons in Hs as [Hne Hs].
  destruct t; simpl; unfold content, see_word; simpl; try done; rewrite IH by done; rewrite ?orb_true_r; simpl; by destruct w.
Qed.

Lemma absorb_all_app st a b : absorb_all st (a ++ b) = st1 ← absorb_all st a; absorb_all st1 b.
Proof. revert st. induction a as [|t a IH]; intros st; simpl; [done|]. destruct (absorb st t); simpl; [apply IH|done]. Qed.

Lemma first_word_app a b : first_word (a ++ b) = match first_word a with Some w => Some w | None => first_word b end.
Proof. induction a as [|t a IH]; simpl; [done|]. by destruct t. Qed.

(** C27 [C0] The scanner accepts a text exactly when it is a sequence of lexemes that
    form one statement whose first word is not a command of the transaction or the
    session -- whatever comments, quotations and blanks surround it. *)
Theorem executor_accepts_iff sql : assertExecutorStatement sql = Ret tt ↔
  (1 <= str_len sql <= 10000000)%Z ∧ ∃ ts, lexes (chars sql) ts ∧ one_statement ts ∧ uncontrolled ts.
Proof.
  unfold assertExecutorStatement. destruct (decide (1 <= str_len sql <= 10000000)%Z) as [Hlen|Hlen].
  2: { split; [|naive_solver]. intros H. exfalso. apply Hlen. do 2 case_bool_decide; simplify_eq/=; lia. }
  rewrite !bool_decide_eq_false_2 by lia. cbn [orb]. split; [intros H; split; [done|]|intros [_ (ts & Hts & (body & rest & -> & Hb & (t & Ht & Hc) & Hr) & Hun)]].
  - apply exc_bind_Ret in H as (st & Hst & H). apply scan_loop_sound in Hst as (ts & Hts & Ha). exists ts. split; [done|].
    apply absorb_open in Ha as (body & rest & Heq & Hb & Hr & Hc & _ & Hw).
    destruct (sc_hasContent st) eqn:Hh; [|done]. destruct (proj1 Hc eq_refl) as [?|Hx]; [done|]. split; [exists body, rest; split_and!; done|].
    intros w Hfw. rewrite Hw in H. rewrite Hfw in H. cbn in H. by case_bool_decide.
  - assert (existsb is_content body = true) as He by (apply existsb_exists; exists t; split; [by apply list_elem_of_In|done]).
    assert (first_word rest = None) as Hfr.
    { destruct Hr as [->|(l & -> & Hl)]; [done|]. simpl. by apply first_word_inert. }
    assert (∃ e, absorb_all scan_init (body ++ rest) = Ret (mkScan (first_word body) true e)) as [e Ha].
    { rewrite absorb_all_app. unfold scan_init. rewrite absorb_body by done. simpl. rewrite He.
      destruct Hr as [->|(l & -> & Hl)]; [by eexists|]. simpl. unfold semicolon. simpl. eexists. apply absorb_ended; by try split. }
    rewrite (scan_loop_complete _ _ Hts (String.length sql) scan_init _ ltac:(by rewrite length_chars) Ha). cbn.
    destruct (first_word body) as [w|] eqn:Hfw; [|done]. rewrite bool_decide_eq_false_2; [done|].
    apply Hun. rewrite first_word_app. by rewrite Hfw.
Qed.

(** The loop's fuel is never used up: an error is the contract's. *)
Lemma executor_contract_error sql e : assertExecutorStatement sql = Throw e → ∃ msg, e = ContractValidationError msg.
Proof.
  assert (∀ st ch s e, scan_step st ch s = Throw e → ∃ msg, e = ContractValidationError msg) as Hstep.
  { intros st ch s e'. unfold scan_step, content, semicolon, closed, contract_error. intros H.
    repeat (case_match; simplify_eq/=); eauto. }
  assert (∀ n st s, (length s <= n)%nat → scan_loop n st s = Throw e → ∃ msg, e = ContractValidationError msg) as Hloop.
  { induction n as [|n IH]; intros st [|ch s] Hn; simpl in *; try done; [lia|].
    destruct (scan_step st ch s) as [[st1 r]|e'] eqn:Hs; simpl; [|intros [= ->]; by eapply Hstep].
    apply scan_step_sound in Hs as (t & Ht%lex_shorter & _). apply IH. simpl in Ht. lia. }
  unfold assertExecutorStatement. destruct (_ || _)%bool; [unfold contract_error; naive_solver|].
  destruct (scan_loop _ _ _) as [st|e'] eqn:Hl; simpl; [|intros [= ->]; eapply Hloop; [|done]; by rewrite length_chars].
  destruct (sc_hasContent st); simpl; [|unfold contract_error; naive_solver].
  destruct (sc_firstWord st); [|done]. case_bool_decide; [unfold contract_error; naive_solver|done].
Qed.

(** ** Runs *)

Example accepts_quoted_commands :
  assertExecutorStatement "/* COMMIT; */ SELECT '; COMMIT', $tag$; ROLLBACK $tag$ -- ; END" = Ret tt.
Proof. vm_compute. reflexivity. Qed.
Example refuses_hidden_commit :
  assertExecutorStatement "/* a /* nested */ comment */ cOmMiT" = contract_error "PostgreSQL executor forbids COMMIT statements".
Proof. vm_compute. reflexivity. Qed.
Example refuses_second_statement :
  assertExecutorStatement "SELECT 1; COMMIT" = contract_error "PostgreSQL executor accepts exactly one statement".
Proof. vm_compute. reflexivity. Qed.

(** PostgreSQL ends the escape string at the quote after the backslash's and runs
    the COMMIT; the scanner, which knows no backslash escapes, reads one string. *)
Definition escape_string : string := "SELECT E'\''; COMMIT; --'".
(** A carriage return ends a line comment of PostgreSQL. *)
Definition comment_return : string := "SELECT 1 -- " +:+ String (ascii_of_N 13) "; COMMIT".

(** Both texts hide a COMMIT from the scanner. *)
Theorem hidden_commit_accepted : assertExecutorStatement escape_string = Ret tt ∧ assertExecutorStatement comment_return = Ret tt.
Proof. by vm_compute. Qed.
