(* ===== verification/PgTransactor.v ===== *)
(** * Transactions over a connection pool (packages/server/src/pg-transactor.ts)

    [NodePostgresTransactor] runs a callback inside a SERIALIZABLE transaction of a
    pooled connection: it confirms every step by the server's command tag, destroys
    the connection on any failure, tells a rolled-back transaction from one whose
    outcome is unknown, and retries only what certainly did not commit.

    A transaction is a process over [TxWorld].  What the pool and the server
    answer, when the deadline or the caller aborts, and who wins a race are the
    environment's.  [tw_log] is a history variable: what was sent and answered, and
    what became of the connection. *)

From S2P Require Import Prelude Proc JsNum Encoding Json JsText OutboxContract SqlStatement.
From stdpp Require Import base sets strings list relations.
From Stdlib Require Import ZArith Lia.

Local Open Scope string_scope.
Local Open Scope bpc_scope.

(** ** Results and errors *)

(** The errors of the file, those of the driver, which may carry an SQLSTATE, and
    any other error. *)
Inductive TxError :=
  | DriverError (code : option string) (msg : string)
  | Thrown (e : error)
  | PostCommitReleaseError (msg : string) (cause : option TxError)
  | AmbiguousCommitError (cause : TxError)
  | ConnectionDisposalError (cause : TxError)
  | AggregateError (errors : list TxError).
Inductive res (A : Type) := Ok (a : A) | Err (e : TxError).
Arguments Ok {A} a.
Arguments Err {A} e.

Definition fail {A} (msg : string) : res A := Err (Thrown (ContractValidationError msg)).
(** [(error as { code?: unknown })?.code] *)
Definition error_code (e : TxError) : option string := match e with DriverError code _ => code | _ => None end.

Definition Row : Type := list (string * jsval).
Record NodePostgresResult := mkResult { rs_rows : list Row; rs_rowCount : option Z; rs_command : option string }.
(** [result.rows[0]?.name] *)
Definition cell (r : NodePostgresResult) (name : string) : jsval :=
  match rs_rows r with row :: _ => default JUndef (om_get name row) | [] => JUndef end.

(** What the callback does with its executor: statements one after the other. *)
Record ExecResult := mkExec { ex_rows : list Row; ex_rowCount : Z }.
Inductive callback (T : Type) :=
  | Return (r : res T)
  | Query (sql : string) (params : list jsval) (k : res ExecResult → callback T).
Arguments Return {T} r.
Arguments Query {T} sql params k.

(** ** Options *)

Definition MAX_TIMER_MS : Z := 2147483647.
Definition RETRYABLE : list string := ["40001"; "40P01"].

Definition boundedInteger (value : num) (label : string) (min max : Z) : exc Z :=
  let refuse := contract_error (label +:+ " must be a safe integer in [" +:+ z_to_string min +:+ ", " +:+ z_to_string max +:+ "]") in
  match num_safe_int value with
  | Some z => if (bool_decide (z < min)%Z || bool_decide (z > max)%Z)%bool then refuse else Ret z
  | None => refuse
  end.

Record NodePostgresTransactorOptions := mkTxOptions {
  to_statementTimeoutMs : option num; to_transactionTimeoutMs : option num; to_acquireTimeoutMs : option num;
  to_rollbackTimeoutMs : option num; to_maxSerializationRetries : option num; to_retryBaseDelayMs : option num }.
Record NodePostgresTransactor := mkTransactor {
  nt_statementTimeoutMs : Z; nt_transactionTimeoutMs : Z; nt_acquireTimeoutMs : Z;
  nt_rollbackTimeoutMs : Z; nt_maxSerializationRetries : Z; nt_retryBaseDelayMs : Z }.

Definition NodePostgresTransactor_new (o : NodePostgresTransactorOptions) : exc NodePostgresTransactor :=
  statement ← boundedInteger (default (int 30000) (to_statementTimeoutMs o)) "statementTimeoutMs" 1 MAX_TIMER_MS;
  transaction ← boundedInteger (default (int 35000) (to_transactionTimeoutMs o)) "transactionTimeoutMs" 1 MAX_TIMER_MS;
  acquire ← boundedInteger (default (int 5000) (to_acquireTimeoutMs o)) "acquireTimeoutMs" 1 MAX_TIMER_MS;
  rollback ← boundedInteger (default (int 1000) (to_rollbackTimeoutMs o)) "rollbackTimeoutMs" 1 MAX_TIMER_MS;
  retries ← boundedInteger (default (int 0) (to_maxSerializationRetries o)) "maxSerializationRetries" 0 100;
  delay ← boundedInteger (default (int 10) (to_retryBaseDelayMs o)) "retryBaseDelayMs" 1 1000;
  Ret (mkTransactor statement transaction acquire rollback retries delay).

Definition lock_name (s : string) : bool :=
  match s with
  | EmptyString => false
  | String c _ => ((is_lower c || bool_decide (c = "_"%char)) && all_chars (λ c, is_lower c || is_digit c || bool_decide (c = "_"%char)) s &&
                   bool_decide (str_len s <= 63)%Z)%bool
  end.
Fixpoint normalize_locks (seen : list (string * string)) (relations : list (string * string)) : exc (list (string * string)) :=
  match relations with
  | [] => Ret []
  | (schema, table) :: relations =>
      if negb (lock_name schema && lock_name table)%bool then contract_error "initial exclusive lock identifiers are invalid" else
      if decide ((schema, table) ∈ seen) then contract_error "initial exclusive lock relations must be unique" else
      rest ← normalize_locks ((schema, table) :: seen) relations; Ret ((schema, table) :: rest)
  end.
Definition initial_locks (relations : list (string * string)) : exc (list (string * string)) :=
  if (bool_decide (length relations < 1)%nat || bool_decide (16 < length relations)%nat)%bool
  then contract_error "initial exclusive locks must contain 1..16 relations" else normalize_locks [] relations.

(** ** The world of a transaction *)

Inductive ReleaseState := Open | Released | Destroyed | Failed.
#[export] Instance release_eq_dec : EqDecision ReleaseState.
Proof. solve_decision. Defined.

Inductive TxEvent :=
  | Connecting
  | Connected
  | Sent (sql : string)
  | Answered (r : res NodePostgresResult)
  | Release (destroy : bool)
  | LateRelease
  | DisposalReported
  | Slept (ms : Z).

Record TxWorld := mkTx {
  tw_signal : option TxError;                 (* the reason of the controller's signal *)
  tw_listening : bool;                        (* [runOnce] listens to the signal *)
  tw_release : ReleaseState;
  tw_disposalError : option TxError;
  tw_committed : bool;
  tw_commitDispatched : bool;
  tw_commitDefinitivelyAborted : bool;
  tw_late : nat;                              (* connections nobody waits for any more *)
  tw_replies : list (res NodePostgresResult); (* what the server will answer *)
  tw_connect : res unit;                      (* what the pool will answer *)
  tw_first : bool;                            (* an abort or a timer wins the next race *)
  tw_timer : bool;                            (* in the race for a connection it is the timer *)
  tw_releaseFails : option TxError;           (* what [client.release] throws *)
  tw_log : list TxEvent }.

Definition logged (l : list TxEvent) (w : TxWorld) : TxWorld :=
  mkTx (tw_signal w) (tw_listening w) (tw_release w) (tw_disposalError w) (tw_committed w) (tw_commitDispatched w)
    (tw_commitDefinitivelyAborted w) (tw_late w) (tw_replies w) (tw_connect w) (tw_first w) (tw_timer w) (tw_releaseFails w) (tw_log w ++ l)%list.
Definition set_flags (committed dispatched aborted : bool) (w : TxWorld) : TxWorld :=
  mkTx (tw_signal w) (tw_listening w) (tw_release w) (tw_disposalError w) committed dispatched aborted
    (tw_late w) (tw_replies w) (tw_connect w) (tw_first w) (tw_timer w) (tw_releaseFails w) (tw_log w).
Definition set_release (s : ReleaseState) (e : option TxError) (w : TxWorld) : TxWorld :=
  mkTx (tw_signal w) (tw_listening w) s e (tw_committed w) (tw_commitDispatched w) (tw_commitDefinitivelyAborted w)
    (tw_late w) (tw_replies w) (tw_connect w) (tw_first w) (tw_timer w) (tw_releaseFails w) (tw_log w).
Definition set_listening (b : bool) (w : TxWorld) : TxWorld :=
  mkTx (tw_signal w) b (tw_release w) (tw_disposalError w) (tw_committed w) (tw_commitDispatched w) (tw_commitDefinitivelyAborted w)
    (tw_late w) (tw_replies w) (tw_connect w) (tw_first w) (tw_timer w) (tw_releaseFails w) (tw_log w).
Definition set_signal (s : option TxError) (w : TxWorld) : TxWorld :=
  mkTx s (tw_listening w) (tw_release w) (tw_disposalError w) (tw_committed w) (tw_commitDispatched w) (tw_commitDefinitivelyAborted w)
    (tw_late w) (tw_replies w) (tw_connect w) (tw_first w) (tw_timer w) (tw_releaseFails w) (tw_log w).
Definition set_late (n : nat) (w : TxWorld) : TxWorld :=
  mkTx (tw_signal w) (tw_listening w) (tw_release w) (tw_disposalError w) (tw_committed w) (tw_commitDispatched w) (tw_commitDefinitivelyAborted w)
    n (tw_replies w) (tw_connect w) (tw_first w) (tw_timer w) (tw_releaseFails w) (tw_log w).
Definition set_inputs (replies : list (res NodePostgresResult)) (connect : res unit) (first timer : bool) (fails : option TxError) (w : TxWorld) : TxWorld :=
  mkTx (tw_signal w) (tw_listening w) (tw_release w) (tw_disposalError w) (tw_committed w) (tw_commitDispatched w) (tw_commitDefinitivelyAborted w)
    (tw_late w) replies connect first timer fails (tw_log w).

(** [terminalRelease]; only an open connection is released, so [destroy()] and
    [if (releaseState === 'open') destroy()] are one. *)
Definition terminalRelease (destroy : bool) (w : TxWorld) : TxWorld :=
  match tw_release w with
  | Open =>
      let w := logged [Release destroy] w in
      match tw_releaseFails w with
      | Some e => logged [DisposalReported] (set_release Failed (Some e) w)
      | None => set_release (if destroy then Destroyed else Released) (tw_disposalError w) w
      end
  | _ => w
  end.
Definition destroy_client : TxWorld → TxWorld := terminalRelease true.

(** ** The environment *)

(** The signal aborts once; [runOnce] destroys its connection when it does. *)
Definition abort (e : TxError) (w : TxWorld) : TxWorld :=
  match tw_signal w with
  | Some _ => w
  | None => let w := set_signal (Some e) w in if tw_listening w then destroy_client w else w
  end.
(** A connection that arrives after its acquisition was given up is destroyed. *)
Definition late_arrival (w : TxWorld) : TxWorld :=
  match tw_late w with
  | O => w
  | S n => logged (LateRelease :: match tw_releaseFails w with Some _ => [DisposalReported] | None => [] end) (set_late n w)
  end.

Inductive tx_move : TxWorld → TxWorld → Prop :=
  | move_inputs replies connect first timer fails w : tx_move w (set_inputs replies connect first timer fails w)
  | move_abort e w : tx_move w (abort e w)
  | move_late w : tx_move w (late_arrival w).
Definition tx_env : TxWorld → TxWorld → Prop := rtc tx_move.

(** ** Statements *)

Definition rbind {A B} (p : proc TxWorld (res A)) (k : A → proc TxWorld (res B)) : proc TxWorld (res B) :=
  pbind p (λ r, match r with Ok a => k a | Err e => Done (Err e) end).
Local Notation "'let#' x ':=' p 'in' k" := (rbind p (λ x, k)) (at level 200, x name, p at level 100, k at level 200) : bpc_scope.

(** The next answer of the server, unless an abort wins [abortRace].  The answer to
    the ROLLBACK of the [catch] block is not looked at and not in [tw_replies]. *)
Definition answer (w : TxWorld) : TxWorld * res NodePostgresResult :=
  let lose e := (logged [Answered (Err e)] w, Err e) in
  match tw_signal w with
  | Some e => if tw_first w then lose e else
      let r := default (Err (DriverError None "connection terminated")) (head (tw_replies w)) in
      (logged [Answered r] (set_inputs (tail (tw_replies w)) (tw_connect w) (tw_first w) (tw_timer w) (tw_releaseFails w) w), r)
  | None =>
      let r := default (Err (DriverError None "connection terminated")) (head (tw_replies w)) in
      (logged [Answered r] (set_inputs (tail (tw_replies w)) (tw_connect w) (tw_first w) (tw_timer w) (tw_releaseFails w) w), r)
  end.

(** [query(sql, params)], after [prepare] in the same turn. *)
Definition query_after (prepare : TxWorld → TxWorld) (sql : string) : proc TxWorld (res NodePostgresResult) :=
  Step (λ w, let w := prepare w in
             match tw_signal w with
             | Some e => (w, Done (Err e))
             | None => (logged [Sent sql] w, call answer)
             end).
Definition query : string → proc TxWorld (res NodePostgresResult) := query_after (λ w, w).

(** The callback under [abortRace]: an abort may win after every statement. *)
Definition lost_race (w : TxWorld) : option TxError := if tw_first w then tw_signal w else None.
Fixpoint run_callback {T} (b : callback T) : proc TxWorld (res T) :=
  let* lost := read lost_race in
  match lost with
  | Some e => Done (Err e)
  | None =>
      match b with
      | Return r => Done r
      | Query sql params k =>
          match assertExecutorStatement sql with
          | Throw e => run_callback (k (Err (Thrown e)))
          | Ret _ =>
              let* r := query sql in
              run_callback (k (match r with Ok r => Ok (mkExec (rs_rows r) (default 0%Z (rs_rowCount r))) | Err e => Err e end))
          end
      end
  end.

Definition command_is (r : NodePostgresResult) (c : string) : bool := bool_decide (rs_command r = Some c).
Definition command_text (r : NodePostgresResult) : string := default "missing" (rs_command r).
Definition check_res (ok : bool) (msg : string) : proc TxWorld (res unit) := Done (if ok then Ok tt else fail msg).
Definition dq : string := String (ascii_of_N 34) EmptyString.

Definition BEGIN_SQL : string := "BEGIN ISOLATION LEVEL SERIALIZABLE".
Definition TXID_SQL : string := "SELECT txid_current()::text AS txid".
Definition SET_CONFIG_SQL : string := "SELECT set_config('statement_timeout', $1, true) AS statement_timeout".
Definition TIMEOUT_SQL : string :=
  "SELECT (EXTRACT(EPOCH FROM current_setting('statement_timeout')::interval) * 1000)::bigint::text AS statement_timeout_ms".
Definition set_local_sql (ms : Z) : string := "SET LOCAL statement_timeout = '" +:+ z_to_string ms +:+ "ms'".
Definition lock_sql (locks : list (string * string)) : string :=
  "LOCK TABLE " +:+ str_join ", " ((λ l, dq +:+ l.1 +:+ dq +:+ "." +:+ dq +:+ l.2 +:+ dq) <$> locks) +:+ " IN ACCESS EXCLUSIVE MODE".

(** ** One attempt *)

Definition acquire : proc TxWorld (res unit) :=
  let* _ := update (logged [Connecting]) in
  call (λ w,
    if tw_first w then
      let abandon e := (match tw_connect w with Ok _ => set_late (S (tw_late w)) w | Err _ => w end, Err e) in
      match tw_signal w with
      | Some e => if tw_timer w then abandon (Thrown (ContractValidationError "PostgreSQL connection acquisition timed out")) else abandon e
      | None => abandon (Thrown (ContractValidationError "PostgreSQL connection acquisition timed out"))
      end
    else (w, tw_connect w)).

Section attempt.
Variables (nt : NodePostgresTransactor).

(** The set-up of the session: the timeout, the locks, and their confirmation. *)
Definition set_up (locks : option (list (string * string))) : proc TxWorld (res unit) :=
  let# _ := (match locks with
    | Some l =>
        let# set := query (set_local_sql (nt_statementTimeoutMs nt)) in
        let# _ := check_res (command_is set "SET") "PostgreSQL statement_timeout setup was not confirmed" in
        let# locked := query (lock_sql l) in
        check_res (command_is locked "LOCK") "PostgreSQL initial authority lock was not confirmed"
    | None =>
        let# timeout := query SET_CONFIG_SQL in
        check_res (command_is timeout "SELECT" && match cell timeout "statement_timeout" with JStr _ => true | _ => false end)%bool
          "PostgreSQL statement_timeout setup was not confirmed"
    end) in
  let# check := query TIMEOUT_SQL in
  check_res (command_is check "SELECT" && bool_decide (cell check "statement_timeout_ms" = JStr (z_to_string (nt_statementTimeoutMs nt))))%bool
    "PostgreSQL statement_timeout setup was not confirmed".

(** From [COMMIT] to the end of the [try] block. *)
Definition dispatched (w : TxWorld) : TxWorld := set_flags (tw_committed w) true (tw_commitDefinitivelyAborted w) w.
Definition commit_and_release {T} (result : T) : proc TxWorld (res T) :=
  let# commit := query_after dispatched "COMMIT" in
  if command_is commit "COMMIT" then
    let* discarded := query_after (λ w, set_flags true (tw_commitDispatched w) (tw_commitDefinitivelyAborted w) w) "DISCARD ALL" in
    match discarded with
    | Err e => let* _ := update destroy_client in Done (Err (PostCommitReleaseError "PostgreSQL committed but session reset failed" (Some e)))
    | Ok r =>
        if command_is r "DISCARD" then
          call (λ w, let w := terminalRelease false w in
                     (w, if decide (tw_release w = Failed)
                         then Err (PostCommitReleaseError "PostgreSQL committed but returning the connection to the pool failed" (tw_disposalError w))
                         else Ok result))
        else let* _ := update destroy_client in Done (Err (PostCommitReleaseError "PostgreSQL committed but session reset was not confirmed" None))
    end
  else
    let* _ := update (λ w, set_flags (tw_committed w) (tw_commitDispatched w) (command_is commit "ROLLBACK") w) in
    Done (fail ("PostgreSQL COMMIT was not confirmed (command=" +:+ command_text commit +:+ ")")).

Definition same_txid (a b : NodePostgresResult) : bool :=
  match cell b "txid" with JStr t => (command_is a "SELECT" && bool_decide (cell a "txid" = JStr t))%bool | _ => false end.

(** The [try] block. *)
Definition try_block {T} (fn : callback T) (locks : option (list (string * string))) : proc TxWorld (res T) :=
  let# start := query BEGIN_SQL in
  let# _ := check_res (command_is start "BEGIN") ("PostgreSQL BEGIN was not confirmed (command=" +:+ command_text start +:+ ")") in
  let# _ := set_up locks in
  let# boundary := query TXID_SQL in
  let# _ := check_res (command_is boundary "SELECT" && match cell boundary "txid" with JStr _ => true | _ => false end)%bool
    "PostgreSQL transaction continuity sentinel was not established" in
  let# result := run_callback fn in
  let# continuity := query TXID_SQL in
  if same_txid continuity boundary then commit_and_release result
  else
    let* _ := update dispatched in
    Done (fail "PostgreSQL transaction continuity was lost before adapter COMMIT").

(** The [catch] block: roll back, destroy the connection, name the outcome. *)
Definition outcome_error (error : TxError) (w : TxWorld) : TxError :=
  if (tw_commitDispatched w && negb (tw_committed w) && negb (tw_commitDefinitivelyAborted w))%bool then
    AmbiguousCommitError (match tw_disposalError w with None => error | Some d => AggregateError [error; d] end)
  else match tw_disposalError w with
       | Some d => if tw_committed w then error else ConnectionDisposalError (AggregateError [error; d])
       | None => error
       end.
Definition catch_block {T} (error : TxError) : proc TxWorld (res T) :=
  let* sent := call (λ w, if (negb (tw_committed w) && negb (tw_commitDispatched w) && bool_decide (tw_release w = Open))%bool
                          then (logged [Sent "ROLLBACK"] w, true) else (w, false)) in
  call (λ w, let w := destroy_client w in (w, Err (outcome_error error w))).

(** The start of [runOnce] on its connection, and the [finally] block. *)
Definition opened (w : TxWorld) : TxWorld := set_listening true (set_release Open None (set_flags false false false (logged [Connected] w))).
Definition closing (w : TxWorld) : TxWorld := destroy_client (set_listening false w).

Definition runOnce {T} (fn : callback T) (locks : option (list (string * string))) : proc TxWorld (res T) :=
  let# _ := acquire in
  let* _ := update opened in
  let* r := try_block fn locks in
  let* r := match r with Ok v => Done (Ok v) | Err e => catch_block e end in
  let* _ := update closing in
  Done r.

(** ** Retries *)

Definition retryable (e : TxError) : bool := match error_code e with Some c => bool_decide (c ∈ RETRYABLE) | None => false end.
Definition retry_delay (attempt : nat) : Z := Z.min (nt_retryBaseDelayMs nt * 2 ^ Z.of_nat attempt) 1000.

(** [sleep(ms, signal)] *)
Definition sleep (ms : Z) : proc TxWorld (res unit) :=
  Step (λ w, match tw_signal w with
             | Some e => (w, Done (Err e))
             | None => (logged [Slept ms] w, call (λ w, (w, match lost_race w with Some e => Err e | None => Ok tt end)))
             end).

(** [budget] retries are left after [attempt] of them. *)
Fixpoint attempts {T} (fn : callback T) (locks : option (list (string * string))) (budget attempt : nat) : proc TxWorld (res T) :=
  let* aborted := read tw_signal in
  match aborted with
  | Some e => Done (Err e)
  | None =>
      let* r := runOnce fn locks in
      match r with
      | Ok v => Done (Ok v)
      | Err e =>
          let* aborted := read tw_signal in
          match budget, aborted with
          | S budget, None =>
              if retryable e then
                let# _ := sleep (retry_delay attempt) in
                attempts fn locks budget (S attempt)
              else Done (Err e)
          | _, _ => Done (Err e)
          end
      end
  end.

(** [caller] is the reason of the caller's signal when it is aborted already, which
    may be no error. *)
Definition abortError (reason : option TxError) : TxError :=
  default (Thrown (ContractValidationError "PostgreSQL transaction aborted")) reason.
Definition runTransaction {T} (fn : callback T) (locks : option (list (string * string))) (caller : option (option TxError)) : proc TxWorld (res T) :=
  let* _ := update (λ w, set_listening false (set_signal (abortError <$> caller) w)) in
  attempts fn locks (Z.to_nat (nt_maxSerializationRetries nt)) 0.

Definition transaction {T} (fn : callback T) (caller : option (option TxError)) : proc TxWorld (res T) := runTransaction fn None caller.
Definition transactionWithInitialExclusiveLocks {T} (relations : list (string * string)) (fn : callback T) (caller : option (option TxError)) :
    proc TxWorld (res T) :=
  match initial_locks relations with
  | Throw e => Done (Err (Thrown e))
  | Ret locks => runTransaction fn (Some locks) caller
  end.
End attempt.

(** ** What the history of a transaction shows *)

Definition count (f : TxEvent → bool) (l : list TxEvent) : nat := length (List.filter f l).
Definition connectings : list TxEvent → nat := count (λ e, match e with Connecting => true | _ => false end).
Definition connections : list TxEvent → nat := count (λ e, match e with Connected => true | _ => false end).
Definition releases : list TxEvent → nat := count (λ e, match e with Release _ => true | _ => false end).
Definition commits : list TxEvent → nat := count (λ e, match e with Sent sql => bool_decide (sql = "COMMIT") | _ => false end).
(** Events of an abort and of late arrivals. *)
Definition quiet (e : TxEvent) : bool := match e with Release true | LateRelease | DisposalReported => true | _ => false end.
(** The server answered the COMMIT with the command tag [c]. *)
Definition answered_with (c : string) (l : list TxEvent) : Prop := ∃ l1 l2 l3 r,
  l = (l1 ++ Sent "COMMIT" :: l2 ++ Answered (Ok r) :: l3)%list ∧ Forall (λ e, quiet e = true) l2 ∧ rs_command r = Some c.
Definition open_commit (l : list TxEvent) : Prop := ∃ l1 l2,
  l = (l1 ++ Sent "COMMIT" :: l2)%list ∧ Forall (λ e, quiet e = true) l2.
Definition control_sql (nt : NodePostgresTransactor) (locks : option (list (string * string))) : list string :=
  ["COMMIT"; "ROLLBACK"; "DISCARD ALL"; BEGIN_SQL; TXID_SQL; SET_CONFIG_SQL; TIMEOUT_SQL; set_local_sql (nt_statementTimeoutMs nt);
   lock_sql (default [] locks)].
Definition permitted nt locks (sql : string) : Prop := sql ∈ control_sql nt locks ∨ assertExecutorStatement sql = Ret tt.
Definition all_permitted nt locks (l : list TxEvent) : Prop := ∀ sql, Sent sql ∈ l → permitted nt locks sql.
(** No connection went back to the pool. *)
Definition not_reused (l : list TxEvent) : Prop := Release false ∉ l.

(** What an outcome says about the transaction. *)
Definition outcome_of {T} (r : res T) (l : list TxEvent) : Prop :=
  match r with
  | Ok _ => answered_with "COMMIT" l
  | Err e => (commits l = 0 ∧ not_reused l) ∨ (answered_with "ROLLBACK" l ∧ error_code e = None ∧ not_reused l) ∨
             (not_reused l ∧ ∃ cause, e = AmbiguousCommitError cause) ∨
             (answered_with "COMMIT" l ∧ ∃ msg cause, e = PostCommitReleaseError msg cause)
  end.

Lemma count_app f a b : count f (a ++ b) = (count f a + count f b)%nat.
Proof. unfold count. by rewrite List.filter_app, length_app. Qed.

Section outcome.
Context (nt : NodePostgresTransactor) (locks : option (list (string * string))) (L : list TxEvent).

Definition pending (w : TxWorld) : nat := if (tw_listening w && bool_decide (tw_release w = Open))%bool then 1 else 0.
Definition flags (w : TxWorld) : bool * bool * bool := (tw_commitDispatched w, tw_committed w, tw_commitDefinitivelyAborted w).

(** [k] commits and [n] attempts so far. *)
Record history (k n : nat) (X : list TxEvent → Prop) (l : list TxEvent) : Prop := {
  hs_commits : commits l = k; hs_attempts : connectings l = n; hs_permitted : all_permitted nt locks l; hs_rest : X l }.
(** The state while it lasts: every connection is released or pending. *)
Definition tx_inv (ls : bool) (fl : bool * bool * bool) (k n : nat) (X : list TxEvent → Prop) (w : TxWorld) : Prop :=
  tw_listening w = ls ∧ flags w = fl ∧
  ∃ l, tw_log w = (L ++ l)%list ∧ (releases l + pending w = connections l)%nat ∧ history k n X l.

(** Kept by the events of the environment. *)
Definition qstable (X : list TxEvent → Prop) : Prop := ∀ l q, Forall (λ e, quiet e = true) q → X l → X (l ++ q)%list.

Lemma not_reused_app l e : e ≠ Release false → not_reused l → not_reused (l ++ [e]).
Proof. unfold not_reused. rewrite elem_of_app, list_elem_of_singleton. naive_solver. Qed.
Lemma not_reused_qstable : qstable not_reused.
Proof.
  intros l q Hq Hl. unfold not_reused. rewrite elem_of_app. intros [?|Hin]; [done|].
  rewrite Forall_forall in Hq. by specialize (Hq _ Hin).
Qed.
Lemma answered_app c l q : answered_with c l → answered_with c (l ++ q).
Proof.
  intros (l1 & l2 & l3 & r & -> & ? & ?). exists l1, l2, (l3 ++ q)%list, r. split_and!; [|done|done].
  rewrite <-!app_assoc. cbn. by rewrite <-!app_assoc.
Qed.
Lemma open_commit_qstable : qstable open_commit.
Proof.
  intros l q Hq (l1 & l2 & -> & ?). exists l1, (l2 ++ q)%list. split; [by rewrite <-app_assoc|by apply Forall_app].
Qed.
Lemma open_commit_answered l r c : open_commit l → rs_command r = Some c → answered_with c (l ++ [Answered (Ok r)]).
Proof. intros (l1 & l2 & -> & ?) ?. exists l1, l2, [], r. split_and!; [by rewrite <-app_assoc|done|done]. Qed.
Lemma qstable_and X Y : qstable X → qstable Y → qstable (λ l, X l ∧ Y l).
Proof. intros HX HY l q Hq []. split; [by apply HX|by apply HY]. Qed.
Lemma answered_qstable c : qstable (answered_with c).
Proof. intros l q _. apply answered_app. Qed.

Definition uncounted (e : TxEvent) : bool := match e with Release _ | LateRelease | DisposalReported => true | _ => false end.
Lemma quiet_uncounted q : Forall (λ e, quiet e = true) q → Forall (λ e, uncounted e = true) q.
Proof. intros H. eapply Forall_impl; [exact H|]. by intros []. Qed.

Lemma uncounted_history k n X l q : Forall (λ e, uncounted e = true) q → X (l ++ q)%list → history k n X l → history k n X (l ++ q).
Proof.
  intros Hq HX [Hk Hn Hp _]. split; [..|done].
  - unfold commits, count in *. rewrite List.filter_app, length_app, Hk. clear HX.
    induction Hq as [|[] q He _ IH]; simpl in *; try done; lia.
  - unfold connectings, count in *. rewrite List.filter_app, length_app, Hn. clear HX.
    induction Hq as [|[] q He _ IH]; simpl in *; try done; lia.
  - intros sql [?|Hin]%elem_of_app; [by apply Hp|]. rewrite Forall_forall in Hq. by specialize (Hq _ Hin).
Qed.
Lemma quiet_history k n X l q : qstable X → Forall (λ e, quiet e = true) q → history k n X l → history k n X (l ++ q).
Proof. intros HX Hq Hh. apply uncounted_history; [by apply quiet_uncounted|apply HX; [done|by destruct Hh]|done]. Qed.

(** What a release does: nothing to a connection that is not open, else it is
    handed back and no longer pending. *)
Lemma terminalRelease_spec d w : ∃ q, tw_log (terminalRelease d w) = (tw_log w ++ q)%list ∧
  tw_listening (terminalRelease d w) = tw_listening w ∧ flags (terminalRelease d w) = flags w ∧ tw_release (terminalRelease d w) ≠ Open ∧
  (tw_release w ≠ Open ∧ q = [] ∨ tw_release w = Open ∧ (q = [Release d] ∨ q = [Release d; DisposalReported])).
Proof.
  unfold terminalRelease. destruct (tw_release w) eqn:Hr.
  2-4: exists []; split_and!; [by rewrite app_nil_r|done|done|by rewrite Hr|by left].
  change (tw_releaseFails (logged [Release d] w)) with (tw_releaseFails w). destruct (tw_releaseFails w).
  - exists [Release d; DisposalReported]. split_and!; [cbn; by rewrite <-app_assoc|done..|]. right. split; [done|by right].
  - exists [Release d]. split_and!; [done..|by destruct d|]. right. split; [done|by left].
Qed.

Lemma release_inv d fl k n X w : (d = true ∧ qstable X) ∨ (∀ l q, X l → X (l ++ q)%list) → tx_inv true fl k n X w →
  tx_inv true fl k n X (terminalRelease d w) ∧ tw_release (terminalRelease d w) ≠ Open.
Proof.
  intros HX (Hls & Hfl & l & Hl & Hb & Hh).
  destruct (terminalRelease_spec d w) as (q & Hq & Hls' & Hfl' & Hr & Hcase). split; [|done].
  assert (Forall (λ e, uncounted e = true) q) by (destruct Hcase as [[_ ->]|[_ [-> | ->]]]; by repeat constructor).
  split_and!; [congruence..|]. exists (l ++ q)%list. split_and!; [by rewrite Hq, Hl, app_assoc| |].
  2: { apply uncounted_history; [done| |done]. destruct HX as [[-> HX]|HX]; apply HX; try by destruct Hh.
       destruct Hcase as [[_ ->]|[_ [-> | ->]]]; by repeat constructor. }
  assert (pending (terminalRelease d w) = 0%nat) as -> by (unfold pending; by rewrite (bool_decide_eq_false_2 _ Hr), andb_false_r).
  unfold releases, connections in *. rewrite !count_app. destruct Hcase as [[Hno ->]|[Hop Hq']].
  - assert (pending w = 0%nat) as Hp by (unfold pending; by rewrite (bool_decide_eq_false_2 _ Hno), andb_false_r).
    unfold count in *. simpl. lia.
  - assert (pending w = 1%nat) as Hp by (unfold pending; by rewrite (bool_decide_eq_true_2 _ Hop), Hls).
    unfold count in *. destruct Hq' as [-> | ->]; simpl; lia.
Qed.

Lemma move_inv ls fl k n X w w' : qstable X → tx_inv ls fl k n X w → tx_move w w' → tx_inv ls fl k n X w'.
Proof.
  intros HX Hinv Hm. destruct Hm as [replies connect first timer fails w|e w|w]; [exact Hinv|..].
  - unfold abort. destruct (tw_signal w); [done|].
    assert (tx_inv ls fl k n X (set_signal (Some e) w)) as Hs by exact Hinv.
    destruct (tw_listening (set_signal (Some e) w)) eqn:Hl; [|done].
    assert (ls = true) as -> by (destruct Hs as [<- _]; done). apply release_inv; [by left|done].
  - unfold late_arrival. destruct (tw_late w) as [|m]; [done|]. destruct Hinv as (Hls & Hfl & l & Hl & Hb & Hh).
    split_and!; [done..|]. set (q := LateRelease :: _). exists (l ++ q)%list.
    assert (Forall (λ e, quiet e = true) q) by (subst q; destruct (tw_releaseFails w); by repeat constructor).
    split_and!; [simpl; by rewrite Hl, app_assoc| |by apply quiet_history].
    change (pending (logged q (set_late m w))) with (pending w). unfold releases, connections in *. rewrite !count_app.
    subst q. destruct (tw_releaseFails w); unfold count in *; simpl in *; lia.
Qed.

Lemma env_inv ls fl k n X w w' : qstable X → tx_inv ls fl k n X w → tx_env w w' → tx_inv ls fl k n X w'.
Proof. intros HX Hinv Hm. induction Hm; [done|]. eauto using move_inv. Qed.

(** ** Preconditions of the steps *)

Notation wp p Q w := (wpg tx_env (λ _ _, True) p Q w).

Lemma wp_step {A} ls fl k n X (f : TxWorld → TxWorld * proc TxWorld A) Q w : qstable X → tx_inv ls fl k n X w →
  (∀ w1, tx_inv ls fl k n X w1 → wp (f w1).2 Q (f w1).1) → wp (Step f) Q w.
Proof.
  intros HX Hw Hf w1 Hm. pose proof (Hf w1 (env_inv _ _ _ _ _ _ _ HX Hw Hm)) as H. destruct (f w1). by split.
Qed.
Lemma wp_call {A} ls fl k n X (f : TxWorld → TxWorld * A) Q w : qstable X → tx_inv ls fl k n X w →
  (∀ w1, tx_inv ls fl k n X w1 → Q (f w1).2 (f w1).1) → wp (call f) Q w.
Proof.
  intros HX Hw Hf. apply wpg_call. intros w1 Hm. split; [done|]. apply Hf. by eapply env_inv.
Qed.
Lemma wp_rbind {A B} (p : proc TxWorld (res A)) (k : A → proc TxWorld (res B)) Q w :
  wp p (λ r w', match r with Ok a => wp (k a) Q w' | Err e => Q (Err e) w' end) w → wp (rbind p k) Q w.
Proof.
  intros H. apply wpg_bind. eapply wpg_mono; [|exact H]. by intros [a|e] w'.
Qed.

Lemma tx_inv_impl ls fl k n X Y w : (∀ l, history k n X l → Y l) → tx_inv ls fl k n X w → tx_inv ls fl k n Y w.
Proof.
  intros HXY (? & ? & l & ? & ? & Hh). split_and!; [done..|]. exists l. split_and!; [done..|]. pose proof (HXY l Hh). by destruct Hh.
Qed.

(** An event that is neither a release nor a connection. *)
Definition neutral (e : TxEvent) : bool := match e with Release _ | Connected => false | _ => true end.
Lemma log_inv ls fl k n X Y e w : neutral e = true → (∀ sql, e = Sent sql → permitted nt locks sql) →
  (∀ l, X l → Y (l ++ [e])%list) → tx_inv ls fl k n X w → tx_inv ls fl (k + commits [e]) (n + connectings [e]) Y (logged [e] w).
Proof.
  intros Hne Hp HXY (Hls & Hfl & l & Hl & Hb & [Hk Hn Hpl Hx]). split_and!; [done..|]. exists (l ++ [e])%list.
  split_and!; [cbn; by rewrite Hl, app_assoc| |split].
  - change (pending (logged [e] w)) with (pending w). unfold releases, connections in *. rewrite !count_app.
    destruct e; try done; unfold count in *; simpl; lia.
  - unfold commits in *. by rewrite count_app, Hk.
  - unfold connectings in *. by rewrite count_app, Hn.
  - intros sql [?|Heq%list_elem_of_singleton]%elem_of_app; [by apply Hpl|by apply Hp].
  - by apply HXY.
Qed.

(** Kept by every event but a release. *)
Definition astable (X : list TxEvent → Prop) : Prop := ∀ l e, neutral e = true → X l → X (l ++ [e])%list.
Lemma not_reused_astable : astable not_reused.
Proof. intros l e He. apply not_reused_app. by intros ->. Qed.

Lemma answer_inv ls fl k n X Y w : (∀ l r, X l → r = (answer w).2 → Y (l ++ [Answered r])%list) →
  tx_inv ls fl k n X w → tx_inv ls fl k n Y (answer w).1.
Proof.
  intros HXY Hw. assert (∃ w0, (answer w).1 = logged [Answered (answer w).2] w0 ∧ tx_inv ls fl k n X w0) as (w0 & -> & Hw0).
  { unfold answer. destruct (tw_signal w) as [e|]; [destruct (tw_first w)|]; eexists; split; try done; exact Hw. }
  rewrite <-(Nat.add_0_r k), <-(Nat.add_0_r n).
  apply (log_inv ls fl k n X Y (Answered (answer w).2)); [done..| |done]. intros l Hl. by apply HXY.
Qed.

Lemma query_spec fl fl' k n X (prepare : TxWorld → TxWorld) sql Q w : qstable X → astable X →
  sql ≠ "COMMIT" → permitted nt locks sql → (∀ w, tx_inv true fl k n X w → tx_inv true fl' k n X (prepare w)) →
  tx_inv true fl k n X w → (∀ r w', tx_inv true fl' k n X w' → Q r w') → wp (query_after prepare sql) Q w.
Proof.
  intros HX Ha Hne Hp Hprep Hw HQ. apply (wp_step true fl k n X); [done..|]. intros w1 Hw1%Hprep. cbn zeta.
  destruct (tw_signal (prepare w1)); [by apply HQ|]. cbn [fst snd].
  assert (tx_inv true fl' k n X (logged [Sent sql] (prepare w1))) as Hw2.
  { pose proof (log_inv true fl' k n X X (Sent sql) (prepare w1) eq_refl) as Hlog.
    replace (k + commits [Sent sql])%nat with k in Hlog by (unfold commits, count; simpl; rewrite bool_decide_eq_false_2 by done; simpl; lia).
    replace (n + connectings [Sent sql])%nat with n in Hlog by (unfold connectings, count; simpl; lia).
    apply Hlog; [by intros ? [= <-]|intros l; by apply Ha|done]. }
  apply (wp_call true fl' k n X); [done..|]. intros w3 Hw3. apply HQ. eapply answer_inv; [|done]. intros l r Hl _. by apply Ha.
Qed.

Ltac stable := eauto using not_reused_qstable, not_reused_astable, answered_qstable, open_commit_qstable, qstable_and.

(** The answer to the COMMIT. *)
Definition commit_answer (n : nat) (r : res NodePostgresResult) (w : TxWorld) : Prop := ∃ k, (k <= 1)%nat ∧
  tx_inv true (true, false, false) k n (λ l, not_reused l ∧ ∀ a c, r = Ok a → rs_command a = Some c → answered_with c l) w.

Lemma commit_spec n Q w : tx_inv true (false, false, false) 0 n not_reused w →
  (∀ r w', commit_answer n r w' → Q r w') → wp (query_after dispatched "COMMIT") Q w.
Proof.
  intros Hw HQ. apply (wp_step true (false, false, false) 0 n not_reused); [stable|done|].
  intros w1 Hw1. cbn zeta. assert (tx_inv true (true, false, false) 0 n not_reused (dispatched w1)) as Hd.
  { destruct Hw1 as (Hls & [= Hf1 Hf2 Hf3] & Hl). split_and!; [done| |exact Hl]. unfold flags, dispatched. cbn. by rewrite Hf2, Hf3. }
  destruct (tw_signal (dispatched w1)) as [e|]; cbn [fst snd].
  { apply HQ. exists 0%nat. split; [lia|]. eapply tx_inv_impl; [|exact Hd]. intros l Hl. by split; [destruct Hl|]. }
  pose proof (log_inv true (true, false, false) 0 n not_reused (λ l, not_reused l ∧ open_commit l) (Sent "COMMIT") (dispatched w1) eq_refl) as Hlog.
  replace (0 + commits [Sent "COMMIT"])%nat with 1%nat in Hlog by done. replace (n + connectings [Sent "COMMIT"])%nat with n in Hlog by (cbn; lia).
  apply (wp_call true (true, false, false) 1 n (λ l, not_reused l ∧ open_commit l)); [stable|apply Hlog|].
  - intros ? [= <-]. left. unfold control_sql. by left.
  - intros l Hl. split; [by apply not_reused_astable|]. by exists l, [].
  - done.
  - intros w3 Hw3. apply HQ. exists 1%nat. split; [done|]. eapply answer_inv; [|exact Hw3].
    intros l r [Hnr Ho] ->. split; [by apply not_reused_astable|]. intros a c -> Hc. by eapply open_commit_answered.
Qed.

(** The [try] block ends in one of the states [catch] tells apart. *)
Definition committed_inv (n : nat) (w : TxWorld) : Prop := ∃ k, (k <= 1)%nat ∧ tx_inv true (true, true, false) k n (answered_with "COMMIT") w.
Definition failed_inv (n : nat) (e : TxError) (w : TxWorld) : Prop :=
  tx_inv true (false, false, false) 0 n not_reused w ∨
  (∃ k, (k <= 1)%nat ∧ tx_inv true (true, false, false) k n not_reused w) ∨
  (∃ k, (k <= 1)%nat ∧ tx_inv true (true, false, true) k n (λ l, not_reused l ∧ answered_with "ROLLBACK" l) w ∧ error_code e = None) ∨
  (committed_inv n w ∧ ∃ msg cause, e = PostCommitReleaseError msg cause).
Definition tried_inv {T} (n : nat) (r : res T) (w : TxWorld) : Prop :=
  match r with Ok _ => committed_inv n w | Err e => failed_inv n e w end.

Lemma release_committed d n w : committed_inv n w → committed_inv n (terminalRelease d w).
Proof. intros (k & ? & Hw). exists k. split; [done|]. apply release_inv; [right; intros; by apply answered_app|done]. Qed.

Lemma check_res_wp ok msg Q w : (ok = true → Q (Ok tt) w) → (∀ e, error_code e = None → Q (Err e) w) → wp (check_res ok msg) Q w.
Proof. intros H1 H2. unfold check_res. destruct ok; [by apply H1|by apply H2]. Qed.

Lemma commit_and_release_spec {T} (v : T) n Q w : tx_inv true (false, false, false) 0 n not_reused w →
  (∀ r w', tried_inv n r w' → Q r w') → wp (commit_and_release v) Q w.
Proof.
  intros Hw HQ. apply wp_rbind, (commit_spec n); [done|]. intros [a|e] w1 (k & Hk & H1).
  2: { apply HQ. right; left. exists k. split; [done|]. eapply tx_inv_impl; [|exact H1]. by intros l [_ _ _ [? _]]. }
  unfold command_is. destruct (decide (rs_command a = Some "COMMIT")) as [Hc|Hc].
  - rewrite bool_decide_eq_true_2 by done.
    assert (tx_inv true (true, false, false) k n (answered_with "COMMIT") w1) as H1'.
    { eapply tx_inv_impl; [|exact H1]. intros l [_ _ _ [_ Ha]]. by eapply Ha. }
    apply wpg_bind. eapply (query_spec (true, false, false) (true, true, false) k n (answered_with "COMMIT")); [stable| |done| | |done|].
    + intros l e _. apply answered_app.
    + left. unfold control_sql. set_solver.
    + intros w2 (Hls & [= Hf1 Hf2 Hf3] & Hl). split_and!; [done| |exact Hl]. unfold flags. cbn. by rewrite Hf1, Hf3.
    + intros r w2 H2. assert (committed_inv n w2) as Hcm by (by exists k).
      assert (∀ f (Q' : unit → TxWorld → Prop), (∀ w3, committed_inv n w3 → Q' tt (f w3)) → wp (update f) Q' w2) as Hup.
      { intros f Q' HQ'. apply (wp_call true (true, true, false) k n (answered_with "COMMIT")); [stable|done|]. intros w3 H3. apply HQ'. by exists k. }
      destruct r as [r|e]; [case_bool_decide as Hd|].
      * apply (wp_call true (true, true, false) k n (answered_with "COMMIT")); [stable|done|]. intros w3 H3. apply HQ. cbn [fst snd].
        assert (committed_inv n (terminalRelease false w3)) by (apply release_committed; by exists k).
        case_decide; [right; right; right; split; [done|by eexists _, _]|done].
      * apply wpg_bind, Hup. intros w3 H3. apply HQ. right; right; right. split; [by apply release_committed|by eexists _, _].
      * apply wpg_bind, Hup. intros w3 H3. apply HQ. right; right; right. split; [by apply release_committed|by eexists _, _].
  - rewrite bool_decide_eq_false_2 by done.
    apply wpg_bind, (wp_call true (true, false, false) k n (λ l, not_reused l ∧ ∀ a' c, Ok a = Ok a' → rs_command a' = Some c → answered_with c l)).
    + apply qstable_and; [stable|]. intros l q Hq Ha a' c Heq Hc'. apply answered_app. by eapply Ha.
    + exact H1.
    + intros w2 H2. apply HQ. cbn [fst snd]. case_bool_decide as Hr.
      * right; right; left. exists k. split_and!; [done| |done].
        eapply (tx_inv_impl _ _ _ _ (λ l, not_reused l ∧ ∀ a' c, Ok a = Ok a' → rs_command a' = Some c → answered_with c l)).
        { intros l [_ _ _ [? Ha]]. split; [done|]. by eapply Ha. }
        destruct H2 as (Hls & [= Hf1 Hf2 Hf3] & Hl). split_and!; [done| |exact Hl]. unfold flags. cbn. by rewrite Hf1, Hf2.
      * right; left. exists k. split; [done|].
        eapply (tx_inv_impl _ _ _ _ (λ l, not_reused l ∧ ∀ a' c, Ok a = Ok a' → rs_command a' = Some c → answered_with c l)).
        { by intros l [_ _ _ [? _]]. }
        destruct H2 as (Hls & [= Hf1 Hf2 Hf3] & Hl). split_and!; [done| |exact Hl]. unfold flags. cbn. by rewrite Hf1, Hf2.
Qed.

(** Before the COMMIT. *)
Definition clean_inv (n : nat) (w : TxWorld) : Prop := tx_inv true (false, false, false) 0 n not_reused w.

Lemma plain_query n sql Q w : sql ≠ "COMMIT" → permitted nt locks sql → clean_inv n w →
  (∀ r w', clean_inv n w' → Q r w') → wp (query sql) Q w.
Proof. intros. eapply (query_spec (false, false, false) (false, false, false) 0 n not_reused); stable. Qed.
Lemma plain_call {A} n (f : TxWorld → TxWorld * A) Q w : clean_inv n w → (∀ w1, clean_inv n w1 → Q (f w1).2 (f w1).1) → wp (call f) Q w.
Proof. intros. eapply (wp_call true (false, false, false) 0 n not_reused); stable. Qed.

Lemma accepted_not_commit sql : assertExecutorStatement sql = Ret tt → sql ≠ "COMMIT".
Proof. intros H ->. by vm_compute in H. Qed.
Lemma control_permitted sql : sql ∈ control_sql nt locks → permitted nt locks sql.
Proof. by left. Qed.

(** The callback sends accepted statements only. *)
Lemma run_callback_spec {T} (b : callback T) n Q w : clean_inv n w → (∀ r w', clean_inv n w' → Q r w') → wp (run_callback b) Q w.
Proof.
  intros Hw HQ. revert w Hw. induction b as [r|sql params k IH]; intros w Hw; cbn [run_callback].
  all: apply wpg_bind; refine (plain_call n _ _ w Hw _); intros w1 H1; cbn [fst snd]; destruct (lost_race w1); [by apply HQ|].
  - by apply HQ.
  - destruct (assertExecutorStatement sql) as [[]|e] eqn:Ha; [|by apply IH].
    apply wpg_bind, (plain_query n); [by apply accepted_not_commit|by right|done|]. intros r w2 H2. by apply IH.
Qed.

Ltac in_control := apply control_permitted; unfold control_sql; set_solver.

Lemma set_up_spec n Q w : clean_inv n w → (∀ r w', clean_inv n w' → Q r w') → wp (set_up nt locks) Q w.
Proof.
  intros Hw HQ. unfold set_up. apply wp_rbind.
  assert (∀ w1, clean_inv n w1 → wp (let# check := query TIMEOUT_SQL in
      check_res (command_is check "SELECT" && bool_decide (cell check "statement_timeout_ms" = JStr (z_to_string (nt_statementTimeoutMs nt))))%bool
        "PostgreSQL statement_timeout setup was not confirmed") Q w1) as Hrest.
  { intros w1 H1. apply wp_rbind, (plain_query n); [done|in_control|done|].
    intros [a|e] w2 H2; [|by apply HQ]. apply check_res_wp; intros; by apply HQ. }
  destruct locks as [l|] eqn:Hlocks.
  - apply wp_rbind, (plain_query n); [by intros [=]|apply control_permitted; rewrite Hlocks; unfold control_sql; set_solver|done|].
    intros [a|e] w1 H1; [|by apply HQ]. apply wp_rbind, check_res_wp; intros; [|by apply HQ].
    apply wp_rbind, (plain_query n); [by intros [=]|apply control_permitted; rewrite Hlocks; unfold control_sql; set_solver|done|].
    intros [b|e] w2 H2; [|by apply HQ]. apply check_res_wp; intros; [by apply Hrest|by apply HQ].
  - apply wp_rbind, (plain_query n); [done|apply control_permitted; rewrite Hlocks; unfold control_sql; set_solver|done|].
    intros [a|e] w1 H1; [|by apply HQ]. apply check_res_wp; intros; [by apply Hrest|by apply HQ].
Qed.

Lemma try_block_spec {T} (fn : callback T) n Q w : clean_inv n w → (∀ r w', tried_inv n r w' → Q r w') → wp (try_block nt fn locks) Q w.
Proof.
  intros Hw HQ. assert (∀ e w', clean_inv n w' → Q (Err e) w') as Herr by (intros e w' H; apply HQ; by left).
  unfold try_block. apply wp_rbind, (plain_query n); [done|in_control|done|].
  intros [a|e] w1 H1; [|by apply Herr]. apply wp_rbind, check_res_wp; intros; [|by apply Herr].
  apply wp_rbind, (set_up_spec n); [done|]. intros [[]|e] w2 H2; [|by apply Herr].
  apply wp_rbind, (plain_query n); [done|in_control|done|].
  intros [b|e] w3 H3; [|by apply Herr]. apply wp_rbind, check_res_wp; intros; [|by apply Herr].
  apply wp_rbind, (run_callback_spec fn n); [done|]. intros [v|e] w4 H4; [|by apply Herr].
  apply wp_rbind, (plain_query n); [done|in_control|done|].
  intros [c|e] w5 H5; [|by apply Herr]. destruct (same_txid c b).
  - by apply (commit_and_release_spec v n).
  - apply wpg_bind, (plain_call n); [done|]. intros w6 H6. apply HQ. right; left. exists 0%nat. split; [lia|].
    destruct H6 as (Hls & [= Hf1 Hf2 Hf3] & Hl). split_and!; [done| |exact Hl]. unfold flags. cbn. by rewrite Hf2, Hf3.
Qed.

(** ** An attempt ends *)

(** After the attempt nothing is pending; what its outcome says holds. *)
Definition ended_inv {T} (n : nat) (r : res T) (w : TxWorld) : Prop := ∃ fl k, (k <= 1)%nat ∧ tx_inv false fl k n (outcome_of r) w.

Lemma outcome_qstable {T} (r : res T) : qstable (outcome_of r).
Proof.
  intros l q Hq. destruct r as [v|e]; simpl; [by apply answered_qstable|].
  intros [[Hc Hn]|[(Ha & He & Hn)|[[Hn He]|[Ha He]]]].
  - left. split; [|by apply not_reused_qstable]. unfold commits in *. rewrite count_app, Hc. unfold count.
    induction Hq as [|[] q Hx _ IH]; simpl in *; try done.
  - right; left. split_and!; [by apply answered_app|done|by apply not_reused_qstable].
  - right; right; left. split; [by apply not_reused_qstable|done].
  - right; right; right. split; [by apply answered_app|done].
Qed.

Lemma closing_inv fl k n X w : qstable X → tx_inv true fl k n X w → tx_inv false fl k n X (closing w).
Proof.
  intros HX Hw. replace (closing w) with (set_listening false (destroy_client w)).
  2: { unfold closing, destroy_client, terminalRelease. cbn. destruct (tw_release w); [|done..]. by destruct (tw_releaseFails w). }
  destruct (release_inv true fl k n X w) as [(Hls & Hfl & l & Hl & Hb & Hh) Hr]; [by left|done|].
  split_and!; [done|done|]. exists l. split_and!; [done| |done]. unfold pending in *. cbn.
  change (tw_release (destroy_client w)) with (tw_release (terminalRelease true w)).
  rewrite (bool_decide_eq_false_2 _ Hr), andb_false_r in Hb. done.
Qed.

Lemma catch_block_spec {T} n e (Q : res T → TxWorld → Prop) w : failed_inv n e w →
  (∀ e' k fl w', (k <= 1)%nat → tx_inv true fl k n (outcome_of (Err e' : res T)) w' → Q (Err e') w') → wp (catch_block e) Q w.
Proof.
  intros Hw HQ. unfold catch_block.
  assert (∀ fl k X, qstable X → (k <= 1)%nat → tx_inv true fl k n X w → (fl.1.1 || fl.1.2 = true)%bool →
    (∀ w', tx_inv true fl k n X w' → ∀ l, history k n X l → outcome_of (Err (outcome_error e w') : res T) l) →
    wp (catch_block (T := T) e) Q w) as Hdone.
  { intros fl k X HX Hk HwX Hfl Hout. apply wpg_bind, (wp_call true fl k n X); [done..|]. intros w1 H1.
    assert ((negb (tw_committed w1) && negb (tw_commitDispatched w1) && bool_decide (tw_release w1 = Open))%bool = false) as ->.
    { destruct H1 as (_ & <- & _). unfold flags in Hfl. cbn in Hfl. by destruct (tw_committed w1), (tw_commitDispatched w1). }
    apply (wp_call true fl k n X); [done..|]. intros w2 H2. cbn [fst snd].
    destruct (release_inv true fl k n X w2) as [H3 _]; [by left|done|]. eapply HQ; [exact Hk|].
    eapply tx_inv_impl; [|exact H3]. by apply Hout. }
  destruct Hw as [Hw|[(k & Hk & Hw)|[(k & Hk & Hw & He)|[(k & Hk & Hw) (msg & cause & ->)]]]].
  - apply wpg_bind, (plain_call n); [done|]. intros w1 H1.
    assert (∀ w2, clean_inv n w2 → wp (call (λ w, let w := destroy_client w in (w, Err (outcome_error e w) : res T))) Q w2) as Hend.
    { intros w2 H2. apply (plain_call n); [done|]. intros w3 H3. cbn [fst snd].
      destruct (release_inv true (false, false, false) 0 n not_reused w3) as [H4 _]; [left; by split; [|stable]|done|].
      eapply (HQ _ 0%nat); [lia|]. eapply tx_inv_impl; [|exact H4]. intros l [Hc _ _ Hn]. by left. }
    destruct (_ && _)%bool; cbn [fst snd]; apply Hend; [|done].
    pose proof (log_inv true (false, false, false) 0 n not_reused not_reused (Sent "ROLLBACK") w1 eq_refl) as Hlog.
    replace (n + connectings [Sent "ROLLBACK"])%nat with n in Hlog by (cbn; lia). apply Hlog; [|intros l; by apply not_reused_astable|done].
    intros ? [= <-]. left. unfold control_sql. set_solver.
  - apply (Hdone (true, false, false) k not_reused); [stable|done|done|done|]. intros w' (_ & [= Hf1 Hf2 Hf3] & _) l [_ _ _ Hn].
    unfold outcome_error. rewrite Hf1, Hf2, Hf3. cbn. right; right; left. by eauto.
  - apply (Hdone (true, false, true) k (λ l, not_reused l ∧ answered_with "ROLLBACK" l)); [stable|done|done|done|].
    intros w' (_ & [= Hf1 Hf2 Hf3] & _) l [_ _ _ [Hn Ha]]. unfold outcome_error. rewrite Hf1, Hf2, Hf3. cbn.
    right; left. split_and!; [done| |done]. by destruct (tw_disposalError w').
  - apply (Hdone (true, true, false) k (answered_with "COMMIT")); [stable|done|done|done|].
    intros w' (_ & [= Hf1 Hf2 Hf3] & _) l [_ _ _ Ha]. unfold outcome_error. rewrite Hf1, Hf2, Hf3. cbn.
    right; right; right. split; [done|]. exists msg, cause. by destruct (tw_disposalError w').
Qed.

Lemma acquire_spec fl n Q w : tx_inv false fl 0 n not_reused w → (∀ r w', tx_inv false fl 0 (S n) not_reused w' → Q r w') → wp acquire Q w.
Proof.
  intros Hw HQ. apply wpg_bind, (wp_call false fl 0 n not_reused); [stable|done|]. intros w1 H1. cbn [fst snd].
  pose proof (log_inv false fl 0 n not_reused not_reused Connecting w1 eq_refl) as Hlog.
  replace (0 + commits [Connecting])%nat with 0%nat in Hlog by done. replace (n + connectings [Connecting])%nat with (S n) in Hlog by (cbn; lia).
  apply (wp_call false fl 0 (S n) not_reused); [stable|apply Hlog; [done|intros l; by apply not_reused_astable|done]|].
  intros w2 H2. assert (∀ m, tx_inv false fl 0 (S n) not_reused (set_late m w2)) as Hlate by (intros m; exact H2).
  destruct (tw_first w2); [|by apply HQ].
  destruct (tw_signal w2); [destruct (tw_timer w2)|]; destruct (tw_connect w2); apply HQ; try done; apply Hlate.
Qed.

Lemma opened_inv fl n w : tx_inv false fl 0 n not_reused w → clean_inv n (opened w).
Proof.
  intros (Hls & _ & l & Hl & Hb & [Hk Hn Hp Hx]). split_and!; [done..|]. exists (l ++ [Connected])%list.
  split_and!; [cbn; by rewrite Hl, app_assoc| |split].
  - unfold pending in *. rewrite Hls in Hb. cbn in Hb |- *. unfold releases, connections in *. rewrite !count_app. unfold count in *. simpl. lia.
  - unfold commits in *. by rewrite count_app, Hk.
  - unfold connectings in *. rewrite count_app, Hn. unfold count. simpl. lia.
  - intros sql [?|Heq%list_elem_of_singleton]%elem_of_app; [by apply Hp|done].
  - by apply not_reused_app.
Qed.

Lemma runOnce_spec {T} (fn : callback T) fl n Q w : tx_inv false fl 0 n not_reused w →
  (∀ r w', ended_inv (S n) r w' → Q r w') → wp (runOnce nt fn locks) Q w.
Proof.
  intros Hw HQ. apply wp_rbind, (acquire_spec fl n); [done|]. intros [[]|e] w1 H1.
  2: { apply HQ. exists fl, 0%nat. split; [lia|]. eapply tx_inv_impl; [|exact H1]. intros l [? _ _ ?]. by left. }
  apply wpg_bind, (wp_call false fl 0 (S n) not_reused); [stable|done|]. intros w2 H2%opened_inv. cbn [fst snd].
  apply wpg_bind, (try_block_spec fn (S n)); [done|]. intros r w3 H3.
  assert (∀ (r : res T) fl k w', (k <= 1)%nat → tx_inv true fl k (S n) (outcome_of r) w' →
    wp (let* _ := update closing in Done r) Q w') as Hend.
  { intros r' fl' k w' Hk H'. apply wpg_bind, (wp_call true fl' k (S n) (outcome_of r')); [apply outcome_qstable|done|].
    intros w4 H4. apply HQ. exists fl', k. split; [done|]. apply closing_inv; [apply outcome_qstable|done]. }
  apply wpg_bind. destruct r as [v|e].
  - destruct H3 as (k & Hk & H3). by eapply (Hend (Ok v)).
  - apply (catch_block_spec (S n) e); [done|]. intros e' k fl' w' Hk H'. by eapply Hend.
Qed.

Lemma retryable_clean {T} e k n l : retryable e = true → history k n (outcome_of (Err e : res T)) l → k = 0%nat ∧ not_reused l.
Proof.
  unfold retryable. intros Hr [Hk _ _ [[Hc Hn]|[(_ & He & _)|[[_ (c & ->)]|[_ (m & c & ->)]]]]]; [by split; [congruence|]|by rewrite He in Hr|done..].
Qed.

Lemma attempts_spec {T} (fn : callback T) budget attempt fl n w : tx_inv false fl 0 n not_reused w →
  wp (attempts nt fn locks budget attempt) (λ r w', ∃ m, (m <= n + S budget)%nat ∧ ended_inv m r w') w.
Proof.
  revert attempt fl n w. induction budget as [|budget IH]; intros attempt fl n w Hw.
  all: apply wpg_bind, (wp_call false fl 0 n not_reused); [stable|done|]; intros w1 H1; cbn [fst snd];
    destruct (tw_signal w1) as [e|].
  all: try (exists n; split; [lia|]; exists fl, 0%nat; split; [lia|]; eapply tx_inv_impl; [|exact H1]; intros l [? _ _ ?]; by left).
  all: apply wpg_bind, (runOnce_spec fn fl n); [done|]; intros [v|e] w2 (fl2 & k & Hk & H2);
    [by exists (S n); split; [lia|]; exists fl2, k|].
  all: apply wpg_bind, (wp_call false fl2 k (S n) (outcome_of (Err e : res T))); [apply outcome_qstable|done|]; intros w3 H3; cbn [fst snd].
  { exists (S n). split; [lia|]. by exists fl2, k. }
  destruct (tw_signal w3); [exists (S n); split; [lia|]; by exists fl2, k|].
  destruct (retryable e) eqn:Hr; [|exists (S n); split; [lia|]; by exists fl2, k].
  assert (k = 0%nat) as ->. { destruct H3 as (_ & _ & l & _ & _ & Hh). by destruct (retryable_clean e k (S n) l Hr Hh). }
  assert (tx_inv false fl2 0 (S n) not_reused w3) as H3'.
  { eapply tx_inv_impl; [|exact H3]. intros l Hh. by destruct (retryable_clean e 0 (S n) l Hr Hh). }
  assert (∀ e' w', tx_inv false fl2 0 (S n) not_reused w' → ∃ m, (m <= n + S (S budget))%nat ∧ ended_inv m (Err e' : res T) w') as Hstop.
  { intros e' w' H'. exists (S n). split; [lia|]. exists fl2, 0%nat. split; [lia|]. eapply tx_inv_impl; [|exact H']. intros l [? _ _ ?]. by left. }
  apply wp_rbind, (wp_step false fl2 0 (S n) not_reused); [stable|done|]. intros w4 H4.
  destruct (tw_signal w4) as [e'|]; cbn [fst snd]; [by apply Hstop|].
  pose proof (log_inv false fl2 0 (S n) not_reused not_reused (Slept (retry_delay nt attempt)) w4 eq_refl) as Hlog.
  replace (S n + connectings [Slept (retry_delay nt attempt)])%nat with (S n) in Hlog by (cbn; lia).
  apply (wp_call false fl2 0 (S n) not_reused); [stable|apply Hlog; [done|intros l; by apply not_reused_astable|done]|].
  intros w5 H5. cbn [fst snd]. destruct (lost_race w5) as [e'|]; [by apply Hstop|].
  eapply wpg_mono; [|by apply (IH (S attempt) fl2 (S n))]. intros r w' (m & Hm & He). exists m. split; [lia|done].
Qed.
End outcome.

(** An error that claims nothing was committed. *)
Definition plain_error {T} (r : res T) : Prop :=
  ∃ e, r = Err e ∧ (∀ cause, e ≠ AmbiguousCommitError cause) ∧ ∀ msg cause, e ≠ PostCommitReleaseError msg cause.
(** [ends sql]: the server ends the transaction with a commit on the text [sql].
    The adapter's own COMMIT does, its other statements do not, and neither do the
    statements of the callback that were sent; [escape_string] is a statement that
    the scanner accepts and that may break the last part. *)
Record ends_rightly (ends : string → Prop) nt locks (l : list TxEvent) : Prop := {
  er_control sql : sql ∈ control_sql nt locks → ends sql → sql = "COMMIT";
  er_callback sql : Sent sql ∈ l → assertExecutorStatement sql = Ret tt → ¬ ends sql;
}.
(** Nothing was committed: no statement that commits was sent, or the one that was
    got the answer ROLLBACK. *)
Definition nothing_committed (ends : string → Prop) (l : list TxEvent) : Prop :=
  (∀ sql, Sent sql ∈ l → ¬ ends sql) ∨
  (answered_with "ROLLBACK" l ∧ (commits l <= 1)%nat ∧ ∀ sql, Sent sql ∈ l → ends sql → sql = "COMMIT").

Lemma sent_commit_counted l : Sent "COMMIT" ∈ l → commits l ≠ 0%nat.
Proof.
  intros (l1 & l2 & ->)%list_elem_of_split. unfold commits. rewrite count_app. unfold count. cbn [List.filter].
  rewrite bool_decide_eq_true_2 by done. simpl. lia.
Qed.

Lemma plain_error_clean {T} (r : res T) ends nt locks l : outcome_of r l → all_permitted nt locks l → (commits l <= 1)%nat →
  ends_rightly ends nt locks l → plain_error r → nothing_committed ends l.
Proof.
  intros Ho Hp Hc [H1 H2] (e & -> & Ha & Hpc).
  assert (∀ sql, Sent sql ∈ l → ends sql → sql = "COMMIT") as Honly.
  { intros sql Hs He. destruct (Hp sql Hs) as [Hctl|Hok]; [by apply H1|by destruct (H2 sql Hs Hok)]. }
  destruct Ho as [[H0 _]|[(Hr & _)|[(_ & cause & ->)|(_ & msg & cause & ->)]]]; [|by right|by destruct (Ha cause)|by destruct (Hpc msg cause)].
  left. intros sql Hs He. rewrite (Honly sql Hs He) in Hs. by apply sent_commit_counted in Hs.
Qed.

(** C26 Whatever the server, the pool, the deadline and the caller do: a
    transaction dispatches at most one COMMIT of its own, makes at most one attempt
    more than its retries, sends nothing but its own control statements and
    statements the scanner accepted, and gives every connection back once.  It
    returns a value only after the server confirmed the COMMIT; after an error other
    than [AmbiguousCommitError] and [PostCommitReleaseError] no COMMIT of its own was
    sent, or the server answered it with ROLLBACK -- and nothing at all was
    committed, if no statement that the callback had accepted and sent ends the
    transaction by itself; and only a committed transaction's connection goes back to
    the pool. *)
Theorem transaction_outcome {T} nt (fn : callback T) locks caller w tr w' r : tw_listening w = false →
  exec tx_env (runTransaction nt fn locks caller) w tr w' r →
  ∃ l, tw_log w' = (tw_log w ++ l)%list ∧ (commits l <= 1)%nat ∧ (connectings l <= S (Z.to_nat (nt_maxSerializationRetries nt)))%nat ∧
    all_permitted nt locks l ∧ releases l = connections l ∧ outcome_of r l ∧
    ∀ ends, ends_rightly ends nt locks l → plain_error r → nothing_committed ends l.
Proof.
  intros Hls Hex. assert (tx_inv nt locks (tw_log w) false (flags w) 0 0 not_reused w) as Hw.
  { split_and!; [done..|]. exists []. unfold pending. rewrite Hls. split_and!; [by rewrite app_nil_r|done|].
    split; [done|done|intros ? ?%elem_of_nil; done|intros ?%elem_of_nil; done]. }
  assert (wpg tx_env (λ _ _, True) (runTransaction nt fn locks caller)
    (λ r w', ∃ m, (m <= S (Z.to_nat (nt_maxSerializationRetries nt)))%nat ∧ ended_inv nt locks (tw_log w) m r w') w) as Hwp.
  { apply wpg_bind, (wp_call nt locks (tw_log w) false (flags w) 0 0 not_reused); [apply not_reused_qstable|done|].
    intros w1 H1. cbn [fst snd]. apply (attempts_spec nt locks (tw_log w) fn _ _ (flags w) 0).
    destruct H1 as (Hls1 & Hfl & l & Hl & Hb & Hh). split_and!; [done..|]. exists l. split_and!; [done| |done].
    unfold pending in *. rewrite Hls1 in Hb. exact Hb. }
  destruct (wpg_exec _ _ _ _ _ _ _ _ Hwp Hex) as [(m & Hm & fl & k & Hk & Hls' & _ & l & Hl & Hb & [Hc Hn Hp Ho]) _].
  exists l. split_and!; [done|by rewrite Hc|lia|done| |done|].
  2: { intros ends. apply plain_error_clean; [done|done|by rewrite Hc]. }
  unfold pending in Hb. rewrite Hls' in Hb. simpl in Hb. lia.
Qed.

(** ** Runs *)

Definition reply (command : string) (rows : list Row) : res NodePostgresResult := Ok (mkResult rows (Some (Z.of_nat (length rows))) (Some command)).
Definition begun : list (res NodePostgresResult) :=
  [reply "BEGIN" []; reply "SELECT" [[("statement_timeout", JStr "30s")]]; reply "SELECT" [[("statement_timeout_ms", JStr "30000")]];
   reply "SELECT" [[("txid", JStr "7")]]].
Definition committing : list (res NodePostgresResult) := [reply "SELECT" [[("txid", JStr "7")]]; reply "COMMIT" []; reply "DISCARD" []].
Definition tx_world (replies : list (res NodePostgresResult)) : TxWorld :=
  mkTx None false Open None false false false 0 replies (Ok tt) false false None [].
Definition demo_transactor (retries : Z) : NodePostgresTransactor := mkTransactor 30000 35000 5000 1000 retries 10.
Definition demo_callback : callback Z := Query "UPDATE t SET x = 1" [] (λ r, Return (match r with Ok x => Ok (ex_rowCount x) | Err e => Err e end)).
Definition demo_run (retries : Z) (fn : callback Z) (replies : list (res NodePostgresResult)) : TxWorld * res Z :=
  run (runTransaction (demo_transactor retries) fn None None) (tx_world replies).

Example commits_and_returns : let (w, r) := demo_run 0 demo_callback (begun ++ [Ok (mkResult [] (Some 3%Z) (Some "UPDATE"))] ++ committing) in
  r = Ok 3%Z ∧ last (tw_log w) = Some (Release false).
Proof. by vm_compute. Qed.

(** A serialization failure of a statement is retried, on another connection. *)
Definition serialization : res NodePostgresResult := Err (DriverError (Some "40001") "could not serialize access").
Example statement_failure_retried :
  (demo_run 1 demo_callback (begun ++ [serialization])).2 = Err (DriverError None "connection terminated") ∧
  (demo_run 1 demo_callback (begun ++ [serialization] ++ begun ++ [reply "UPDATE" []] ++ committing)).2 = Ok 0%Z.
Proof. by vm_compute. Qed.

(** One that the server reports at COMMIT, where it has rolled back for certain, is
    called ambiguous and is not retried. *)
Theorem commit_failure_not_retried :
  let (w, r) := demo_run 3 demo_callback (begun ++ [reply "UPDATE" []; reply "SELECT" [[("txid", JStr "7")]]; serialization]) in
  r = Err (AmbiguousCommitError (DriverError (Some "40001") "could not serialize access")) ∧ connectings (tw_log w) = 1%nat.
Proof. by vm_compute. Qed.

(** A statement with a hidden COMMIT is sent; when the callback fails afterwards,
    the continuity of the transaction is not looked at and the caller gets the
    callback's error, as after a rollback. *)
Definition escaping_callback : callback Z := Query escape_string [] (λ _, Return (fail "rejected by the application")).
Theorem escaped_commit_unreported :
  let (w, r) := demo_run 0 escaping_callback (begun ++ [reply "SELECT" []]) in
  r = fail "rejected by the application" ∧ Sent escape_string ∈ tw_log w ∧ last (tw_log w) = Some (Release true).
Proof. vm_compute. split_and!; [done| |done]. repeat first [apply list_elem_of_here | apply list_elem_of_further]. Qed.

(** [transaction_outcome] at a transaction that is retried once and commits. *)
Lemma transaction_outcome_witness : ∃ tr w',
  exec tx_env (runTransaction (demo_transactor 1) demo_callback None None)
    (tx_world (begun ++ [serialization] ++ begun ++ [reply "UPDATE" []] ++ committing)) tr w' (Ok 0%Z) ∧
  ∃ l, tw_log w' = l ∧ commits l = 1%nat ∧ (connectings l <= 2)%nat ∧ answered_with "COMMIT" l.
Proof.
  set (w := tx_world (begun ++ [serialization] ++ begun ++ [reply "UPDATE" []] ++ committing)).
  destruct (run_exec (runTransaction (demo_transactor 1) demo_callback None None) w) as [tr Htr].
  assert (exec tx_env (runTransaction (demo_transactor 1) demo_callback None None) w tr
    (run (runTransaction (demo_transactor 1) demo_callback None None) w).1 (Ok 0%Z)) as Hex.
  { eapply (exec_mono eq); [by intros w1 w2 <-; apply rtc_refl|].
    replace (Ok 0%Z) with (run (runTransaction (demo_transactor 1) demo_callback None None) w).2 by (vm_compute; reflexivity). exact Htr. }
  exists tr, (run (runTransaction (demo_transactor 1) demo_callback None None) w).1. split; [exact Hex|].
  destruct (transaction_outcome (demo_transactor 1) demo_callback None None w tr _ (Ok 0%Z) eq_refl Hex) as (l & Hl & _ & Hn & _ & _ & Ho & _).
  exists l. split; [exact Hl|]. split; [|split; [exact Hn|exact Ho]].
  replace l with (tw_log (run (runTransaction (demo_transactor 1) demo_callback None None) w).1) by (rewrite Hl; reflexivity).
  vm_compute. reflexivity.
Defined.

(** The delays between the attempts grow up to a second. *)
Lemma retry_delay_bound nt attempt : (0 <= nt_retryBaseDelayMs nt)%Z → (0 <= retry_delay nt attempt <= 1000)%Z.
Proof. unfold retry_delay. intros ?. assert (0 <= 2 ^ Z.of_nat attempt)%Z by (apply Z.pow_nonneg; lia). nia. Qed.

(** A transactor is made of timers the platform has. *)
Lemma transactor_bounds o nt : NodePostgresTransactor_new o = Ret nt →
  (1 <= nt_statementTimeoutMs nt <= MAX_TIMER_MS)%Z ∧ (1 <= nt_transactionTimeoutMs nt <= MAX_TIMER_MS)%Z ∧
  (0 <= nt_maxSerializationRetries nt <= 100)%Z ∧ (1 <= nt_retryBaseDelayMs nt <= 1000)%Z.
Proof.
  assert (∀ v label lo hi z, boundedInteger v label lo hi = Ret z → (lo <= z <= hi)%Z) as Hb.
  { intros v label lo hi z. unfold boundedInteger. destruct (num_safe_int v); [|done]. do 2 case_bool_decide; intros [= <-]; lia. }
  unfold NodePostgresTransactor_new.
  intros (a & Ha & (b & Hb' & (c & _ & (d & _ & (r & Hr & (e & He & [= <-])%exc_bind_Ret)%exc_bind_Ret)%exc_bind_Ret)%exc_bind_Ret)%exc_bind_Ret)%exc_bind_Ret.
  cbn. apply Hb in Ha, Hb', Hr, He. lia.
Qed.
