(* ===== verification/OutboxCanon.v ===== *)
(** * The canonical form of the outbox contract, against its reference

    [jcs_canonicalize] walks a value and pushes pieces of text under four running
    bounds.  The reference is the JSON text of the value with sorted keys
    ([stringify (jsorted v)]): the walk returns exactly that text, and it returns
    exactly when the value is within the bounds ([jcs_ok], [jnodes], bytes). *)

From S2P Require Import Prelude JsNum Encoding Json JsText OutboxContract.
From stdpp Require Import base strings list sorting sets.
From Stdlib Require Import ZArith Lia.

Local Open Scope string_scope.

(** ** The bounds, on the value *)

Definition string_ok (s : string) : bool := bool_decide (utf8Len s <= CANON_MAX_STRING_BYTES)%Z.

(** What the walk accepts at [room] levels, byte and node totals aside. *)
Fixpoint jcs_ok (room : nat) (v : jsval) : bool :=
  match room with
  | O => false
  | S room =>
      match v with
      | JUndef => false
      | JNull | JBool _ => true
      | JNum n => bool_decide (is_Some (num_safe_int n))
      | JStr s => string_ok s
      | JArr l => forallb (jcs_ok room) l
      | JObj l =>
          bool_decide ("__proto__" ∉ l.*1) &&
          forallb (λ kv, string_ok kv.1 && jcs_ok room kv.2) l
      end
  end.

Fixpoint jnodes (v : jsval) : Z :=
  match v with
  | JArr l => 1 + foldr (λ x n, jnodes x + n)%Z 0%Z l
  | JObj l => 1 + foldr (λ kv n, jnodes kv.2 + n)%Z 0%Z l
  | _ => 1
  end.

(** The pieces of text pushed for a value whose keys are sorted. *)
Fixpoint sep_from (i : nat) (l : list (list string)) : list string :=
  match l with
  | [] => []
  | x :: l => (if decide (i = 0) then [] else [","]) ++ x ++ sep_from (S i) l
  end.
Fixpoint pieces (v : jsval) : list string :=
  match v with
  | JUndef => []
  | JNull => ["null"]
  | JBool b => [if b then "true" else "false"]
  | JNum n => [num_to_string n]
  | JStr s => [quote s]
  | JArr l => "[" :: sep_from 0 (List.map pieces l) ++ ["]"]
  | JObj l => "{" :: sep_from 0 (List.map (λ kv : string * jsval,
                       let (k, x) := kv in (quote k +:+ ":") :: pieces x) l) ++ ["}"]
  end.
Definition field_pieces (kv : string * jsval) : list string :=
  let (k, x) := kv in (quote k +:+ ":") :: pieces x.

Definition plen (ps : list string) : Z := list_sumZ utf8Len ps.
Definition adv (st : canon) (n : Z) (ps : list string) : canon :=
  mkCanon (cn_nodes st + n) (cn_bytes st + plen ps) (cn_parts st ++ ps).
Definition fits (st : canon) (n : Z) (ps : list string) : Prop :=
  (cn_nodes st + n <= CANON_MAX_NODES)%Z ∧ (cn_bytes st + plen ps <= CANON_MAX_TOTAL_BYTES)%Z.

(** ** Strings *)

Lemma jcs_char_escape ch : jcs_char ch = escape_char ch.
Proof. by destruct ch as [[] [] [] [] [] [] [] []]. Qed.

Lemma jcs_chars_escape s out : jcs_chars s out = out +:+ escape s.
Proof.
  revert out. induction s as [|ch s IH]; intros out; simpl; [by rewrite string_app_nil_r|].
  by rewrite IH, jcs_char_escape, string_app_assoc.
Qed.

Lemma assertNoLoneSurrogate_ok s : assertNoLoneSurrogate s = Ret tt.
Proof.
  unfold assertNoLoneSurrogate. pose proof (codes_bound s) as Hb.
  induction Hb as [|c l Hc Hl IH]; simpl; [done|]. rewrite !decide_False by lia. done.
Qed.

Lemma jcsString_spec s : jcsString s =
  if string_ok s then Ret (quote s) else contract_error "string exceeds CANON_MAX_STRING_BYTES".
Proof.
  unfold jcsString, string_ok. rewrite assertNoLoneSurrogate_ok. simpl.
  case_decide; [rewrite bool_decide_false by lia; done|]. rewrite bool_decide_true by lia.
  by rewrite jcs_chars_escape, string_app_cons, string_app_nil.
Qed.

Lemma jcsString_Ret s s' : jcsString s = Ret s' ↔ string_ok s = true ∧ s' = quote s.
Proof.
  rewrite jcsString_spec.
  destruct (string_ok s); split; [by intros [= <-]|by intros [_ ->]|done|by intros [? _]].
Qed.

Lemma jcsNumber_spec n s : jcsNumber n = Ret s ↔ is_Some (num_safe_int n) ∧ s = num_to_string n.
Proof.
  unfold jcsNumber. destruct n as [[z [|k]]| |]; simpl; try by (split; [done|intros [[] _]]).
  destruct (is_safe_integer z); [|by split; [|intros [[] _]]].
  split.
  - intros [= <-]. split; [by eexists|]. case_decide; by subst.
  - intros [_ ->]. f_equal. case_decide; by subst.
Qed.

(** ** The running totals *)

Lemma utf8_encode_app a b : utf8_encode (a +:+ b) = utf8_encode a +:+ utf8_encode b.
Proof.
  induction a as [|c a IH]; [done|]. rewrite string_app_cons. simpl. rewrite IH.
  case_decide; by rewrite ?string_app_cons.
Qed.
Lemma utf8Len_app a b : utf8Len (a +:+ b) = (utf8Len a + utf8Len b)%Z.
Proof. unfold utf8Len. rewrite utf8_encode_app, string_length_app. lia. Qed.
Lemma utf8Len_nonneg s : (0 <= utf8Len s)%Z.
Proof. unfold utf8Len. lia. Qed.
#[local] Hint Resolve utf8Len_nonneg : core.

Lemma plen_app a b : plen (a ++ b) = (plen a + plen b)%Z.
Proof. unfold plen. induction a as [|s a IH]; simpl; lia. Qed.
Lemma plen_nonneg ps : (0 <= plen ps)%Z.
Proof. unfold plen. induction ps as [|s ps IH]; simpl; [done|]. pose proof (utf8Len_nonneg s). lia. Qed.

Lemma adv_adv st a b p q : adv (adv st a p) b q = adv st (a + b) (p ++ q).
Proof. unfold adv. simpl. rewrite plen_app, app_assoc. f_equal; lia. Qed.
Lemma adv_0 st : adv st 0 [] = st.
Proof. destruct st. unfold adv. simpl. rewrite app_nil_r. f_equal; unfold plen; simpl; lia. Qed.
Lemma fits_adv st a b p q : fits (adv st a p) b q ↔ fits st (a + b) (p ++ q).
Proof. unfold fits, adv. simpl. rewrite plen_app. lia. Qed.
Lemma fits_le st a b p q : (0 <= b)%Z → fits st (a + b) (p ++ q) → fits st a p.
Proof. unfold fits. rewrite plen_app. pose proof (plen_nonneg q). lia. Qed.

Lemma push_spec s st st' : fits st 0 [] →
  push s st = Ret st' ↔ fits st 0 [s] ∧ st' = adv st 0 [s].
Proof.
  intros Hst. unfold push, fits, adv, plen in *. simpl in *.
  case_decide; [split; [done|lia]|]. split.
  - intros [= <-]. split; [lia|]. f_equal; lia.
  - intros [_ ->]. do 2 f_equal; lia.
Qed.

(** A step from [st] succeeds exactly under [P] and within the totals, and then
    adds [n] nodes and the pieces [p]. *)
Definition steps (st : canon) (m : exc canon) (P : Prop) (n : Z) (p : list string) : Prop :=
  ∀ st', m = Ret st' ↔ P ∧ fits st n p ∧ st' = adv st n p.

Lemma steps_bind st m k P Q a b p q : steps st m P a p →
  (fits st a p → steps (adv st a p) (k (adv st a p)) Q b q) → (0 <= b)%Z →
  steps st (m ≫= k) (P ∧ Q) (a + b) (p ++ q).
Proof.
  intros Hm Hk Hb st'. rewrite exc_bind_Ret. split.
  - intros (st1 & (HP & Hf & ->)%Hm & (HQ & Hf' & ->)%Hk); [|done].
    rewrite fits_adv in Hf'. by rewrite adv_adv.
  - intros ((HP & HQ) & Hf & ->). pose proof (fits_le _ _ _ _ _ Hb Hf) as Hf1.
    exists (adv st a p). split; [by apply Hm|]. apply (Hk Hf1).
    by rewrite fits_adv, adv_adv.
Qed.

Lemma steps_pure st (m : exc string) (s : string) k P Q n p :
  (∀ s', m = Ret s' ↔ P ∧ s' = s) → steps st (k s) Q n p → steps st (m ≫= k) (P ∧ Q) n p.
Proof.
  intros Hm Hk st'. rewrite exc_bind_Ret. split.
  - intros (s' & (HP & ->)%Hm & Hs%Hk). tauto.
  - intros ((HP & HQ) & Hf). exists s. split; [by apply Hm|]. by apply Hk.
Qed.

Lemma steps_iff st m P Q n n' p p' : (P ↔ Q) → n = n' → p = p' → steps st m P n p → steps st m Q n' p'.
Proof. intros HPQ -> -> Hs st'. by rewrite (Hs st'), HPQ. Qed.

Lemma steps_push s st : fits st 0 [] → steps st (push s st) True 0 [s].
Proof. intros Hst st'. rewrite push_spec by done. tauto. Qed.

Lemma steps_ret st : fits st 0 [] → steps st (Ret st) True 0 [].
Proof. intros Hst st'. rewrite adv_0. split; [intros [= <-]|intros (_ & _ & ->)]; done. Qed.

Lemma fits_here st n p : fits st n p → fits (adv st n p) 0 [].
Proof. unfold fits, adv, plen. simpl. lia. Qed.

Lemma list_sumZ_perm {A} (f : A → Z) (l l' : list A) : l ≡ₚ l' → list_sumZ f l = list_sumZ f l'.
Proof. induction 1; simpl in *; lia. Qed.
Lemma list_sumZ_nonneg {A} (f : A → Z) (l : list A) : (∀ x, x ∈ l → (0 <= f x)%Z) → (0 <= list_sumZ f l)%Z.
Proof.
  induction l as [|x l IH]; intros Hf; simpl; [done|].
  pose proof (Hf x ltac:(set_solver)). pose proof (IH ltac:(set_solver)). lia.
Qed.

Lemma steps_all {A} (f : A → canon → exc canon) (ok : A → Prop) (n : A → Z) (p : A → list string) l :
  (∀ x, x ∈ l → (0 <= n x)%Z ∧ ∀ st, fits st 0 [] → steps st (f x st) (ok x) (n x) (p x)) →
  ∀ i st, fits st 0 [] →
    steps st (push_all f i l st) (Forall ok l) (list_sumZ n l) (sep_from i (p <$> l)).
Proof.
  induction l as [|x l IH]; intros Hf i st Hst.
  { apply (steps_iff st (Ret st) True _ 0%Z _ []); [by rewrite Forall_nil|reflexivity|reflexivity|].
    by apply steps_ret. }
  destruct (Hf x (list_elem_of_here _ _)) as [Hn Hx].
  assert (∀ y, y ∈ l → y ∈ x :: l) as Hin by (intros; by right).
  assert (0 <= list_sumZ n l)%Z as Hs.
  { apply list_sumZ_nonneg. intros y Hy. by destruct (Hf y (Hin y Hy)). }
  set (sep := if decide (i = 0) then [] else [","]).
  apply (steps_iff st _ (True ∧ ok x ∧ Forall ok l) _ (0 + (n x + list_sumZ n l)) _
           (sep ++ p x ++ sep_from (S i) (p <$> l))); [rewrite Forall_cons; tauto|simpl; lia|done|].
  simpl. apply steps_bind; [|intros H1|lia].
  { unfold sep. case_decide; [by apply steps_ret|by apply steps_push]. }
  apply steps_bind; [|intros H2|done].
  - by apply Hx, fits_here.
  - apply IH; [auto|by apply fits_here].
Qed.

(** ** The fields of an object *)

Lemma sorted_keys_keys (l l' : list (string * jsval)) : l.*1 = l'.*1 → sorted_keys l = sorted_keys l'.
Proof. unfold sorted_keys. by intros ->. Qed.

Lemma fields_sorted_fmap l : fields_sorted (sort_field <$> l) = sort_field <$> fields_sorted l.
Proof.
  unfold fields_sorted. rewrite (sorted_keys_keys (sort_field <$> l) l) by apply sort_field_keys.
  rewrite <-list_fmap_compose. apply list_fmap_ext. intros i k _. simpl. f_equal.
  induction l as [|[k' v] l IH]; [done|]. csimpl. by case_decide.
Qed.

Lemma fields_sorted_get l kv : kv ∈ fields_sorted l → default JUndef (om_get kv.1 l) = kv.2.
Proof. unfold fields_sorted. intros (k & -> & _)%list_elem_of_fmap. done. Qed.

Lemma push_all_fmap {A B} (g : A → B) (f : B → canon → exc canon) l i st :
  push_all f i (g <$> l) st = push_all (λ x, f (g x)) i l st.
Proof.
  revert i st. induction l as [|x l IH]; intros i st; [done|]. simpl.
  destruct (decide (i = 0)); simpl; [|destruct (push _ _); simpl; [|done]];
    (destruct (f _ _); simpl; [apply IH|done]).
Qed.

Lemma jnodes_pos v : (1 <= jnodes v)%Z.
Proof.
  induction v as [| |b|n|s|l IH|l IH] using jsval_induction; try done; cbn [jnodes].
  - pose proof (list_sumZ_nonneg jnodes l) as H. unfold list_sumZ in H.
    rewrite Forall_forall in IH. enough (0 <= foldr (λ x n, jnodes x + n) 0 l)%Z by lia.
    apply H. intros x Hx. specialize (IH x Hx). lia.
  - pose proof (list_sumZ_nonneg (λ kv, jnodes kv.2) l) as H. unfold list_sumZ in H.
    rewrite Forall_forall in IH. enough (0 <= foldr (λ kv n, jnodes kv.2 + n) 0 l)%Z by lia.
    apply H. intros x Hx. specialize (IH x Hx). simpl in *. lia.
Qed.

(** ** The walk *)

(** A node: the count is checked, then [m] runs. *)
Lemma steps_node st (m : exc canon) P n p : fits st 0 [] → (0 <= n)%Z →
  (fits (adv st 1 []) 0 [] → steps (adv st 1 []) m P n p) →
  steps st (if decide (CANON_MAX_NODES < cn_nodes (adv st 1 []))%Z
            then contract_error "max canonicalization node count exceeded" else m) P (1 + n) p.
Proof.
  intros Hst Hn Hm st'. case_decide as Hd.
  { split; [done|]. unfold fits, adv in *. simpl in *. lia. }
  rewrite (Hm ltac:(unfold fits, adv, plen in *; simpl in *; lia) st'), fits_adv, adv_adv. done.
Qed.

(** A bracketed, comma-separated list of items. *)
Lemma steps_group {A} (op cl : string) (f : A → canon → exc canon) g ok n p l st :
  (∀ st, g st = push_all f 0 l st) →
  (∀ x, x ∈ l → (0 <= n x)%Z ∧ ∀ st, fits st 0 [] → steps st (f x st) (ok x) (n x) (p x)) →
  fits st 0 [] →
  steps st (st ← push op st; st ← g st; push cl st)
    (Forall ok l) (list_sumZ n l) (op :: sep_from 0 (p <$> l) ++ [cl]).
Proof.
  intros Hg Hf Hst.
  assert (0 <= list_sumZ n l)%Z by (apply list_sumZ_nonneg; intros x Hx; by destruct (Hf x Hx)).
  apply (steps_iff st _ (True ∧ Forall ok l ∧ True) _ (0 + (list_sumZ n l + 0)) _
    ([op] ++ sep_from 0 (p <$> l) ++ [cl])); [tauto|lia|done|].
  apply steps_bind; [by apply steps_push|intros H1|lia].
  apply steps_bind; [|intros H2; apply steps_push; by apply fits_here|done].
  rewrite Hg. apply steps_all; [done|by apply fits_here].
Qed.

Lemma adv_node st : mkCanon (cn_nodes st + 1) (cn_bytes st) (cn_parts st) = adv st 1 [].
Proof. unfold adv, plen. simpl. by rewrite app_nil_r, Z.add_0_r. Qed.

Definition walk_ok (room : nat) (v : jsval) : Prop :=
  keys_distinct v → ∀ st, fits st 0 [] →
    steps st (walk room v st) (jcs_ok room v = true) (jnodes v) (pieces (jsorted v)).

Lemma pieces_obj l : pieces (jsorted (JObj l)) =
  "{" :: sep_from 0 ((λ kv, field_pieces (sort_field kv)) <$> fields_sorted l) ++ ["}"].
Proof. rewrite jsorted_obj, fields_sorted_fmap. simpl. by rewrite List.map_map. Qed.
Lemma pieces_arr l : pieces (jsorted (JArr l)) =
  "[" :: sep_from 0 ((λ v, pieces (jsorted v)) <$> l) ++ ["]"].
Proof. simpl. by rewrite List.map_map. Qed.

Lemma walk_arr room l : (∀ v, walk_ok room v) → walk_ok (S room) (JArr l).
Proof.
  intros IH Hk st Hst. rewrite keys_distinct_arr in Hk. rewrite Forall_forall in Hk.
  rewrite pieces_arr. cbn [walk]. rewrite adv_node.
  apply (steps_iff st _ (Forall (λ x, jcs_ok room x = true) l) _ (1 + list_sumZ jnodes l) _
    ("[" :: sep_from 0 ((λ v, pieces (jsorted v)) <$> l) ++ ["]"])); [|done|done|].
  { cbn [jcs_ok]. rewrite <-Is_true_true, forallb_True. apply Forall_iff. intros x. by rewrite Is_true_true. }
  apply steps_node; [done|apply list_sumZ_nonneg; intros x _; pose proof (jnodes_pos x); lia|].
  intros H1. apply (steps_group "[" "]" (walk room)); [done| |done]. intros x Hx. split; [pose proof (jnodes_pos x); lia|].
  apply IH. by apply Hk.
Qed.

(** A key and its value. *)
Lemma steps_field room kv st : walk_ok room kv.2 → keys_distinct kv.2 → fits st 0 [] →
  steps st (_ ← assertNoLoneSurrogate kv.1; s ← jcsString kv.1; st ← push (s +:+ ":") st; walk room kv.2 st)
    (string_ok kv.1 && jcs_ok room kv.2 = true) (jnodes kv.2) (field_pieces (sort_field kv)).
Proof.
  intros IH Hk Hst. destruct kv as [k v]. simpl in *. rewrite assertNoLoneSurrogate_ok. cbn [mbind exc_bind].
  apply (steps_iff st _ (string_ok k = true ∧ True ∧ jcs_ok room v = true) _ (0 + jnodes v) _
    ([quote k +:+ ":"] ++ pieces (jsorted v))); [rewrite andb_true_iff; tauto|lia|done|].
  eapply steps_pure; [apply jcsString_Ret|].
  apply steps_bind; [by apply steps_push| |pose proof (jnodes_pos v); lia].
  intros H1. apply IH; [done|by apply fits_here].
Qed.

Lemma push_all_ext {A} (f g : A → canon → exc canon) i l st :
  (∀ x, x ∈ l → ∀ st, f x st = g x st) → push_all f i l st = push_all g i l st.
Proof.
  revert i st. induction l as [|x l IH]; intros i st Hfg; [done|]. simpl.
  assert (∀ st0, push_all f (S i) l st0 = push_all g (S i) l st0) as Hl.
  { intros st0. apply IH. intros y Hy. apply Hfg. by right. }
  destruct (if decide (i = 0) then _ else _) as [st0|]; simpl; [|done].
  rewrite (Hfg x (list_elem_of_here _ _)). destruct (g x st0); simpl; [apply Hl|done].
Qed.

Lemma walk_obj room l : (∀ v, walk_ok room v) → walk_ok (S room) (JObj l).
Proof.
  intros IH Hk st Hst. rewrite keys_distinct_obj in Hk. destruct Hk as [Hnd Hk].
  assert (fields_sorted l ≡ₚ l) as Hp by by apply fields_sorted_perm.
  rewrite pieces_obj. cbn [walk]. rewrite adv_node.
  rewrite <-(fields_sorted_keys l).
  set (ok := λ kv : string * jsval, string_ok kv.1 && jcs_ok room kv.2 = true).
  apply (steps_iff st _ ("__proto__" ∉ l.*1 ∧ Forall ok (fields_sorted l)) _
    (1 + list_sumZ (λ kv, jnodes kv.2) (fields_sorted l)) _
    ("{" :: sep_from 0 ((λ kv, field_pieces (sort_field kv)) <$> fields_sorted l) ++ ["}"])); [| |done|].
  { cbn [jcs_ok]. rewrite andb_true_iff, bool_decide_eq_true, Hp. apply and_iff_compat_l.
    rewrite <-Is_true_true, forallb_True. apply Forall_iff. intros x. unfold ok. by rewrite Is_true_true. }
  { by rewrite (list_sumZ_perm _ _ _ Hp). }
  apply steps_node; [done|apply list_sumZ_nonneg; intros x _; pose proof (jnodes_pos x.2); lia|].
  intros H1. case_bool_decide as Hproto.
  { intros st'. split; [done|]. by intros [[? _] _]. }
  apply (steps_iff _ _ (Forall ok (fields_sorted l)) _ (list_sumZ (λ kv, jnodes kv.2) (fields_sorted l)) _
    ("{" :: sep_from 0 ((λ kv, field_pieces (sort_field kv)) <$> fields_sorted l) ++ ["}"])); [tauto|done|done|].
  apply (steps_group "{" "}" (λ kv st, _ ← assertNoLoneSurrogate kv.1; s ← jcsString kv.1;
    st ← push (s +:+ ":") st; walk room kv.2 st)); [|intros kv Hkv|done].
  { intros st0. rewrite push_all_fmap. apply push_all_ext. intros kv Hkv st1.
    by rewrite (fields_sorted_get l kv Hkv). }
  split; [pose proof (jnodes_pos kv.2); lia|]. intros st0 Hst0. apply steps_field; [done| |done].
  rewrite Forall_forall in Hk. apply Hk. by rewrite <-Hp.
Qed.

Lemma walk_spec room v : walk_ok room v.
Proof.
  revert v. induction room as [|room IH]; intros v.
  { intros _ st Hst st'. split; [done|by intros [? _]]. }
  destruct v as [| |b|n|s|l|l]; [| | | | |by apply walk_arr|by apply walk_obj]; intros Hk st Hst;
    cbn [walk]; rewrite adv_node.
  - intros st'. split; [|by intros [? _]]. by case_decide.
  - apply (steps_iff _ _ True _ (1 + 0) _ ["null"]); [done..|]. apply steps_node; [done|done|].
    intros H1. by apply steps_push.
  - apply (steps_iff _ _ True _ (1 + 0) _ [if b then "true" else "false"]); [done..|].
    apply steps_node; [done|done|]. intros H1. by apply steps_push.
  - apply (steps_iff _ _ (is_Some (num_safe_int n) ∧ True) _ (1 + 0) _ [num_to_string n]); [|done..|].
    { cbn [jcs_ok]. rewrite bool_decide_eq_true. tauto. }
    apply steps_node; [done|done|]. intros H1. eapply steps_pure; [apply jcsNumber_spec|by apply steps_push].
  - apply (steps_iff _ _ (string_ok s = true ∧ True) _ (1 + 0) _ [quote s]); [cbn [jcs_ok]; tauto|done..|].
    apply steps_node; [done|done|]. intros H1. eapply steps_pure; [apply jcsString_Ret|by apply steps_push].
Qed.

(** ** The text *)

Lemma str_join_nil_app a b : str_join "" (a ++ b) = str_join "" a +:+ str_join "" b.
Proof.
  assert (∀ s l, str_join "" (s :: l) = s +:+ str_join "" l) as Hcons.
  { intros s [|s' l]; [by rewrite string_app_nil_r|]. done. }
  induction a as [|s a IH]; [done|]. rewrite <-app_comm_cons, !Hcons, IH, string_app_assoc. done.
Qed.
Lemma str_join_nil_cons s l : str_join "" (s :: l) = s +:+ str_join "" l.
Proof. exact (str_join_nil_app [s] l). Qed.

Lemma utf8Len_join ps : utf8Len (str_join "" ps) = plen ps.
Proof.
  unfold plen. induction ps as [|s ps IH]; [done|]. rewrite str_join_nil_cons, utf8Len_app, IH. done.
Qed.

Lemma sep_from_text ls : str_join "" (sep_from 0 ls) = str_join "," (str_join "" <$> ls).
Proof.
  assert (∀ i ls, str_join "" (sep_from (S i) ls) =
    match ls with [] => "" | _ => "," +:+ str_join "," (str_join "" <$> ls) end) as Hs.
  { clear ls. intros i ls. revert i. induction ls as [|p ls IH]; intros i; [done|].
    cbn [sep_from decide]. rewrite !str_join_nil_app, IH. csimpl. f_equal.
    destruct ls; csimpl; [by rewrite string_app_nil_r|done]. }
  destruct ls as [|p ls]; [done|]. cbn [sep_from]. rewrite !str_join_nil_app, Hs. csimpl.
  rewrite string_app_nil. destruct ls; csimpl; [by rewrite string_app_nil_r|done].
Qed.

Lemma pieces_text v : jfin v → str_join "" (pieces v) = stringify v.
Proof.
  induction v as [| |b|[d| |]|s|l IH|l IH] using jsval_induction; try done.
  - by destruct b.
  - rewrite jfin_arr. intros Hl. rewrite stringify_arr by done. cbn [pieces].
    rewrite str_join_nil_cons, str_join_nil_app, sep_from_text. unfold elements_text. do 3 f_equal.
    change (List.map pieces l) with (pieces <$> l). rewrite <-list_fmap_compose.
    apply fmap_eq_Forall. decompose_Forall. simpl. auto.
  - rewrite jfin_obj. intros [_ Hl]. rewrite stringify_obj by done. cbn [pieces].
    rewrite str_join_nil_cons, str_join_nil_app, sep_from_text. unfold members_text. do 3 f_equal.
    change (List.map _ l) with (field_pieces <$> l) at 1. rewrite <-list_fmap_compose.
    apply fmap_eq_Forall. decompose_Forall. destruct x as [k x]. unfold member_text, compose.
    cbn [fst snd field_pieces] in *. rewrite str_join_nil_cons, string_app_assoc. do 2 f_equal. auto.
Qed.

Lemma safe_int_finite z : is_safe_integer z = true → dec_finite (Dec z 0).
Proof.
  unfold is_safe_integer, dec_finite. rewrite andb_true_iff, !bool_decide_eq_true. simpl.
  assert (MAX_SAFE_INTEGER < max_finite * pow10 0)%Z by done. lia.
Qed.

Lemma jcs_ok_fin room v : keys_distinct v → jcs_ok room v = true → jfin v.
Proof.
  revert room. induction v as [| |b|n|s|l IH|l IH] using jsval_induction; intros [|room]; try done.
  - intros _. cbn [jcs_ok]. rewrite bool_decide_eq_true. destruct n as [[z [|k]]| |]; simpl; try by intros [].
    destruct (is_safe_integer z) eqn:Hz; [|by intros []]. intros _.
    split; [by left|by apply safe_int_finite].
  - rewrite keys_distinct_arr, jfin_arr. cbn [jcs_ok]. rewrite <-Is_true_true, forallb_True.
    intros Hd Hok. decompose_Forall. eauto using Is_true_true_1.
  - rewrite keys_distinct_obj, jfin_obj. cbn [jcs_ok].
    rewrite andb_true_iff, <-(Is_true_true (forallb _ _)), forallb_True.
    intros [Hnd Hd] [_ Hok]. split; [done|]. decompose_Forall.
    match goal with H : Is_true (_ && _) |- _ => apply Is_true_true, andb_true_iff in H as [_ ?] end. eauto.
Qed.

(** ** The errors *)

Definition contract_only {A} (m : exc A) : Prop :=
  ∀ e, m = Throw e → ∃ msg, e = ContractValidationError msg.

Lemma contract_only_bind {A B} (m : exc A) (f : A → exc B) :
  contract_only m → (∀ a, contract_only (f a)) → contract_only (m ≫= f).
Proof. intros Hm Hf e. destruct m as [a|e']; [apply Hf|]. intros [= ->]. by apply Hm. Qed.
Lemma contract_only_ret {A} (a : A) : contract_only (Ret a).
Proof. done. Qed.
Lemma contract_only_error {A} msg : contract_only (contract_error (A := A) msg).
Proof. intros e [= <-]. by eexists. Qed.
Lemma contract_only_push s st : contract_only (push s st).
Proof. unfold push. case_decide; [apply contract_only_error|apply contract_only_ret]. Qed.
Lemma contract_only_string s : contract_only (jcsString s).
Proof. rewrite jcsString_spec. case_match; [apply contract_only_ret|apply contract_only_error]. Qed.
Lemma contract_only_surrogate s : contract_only (assertNoLoneSurrogate s).
Proof. rewrite assertNoLoneSurrogate_ok. apply contract_only_ret. Qed.
Lemma contract_only_number n : contract_only (jcsNumber n).
Proof. unfold jcsNumber. case_match; [apply contract_only_ret|apply contract_only_error]. Qed.
Lemma contract_only_all {A} (f : A → canon → exc canon) i l st :
  (∀ x st, contract_only (f x st)) → contract_only (push_all f i l st).
Proof.
  intros Hf. revert i st. induction l as [|x l IH]; intros i st; [apply contract_only_ret|]. simpl.
  apply contract_only_bind; [case_decide; [apply contract_only_ret|apply contract_only_push]|].
  intros st1. by apply contract_only_bind.
Qed.
#[local] Hint Resolve contract_only_bind contract_only_ret contract_only_error contract_only_push
  contract_only_string contract_only_surrogate contract_only_number contract_only_all : contract.

Lemma contract_only_walk room v st : contract_only (walk room v st).
Proof.
  revert v st. induction room as [|room IH]; intros v st; cbn [walk]; [apply contract_only_error|].
  case_decide; [apply contract_only_error|].
  destruct v; [| | | | | |case_bool_decide]; eauto 20 with contract.
Qed.

(** ** Correctness *)

(** What [canonicalize] accepts: at most [CANON_MAX_DEPTH] levels below the root,
    [CANON_MAX_NODES] nodes, strings of [CANON_MAX_STRING_BYTES] and a text of
    [CANON_MAX_TOTAL_BYTES] bytes of UTF-8, safe integers, no [undefined] and no
    [__proto__]. *)
Definition canonicalizable (v : jsval) : Prop :=
  jcs_ok (S CANON_MAX_DEPTH) v = true ∧ (jnodes v <= CANON_MAX_NODES)%Z ∧
  (utf8Len (stringify (jsorted v)) <= CANON_MAX_TOTAL_BYTES)%Z.

Lemma jcs_canonicalize_Ret v s : keys_distinct v →
  jcs_canonicalize v = Ret s ↔ canonicalizable v ∧ s = stringify (jsorted v).
Proof.
  intros Hk. unfold jcs_canonicalize, canonicalizable. generalize (S CANON_MAX_DEPTH) as room. intros room.
  assert (fits (mkCanon 0 0 []) 0 []) as H0 by done.
  assert (jcs_ok room v = true → str_join "" (pieces (jsorted v)) = stringify (jsorted v)) as Htext.
  { intros Hv. apply pieces_text, jfin_jsorted. by eapply jcs_ok_fin. }
  rewrite exc_bind_Ret. setoid_rewrite (walk_spec _ v Hk _ H0 _). unfold fits, adv.
  cbn [cn_nodes cn_bytes cn_parts]. rewrite app_nil_l, !Z.add_0_l. rewrite <-utf8Len_join. split.
  - intros (st & (Hok & Hf & ->) & [= <-]). cbn [cn_parts]. rewrite Htext in * by done. tauto.
  - intros ((Hok & Hn & Hb) & ->). rewrite Htext by done. eexists. split; [split; [done|split; [|done]]|].
    + tauto.
    + cbn [cn_parts]. by rewrite Htext.
Qed.

Lemma jcs_canonicalize_only v : contract_only (jcs_canonicalize v).
Proof. apply contract_only_bind; [apply contract_only_walk|]. intros st. apply contract_only_ret. Qed.

Lemma jcs_canonicalize_inj v w s : keys_distinct v → keys_distinct w →
  jcs_canonicalize v = Ret s → jcs_canonicalize w = Ret s → jsorted v = jsorted w.
Proof.
  intros Hv Hw. rewrite !jcs_canonicalize_Ret by done. intros [[Hv' _] ->] [[Hw' _] H].
  apply sorted_text_inj; [by eapply jcs_ok_fin..|done].
Qed.

(** C29 The canonical form of the outbox contract is the JSON text of the value with
    sorted keys, whatever the order in which the walk meets the bounds; it is
    defined exactly on the values within all four bounds, and a value outside
    them raises a contract error. *)
Theorem canonical_text_spec v : keys_distinct v →
  match jcs_canonicalize v with
  | Ret s => canonicalizable v ∧ s = stringify (jsorted v)
  | Throw e => ¬ canonicalizable v ∧ ∃ msg, e = ContractValidationError msg
  end.
Proof.
  intros Hk. pose proof (jcs_canonicalize_Ret v) as Hr. pose proof (jcs_canonicalize_only v) as Ho.
  destruct (jcs_canonicalize v) as [s|e]; [by apply Hr|].
  split; [|by apply Ho]. intros Hv. pose proof (proj2 (Hr _ Hk) (conj Hv eq_refl)). congruence.
Qed.
