(* ===== verification/OutboxDigest.v ===== *)
(** * What the digests of the outbox contract bind

    The framing is injective, so a digest determines every field fed to it unless
    the two preimages at hand are a SHA-256 collision.  The three kinds of digest
    start with different domain strings and never share a preimage. *)

From S2P Require Import Prelude JsNum Encoding Json JsText Crypto AuditChain OutboxContract OutboxCanon.
From stdpp Require Import base strings list sorting sets.
From Stdlib Require Import ZArith Lia.

Local Open Scope string_scope.

(** ** Injectivity of the encodings *)

Lemma string_app_inj_l (a a' b b' : string) :
  String.length a = String.length a' → a +:+ b = a' +:+ b' → a = a' ∧ b = b'.
Proof.
  revert a'. induction a as [|c a IH]; intros [|c' a'] Hl; try done.
  rewrite !string_app_cons. intros [= -> H]. apply IH in H as [-> ->]; [done|by injection Hl].
Qed.

Lemma utf8_encode_inj a b : utf8_encode a = utf8_encode b → a = b.
Proof.
  assert (∀ c d : ascii, char_code c = char_code d → c = d) as Hcode.
  { intros c d H. apply (f_equal ascii_of_N) in H. unfold char_code in H. by rewrite !ascii_N_embedding in H. }
  assert (∀ m, (m < 256)%N → char_code (ascii_of_N m) = m) as Hcc by apply N_ascii_embedding.
  assert (∀ m n, (m < 256)%N → (n < 256)%N → ascii_of_N m = ascii_of_N n → m = n) as Hof.
  { intros m n Hm Hn H. by rewrite <-(Hcc m Hm), <-(Hcc n Hn), H. }
  assert (∀ c, (128 <= char_code c → 192 + char_code c / 64 < 256 ∧ 128 + char_code c mod 64 < 256 ∧
    128 <= 192 + char_code c / 64)%N) as Hb.
  { intros c Hc. pose proof (char_code_bound c).
    assert (char_code c / 64 < 4)%N by (apply N.Div0.div_lt_upper_bound; lia).
    pose proof (N.mod_lt (char_code c) 64 ltac:(lia)). lia. }
  revert b. induction a as [|c a IH]; intros [|d b]; simpl; [done|by case_decide|by case_decide|].
  destruct (decide (char_code c < 128)%N) as [Hc|Hc], (decide (char_code d < 128)%N) as [Hd|Hd];
    intros Heq; [injection Heq as H1 H2..|injection Heq as H1 H2 H3].
  - subst. f_equal. auto.
  - subst c. pose proof (Hb d ltac:(lia)). rewrite Hcc in Hc by lia. lia.
  - subst d. pose proof (Hb c ltac:(lia)). rewrite Hcc in Hd by lia. lia.
  - pose proof (Hb c ltac:(lia)). pose proof (Hb d ltac:(lia)).
    apply Hof in H1, H2; try lia. f_equal; [|auto]. apply Hcode.
    rewrite (N.div_mod (char_code c) 64), (N.div_mod (char_code d) 64) by lia. lia.
Qed.

Lemma of_codes_inj l l' : Forall (λ n, n < 256)%N l → Forall (λ n, n < 256)%N l' →
  of_codes l = of_codes l' → l = l'.
Proof.
  intros Hl Hl' H. apply (f_equal codes) in H. unfold codes, of_codes in H. rewrite !chars_unchars in H.
  assert (∀ l, Forall (λ n, n < 256)%N l → char_code <$> (ascii_of_N <$> l) = l) as Hid.
  { clear. induction 1 as [|n l Hn Hl IH]; csimpl; [done|]. f_equal; [by apply N_ascii_embedding|done]. }
  by rewrite !Hid in H.
Qed.

Lemma u32be_Ret n s : u32be n = Ret s → (0 <= n < U32_CEIL)%Z ∧ String.length s = 4%nat.
Proof. unfold u32be. case_match eqn:H; [done|]. intros [= <-]. btrue. split; [lia|done]. Qed.

Lemma u32be_inj n m s : u32be n = Ret s → u32be m = Ret s → n = m.
Proof.
  intros Hn Hm. pose proof (proj1 (u32be_Ret _ _ Hn)) as Rn. pose proof (proj1 (u32be_Ret _ _ Hm)) as Rm.
  unfold u32be in Hn, Hm. unfold U32_CEIL in Rn, Rm.
  assert (∀ x, (0 <= x < 4294967296)%Z → (bool_decide (x < 0)%Z || bool_decide (U32_CEIL <= x)%Z)%bool = false) as Hg.
  { intros x Hx. unfold U32_CEIL. by rewrite !bool_decide_false by lia. }
  rewrite Hg in Hn, Hm by done. injection Hn as Hn. injection Hm as Hm. rewrite <-Hm in Hn. clear Hm Hg.
  assert (∀ x : Z, Forall (λ k, k < 256)%N
    (Z.to_N <$> [(x / 16777216) mod 256; (x / 65536) mod 256; (x / 256) mod 256; x mod 256]%Z)) as Hall.
  { intros x. csimpl. repeat constructor;
      match goal with |- context [(?a mod 256)%Z] => pose proof (Z.mod_pos_bound a 256 eq_refl) end; lia. }
  apply of_codes_inj in Hn; [|apply Hall..]. csimpl in Hn. injection Hn as H3 H2 H1 H0.
  assert (∀ a b, Z.to_N (a mod 256) = Z.to_N (b mod 256) → (a mod 256 = b mod 256)%Z) as Hz.
  { clear. intros a b H'. pose proof (Z.mod_pos_bound a 256 eq_refl). pose proof (Z.mod_pos_bound b 256 eq_refl). lia. }
  apply Hz in H0, H1, H2, H3.
  assert (∀ x, (0 <= x < 4294967296)%Z → x = ((x / 16777216) mod 256 * 16777216 + (x / 65536) mod 256 * 65536 +
    (x / 256) mod 256 * 256 + x mod 256)%Z) as Hx by (clear; intros; Z.div_mod_to_equations; lia).
  rewrite (Hx n), (Hx m) by done. congruence.
Qed.

Lemma frame_fields_app fields h r : frame_fields fields h = Ret r →
  ∃ t, frame_fields fields EmptyString = Ret t ∧ r = h +:+ t.
Proof.
  assert (∀ h h' r, frame_fields fields (h +:+ h') = Ret r →
    ∃ t, frame_fields fields h' = Ret t ∧ r = h +:+ t) as Hg.
  { induction fields as [|f fields IH]; simpl; intros h0 h1 r0; [intros [= <-]; by eexists|].
    destruct (u32be _) as [len|]; simpl; [|done]. rewrite string_app_assoc. apply IH. }
  intros Hr. apply (Hg h EmptyString). by rewrite string_app_nil_r.
Qed.

Lemma frame_fields_cons f fields r : frame_fields (f :: fields) EmptyString = Ret r →
  ∃ len t, u32be (str_len (utf8_encode f)) = Ret len ∧ frame_fields fields EmptyString = Ret t ∧
    r = len +:+ utf8_encode f +:+ t.
Proof.
  cbn [frame_fields]. intros (len & Hlen & Hr)%exc_bind_Ret. rewrite string_app_nil in Hr.
  apply frame_fields_app in Hr as (t & Ht & ->). exists len, t. by rewrite string_app_assoc.
Qed.

Lemma frame_fields_inj fields fields' r :
  frame_fields fields EmptyString = Ret r → frame_fields fields' EmptyString = Ret r → fields = fields'.
Proof.
  revert fields' r. induction fields as [|f fields IH]; intros [|f' fields'] r H1 H2; [done|..].
  1,2: [> injection H1 as <- | injection H2 as <- ];
    match goal with H : frame_fields (_ :: _) _ = _ |- _ => apply frame_fields_cons in H as (len & t & Hl & _ & Hr) end;
    apply u32be_Ret in Hl as [_ Hl]; destruct len; by simpl in *.
  apply frame_fields_cons in H1 as (len & t & Hl & Ht & ->).
  apply frame_fields_cons in H2 as (len' & t' & Hl' & Ht' & Heq).
  pose proof (u32be_Ret _ _ Hl) as [_ L1]. pose proof (u32be_Ret _ _ Hl') as [_ L2].
  apply string_app_inj_l in Heq as [-> Heq]; [|congruence].
  pose proof (u32be_inj _ _ _ Hl Hl') as Hlen.
  apply string_app_inj_l in Heq as [Hf Heq]; [|lia]. subst t'. f_equal; [by apply utf8_encode_inj|by eapply IH].
Qed.

Lemma hex_digit_inj a b : (0 <= a < 16)%Z → (0 <= b < 16)%Z → hex_digit a = hex_digit b → a = b.
Proof.
  intros Ha Hb H.
  assert (∀ i j, i ∈ seq 0 16 → j ∈ seq 0 16 → hex_digit (Z.of_nat i) = hex_digit (Z.of_nat j) → i = j) as Hall.
  { intros i j Hi Hj. apply elem_of_seq in Hi, Hj.
    do 16 (destruct i as [|i]; [do 16 (destruct j as [|j]; [vm_compute; congruence|]); lia|]). lia. }
  assert (∀ z, (0 <= z < 16)%Z → Z.to_nat z ∈ seq 0 16) as Hseq by (intros; apply elem_of_seq; lia).
  specialize (Hall (Z.to_nat a) (Z.to_nat b) (Hseq a Ha) (Hseq b Hb)).
  rewrite !Z2Nat.id in Hall by lia. specialize (Hall H). lia.
Qed.

Lemma hex_of_inj a b : hex_of a = hex_of b → a = b.
Proof.
  assert (∀ l l', Forall (λ n, n < 256)%N l → Forall (λ n, n < 256)%N l' →
    foldr (λ b s, hex_byte b +:+ s) EmptyString (Z.of_N <$> l) =
    foldr (λ b s, hex_byte b +:+ s) EmptyString (Z.of_N <$> l') → l = l') as Hl.
  { intros l l' H. revert l'. induction H as [|n l Hn Hl IH]; intros l' H'; destruct H' as [|m l' Hm Hl']; csimpl; try done.
    unfold hex_byte at 1 2. rewrite !string_app_cons, !string_app_nil. intros [= H1 H2 H3].
    apply hex_digit_inj in H1, H2; try (split; [Z.div_mod_to_equations; lia|Z.div_mod_to_equations; lia]).
    f_equal; [|by apply IH]. enough (Z.of_N n = Z.of_N m) by lia.
    rewrite (Z.div_mod (Z.of_N n) 16), (Z.div_mod (Z.of_N m) 16) by lia. congruence. }
  intros H. rewrite <-(of_codes_codes a), <-(of_codes_codes b). f_equal.
  apply Hl; [apply codes_bound..|exact H].
Qed.

(** ** Digests *)

Section digests.
Context `{WC : WebCrypto}.

(** The two preimages exist, differ and have one SHA-256 value. *)
Definition collision (p p' : exc (list string)) : Prop :=
  ∃ f f' h h', p = Ret f ∧ p' = Ret f' ∧ frame_fields f EmptyString = Ret h ∧
    frame_fields f' EmptyString = Ret h' ∧ h ≠ h' ∧ sha256 h = sha256 h'.

Lemma hash_fields_bind (p p' : exc (list string)) d :
  p ≫= hash_fields = Ret d → p' ≫= hash_fields = Ret d → (∃ f, p = Ret f ∧ p' = Ret f) ∨ collision p p'.
Proof.
  intros (f & Hp & Hf)%exc_bind_Ret (f' & Hp' & Hf')%exc_bind_Ret. unfold hash_fields in Hf, Hf'.
  apply exc_bind_Ret in Hf as (h & Hh & [= <-]). apply exc_bind_Ret in Hf' as (h' & Hh' & [= Heq]).
  apply hex_of_inj in Heq. destruct (decide (h = h')) as [<-|Hne].
  - left. exists f. split; [done|]. rewrite Hp'. f_equal. by eapply frame_fields_inj.
  - right. exists f, f', h, h'. done.
Qed.

Lemma assertBoundedId_Ret v label s : assertBoundedId v label = Ret s ↔ v = JStr s ∧ ID_PATTERN s = true.
Proof.
  unfold assertBoundedId. destruct v as [| | | |t| |]; simpl; try by (split; [done|by intros [? _]]).
  destruct (ID_PATTERN t) eqn:Ht; simpl.
  - rewrite assertNoLoneSurrogate_ok. simpl. naive_solver.
  - split; [done|]. intros [[= <-] ?]. congruence.
Qed.

Lemma assertFenceToken_Ret v s : assertFenceToken v = Ret s ↔ v = JStr s ∧ FENCE_TOKEN_PATTERN s = true.
Proof.
  destruct v as [| | | |t| |]; simpl; try by (split; [done|by intros [? _]]).
  destruct (FENCE_TOKEN_PATTERN t) eqn:Ht; [naive_solver|]. split; [done|]. intros [[= <-] ?]. congruence.
Qed.

Lemma num_safe_int_Some n z : num_safe_int n = Some z ↔ n = int z ∧ is_safe_integer z = true.
Proof.
  destruct n as [[m [|k]]| |]; simpl; try by (split; [done|by intros [? _]]).
  destruct (is_safe_integer m) eqn:Hm; unfold int; [naive_solver|].
  split; [done|]. intros [[= <-] ?]. congruence.
Qed.
Lemma js_safe_int_Some v z : js_safe_int v = Some z ↔ v = JNum (int z) ∧ is_safe_integer z = true.
Proof.
  destruct v as [| | |n| | |]; simpl; try by (split; [done|by intros [? _]]).
  rewrite num_safe_int_Some. naive_solver.
Qed.

Lemma z_to_string_inj a b : z_to_string a = z_to_string b → a = b.
Proof.
  intros H. assert (∀ z, num_to_string (int z) = z_to_string z) as Hz by done.
  unfold z_to_string in H.
  assert (∀ z, (0 <= z)%Z → ∀ t, digits z ≠ "-" +:+ t) as Hd.
  { intros z Hz' t Ht. pose proof (digits_all z Hz') as Ha. rewrite Ht in Ha. by vm_compute in Ha. }
  case_decide; case_decide.
  - rewrite !string_app_cons, !string_app_nil in H. injection H as H. apply digits_inj in H; lia.
  - symmetry in H. by apply Hd in H; [|lia].
  - by apply Hd in H; [|lia].
  - apply digits_inj in H; lia.
Qed.

(** What the fields of an operation digest determine. *)
Definition valid_op (s e q f m : jsval) (fields : list string) : Prop :=
  ∃ sid ep seq tok text,
    s = JStr sid ∧ e = JStr ep ∧ q = JNum (int seq) ∧ f = JStr tok ∧
    ID_PATTERN sid = true ∧ ID_PATTERN ep = true ∧ is_safe_integer seq = true ∧ (1 <= seq)%Z ∧
    FENCE_TOKEN_PATTERN tok = true ∧ jcs_canonicalize m = Ret text ∧
    fields = [HA_OUTBOX_DIGEST_DOMAIN; HA_OUTBOX_CONTRACT_VERSION; sid; ep; z_to_string seq; tok; text].

Lemma op_fields_Ret s e q f m fields : op_fields s e q f m = Ret fields ↔ valid_op s e q f m fields.
Proof.
  unfold op_fields, valid_op. split.
  - intros (sid & [-> H1]%assertBoundedId_Ret & H)%exc_bind_Ret.
    apply exc_bind_Ret in H as (ep & [-> H2]%assertBoundedId_Ret & H). destruct (js_safe_int q) as [seq|] eqn:Hq; [|done].
    apply js_safe_int_Some in Hq as [-> Hq]. case_decide; [done|].
    apply exc_bind_Ret in H as (tok & [-> Hf]%assertFenceToken_Ret & H).
    apply exc_bind_Ret in H as (text & Ht & [= <-]).
    exists sid, ep, seq, tok, text. split_and!; (done || lia).
  - intros (sid & ep & seq & tok & text & -> & -> & -> & -> & H1 & H2 & H3 & H4 & H5 & H6 & ->).
    rewrite (proj2 (assertBoundedId_Ret (JStr sid) _ sid)) by done. cbn [mbind exc_bind].
    rewrite (proj2 (assertBoundedId_Ret (JStr ep) _ ep)) by done. cbn [mbind exc_bind].
    rewrite (proj2 (js_safe_int_Some (JNum (int seq)) seq)) by done. rewrite (decide_False (P := (seq < 1)%Z)) by lia.
    rewrite (proj2 (assertFenceToken_Ret (JStr tok) tok)) by done. cbn [mbind exc_bind]. by rewrite H6.
Qed.

(** ** Header conformance *)

Definition conformant_header (h : OutboxRecordHeader) : Prop :=
  ∃ sid ep seq tok dig,
    h = mkHeader (JStr HA_OUTBOX_CONTRACT_VERSION) (JStr sid) (JStr ep) (JNum (int seq)) (JStr tok) dig ∧
    ID_PATTERN sid = true ∧ ID_PATTERN ep = true ∧ is_safe_integer seq = true ∧ (1 <= seq)%Z ∧
    FENCE_TOKEN_PATTERN tok = true ∧ re_test HEX64 dig = Ret true.

Lemma assertHeaderConformant_Ret h : assertHeaderConformant h = Ret tt ↔ conformant_header h.
Proof.
  unfold assertHeaderConformant, conformant_header. split.
  - case_decide as Hv; [by intros (? & _ & ?)%exc_bind_Ret|].
    intros (sid & [Hs H1]%assertBoundedId_Ret & H)%exc_bind_Ret.
    apply exc_bind_Ret in H as (ep & [He H2]%assertBoundedId_Ret & H).
    destruct (js_safe_int _) as [seq|] eqn:Hq; [|done]. apply js_safe_int_Some in Hq as [Hq H3].
    case_decide; [done|]. apply exc_bind_Ret in H as (tok & [Ht H4]%assertFenceToken_Ret & H).
    apply exc_bind_Ret in H as ([] & Hd & H); [|done].
    exists sid, ep, seq, tok, (oh_opDigest h). split; [destruct h; simpl in *; congruence|].
    split_and!; (done || lia).
  - intros (sid & ep & seq & tok & dig & -> & H1 & H2 & H3 & H4 & H5 & H6).
    cbn [oh_contractVersion oh_streamId oh_sourceEpoch oh_sequence oh_fenceToken oh_opDigest].
    rewrite decide_False by (intros H; by apply H).
    rewrite (proj2 (assertBoundedId_Ret (JStr sid) _ sid)) by done. cbn [mbind exc_bind].
    rewrite (proj2 (assertBoundedId_Ret (JStr ep) _ ep)) by done. cbn [mbind exc_bind].
    rewrite (proj2 (js_safe_int_Some (JNum (int seq)) seq)) by done.
    rewrite (decide_False (P := (seq < 1)%Z)) by lia.
    rewrite (proj2 (assertFenceToken_Ret (JStr tok) tok)) by done. cbn [mbind exc_bind]. by rewrite H6.
Qed.

Lemma utf8Len_le s : (utf8Len s <= 2 * str_len s)%Z.
Proof.
  unfold utf8Len. induction s as [|c s IH]; [done|]. simpl. case_decide; simpl; lia.
Qed.
Lemma frame_fields_total fields h : Forall (λ f, utf8Len f < U32_CEIL)%Z fields →
  ∃ r, frame_fields fields h = Ret r.
Proof.
  intros Hf. revert h. induction Hf as [|f fields Hlt Hf IH]; intros h; [by eexists|]. simpl.
  unfold u32be at 1. unfold utf8Len in Hlt. rewrite !bool_decide_false by lia. simpl. apply IH.
Qed.

Lemma ID_PATTERN_length s : ID_PATTERN s = true → (str_len s <= 128)%Z.
Proof. destruct s as [|c r]; [done|]. simpl. intros H. btrue. lia. Qed.
Lemma FENCE_TOKEN_length s : FENCE_TOKEN_PATTERN s = true → (str_len s <= 39)%Z.
Proof.
  destruct s as [|c r]; [done|]. unfold FENCE_TOKEN_PATTERN. intros H. apply orb_true_iff in H as [H|H]; btrue.
  - by rewrite H.
  - simpl. lia.
Qed.
Lemma z_to_string_length z : is_safe_integer z = true → (0 <= z)%Z → (str_len (z_to_string z) <= 16)%Z.
Proof.
  unfold is_safe_integer, z_to_string. intros H Hz. btrue. rewrite decide_False by lia.
  pose proof (digits_length_le z 16). assert (MAX_SAFE_INTEGER < pow10 16)%Z by done. lia.
Qed.

(** The inputs an operation digest is defined on. *)
Definition admissible_op (s e q f m : jsval) : Prop :=
  (∃ sid, s = JStr sid ∧ ID_PATTERN sid = true) ∧ (∃ ep, e = JStr ep ∧ ID_PATTERN ep = true) ∧
  (∃ seq, q = JNum (int seq) ∧ is_safe_integer seq = true ∧ (1 <= seq)%Z) ∧
  (∃ tok, f = JStr tok ∧ FENCE_TOKEN_PATTERN tok = true) ∧ canonicalizable m.

(** No field reaches the framing limit. *)
Lemma op_digest_total s e q f m : keys_distinct m → admissible_op s e q f m →
  ∃ d, canonicalOpDigest s e q f m = Ret d.
Proof.
  intros Hk ((sid & -> & H1) & (ep & -> & H2) & (seq & -> & H3 & H4) & (tok & -> & H5) & Hm).
  pose proof (proj2 (jcs_canonicalize_Ret m _ Hk) (conj Hm eq_refl)) as Ht.
  set (text := stringify (jsorted m)) in *.
  set (fields := [HA_OUTBOX_DIGEST_DOMAIN; HA_OUTBOX_CONTRACT_VERSION; sid; ep; z_to_string seq; tok; text]).
  destruct (frame_fields_total fields EmptyString) as [r Hr].
  { destruct Hm as (_ & _ & Hb). assert (CANON_MAX_TOTAL_BYTES < U32_CEIL)%Z by done.
    assert (∀ s n, (str_len s <= n)%Z → (n <= 1000)%Z → (utf8Len s < U32_CEIL)%Z) as Hs.
    { intros s n ? ?. pose proof (utf8Len_le s). unfold U32_CEIL. lia. }
    repeat apply Forall_cons_2; [done|done|..|by apply Forall_nil_2].
    - by eapply Hs; [apply ID_PATTERN_length|].
    - by eapply Hs; [apply ID_PATTERN_length|].
    - eapply Hs; [apply z_to_string_length; [done|lia]|done].
    - by eapply Hs; [apply FENCE_TOKEN_length|].
    - fold text in Hb. lia. }
  exists (hex_of (sha256 r)). unfold canonicalOpDigest.
  rewrite (proj2 (op_fields_Ret _ _ _ _ _ fields)); [unfold hash_fields; cbn [mbind exc_bind]; by rewrite Hr|].
  by exists sid, ep, seq, tok, text.
Qed.

Lemma op_digest_admissible s e q f m d : keys_distinct m → canonicalOpDigest s e q f m = Ret d → admissible_op s e q f m.
Proof.
  intros Hk (fields & Hf & _)%exc_bind_Ret.
  apply op_fields_Ret in Hf as (sid & ep & seq & tok & text & -> & -> & -> & -> & H1 & H2 & H3 & H4 & H5 & H6 & _).
  apply (jcs_canonicalize_Ret m text Hk) in H6 as [Hm _].
  split_and!; [by exists sid|by exists ep|by exists seq|by exists tok|done].
Qed.

(** An operation digest determines the stream, epoch, sequence, fence token and
    the mutation up to the order of its properties: two inputs with one digest
    agree, unless their preimages collide under SHA-256. *)
Lemma op_digest_inj s e q f m s' e' q' f' m' d :
  keys_distinct m → keys_distinct m' →
  canonicalOpDigest s e q f m = Ret d → canonicalOpDigest s' e' q' f' m' = Ret d →
  (s = s' ∧ e = e' ∧ q = q' ∧ f = f' ∧ jsorted m = jsorted m') ∨
  collision (op_fields s e q f m) (op_fields s' e' q' f' m').
Proof.
  intros Hm Hm' Hd Hd'. destruct (hash_fields_bind _ _ _ Hd Hd') as [(fields & H1 & H2)|Hc]; [left|by right].
  apply op_fields_Ret in H1 as (sid & ep & seq & tok & text & -> & -> & -> & -> & _ & _ & _ & _ & _ & Ht & ->).
  apply op_fields_Ret in H2 as (sid' & ep' & seq' & tok' & text' & -> & -> & -> & -> & _ & _ & _ & _ & _ & Ht' & H).
  injection H as <- <- Hseq <- <-. apply z_to_string_inj in Hseq as ->.
  split_and!; [done..|]. by eapply jcs_canonicalize_inj.
Qed.

Lemma epoch_fields_Ret r fields : epoch_fields r = Ret fields →
  ∃ from snap, ID_PATTERN (et_streamId r) = true ∧ ID_PATTERN (et_fromEpoch r) = true ∧
    ID_PATTERN (et_toEpoch r) = true ∧ et_fromEpoch r ≠ et_toEpoch r ∧
    et_fromEpochIndex r = int from ∧ (0 <= from)%Z ∧ et_toEpochIndex r = int (from + 1) ∧
    et_snapshotSequence r = int snap ∧ (0 <= snap)%Z ∧ HEX64 (et_snapshotDigest r) = true ∧
    FENCE_TOKEN_PATTERN (et_fenceToken r) = true ∧
    fields = [HA_OUTBOX_DIGEST_DOMAIN +:+ "/epoch-transition"; HA_OUTBOX_CONTRACT_VERSION;
      et_streamId r; et_fromEpoch r; z_to_string from; et_toEpoch r; z_to_string (from + 1);
      z_to_string snap; et_snapshotDigest r; et_fenceToken r].
Proof.
  unfold epoch_fields.
  intros (sid & [[= <-] H1]%assertBoundedId_Ret & H)%exc_bind_Ret.
  apply exc_bind_Ret in H as (fe & [[= <-] H2]%assertBoundedId_Ret & H).
  apply exc_bind_Ret in H as (te & [[= <-] H3]%assertBoundedId_Ret & H).
  case_decide; [done|]. destruct (num_safe_int (et_fromEpochIndex r)) as [from|] eqn:Hfrom; [|done].
  apply num_safe_int_Some in Hfrom as [Hfrom _]. case_decide; [done|].
  case_decide as Hto; [done|].
  destruct (num_safe_int (et_snapshotSequence r)) as [snap|] eqn:Hsnap; [|done].
  apply num_safe_int_Some in Hsnap as [Hsnap _]. case_decide; [done|].
  destruct (HEX64 (et_snapshotDigest r)) eqn:Hhex; [|done]. cbn [negb] in H.
  apply exc_bind_Ret in H as (tok & [[= <-] Hf]%assertFenceToken_Ret & [= <-]).
  exists from, snap. split_and!; (done || lia).
Qed.

Lemma conformant_transition r : assertEpochTransitionConformant r = Ret tt →
  et_contractVersion r = HA_OUTBOX_CONTRACT_VERSION ∧ epochTransitionDigest r = Ret (et_transitionDigest r).
Proof.
  unfold assertEpochTransitionConformant. case_decide as Hv; [done|].
  intros (expect & -> & H)%exc_bind_Ret. case_decide as He; [done|]. by rewrite He.
Qed.

(** A conformant epoch transition goes to a different epoch whose index is exactly
    the next one, and its digest pins every field: a second conformant transition
    with that digest is the same record, unless the preimages collide. *)
Theorem epoch_transition_forward r r' :
  assertEpochTransitionConformant r = Ret tt →
  (et_fromEpoch r ≠ et_toEpoch r ∧
   ∃ i, (0 <= i)%Z ∧ et_fromEpochIndex r = int i ∧ et_toEpochIndex r = int (i + 1)) ∧
  (assertEpochTransitionConformant r' = Ret tt → et_transitionDigest r' = et_transitionDigest r →
   r' = r ∨ collision (epoch_fields r) (epoch_fields r')).
Proof.
  intros [Hv Hd]%conformant_transition. split.
  - unfold epochTransitionDigest in Hd. apply exc_bind_Ret in Hd as (fields & Hf & _).
    apply epoch_fields_Ret in Hf as (from & snap & _ & _ & _ & ? & ? & ? & ? & _). eauto 6.
  - intros [Hv' Hd']%conformant_transition Heq. rewrite Heq in Hd'.
    destruct (hash_fields_bind _ _ _ Hd Hd') as [(fields & H1 & H2)|Hc]; [left|by right].
    apply epoch_fields_Ret in H1 as (from & snap & _ & _ & _ & _ & ? & _ & ? & ? & _ & _ & _ & ->).
    apply epoch_fields_Ret in H2 as (from' & snap' & _ & _ & _ & _ & ? & _ & ? & ? & _ & _ & _ & Hl).
    injection Hl as ? ? Hi ? ? Hs ? ?. apply z_to_string_inj in Hi, Hs. subst.
    destruct r, r'. simpl in *. congruence.
Qed.

Lemma head_fields_Ret h fields : head_fields h = Ret fields →
  ∃ l, fields = (HA_OUTBOX_DIGEST_DOMAIN +:+ "/tsk-stream-head") :: l.
Proof.
  unfold head_fields. intros (sid & _ & H)%exc_bind_Ret.
  repeat case_match; try done. injection H as <-. by eexists.
Qed.

(** The operation digest, the transition digest and the stream-head digest are
    separated: two of different kinds that are equal exhibit a SHA-256 collision. *)
Lemma op_digest_apart s e q f m d : canonicalOpDigest s e q f m = Ret d →
  (∀ r, epochTransitionDigest r = Ret d → collision (op_fields s e q f m) (epoch_fields r)) ∧
  (∀ h, streamHeadDigest h = Ret d → collision (op_fields s e q f m) (head_fields h)).
Proof.
  intros Hd. split; intros ? Hd';
    (destruct (hash_fields_bind _ _ _ Hd Hd') as [(fields & H1 & H2)|Hc]; [exfalso|done]);
    apply op_fields_Ret in H1 as (? & ? & ? & ? & ? & _ & _ & _ & _ & _ & _ & _ & _ & _ & _ & ->);
    [apply epoch_fields_Ret in H2 as (? & ? & _ & _ & _ & _ & _ & _ & _ & _ & _ & _ & _ & H2)
    |apply head_fields_Ret in H2 as (? & H2)]; done.
Qed.

(** An epoch transition and a stream head have different digests too. *)
Lemma transition_head_apart r h d : epochTransitionDigest r = Ret d → streamHeadDigest h = Ret d →
  collision (epoch_fields r) (head_fields h).
Proof.
  intros Hd Hd'. destruct (hash_fields_bind _ _ _ Hd Hd') as [(fields & H1 & H2)|Hc]; [exfalso|done].
  apply epoch_fields_Ret in H1 as (? & ? & _ & _ & _ & _ & _ & _ & _ & _ & _ & _ & _ & ->).
  by apply head_fields_Ret in H2 as (? & H2).
Qed.

(** C28 The operation digest is defined exactly on a bounded stream identifier and
    epoch, a safe integer sequence from 1 on, a canonical fence token and a mutation
    within the canonicalization bounds.  It binds all of them: two inputs with one
    digest agree -- the mutations up to the order of their properties -- and a digest
    of an epoch transition or of a stream head is never one of an operation, unless
    the two preimages at hand collide under SHA-256. *)
Theorem op_digest_spec s e q f m : keys_distinct m →
  ((∃ d, canonicalOpDigest s e q f m = Ret d) ↔ admissible_op s e q f m) ∧
  ∀ d, canonicalOpDigest s e q f m = Ret d →
    (∀ s' e' q' f' m', keys_distinct m' → canonicalOpDigest s' e' q' f' m' = Ret d →
       (s = s' ∧ e = e' ∧ q = q' ∧ f = f' ∧ jsorted m = jsorted m') ∨
       collision (op_fields s e q f m) (op_fields s' e' q' f' m')) ∧
    (∀ r, epochTransitionDigest r = Ret d → collision (op_fields s e q f m) (epoch_fields r)) ∧
    (∀ h, streamHeadDigest h = Ret d → collision (op_fields s e q f m) (head_fields h)).
Proof.
  intros Hk. split.
  - split; [intros [d Hd]; by eapply op_digest_admissible|by apply op_digest_total].
  - intros d Hd. split; [|by apply op_digest_apart].
    intros s' e' q' f' m' Hk' Hd'. by eapply op_digest_inj.
Qed.
End digests.
