(* ===== verification/OutboxPg.v ===== *)
(** * The PostgreSQL outbox: tables, transactions, append, apply, fence
    (packages/server/src/ha-outbox-pg.ts)

    A database is a record of the outbox tables and of the tables [db_app] that
    the caller's and the applier's own statements touch.  One statement is one
    function on it; a SERIALIZABLE transaction is one atomic step, whose fate
    (commit, abort, commit with a lost acknowledgement) the environment picks.
    The capability checks on transaction handles and the attestation of the
    schema are not part of the model: a transaction here runs on its own database. *)

From S2P Require Import Prelude JsNum Encoding Json JsText Crypto OutboxContract.
From stdpp Require Import base strings list gmap sorting.
From Stdlib Require Import ZArith.

Local Open Scope string_scope.

(** ** Statements with their effect and their outcome *)

(** A computation inside a transaction: it changes the state whether or not it
    throws; only the end of the transaction rolls back. *)
Definition tx (S B : Type) : Type := S → S * exc B.
Definition tret {S B} (b : B) : tx S B := λ s, (s, Ret b).
Definition tthrow {S B} (e : error) : tx S B := λ s, (s, Throw e).
Definition tlift {S B} (r : exc B) : tx S B := λ s, (s, r).
Definition tread {S B} (f : S → B) : tx S B := λ s, (s, Ret (f s)).
Definition tbind {S B C} (p : tx S B) (k : B → tx S C) : tx S C :=
  λ s, match p s with (s', Ret b) => k b s' | (s', Throw e) => (s', Throw e) end.

Notation "'let!' x ':=' p 'in' k" := (tbind p (λ x, k))
  (at level 200, x name, p at level 100, k at level 200, right associativity) : bpc_scope.
Notation "'do!' p 'in' k" := (tbind p (λ _, k))
  (at level 200, p at level 100, k at level 200, right associativity) : bpc_scope.
Local Open Scope bpc_scope.

(** How a transaction ends when its callback returns: the commit succeeds, it is
    refused (serialization failure, deadline, lost connection), or it succeeds
    and its acknowledgement is lost. *)
Inductive fate := Committed | Aborted (e : error) | CommitLost (e : error).

(** [db.transaction(fn)] *)
Definition transaction {S B} (f : fate) (fn : tx S B) (s : S) : S * exc B :=
  match fn s with
  | (s', Ret b) =>
      match f with
      | Committed => (s', Ret b)
      | Aborted e => (s, Throw e)
      | CommitLost e => (s', Throw e)
      end
  | (_, Throw e) => (s, Throw e)
  end.

(** ** Tables *)

Abbreviation row_key := (string * string * Z)%type.

Record SourceCheckpoint := mkSourceCp { sc_epoch : string; sc_sequence : Z }.
Record ReceiverCheckpoint := mkReceiverCp { rc_epoch : string; rc_sequence : Z; rc_lastDigest : string }.
Record OutboxRow := mkRow {
  ro_fence : Z; ro_digest : string; ro_mutation : jsval;
  ro_published : option Z; ro_acked : option Z; ro_quarantined : option Z }.
Record Lease := mkLease { le_token : option string; le_until : option Z }.

Record PgDb (A : Type) := mkDb {
  db_fence : gmap string Z;
  db_source : gmap string SourceCheckpoint;
  db_receiver : gmap string ReceiverCheckpoint;
  db_rows : gmap row_key OutboxRow;
  db_lease : gmap string Lease;
  db_quarantine : gmap row_key (string * string);
  db_applied : gmap row_key string;
  db_app : A }.
Arguments mkDb {A}. Arguments db_fence {A}. Arguments db_source {A}. Arguments db_receiver {A}.
Arguments db_rows {A}. Arguments db_lease {A}. Arguments db_quarantine {A}. Arguments db_applied {A}.
Arguments db_app {A}.

Section tables.
Context {A : Type}.
Implicit Types d : PgDb A.

Definition set_fence f d : PgDb A := mkDb f (db_source d) (db_receiver d) (db_rows d) (db_lease d) (db_quarantine d) (db_applied d) (db_app d).
Definition set_source s d : PgDb A := mkDb (db_fence d) s (db_receiver d) (db_rows d) (db_lease d) (db_quarantine d) (db_applied d) (db_app d).
Definition set_receiver r d : PgDb A := mkDb (db_fence d) (db_source d) r (db_rows d) (db_lease d) (db_quarantine d) (db_applied d) (db_app d).
Definition set_rows r d : PgDb A := mkDb (db_fence d) (db_source d) (db_receiver d) r (db_lease d) (db_quarantine d) (db_applied d) (db_app d).
Definition set_lease l d : PgDb A := mkDb (db_fence d) (db_source d) (db_receiver d) (db_rows d) l (db_quarantine d) (db_applied d) (db_app d).
Definition set_quarantine q d : PgDb A := mkDb (db_fence d) (db_source d) (db_receiver d) (db_rows d) (db_lease d) q (db_applied d) (db_app d).
Definition set_applied a d : PgDb A := mkDb (db_fence d) (db_source d) (db_receiver d) (db_rows d) (db_lease d) (db_quarantine d) a (db_app d).
Definition set_app a d : PgDb A := mkDb (db_fence d) (db_source d) (db_receiver d) (db_rows d) (db_lease d) (db_quarantine d) (db_applied d) a.
End tables.

(** A [jsonb] column keeps a value, not its text: reading it back may give the
    properties in another order. *)
Class Jsonb := { jsonb : jsval → jsval }.
Class JsonbLaws (J : Jsonb) := {
  jsonb_value v : jfin v → jfin (jsonb v) ∧ jsorted (jsonb v) = jsorted v;
}.

(** The CHECK constraints of the schema. *)
Definition JS_SAFE_INT_SQL : Z := 9007199254740991.
Definition FENCE_MAX_EXCLUSIVE : Z := 10 ^ 39.
Definition text_check (s : string) : bool :=
  (bool_decide (1 <= str_len s)%Z && bool_decide (str_len s <= 512)%Z)%bool.
Definition key_check (k : row_key) : bool :=
  (text_check k.1.1 && text_check k.1.2 && bool_decide (1 <= k.2)%Z && bool_decide (k.2 <= JS_SAFE_INT_SQL)%Z)%bool.
Definition fence_check (f : Z) : bool :=
  (bool_decide (0 <= f)%Z && bool_decide (f < FENCE_MAX_EXCLUSIVE)%Z)%bool.

(** ** Small helpers *)

(** [digestEquals]: constant-time equality of two texts; [timingSafeEqual] throws
    on buffers of different lengths. *)
Definition digestEquals (a b : string) : exc bool :=
  if decide (String.length a ≠ String.length b) then Ret false
  else if decide (String.length (utf8_encode a) ≠ String.length (utf8_encode b))
  then Throw (RangeError "Input buffers must have the same byte length")
  else Ret (ct_equal a b).

(** A digest field that is not a string has passed [HEX64] as an array of one
    string, whose length is not 64. *)
Definition digestEqualsField (a : string) (b : jsval) : exc bool :=
  match b with JStr s => digestEquals a s | _ => Ret false end.

(** [BigInt(s)] on the decimal texts a bigint or numeric column yields. *)
Definition BigInt_of (s : string) : option Z :=
  match s with
  | EmptyString => None
  | String c r =>
      if decide (c = "-"%char)
      then if (all_chars is_digit r && bool_decide (r ≠ EmptyString))%bool then Some (- digits_value 0 r)%Z else None
      else if all_chars is_digit s then Some (digits_value 0 s) else None
  end.

(** [safeSeq(v, label)] on the text of the column. *)
Definition safeSeq (v label : string) : exc Z :=
  match BigInt_of v with
  | None => contract_error (label +:+ " is not an integer: " +:+ v)
  | Some b =>
      if (bool_decide (b < 0)%Z || bool_decide (MAX_SAFE_INTEGER < b)%Z)%bool
      then contract_error (label +:+ " out of safe-integer range: " +:+ z_to_string b)
      else Ret b
  end.

Definition affectedOne (rowCount : Z) (label : string) : exc unit :=
  if decide (rowCount = 1)%Z then Ret tt
  else contract_error (label +:+ ": expected exactly 1 affected row, got " +:+ z_to_string rowCount).

(** ** Entering a critical transaction *)

(** What the session answers: [SHOW transaction_isolation], [current_schema()],
    the first three entries of [current_schemas(true)] and their number. *)
Record Session := mkSession {
  ss_isolation : option string; ss_schema : option string;
  ss_p1 : option string; ss_p2 : option string; ss_p3 : option string; ss_n : Z }.

Definition assertSerializable (s : Session) : exc unit :=
  let level := to_lower (default EmptyString (ss_isolation s)) in
  if decide (level = "serializable") then Ret tt
  else contract_error ("critical tx requires SERIALIZABLE isolation; got '" +:+ level +:+ "'").

(** [/^[a-z_][a-z0-9_]{0,62}$/] *)
Definition schema_re (s : string) : bool :=
  match s with
  | EmptyString => false
  | String c r =>
      ((is_lower c || one_of "_" c) && all_chars (λ c, is_lower c || is_digit c || one_of "_" c) r &&
       bool_decide (str_len r <= 62)%Z)%bool
  end.
Definition assertSchemaIdentifier (schema : string) : exc unit :=
  if schema_re schema then Ret tt else contract_error ("invalid schema identifier: " +:+ schema).

Definition pinSchema (s : Session) (schema : string) : exc unit :=
  _ ← assertSchemaIdentifier schema;
  if decide (ss_schema s ≠ Some schema)
  then contract_error ("schema context mismatch: current_schema=" +:+
         default "undefined" (ss_schema s) +:+ " pinned=" +:+ schema)
  else if (bool_decide (ss_p1 s ≠ Some schema) || bool_decide (ss_p2 s ≠ Some "pg_catalog") ||
           (bool_decide (ss_n s ≠ 2%Z) &&
            negb (bool_decide (ss_n s = 3%Z) &&
                  match ss_p3 s with Some p => starts_with "pg_temp_" p | None => false end)))%bool
  then contract_error "schema search path was not pinned with governed authority before pg_temp"
  else Ret tt.

Definition enterCriticalTx (s : Session) (schema : string) : exc unit :=
  _ ← assertSerializable s; pinSchema s schema.

(** ** Snapshots

    A value is canonicalized and parsed back before it crosses an asynchronous
    boundary: the copy shares nothing with the caller's object. *)

Definition snapshotJson (value : jsval) (label : string) : exc jsval :=
  catch (text ← jcs_canonicalize value; parse text)
    (λ error, match error with
              | ContractValidationError _ => Throw error
              | _ => contract_error (label +:+ " is not canonical I-JSON")
              end).

Definition assertExactOwnKeys (value : jsval) (expected : list string) (label : string) : exc unit :=
  match value with
  | JObj l =>
      if decide (merge_sort String.le l.*1 = merge_sort String.le expected) then Ret tt
      else contract_error (label +:+ " has unexpected or missing fields")
  | JNull | JUndef => Throw (TypeError "Cannot convert undefined or null to object")
  | _ => contract_error (label +:+ " has unexpected or missing fields")
  end.

Definition RECORD_KEYS : list string :=
  ["contractVersion"; "streamId"; "sourceEpoch"; "sequence"; "fenceToken"; "opDigest"; "mutation"].

(** The record as the object it is, and back. *)
Definition record_obj (r : OutboxRecord) : jsval :=
  let h := or_header r in
  JObj [("contractVersion", oh_contractVersion h); ("streamId", oh_streamId h); ("sourceEpoch", oh_sourceEpoch h);
        ("sequence", oh_sequence h); ("fenceToken", oh_fenceToken h); ("opDigest", oh_opDigest h);
        ("mutation", or_mutation r)].
Definition record_of (v : jsval) : OutboxRecord :=
  mkRecord (mkHeader (field v "contractVersion") (field v "streamId") (field v "sourceEpoch")
              (field v "sequence") (field v "fenceToken") (field v "opDigest")) (field v "mutation").

Definition snapshotRecord (record : jsval) : exc OutboxRecord :=
  snapshot ← snapshotJson record "outbox record";
  _ ← assertExactOwnKeys snapshot RECORD_KEYS "outbox record";
  _ ← assertHeaderConformant (or_header (record_of snapshot));
  Ret (record_of snapshot).

(** ** Sanitizers *)

(** The protocol's sanitizer: [sanitize] strips secrets or throws;
    [assertSanitized] re-validates. *)
Class MutationSanitizer := {
  sanitize : jsval → exc jsval;
  assertSanitized : jsval → exc unit;
}.

Record PgOutboxOptions := mkOutboxOptions {
  oo_streamId : string; oo_maxPendingRows : Z; oo_backpressure : string }.

Section mechanism.
Context `{WC : WebCrypto} `{J : Jsonb} `{SAN : MutationSanitizer} {A : Type}.
Implicit Types d : PgDb A.

(** ** PgDurableOutbox

    The constructor's check of [maxPendingRows]. *)
Definition PgDurableOutbox_new (opts : PgOutboxOptions) : exc PgOutboxOptions :=
  if (negb (is_safe_integer (oo_maxPendingRows opts)) || bool_decide (oo_maxPendingRows opts <= 0)%Z)%bool
  then contract_error "maxPendingRows must be a positive safe integer"
  else Ret opts.

Definition pending_rows (streamId : string) d : Z :=
  Z.of_nat (length (filter (λ kr : row_key * OutboxRow,
    kr.1.1.1 = streamId ∧ ro_acked kr.2 = None ∧ ro_quarantined kr.2 = None) (map_to_list (db_rows d)))).

(** [INSERT INTO ha_outbox_rows ...]: the primary key and the CHECKs. *)
Definition insert_row (k : row_key) (r : OutboxRow) : tx (PgDb A) Z := λ d,
  if (negb (key_check k && fence_check (ro_fence r) && HEX64 (ro_digest r)))%bool
  then (d, Throw (PgError "new row violates check constraint"))
  else match db_rows d !! k with
       | Some _ => (d, Throw (PgError "duplicate key value violates unique constraint"))
       | None => (set_rows (<[k := r]> (db_rows d)) d, Ret 1%Z)
       end.

Definition update_source (streamId : string) (sequence : Z) : tx (PgDb A) Z := λ d,
  match db_source d !! streamId with
  | Some c =>
      if (bool_decide (0 <= sequence)%Z && bool_decide (sequence <= JS_SAFE_INT_SQL)%Z)%bool
      then (set_source (<[streamId := mkSourceCp (sc_epoch c) sequence]> (db_source d)) d, Ret 1%Z)
      else (d, Throw (PgError "new row violates check constraint"))
  | None => (d, Ret 0%Z)
  end.

(** [appendInTx] of an outbox with [governedAppend], which stands for the HA pair
    authority's own append: the captured and sanitized mutation is handed to it, and
    the header it answers with is checked. *)
Definition appendInTx_governed (governedAppend : string → jsval → Z → Z → string → tx (PgDb A) OutboxRecordHeader)
    (opts : PgOutboxOptions) (inputStream : string) (rawMutation : jsval) (fenceToken : Z) : tx (PgDb A) OutboxRecordHeader :=
  let! captured := tlift (snapshotJson rawMutation "raw mutation") in
  let! clean := tlift (sanitize captured) in
  let! mutation := tlift (snapshotJson clean "sanitized mutation") in
  if decide (inputStream ≠ oo_streamId opts) then tlift (contract_error "streamId mismatch for this outbox") else
  let! _ := tlift (fenceTokenToDecimal fenceToken) in
  let! header := governedAppend inputStream mutation fenceToken (oo_maxPendingRows opts) (oo_backpressure opts) in
  do! tlift (assertHeaderConformant header) in
  tret header.

(** [appendInTx] of an outbox without it; the input is a plain object with a string
    and a bigint. *)
Definition appendInTx (opts : PgOutboxOptions) (inputStream : string) (rawMutation : jsval) (fenceToken : Z)
    : tx (PgDb A) OutboxRecordHeader :=
  let! captured := tlift (snapshotJson rawMutation "raw mutation") in
  let! clean := tlift (sanitize captured) in
  let! mutation := tlift (snapshotJson clean "sanitized mutation") in
  if decide (inputStream ≠ oo_streamId opts) then tlift (contract_error "streamId mismatch for this outbox") else
  let! fenceDecimal := tlift (fenceTokenToDecimal fenceToken) in
  let! fence := tread (λ d, db_fence d !! inputStream) in
  match fence with
  | None => tlift (contract_error "no authoritative fence row — stream not provisioned (fail closed)")
  | Some persistedFence =>
      if decide (fenceToken ≠ persistedFence) then tthrow (StaleFenceError fenceToken persistedFence) else
      let! pending := tread (pending_rows inputStream) in
      let! pending := tlift (safeSeq (z_to_string pending) "pending-count") in
      if decide (oo_maxPendingRows opts <= pending)%Z then tthrow (OutboxBackpressureError (oo_backpressure opts)) else
      let! cp := tread (λ d, db_source d !! inputStream) in
      match cp with
      | None => tlift (contract_error "stream not provisioned (no source checkpoint row)")
      | Some cp =>
          let sourceEpoch := sc_epoch cp in
          let! cur := tlift (safeSeq (z_to_string (sc_sequence cp)) "source.checkpoint.sequence") in
          if decide (MAX_SAFE_INTEGER <= cur)%Z
          then tlift (contract_error "source sequence exhausted safe-integer range") else
          let nextSeq := (cur + 1)%Z in
          let! opDigest := tlift (canonicalOpDigest (JStr inputStream) (JStr sourceEpoch) (JNum (int nextSeq))
                                    (JStr fenceDecimal) mutation) in
          let! ins := insert_row (inputStream, sourceEpoch, nextSeq)
                        (mkRow fenceToken opDigest (jsonb mutation) None None None) in
          do! tlift (affectedOne ins "outbox row insert") in
          let! upd := update_source inputStream nextSeq in
          do! tlift (affectedOne upd "source checkpoint advance") in
          let header := mkHeader (JStr "1") (JStr inputStream) (JStr sourceEpoch) (JNum (int nextSeq))
                          (JStr fenceDecimal) (JStr opDigest) in
          do! tlift (assertHeaderConformant header) in
          tret header
      end
  end.

(** [withOutboxTx(fn)] for a callback that makes its own change [mutate] to the
    application tables and appends; [preCommitCheck] is the source-authority hook
    of the options, run because the scope has appended. *)
Definition withOutboxTx {B} (ss : Session) (schema : string) (preCommitCheck : option (tx (PgDb A) unit))
    (fn : tx (PgDb A) B) : tx (PgDb A) B :=
  do! tlift (enterCriticalTx ss schema) in
  let! result := fn in
  do! (match preCommitCheck with Some check => check | None => tret tt end) in
  tret result.

Definition app_write (mutate : A → exc A) : tx (PgDb A) unit := λ d,
  match mutate (db_app d) with Ret a => (set_app a d, Ret tt) | Throw e => (d, Throw e) end.

(** ** PgReceiverCheckpoint *)

Inductive ReceiverDecision :=
  | applied | duplicate_ok | reject_gap | reject_fork
  | reject_stale | reject_epoch | reject_fence | reject_unsanitized.
#[export] Instance ReceiverDecision_eq_dec : EqDecision ReceiverDecision.
Proof. solve_decision. Defined.

(** The two writes of a fresh record: history row and checkpoint. *)
Definition insert_applied (k : row_key) (digest : string) : tx (PgDb A) Z := λ d,
  if (negb (key_check k && HEX64 digest))%bool then (d, Throw (PgError "new row violates check constraint"))
  else match db_applied d !! k with
       | Some _ => (d, Throw (PgError "duplicate key value violates unique constraint"))
       | None => (set_applied (<[k := digest]> (db_applied d)) d, Ret 1%Z)
       end.
Definition update_receiver (streamId : string) (sequence : Z) (digest : string) : tx (PgDb A) Z := λ d,
  match db_receiver d !! streamId with
  | Some c =>
      if (bool_decide (0 <= sequence)%Z && bool_decide (sequence <= JS_SAFE_INT_SQL)%Z &&
          (bool_decide (digest = EmptyString) || HEX64 digest))%bool
      then (set_receiver (<[streamId := mkReceiverCp (rc_epoch c) sequence digest]> (db_receiver d)) d, Ret 1%Z)
      else (d, Throw (PgError "new row violates check constraint"))
  | None => (d, Ret 0%Z)
  end.

(** [applier.applyInTx(exec, record)]: the application's own statements. *)
Context (applyInTx : OutboxRecord → A → exc A).

(** [verifyAndApplyInTx] from the snapshot on; [record] has passed
    [snapshotRecord], hence the projections. *)
Definition verify_and_apply (streamId : string) (record : OutboxRecord) : tx (PgDb A) ReceiverDecision :=
  let h := or_header record in
  let stream := js_str (oh_streamId h) in
  let epoch := js_str (oh_sourceEpoch h) in
  let sequence := default 0%Z (js_safe_int (oh_sequence h)) in
  if decide (oh_streamId h ≠ JStr streamId) then tlift (contract_error "streamId mismatch for this receiver") else
  do! tlift (assertHeaderConformant h) in
  match assertSanitized (or_mutation record) with
  | Throw _ => tret reject_unsanitized
  | Ret _ =>
      let! recomputed := tlift (canonicalOpDigest (oh_streamId h) (oh_sourceEpoch h) (oh_sequence h)
                                  (oh_fenceToken h) (or_mutation record)) in
      let! same := tlift (digestEqualsField recomputed (oh_opDigest h)) in
      if negb same then tret reject_fork else
      let! fence := tread (λ d, db_fence d !! stream) in
      match fence with
      | None => tret reject_fence
      | Some f =>
          if decide (BigInt_of (js_str (oh_fenceToken h)) ≠ Some f) then tret reject_fence else
          let! cp := tread (λ d, db_receiver d !! stream) in
          match cp with
          | None => tlift (contract_error "receiver stream not provisioned")
          | Some cp =>
              let! cpSeq := tlift (safeSeq (z_to_string (rc_sequence cp)) "receiver.checkpoint.sequence") in
              if decide (epoch ≠ rc_epoch cp) then tret reject_epoch
              else if decide (sequence <= cpSeq)%Z then
                let! prior := tread (λ d, db_applied d !! (stream, epoch, sequence)) in
                match prior with
                | Some digest =>
                    let! eq := tlift (digestEqualsField digest (oh_opDigest h)) in
                    tret (if (eq : bool) then duplicate_ok else reject_fork)
                | None => tret reject_stale
                end
              else if decide (cpSeq + 1 < sequence)%Z then tret reject_gap
              else
                do! app_write (applyInTx record) in
                let! ins := insert_applied (stream, epoch, sequence) (js_str (oh_opDigest h)) in
                do! tlift (affectedOne ins "receiver applied-history insert") in
                let! upd := update_receiver stream sequence (js_str (oh_opDigest h)) in
                do! tlift (affectedOne upd "receiver checkpoint advance") in
                tret applied
          end
      end
  end.

Definition verifyAndApplyInTx (ss : Session) (schema streamId : string) (record : jsval) : tx (PgDb A) ReceiverDecision :=
  let! captured := tlift (snapshotRecord record) in
  do! tlift (enterCriticalTx ss schema) in
  verify_and_apply streamId captured.

(** [verifyAndApplyDelivered]: the receiver's own transaction. *)
Definition verifyAndApplyDelivered (f : fate) (ss : Session) (schema streamId : string) (record : jsval) d
    : PgDb A * exc ReceiverDecision :=
  match snapshotRecord record with
  | Throw e => (d, Throw e)
  | Ret captured => transaction f (verifyAndApplyInTx ss schema streamId (record_obj captured)) d
  end.

(** ** PgPromotionFence *)

Definition fence_acquire (ss : Session) (schema streamId : string) : tx (PgDb A) Z :=
  do! tlift (enterCriticalTx ss schema) in
  λ d,
    let next := match db_fence d !! streamId with None => 1%Z | Some f => (f + 1)%Z end in
    if (text_check streamId && fence_check next)%bool
    then (set_fence (<[streamId := next]> (db_fence d)) d, Ret next)
    else (d, Throw (PgError "new row violates check constraint")).

(** Epoch transitions are refused. *)
Definition transitionEpochInTx {C} : tx (PgDb A) C :=
  tlift (contract_error "epoch transition not implemented in this slice (governed transition is separate)").

Definition fence_current (ss : Session) (schema streamId : string) : tx (PgDb A) Z :=
  do! tlift (enterCriticalTx ss schema) in
  tread (λ d, default 0%Z (db_fence d !! streamId)).
End mechanism.
