(* ===== verification/OutboxPgFacts.v ===== *)
(** * Facts about the outbox transactions

    Inversion for [tx] computations, what a snapshot keeps of a value, and what
    each transaction of [OutboxPg] does when it commits. *)

From S2P Require Import Prelude JsNum Encoding Json JsText Crypto OutboxContract OutboxCanon OutboxDigest OutboxPg.
From stdpp Require Import base strings list gmap sorting.
From Stdlib Require Import ZArith Lia.

Local Open Scope string_scope.
Local Open Scope bpc_scope.

(** ** Inversion *)

Lemma tbind_Ret {S B C} (p : tx S B) (k : B → tx S C) s s' c :
  tbind p k s = (s', Ret c) ↔ ∃ s1 b, p s = (s1, Ret b) ∧ k b s1 = (s', Ret c).
Proof. unfold tbind. destruct (p s) as [s1 [b|e]]; naive_solver. Qed.
Lemma tlift_Ret {S B} (r : exc B) (s s' : S) b : tlift r s = (s', Ret b) ↔ r = Ret b ∧ s' = s.
Proof. unfold tlift. naive_solver. Qed.
Lemma tread_Ret {S B} (f : S → B) (s s' : S) b : tread f s = (s', Ret b) ↔ b = f s ∧ s' = s.
Proof. unfold tread. naive_solver. Qed.
Lemma tret_Ret {S B} (b b' : B) (s s' : S) : tret b s = (s', Ret b') ↔ b' = b ∧ s' = s.
Proof. unfold tret. naive_solver. Qed.

Lemma transaction_cases {S B} f (fn : tx S B) s s' r : transaction f fn s = (s', r) →
  (s' = s ∧ ∃ e, r = Throw e) ∨ ∃ b, fn s = (s', Ret b) ∧ (r = Ret b ∨ ∃ e, r = Throw e).
Proof.
  unfold transaction. destruct (fn s) as [s1 [b|e]]; [|intros [= <- <-]; left; eauto].
  destruct f; intros [= <- <-]; [right|left|right]; eauto.
Qed.

Lemma contract_error_Ret {B} msg (b : B) : contract_error msg ≠ Ret b.
Proof. done. Qed.

(** Peels the statements of a committed transaction off a hypothesis. *)
Ltac tx_inv :=
  repeat match goal with
  | H : tbind _ _ _ = (_, Ret _) |- _ => apply tbind_Ret in H as (? & ? & ? & ?)
  | H : tlift _ _ = (_, Ret _) |- _ => apply tlift_Ret in H as [? ->]
  | H : tread _ _ = (_, Ret _) |- _ => apply tread_Ret in H as [-> ->]
  | H : tret _ _ = (_, Ret _) |- _ => apply tret_Ret in H as [-> ->]
  | H : contract_error _ = Ret _ |- _ => by apply contract_error_Ret in H
  | H : tthrow _ _ = (_, Ret _) |- _ => by unfold tthrow in H
  | H : tlift (contract_error _) _ = (_, Ret _) |- _ => by unfold tlift in H
  end.

Lemma critical_Ret {S C} ss schema (fn : tx S C) s s' c :
  (do! tlift (enterCriticalTx ss schema) in fn) s = (s', Ret c) → fn s = (s', Ret c).
Proof. intros H. by tx_inv. Qed.

(** ** Digests, numbers, keys *)

Lemma digestEquals_true a b : digestEquals a b = Ret true ↔ a = b.
Proof.
  unfold digestEquals. split.
  - case_decide; [done|]. case_decide; [done|]. intros [= Hct]. by apply utf8_encode_inj, ct_equal_true.
  - intros ->. rewrite decide_False by tauto. rewrite decide_False by tauto. f_equal. by apply ct_equal_true.
Qed.
Lemma digestEqualsField_true a v : digestEqualsField a v = Ret true ↔ v = JStr a.
Proof.
  destruct v; simpl; try by split. rewrite digestEquals_true. naive_solver.
Qed.

Lemma BigInt_of_z z : BigInt_of (z_to_string z) = Some z.
Proof.
  unfold z_to_string.
  assert (∀ n, (0 <= n)%Z → ∃ c r, digits n = String c r) as Hd.
  { intros n Hn. destruct (digits n) eqn:E; [by apply digits_nonempty in E|eauto]. }
  case_decide as Hz.
  - rewrite string_app_cons, string_app_nil. unfold BigInt_of. rewrite decide_True by done.
    rewrite digits_all by lia. rewrite bool_decide_true by (apply digits_nonempty; lia). simpl.
    rewrite digits_value_digits by lia. f_equal. lia.
  - destruct (Hd z ltac:(lia)) as (c & r & E). pose proof (digits_all z ltac:(lia)) as Ha.
    unfold BigInt_of. rewrite E in *. rewrite decide_False.
    + rewrite Ha. rewrite <-E, digits_value_digits by lia. done.
    + intros ->. by vm_compute in Ha.
Qed.

Lemma safeSeq_z z label x : safeSeq (z_to_string z) label = Ret x ↔ x = z ∧ (0 <= z <= MAX_SAFE_INTEGER)%Z.
Proof.
  unfold safeSeq. rewrite BigInt_of_z. case_match eqn:E.
  - split; [done|]. intros [_ H]. apply orb_true_iff in E as [E|E]; apply bool_decide_eq_true in E; lia.
  - btrue. split; [intros [= <-]; lia|intros [-> _]; done].
Qed.

Lemma affectedOne_Ret n label : affectedOne n label = Ret tt ↔ n = 1%Z.
Proof. unfold affectedOne. case_decide; by split. Qed.

(** ** Snapshots *)

Lemma om_get_fmap {V V'} (f : V → V') k (l : list (string * V)) :
  om_get k ((λ kv, (kv.1, f kv.2)) <$> l) = f <$> om_get k l.
Proof. induction l as [|[k' v] l IH]; [done|]. csimpl. by case_decide. Qed.

Lemma sort_field_fmap (l : list (string * jsval)) : sort_field <$> l = (λ kv, (kv.1, jsorted kv.2)) <$> l.
Proof. apply list_fmap_ext. by intros ? []. Qed.
Lemma reorder_field_fmap (l : list (string * jsval)) : List.map reorder_field l = (λ kv, (kv.1, jreorder kv.2)) <$> l.
Proof. apply list_fmap_ext. by intros ? []. Qed.

Definition copied (v : jsval) : jsval := jreorder (jsorted v).

Lemma field_copied l k : NoDup l.*1 → field (copied (JObj l)) k = default JUndef (copied <$> om_get k l).
Proof.
  intros Hnd. unfold copied. rewrite jsorted_obj.
  assert (NoDup (fields_sorted (sort_field <$> l)).*1) as Hnd'.
  { by rewrite fields_sorted_keys, sorted_keys_perm, sort_field_keys. }
  change (jreorder (JObj ?x)) with (JObj (js_order (List.map reorder_field x))).
  unfold field, prop. rewrite <-(om_get_perm k (List.map reorder_field (fields_sorted (sort_field <$> l))));
    [|by rewrite reorder_field_keys|by rewrite js_order_perm].
  rewrite reorder_field_fmap, om_get_fmap.
  rewrite (om_get_perm k (fields_sorted _) (sort_field <$> l)); [|done|by apply fields_sorted_perm; rewrite sort_field_keys].
  rewrite sort_field_fmap, om_get_fmap. by destruct (om_get k l).
Qed.

Lemma copied_fin v : jfin v → jfin (copied v).
Proof.
  intros Hv. assert (∀ u, jfin u → jfin (jreorder u)) as Hr; [|by apply Hr, jfin_jsorted].
  clear. intros u. induction u as [| |b|[d| |]|s|l IH|l IH] using jsval_induction; try done.
  - rewrite jfin_arr. intros Hl. change (jreorder (JArr l)) with (JArr (jreorder <$> l)).
    rewrite jfin_arr. apply Forall_fmap. decompose_Forall. simpl. auto.
  - rewrite jfin_obj. intros [Hnd Hl]. change (jreorder (JObj l)) with (JObj (js_order (List.map reorder_field l))).
    rewrite jfin_obj, js_order_perm, reorder_field_keys, reorder_field_fmap. split; [done|].
    apply Forall_fmap. decompose_Forall. simpl. auto.
Qed.
Lemma copied_sorted v : jfin v → jsorted (copied v) = jsorted v.
Proof.
  intros Hv. unfold copied. rewrite jsorted_reorder by by apply jfin_distinct, jfin_jsorted.
  by apply jsorted_idem, jfin_distinct.
Qed.

Lemma jcs_canonicalize_fin v s : keys_distinct v → jcs_canonicalize v = Ret s →
  jfin v ∧ parse s = Ret (copied v).
Proof.
  intros Hk Hs. apply jcs_canonicalize_Ret in Hs as [[Hok _] ->]; [|done].
  apply jcs_ok_fin in Hok; [|done]. split; [done|]. by apply parse_stringify_fin, jfin_jsorted.
Qed.

(** A snapshot is the value with its properties in another order. *)
Lemma snapshotJson_Ret v label v' : keys_distinct v → snapshotJson v label = Ret v' →
  jfin v ∧ v' = copied v ∧ ∃ s, jcs_canonicalize v = Ret s.
Proof.
  intros Hk. unfold snapshotJson. destruct (jcs_canonicalize v) as [s|e] eqn:Hs; [|by destruct e].
  destruct (jcs_canonicalize_fin v s Hk Hs) as [Hf Hp]. simpl. rewrite Hp. simpl. intros [= <-]. eauto.
Qed.
Lemma snapshotJson_total v label s : keys_distinct v → jcs_canonicalize v = Ret s →
  snapshotJson v label = Ret (copied v).
Proof.
  intros Hk Hs. unfold snapshotJson. rewrite Hs. simpl.
  by rewrite (proj2 (jcs_canonicalize_fin v s Hk Hs)).
Qed.

(** ** Records *)

(** The record carries the row's fields, and its mutation up to the order of
    properties. *)
Definition row_header (k : row_key) (r : OutboxRow) : OutboxRecordHeader :=
  mkHeader (JStr "1") (JStr k.1.1) (JStr k.1.2) (JNum (int k.2)) (JStr (z_to_string (ro_fence r))) (JStr (ro_digest r)).
Definition carries (k : row_key) (r : OutboxRow) (rec : OutboxRecord) : Prop :=
  or_header rec = row_header k r ∧ jfin (or_mutation rec) ∧ jsorted (or_mutation rec) = jsorted (ro_mutation r).

Definition header_obj (h : OutboxRecordHeader) (m : jsval) : jsval := record_obj (mkRecord h m).

Lemma RECORD_KEYS_NoDup : NoDup RECORD_KEYS.
Proof. apply (bool_decide_unpack _). vm_compute. exact I. Qed.

Lemma record_obj_keys r : (match record_obj r with JObj l => l.*1 | _ => [] end) = RECORD_KEYS.
Proof. by destruct r as [[] ?]. Qed.

Lemma field_record_obj r k v : keys_distinct (record_obj r) →
  match record_obj r with JObj l => om_get k l = Some v | _ => False end → field (copied (record_obj r)) k = copied v.
Proof.
  intros [Hnd _]%keys_distinct_obj Hg. unfold record_obj in *. rewrite field_copied by done. by rewrite Hg.
Qed.

(** Snapshots of a record whose header fields are scalars. *)
Lemma snapshotRecord_scalar h m rec :
  jfin m → Forall (λ v, copied v = v ∧ keys_distinct v)
    [oh_contractVersion h; oh_streamId h; oh_sourceEpoch h; oh_sequence h; oh_fenceToken h; oh_opDigest h] →
  snapshotRecord (record_obj (mkRecord h m)) = Ret rec →
  rec = mkRecord h (copied m) ∧ assertHeaderConformant h = Ret tt.
Proof.
  intros Hm Hsc. unfold snapshotRecord. rewrite !Forall_cons in Hsc.
  destruct Hsc as (Hs1 & Hs2 & Hs3 & Hs4 & Hs5 & Hs6 & _).
  assert (keys_distinct (record_obj (mkRecord h m))) as Hk.
  { apply keys_distinct_obj. split; [exact RECORD_KEYS_NoDup|].
    repeat apply Forall_cons_2; cbn [snd or_header or_mutation]; [tauto..|by apply jfin_distinct|by apply Forall_nil_2]. }
  intros (v & Hv & Hr)%exc_bind_Ret. apply snapshotJson_Ret in Hv as (_ & -> & _); [|done].
  apply exc_bind_Ret in Hr as ([] & _ & Hr). apply exc_bind_Ret in Hr as ([] & Hc & [= <-]).
  assert (record_of (copied (record_obj (mkRecord h m))) = mkRecord h (copied m)) as Hrec.
  { unfold record_of. erewrite !field_record_obj; [|first [exact Hk|reflexivity]..].
    destruct h. simpl in *. f_equal. f_equal; tauto. }
  split; [done|].
  change (assertHeaderConformant (or_header (record_of (copied (record_obj (mkRecord h m))))) = Ret tt) in Hc.
  by rewrite Hrec in Hc.
Qed.

Lemma carries_snapshot k r rec rec' : carries k r rec → snapshotRecord (record_obj rec) = Ret rec' → carries k r rec'.
Proof.
  intros (Hh & Hm & Hs) H. destruct rec as [h m]. simpl in *. subst h.
  apply snapshotRecord_scalar in H as [-> _]; [|done|].
  - split_and!; simpl; [done|by apply copied_fin|by rewrite copied_sorted].
  - by repeat constructor.
Qed.

(** ** What a committed append does *)

Class MutationSanitizerLaws (SAN : MutationSanitizer) := {
  (** The result is a JavaScript value: its objects have no duplicate keys. *)
  sanitize_object raw clean : sanitize raw = Ret clean → keys_distinct clean;
}.

Section facts.
Context `{WC : WebCrypto} `{J : Jsonb} `{SAN : MutationSanitizer} `{!MutationSanitizerLaws SAN} {A : Type}.
Implicit Types d : PgDb A.

(** The row an append adds. *)
Definition appended (opts : PgOutboxOptions) (s : string) (raw : jsval) (fence : Z) d (h : OutboxRecordHeader) d' : Prop :=
  ∃ cp clean dg,
    s = oo_streamId opts ∧ db_source d !! s = Some cp ∧ db_fence d !! s = Some fence ∧
    (pending_rows s d < oo_maxPendingRows opts)%Z ∧ (0 <= sc_sequence cp < MAX_SAFE_INTEGER)%Z ∧
    (∃ raw', snapshotJson raw "raw mutation" = Ret raw' ∧ sanitize raw' = Ret clean) ∧ jfin clean ∧
    canonicalOpDigest (JStr s) (JStr (sc_epoch cp)) (JNum (int (sc_sequence cp + 1)))
      (JStr (z_to_string fence)) (copied clean) = Ret dg ∧
    let k := (s, sc_epoch cp, (sc_sequence cp + 1)%Z) in
    let row := mkRow fence dg (jsonb (copied clean)) None None None in
    db_rows d !! k = None ∧ h = row_header k row ∧
    d' = set_source (<[s := mkSourceCp (sc_epoch cp) (sc_sequence cp + 1)]> (db_source d))
           (set_rows (<[k := row]> (db_rows d)) d).

Lemma insert_row_Ret k (r : OutboxRow) d d' n : insert_row k r d = (d', Ret n) →
  n = 1%Z ∧ db_rows d !! k = None ∧ d' = set_rows (<[k := r]> (db_rows d)) d ∧ HEX64 (ro_digest r) = true.
Proof.
  unfold insert_row. case_match eqn:Hc; [done|]. btrue. case_match; [done|]. intros [= <- <-].
  match goal with H : negb _ = false |- _ => apply negb_false_iff in H | _ => idtac end. btrue. done.
Qed.
Lemma update_source_Ret s q d d' : update_source s q d = (d', Ret 1%Z) →
  ∃ c, db_source d !! s = Some c ∧ d' = set_source (<[s := mkSourceCp (sc_epoch c) q]> (db_source d)) d.
Proof. unfold update_source. repeat case_match; try done. intros [= <-]. eauto. Qed.

Lemma fenceTokenToDecimal_Ret f s : fenceTokenToDecimal f = Ret s ↔ s = z_to_string f ∧ (0 <= f)%Z.
Proof. unfold fenceTokenToDecimal. case_decide; naive_solver lia. Qed.

Lemma appendInTx_Ret opts s raw fence d d' h :
  appendInTx opts s raw fence d = (d', Ret h) → appended opts s raw fence d h d'.
Proof.
  unfold appendInTx. intros H. apply tbind_Ret in H as (? & raw' & [Hraw ->]%tlift_Ret & H).
  apply tbind_Ret in H as (? & clean & [Hclean ->]%tlift_Ret & H).
  apply tbind_Ret in H as (? & mutation & [Hmut ->]%tlift_Ret & H).
  apply snapshotJson_Ret in Hmut as (Hfin & -> & _); [|by eapply sanitize_object].
  destruct (decide (s ≠ oo_streamId opts)) as [|Hs]; [tx_inv|]. apply dec_stable in Hs.
  apply tbind_Ret in H as (? & dec & [[-> Hf0]%fenceTokenToDecimal_Ret ->]%tlift_Ret & H).
  apply tbind_Ret in H as (? & pf & [-> ->]%tread_Ret & H).
  destruct (db_fence d !! s) as [pf|] eqn:Hfence; [|tx_inv].
  destruct (decide (fence ≠ pf)) as [|Hpf]; [tx_inv|]. apply dec_stable in Hpf as <-.
  apply tbind_Ret in H as (? & ? & [-> ->]%tread_Ret & H).
  apply tbind_Ret in H as (? & pending & [[-> _]%safeSeq_z ->]%tlift_Ret & H).
  destruct (decide (oo_maxPendingRows opts <= pending_rows s d)%Z); [tx_inv|].
  apply tbind_Ret in H as (? & cp & [-> ->]%tread_Ret & H).
  destruct (db_source d !! s) as [cp|] eqn:Hcp; [|tx_inv].
  apply tbind_Ret in H as (? & cur & [[-> Hcur]%safeSeq_z ->]%tlift_Ret & H).
  destruct (decide (MAX_SAFE_INTEGER <= sc_sequence cp)%Z); [tx_inv|].
  apply tbind_Ret in H as (? & dg & [Hdg ->]%tlift_Ret & H).
  apply tbind_Ret in H as (d1 & ins & (-> & Hnone & -> & _)%insert_row_Ret & H).
  apply tbind_Ret in H as (? & ? & [_ ->]%tlift_Ret & H).
  apply tbind_Ret in H as (d2 & upd & Hupd & H).
  apply tbind_Ret in H as (? & [] & [Hone%affectedOne_Ret ->]%tlift_Ret & H). subst upd.
  apply update_source_Ret in Hupd as (c & Hc & ->). simpl in Hc. assert (c = cp) as -> by congruence.
  apply tbind_Ret in H as (? & ? & [_ ->]%tlift_Ret & [-> ->]%tret_Ret).
  exists cp, clean, dg. split_and!; try done; try lia. by exists raw'.
Qed.

(** A governed append answers with a conformant header of the governing append's, made
    from the sanitized mutation for this outbox's stream. *)
Lemma appendInTx_governed_Ret g opts s raw fence d d' h : appendInTx_governed g opts s raw fence d = (d', Ret h) →
  s = oo_streamId opts ∧ (0 <= fence)%Z ∧ assertHeaderConformant h = Ret tt ∧
  ∃ raw' clean mutation, snapshotJson raw "raw mutation" = Ret raw' ∧ sanitize raw' = Ret clean ∧
    snapshotJson clean "sanitized mutation" = Ret mutation ∧
    g s mutation fence (oo_maxPendingRows opts) (oo_backpressure opts) d = (d', Ret h).
Proof.
  unfold appendInTx_governed. intros H. apply tbind_Ret in H as (? & raw' & [Hraw ->]%tlift_Ret & H).
  apply tbind_Ret in H as (? & clean & [Hclean ->]%tlift_Ret & H).
  apply tbind_Ret in H as (? & mutation & [Hmut ->]%tlift_Ret & H).
  destruct (decide (s ≠ oo_streamId opts)) as [|Hs]; [tx_inv|]. apply dec_stable in Hs.
  apply tbind_Ret in H as (? & dec & [[_ Hf0]%fenceTokenToDecimal_Ret ->]%tlift_Ret & H).
  apply tbind_Ret in H as (d1 & h1 & Hg & H). apply tbind_Ret in H as (? & [] & [Hc ->]%tlift_Ret & [-> ->]%tret_Ret).
  split_and!; try done. by exists raw', clean, mutation.
Qed.

(** The fence only moves forward. *)
Lemma fence_acquire_Ret ss schema s d d' n : fence_acquire ss schema s d = (d', Ret n) →
  n = match db_fence d !! s with Some f => (f + 1)%Z | None => 1%Z end ∧
  d' = set_fence (<[s := n]> (db_fence d)) d ∧ (n < FENCE_MAX_EXCLUSIVE)%Z.
Proof.
  intros H%critical_Ret. revert H. cbv zeta. set (next := match db_fence d !! s with Some f => _ | None => _ end).
  destruct (text_check s && fence_check next)%bool eqn:Hc; [|done]. intros [= <- <-].
  unfold fence_check in Hc. btrue. done.
Qed.

(** ** What a committed delivery does *)

Context (applyInTx : OutboxRecord → A → exc A).

Lemma insert_applied_Ret k dg d d' n : insert_applied k dg d = (d', Ret n) →
  n = 1%Z ∧ db_applied d !! k = None ∧ d' = set_applied (<[k := dg]> (db_applied d)) d.
Proof. unfold insert_applied. repeat case_match; try done. by intros [= <- <-]. Qed.
Lemma update_receiver_Ret s q dg d d' : update_receiver s q dg d = (d', Ret 1%Z) →
  ∃ c, db_receiver d !! s = Some c ∧
    d' = set_receiver (<[s := mkReceiverCp (rc_epoch c) q dg]> (db_receiver d)) d.
Proof. unfold update_receiver. repeat case_match; try done. intros [= <-]. eauto. Qed.
Lemma app_write_Ret (mutate : A → exc A) d d' u : app_write mutate d = (d', Ret u) →
  ∃ a, mutate (db_app d) = Ret a ∧ d' = set_app a d.
Proof. unfold app_write. case_match; [|done]. intros [= <- <-]. eauto. Qed.

(** The database after a fresh record has been applied. *)
Definition received (k : row_key) (dg : string) (a : A) d : PgDb A :=
  set_receiver (<[k.1.1 := mkReceiverCp k.1.2 k.2 dg]> (db_receiver d))
    (set_applied (<[k := dg]> (db_applied d)) (set_app a d)).

Definition delivery (k : row_key) (r : OutboxRow) (rec : OutboxRecord) (dec : ReceiverDecision) d d' : Prop :=
  match dec with
  | applied =>
      ∃ cp a, db_fence d !! k.1.1 = Some (ro_fence r) ∧ db_receiver d !! k.1.1 = Some cp ∧
        rc_epoch cp = k.1.2 ∧ (0 <= rc_sequence cp)%Z ∧ k.2 = (rc_sequence cp + 1)%Z ∧
        db_applied d !! k = None ∧ applyInTx rec (db_app d) = Ret a ∧ d' = received k (ro_digest r) a d ∧
        assertHeaderConformant (row_header k r) = Ret tt ∧ assertSanitized (or_mutation rec) = Ret tt ∧
        canonicalOpDigest (JStr k.1.1) (JStr k.1.2) (JNum (int k.2)) (JStr (z_to_string (ro_fence r))) (or_mutation rec) =
          Ret (ro_digest r)
  | duplicate_ok => d' = d ∧ db_applied d !! k = Some (ro_digest r)
  | _ => d' = d
  end.

Lemma row_header_safe k r : assertHeaderConformant (row_header k r) = Ret tt → js_safe_int (JNum (int k.2)) = Some k.2.
Proof.
  destruct k as [[s e] q]. intros (? & ? & q' & ? & ? & Heq & _ & _ & Hsafe & _)%assertHeaderConformant_Ret.
  unfold row_header in Heq. injection Heq as _ _ Heq _ _. apply js_safe_int_Some. by rewrite Heq in *.
Qed.

Lemma verify_and_apply_Ret k r rec dec d d' : carries k r rec →
  verify_and_apply applyInTx k.1.1 rec d = (d', Ret dec) → delivery k r rec dec d d'.
Proof.
  destruct k as [[s e] q]. intros (Hh & _ & _) H. unfold verify_and_apply in H. rewrite Hh in H.
  cbn [row_header oh_streamId oh_sourceEpoch oh_sequence oh_fenceToken oh_opDigest fst snd js_str] in H.
  rewrite decide_False in H by tauto. apply tbind_Ret in H as (? & [] & [Hc ->]%tlift_Ret & H).
  destruct (assertSanitized _) as [[]|] eqn:Hsan; [|by apply tret_Ret in H as [-> ->]].
  apply tbind_Ret in H as (? & dg & [Hdg ->]%tlift_Ret & H).
  apply tbind_Ret in H as (? & same & [Hsame ->]%tlift_Ret & H).
  destruct same; [|by apply tret_Ret in H as [-> ->]]. cbn [negb] in H.
  apply digestEqualsField_true in Hsame. injection Hsame as <-.
  apply tbind_Ret in H as (? & ? & [-> ->]%tread_Ret & H).
  destruct (db_fence d !! s) as [f|] eqn:Hf; [|by apply tret_Ret in H as [-> ->]].
  rewrite BigInt_of_z in H. destruct (decide (Some (ro_fence r) ≠ Some f)) as [|Hfe]; [by apply tret_Ret in H as [-> ->]|].
  apply dec_stable in Hfe as [= <-].
  apply tbind_Ret in H as (? & ? & [-> ->]%tread_Ret & H).
  destruct (db_receiver d !! s) as [cp|] eqn:Hcp; [|tx_inv].
  apply tbind_Ret in H as (? & cur & [[-> Hcur]%safeSeq_z ->]%tlift_Ret & H).
  destruct (decide (e ≠ rc_epoch cp)) as [|He]; [by apply tret_Ret in H as [-> ->]|]. apply dec_stable in He.
  pose proof (row_header_safe (s, e, q) r Hc) as Hq. cbn [snd] in Hq.
  rewrite Hq in H. cbn [default] in H. unfold from_option, id in H.
  destruct (decide (q <= rc_sequence cp)%Z).
  { apply tbind_Ret in H as (? & ? & [-> ->]%tread_Ret & H).
    destruct (db_applied d !! _) as [prior|] eqn:Hp; [|by apply tret_Ret in H as [-> ->]].
    apply tbind_Ret in H as (? & eq & [Heq ->]%tlift_Ret & [-> ->]%tret_Ret).
    destruct eq; [|done]. apply digestEqualsField_true in Heq as [= <-]. split; [done|exact Hp]. }
  destruct (decide (rc_sequence cp + 1 < q)%Z); [by apply tret_Ret in H as [-> ->]|].
  apply tbind_Ret in H as (? & ? & (app1 & Ha & ->)%app_write_Ret & H).
  apply tbind_Ret in H as (? & ? & (-> & Hnone & ->)%insert_applied_Ret & H).
  apply tbind_Ret in H as (? & ? & [_ ->]%tlift_Ret & H).
  apply tbind_Ret in H as (? & upd & Hupd & H).
  apply tbind_Ret in H as (? & [] & [Hone%affectedOne_Ret ->]%tlift_Ret & [-> ->]%tret_Ret). subst upd.
  apply update_receiver_Ret in Hupd as (c & Hc' & ->). simpl in Hc', Hnone. assert (c = cp) as -> by congruence.
  exists cp, app1. simpl. split_and!; try done; try lia.
  unfold received. simpl. by rewrite He.
Qed.
End facts.
