(* ===== verification/OutboxPublisher.v ===== *)
(** * Two nodes: the publisher, the network, the receiver
    (packages/server/src/ha-outbox-pg.ts)

    [HA] is the world of one stream's two nodes: the source database, the
    receiver's database, what has been handed to the transport and what the
    receiver has decided.  Transactions and network calls are atomic steps of
    [proc HA]; any number of appends, publishers, receivers and fence changes run
    interleaved.  The outcome of every transaction and every reply of the
    transport come from the environment. *)

From S2P Require Import Prelude Proc JsNum Encoding Json JsText Crypto OutboxContract OutboxPg.
From stdpp Require Import base strings list gmap sorting.
From Stdlib Require Import ZArith.

Local Open Scope string_scope.
Local Open Scope bpc_scope.

(** ** Acknowledgement receipts *)

Record AckReceipt := mkReceipt {
  ar_streamId : string; ar_sourceEpoch : string; ar_sequence : Z; ar_opDigest : string;
  ar_decision : string; ar_receiverId : string; ar_keyId : string; ar_issuedAt : string; ar_signature : string }.

Definition decision_text (d : ReceiverDecision) : string :=
  match d with
  | applied => "applied" | duplicate_ok => "duplicate-ok" | reject_gap => "reject-gap"
  | reject_fork => "reject-fork" | reject_stale => "reject-stale" | reject_epoch => "reject-epoch"
  | reject_fence => "reject-fence" | reject_unsanitized => "reject-unsanitized"
  end.

Definition ACK_DECISIONS : list string := decision_text <$> [applied; duplicate_ok].
Definition TRANSIENT_DECISIONS : list string := decision_text <$> [reject_gap; reject_fence].
Definition TERMINAL_DECISIONS : list string :=
  decision_text <$> [reject_fork; reject_stale; reject_unsanitized; reject_epoch].
Definition KNOWN_DECISIONS : list string := ACK_DECISIONS ++ TRANSIENT_DECISIONS ++ TERMINAL_DECISIONS.

Definition RECEIPT_KEYS : list string :=
  ["streamId"; "sourceEpoch"; "sequence"; "opDigest"; "decision"; "receiverId"; "keyId"; "issuedAt"; "signature"].

Definition receipt_of (v : jsval) : exc AckReceipt :=
  match field v "streamId", field v "sourceEpoch", js_safe_int (field v "sequence"), field v "opDigest",
        field v "decision", field v "receiverId", field v "keyId", field v "issuedAt", field v "signature" with
  | JStr s, JStr e, Some q, JStr d, JStr dec, JStr rid, JStr kid, JStr at_, JStr sig =>
      if decide (q < 1)%Z then contract_error "ACK receipt has invalid field types"
      else Ret (mkReceipt s e q d dec rid kid at_ sig)
  | _, _, _, _, _, _, _, _, _ => contract_error "ACK receipt has invalid field types"
  end.
Definition snapshotAckReceipt (receipt : jsval) : exc AckReceipt :=
  snapshot ← snapshotJson receipt "ACK receipt";
  _ ← assertExactOwnKeys snapshot RECEIPT_KEYS "ACK receipt";
  receipt_of snapshot.

Record DrainResult := mkDrain {
  dr_published : Z; dr_acked : Z; dr_quarantined : Z; dr_retriable : bool }.

(** ** The world *)

Record HA (A B : Type) := mkHA {
  ha_source : PgDb A;
  ha_dest : PgDb B;
  ha_clock : Z;
  ha_sent : list OutboxRecord;
  ha_issued : list (OutboxRecord * ReceiverDecision);
  (** outcomes the environment has in store, and how many are used up *)
  ha_fates : nat → fate;
  ha_replies : nat → OutboxRecord → exc jsval;
  ha_uuids : nat → string;
  ha_draws : nat }.
Arguments mkHA {A B}. Arguments ha_source {A B}. Arguments ha_dest {A B}. Arguments ha_clock {A B}.
Arguments ha_sent {A B}. Arguments ha_issued {A B}. Arguments ha_fates {A B}. Arguments ha_replies {A B}.
Arguments ha_uuids {A B}. Arguments ha_draws {A B}.

(** [AckReceiptVerifier.verify]: throws unless the receipt is a genuine decision
    of the authorized receiver over this record. *)
Class AckReceiptVerifier (W : Type) := { ack_verify : AckReceipt → OutboxRecord → W → exc unit }.

Section nodes.
Context `{WC : WebCrypto} `{J : Jsonb} `{SAN : MutationSanitizer} {A B : Type}.
Notation W := (HA A B).
Context `{ACK : AckReceiptVerifier W}.
(** The sessions of the two databases, the schema, the stream, the options of the
    outbox and of the publisher, the applier. *)
Context (ss : Session) (schema streamId : string) (opts : PgOutboxOptions) (leaseMs : Z).
Context (preCommitCheck : option (tx (PgDb A) unit)) (applyInTx : OutboxRecord → B → exc B).
Implicit Types w : W.

Definition source_tx {C} (fn : Z → tx (PgDb A) C) : proc W (exc C) :=
  call (λ w,
    let '(d, r) := transaction (ha_fates w (ha_draws w)) (fn (ha_clock w)) (ha_source w) in
    (mkHA d (ha_dest w) (ha_clock w) (ha_sent w) (ha_issued w) (ha_fates w) (ha_replies w) (ha_uuids w)
       (S (ha_draws w)), r)).
Definition randomUUID : proc W string :=
  call (λ w, (mkHA (ha_source w) (ha_dest w) (ha_clock w) (ha_sent w) (ha_issued w) (ha_fates w) (ha_replies w)
                (ha_uuids w) (S (ha_draws w)), ha_uuids w (ha_draws w))).
Definition critical {C} (fn : tx (PgDb A) C) : tx (PgDb A) C :=
  do! tlift (enterCriticalTx ss schema) in fn.

(** ** PgDurablePublisher *)

(** The upsert takes the lease when it is free or expired. *)
Definition acquire_sql (leaseToken : string) (now : Z) : tx (PgDb A) Z := λ d,
  let mine := mkLease (Some leaseToken) (Some (now + leaseMs)%Z) in
  match db_lease d !! streamId with
  | None => (set_lease (<[streamId := mine]> (db_lease d)) d, Ret 1%Z)
  | Some l =>
      if match le_until l with None => true | Some u => bool_decide (u < now)%Z end
      then (set_lease (<[streamId := mine]> (db_lease d)) d, Ret 1%Z)
      else (d, Ret 0%Z)
  end.
Definition acquireLease (leaseToken : string) : proc W (exc bool) :=
  source_tx (λ now, critical (let! n := acquire_sql leaseToken now in tret (bool_decide (n = 1%Z)))).

Definition releaseLease (leaseToken : string) : proc W (exc unit) :=
  source_tx (λ _, critical (λ d,
    match db_lease d !! streamId with
    | Some l => if decide (le_token l = Some leaseToken)
                then (set_lease (<[streamId := mkLease None None]> (db_lease d)) d, Ret tt) else (d, Ret tt)
    | None => (d, Ret tt)
    end)).

(** The check every transaction of the publisher starts with. *)
Definition require_lease (leaseToken msg : string) : tx (PgDb A) unit :=
  let! lease := tread (λ d, db_lease d !! streamId) in
  match lease with
  | Some l => if decide (le_token l = Some leaseToken) then tret tt else tlift (contract_error msg)
  | None => tlift (contract_error msg)
  end.

(** [SELECT ... WHERE stream_id = $1 AND acked_at IS NULL ORDER BY sequence ASC LIMIT 1] *)
Definition seq_le (a b : row_key * OutboxRow) : Prop := (a.1.2 <= b.1.2)%Z.
#[export] Instance seq_le_dec : RelDecision seq_le.
Proof. unfold seq_le. intros a b. apply _. Defined.
Definition lowest_unacked (d : PgDb A) : option (row_key * OutboxRow) :=
  head (merge_sort seq_le (filter (λ kr : row_key * OutboxRow, kr.1.1.1 = streamId ∧ ro_acked kr.2 = None)
    (map_to_list (db_rows d)))).

(** A row as the driver returns it: numbers of type bigint and numeric are text. *)
Definition row_obj (kr : row_key * OutboxRow) : jsval :=
  JObj [("source_epoch", JStr kr.1.1.2); ("sequence", JStr (z_to_string kr.1.2));
        ("fence_token", JStr (z_to_string (ro_fence kr.2))); ("op_digest", JStr (ro_digest kr.2));
        ("mutation", ro_mutation kr.2)].
Definition ROW_KEYS : list string := ["source_epoch"; "sequence"; "fence_token"; "op_digest"; "mutation"].

Definition nextDeliverable (leaseToken : string) : proc W (exc (option jsval)) :=
  source_tx (λ _, critical (
    do! require_lease leaseToken "publisher lease lost — aborting drain" in
    let! row := tread lowest_unacked in
    tret (match row with
          | Some kr => if decide (ro_quarantined kr.2 = None) then Some (row_obj kr) else None
          | None => None
          end))).

Definition quarantine_insert (k : row_key) (digest decision : string) : tx (PgDb A) unit := λ d,
  if (negb (key_check k && HEX64 digest))%bool then (d, Throw (PgError "new row violates check constraint"))
  else match db_quarantine d !! k with
       | None => (set_quarantine (<[k := (digest, decision)]> (db_quarantine d)) d, Ret tt)
       | Some (exDigest, exDecision) =>
           match digestEquals exDigest digest with
           | Throw e => (d, Throw e)
           | Ret same =>
               if (negb same || bool_decide (exDecision ≠ decision))%bool
               then (d, contract_error "quarantine record conflict: existing digest/decision differ from this record")
               else (d, Ret tt)
           end
       end.
(** The two guarded UPDATEs of a row; the row count is 0 or 1. *)
Definition update_row (k : row_key) (guard : OutboxRow → bool) (f : OutboxRow → OutboxRow) : tx (PgDb A) Z := λ d,
  match db_rows d !! k with
  | Some r => if guard r then (set_rows (<[k := f r]> (db_rows d)) d, Ret 1%Z) else (d, Ret 0%Z)
  | None => (d, Ret 0%Z)
  end.
Definition row_open (r : OutboxRow) : bool :=
  (bool_decide (ro_acked r = None) && bool_decide (ro_quarantined r = None))%bool.

Definition quarantineRecord (leaseToken sourceEpoch : string) (sequence : Z) (storedDigest decision : string)
    : proc W (exc unit) :=
  source_tx (λ now, critical (
    do! require_lease leaseToken "publisher lease lost — not quarantining" in
    do! quarantine_insert (streamId, sourceEpoch, sequence) storedDigest decision in
    let! mark := update_row (streamId, sourceEpoch, sequence) row_open
      (λ r, mkRow (ro_fence r) (ro_digest r) (ro_mutation r) (ro_published r) (ro_acked r) (Some now)) in
    tlift (affectedOne mark "quarantine mark"))).

Definition ackRecord (leaseToken sourceEpoch : string) (sequence : Z) (storedDigest : string) : proc W (exc unit) :=
  source_tx (λ now, critical (
    do! require_lease leaseToken "publisher lease lost — not acking" in
    let! res := update_row (streamId, sourceEpoch, sequence)
      (λ r, row_open r && bool_decide (ro_digest r = storedDigest))
      (λ r, mkRow (ro_fence r) (ro_digest r) (ro_mutation r) (Some now) (Some now) (ro_quarantined r)) in
    tlift (affectedOne res "publisher ack"))).

(** [transport.deliverAndAwaitAck(record)]: the request leaves; what comes back,
    if anything, is up to the network. *)
Definition deliverAndAwaitAck (record : OutboxRecord) : proc W (exc jsval) :=
  do* update (λ w, mkHA (ha_source w) (ha_dest w) (ha_clock w) (ha_sent w ++ [record]) (ha_issued w) (ha_fates w)
                     (ha_replies w) (ha_uuids w) (ha_draws w)) in
  call (λ w, (mkHA (ha_source w) (ha_dest w) (ha_clock w) (ha_sent w) (ha_issued w) (ha_fates w) (ha_replies w)
                (ha_uuids w) (S (ha_draws w)), ha_replies w (ha_draws w) record)).

(** The record a row is published as, with its digest recomputed. *)
Definition row_record (row : jsval) : exc OutboxRecord :=
  row ← snapshotJson row "outbox database row";
  _ ← assertExactOwnKeys row ROW_KEYS "outbox database row";
  sourceEpoch ← js_to_string (field row "source_epoch");
  seqText ← js_to_string (field row "sequence");
  sequence ← safeSeq seqText "row.sequence";
  fenceToken ← js_to_string (field row "fence_token");
  opDigest ← js_to_string (field row "op_digest");
  record ← snapshotRecord (record_obj (mkRecord
    (mkHeader (JStr "1") (JStr streamId) (JStr sourceEpoch) (JNum (int sequence)) (JStr fenceToken) (JStr opDigest))
    (field row "mutation")));
  _ ← assertSanitized (or_mutation record);
  recomputed ← canonicalOpDigest (oh_streamId (or_header record)) (oh_sourceEpoch (or_header record))
                 (oh_sequence (or_header record)) (oh_fenceToken (or_header record)) (or_mutation record);
  same ← digestEqualsField recomputed (oh_opDigest (or_header record));
  if negb same then contract_error "corrupted outbox row: digest mismatch" else Ret record.

(** The receipt must echo the record it acknowledges. *)
Definition receipt_binds (receipt : AckReceipt) (record : OutboxRecord) : exc bool :=
  let h := or_header record in
  if (bool_decide (ar_streamId receipt ≠ streamId) ||
      bool_decide (JStr (ar_sourceEpoch receipt) ≠ oh_sourceEpoch h) ||
      bool_decide (JNum (int (ar_sequence receipt)) ≠ oh_sequence h))%bool
  then Ret false
  else digestEqualsField (ar_opDigest receipt) (oh_opDigest h).

Definition throw_if (b : bool) (msg : string) : proc W (exc unit) :=
  Done (if b then contract_error msg else Ret tt).

(** The loop of [drainOnce]; [None] when [n] rounds were not enough. *)
Fixpoint drain_loop (n : nat) (leaseToken : string) (published acked quarantined : Z)
    : proc W (exc (option DrainResult)) :=
  match n with
  | O => eret None
  | S n =>
      let+ r := nextDeliverable leaseToken in
      match r with
      | None => eret (Some (mkDrain published acked quarantined false))
      | Some r =>
          let+ record := Done (row_record r) in
          let h := or_header record in
          let sourceEpoch := js_str (oh_sourceEpoch h) in
          let sequence := default 0%Z (js_safe_int (oh_sequence h)) in
          let storedDigest := js_str (oh_opDigest h) in
          let* delivered := deliverAndAwaitAck record in
          match delivered with
          | Throw (OutboxTransportError msg false) =>
              do+ quarantineRecord leaseToken sourceEpoch sequence storedDigest "reject-transport-terminal" in
              eret (Some (mkDrain published acked (quarantined + 1) false))
          | Throw error => ethrow error
          | Ret delivered =>
              let+ receipt := Done (snapshotAckReceipt delivered) in
              let published := (published + 1)%Z in
              do+ read (λ w, ack_verify receipt record w) in
              let+ bound := Done (receipt_binds receipt record) in
              do+ throw_if (negb bound) "ACK receipt does not match the delivered record — not acking" in
              do+ throw_if (bool_decide (ar_decision receipt ∉ KNOWN_DECISIONS)) "unknown receiver decision" in
              if decide (ar_decision receipt ∈ ACK_DECISIONS) then
                do+ ackRecord leaseToken sourceEpoch sequence storedDigest in
                drain_loop n leaseToken published (acked + 1) quarantined
              else if decide (ar_decision receipt ∈ TRANSIENT_DECISIONS)
              then eret (Some (mkDrain published acked quarantined true))
              else
                do+ quarantineRecord leaseToken sourceEpoch sequence storedDigest (ar_decision receipt) in
                eret (Some (mkDrain published acked (quarantined + 1) false))
          end
      end
  end.

Definition drainOnce (n : nat) : proc W (exc (option DrainResult)) :=
  let* leaseToken := randomUUID in
  let+ held := acquireLease leaseToken in
  if negb held then eret (Some (mkDrain 0 0 0 true))
  else
    let* r := drain_loop n leaseToken 0 0 0 in
    do+ releaseLease leaseToken in
    Done r.

(** ** The other processes of the two nodes *)

(** An append with the caller's own change to the application tables. *)
Definition appendOne (mutate : A → exc A) (rawMutation : jsval) (fenceToken : Z)
    : proc W (exc OutboxRecordHeader) :=
  source_tx (λ _, withOutboxTx ss schema preCommitCheck (
    do! app_write mutate in appendInTx opts streamId rawMutation fenceToken)).

(** The receiver takes the [i]-th record handed to the transport -- at any time,
    as often as the network delivers it -- and signs its decision. *)
Definition receiveOne (i : nat) : proc W (exc ReceiverDecision) :=
  call (λ w,
    match ha_sent w !! i with
    | None => (w, Throw (PlainError "nothing received"))
    | Some record =>
        let '(d, r) := verifyAndApplyDelivered applyInTx (ha_fates w (ha_draws w)) ss schema streamId
                         (record_obj record) (ha_dest w) in
        (mkHA (ha_source w) d (ha_clock w) (ha_sent w)
           (match r with Ret decision => ha_issued w ++ [(record, decision)] | Throw _ => ha_issued w end)
           (ha_fates w) (ha_replies w) (ha_uuids w) (S (ha_draws w)), r)
    end).

Definition acquireSourceFence : proc W (exc Z) := source_tx (λ _, fence_acquire ss schema streamId).
Definition acquireDestFence : proc W (exc Z) :=
  call (λ w,
    let '(d, r) := transaction (ha_fates w (ha_draws w)) (fence_acquire ss schema streamId) (ha_dest w) in
    (mkHA (ha_source w) d (ha_clock w) (ha_sent w) (ha_issued w) (ha_fates w) (ha_replies w) (ha_uuids w)
       (S (ha_draws w)), r)).
End nodes.
