(* ===== verification/HttpNonce.v ===== *)
(** * The replay-nonce stores of the outbox transport
    (packages/server/src/http-outbox-transport.ts)

    [ReplayNonceStore] is the interface the receiver burns nonces through, with
    its promise: an accepted nonce is refused for [retentionMs - 2 * maxClockSkewMs]
    of the application's time.  The in-memory store and the PostgreSQL store keep
    it; the latter checks its schema and the distance of the two clocks in every
    transaction, and rows expire by the database's clock, in microseconds. *)

From S2P Require Import Prelude JsNum Encoding Json JsText Crypto OutboxContract OutboxPg.
From stdpp Require Import base strings list gmap fin_maps.
From Stdlib Require Import ZArith Lia.

Local Open Scope Z_scope.
Local Open Scope bpc_scope.

Definition DEFAULT_NONCE_RETENTION_MS : Z := 120000.
Definition DEFAULT_MAX_CLOCK_SKEW_MS : Z := 5000.

Definition posInt (n : Z) (label : string) : exc Z :=
  if (negb (is_safe_integer n) || bool_decide (n < 1))%bool
  then contract_error (label +:+ " must be a positive safe integer") else Ret n.

Lemma posInt_Ret n label z : posInt n label = Ret z → z = n ∧ 1 <= n.
Proof. unfold posInt. case_match eqn:H; [done|]. intros [= <-]. btrue. split; [done|lia]. Qed.

(** ** The interface *)

(** [checkAndStore nonce] at the application's time [now]: true for a first use. *)
Class ReplayNonceStore (N : Type) := {
  retentionMs : N → Z;
  maxClockSkewMs : N → Z;
  checkAndStore : string → Z → N → N * exc bool;
}.

(** [guards s n t]: at application times up to [t] the nonce [n] is refused. *)
Class ReplayNonceLaws (N : Type) `{!ReplayNonceStore N} := {
  guards : N → string → Z → Prop;
  store_constant n now s : retentionMs (checkAndStore n now s).1 = retentionMs s ∧
    maxClockSkewMs (checkAndStore n now s).1 = maxClockSkewMs s;
  stored_guards n now s s' : checkAndStore n now s = (s', Ret true) →
    guards s' n (now + retentionMs s - 2 * maxClockSkewMs s - 1);
  guards_earlier s n t t' : guards s n t → t' <= t → guards s n t';
  guards_refuse n now s t : guards s n t → now <= t → (checkAndStore n now s).2 ≠ Ret true;
  guards_kept m now s n t : guards s n t → now <= t → guards (checkAndStore m now s).1 n t;
}.

(** ** MemoryReplayNonceStore *)

Record MemoryReplayNonceStore := mkMemNonces { mn_retentionMs : Z; mn_seen : list (string * Z) }.

Definition MemoryReplayNonceStore_new (retention : Z) : exc MemoryReplayNonceStore :=
  r ← posInt retention "retentionMs"; Ret (mkMemNonces r []).

Definition mn_checkAndStore (nonce : string) (t : Z) (s : MemoryReplayNonceStore) : MemoryReplayNonceStore * exc bool :=
  let seen := filter (λ e, ¬ e.2 <= t) (mn_seen s) in
  if om_has nonce seen then (mkMemNonces (mn_retentionMs s) seen, Ret false)
  else (mkMemNonces (mn_retentionMs s) (om_set nonce (t + mn_retentionMs s) seen), Ret true).

#[export] Instance memory_nonces : ReplayNonceStore MemoryReplayNonceStore := {
  retentionMs := mn_retentionMs;
  maxClockSkewMs _ := 0;
  checkAndStore := mn_checkAndStore;
}.

Definition mn_guards (s : MemoryReplayNonceStore) (n : string) (t : Z) : Prop :=
  ∃ exp, (n, exp) ∈ mn_seen s ∧ t < exp.

Lemma live_entry (seen : list (string * Z)) n exp t now : (n, exp) ∈ seen → t < exp → now <= t →
  (n, exp) ∈ filter (λ e : string * Z, ¬ e.2 <= now) seen.
Proof. intros Hin Hexp Ht. apply list_elem_of_filter. split; [cbn; lia|done]. Qed.

Lemma om_has_entry {V} (n : string) (v : V) l : (n, v) ∈ l → om_has n l = true.
Proof.
  intros Hin. apply bool_decide_eq_true. destruct (om_get n l) eqn:Hg; [by eexists|].
  apply om_get_None in Hg. exfalso. apply Hg, list_elem_of_fmap. by exists (n, v).
Qed.

Lemma om_set_other {V} (n m : string) (v v' : V) l : n ≠ m → (n, v) ∈ l → (n, v) ∈ om_set m v' l.
Proof.
  intros Hne. induction l as [|[k x] l IH]; simpl; [by intros ?%not_elem_of_nil|].
  case_decide as Hk; intros [Heq|Hin]%elem_of_cons; apply elem_of_cons; simplify_eq; auto.
Qed.

#[export] Program Instance memory_nonces_laws : ReplayNonceLaws MemoryReplayNonceStore := { guards := mn_guards }.
Next Obligation. intros n now s. cbn. unfold mn_checkAndStore. by case_match. Qed.
Next Obligation.
  intros n now s s'. cbn. unfold mn_checkAndStore. case_match; [done|]. intros [= <-]. cbn.
  exists (now + mn_retentionMs s). split; [|lia]. apply om_get_Some_elem, om_get_set.
Qed.
Next Obligation. intros s n t t' (exp & Hin & Hexp) Ht. exists exp. split; [done|lia]. Qed.
Next Obligation.
  intros n now s t (exp & Hin & Hexp) Ht. cbn. unfold mn_checkAndStore.
  by rewrite (om_has_entry n exp) by (by eapply live_entry).
Qed.
Next Obligation.
  intros m now s n t (exp & Hin & Hexp) Ht. cbn. unfold mn_checkAndStore, mn_guards.
  pose proof (live_entry _ _ _ _ _ Hin Hexp Ht) as Hl. case_match eqn:Hm; cbn; exists exp; (split; [|done]); [done|].
  apply om_set_other; [|done]. intros ->. by rewrite (om_has_entry m exp) in Hm.
Qed.

(** ** PgReplayNonceStore *)

(** What the catalog queries of the attestation answer. *)
Record NonceAuthority := mkAuthority {
  na_primary_keys : Z; na_unexpected_constraints : Z; na_indexes : Z; na_triggers : Z; na_policies : Z }.
Record NonceCatalog := mkCatalog {
  nc_table : list jsval; nc_columns : list jsval; nc_authority : option NonceAuthority; nc_indexes : list jsval }.

(** The store with its database: [pn_offset] is the database's clock minus the
    application's, in microseconds, [pn_fates] how the transactions to come end. *)
Record PgReplayNonceStore := mkPgNonces {
  pn_retentionMs : Z; pn_maxClockSkewMs : Z; pn_schema : string;
  pn_session : Session; pn_catalog : NonceCatalog;
  pn_offset : Z; pn_fates : nat → fate; pn_draws : nat;
  pn_rows : gmap string Z }.

Definition with_nonce_rows (rows : gmap string Z) (s : PgReplayNonceStore) : PgReplayNonceStore :=
  mkPgNonces (pn_retentionMs s) (pn_maxClockSkewMs s) (pn_schema s) (pn_session s) (pn_catalog s) (pn_offset s)
    (pn_fates s) (pn_draws s) rows.
Definition next_draw (s : PgReplayNonceStore) : PgReplayNonceStore :=
  mkPgNonces (pn_retentionMs s) (pn_maxClockSkewMs s) (pn_schema s) (pn_session s) (pn_catalog s) (pn_offset s)
    (pn_fates s) (S (pn_draws s)) (pn_rows s).

Definition PgReplayNonceStore_new (schema : string) (retention skew : Z) (s : PgReplayNonceStore) : exc PgReplayNonceStore :=
  r ← posInt retention "retentionMs";
  k ← posInt skew "maxClockSkewMs";
  Ret (mkPgNonces r k schema (pn_session s) (pn_catalog s) (pn_offset s) (pn_fates s) (pn_draws s) (pn_rows s)).

(** The columns and indexes the code expects, as the rows of the queries. *)
Definition expected_columns : list jsval :=
  [JObj [("attname", JStr "nonce"); ("type", JStr "text"); ("attnotnull", JBool true); ("default_expr", JNull)];
   JObj [("attname", JStr "expires_at"); ("type", JStr "timestamp with time zone"); ("attnotnull", JBool true);
         ("default_expr", JNull)]]%string.
Definition expected_indexes : list jsval :=
  [JObj [("name", JStr "bpc_transport_nonce_expiry"); ("indisprimary", JBool false); ("indisunique", JBool false);
         ("method", JStr "btree"); ("keys", JStr "expires_at"); ("predicate", JNull)];
   JObj [("name", JStr "bpc_transport_nonce_pkey"); ("indisprimary", JBool true); ("indisunique", JBool true);
         ("method", JStr "btree"); ("keys", JStr "nonce"); ("predicate", JNull)]]%string.

Definition table_attested (table : list jsval) : bool :=
  match table with
  | [t] => (bool_decide (field t "relkind" = JStr "r") && bool_decide (field t "relpersistence" = JStr "p") &&
            bool_decide (field t "relrowsecurity" = JBool false) && bool_decide (field t "relforcerowsecurity" = JBool false))%bool
  | _ => false
  end.
Definition authority_attested (authority : option NonceAuthority) : bool :=
  match authority with
  | Some a => (bool_decide (na_primary_keys a = 1) && bool_decide (na_unexpected_constraints a = 0) &&
               bool_decide (na_indexes a = 2) && bool_decide (na_triggers a = 0) && bool_decide (na_policies a = 0))%bool
  | None => false
  end.

Definition enterAndAttest (s : PgReplayNonceStore) : exc unit :=
  let session := pn_session s in
  let catalog := pn_catalog s in
  if decide (to_lower (default "undefined"%string (ss_isolation session)) ≠ "serializable"%string)
  then contract_error "replay-nonce transaction must be SERIALIZABLE"
  else if decide (default "null"%string (ss_schema session) ≠ pn_schema s)
  then contract_error "replay-nonce schema context mismatch"
  else if negb (table_attested (nc_table catalog)) then contract_error "replay-nonce table attestation failed"
  else if decide (stringify (JArr (nc_columns catalog)) ≠ stringify (JArr expected_columns))
  then contract_error "replay-nonce column attestation failed"
  else if negb (authority_attested (nc_authority catalog))
  then contract_error "replay-nonce authority attestation failed"
  else if decide (stringify (JArr (nc_indexes catalog)) ≠ stringify (JArr expected_indexes))
  then contract_error ("replay-nonce index attestation failed: " +:+ stringify (JArr (nc_indexes catalog)))
  else Ret tt.

Definition PgReplayNonceStore_open (schema : string) (retention skew : Z) (s : PgReplayNonceStore) :
    PgReplayNonceStore * exc unit :=
  if negb (schema_re schema) then (s, contract_error "replay-nonce schema must be a lowercase unquoted identifier")
  else match PgReplayNonceStore_new schema retention skew s with
       | Throw e => (s, Throw e)
       | Ret store => transaction (pn_fates store (pn_draws store)) (λ s, (s, enterAndAttest s)) (next_draw store)
       end.

(** [(extract(epoch from now()) * 1000)::bigint] of a time in microseconds:
    numeric rounds half away from zero. *)
Definition ms_of_us (us : Z) : Z :=
  if decide (0 <= us) then (us + 500) / 1000 else - ((- us + 500) / 1000).

Definition delete_expired (dbNow : Z) : tx PgReplayNonceStore unit := λ s,
  (with_nonce_rows (filter (λ ne, ¬ ne.2 < dbNow) (pn_rows s)) s, Ret tt).
(** [INSERT ... ON CONFLICT (nonce) DO NOTHING]: the number of rows inserted. *)
Definition insert_nonce (nonce : string) (dbNow : Z) : tx PgReplayNonceStore Z := λ s,
  match pn_rows s !! nonce with
  | Some _ => (s, Ret 0)
  | None => (with_nonce_rows (<[nonce := dbNow + pn_retentionMs s * 1000]> (pn_rows s)) s, Ret 1)
  end.

Definition store_in_tx (nonce : string) (appNow : Z) : tx PgReplayNonceStore bool := λ s,
  let dbNow := appNow * 1000 + pn_offset s in
  (do! tlift (enterAndAttest s) in
   if (negb (is_safe_integer appNow) || bool_decide (pn_maxClockSkewMs s < Z.abs (ms_of_us dbNow - appNow)))%bool
   then tlift (contract_error "replay-nonce store: DB/app clock skew exceeds the allowed bound (fail closed)")
   else
     do! delete_expired dbNow in
     let! rowCount := insert_nonce nonce dbNow in
     tret (bool_decide (rowCount = 1))) s.

Definition pn_checkAndStore (nonce : string) (appNow : Z) (s : PgReplayNonceStore) : PgReplayNonceStore * exc bool :=
  transaction (pn_fates s (pn_draws s)) (store_in_tx nonce appNow) (next_draw s).

#[export] Instance pg_nonces : ReplayNonceStore PgReplayNonceStore := {
  retentionMs := pn_retentionMs;
  maxClockSkewMs := pn_maxClockSkewMs;
  checkAndStore := pn_checkAndStore;
}.

(** While the checked distance of the clocks bounds the database's time, a row
    that expires late enough refuses its nonce. *)
Definition pn_guards (s : PgReplayNonceStore) (n : string) (t : Z) : Prop :=
  ∃ exp, pn_rows s !! n = Some exp ∧ (t + pn_maxClockSkewMs s) * 1000 + 500 <= exp.

Lemma ms_of_us_near us a k : Z.abs (ms_of_us us - a) <= k → (a - k) * 1000 - 500 <= us <= (a + k) * 1000 + 500.
Proof. unfold ms_of_us. case_decide; intros; Z.div_mod_to_equations; lia. Qed.

(** What one transaction of the store did. *)
Lemma store_in_tx_cases nonce now s s' r : store_in_tx nonce now s = (s', r) →
  let dbNow := now * 1000 + pn_offset s in
  (s' = s ∧ ∃ e, r = Throw e) ∨
  (Z.abs (ms_of_us dbNow - now) <= pn_maxClockSkewMs s ∧
   let live := filter (λ ne : string * Z, ¬ ne.2 < dbNow) (pn_rows s) in
   (is_Some (live !! nonce) ∧ r = Ret false ∧ s' = with_nonce_rows live s) ∨
   (live !! nonce = None ∧ r = Ret true ∧ s' = with_nonce_rows (<[nonce := dbNow + pn_retentionMs s * 1000]> live) s)).
Proof.
  intros H dbNow. revert H. unfold store_in_tx, tbind, tlift. fold dbNow. destruct (enterAndAttest s) as [[]|e].
  2: { intros [= <- <-]. left. eauto. }
  case_match eqn:Hc; [intros [= <- <-]; left; eauto|]. btrue.
  unfold delete_expired, insert_nonce, tret. cbn [pn_rows with_nonce_rows].
  intros Hr. right. split; [lia|]. destruct (_ !! nonce) as [exp|] eqn:Hn in Hr |- *.
  - left. injection Hr as <- <-. split; [by eexists|done].
  - right. injection Hr as <- <-. done.
Qed.

(** The draw of a fate changes nothing a guard depends on. *)
Lemma pn_check_cases nonce now s s' r : pn_checkAndStore nonce now s = (s', r) →
  s' = next_draw s ∧ (∃ e, r = Throw e) ∨
  ∃ b, store_in_tx nonce now (next_draw s) = (s', Ret b) ∧ (r = Ret b ∨ ∃ e, r = Throw e).
Proof.
  unfold pn_checkAndStore, transaction. destruct (store_in_tx _ _ _) as [s1 [b|e]]; [|intros [= <- <-]; left; eauto].
  destruct (pn_fates s _); intros [= <- <-]; eauto 6.
Qed.

Lemma live_row (rows : gmap string Z) n exp dbNow : rows !! n = Some exp → dbNow <= exp →
  filter (λ ne : string * Z, ¬ ne.2 < dbNow) rows !! n = Some exp.
Proof. intros Hn Hexp. apply map_lookup_filter_Some. split; [done|cbn; lia]. Qed.

Lemma pn_guards_live s n t now dbNow exp : pn_rows s !! n = Some exp →
  (t + pn_maxClockSkewMs s) * 1000 + 500 <= exp → now <= t → Z.abs (ms_of_us dbNow - now) <= pn_maxClockSkewMs s →
  filter (λ ne : string * Z, ¬ ne.2 < dbNow) (pn_rows s) !! n = Some exp.
Proof. intros Hn Hexp Ht Hd%ms_of_us_near. apply live_row; [done|lia]. Qed.

#[export] Program Instance pg_nonces_laws : ReplayNonceLaws PgReplayNonceStore := { guards := pn_guards }.
Next Obligation.
  intros n now s. cbn. destruct (pn_checkAndStore n now s) as [s' r] eqn:H. cbn.
  apply pn_check_cases in H as [[-> _]|(b & H & _)]; [done|].
  apply store_in_tx_cases in H as [[-> _]|[_ [(_ & _ & ->)|(_ & _ & ->)]]]; done.
Qed.
Next Obligation.
  intros n now s s' H. cbn in *. apply pn_check_cases in H as [[_ [e ?]]|(b & H & [[= <-]|[e ?]])]; try done.
  apply store_in_tx_cases in H as [[_ [e ?]]|[Hd%ms_of_us_near [(_ & ? & _)|(_ & _ & ->)]]]; try done.
  eexists. cbn in *. split; [apply lookup_insert_eq|lia].
Qed.
Next Obligation. intros s n t t' (exp & Hn & Hexp) Ht. exists exp. split; [done|lia]. Qed.
Next Obligation.
  intros n now s t (exp & Hn & Hexp) Ht. cbn. destruct (pn_checkAndStore n now s) as [s' r] eqn:H. cbn. intros ->.
  apply pn_check_cases in H as [[_ [e ?]]|(b & H & [[= <-]|[e ?]])]; try done.
  apply store_in_tx_cases in H as [[_ [e ?]]|[Hd [(_ & ? & _)|(Hnone & _ & _)]]]; try done.
  by rewrite (pn_guards_live (next_draw s) n t now _ exp) in Hnone.
Qed.
Next Obligation.
  intros m now s n t (exp & Hn & Hexp) Ht. cbn. destruct (pn_checkAndStore m now s) as [s' r] eqn:H. cbn.
  apply pn_check_cases in H as [[-> _]|(b & H & _)]; [by exists exp|].
  apply store_in_tx_cases in H as [[-> _]|[Hd H]]; [by exists exp|].
  pose proof (pn_guards_live (next_draw s) n t now _ exp Hn Hexp Ht Hd) as Hl.
  destruct H as [(_ & _ & ->)|(Hm & _ & ->)]; exists exp; cbn; [done|]. split; [|done].
  rewrite lookup_insert_ne; [done|]. intros ->. congruence.
Qed.
