(* ===== verification/HttpTransport.v ===== *)
(** * The HTTP transport of the outbox: framing, receipts, the client
    (packages/server/src/http-outbox-transport.ts)

    What a request and a reply are authenticated over, and [HttpOutboxTransport]:
    a delivery builds a signed request, hands it to [fetch] and checks the reply
    against this very attempt.  A delivery changes no state of the transport, so
    it is a function of what the environment does: the nonce drawn, the clock, the
    reply of the network and whether the deadline came first.  The abort signal
    only fires with or after the deadline, whose error then is the outcome. *)

From S2P Require Import Prelude JsNum Encoding Json JsText Crypto OutboxContract OutboxPg OutboxPublisher HttpNonce.
From stdpp Require Import base strings list.
From Stdlib Require Import ZArith Lia.

Local Open Scope string_scope.

(** ** Constants and grammars *)

Definition CONTENT_TYPE : string := "application/json".
Definition REQ_DOMAIN : string := "BPCv1-req".
Definition ACK_DOMAIN : string := "BPCv1-ack".
Definition DEFAULT_TIMEOUT_MS : Z := 5000.
Definition DEFAULT_FRESHNESS_MS : Z := 30000.
Definition DEFAULT_MAX_BODY_BYTES : Z := 64 * 1024.
Definition DEFAULT_BODY_READ_MS : Z := 10000.
Definition DEFAULT_NONCE_SAFETY_MS : Z := 30000.

(** The names of [HDR]. *)
Definition HDR_keyId : string := "x-bpc-key-id".
Definition HDR_ts : string := "x-bpc-timestamp".
Definition HDR_nonce : string := "x-bpc-nonce".
Definition HDR_sig : string := "x-bpc-signature".

(** [/^[A-Za-z0-9_-]{16,128}$/] and [/^[A-Za-z0-9._-]{1,64}$/] *)
Definition NONCE_RE (s : string) : bool :=
  (all_chars (λ c, is_alnum c || one_of "_-" c) s && bool_decide (16 <= str_len s <= 128)%Z)%bool.
Definition KEY_ID_RE (s : string) : bool :=
  (all_chars (λ c, is_alnum c || one_of "._-" c) s && bool_decide (1 <= str_len s <= 64)%Z)%bool.

(** The properties of a receipt and what [typeof] they must have. *)
Inductive receipt_type := RString | RNumber.
Definition RECEIPT_TYPES : list (string * receipt_type) :=
  [("streamId", RString); ("sourceEpoch", RString); ("sequence", RNumber); ("opDigest", RString); ("decision", RString);
   ("receiverId", RString); ("keyId", RString); ("issuedAt", RString); ("signature", RString)].
Definition ENVELOPE_KEYS : list string := ["v"; "keyId"; "challenge"; "requestDigest"; "receipt"; "sig"].

(** ** Errors *)

Definition terminal (m : string) : error := OutboxTransportError m false.
Definition transient (m : string) : error := OutboxTransportError m true.
Definition classifyStatus (status : Z) : error :=
  if (bool_decide (500 <= status)%Z || bool_decide (status = 408)%Z || bool_decide (status = 429)%Z)%bool
  then transient ("transport received HTTP " +:+ z_to_string status)
  else terminal ("transport received HTTP " +:+ z_to_string status).

(** ** Buffers *)

(** [Buffer.from(s, 'base64url')], which never throws. *)
Class NodeBuffer := { from_base64url : string → string }.
(** It decodes what [toString('base64url')] encodes. *)
Class NodeBufferLaws (B : NodeBuffer) := { from_base64url_b64url b : from_base64url (b64url b) = b }.

(** [buf.writeUInt32BE(n, 0)] *)
Definition writeUInt32BE (n : Z) : exc string :=
  match u32be n with
  | Ret s => Ret s
  | Throw _ => Throw (RangeError "The value of value is out of range.")
  end.
Fixpoint frame (parts : list string) : exc string :=
  match parts with
  | [] => Ret EmptyString
  | p :: parts =>
      let b := utf8_encode p in
      len ← writeUInt32BE (str_len b);
      rest ← frame parts;
      Ret (len +:+ b +:+ rest)
  end.

(** A secret is given as a buffer or as a text. *)
Inductive Secret := SecretBuffer (b : string) | SecretString (s : string).
Definition secret_bytes (s : Secret) : string :=
  match s with SecretBuffer b => b | SecretString s => utf8_encode s end.
Definition toSecret (s : Secret) (label : string) : exc string :=
  let b := secret_bytes s in
  if decide (str_len b < 32)%Z then contract_error (label +:+ " must be >= 32 bytes") else Ret b.

(** ** Receipts and media types *)

Definition hasExactKeys (l : list (string * jsval)) (keys : list string) : bool :=
  (bool_decide (length l = length keys) && forallb (λ k, om_has k l) keys)%bool.

Definition has_type (v : jsval) (t : receipt_type) : bool :=
  match v, t with JStr _, RString | JNum _, RNumber => true | _, _ => false end.
Definition type_name (t : receipt_type) : string := match t with RString => "string" | RNumber => "number" end.

(** The loop over [RECEIPT_KEYS]. *)
Fixpoint receipt_values (l : list (string * jsval)) (keys : list (string * receipt_type)) : exc (list (string * jsval)) :=
  match keys with
  | [] => Ret []
  | (k, t) :: keys =>
      let v := default JUndef (om_get k l) in
      if has_type v t then (λ vs, (k, v) :: vs) <$> receipt_values l keys
      else contract_error ("receipt." +:+ k +:+ " must be an enumerable data property of type " +:+ type_name t)
  end.

Definition strictReceipt (o : jsval) : exc jsval :=
  match o with
  | JObj l => if hasExactKeys l RECEIPT_TYPES.*1 then JObj <$> receipt_values l RECEIPT_TYPES
              else contract_error "receipt has an invalid key set"
  | _ => contract_error "receipt has an invalid key set"
  end.

(** [ct.split(';', 1)[0]] *)
Fixpoint before_semicolon (s : string) : string :=
  match s with
  | EmptyString => EmptyString
  | String c s => if decide (c = ";"%char) then EmptyString else String c (before_semicolon s)
  end.
Definition isJsonMime (ct : option string) : bool :=
  match ct with
  | None => false
  | Some ct => (bool_decide (ct ≠ EmptyString) && bool_decide (to_lower (trim (before_semicolon ct)) = CONTENT_TYPE))%bool
  end.

(** ** HTTP *)

(** What [new URL(url)] yields. *)
Record URL := mkURL {
  url_href : string; url_protocol : string; url_username : string; url_password : string;
  url_hash : string; url_pathname : string; url_search : string }.

Record FetchRequest := mkFetch { fq_url : string; fq_method : string; fq_headers : list (string * string); fq_body : string }.
(** A response: its headers by lower-case name, and the reads its stream will
    yield, or no stream. *)
Record FetchResponseLike := mkFetched {
  fr_status : Z; fr_headers : list (string * string); fr_body : option (list (exc string)) }.

Record HttpOutboxTransportOptions := mkTransportOptions {
  to_url : URL; to_requestKeyId : string; to_requestSecret : Secret;
  to_resolveResponseKey : string → exc (option Secret);
  to_ackVerify : jsval → jsval → exc unit;
  to_timeoutMs : Z; to_maxResponseBytes : Z; to_maxRequestBytes : Z }.

(** The transport once constructed: [path] and [reqSecret] beside the options. *)
Record HttpOutboxTransport := mkTransport {
  ht_opts : HttpOutboxTransportOptions; ht_path : string; ht_reqSecret : string }.

Definition HttpOutboxTransport_new (opts : HttpOutboxTransportOptions) : exc HttpOutboxTransport :=
  let url := to_url opts in
  if negb (KEY_ID_RE (to_requestKeyId opts)) then contract_error "invalid requestKeyId"
  else if (bool_decide (url_protocol url ≠ "http:") && bool_decide (url_protocol url ≠ "https:"))%bool
  then contract_error "transport url must be http(s)"
  else if (bool_decide (url_username url ≠ EmptyString) || bool_decide (url_password url ≠ EmptyString))%bool
  then contract_error "transport url must not embed credentials"
  else if decide (url_hash url ≠ EmptyString) then contract_error "transport url must not contain a fragment"
  else
    secret ← toSecret (to_requestSecret opts) "requestSecret";
    _ ← posInt (to_timeoutMs opts) "timeoutMs";
    _ ← posInt (to_maxResponseBytes opts) "maxResponseBytes";
    _ ← posInt (to_maxRequestBytes opts) "maxRequestBytes";
    Ret (mkTransport opts (url_pathname url +:+ url_search url) secret).

(** What the network does with a request: [fetch] rejects, or resolves to a
    response -- unless the deadline comes first. *)
Inductive FetchOutcome := FetchRejected (e : error) | Fetched (res : FetchResponseLike).
Inductive Race := DeadlineFirst | Settled (o : FetchOutcome).

Section client.
Context `{WC : WebCrypto} `{NB : NodeBuffer}.

Definition sha256hex (b : string) : string := hex_of (sha256 b).
Definition hmac (secret msg : string) : exc string := hmac_sha256 secret msg.
Definition ctEqualB64u (a expected : string) : bool :=
  let got := from_base64url a in
  (bool_decide (String.length got = String.length expected) && bool_decide (got = expected))%bool.

(** What the signature of a request, and of a reply, is over. *)
Definition request_fields (keyId path ts nonce bodyDigest : string) : list string :=
  [REQ_DOMAIN; keyId; "POST"; path; ts; nonce; bodyDigest].
Definition reply_fields (keyId challenge requestDigest path receiptText : string) : list string :=
  [ACK_DOMAIN; keyId; challenge; requestDigest; path; receiptText].
Definition mac_of (secret : string) (fields : list string) : exc string :=
  msg ← frame fields; hmac secret msg.

Context (t : HttpOutboxTransport).
Notation opts := (ht_opts t).

(** The request of [doDeliver]. *)
Definition signed_request (body bodyDigest ts nonce : string) : exc FetchRequest :=
  mac ← mac_of (ht_reqSecret t) (request_fields (to_requestKeyId opts) (ht_path t) ts nonce bodyDigest);
  Ret (mkFetch (url_href (to_url opts)) "POST"
    [("content-type", CONTENT_TYPE); (HDR_keyId, to_requestKeyId opts); (HDR_ts, ts); (HDR_nonce, nonce);
     (HDR_sig, b64url mac)] body).

(** The loop of [readCapped]. *)
Fixpoint read_chunks (reads : list (exc string)) (total : Z) (chunks : string) : exc string :=
  match reads with
  | [] => Ret chunks
  | Throw e :: _ => Throw e
  | Ret value :: reads =>
      let total := (total + str_len value)%Z in
      if decide (to_maxResponseBytes opts < total)%Z then Throw (terminal "transport reply too large")
      else read_chunks reads total (chunks +:+ value)
  end.
Definition readCapped (res : FetchResponseLike) : exc string :=
  match fr_body res with
  | None => Throw (terminal "transport response has no readable body stream")
  | Some reads => read_chunks reads 0 EmptyString
  end.

(** [receipt[k] !== record[k]] for one of the four bound properties. *)
Definition differs (receipt record : jsval) (k : string) : exc bool :=
  v ← prop record k; Ret (bool_decide (field receipt k ≠ v)).
Fixpoint any_differs (receipt record : jsval) (ks : list string) : exc bool :=
  match ks with
  | [] => Ret false
  | k :: ks => d ← differs receipt record k; if (d : bool) then Ret true else any_differs receipt record ks
  end.
Definition BOUND_KEYS : list string := ["streamId"; "sourceEpoch"; "sequence"; "opDigest"].

Definition verify_ack (receipt record : jsval) : exc unit :=
  catch (to_ackVerify opts receipt record) (λ err,
    match err with
    | AckVerificationUnavailableError => Throw (transient "transport reply ack verifier unavailable")
    | _ => Throw (terminal "transport reply ack signature/authorization invalid")
    end).

(** The checks of [verifyEnvelope] once the text is parsed. *)
Definition check_envelope (env record : jsval) (sentNonce sentBodyDigest : string) : exc jsval :=
  match env with
  | JObj l =>
      match field env "keyId", field env "challenge", field env "requestDigest", field env "sig" with
      | JStr keyId, JStr challenge, JStr requestDigest, JStr sig =>
          if (negb (hasExactKeys l ENVELOPE_KEYS) || bool_decide (field env "v" ≠ JStr ACK_DOMAIN))%bool
          then Throw (terminal "transport reply envelope malformed")
          else if (bool_decide (challenge ≠ sentNonce) || bool_decide (requestDigest ≠ sentBodyDigest))%bool
          then Throw (terminal "transport reply not bound to this request attempt")
          else
            respSecretRaw ← to_resolveResponseKey opts keyId;
            match respSecretRaw with
            | None => Throw (terminal "transport reply signed under an unknown response key")
            | Some raw =>
                respSecret ← toSecret raw "resolved response secret";
                receipt ← catch (strictReceipt (field env "receipt"))
                            (λ _, Throw (terminal "transport reply receipt malformed"));
                receiptText ← jcs_canonicalize receipt;
                mac ← mac_of respSecret (reply_fields keyId challenge requestDigest (ht_path t) receiptText);
                if negb (ctEqualB64u sig mac) then Throw (terminal "transport reply envelope MAC invalid")
                else
                  other ← any_differs receipt record BOUND_KEYS;
                  if (other : bool) then Throw (terminal "transport reply does not bind to the delivered record")
                  else
                    _ ← verify_ack receipt record;
                    Ret receipt
            end
      | _, _, _, _ => Throw (terminal "transport reply envelope malformed")
      end
  | _ => Throw (terminal "transport reply envelope malformed")
  end.
Definition verifyEnvelope (buf : string) (record : jsval) (sentNonce sentBodyDigest : string) : exc jsval :=
  env ← catch (parse_utf8 buf) (λ _, Throw (terminal "transport reply is not valid JSON"));
  check_envelope env record sentNonce sentBodyDigest.

(** [Number.isFinite(cl) && cl > max] *)
Definition length_exceeds (cl : num) (max : Z) : bool :=
  match cl with Fin d => bool_decide (max * pow10 (dk d) < dm d)%Z | _ => false end.

(** [doDeliver] after [fetch]. *)
Definition check_reply (o : FetchOutcome) (record : jsval) (bodyDigest nonce : string) : exc jsval :=
  match o with
  | FetchRejected (OutboxTransportError m r) => Throw (OutboxTransportError m r)
  | FetchRejected _ => Throw (transient "transport request failed")
  | Fetched res =>
      if decide (fr_status res ≠ 200)%Z then Throw (classifyStatus (fr_status res))
      else if negb (isJsonMime (om_get "content-type" (fr_headers res)))
      then Throw (terminal "transport reply is not application/json")
      else if length_exceeds (Number_string (default "NaN" (om_get "content-length" (fr_headers res))))
                (to_maxResponseBytes opts)
      then Throw (terminal "transport reply too large")
      else
        text ← readCapped res;
        verifyEnvelope text record nonce bodyDigest
  end.

(** The part of [deliverAndAwaitAck] before the race: the captured record and the
    request, with its digest. *)
Definition prepare (record : jsval) (nonce : string) (tnum : num) : exc (jsval * string * FetchRequest) :=
  body ← jcs_canonicalize record;
  capturedRecord ← parse body;
  let bodyBuf := utf8_encode body in
  if decide (to_maxRequestBytes opts < str_len bodyBuf)%Z
  then Throw (terminal ("request body " +:+ z_to_string (str_len bodyBuf) +:+ "B exceeds maxRequestBytes " +:+
                        z_to_string (to_maxRequestBytes opts) +:+ "B"))
  else if negb (NONCE_RE nonce) then Throw (terminal "nonce generator produced an invalid nonce")
  else match num_safe_int tnum with
       | None => Throw (terminal "clock produced a non-integer timestamp")
       | Some now =>
           let bodyDigest := sha256hex bodyBuf in
           req ← signed_request body bodyDigest (z_to_string now) nonce;
           Ret (capturedRecord, bodyDigest, req)
       end.

Definition deliverAndAwaitAck (record : jsval) (nonce : string) (tnum : num) (network : FetchRequest → Race) : exc jsval :=
  '(capturedRecord, bodyDigest, req) ← prepare record nonce tnum;
  match network req with
  | DeadlineFirst => Throw (transient ("transport deadline " +:+ z_to_string (to_timeoutMs opts) +:+ "ms exceeded"))
  | Settled o => check_reply o capturedRecord bodyDigest nonce
  end.
End client.
