(* ===== verification/HttpReceiver.v ===== *)
(** * The HTTP receiver of the outbox
    (packages/server/src/http-outbox-transport.ts: createHttpOutboxReceiver)

    [handle] is the handler of one request, as a process over the receiver's
    world: the clock, the replay-nonce store and whatever [receive] works on.  The
    events of the request's stream are part of the request.  A response is a value;
    nothing is sent only when not even the 500 can be built.

    The world keeps two history variables for the theorems: the requests that got
    past the replay check, and the longest time between a timestamp check and the
    consumption of its nonce. *)

From S2P Require Import Prelude Proc JsNum Encoding Json JsText Crypto OutboxContract OutboxPg OutboxPublisher HttpNonce HttpTransport.
From stdpp Require Import base strings list.
From Stdlib Require Import ZArith Lia.

Local Open Scope string_scope.
Local Open Scope bpc_scope.

(** ** Requests and responses *)

(** An event of the request's stream.  When there are no more, the timer of the
    body read is what comes next. *)
Inductive BodyEvent := Data (c : string) | End | ReqError (message : string).

(** [req.headers]: a name maps to a text or, for repeated headers, an array. *)
Record IncomingMessage := mkIncoming {
  im_method : option string; im_url : option string;
  im_headers : list (string * jsval); im_events : list BodyEvent }.
Record ServerResponse := mkResponse { sr_status : Z; sr_headers : list (string * string); sr_body : string }.

Definition header (req : IncomingMessage) (name : string) : option string :=
  match om_get name (im_headers req) with
  | Some (JStr v) => Some v
  | Some (JArr (JStr v :: _)) => Some v
  | _ => None
  end.

(** [req.headers['content-type']], on which [split] is called. *)
Definition content_type (req : IncomingMessage) : exc (option string) :=
  match om_get "content-type" (im_headers req) with
  | Some (JStr v) => Ret (Some v)
  | Some (JArr _) => Throw (TypeError "ct.split is not a function")
  | _ => Ret None
  end.

Fixpoint read_events (maxBytes : Z) (events : list BodyEvent) (total : Z) (chunks : string) : exc string :=
  match events with
  | Data c :: events =>
      let total := (total + str_len c)%Z in
      if decide (maxBytes < total)%Z then Throw (PlainError "too large")
      else read_events maxBytes events total (chunks +:+ c)
  | End :: _ => Ret chunks
  | ReqError message :: _ => Throw (PlainError message)
  | [] => Throw (PlainError "timeout")
  end.
Definition readBodyCapped (req : IncomingMessage) (maxBytes : Z) : exc string :=
  read_events maxBytes (im_events req) 0 EmptyString.

(** [send]: the payload is built before anything is set. *)
Definition send (status : Z) (obj : jsval) : exc ServerResponse :=
  payload ← jcs_canonicalize obj;
  Ret (mkResponse status
    [("content-type", CONTENT_TYPE); ("content-length", z_to_string (str_len (utf8_encode payload)))]
    (utf8_encode payload)).
Definition send_error (status : Z) (message : string) : exc ServerResponse :=
  send status (JObj [("error", JStr message)]).

(** ** Options *)

Record HttpOutboxReceiverOptions := mkReceiverOptions {
  ro_expectedPath : string;
  ro_resolveRequestKey : string → exc (option Secret);
  ro_responseKeyId : string; ro_responseSecret : Secret;
  (** the store is one of [DURABLE_NONCE_STORES] *)
  ro_durable : bool;
  ro_freshnessMs : Z; ro_nonceSafetyMs : Z; ro_maxBodyBytes : Z; ro_bodyReadMs : Z }.

(** [/^(0|[1-9][0-9]{0,15})$/] *)
Definition TIMESTAMP_RE (s : string) : bool :=
  match s with
  | EmptyString => false
  | String c r =>
      (bool_decide (s = "0") || (char_in 49 57 c && all_chars is_digit r && bool_decide (str_len r <= 15)%Z))%bool
  end.

(** ** The world *)

(** A request past the replay check: what its signature covers, and the tag. *)
Record Admission := mkAdmission {
  ad_keyId : string; ad_path : string; ad_ts : string; ad_nonce : string; ad_digest : string; ad_secret : string; ad_tag : string }.

Record Rx (N S : Type) := mkRx {
  rx_clock : Z; rx_nonces : N; rx_app : S; rx_admitted : list Admission; rx_delay : Z }.
Arguments mkRx {N S}. Arguments rx_clock {N S}. Arguments rx_nonces {N S}. Arguments rx_app {N S}.
Arguments rx_admitted {N S}. Arguments rx_delay {N S}.

Section receiver.
Context `{WC : WebCrypto} `{NB : NodeBuffer} {N S : Type} `{!ReplayNonceStore N}.
Notation W := (Rx N S).
Context (opts : HttpOutboxReceiverOptions) (receive : jsval → proc S (exc jsval)).

(** The checks of [createHttpOutboxReceiver]; the secret the handler uses. *)
Definition createHttpOutboxReceiver (nonceStore : N) : exc string :=
  freshnessMs ← posInt (ro_freshnessMs opts) "freshnessMs";
  safetyMs ← posInt (ro_nonceSafetyMs opts) "nonceSafetyMs";
  _ ← posInt (ro_maxBodyBytes opts) "maxBodyBytes";
  _ ← posInt (ro_bodyReadMs opts) "bodyReadMs";
  if negb (ro_durable opts) then contract_error "nonceStore is not a durable attested replay authority"
  else if negb (String.prefix "/" (ro_expectedPath opts))
  then contract_error "expectedPath must be an absolute request path"
  else if negb (KEY_ID_RE (ro_responseKeyId opts)) then contract_error "invalid responseKeyId"
  else
    respSecret ← toSecret (ro_responseSecret opts) "responseSecret";
    let guaranteed := (retentionMs nonceStore - 2 * maxClockSkewMs nonceStore)%Z in
    if decide (guaranteed < 2 * freshnessMs + safetyMs)%Z
    then contract_error ("nonce retention too small: guaranteed " +:+ z_to_string guaranteed +:+
           "ms (retention " +:+ z_to_string (retentionMs nonceStore) +:+ " - 2*skew " +:+
           z_to_string (maxClockSkewMs nonceStore) +:+ ") must be >= 2*freshness " +:+
           z_to_string (2 * freshnessMs) +:+ " + safety " +:+ z_to_string safetyMs)
    else Ret respSecret.

(** The checks before the clock is read: the raw body and the four headers with
    the key's secret, or the response that ends the request. *)
Definition request_parts (req : IncomingMessage) : exc (ServerResponse + (string * (string * string * string * string) * string)) :=
  if decide (im_method req ≠ Some "POST") then inl <$> send_error 405 "method not allowed"
  else if decide (default EmptyString (im_url req) ≠ ro_expectedPath opts) then inl <$> send_error 404 "not found"
  else
    ct ← content_type req;
    if negb (isJsonMime ct) then inl <$> send_error 415 "unsupported media type" else
    match readBodyCapped req (ro_maxBodyBytes opts) with
    | Throw e => inl <$> send_error (if decide (e = PlainError "timeout") then 408 else 413)%Z "body read failed"
    | Ret body =>
        match header req HDR_keyId, header req HDR_ts, header req HDR_nonce, header req HDR_sig with
        | Some keyId, Some ts, Some nonce, Some sig =>
            if (bool_decide (ts = EmptyString) || bool_decide (sig = EmptyString) ||
                negb (KEY_ID_RE keyId) || negb (NONCE_RE nonce))%bool
            then inl <$> send_error 401 "unauthenticated"
            else
              secretRaw ← ro_resolveRequestKey opts keyId;
              match secretRaw with
              | None => inl <$> send_error 401 "unknown key"
              | Some raw =>
                  let secretBuf := secret_bytes raw in
                  if decide (str_len secretBuf < 32)%Z then inl <$> send_error 500 "ingest failed"
                  else if negb (TIMESTAMP_RE ts) then inl <$> send_error 401 "stale or invalid timestamp"
                  else Ret (inr (body, (keyId, ts, nonce, sig), secretBuf))
              end
        | _, _, _, _ => inl <$> send_error 401 "unauthenticated"
        end
    end.

(** The checks at the clock reading [currentTime]: the admission this request
    asks for. *)
Definition authenticate (body : string) (parts : string * string * string * string) (secretBuf : string) (currentTime : Z)
    : exc (ServerResponse + Admission) :=
  let '(keyId, ts, nonce, sig) := parts in
  let tsNum := digits_value 0 ts in
  if (negb (is_safe_integer tsNum) || negb (is_safe_integer currentTime) ||
      bool_decide (ro_freshnessMs opts < Z.abs (currentTime - tsNum))%Z)%bool
  then inl <$> send_error 401 "stale or invalid timestamp"
  else
    let bodyDigest := sha256hex body in
    expected ← mac_of secretBuf (request_fields keyId (ro_expectedPath opts) ts nonce bodyDigest);
    if negb (ctEqualB64u sig expected) then inl <$> send_error 401 "bad signature"
    else Ret (inr (mkAdmission keyId (ro_expectedPath opts) ts nonce bodyDigest secretBuf expected)).

(** [nonceStore.checkAndStore(nonce)] of the request that read the clock at
    [currentTime]. *)
Definition burn_nonce (a : Admission) (currentTime : Z) : proc W (exc bool) :=
  call (λ w,
    let '(n, r) := checkAndStore (ad_nonce a) (rx_clock w) (rx_nonces w) in
    (mkRx (rx_clock w) n (rx_app w)
       (match r with Ret true => rx_admitted w ++ [a] | _ => rx_admitted w end)
       (Z.max (rx_delay w) (rx_clock w - currentTime)), r)).

Definition rx_put (s : S) (w : W) : W := mkRx (rx_clock w) (rx_nonces w) s (rx_admitted w) (rx_delay w).

(** The reply to an applied record. *)
Definition reply (respSecret : string) (nonce bodyDigest : string) (receipt : jsval) : exc ServerResponse :=
  receiptText ← jcs_canonicalize receipt;
  mac ← mac_of respSecret (reply_fields (ro_responseKeyId opts) nonce bodyDigest (ro_expectedPath opts) receiptText);
  send 200 (JObj [("v", JStr ACK_DOMAIN); ("keyId", JStr (ro_responseKeyId opts)); ("challenge", JStr nonce);
                  ("requestDigest", JStr bodyDigest); ("receipt", receipt); ("sig", JStr (b64url mac))]).

(** After the nonce is burned. *)
Definition serve (respSecret body : string) (a : Admission) : proc W (exc ServerResponse) :=
  match parse_utf8 body with
  | Throw _ => Done (send_error 400 "invalid json")
  | Ret (JObj l) =>
      let+ r := lift rx_app rx_put (receive (JObj l)) in
      Done (receipt ← strictReceipt r; reply respSecret (ad_nonce a) (ad_digest a) receipt)
  | Ret _ => Done (send_error 400 "invalid record")
  end.

Definition try_handle (respSecret : string) (req : IncomingMessage) : proc W (exc ServerResponse) :=
  let+ parts := Done (request_parts req) in
  match parts with
  | inl res => eret res
  | inr (body, hdrs, secretBuf) =>
      let* currentTime := read rx_clock in
      let+ admission := Done (authenticate body hdrs secretBuf currentTime) in
      match admission with
      | inl res => eret res
      | inr a =>
          let+ fresh := burn_nonce a currentTime in
          if (fresh : bool) then serve respSecret body a else Done (send_error 401 "replay")
      end
  end.

(** The handler: any exception becomes a 500. *)
Definition handle (respSecret : string) (req : IncomingMessage) : proc W (option ServerResponse) :=
  let* r := try_handle respSecret req in
  Done (match r with
        | Ret res => Some res
        | Throw _ => match send_error 500 "ingest failed" with Ret res => Some res | Throw _ => None end
        end).
End receiver.
