(* ===== verification/HttpSafety.v ===== *)
(** * What the HTTP transport guarantees

    [request_single_use]: two requests with one signature, or with one timestamp
    and nonce, are not both answered with 200.  [reply_bound]: a delivery that
    returns a receipt got a reply authenticated for this very attempt. *)

From S2P Require Import Prelude Proc JsNum Encoding Json JsText Crypto OutboxContract OutboxCanon OutboxDigest OutboxPg OutboxPublisher HttpNonce HttpTransport HttpReceiver.
From stdpp Require Import base strings list sorting relations.
From Stdlib Require Import ZArith Lia.

Local Open Scope string_scope.
Local Open Scope bpc_scope.

(** ** Framing *)

Lemma frame_fields_frame parts h r : frame parts = Ret r → frame_fields parts h = Ret (h +:+ r).
Proof.
  revert h r. induction parts as [|p parts IH]; intros h r; cbn [frame frame_fields].
  { intros [= <-]. by rewrite string_app_nil_r. }
  unfold writeUInt32BE. destruct (u32be _) as [len|]; [|done]. cbn [mbind exc_bind].
  intros (rest & Hrest & [= <-])%exc_bind_Ret. rewrite (IH _ rest) by done. f_equal. by rewrite !string_app_assoc.
Qed.

Lemma frame_inj parts parts' r : frame parts = Ret r → frame parts' = Ret r → parts = parts'.
Proof. intros H1%(frame_fields_frame _ EmptyString) H2%(frame_fields_frame _ EmptyString). by eapply frame_fields_inj. Qed.

Section mac.
Context `{WC : WebCrypto}.

(** Two messages with one tag under one key. *)
Definition hmac_collision (secret : string) (fields fields' : list string) : Prop :=
  ∃ m m' tag, frame fields = Ret m ∧ frame fields' = Ret m' ∧ m ≠ m' ∧ hmac secret m = Ret tag ∧ hmac secret m' = Ret tag.

Lemma mac_binds secret fields fields' tag :
  mac_of secret fields = Ret tag → mac_of secret fields' = Ret tag →
  fields = fields' ∨ hmac_collision secret fields fields'.
Proof.
  unfold mac_of. intros (m & Hm & H)%exc_bind_Ret (m' & Hm' & H')%exc_bind_Ret.
  destruct (decide (m = m')) as [<-|Hne]; [left; by eapply frame_inj|right]. by exists m, m', tag.
Qed.

Lemma ctEqualB64u_true `{NB : NodeBuffer} a expected : ctEqualB64u a expected = true ↔ from_base64url a = expected.
Proof.
  unfold ctEqualB64u. rewrite andb_true_iff, !bool_decide_eq_true. split; [by intros [_ ?]|]. by intros ->.
Qed.
End mac.

(** ** Single use *)

Section single_use.
Context `{WC : WebCrypto} `{NB : NodeBuffer} {N S : Type} `{!ReplayNonceStore N} `{!ReplayNonceLaws N}.
Notation W := (Rx N S).
Context (opts : HttpOutboxReceiverOptions) (receive : jsval → proc S (exc jsval)).
Implicit Types (w : W) (a b : Admission).

Definition admission_fields a : list string :=
  request_fields (ad_keyId a) (ad_path a) (ad_ts a) (ad_nonce a) (ad_digest a).
(** The last time at which a request with this timestamp may consume its nonce. *)
Definition horizon a : Z := (digits_value 0 (ad_ts a) + ro_freshnessMs opts + ro_nonceSafetyMs opts - 1)%Z.
Definition admission_id a : string * string := (ad_ts a, ad_nonce a).

Definition rx_ok w : Prop :=
  Forall (λ a, mac_of (ad_secret a) (admission_fields a) = Ret (ad_tag a)) (rx_admitted w) ∧
  NoDup (admission_id <$> rx_admitted w) ∧
  Forall (λ a, (rx_clock w <= horizon a)%Z → guards (rx_nonces w) (ad_nonce a) (horizon a)) (rx_admitted w).

Definition rx_inv w : Prop :=
  (2 * ro_freshnessMs opts + ro_nonceSafetyMs opts <= retentionMs (rx_nonces w) - 2 * maxClockSkewMs (rx_nonces w))%Z ∧
  ((rx_delay w < ro_nonceSafetyMs opts)%Z → rx_ok w).

(** What every step of a handler, and of the environment, does. *)
Definition rx_moves w w' : Prop :=
  (rx_clock w <= rx_clock w')%Z ∧ rx_admitted w `prefix_of` rx_admitted w' ∧ (rx_inv w → rx_inv w').

(** The environment: time passes, and the store keeps refusing what it guards. *)
Record rx_env w w' : Prop := {
  re_clock : (rx_clock w <= rx_clock w')%Z;
  re_constant : retentionMs (rx_nonces w') = retentionMs (rx_nonces w) ∧
    maxClockSkewMs (rx_nonces w') = maxClockSkewMs (rx_nonces w);
  re_guards n t : (rx_clock w' <= t)%Z → guards (rx_nonces w) n t → guards (rx_nonces w') n t;
  re_history : rx_admitted w' = rx_admitted w ∧ rx_delay w' = rx_delay w;
}.

#[export] Instance rx_moves_preorder : PreOrder rx_moves.
Proof.
  split; [by intros w|]. intros w1 w2 w3 (H1 & H2 & H3) (H4 & H5 & H6).
  split; [lia|]. split; [by etrans|auto].
Qed.

(** Moves that add no admission keep the invariant when the store keeps its
    guards. *)
Lemma quiet_moves w w' : rx_env w w' → rx_moves w w'.
Proof.
  intros [Hc [Hr Hk] Hg [Ha Hd]]. split; [done|]. split; [by rewrite Ha|]. intros [Hb Hok]. split; [by rewrite Hr, Hk|].
  rewrite Hd. intros Hlt. destruct (Hok Hlt) as (H1 & H2 & H3). unfold rx_ok. rewrite Ha. split; [done|]. split; [done|].
  eapply Forall_impl; [exact H3|]. intros a Hx Ht. apply Hg; [done|]. apply Hx. cbn in *. lia.
Qed.

Lemma put_moves w s : rx_moves w (rx_put s w).
Proof. apply quiet_moves. split; (done || (cbn; lia)). Qed.

Lemma wpg_lift (p : proc S (exc jsval)) w : wpg rx_moves rx_moves (lift rx_app rx_put p) (λ _ _, True) w.
Proof.
  revert p w. fix IH 1. intros [x|f] w; [done|]. cbn. intros w1 _. destruct (f (rx_app w1)) as [s p'].
  split; [apply put_moves|apply IH].
Qed.

(** A request asks for admission [a] at its clock reading [c]. *)
Definition asks a (c : Z) : Prop :=
  mac_of (ad_secret a) (admission_fields a) = Ret (ad_tag a) ∧ (Z.abs (c - digits_value 0 (ad_ts a)) <= ro_freshnessMs opts)%Z.

Lemma authenticate_asks body keyId ts nonce sig secret c a :
  authenticate opts body (keyId, ts, nonce, sig) secret c = Ret (inr a) →
  asks a c ∧ ad_ts a = ts ∧ ad_nonce a = nonce ∧ ad_keyId a = keyId ∧ ad_path a = ro_expectedPath opts ∧
  ad_secret a = secret ∧ ad_tag a = from_base64url sig ∧ ad_digest a = sha256hex body.
Proof.
  unfold authenticate. case_match eqn:Hc; [by destruct (send_error _ _)|]. btrue.
  intros (tag & Htag & Hrest)%exc_bind_Ret. destruct (ctEqualB64u sig tag) eqn:Hsig; [|by destruct (send_error _ _)].
  apply ctEqualB64u_true in Hsig. injection Hrest as <-. unfold asks, admission_fields. cbn. split; [|done]. split; [done|lia].
Qed.

Lemma burn_moves a c w : asks a c → (c <= rx_clock w)%Z →
  rx_moves w (let '(n, r) := checkAndStore (ad_nonce a) (rx_clock w) (rx_nonces w) in
    mkRx (rx_clock w) n (rx_app w) (match r with Ret true => (rx_admitted w ++ [a])%list | _ => rx_admitted w end)
      (Z.max (rx_delay w) (rx_clock w - c))).
Proof.
  intros [Hmac Hfresh] Hc. destruct (checkAndStore _ _ _) as [n r] eqn:Hn.
  pose proof (store_constant (ad_nonce a) (rx_clock w) (rx_nonces w)) as [Hr Hk]. rewrite Hn in Hr, Hk. cbn in Hr, Hk.
  assert (Hkept : Forall (λ b, (rx_clock w <= horizon b)%Z → guards (rx_nonces w) (ad_nonce b) (horizon b)) (rx_admitted w) →
    Forall (λ b, (rx_clock w <= horizon b)%Z → guards n (ad_nonce b) (horizon b)) (rx_admitted w)).
  { intros Hall. eapply Forall_impl; [exact Hall|]. intros b Hb Ht. pose proof (guards_kept (ad_nonce a) _ _ _ _ (Hb Ht) Ht) as Hg. by rewrite Hn in Hg. }
  split; [done|]. split; [by destruct r as [[]|]; [by eexists|..]|]. intros [Hret Hok]. split; [cbn; lia|].
  cbn [rx_delay]. intros Hlt. destruct (Hok ltac:(lia)) as (Hmacs & Hnd & Hgs). unfold rx_ok. cbn [rx_admitted rx_clock rx_nonces].
  destruct r as [[|]|e]; [|by auto..]. split; [by apply Forall_app_2; [|by constructor]|]. split.
  - rewrite fmap_app. apply NoDup_app. split; [done|]. split; [|apply NoDup_singleton].
    intros x Hx ->%list_elem_of_singleton. apply list_elem_of_fmap in Hx as (b & [= Hts Hnonce] & Hb).
    rewrite Forall_forall in Hgs. pose proof (Hgs b Hb) as Hg. unfold horizon in Hg. rewrite <-Hts, <-Hnonce in Hg.
    eapply guards_refuse; [apply Hg; lia|..|by rewrite Hn]. lia.
  - apply Forall_app_2; [by auto|]. constructor; [|done]. intros Ht. apply stored_guards in Hn.
    eapply guards_earlier; [exact Hn|]. unfold horizon. lia.
Qed.

(** ** The handler *)

(** Processes whose steps are such moves, from any world after [w]. *)
Notation safe p w := (wpg rx_moves rx_moves p (λ _ _, True) w).

Lemma serve_safe respSecret body a w : safe (serve opts receive respSecret body a) w.
Proof.
  unfold serve. destruct (parse_utf8 body) as [[| | | | | |l]|]; try done.
  apply wpg_bind. eapply wpg_mono; [|by apply wpg_lift]. by intros [r|e] w' _.
Qed.

Lemma handle_safe respSecret req w : safe (handle opts receive respSecret req) w.
Proof.
  apply wpg_bind. apply (wpg_mono _ _ _ (λ _ _, True)); [by intros|]. unfold try_handle.
  destruct (request_parts opts req) as [[res|[[body [[[keyId ts] nonce] sig]] secret]]|e]; [done| |done].
  cbn [ebind pbind]. apply wpg_bind, wpg_call. intros w1 Hw1. split; [done|]. cbn [fst snd].
  destruct (authenticate _ _ _ _ _) as [[res|a]|e] eqn:Ha; [done| |done]. cbn [ebind pbind].
  apply authenticate_asks in Ha as [Ha _]. apply wpg_bind. unfold burn_nonce. intros w2 [Hc _].
  pose proof (burn_moves a _ w2 Ha Hc) as Hm. destruct (checkAndStore _ _ _) as [n r]. split; [exact Hm|].
  destruct r as [[|]|e]; [apply serve_safe|done|done].
Qed.

(** ** Two answered requests *)

(** What the signature of a request is over. *)
Definition hdr (req : IncomingMessage) (name : string) : string := default EmptyString (header req name).
Definition signed_fields (req : IncomingMessage) : list string :=
  request_fields (hdr req HDR_keyId) (ro_expectedPath opts) (hdr req HDR_ts) (hdr req HDR_nonce)
    (match readBodyCapped req (ro_maxBodyBytes opts) with Ret body => sha256hex body | Throw _ => EmptyString end).

(** The request of process [i] got past the replay check in step [s]. *)
Definition admits (req : IncomingMessage) (s : W * W) : Prop :=
  ∃ a c secret, rx_admitted s.2 = (rx_admitted s.1 ++ [a])%list ∧ asks a c ∧
    admission_fields a = signed_fields req ∧ ad_tag a = from_base64url (hdr req HDR_sig) ∧
    ro_resolveRequestKey opts (hdr req HDR_keyId) = Ret (Some secret) ∧ ad_secret a = secret_bytes secret.

Lemma send_status status obj res : send status obj = Ret res → sr_status res = status.
Proof. unfold send. by intros (payload & _ & [= <-])%exc_bind_Ret. Qed.

Lemma error_response {B} status m (res : ServerResponse) :
  inl <$> send_error status m = Ret (inl res : ServerResponse + B) → status ≠ 200%Z → sr_status res ≠ 200%Z.
Proof.
  destruct (send_error status m) as [r|] eqn:Hs; [|done]. intros [= <-]. by rewrite (send_status _ _ _ Hs).
Qed.

Lemma request_parts_inl req res : request_parts opts req = Ret (inl res) → sr_status res ≠ 200%Z.
Proof.
  unfold request_parts. intros Hres. do 2 (case_decide; [by apply error_response in Hres|]).
  apply exc_bind_Ret in Hres as (ct & _ & Hres). case_match; [by apply error_response in Hres|].
  destruct (readBodyCapped req _); [|by apply error_response in Hres; [|case_decide]].
  destruct (header req HDR_keyId) as [k|]; [|by apply error_response in Hres].
  destruct (header req HDR_ts) as [x|]; [|by apply error_response in Hres].
  destruct (header req HDR_nonce) as [n|]; [|by apply error_response in Hres].
  destruct (header req HDR_sig) as [g|]; [|by apply error_response in Hres].
  case_match; [by apply error_response in Hres|]. apply exc_bind_Ret in Hres as (o & Ho & Hres).
  destruct o as [raw|]; [|by apply error_response in Hres].
  case_decide; [by apply error_response in Hres|]. case_match; [by apply error_response in Hres|done].
Qed.

Lemma error_not_inr {B} status m (x : B) : inl <$> send_error status m = Ret (inr x) → False.
Proof. by destruct (send_error status m). Qed.

Lemma request_parts_inr req body keyId ts nonce sig secret :
  request_parts opts req = Ret (inr (body, (keyId, ts, nonce, sig), secret)) →
  hdr req HDR_keyId = keyId ∧ hdr req HDR_ts = ts ∧ hdr req HDR_nonce = nonce ∧ hdr req HDR_sig = sig ∧
  readBodyCapped req (ro_maxBodyBytes opts) = Ret body ∧
  ∃ raw, ro_resolveRequestKey opts keyId = Ret (Some raw) ∧ secret_bytes raw = secret.
Proof.
  unfold request_parts, hdr. intros H'. do 2 (case_decide; [by apply error_not_inr in H'|]).
  apply exc_bind_Ret in H' as (ct & _ & H'). case_match; [by apply error_not_inr in H'|].
  destruct (readBodyCapped req _) as [bd|]; [|by apply error_not_inr in H'].
  destruct (header req HDR_keyId) as [k|]; [|by apply error_not_inr in H'].
  destruct (header req HDR_ts) as [x|]; [|by apply error_not_inr in H'].
  destruct (header req HDR_nonce) as [n|]; [|by apply error_not_inr in H'].
  destruct (header req HDR_sig) as [g|]; [|by apply error_not_inr in H'].
  case_match; [by apply error_not_inr in H'|]. apply exc_bind_Ret in H' as (o & Ho & H').
  destruct o as [raw|]; [|by apply error_not_inr in H'].
  case_decide; [by apply error_not_inr in H'|]. case_match; [by apply error_not_inr in H'|].
  injection H' as <- <- <- <- <- <-. do 5 (split; [done|]). eauto.
Qed.

Lemma authenticate_inl body parts secret c res : authenticate opts body parts secret c = Ret (inl res) → sr_status res ≠ 200%Z.
Proof.
  destruct parts as [[[keyId ts] nonce] sig]. unfold authenticate. intros Hres.
  case_match; [by apply error_response in Hres|]. apply exc_bind_Ret in Hres as (tag & _ & Hres).
  case_match; [by apply error_response in Hres|done].
Qed.

(** A request answered with 200 was admitted by one of its own steps. *)
Lemma handle_admits R respSecret req w tr w' res :
  exec R (handle opts receive respSecret req) w tr w' (Some res) → sr_status res = 200%Z →
  ∃ s, s ∈ tr ∧ admits req s.
Proof.
  intros (r & w1 & tr1 & tr2 & Hr & Hd & ->)%exec_bind_inv Hst. apply exec_done_inv in Hd as (Hd & -> & ->).
  rewrite app_nil_r. destruct r as [res'|e].
  2: { destruct (send_error 500 _) eqn:Hs; [|done]. injection Hd as ->. apply send_status in Hs. congruence. }
  injection Hd as ->. unfold try_handle in Hr.
  destruct (request_parts opts req) as [[r|[[body [[[keyId ts] nonce] sig]] secret]]|e] eqn:Hp; cbn [ebind pbind] in Hr.
  - apply exec_done_inv in Hr as ([= ->] & _). by apply request_parts_inl in Hp.
  - apply exec_bind_inv in Hr as (c & w2 & t1 & t2 & Hc & Hr & ->). apply exec_call_inv in Hc as (w3 & _ & [= <- <-] & ->).
    destruct (authenticate _ _ _ _ _) as [[r|a]|e] eqn:Ha; cbn [ebind pbind] in Hr.
    + apply exec_done_inv in Hr as ([= ->] & _). by apply authenticate_inl in Ha.
    + apply exec_ebind_inv in Hr as (fresh & w4 & t3 & t4 & Hb & Hr & ->).
      apply exec_call_inv in Hb as (w5 & _ & Hb & ->). destruct (checkAndStore _ _ _) as [n r] eqn:Hn. injection Hb as <- ->.
      destruct fresh; [|apply exec_done_inv in Hr as (Hr & _); symmetry in Hr; apply send_status in Hr; congruence].
      eexists; split; [apply elem_of_app; right; apply elem_of_app; left; by apply elem_of_cons; left|].
      apply authenticate_asks in Ha as (Hasks & <- & <- & <- & Hpath & <- & Htag & Hdig).
      apply request_parts_inr in Hp as (H1 & H2 & H3 & H4 & H5 & raw & H6 & H7).
      exists a, (rx_clock w3), raw. unfold admission_fields, signed_fields. rewrite H1, H2, H3, H4, H5, Hpath, Hdig. done.
    + by apply exec_done_inv in Hr as ([=] & _).
  - by apply exec_done_inv in Hr as ([=] & _).
Qed.

Lemma created_inv respSecret w :
  createHttpOutboxReceiver opts (rx_nonces w) = Ret respSecret → rx_admitted w = [] → rx_inv w.
Proof.
  unfold createHttpOutboxReceiver. intros (fr & [-> _]%posInt_Ret & Hcr)%exc_bind_Ret Ha.
  apply exc_bind_Ret in Hcr as (sf & [-> _]%posInt_Ret & Hcr).
  apply exc_bind_Ret in Hcr as (? & _ & Hcr). apply exc_bind_Ret in Hcr as (? & _ & Hcr).
  repeat (case_match; [done|]). apply exc_bind_Ret in Hcr as (? & _ & Hcr). case_decide; [done|].
  split; [lia|]. intros _. unfold rx_ok. rewrite Ha. split; [done|]. split; [apply NoDup_nil_2|done].
Qed.

Definition handlers (respSecret : string) (reqs : list IncomingMessage) : list (proc W (option ServerResponse)) :=
  handle opts receive respSecret <$> reqs.

Lemma handlers_move respSecret reqs w tr w' ps' : pool_run rx_env (handlers respSecret reqs) w tr w' ps' →
  Forall (λ e, rx_moves e.2.1 e.2.2) tr ∧ pool_run rx_moves (handlers respSecret reqs) w tr w' ps'.
Proof.
  intros Hrun. apply (pool_run_mono _ _ _ _ _ _ _ quiet_moves) in Hrun. split; [|done].
  eapply (pool_guarantee _ _ (λ _ _ _, True)); [..|exact Hrun|]; try done.
  - intros w1 w2 w3. apply transitivity.
  - intros i p (req & -> & _)%list_lookup_fmap_Some. apply handle_safe.
Qed.

(** Two requests that were admitted one after the other. *)
Lemma admissions_differ respSecret reqs w tr w' ps' i j reqi reqj si sj t1 t2 t3 :
  rx_inv w → (rx_delay w' < ro_nonceSafetyMs opts)%Z →
  pool_run rx_env (handlers respSecret reqs) w tr w' ps' →
  tr = (t1 ++ (Some i, si) :: t2 ++ (Some j, sj) :: t3)%list → admits reqi si → admits reqj sj →
  ∃ a b, a ∈ rx_admitted si.2 ∧ b ∈ rx_admitted sj.2 ∧ admission_id a ≠ admission_id b ∧
    admission_fields a = signed_fields reqi ∧ admission_fields b = signed_fields reqj.
Proof.
  intros Hinv Hdelay Hrun -> (a & ca & xa & Ha & Ka & Fa & _) (b & cb & xb & Hb & Kb & Fb & _).
  apply handlers_move in Hrun as [Hall Hrun].
  assert (Hm : ∀ w1 w2, rtc (trace_step (t1 ++ (Some i, si) :: t2 ++ (Some j, sj) :: t3)%list) w1 w2 → rx_moves w1 w2).
  { intros w1 w2. by apply (pool_rtc rx_moves). }
  pose proof (Hm _ _ (pool_chain_all _ _ _ _ _ _ Hrun)) as (_ & _ & Hend).
  destruct (Hm _ _ (pool_chain _ _ _ _ _ _ Hrun t1 _ t2 _ t3 eq_refl)) as (_ & [x Hx] & _). cbn in Hx.
  destruct (Hm _ _ (pool_chain_to _ _ _ _ _ _ Hrun (t1 ++ (Some i, si) :: t2)%list (Some j, sj) t3
    ltac:(by rewrite <-app_assoc))) as (_ & [y Hy] & _). cbn in Hy.
  destruct (Hend Hinv) as [_ Hok]. destruct (Hok Hdelay) as (_ & Hnd & _).
  assert (Heq : rx_admitted w' = ((((rx_admitted si.1 ++ [a]) ++ x) ++ [b]) ++ y)%list) by congruence.
  exists a, b. split; [rewrite Ha; set_solver|]. split; [rewrite Hb; set_solver|]. split; [|done].
  rewrite Heq, !fmap_app in Hnd. intros Hid. apply NoDup_app in Hnd as (Hnd & _ & _).
  apply NoDup_app in Hnd as (_ & Hd & _). apply (Hd (admission_id a)); [set_solver|rewrite Hid; set_solver].
Qed.

(** Different admissions sign different texts, so one signature for both is a
    collision. *)
Lemma same_signature_collides reqi reqj si sj : admits reqi si → admits reqj sj →
  signed_fields reqi ≠ signed_fields reqj →
  header reqi HDR_keyId = header reqj HDR_keyId → header reqi HDR_sig = header reqj HDR_sig →
  ∃ secret, ro_resolveRequestKey opts (hdr reqi HDR_keyId) = Ret (Some secret) ∧
    hmac_collision (secret_bytes secret) (signed_fields reqi) (signed_fields reqj).
Proof.
  intros (a & ca & xa & _ & [Ma _] & Fa & Ta & Ra & Sa) (b & cb & xb & _ & [Mb _] & Fb & Tb & Rb & Sb) Hne Hk Hs.
  unfold hdr in *. rewrite <-Hk, Ra in Rb. injection Rb as ->. exists xb. split; [done|].
  rewrite Fa, Sa, Ta in Ma. rewrite Fb, Sb, Tb, <-Hs in Mb. by destruct (mac_binds _ _ _ _ Ma Mb).
Qed.

(** C31 Of two requests that are answered with 200, the timestamps or the nonces
    differ; and when both carry one signature under one key, the two texts they
    sign are an HMAC collision.  So a recorded request is not received twice,
    whatever is changed in it, in any interleaving of handlers, with any moves of
    the clock and of the store's environment that keep its guards: provided no
    handler takes [nonceSafetyMs] or more from its timestamp check to the
    consumption of its nonce. *)
Theorem request_single_use respSecret reqs w tr w' ps' i j reqi reqj ri rj :
  createHttpOutboxReceiver opts (rx_nonces w) = Ret respSecret → rx_admitted w = [] →
  pool_run rx_env (handlers respSecret reqs) w tr w' ps' → (rx_delay w' < ro_nonceSafetyMs opts)%Z →
  i ≠ j → reqs !! i = Some reqi → reqs !! j = Some reqj →
  ps' !! i = Some (Done (Some ri)) → ps' !! j = Some (Done (Some rj)) → sr_status ri = 200%Z → sr_status rj = 200%Z →
  (hdr reqi HDR_ts, hdr reqi HDR_nonce) ≠ (hdr reqj HDR_ts, hdr reqj HDR_nonce) ∧
  (header reqi HDR_keyId = header reqj HDR_keyId → header reqi HDR_sig = header reqj HDR_sig →
   ∃ secret, ro_resolveRequestKey opts (hdr reqi HDR_keyId) = Ret (Some secret) ∧
     hmac_collision (secret_bytes secret) (signed_fields reqi) (signed_fields reqj)).
Proof.
  intros Hcr Hnone Hrun Hdelay Hne Hi Hj Hdi Hdj Hsi Hsj. pose proof (created_inv _ _ Hcr Hnone) as Hinv.
  assert (Hadm : ∀ k req r, reqs !! k = Some req → ps' !! k = Some (Done (Some r)) → sr_status r = 200%Z →
    ∃ s, (Some k, s) ∈ tr ∧ admits req s).
  { intros k req r Hk Hd Hs. destruct (pool_exec _ _ _ _ _ _ k (handle opts receive respSecret req) (Some r) Hrun) with (w0 := w)
      as [w1 Hex]; [unfold handlers; by rewrite list_lookup_fmap, Hk|done|].
    destruct (handle_admits _ _ _ _ _ _ _ Hex Hs) as (s & Hin & Hs'). exists s. split; [by apply own_step_pool|done]. }
  destruct (Hadm _ _ _ Hi Hdi Hsi) as (si & Hini & Ai). destruct (Hadm _ _ _ Hj Hdj Hsj) as (sj & Hinj & Aj).
  enough (Hid : (hdr reqi HDR_ts, hdr reqi HDR_nonce) ≠ (hdr reqj HDR_ts, hdr reqj HDR_nonce)).
  { split; [done|]. apply (same_signature_collides _ _ si sj Ai Aj). unfold signed_fields, request_fields. congruence. }
  destruct (trace_order _ _ _ _ _ Hne Hini Hinj) as (t1 & t2 & t3 & [Htr|Htr]).
  - destruct (admissions_differ _ _ _ _ _ _ _ _ reqi reqj _ _ _ _ _ Hinv Hdelay Hrun Htr Ai Aj)
      as (a & b & _ & _ & Hid & Fa & Fb). unfold admission_fields, signed_fields, request_fields, admission_id in *. congruence.
  - destruct (admissions_differ _ _ _ _ _ _ _ _ reqj reqi _ _ _ _ _ Hinv Hdelay Hrun Htr Aj Ai)
      as (b & a & _ & _ & Hid & Fb & Fa). unfold admission_fields, signed_fields, request_fields, admission_id in *. congruence.
Qed.
End single_use.

(** ** Replies *)

Section replies.
Context `{WC : WebCrypto} `{NB : NodeBuffer}.

Lemma any_differs_false receipt record ks : any_differs receipt record ks = Ret false ↔
  Forall (λ k, prop record k = Ret (field receipt k)) ks.
Proof.
  induction ks as [|k ks IH]; simpl; [by split|]. rewrite Forall_cons, <-IH. unfold differs.
  destruct (prop record k) as [v|e]; cbn [mbind exc_bind]; [|naive_solver].
  case_bool_decide as Hv; naive_solver.
Qed.

Lemma verify_ack_Ret t receipt record : verify_ack t receipt record = Ret tt ↔ to_ackVerify (ht_opts t) receipt record = Ret tt.
Proof. unfold verify_ack. destruct (to_ackVerify _ _ _) as [[]|[]]; naive_solver. Qed.

(** What an accepted envelope satisfies. *)
Record envelope_ok (t : HttpOutboxTransport) (env record : jsval) (nonce digest : string) (receipt : jsval) : Prop := {
  eo_challenge : field env "challenge" = JStr nonce;
  eo_digest : field env "requestDigest" = JStr digest;
  eo_mac : ∃ keyId sig secret text tag, field env "keyId" = JStr keyId ∧ field env "sig" = JStr sig ∧
    to_resolveResponseKey (ht_opts t) keyId = Ret (Some secret) ∧ (32 <= str_len (secret_bytes secret))%Z ∧
    jcs_canonicalize receipt = Ret text ∧ from_base64url sig = tag ∧
    mac_of (secret_bytes secret) (reply_fields keyId nonce digest (ht_path t) text) = Ret tag ∧
    (** the tag authenticates no other reply *)
    ∀ fields, mac_of (secret_bytes secret) fields = Ret tag →
      fields = reply_fields keyId nonce digest (ht_path t) text ∨
      hmac_collision (secret_bytes secret) fields (reply_fields keyId nonce digest (ht_path t) text);
  eo_receipt : strictReceipt (field env "receipt") = Ret receipt;
  eo_bound : Forall (λ k, prop record k = Ret (field receipt k)) BOUND_KEYS;
  eo_verified : to_ackVerify (ht_opts t) receipt record = Ret tt;
}.

Lemma check_envelope_Ret t env record nonce digest receipt :
  check_envelope t env record nonce digest = Ret receipt → envelope_ok t env record nonce digest receipt.
Proof.
  unfold check_envelope. destruct env as [| | | | | |l]; try done.
  destruct (field (JObj l) "keyId") as [| | | |keyId| |] eqn:Ek; try done.
  destruct (field (JObj l) "challenge") as [| | | |challenge| |] eqn:Ec; try done.
  destruct (field (JObj l) "requestDigest") as [| | | |requestDigest| |] eqn:Ed; try done.
  destruct (field (JObj l) "sig") as [| | | |sig| |] eqn:Es; try done.
  case_match; [done|]. case_match eqn:Hb; [done|]. btrue. apply dec_stable in H0, H1. subst challenge requestDigest.
  intros (o & Ho & Hr)%exc_bind_Ret. destruct o as [raw|]; [|done].
  apply exc_bind_Ret in Hr as (secret & Hs & Hr). unfold toSecret in Hs. case_decide; [done|]. injection Hs as <-.
  apply exc_bind_Ret in Hr as (rc & Hrc & Hr). destruct (strictReceipt _) as [rc'|] eqn:Hst in Hrc; [|done]. injection Hrc as ->.
  apply exc_bind_Ret in Hr as (text & Ht & Hr). apply exc_bind_Ret in Hr as (tag & Hmac & Hr).
  destruct (ctEqualB64u sig tag) eqn:Htag; [|done]. apply ctEqualB64u_true in Htag. cbn [negb] in Hr.
  apply exc_bind_Ret in Hr as (d & Hd & Hr). destruct d; [done|]. apply any_differs_false in Hd.
  apply exc_bind_Ret in Hr as ([] & Hv%verify_ack_Ret & [= ->]).
  split; [done|done| |done|done|done]. exists keyId, sig, raw, text, tag. do 3 (split; [done|]). split; [lia|].
  do 3 (split; [done|]). intros fields Hf. by apply (mac_binds _ _ _ tag).
Qed.

(** C32 A delivery that returns a receipt was answered with status 200 by an
    envelope for this very attempt: it names the nonce and the digest of the body
    that were sent, its tag is the HMAC, under the key it names, of these, of the
    path and of the receipt -- and of nothing else, up to an HMAC collision -- the
    receipt is for the delivered record, and the verifier has accepted it. *)
Theorem reply_bound t record nonce tnum network receipt :
  deliverAndAwaitAck t record nonce tnum network = Ret receipt →
  ∃ captured digest req res text env,
    prepare t record nonce tnum = Ret (captured, digest, req) ∧
    network req = Settled (Fetched res) ∧ fr_status res = 200%Z ∧
    readCapped t res = Ret text ∧ parse_utf8 text = Ret env ∧
    envelope_ok t env captured nonce digest receipt.
Proof.
  unfold deliverAndAwaitAck. intros ([[captured digest] req] & Hp & Hr)%exc_bind_Ret.
  destruct (network req) as [|[e|res]] eqn:Hn; [done|by destruct e|]. cbn [check_reply] in Hr.
  case_decide as Hst; [done|]. case_match; [done|]. case_match; [done|].
  apply exc_bind_Ret in Hr as (text & Ht & Hr). unfold verifyEnvelope in Hr. apply exc_bind_Ret in Hr as (env & He & Hr).
  destruct (parse_utf8 text) eqn:Hparse; [|done]. injection He as ->. apply check_envelope_Ret in Hr. by eauto 12.
Qed.
End replies.
