(* ===== verification/HttpExchange.v ===== *)
(** * An exchange of the outbox transport succeeds

    [exchange_accepted]: with a client and a receiver that hold the same keys and
    name the same path, what the client sends the receiver accepts, and the reply
    it builds makes the delivery return the receipt -- however the network cuts
    the two bodies into pieces. *)

From S2P Require Import Prelude Proc JsNum Encoding Json JsText Crypto OutboxContract OutboxCanon OutboxDigest OutboxPg OutboxPgFacts OutboxPublisher HttpNonce HttpTransport HttpReceiver HttpSafety.
From stdpp Require Import base strings list sorting.
From Stdlib Require Import ZArith Lia.

Local Open Scope string_scope.
Local Open Scope bpc_scope.

(** ** Copies of objects *)

(** Parsing the canonical text of an object gives its properties back. *)
Lemma copied_obj l : NoDup l.*1 → ∃ l', copied (JObj l) = JObj l' ∧ length l' = length l ∧
  ∀ k, om_get k l' = copied <$> om_get k l.
Proof.
  intros Hnd. unfold copied. rewrite jsorted_obj.
  assert (Hnd' : NoDup (fields_sorted (sort_field <$> l)).*1).
  { by rewrite fields_sorted_keys, sorted_keys_perm, sort_field_keys. }
  change (jreorder (JObj ?x)) with (JObj (js_order (List.map reorder_field x))).
  eexists. split; [done|]. split.
  - rewrite js_order_perm, reorder_field_fmap, length_fmap, fields_sorted_perm by (by rewrite sort_field_keys).
    by rewrite length_fmap.
  - intros k. rewrite <-(om_get_perm k (List.map reorder_field (fields_sorted (sort_field <$> l))));
      [|by rewrite reorder_field_keys|by rewrite js_order_perm].
    rewrite reorder_field_fmap, om_get_fmap.
    rewrite (om_get_perm k (fields_sorted _) (sort_field <$> l)); [|done|by apply fields_sorted_perm; rewrite sort_field_keys].
    rewrite sort_field_fmap, om_get_fmap. by destruct (om_get k l).
Qed.

Lemma hasExactKeys_copied l l' keys : length l' = length l → (∀ k, om_get k l' = copied <$> om_get k l) →
  hasExactKeys l' keys = hasExactKeys l keys.
Proof.
  intros Hlen Hget. assert (Hhas : ∀ k, om_has k l' = om_has k l).
  { intros k. unfold om_has. rewrite Hget. apply bool_decide_ext. by rewrite fmap_is_Some. }
  unfold hasExactKeys. rewrite Hlen. f_equal. clear Hlen. induction keys as [|k keys IH]; [done|]. simpl. by rewrite Hhas, IH.
Qed.

(** ** Receipts *)

Definition receipt_field (l : list (string * jsval)) (kt : string * receipt_type) : jsval := default JUndef (om_get kt.1 l).

Lemma receipt_values_Ret l keys vs : receipt_values l keys = Ret vs ↔
  Forall (λ kt, has_type (receipt_field l kt) kt.2 = true) keys ∧ vs = (λ kt, (kt.1, receipt_field l kt)) <$> keys.
Proof.
  revert vs. induction keys as [|[k t] keys IH]; intros vs; simpl; [split; [by intros [= <-]|by intros [_ ->]]|].
  rewrite Forall_cons. unfold receipt_field at 1. cbn [fst snd]. destruct (has_type _ t) eqn:Ht; [|naive_solver].
  destruct (receipt_values l keys) as [ws|e].
  - specialize (IH ws). destruct (proj1 IH eq_refl) as [Hall ->]. csimpl. naive_solver.
  - split; [done|]. intros [[_ Hall] _]. pose proof (proj2 (IH _) (conj Hall eq_refl)). done.
Qed.

Lemma keys_of_fields {A B} (f : string * A → B) (keys : list (string * A)) :
  ((λ kt, (kt.1, f kt)) <$> keys).*1 = keys.*1.
Proof. rewrite <-list_fmap_compose. by apply list_fmap_ext. Qed.

(** The keys of a receipt are different: it is read back from its copy. *)
Lemma om_get_fields (f : string * receipt_type → jsval) keys kt : NoDup keys.*1 → kt ∈ keys →
  om_get kt.1 ((λ kt, (kt.1, f kt)) <$> keys) = Some (f kt).
Proof.
  intros Hnd Hin. apply om_get_elem.
  - unfold om_wf. by rewrite keys_of_fields.
  - apply list_elem_of_fmap. by exists kt.
Qed.

Lemma RECEIPT_NoDup : NoDup RECEIPT_TYPES.*1.
Proof. apply (bool_decide_unpack _). vm_compute. exact I. Qed.

Lemma strictReceipt_form o receipt : strictReceipt o = Ret receipt →
  ∃ f, receipt = JObj ((λ kt, (kt.1, f kt)) <$> RECEIPT_TYPES) ∧ Forall (λ kt, has_type (f kt) kt.2 = true) RECEIPT_TYPES.
Proof.
  destruct o as [| | | | | |l]; try done. unfold strictReceipt. destruct (hasExactKeys l _); [|done].
  destruct (receipt_values l RECEIPT_TYPES) as [vs|] eqn:Hvs; [|done]. intros [= <-].
  apply receipt_values_Ret in Hvs as [Hall ->]. by exists (receipt_field l).
Qed.

Lemma has_type_copied v t : has_type v t = true → copied v = v.
Proof. by destruct v, t. Qed.

Lemma strictReceipt_copied o receipt : strictReceipt o = Ret receipt →
  keys_distinct receipt ∧ strictReceipt (copied receipt) = Ret receipt.
Proof.
  intros (f & -> & Hall)%strictReceipt_form. set (l := (λ kt, (kt.1, f kt)) <$> RECEIPT_TYPES).
  assert (Hnd : NoDup l.*1).
  { unfold l. rewrite keys_of_fields. exact RECEIPT_NoDup. }
  rewrite Forall_forall in Hall. split.
  { apply keys_distinct_obj. split; [done|]. apply Forall_fmap, Forall_forall. intros kt Hkt. cbn.
    specialize (Hall kt Hkt). by destruct (f kt), kt.2. }
  destruct (copied_obj l Hnd) as (l' & -> & Hlen & Hget). unfold strictReceipt.
  rewrite (hasExactKeys_copied l l') by done. change (hasExactKeys l RECEIPT_TYPES.*1) with true. cbn iota.
  assert (Hf : ∀ kt, kt ∈ RECEIPT_TYPES → receipt_field l' kt = f kt).
  { intros kt Hkt. unfold receipt_field. rewrite Hget. unfold l. rewrite om_get_fields by (exact RECEIPT_NoDup || done).
    cbn. eapply has_type_copied, Hall, Hkt. }
  rewrite (proj2 (receipt_values_Ret l' RECEIPT_TYPES l)); [done|]. split.
  - apply Forall_forall. intros kt Hkt. rewrite Hf by done. by apply Hall.
  - unfold l. apply list_fmap_ext. intros i kt Hi. rewrite Hf; [done|]. by eapply list_elem_of_lookup_2.
Qed.

(** ** Bodies in pieces *)

Lemma read_events_chunks max chunks n acc :
  (n + str_len (str_join "" chunks) <= max)%Z → read_events max ((Data <$> chunks) ++ [End]) n acc = Ret (acc +:+ str_join "" chunks).
Proof.
  revert n acc. induction chunks as [|c chunks IH]; intros n acc Hle; [by rewrite string_app_nil_r|].
  rewrite str_join_nil_cons in *. rewrite string_length_app in Hle. csimpl. rewrite decide_False by lia.
  rewrite IH by lia. by rewrite string_app_assoc.
Qed.

Lemma read_chunks_all t chunks n acc :
  (n + str_len (str_join "" chunks) <= to_maxResponseBytes (ht_opts t))%Z →
  read_chunks t (Ret <$> chunks) n acc = Ret (acc +:+ str_join "" chunks).
Proof.
  revert n acc. induction chunks as [|c chunks IH]; intros n acc Hle; [by rewrite string_app_nil_r|].
  rewrite str_join_nil_cons in *. rewrite string_length_app in Hle. csimpl. rewrite decide_False by lia.
  rewrite IH by lia. by rewrite string_app_assoc.
Qed.

(** ** Timestamps *)

Lemma TIMESTAMP_RE_z n : (0 <= n)%Z → is_safe_integer n = true → TIMESTAMP_RE (z_to_string n) = true.
Proof.
  intros Hn Hsafe. pose proof (z_to_string_length n Hsafe Hn) as Hlen.
  unfold z_to_string in *. rewrite decide_False in * by lia. pose proof (digits_all n Hn) as Hall.
  destruct (digits_shape n Hn) as [[_ ->]|(_ & c & s & Hd & Hc & Hne)]; [done|].
  rewrite Hd in *. cbn [TIMESTAMP_RE all_chars String.length] in *. apply andb_true_iff in Hall as [_ ->].
  rewrite (bool_decide_true (_ <= 15)%Z) by lia. rewrite andb_true_r.
  assert (Hc' : char_in 49 57 c = true); [|by rewrite Hc', orb_true_r].
  destruct c as [[] [] [] [] [] [] [] []]; first [by vm_compute|by vm_compute in Hc|by destruct Hne].
Qed.

Lemma z_to_string_value n : (0 <= n)%Z → digits_value 0 (z_to_string n) = n.
Proof. intros Hn. unfold z_to_string. rewrite decide_False by lia. by apply digits_value_digits. Qed.

Lemma content_length_fits n max : (0 <= n <= max)%Z → is_safe_integer n = true →
  length_exceeds (Number_string (z_to_string n)) max = false.
Proof.
  intros Hn Hsafe. assert (Hnum : num_safe_int (Number_string (z_to_string n)) = Some n).
  { destruct (decide (n = 0)%Z) as [->|]; [done|]. apply Number_string_digits; [lia|done]. }
  apply num_safe_int_Some in Hnum as [-> _]. unfold length_exceeds, int. cbn. apply bool_decide_eq_false.
  change (pow10 0) with 1%Z. lia.
Qed.

(** ** The exchange *)

(** The request as the receiver's server hands it on, in [chunks], and the
    response as [fetch] hands it on. *)
Definition as_received (path : string) (req : FetchRequest) (chunks : list string) : IncomingMessage :=
  mkIncoming (Some (fq_method req)) (Some path) ((λ h, (h.1, JStr h.2)) <$> fq_headers req) ((Data <$> chunks) ++ [End]).
Definition as_fetched (res : ServerResponse) (chunks : list string) : FetchResponseLike :=
  mkFetched (sr_status res) (sr_headers res) (Some (Ret <$> chunks)).

(** A client and a receiver set up for each other. *)
Record peers {N : Type} `{!ReplayNonceStore N} (t : HttpOutboxTransport) (opts : HttpOutboxReceiverOptions) (store : N)
    (respSecret : string) : Prop := {
  pe_transport : HttpOutboxTransport_new (ht_opts t) = Ret t;
  pe_receiver : createHttpOutboxReceiver opts store = Ret respSecret;
  pe_path : ro_expectedPath opts = ht_path t;
  pe_request_key : ∃ raw, ro_resolveRequestKey opts (to_requestKeyId (ht_opts t)) = Ret (Some raw) ∧
    secret_bytes raw = ht_reqSecret t;
  pe_response_key : ∃ raw, to_resolveResponseKey (ht_opts t) (ro_responseKeyId opts) = Ret (Some raw) ∧
    secret_bytes raw = respSecret;
}.

Section exchange.
Context `{WC : WebCrypto} `{NB : NodeBuffer} `{!NodeBufferLaws NB} {N S : Type} `{!ReplayNonceStore N}.
Notation W := (Rx N S).
Context (t : HttpOutboxTransport) (opts : HttpOutboxReceiverOptions) (receive : jsval → proc S (exc jsval)).
Context (store : N) (respSecret : string) (Hpeers : peers t opts store respSecret).
Implicit Types w : W.

Lemma toSecret_Ret s label b : toSecret s label = Ret b → b = secret_bytes s ∧ (32 <= str_len b)%Z.
Proof. unfold toSecret. case_decide; [done|]. intros [= <-]. split; [done|lia]. Qed.

Lemma transport_facts : KEY_ID_RE (to_requestKeyId (ht_opts t)) = true ∧ (32 <= str_len (ht_reqSecret t))%Z ∧
  is_safe_integer (to_maxResponseBytes (ht_opts t)) = true.
Proof.
  destruct Hpeers as [Ht _ _ _ _]. revert Ht. unfold HttpOutboxTransport_new.
  destruct (KEY_ID_RE _) eqn:Hk; [|done]. cbn [negb].
  destruct (_ && _)%bool; [done|]. destruct (_ || _)%bool; [done|]. case_decide; [done|].
  intros (secret & [-> Hs]%toSecret_Ret & Ht)%exc_bind_Ret.
  apply exc_bind_Ret in Ht as (? & _ & Ht). apply exc_bind_Ret in Ht as (? & Hm & Ht).
  apply exc_bind_Ret in Ht as (? & _ & [= Ht]). rewrite <-Ht at 1. cbn. split; [done|]. split; [done|].
  unfold posInt in Hm. case_match eqn:Hsafe; [done|]. btrue. done.
Qed.

Lemma receiver_secret : (32 <= str_len respSecret)%Z.
Proof.
  destruct Hpeers as [_ Hr _ _ _]. revert Hr. unfold createHttpOutboxReceiver.
  do 4 (intros (? & _ & Hr)%exc_bind_Ret; revert Hr). do 3 (case_match; [done|]).
  intros (secret & [_ Hs]%toSecret_Ret & Hr)%exc_bind_Ret. case_decide; [done|]. by injection Hr as <-.
Qed.

(** What a prepared delivery consists of. *)
Lemma prepare_Ret record nonce tnum captured digest req : prepare t record nonce tnum = Ret (captured, digest, req) →
  ∃ body now mac, jcs_canonicalize record = Ret body ∧ parse body = Ret captured ∧ NONCE_RE nonce = true ∧
    num_safe_int tnum = Some now ∧ digest = sha256hex (utf8_encode body) ∧
    mac_of (ht_reqSecret t) (request_fields (to_requestKeyId (ht_opts t)) (ht_path t) (z_to_string now) nonce digest) = Ret mac ∧
    req = mkFetch (url_href (to_url (ht_opts t))) "POST"
      [("content-type", CONTENT_TYPE); (HDR_keyId, to_requestKeyId (ht_opts t)); (HDR_ts, z_to_string now);
       (HDR_nonce, nonce); (HDR_sig, b64url mac)] body.
Proof.
  unfold prepare. intros (body & Hb & Hp)%exc_bind_Ret. apply exc_bind_Ret in Hp as (cap & Hc & Hp).
  case_decide; [done|]. destruct (NONCE_RE nonce) eqn:Hn; [|done]. cbn [negb] in Hp.
  destruct (num_safe_int tnum) as [now|] eqn:Hnow; [|done].
  apply exc_bind_Ret in Hp as (rq & Hrq & [= <- <- <-]). unfold signed_request in Hrq.
  apply exc_bind_Ret in Hrq as (mac & Hmac & [= <-]). eauto 12.
Qed.

Lemma header_as_received path req chunks name :
  header (as_received path req chunks) name = om_get name (fq_headers req).
Proof. unfold header, as_received. cbn [im_headers]. rewrite om_get_fmap. by destruct (om_get name (fq_headers req)). Qed.

(** The admission the receiver records for such a request. *)
Definition expected_admission (now : Z) (nonce digest mac : string) : Admission :=
  mkAdmission (to_requestKeyId (ht_opts t)) (ht_path t) (z_to_string now) nonce digest (ht_reqSecret t) mac.

Lemma b64url_mac_nonempty secret fields mac `{!WebCryptoLaws WC} : mac_of secret fields = Ret mac → b64url mac ≠ EmptyString.
Proof.
  unfold mac_of. intros (m & _ & Hm)%exc_bind_Ret He. apply hmac_length in Hm.
  apply (f_equal from_base64url) in He. rewrite from_base64url_b64url in He.
  change EmptyString with (b64url EmptyString) in He. rewrite from_base64url_b64url in He. by rewrite He in Hm.
Qed.

Lemma honest_parts `{!WebCryptoLaws WC} body now nonce digest mac url chunks :
  NONCE_RE nonce = true → (0 <= now)%Z → is_safe_integer now = true → str_join "" chunks = utf8_encode body →
  (str_len (utf8_encode body) <= ro_maxBodyBytes opts)%Z →
  mac_of (ht_reqSecret t) (request_fields (to_requestKeyId (ht_opts t)) (ht_path t) (z_to_string now) nonce digest) = Ret mac →
  request_parts opts (as_received (ht_path t) (mkFetch url "POST"
    [("content-type", CONTENT_TYPE); (HDR_keyId, to_requestKeyId (ht_opts t)); (HDR_ts, z_to_string now);
     (HDR_nonce, nonce); (HDR_sig, b64url mac)] body) chunks) =
  Ret (inr (utf8_encode body, (to_requestKeyId (ht_opts t), z_to_string now, nonce, b64url mac), ht_reqSecret t)).
Proof.
  intros Hn Hnow Hsafe Hch Hmax Hmac. pose proof transport_facts as (Hk & Hs & _).
  destruct Hpeers as [_ _ Hpath (raw & Hraw & Hrs) _]. unfold request_parts.
  rewrite decide_False by (intros Hx; by apply Hx). rewrite decide_False by (intros Hx; by apply Hx).
  change (content_type _) with (Ret (A := option string) (Some CONTENT_TYPE)). cbn [mbind exc_bind].
  change (isJsonMime (Some CONTENT_TYPE)) with true. cbn [negb].
  unfold readBodyCapped. cbn [im_events as_received]. rewrite read_events_chunks by (rewrite Hch; lia).
  rewrite string_app_nil, Hch.
  rewrite !header_as_received. cbn [fq_headers].
  change (om_get HDR_keyId _) with (Some (to_requestKeyId (ht_opts t))). change (om_get HDR_ts _) with (Some (z_to_string now)).
  change (om_get HDR_nonce _) with (Some nonce). change (om_get HDR_sig _) with (Some (b64url mac)). cbn iota.
  rewrite !bool_decide_false; [|by eapply b64url_mac_nonempty|].
  2: { pose proof (TIMESTAMP_RE_z now Hnow Hsafe) as Hts. intros He. by rewrite He in Hts. }
  rewrite Hk, Hn. cbn [negb orb]. rewrite Hraw. cbn [mbind exc_bind]. rewrite Hrs.
  rewrite decide_False by lia. by rewrite TIMESTAMP_RE_z.
Qed.

Lemma honest_authenticate body now nonce digest mac clock :
  (0 <= now)%Z → is_safe_integer now = true → is_safe_integer clock = true →
  (Z.abs (clock - now) <= ro_freshnessMs opts)%Z → digest = sha256hex (utf8_encode body) →
  mac_of (ht_reqSecret t) (request_fields (to_requestKeyId (ht_opts t)) (ht_path t) (z_to_string now) nonce digest) = Ret mac →
  authenticate opts (utf8_encode body) (to_requestKeyId (ht_opts t), z_to_string now, nonce, b64url mac) (ht_reqSecret t) clock =
  Ret (inr (expected_admission now nonce digest mac)).
Proof.
  intros Hnow Hsafe Hclock Hfresh -> Hmac. pose proof (pe_path _ _ _ _ Hpeers) as Hpath.
  unfold authenticate. rewrite z_to_string_value by done. rewrite Hsafe, Hclock, bool_decide_false by lia. cbn [negb orb].
  rewrite Hpath, Hmac. cbn [mbind exc_bind].
  assert (Hsig : ctEqualB64u (b64url mac) mac = true) by apply ctEqualB64u_true, from_base64url_b64url.
  by rewrite Hsig.
Qed.

Lemma run_lift_app (p : proc S (exc jsval)) w :
  run (lift rx_app rx_put p) w = (let '(s, a) := run p (rx_app w) in (rx_put s w, a)).
Proof. apply run_lift; [done|done|by intros []]. Qed.

Lemma run_serve body a w l app rawReceipt receipt : parse body = Ret (JObj l) →
  run (receive (JObj l)) (rx_app w) = (app, Ret rawReceipt) → strictReceipt rawReceipt = Ret receipt →
  run (serve opts receive respSecret (utf8_encode body) a) w =
  (rx_put app w, reply opts respSecret (ad_nonce a) (ad_digest a) receipt).
Proof.
  intros Hp Hr Hst. unfold serve. rewrite parse_utf8_encode, Hp, run_ebind, run_lift_app, Hr. cbn [run]. by rewrite Hst.
Qed.

(** The reply's envelope, and what the client makes of its text. *)
Lemma reply_text nonce digest o receipt res : strictReceipt o = Ret receipt →
  reply opts respSecret nonce digest receipt = Ret res →
  ∃ text mac l, jcs_canonicalize receipt = Ret text ∧
    mac_of respSecret (reply_fields (ro_responseKeyId opts) nonce digest (ro_expectedPath opts) text) = Ret mac ∧
    sr_status res = 200%Z ∧ sr_headers res = [("content-type", CONTENT_TYPE); ("content-length", z_to_string (str_len (sr_body res)))] ∧
    parse_utf8 (sr_body res) = Ret (JObj l) ∧ hasExactKeys l ENVELOPE_KEYS = true ∧
    field (JObj l) "v" = JStr ACK_DOMAIN ∧ field (JObj l) "keyId" = JStr (ro_responseKeyId opts) ∧
    field (JObj l) "challenge" = JStr nonce ∧ field (JObj l) "requestDigest" = JStr digest ∧
    strictReceipt (field (JObj l) "receipt") = Ret receipt ∧ field (JObj l) "sig" = JStr (b64url mac).
Proof.
  intros Hst Hr. unfold reply in Hr. apply exc_bind_Ret in Hr as (text & Ht & Hr).
  apply exc_bind_Ret in Hr as (mac & Hmac & Hr).
  set (env := [("v", JStr ACK_DOMAIN); ("keyId", JStr (ro_responseKeyId opts)); ("challenge", JStr nonce);
               ("requestDigest", JStr digest); ("receipt", receipt); ("sig", JStr (b64url mac))]) in Hr.
  unfold send in Hr. apply exc_bind_Ret in Hr as (payload & Hp & [= <-]).
  destruct (strictReceipt_copied _ _ Hst) as [Hkd Hcopy].
  assert (Hnd : NoDup env.*1) by (apply (bool_decide_unpack _); vm_compute; exact I).
  assert (Henv : keys_distinct (JObj env)) by (apply keys_distinct_obj; split; [done|by repeat constructor]).
  destruct (jcs_canonicalize_fin _ _ Henv Hp) as [_ Hparse].
  destruct (copied_obj env Hnd) as (l & Hl & Hlen & Hget). rewrite Hl in Hparse.
  assert (Hfield : ∀ k, field (JObj l) k = default JUndef (copied <$> om_get k env)).
  { intros k. rewrite <-Hget. done. }
  exists text, mac, l. cbn [sr_status sr_headers sr_body]. rewrite parse_utf8_encode, !Hfield. do 5 (split; [done|]).
  split; [by rewrite (hasExactKeys_copied env l)|]. do 4 (split; [done|]). split; [exact Hcopy|done].
Qed.

(** The client accepts that reply. *)
Lemma honest_reply nonce digest o receipt res chunks captured :
  strictReceipt o = Ret receipt → reply opts respSecret nonce digest receipt = Ret res →
  str_join "" chunks = sr_body res → (str_len (sr_body res) <= to_maxResponseBytes (ht_opts t))%Z →
  Forall (λ k, prop captured k = Ret (field receipt k)) BOUND_KEYS → to_ackVerify (ht_opts t) receipt captured = Ret tt →
  check_reply t (Fetched (as_fetched res chunks)) captured digest nonce = Ret receipt ∧ sr_status res = 200%Z.
Proof.
  intros Hst Hr Hch Hmax Hbound Hack. pose proof transport_facts as (_ & _ & Hsafe). pose proof receiver_secret as Hsec.
  destruct (reply_text _ _ _ _ _ Hst Hr) as
    (text & mac & l & Ht & Hmac & Hst200 & Hh & Hp & Hkeys & Hv & Hk & Hc & Hd & Hrc & Hs). split; [|done].
  destruct Hpeers as [_ _ Hpath _ (raw & Hraw & Hrs)]. rewrite Hpath in Hmac.
  unfold check_reply, as_fetched. cbn [fr_status fr_headers fr_body]. rewrite decide_False by (intros Hx; by apply Hx).
  rewrite Hh. change (om_get "content-type" _) with (Some CONTENT_TYPE). change (isJsonMime (Some CONTENT_TYPE)) with true.
  cbn [negb]. change (om_get "content-length" _) with (Some (z_to_string (str_len (sr_body res)))). cbn [from_option id].
  assert (Hlen : is_safe_integer (str_len (sr_body res)) = true).
  { unfold is_safe_integer in *. btrue. unfold MAX_SAFE_INTEGER in *. rewrite !bool_decide_true by lia. done. }
  rewrite content_length_fits by (done || lia). unfold readCapped. cbn [fr_body].
  rewrite read_chunks_all by (rewrite Hch; lia). rewrite string_app_nil, Hch. cbn [mbind exc_bind].
  unfold verifyEnvelope. rewrite Hp. cbn [catch mbind exc_bind]. unfold check_envelope.
  rewrite Hk, Hc, Hd, Hs, Hkeys, Hv. rewrite !bool_decide_false by (intros Hx; by apply Hx). cbn [negb orb].
  rewrite Hraw. cbn [mbind exc_bind]. unfold toSecret. rewrite Hrs, decide_False by lia. cbn [mbind exc_bind].
  rewrite Hrc. cbn [catch mbind exc_bind]. rewrite Ht. cbn [mbind exc_bind]. rewrite Hmac. cbn [mbind exc_bind].
  assert (Hsig : ctEqualB64u (b64url mac) mac = true) by apply ctEqualB64u_true, from_base64url_b64url.
  rewrite Hsig. cbn [negb]. rewrite (proj2 (any_differs_false _ _ _) Hbound). cbn [mbind exc_bind].
  by rewrite (proj2 (verify_ack_Ret _ _ _) Hack).
Qed.

(** C33 An exchange between peers succeeds: when the clocks agree within the
    freshness bound, the nonce is new to the receiver, the bodies are within their
    caps and [receive] answers with a receipt for the record, the handler admits
    the request, calls [receive] once with the record as sent and answers 200; and
    when that answer reaches the client before its deadline, the delivery returns
    the receipt.  The network may cut both bodies into any pieces. *)
Theorem exchange_accepted `{!WebCryptoLaws WC} record nonce now captured digest req l w nonces app rawReceipt receipt res
    chunks chunks' network :
  prepare t record nonce (int now) = Ret (captured, digest, req) → captured = JObj l → (0 <= now)%Z →
  is_safe_integer (rx_clock w) = true → (Z.abs (rx_clock w - now) <= ro_freshnessMs opts)%Z →
  str_join "" chunks = utf8_encode (fq_body req) → (str_len (utf8_encode (fq_body req)) <= ro_maxBodyBytes opts)%Z →
  checkAndStore nonce (rx_clock w) (rx_nonces w) = (nonces, Ret true) →
  run (receive captured) (rx_app w) = (app, Ret rawReceipt) → strictReceipt rawReceipt = Ret receipt →
  Forall (λ k, prop captured k = Ret (field receipt k)) BOUND_KEYS → to_ackVerify (ht_opts t) receipt captured = Ret tt →
  reply opts respSecret nonce digest receipt = Ret res →
  str_join "" chunks' = sr_body res → (str_len (sr_body res) <= to_maxResponseBytes (ht_opts t))%Z →
  network req = Settled (Fetched (as_fetched res chunks')) →
  (∃ mac, run (handle opts receive respSecret (as_received (ht_path t) req chunks)) w =
    (mkRx (rx_clock w) nonces app (rx_admitted w ++ [expected_admission now nonce digest mac]) (Z.max (rx_delay w) 0),
     Some res)) ∧ sr_status res = 200%Z ∧
  deliverAndAwaitAck t record nonce (int now) network = Ret receipt.
Proof.
  intros Hp Hcap Hnow Hclock Hfresh Hch Hmax Hnonce Hrecv Hst Hbound Hack Hreply Hch' Hmax' Hnet.
  destruct (honest_reply _ _ _ _ _ _ _ Hst Hreply Hch' Hmax' Hbound Hack) as [Hclient H200].
  destruct (prepare_Ret _ _ _ _ _ _ Hp) as (body & now' & mac & Hbody & Hparse & Hre & Hint & Hdig & Hmac & Hreq).
  apply num_safe_int_Some in Hint as [[= <-] Hsafe]. subst req. cbn [fq_body] in *.
  split; [|split; [done|]].
  - exists mac. unfold handle. rewrite run_bind. unfold try_handle.
    rewrite (honest_parts body now nonce digest mac) by done. cbn [ebind pbind].
    rewrite run_bind. change (run (read rx_clock) w) with (w, rx_clock w). cbn iota.
    rewrite (honest_authenticate body now nonce digest mac) by done. cbn [ebind pbind].
    rewrite run_ebind. unfold burn_nonce. cbn [run call ad_nonce expected_admission]. rewrite Hnonce.
    subst captured. cbn [run]. cbn iota. erewrite run_serve by done.
    cbn [ad_nonce ad_digest expected_admission]. rewrite Hreply. unfold rx_put. cbn. by rewrite Z.sub_diag.
  - unfold deliverAndAwaitAck. rewrite Hp. cbn [mbind exc_bind]. by rewrite Hnet.
Qed.
End exchange.
