(* ===== verification/HaSigned.v ===== *)
(** * Signed control records (packages/server/src/bpc-ha-final.ts)

    The checks of a field, the framing of a record and its Ed25519 signature, shared
    by leases, fences and cutovers.  Frames determine their parts, so a signature is
    over exactly the fields it frames.  A number of a record is an integer; one that
    is not is refused by every record's check, which the model leaves out.

    Keys are [node:crypto] key objects, reached through [Ed25519]; a resolver maps a
    key id to a key, or to nothing when the id is unknown or revoked. *)

From S2P Require Import Prelude JsNum Encoding Json JsText Crypto OutboxContract OutboxDigest HttpTransport.
From stdpp Require Import base strings list.
From Stdlib Require Import ZArith Lia.

Local Open Scope string_scope.

(** ** Field checks *)

Definition STREAM_RE (s : string) : bool :=
  (all_chars (λ c, is_alnum c || one_of ":._/-" c) s && bool_decide (1 <= str_len s <= 512)%Z)%bool.
Definition ID_RE (s : string) : bool :=
  (all_chars (λ c, is_alnum c || one_of ":._-" c) s && bool_decide (1 <= str_len s <= 128)%Z)%bool.
Definition KEY_RE (s : string) : bool :=
  (all_chars (λ c, is_alnum c || one_of "._-" c) s && bool_decide (1 <= str_len s <= 64)%Z)%bool.
Definition B64U (s : string) : bool := (all_chars is_b64url_char s && bool_decide (s ≠ EmptyString))%bool.
(** [/^\d+$/] *)
Definition DIGITS_RE (s : string) : bool := (all_chars is_digit s && bool_decide (s ≠ EmptyString))%bool.
Definition MAX_EPOCH : Z := 2 ^ 40.
Definition MAX_MS : Z := 8640000000000000.

Definition safeInt (value : jsval) (label : string) (min max : Z) : exc Z :=
  let n := match value with JStr s => Number_string s | JNum n => n | _ => NaN end in
  let refuse := contract_error (label +:+ " must be a safe integer in [" +:+ z_to_string min +:+ ", " +:+ z_to_string max +:+ "]") in
  match num_safe_int n with
  | Some z => if decide (min <= z <= max)%Z then Ret z else refuse
  | None => refuse
  end.
(** The same for a field of a record. *)
Definition safe_field (z : Z) (label : string) (min max : Z) : exc Z := safeInt (JNum (int z)) label min max.

Definition id_value (value : jsval) (re : string → bool) (label : string) : exc string :=
  match value with
  | JStr s => if re s then Ret s else contract_error ("invalid " +:+ label)
  | _ => contract_error ("invalid " +:+ label)
  end.
Definition id (value : string) (re : string → bool) (label : string) : exc string := id_value (JStr value) re label.

(** [if (!ok) throw new ContractValidationError(msg)] *)
Definition require (ok : bool) (msg : string) : exc unit := if ok then Ret tt else contract_error msg.

Lemma safe_field_Ret z label min max n : safe_field z label min max = Ret n ↔ n = z ∧ is_safe_integer z = true ∧ (min <= z <= max)%Z.
Proof.
  unfold safe_field, safeInt. cbn. destruct (is_safe_integer z); [|naive_solver]. case_decide; naive_solver.
Qed.
Lemma id_Ret s re label s' : id s re label = Ret s' ↔ s' = s ∧ re s = true.
Proof. unfold id, id_value. destruct (re s); naive_solver. Qed.
Lemma require_Ret ok msg : require ok msg = Ret tt ↔ ok = true.
Proof. unfold require. by destruct ok. Qed.

(** ** Framing *)

(** A part is a string, or null. *)
Fixpoint frame (parts : list (option string)) : exc string :=
  match parts with
  | [] => Ret EmptyString
  | None :: parts => rest ← frame parts; Ret (String "000"%char rest)
  | Some s :: parts =>
      let bytes := utf8_encode s in
      len ← writeUInt32BE (str_len bytes);
      rest ← frame parts;
      Ret (String "001"%char (len +:+ bytes +:+ rest))
  end.

Lemma writeUInt32BE_Ret n s : writeUInt32BE n = Ret s → u32be n = Ret s.
Proof. unfold writeUInt32BE. by destruct (u32be n). Qed.

Lemma frame_parts_inj p q r : frame p = Ret r → frame q = Ret r → p = q.
Proof.
  revert q r. induction p as [|a p IH]; intros [|b q] r Hp Hq; [done|..].
  - cbn in Hp. injection Hp as <-. cbn in Hq. destruct b; repeat (apply exc_bind_Ret in Hq as (? & _ & Hq)); done.
  - cbn in Hq. injection Hq as <-. cbn in Hp. destruct a; repeat (apply exc_bind_Ret in Hp as (? & _ & Hp)); done.
  - destruct a as [a|], b as [b|]; cbn in Hp, Hq.
    + apply exc_bind_Ret in Hp as (la & La & Hp). apply exc_bind_Ret in Hp as (ra & Ra & [= <-]).
      apply exc_bind_Ret in Hq as (lb & Lb & Hq). apply exc_bind_Ret in Hq as (rb & Rb & [= Heq]).
      apply writeUInt32BE_Ret in La, Lb. pose proof (u32be_Ret _ _ La) as [_ L1]. pose proof (u32be_Ret _ _ Lb) as [_ L2].
      apply string_app_inj_l in Heq as [-> Heq]; [|congruence]. pose proof (u32be_inj _ _ _ La Lb) as Hlen.
      apply string_app_inj_l in Heq as [Hf Heq]; [|lia]. subst rb. f_equal; [f_equal; by apply utf8_encode_inj|by eapply IH].
    + apply exc_bind_Ret in Hp as (? & _ & Hp). apply exc_bind_Ret in Hp as (? & _ & [= <-]). by apply exc_bind_Ret in Hq as (? & _ & ?).
    + apply exc_bind_Ret in Hq as (? & _ & Hq). apply exc_bind_Ret in Hq as (? & _ & [= <-]). by apply exc_bind_Ret in Hp as (? & _ & ?).
    + apply exc_bind_Ret in Hp as (ra & Ra & [= <-]). apply exc_bind_Ret in Hq as (rb & Rb & [= ->]). f_equal. by eapply IH.
Qed.

(** ** Signatures *)

Class Ed25519 := {
  KeyObject : Type;
  key_type : KeyObject → string;
  asymmetricKeyType : KeyObject → string;
  ed_sign : KeyObject → string → string;
  ed_verify : KeyObject → string → string → bool;
}.
(** [pub] is the public half of [priv]. *)
Definition ed_pair `{Ed25519} (priv pub : KeyObject) : Prop :=
  ∀ m, ed_verify pub m (ed_sign priv m) = true.

Section signing.
Context `{WC : WebCrypto} `{NB : NodeBuffer} `{ED : Ed25519}.
Implicit Types (resolver : string → option KeyObject).

Definition sha256_hex (bytes : string) : string := hex_of (sha256 bytes).

Definition publicKey resolver (keyId : string) : exc KeyObject :=
  _ ← id keyId KEY_RE "keyId";
  match resolver keyId with
  | Some key =>
      if (bool_decide (key_type key ≠ "public") || bool_decide (asymmetricKeyType key ≠ "ed25519"))%bool
      then contract_error "unknown/revoked keyId or non-public ed25519 verify key" else Ret key
  | None => contract_error "unknown/revoked keyId or non-public ed25519 verify key"
  end.
Definition privateKey (key : KeyObject) : exc KeyObject :=
  if (bool_decide (key_type key ≠ "private") || bool_decide (asymmetricKeyType key ≠ "ed25519"))%bool
  then contract_error "signing key must be an ed25519 private key" else Ret key.

(** What is signed under a key id: the id, then the message. *)
Definition keyed (keyId message : string) : exc string :=
  prefix ← frame [Some "bpc-ha-key/v1"; Some keyId]; Ret (prefix +:+ message).

Definition sign (keyId : string) (key : KeyObject) (message : string) : exc string :=
  _ ← id keyId KEY_RE "keyId";
  m ← keyed keyId message;
  k ← privateKey key;
  Ret (b64url (ed_sign k m)).

Definition verify resolver (keyId message signature : string) : exc unit :=
  _ ← require (B64U signature) "invalid signature encoding";
  m ← keyed keyId message;
  key ← publicKey resolver keyId;
  require (ed_verify key m (from_base64url signature)) "invalid signature".

Definition publicKeyFingerprint (export_der : KeyObject → string) resolver (keyId : string) : exc string :=
  key ← publicKey resolver keyId; Ret (sha256_hex (export_der key)).

(** A verified signature is the resolved key's, over the framed key id and message. *)
Lemma verify_Ret resolver keyId message signature : verify resolver keyId message signature = Ret tt ↔
  B64U signature = true ∧ KEY_RE keyId = true ∧ ∃ m key, keyed keyId message = Ret m ∧ resolver keyId = Some key ∧
    key_type key = "public" ∧ asymmetricKeyType key = "ed25519" ∧ ed_verify key m (from_base64url signature) = true.
Proof.
  unfold verify, publicKey. split.
  - intros ([] & Hb%require_Ret & H)%exc_bind_Ret. apply exc_bind_Ret in H as (m & Hm & H).
    apply exc_bind_Ret in H as (key & Hk & Hv%require_Ret). apply exc_bind_Ret in Hk as (? & [_ Hid]%id_Ret & Hk).
    destruct (resolver keyId) as [k|]; [|done]. destruct (_ || _)%bool eqn:Ht; [done|]. injection Hk as <-. btrue.
    apply dec_stable in H, H0. split_and!; [done|done|]. by exists m, k.
  - intros (Hb & Hid & m & key & Hm & Hr & Ht & Ha & Hv). apply exc_bind_Ret. exists tt. rewrite require_Ret. split; [done|].
    rewrite Hm. cbn. rewrite Hid. cbn. rewrite Hr, Ht, Ha, !bool_decide_false by naive_solver.
    cbn. by apply require_Ret.
Qed.

(** What is signed verifies under the matching key. *)
Lemma sign_verify `{!NodeBufferLaws NB} resolver keyId key pub message signature :
  sign keyId key message = Ret signature → resolver keyId = Some pub → ed_pair key pub →
  key_type pub = "public" → asymmetricKeyType pub = "ed25519" → signature ≠ EmptyString →
  verify resolver keyId message signature = Ret tt.
Proof.
  unfold sign. intros (? & [_ Hid]%id_Ret & H)%exc_bind_Ret Hr Hpair Ht Ha Hne. apply exc_bind_Ret in H as (m & Hm & H).
  apply exc_bind_Ret in H as (k & Hk & [= <-]). unfold privateKey in Hk. destruct (_ || _)%bool; [done|]. injection Hk as <-.
  apply verify_Ret. split_and!; [|done|].
  - unfold B64U. rewrite b64url_alphabet. by rewrite bool_decide_true.
  - exists m, pub. rewrite from_base64url_b64url. by split_and!.
Qed.
End signing.
