(* ===== verification/RedisFence.v ===== *)
(** * The Redis epoch fence (packages/server/src/bpc-ha-final.ts)

    A node holds the write authority of a stream at an epoch when a majority of
    independent Redis members store its signed record.  A member changes only by the
    script [CLAIM_FENCE], which never lowers the epoch and never replaces the record
    of an epoch.  Commands may be lost before or after they run, answers may come too
    late, and other claims may run at any time.

    The witness a claim and a read consult is a parameter here: [fence_witness]. *)

From S2P Require Import Prelude Proc JsNum Encoding Json JsText Crypto OutboxContract HttpTransport HaSigned.
From stdpp Require Import base strings list relations.
From Stdlib Require Import ZArith Lia.

Local Open Scope string_scope.
Local Open Scope bpc_scope.

(** ** The record *)

Record RedisFenceRecord := mkFenceRecord {
  rf_streamId : string; rf_epoch : Z; rf_nodeId : string; rf_authoritySystemId : string; rf_nodeCredentialKeyId : string;
  rf_commandId : string; rf_claimedAtMs : Z; rf_keyId : string; rf_signature : string }.

Definition fence_value (r : RedisFenceRecord) : jsval :=
  JObj [("streamId", JStr (rf_streamId r)); ("epoch", JNum (int (rf_epoch r))); ("nodeId", JStr (rf_nodeId r));
    ("authoritySystemId", JStr (rf_authoritySystemId r)); ("nodeCredentialKeyId", JStr (rf_nodeCredentialKeyId r));
    ("commandId", JStr (rf_commandId r)); ("claimedAtMs", JNum (int (rf_claimedAtMs r))); ("keyId", JStr (rf_keyId r));
    ("signature", JStr (rf_signature r))].
Definition fence_text (r : RedisFenceRecord) : string := stringify (fence_value r).

Section fence.
Context `{WC : WebCrypto} `{NB : NodeBuffer} `{ED : Ed25519} (resolver : string → option KeyObject).

(** A part of a frame: [null] is itself, anything else its text. *)
Definition frame_part (v : jsval) : exc (option string) :=
  match v with JNull => Ret None | v => Some <$> js_to_string v end.
Definition redisFenceMessage (v : jsval) : exc string :=
  parts ← mapM (λ k, frame_part (field v k))
    ["streamId"; "epoch"; "nodeId"; "authoritySystemId"; "nodeCredentialKeyId"; "commandId"; "claimedAtMs"];
  frame (Some "bpc-redis-fence/v1" :: parts).

Definition fence_fields (v : jsval) : exc unit :=
  _ ← id_value (field v "streamId") STREAM_RE "streamId";
  _ ← id_value (field v "nodeId") ID_RE "nodeId";
  _ ← id_value (field v "commandId") ID_RE "commandId";
  _ ← id_value (field v "nodeCredentialKeyId") KEY_RE "nodeCredentialKeyId";
  system ← js_to_string (field v "authoritySystemId");
  _ ← require (DIGITS_RE system) "invalid authoritySystemId";
  _ ← safeInt (field v "epoch") "epoch" 1 MAX_EPOCH;
  _ ← safeInt (field v "claimedAtMs") "claimedAtMs" 0 MAX_MS;
  Ret tt.

Definition signRedisFenceRecord (keyId : string) (key : KeyObject) (bare : RedisFenceRecord) : exc RedisFenceRecord :=
  _ ← fence_fields (fence_value bare);
  message ← redisFenceMessage (fence_value bare);
  signature ← sign keyId key message;
  Ret (mkFenceRecord (rf_streamId bare) (rf_epoch bare) (rf_nodeId bare) (rf_authoritySystemId bare)
         (rf_nodeCredentialKeyId bare) (rf_commandId bare) (rf_claimedAtMs bare) keyId signature).

Definition redisFenceRecordDigest (v : jsval) : exc string :=
  text ← jcs_canonicalize v;
  m ← frame [Some "bpc-redis-record-digest/v1"; Some text];
  Ret (sha256_hex m).

(** ** One member *)

(** [cjson.decode] of a stored text, with its numeric [epoch]. *)
Definition cjson_epoch (raw : string) : option num :=
  match parse raw with
  | Ret (JObj l) => match om_get "epoch" l with Some (JNum n) => Some n | _ => None end
  | _ => None
  end.
Definition num_gtZ (n : num) (z : Z) : bool :=
  match n with Fin d => bool_decide (z * pow10 (dk d) < dm d)%Z | Inf neg => negb neg | NaN => false end.

(** The script, on the value of the key, [ARGV[1]] and [ARGV[2]]. *)
Definition CLAIM_FENCE (raw : option string) (epoch : Z) (text : string) : option string * exc Z :=
  match raw with
  | None => (Some text, Ret 1%Z)
  | Some raw =>
      match cjson_epoch raw with
      | None => (Some raw, Throw (PlainError "BPC_FENCE_CORRUPT"))
      | Some cur =>
          if num_gtZ cur epoch then (Some raw, Ret 0%Z)
          else if decide (cur = int epoch) then
            if decide (raw = text) then (Some raw, Ret 1%Z) else (Some raw, Ret 0%Z)
          else (Some text, Ret 1%Z)
      end
  end.

(** [BpcRedisFenceStore.parse]: the value as it was stored, once it is checked. *)
Definition fence_parse (raw : string) : exc jsval :=
  match parse raw with
  | Throw _ => contract_error "BPC_FENCE_CORRUPT"
  | Ret (JObj _ as v) | Ret (JArr _ as v) =>
      _ ← fence_fields v;
      keyId ← js_to_string (field v "keyId");
      message ← redisFenceMessage v;
      signature ← js_to_string (field v "signature");
      _ ← verify resolver keyId message signature;
      Ret v
  | Ret _ => contract_error "BPC_FENCE_CORRUPT"
  end.

(** How a command to a member ends: answered, run but not answered in time, or not
    run at all. *)
Inductive CommandFate := Answered | AnswerLost | NotRun.

(** The key of every member, and the fate of the next command to it. *)
Record FenceWorld := mkFenceWorld { fn_members : list (option string); fn_fate : nat → CommandFate }.
Definition member (w : FenceWorld) (i : nat) : option string := default None (fn_members w !! i).
Definition lost {A} : exc A := contract_error "Redis fence member deadline exceeded".

(** [this.bounded(member.claim(record))] on member [i]: [parse] before the first
    [await], then the script. *)
Definition member_claim (record : RedisFenceRecord) (i : nat) : proc FenceWorld (exc bool) :=
  let+ _ := Done (fence_parse (fence_text record)) in
  call (λ w,
    match fn_members w !! i with
    | None => (w, lost)
    | Some raw =>
        let '(raw', r) := CLAIM_FENCE raw (rf_epoch record) (fence_text record) in
        let w' := mkFenceWorld (<[i := raw']> (fn_members w)) (fn_fate w) in
        match fn_fate w i with
        | Answered => (w', n ← r; Ret (bool_decide (n = 1%Z)))
        | AnswerLost => (w', lost)
        | NotRun => (w, lost)
        end
    end).

(** [this.bounded(member.current())] *)
Definition member_current (i : nat) : proc FenceWorld (exc (option jsval)) :=
  read (λ w, match fn_fate w i with
             | Answered => match member w i with
                           | None => Ret None
                           | Some raw => Some <$> fence_parse raw
                           end
             | _ => lost
             end).

(** ** The quorum *)

(** [Math.floor(n / 2) + 1] *)
Definition quorum (n : nat) : nat := S (n / 2).

(** [Promise.allSettled] starts the members' commands together; their processes run
    interleaved, and [granted] counts what they settled with. *)
Definition claims (n : nat) (record : RedisFenceRecord) : list (proc FenceWorld (exc bool)) := member_claim record <$> seq 0 n.
Definition currents (n : nat) : list (proc FenceWorld (exc (option jsval))) := member_current <$> seq 0 n.

Definition fulfilled_true (r : exc bool) : bool := match r with Ret b => b | Throw _ => false end.
Definition granted (n : nat) (results : list (exc bool)) : bool :=
  bool_decide (quorum n ≤ length (List.filter fulfilled_true results))%nat.

(** The groups of equal records, in order of appearance; a group keeps the record
    that came last. *)
Fixpoint group_records (values : list jsval) (groups : list (string * (jsval * nat))) : exc (list (string * (jsval * nat))) :=
  match values with
  | [] => Ret groups
  | v :: values =>
      key ← jcs_canonicalize v;
      let count := default 0%nat (snd <$> om_get key groups) in
      group_records values (om_set key (v, S count) groups)
  end.
Definition fulfilled_record (r : exc (option jsval)) : option jsval := match r with Ret (Some v) => Some v | _ => None end.
Definition rawCurrent (n : nat) (results : list (exc (option jsval))) : exc jsval :=
  groups ← group_records (omap fulfilled_record results) [];
  match List.find (λ g : string * (jsval * nat), bool_decide (quorum n ≤ g.2.2)%nat) groups with
  | Some (_, (record, _)) => Ret record
  | None => contract_error "Redis fence quorum has no authoritative majority (fail closed)"
  end.

(** [claim] and [current] around the members' commands: the witness is asked before a
    claim and after a read. *)
Definition quorum_claim (witness_verify : jsval → exc unit) (n : nat) (record : RedisFenceRecord) (results : list (exc bool)) : exc bool :=
  _ ← witness_verify (fence_value record);
  Ret (granted n results).
Definition quorum_current (witness_verify : jsval → exc unit) (n : nat) (results : list (exc (option jsval))) : exc jsval :=
  record ← rawCurrent n results;
  _ ← witness_verify record;
  Ret record.

(** ** Opening a quorum *)

(** What a client answers to INFO, ROLE and CONFIG GET. *)
Record MemberInspection := mkInspection {
  mi_info : string; mi_role : jsval; mi_appendonly : jsval; mi_appendfsync : jsval }.

Fixpoint lines_of (l : list ascii) (cur : list ascii) : list string :=
  match l with
  | [] => [unchars (reverse cur)]
  | c :: l => if (bool_decide (char_code c = 10%N) || bool_decide (char_code c = 13%N))%bool
              then unchars (reverse cur) :: lines_of l [] else lines_of l (c :: cur)
  end.
(** [/^run_id:([^\r\n]+)$/m] *)
Definition run_id (info : string) : option string :=
  head (omap (λ line, match expect "run_id:" line with
                      | Some EmptyString | None => None
                      | Some s => Some s
                      end) (lines_of (chars info) [])).
Definition last_lower (raw : jsval) : exc string :=
  match raw with
  | JArr l => to_lower <$> js_to_string (default JUndef (last l))
  | _ => Ret EmptyString
  end.

Fixpoint inspect_members (members : list MemberInspection) (ids : list string) : exc (list string) :=
  match members with
  | [] => Ret ids
  | m :: members =>
      role ← js_to_string (mi_role m);
      match run_id (mi_info m) with
      | None => contract_error "Redis fence quorum members must be distinct writable server identities"
      | Some runId =>
          if (bool_decide (runId ∈ ids) || negb (starts_with "master" (to_lower role)))%bool
          then contract_error "Redis fence quorum members must be distinct writable server identities"
          else
            aof ← last_lower (mi_appendonly m);
            fsync ← last_lower (mi_appendfsync m);
            if (bool_decide (aof ≠ "yes") || bool_decide (fsync ≠ "always"))%bool
            then contract_error "Redis fence member requires appendonly=yes and appendfsync=always"
            else inspect_members members (ids ++ [runId])%list
      end
  end.
(** The run ids that are pinned, before they are sorted. *)
Definition quorum_open (members : list MemberInspection) : exc (list string) :=
  if (bool_decide (length members < 3)%nat || bool_decide (length members mod 2 = 0)%nat)%bool
  then contract_error "Redis fence quorum requires an odd membership of at least 3"
  else inspect_members members [].
End fence.
