(* ===== verification/FenceSafety.v ===== *)
(** * What the Redis fence guarantees

    Two claims of one epoch are not both granted unless they are for one record, and
    after a granted claim no read returns an older epoch or another record of that
    epoch ([WriteSafety] draws the consequence): majorities intersect, and a member keeps the newest record it has
    accepted.  This holds for any interleaving with other claims and any loss of
    commands and answers. *)

From S2P Require Import Prelude Proc JsNum Encoding Json JsText Crypto OutboxContract HttpTransport HaSigned RedisFence.
From stdpp Require Import base strings list relations.
From Stdlib Require Import ZArith Lia.

Local Open Scope string_scope.
Local Open Scope bpc_scope.

(** ** Majorities *)

Definition trues (l : list bool) : nat := length (List.filter (λ b, b) l).

Lemma trues_cons b l : trues (b :: l) = ((if b then 1 else 0) + trues l)%nat.
Proof. unfold trues. simpl. by destruct b. Qed.
Lemma trues_le l : (trues l ≤ length l)%nat.
Proof. induction l as [|b l IH]; [done|]. rewrite trues_cons. simpl. destruct b; lia. Qed.

Lemma common_true l1 l2 : length l1 = length l2 → (length l1 < trues l1 + trues l2)%nat →
  ∃ i, l1 !! i = Some true ∧ l2 !! i = Some true.
Proof.
  revert l2. induction l1 as [|a l1 IH]; intros [|b l2] Hlen; [unfold trues; simpl; lia|done|done|]. injection Hlen as Hlen.
  rewrite !trues_cons. cbn [length]. intros Hc. destruct (decide (a = true ∧ b = true)) as [[-> ->]|Hn]; [by exists 0%nat|].
  assert (length l1 < trues l1 + trues l2)%nat as Hc'.
  { destruct a, b; [by exfalso; apply Hn|lia..]. }
  destruct (IH l2 Hlen Hc') as (i & H1 & H2). by exists (S i).
Qed.

Lemma majorities_meet n l1 l2 : length l1 = n → length l2 = n → (quorum n ≤ trues l1)%nat → (quorum n ≤ trues l2)%nat →
  ∃ i, l1 !! i = Some true ∧ l2 !! i = Some true.
Proof.
  intros H1 H2 T1 T2. apply common_true; [congruence|]. unfold quorum in *.
  pose proof (Nat.div_mod_eq n 2). pose proof (Nat.mod_upper_bound n 2). lia.
Qed.

Lemma granted_trues n results : granted n results = true → (quorum n ≤ trues (fulfilled_true <$> results))%nat.
Proof.
  unfold granted. rewrite bool_decide_eq_true. intros H. etrans; [exact H|]. clear.
  induction results as [|r rs IH]; [done|]. rewrite fmap_cons, trues_cons. simpl. destruct (fulfilled_true r); simpl; lia.
Qed.

(** ** One member *)

Section member.
Context `{WC : WebCrypto} `{NB : NodeBuffer} `{ED : Ed25519} (resolver : string → option KeyObject).
Implicit Types (w : FenceWorld) (raw : option string) (r : RedisFenceRecord).

(** A claim of some record that was checked, and any number of them. *)
Definition claim_step raw raw' : Prop :=
  ∃ epoch text, cjson_epoch text = Some (int epoch) ∧ raw' = (CLAIM_FENCE raw epoch text).1.
Definition member_moves w w' : Prop := ∀ i, rtc claim_step (member w i) (member w' i).

#[export] Instance member_moves_preorder : PreOrder member_moves.
Proof. split; [by intros w i|]. intros w1 w2 w3 H12 H23 i. etrans; [apply H12|apply H23]. Qed.

(** The member has accepted the record [text] of this epoch, or a newer one. *)
Definition settled (epoch : Z) (text : string) raw : Prop :=
  ∃ s m, raw = Some s ∧ cjson_epoch s = Some m ∧ (num_gtZ m epoch = true ∨ m = int epoch ∧ s = text).

Lemma num_gtZ_int z e : num_gtZ (int z) e = bool_decide (e < z)%Z.
Proof. unfold num_gtZ, int. cbn. apply bool_decide_ext. change (pow10 0) with 1%Z. lia. Qed.

Lemma num_gtZ_below m e E : num_gtZ m e = true → num_gtZ m E = false → (e < E)%Z.
Proof.
  destruct m as [d|neg|]; cbn; [|by destruct neg|done]. rewrite bool_decide_eq_true, bool_decide_eq_false.
  pose proof (pow10_pos (dk d)). nia.
Qed.

Lemma claim_step_settled epoch text raw raw' : settled epoch text raw → claim_step raw raw' → settled epoch text raw'.
Proof.
  intros (s & m & -> & Hm & Hs) (E & T & HT & ->). unfold CLAIM_FENCE. rewrite Hm.
  destruct (num_gtZ m E) eqn:Hg; [by exists s, m|]. destruct (decide (m = int E)) as [->|Hne].
  { destruct (decide (s = T)); by exists s, (int E). }
  exists T, (int E). split_and!; [done|done|]. left. rewrite num_gtZ_int. apply bool_decide_eq_true.
  destruct Hs as [Hs|[-> _]]; [by eapply num_gtZ_below|]. rewrite num_gtZ_int in Hg. apply bool_decide_eq_false in Hg.
  assert (E ≠ epoch) by congruence. lia.
Qed.
Lemma settled_moves epoch text raw raw' : settled epoch text raw → rtc claim_step raw raw' → settled epoch text raw'.
Proof. intros Hs. induction 1; eauto using claim_step_settled. Qed.

(** A claim that is answered with 1 settles the member. *)
Lemma claim_settles raw epoch text : cjson_epoch text = Some (int epoch) → (CLAIM_FENCE raw epoch text).2 = Ret 1%Z →
  settled epoch text (CLAIM_FENCE raw epoch text).1.
Proof.
  intros Ht. unfold CLAIM_FENCE. destruct raw as [s|]; [|by exists text, (int epoch); auto].
  destruct (cjson_epoch s) as [m|] eqn:Hm; [|done]. destruct (num_gtZ m epoch); [done|].
  destruct (decide (m = int epoch)) as [->|]; [|by exists text, (int epoch); auto].
  destruct (decide (s = text)) as [->|]; [|done]. by exists text, (int epoch); auto.
Qed.
(** A settled member grants no other record of the epoch. *)
Lemma settled_grants raw epoch text text' : settled epoch text raw → (CLAIM_FENCE raw epoch text').2 = Ret 1%Z → text' = text.
Proof.
  intros (s & m & -> & Hm & Hs). unfold CLAIM_FENCE. rewrite Hm. destruct Hs as [->|[-> ->]]; [done|].
  rewrite num_gtZ_int, bool_decide_false by lia. rewrite decide_True by done. by destruct (decide (text = text')).
Qed.

(** ** The record's text *)

Lemma int_finite z : (Z.abs z <= 2 ^ 53)%Z → dec_finite (Dec z 0).
Proof. intros Hz. unfold dec_finite. cbn [dm dk]. assert (2 ^ 53 < max_finite * pow10 0)%Z by (by vm_compute). lia. Qed.

Lemma fence_bounds r : fence_fields (fence_value r) = Ret tt → (1 <= rf_epoch r <= MAX_EPOCH)%Z ∧ (0 <= rf_claimedAtMs r <= MAX_MS)%Z.
Proof.
  unfold fence_fields. intros H. do 4 (apply exc_bind_Ret in H as (? & _ & H)).
  apply exc_bind_Ret in H as (? & _ & H). apply exc_bind_Ret in H as (? & _ & H).
  apply exc_bind_Ret in H as (? & He%safe_field_Ret & H). apply exc_bind_Ret in H as (? & Hc%safe_field_Ret & _). tauto.
Qed.

Lemma fence_wf r : fence_fields (fence_value r) = Ret tt → jwf (fence_value r).
Proof.
  intros [He Hc]%fence_bounds. unfold fence_value. cbn [jwf]. split; [split|].
  - by apply (bool_decide_unpack _).
  - rewrite js_order_no_index; [done|]. repeat (apply Forall_cons; split; [vm_compute; reflexivity|]). apply Forall_nil_2.
  - cbn [foldr jwf int snd]. unfold MAX_EPOCH, MAX_MS in *. repeat split; first [by left|apply int_finite; lia].
Qed.

Lemma fence_parsed r : fence_fields (fence_value r) = Ret tt → parse (fence_text r) = Ret (fence_value r).
Proof. intros Hf. apply parse_stringify_wf. by apply fence_wf. Qed.
Lemma fence_epoch r : fence_fields (fence_value r) = Ret tt → cjson_epoch (fence_text r) = Some (int (rf_epoch r)).
Proof. intros Hf. unfold cjson_epoch. by rewrite fence_parsed. Qed.

Lemma fence_text_inj r r' : fence_fields (fence_value r) = Ret tt → fence_fields (fence_value r') = Ret tt →
  fence_text r = fence_text r' → r = r'.
Proof.
  intros Hr Hr' Ht. apply stringify_inj in Ht; [|by apply fence_wf..]. destruct r, r'. unfold fence_value in Ht.
  cbn in Ht. unfold int in Ht. congruence.
Qed.

(** ** The processes *)

Lemma member_insert w i raw j : member (mkFenceWorld (<[i := raw]> (fn_members w)) (fn_fate w)) j =
  if decide (i = j ∧ (i < length (fn_members w))%nat) then raw else member w j.
Proof.
  unfold member. cbn. destruct (decide (i = j ∧ _)) as [[-> Hlt]|Hn]; [by rewrite list_lookup_insert_eq|].
  destruct (decide (i = j)) as [->|Hne]; [|by rewrite list_lookup_insert_ne].
  rewrite list_insert_ge; [done|]. destruct (decide (length (fn_members w) ≤ j)%nat); [done|]. exfalso. apply Hn. split; [done|lia].
Qed.

Lemma claim_always r i : fence_fields (fence_value r) = Ret tt → always member_moves (member_claim resolver r i).
Proof.
  intros Hr. unfold member_claim. apply always_ebind; [done|]. intros _. apply always_call. intros w.
  destruct (fn_members w !! i) as [raw|] eqn:Hi; [|done]. destruct (CLAIM_FENCE raw _ _) as [raw' n] eqn:Hc.
  assert (member_moves w (mkFenceWorld (<[i := raw']> (fn_members w)) (fn_fate w))) as Hm.
  { intros j. rewrite member_insert. case_decide as Hj; [|done]. destruct Hj as [<- _]. apply rtc_once.
    exists (rf_epoch r), (fence_text r). split; [by apply fence_epoch|]. unfold member. rewrite Hi. change (default None (Some raw)) with raw. by rewrite Hc. }
  by destruct (fn_fate w i).
Qed.

(** The one step of a member's claim that was granted. *)
Definition grants r (i : nat) (s : FenceWorld * FenceWorld) : Prop :=
  (CLAIM_FENCE (member s.1 i) (rf_epoch r) (fence_text r)).2 = Ret 1%Z ∧
  member s.2 i = (CLAIM_FENCE (member s.1 i) (rf_epoch r) (fence_text r)).1.

Lemma claim_granted R r i w tr w' : exec R (member_claim resolver r i) w tr w' (Ret true) → ∃ s, tr = [s] ∧ grants r i s.
Proof.
  unfold member_claim. intros (v & w1 & t1 & t2 & (_ & -> & ->)%exec_done_inv & Hex & ->)%exec_ebind_inv.
  apply exec_call_inv in Hex as (u & _ & Hf & ->). exists (u, w'). split; [done|]. unfold grants, member. cbn.
  destruct (fn_members u !! i) as [raw|] eqn:Hi; [|done]. cbn. destruct (CLAIM_FENCE raw _ _) as [raw' [n|]] eqn:Hc;
    destruct (fn_fate u i); try done; cbn in Hf; injection Hf as <- Hn.
  apply bool_decide_eq_true in Hn as ->. split; [done|]. cbn. by rewrite list_lookup_insert_eq by (by eapply lookup_lt_Some).
Qed.

(** A pool of claims, with the environment's moves, moves every member by claims. *)
Lemma claims_move (ops : list (RedisFenceRecord * nat)) w tr w' ps' :
  Forall (λ o, fence_fields (fence_value o.1) = Ret tt) ops →
  pool_run member_moves ((λ o, member_claim resolver o.1 o.2) <$> ops) w tr w' ps' → Forall (λ e, member_moves e.2.1 e.2.2) tr.
Proof.
  intros Hops Hrun. eapply Forall_impl; [eapply (pool_always _ member_moves); [exact Hrun|]|].
  - apply Forall_fmap. eapply Forall_impl; [exact Hops|]. intros o Ho. exact (claim_always o.1 o.2 Ho).
  - by intros [[k|] [a c]].
Qed.

Lemma granted_step (ops : list (RedisFenceRecord * nat)) w tr w' ps' k r i :
  pool_run member_moves ((λ o, member_claim resolver o.1 o.2) <$> ops) w tr w' ps' → ops !! k = Some (r, i) →
  ps' !! k = Some (Done (Ret true)) → ∃ s, (Some k, s) ∈ tr ∧ grants r i s.
Proof.
  intros Hrun Hk Hd. destruct (pool_exec _ _ _ _ _ _ k (member_claim resolver r i) (Ret true) Hrun) with (w0 := w) as [w1 Hex];
    [by rewrite list_lookup_fmap, Hk|done|].
  apply claim_granted in Hex as (s & Htr & Hg). exists s. split; [|done]. apply own_step_pool. rewrite Htr. by apply elem_of_cons; left.
Qed.

(** Two claims of one epoch granted by one member are of one record. *)
Lemma member_grants_once (ops : list (RedisFenceRecord * nat)) w tr w' ps' k k' r r' i :
  Forall (λ o, fence_fields (fence_value o.1) = Ret tt) ops →
  pool_run member_moves ((λ o, member_claim resolver o.1 o.2) <$> ops) w tr w' ps' → k ≠ k' →
  ops !! k = Some (r, i) → ops !! k' = Some (r', i) → rf_epoch r = rf_epoch r' →
  ps' !! k = Some (Done (Ret true)) → ps' !! k' = Some (Done (Ret true)) → fence_text r = fence_text r'.
Proof.
  intros Hops Hrun Hne Hk Hk' Hep Hd Hd'. pose proof (claims_move _ _ _ _ _ Hops Hrun) as Hall. rewrite Forall_forall in Hops.
  assert (fence_fields (fence_value r) = Ret tt) as Fr by (apply (Hops (r, i)); by eapply list_elem_of_lookup_2).
  assert (fence_fields (fence_value r') = Ret tt) as Fr' by (apply (Hops (r', i)); by eapply list_elem_of_lookup_2).
  destruct (granted_step _ _ _ _ _ _ _ _ Hrun Hk Hd) as (s & Hs & [G1 G2]).
  destruct (granted_step _ _ _ _ _ _ _ _ Hrun Hk' Hd') as (s' & Hs' & [G1' G2']).
  destruct (trace_order _ _ _ _ _ Hne Hs Hs') as (t1 & t2 & t3 & [Htr|Htr]);
    pose proof (pool_rtc member_moves _ _ _ Hall (pool_chain _ _ _ _ _ _ Hrun _ _ _ _ _ Htr) i) as Hm; cbn in Hm.
  - rewrite G2 in Hm. symmetry. rewrite <-Hep in G1'. eapply settled_grants; [|exact G1'].
    eapply settled_moves; [|exact Hm]. apply claim_settles; [by apply fence_epoch|done].
  - rewrite G2' in Hm. rewrite Hep in G1. eapply settled_grants; [|exact G1].
    eapply settled_moves; [|exact Hm]. apply claim_settles; [by apply fence_epoch|done].
Qed.

(** ** Two claims of one epoch *)

#[local] Opaque member_claim member_current.

Definition claim_ops (n : nat) r : list (RedisFenceRecord * nat) := (λ i, (r, i)) <$> seq 0 n.
Lemma claims_ops n r : claims resolver n r = (λ o, member_claim resolver o.1 o.2) <$> claim_ops n r.
Proof. unfold claims, claim_ops. by rewrite <-list_fmap_compose. Qed.
Lemma claim_ops_lookup n r i : (i < n)%nat → claim_ops n r !! i = Some (r, i).
Proof. intros Hi. unfold claim_ops. rewrite list_lookup_fmap, lookup_seq_lt by done. done. Qed.
Lemma claim_ops_length n r : length (claim_ops n r) = n.
Proof. unfold claim_ops. by rewrite length_fmap, length_seq. Qed.
Lemma claim_ops_fields n r : fence_fields (fence_value r) = Ret tt → Forall (λ o, fence_fields (fence_value o.1) = Ret tt) (claim_ops n r).
Proof. intros Hr. apply Forall_fmap, Forall_forall. done. Qed.

Lemma fulfilled_lookup (rs : list (exc bool)) i : (fulfilled_true <$> rs) !! i = Some true → rs !! i = Some (Ret true).
Proof. rewrite list_lookup_fmap. destruct (rs !! i) as [[[]|]|]; done. Qed.

(** C21 Majorities exclude each other: of two claims of one epoch, over any members
    and in any interleaving with each other and with other claims, whatever commands
    and answers are lost, at most one record is granted. *)
Theorem fence_quorum_exclusive n r1 r2 rs1 rs2 w tr w' :
  fence_fields (fence_value r1) = Ret tt → fence_fields (fence_value r2) = Ret tt → rf_epoch r1 = rf_epoch r2 →
  pool_run member_moves (claims resolver n r1 ++ claims resolver n r2) w tr w' ((Done <$> rs1) ++ (Done <$> rs2)) →
  length rs1 = n → granted n rs1 = true → granted n rs2 = true → r1 = r2.
Proof.
  intros F1 F2 Hep Hrun Hlen T1%granted_trues T2%granted_trues.
  pose proof (pool_length _ _ _ _ _ _ Hrun) as Hl. rewrite !length_app, !length_fmap in Hl. unfold claims in Hl. rewrite !length_fmap, !length_seq in Hl.
  destruct (majorities_meet n (fulfilled_true <$> rs1) (fulfilled_true <$> rs2)) as (i & H1 & H2);
    [by rewrite length_fmap|rewrite length_fmap; lia|done|done|].
  apply fulfilled_lookup in H1, H2. pose proof (lookup_lt_Some _ _ _ H1) as Hi. rewrite Hlen in Hi.
  rewrite !claims_ops, <-fmap_app in Hrun. apply fence_text_inj; [done|done|].
  eapply (member_grants_once _ _ _ _ _ i (n + i) r1 r2 i); [|exact Hrun|lia| | |done| |].
  - apply Forall_app. split; by apply claim_ops_fields.
  - rewrite lookup_app_l by (by rewrite claim_ops_length). by apply claim_ops_lookup.
  - rewrite lookup_app_r by (rewrite claim_ops_length; lia). rewrite claim_ops_length, Nat.add_comm, Nat.add_sub. by apply claim_ops_lookup.
  - rewrite lookup_app_l by (by rewrite length_fmap, Hlen). by rewrite list_lookup_fmap, H1.
  - rewrite lookup_app_r by (rewrite length_fmap; lia). rewrite length_fmap, Hlen, Nat.add_comm, Nat.add_sub. by rewrite list_lookup_fmap, H2.
Qed.

(** ** Reading after a claim *)

(** How many values are of the group [key]. *)
Definition in_group (key : string) (v : jsval) : bool := bool_decide (jcs_canonicalize v = Ret key).

Lemma group_records_inv values groups result : group_records values groups = Ret result →
  (∀ key v c, om_get key groups = Some (v, c) → jcs_canonicalize v = Ret key) →
  ∀ key v c, om_get key result = Some (v, c) → jcs_canonicalize v = Ret key ∧
    c = (default 0%nat (snd <$> om_get key groups) + length (List.filter (in_group key) values))%nat.
Proof.
  revert groups. induction values as [|x values IH]; intros groups H Hg key v c Hk; cbn [group_records] in H.
  { injection H as <-. split; [by eapply Hg|]. rewrite Hk. cbn. lia. }
  apply exc_bind_Ret in H as (kx & Hx & H). destruct (IH _ H) with (2 := Hk) as [Hv Hc].
  { intros key' v' c'. destruct (decide (kx = key')) as [->|Hne]; [rewrite om_get_set; by intros [= <- _]|].
    rewrite om_get_set_ne by done. apply Hg. }
  split; [done|]. rewrite Hc. cbn [List.filter]. unfold in_group at 2. rewrite Hx.
  destruct (decide (kx = key)) as [->|Hne].
  - rewrite om_get_set, bool_decide_true by done. cbn [fmap option_fmap option_map default from_option snd length].
    destruct (om_get key groups) as [[v' c']|]; cbn; lia.
  - rewrite om_get_set_ne by done. rewrite bool_decide_false by congruence. done.
Qed.

Lemma find_group (g : list (string * (jsval * nat))) (f : string * (jsval * nat) → bool) x :
  List.find f g = Some x → om_wf g → om_get x.1 g = Some x.2 ∧ f x = true.
Proof.
  intros [Hin Hf]%List.find_some Hwf. split; [|done]. apply om_get_elem; [done|]. apply list_elem_of_In. by destruct x.
Qed.

Lemma group_records_wf values groups result : group_records values groups = Ret result → om_wf groups → om_wf result.
Proof.
  revert groups. induction values as [|x values IH]; intros groups H Hwf; cbn [group_records] in H; [by injection H as <-|].
  apply exc_bind_Ret in H as (kx & Hx & H). eapply IH; [exact H|by apply om_wf_set].
Qed.

Definition read_in_group (key : string) (r : exc (option jsval)) : bool :=
  match r with Ret (Some v) => in_group key v | _ => false end.

Lemma trues_omap key results : length (List.filter (in_group key) (omap fulfilled_record results)) = trues (read_in_group key <$> results).
Proof.
  induction results as [|[[v|]|] results IH]; [done|..]; rewrite fmap_cons, trues_cons; cbn; [|exact IH..].
  destruct (in_group key v); cbn; by rewrite IH.
Qed.

Lemma rawCurrent_majority n results record : rawCurrent n results = Ret record →
  ∃ key, jcs_canonicalize record = Ret key ∧ (quorum n ≤ trues (read_in_group key <$> results))%nat.
Proof.
  unfold rawCurrent. intros (groups & Hg & H)%exc_bind_Ret. destruct (List.find _ groups) as [[key [v c]]|] eqn:Hf; [|done].
  injection H as ->. apply find_group in Hf as [Hget Hc]; [|eapply group_records_wf; [exact Hg|apply NoDup_nil_2]].
  apply bool_decide_eq_true in Hc. cbn [fst snd] in *.
  destruct (group_records_inv _ _ _ Hg) with (2 := Hget) as [Hv Hcount]; [done|].
  exists key. split; [done|]. rewrite <-trues_omap. cbn in Hcount. by rewrite <-Hcount.
Qed.

Lemma current_read R i w tr w' v : exec R (member_current resolver i) w tr w' (Ret (Some v)) →
  ∃ s stored, tr = [s] ∧ member s.1 i = Some stored ∧ fence_parse resolver stored = Ret v.
Proof.
  #[local] Transparent member_current.
  intros (u & _ & Hu & ->)%exec_call_inv. injection Hu as <- Hv. exists (u, u). destruct (fn_fate u i); try done.
  destruct (member u i) as [stored|] eqn:Hm; [|done]. exists stored. cbn [fst]. split_and!; [done|done|].
  destruct (fence_parse resolver stored); [|done]. by injection Hv as ->.
Qed.

Lemma fence_parse_Ret stored v : fence_parse resolver stored = Ret v → parse stored = Ret v.
Proof.
  unfold fence_parse. destruct (parse stored) as [x|] eqn:Hp; [|done]. destruct x; try done; intros H;
    repeat (apply exc_bind_Ret in H as (? & _ & H)); injection H as <-; done.
Qed.

(** The record itself, or one of a later epoch. *)
Definition at_least r (v : jsval) : Prop :=
  v = fence_value r ∨ ∃ m, field v "epoch" = JNum m ∧ num_gtZ m (rf_epoch r) = true.

Lemma settled_value r stored v : fence_fields (fence_value r) = Ret tt → settled (rf_epoch r) (fence_text r) (Some stored) →
  parse stored = Ret v → at_least r v.
Proof.
  intros Hr (s & m & [= <-] & Hm & [Hg|[_ ->]]) Hp; [right|left].
  - exists m. split; [|done]. unfold cjson_epoch in Hm. rewrite Hp in Hm. destruct v; try done. unfold field, prop.
    destruct (om_get "epoch" l) as [[]|]; try done. by injection Hm as ->.
  - rewrite fence_parsed in Hp by done. by injection Hp as <-.
Qed.

Lemma group_records_Forall (P : jsval → Prop) values groups result : group_records values groups = Ret result → Forall P values →
  (∀ key v c, om_get key groups = Some (v, c) → P v) → ∀ key v c, om_get key result = Some (v, c) → P v.
Proof.
  revert groups. induction values as [|x values IH]; intros groups H HP Hg; cbn [group_records] in H; [by injection H as <-|].
  apply exc_bind_Ret in H as (kx & _ & H). inversion_clear HP as [|? ? Hx Hvs]. apply (IH _ H Hvs). intros key v c.
  destruct (decide (kx = key)) as [->|Hne]; [rewrite om_get_set; by intros [= <- _]|]. rewrite om_get_set_ne by done. apply Hg.
Qed.

(** What a read returns is what some member answered. *)
Lemma rawCurrent_Forall (P : jsval → Prop) n results record : rawCurrent n results = Ret record →
  Forall P (omap fulfilled_record results) → P record.
Proof.
  unfold rawCurrent. intros (groups & Hg & H)%exc_bind_Ret HP. destruct (List.find _ groups) as [[key [v c]]|] eqn:Hf; [|done].
  injection H as ->. apply find_group in Hf as [Hget _]; [|eapply group_records_wf; [exact Hg|apply NoDup_nil_2]].
  by eapply (group_records_Forall P _ _ _ Hg HP).
Qed.

Lemma reads_parsed n w tr w' vs : pool_run member_moves (currents resolver n) w tr w' (Done <$> vs) →
  Forall jparsed (omap fulfilled_record vs).
Proof.
  intros Hread. apply Forall_forall. intros v (res & Hres & Hf)%list_elem_of_omap. destruct res as [[x|]|]; try done. injection Hf as ->.
  apply list_elem_of_lookup in Hres as [i Hi].
  pose proof (pool_length _ _ _ _ _ _ Hread) as L. rewrite length_fmap in L. unfold currents in L. rewrite length_fmap, length_seq in L.
  pose proof (lookup_lt_Some _ _ _ Hi) as Hlt.
  destruct (pool_exec _ _ _ _ _ _ i (member_current resolver i) (Ret (Some v)) Hread) with (w0 := w) as [w3 Hex];
    [unfold currents; rewrite list_lookup_fmap, lookup_seq_lt by lia; done|by rewrite list_lookup_fmap, Hi|].
  apply current_read in Hex as (s & stored & _ & _ & Hp%fence_parse_Ret). by eapply parse_parsed.
Qed.

(** A granted epoch is never lost: after a claim was granted, whatever happens in
    between, a read that finds a majority returns -- up to the canonical text that
    groups the answers -- this record or one of a later epoch; otherwise it fails. *)
Lemma read_after_claim n r rs vs record w tr w1 tr' w2 :
  fence_fields (fence_value r) = Ret tt →
  pool_run member_moves (claims resolver n r) w tr w1 (Done <$> rs) → granted n rs = true →
  pool_run member_moves (currents resolver n) w1 tr' w2 (Done <$> vs) → rawCurrent n vs = Ret record →
  ∃ v, jparsed v ∧ jcs_canonicalize v = jcs_canonicalize record ∧ at_least r v.
Proof.
  intros Hr Hrun T1%granted_trues Hread (key & Hkey & T2)%rawCurrent_majority.
  pose proof (pool_length _ _ _ _ _ _ Hrun) as L1. pose proof (pool_length _ _ _ _ _ _ Hread) as L2.
  unfold claims in L1. rewrite !length_fmap, length_seq in L1. unfold currents in L2. rewrite !length_fmap, length_seq in L2.
  destruct (majorities_meet n (fulfilled_true <$> rs) (read_in_group key <$> vs)) as (i & H1 & H2); [by rewrite length_fmap..|done|done|].
  apply fulfilled_lookup in H1. rewrite list_lookup_fmap in H2. destruct (vs !! i) as [[[v|]|]|] eqn:Hv; try done.
  injection H2 as H2. apply bool_decide_eq_true in H2. exists v. split; [apply (Forall_forall jparsed (omap fulfilled_record vs)) with (x := v); [by eapply reads_parsed|];
    apply list_elem_of_omap; exists (Ret (Some v)); split; [by eapply list_elem_of_lookup_2|done]|]. split; [congruence|].
  pose proof (lookup_lt_Some _ _ _ H1) as Hi. rewrite L1 in Hi.
  destruct (pool_exec _ _ _ _ _ _ i (member_current resolver i) (Ret (Some v)) Hread) with (w0 := w1) as [w3 Hex];
    [unfold currents; by rewrite list_lookup_fmap, lookup_seq_lt|by rewrite list_lookup_fmap, Hv|].
  apply current_read in Hex as (s & stored & Htr & Hraw & Hp%fence_parse_Ret). eapply settled_value; [done| |exact Hp].
  rewrite <-Hraw. assert ((Some i, s) ∈ tr') as Hs by (apply own_step_pool; rewrite Htr; by apply elem_of_cons; left).
  apply list_elem_of_split in Hs as (t1 & t2 & Heq).
  pose proof (pool_chain_from _ _ _ _ _ _ Hread _ _ _ Heq) as C2. rewrite claims_ops in Hrun.
  destruct (granted_step _ _ _ _ _ i r i Hrun) as (s1 & Hs1 & [G1 G2]); [by apply claim_ops_lookup|by rewrite list_lookup_fmap, H1|].
  apply list_elem_of_split in Hs1 as (t3 & t4 & Heq1). pose proof (pool_chain_to _ _ _ _ _ _ Hrun _ _ _ Heq1) as C1.
  eapply settled_moves; [eapply settled_moves; [eapply claim_settles; [by apply fence_epoch|exact G1]|]|].
  - rewrite <-G2. apply (pool_rtc member_moves _ _ _ (claims_move _ _ _ _ _ (claim_ops_fields n r Hr) Hrun) C1 i).
  - refine (pool_rtc member_moves _ _ _ _ C2 i). eapply Forall_impl; [eapply (pool_always _ member_moves); [exact Hread|]|].
    + apply Forall_fmap, Forall_forall. intros j _. by apply always_read.
    + by intros [[k|] [a c]].
Qed.

(** ** Two reads *)

Lemma stored_epoch stored v e : parse stored = Ret v → field v "epoch" = JNum (int e) → cjson_epoch stored = Some (int e).
Proof.
  intros Hp Hf. unfold cjson_epoch. rewrite Hp. destruct v; try done. unfold field, prop in Hf.
  destruct (om_get "epoch" l) as [[]|]; try done. by injection Hf as ->.
Qed.

(** One member answers two reads with one epoch only when it stored one record. *)
Lemma member_reads_once ps w tr w' (ps' : list (proc FenceWorld (exc (option jsval)))) k k' i v v' e :
  Forall (always member_moves) ps → pool_run member_moves ps w tr w' ps' → k ≠ k' →
  ps !! k = Some (member_current resolver i) → ps !! k' = Some (member_current resolver i) →
  ps' !! k = Some (Done (Ret (Some v))) → ps' !! k' = Some (Done (Ret (Some v'))) →
  field v "epoch" = JNum (int e) → field v' "epoch" = JNum (int e) → v = v'.
Proof.
  intros Hps Hrun Hne Hk Hk' Hd Hd' He He'.
  assert (Forall (λ x, member_moves x.2.1 x.2.2) tr) as Hall.
  { eapply Forall_impl; [by eapply (pool_always _ member_moves)|]. by intros [[?|] [a c]]. }
  assert (∀ k v, ps !! k = Some (member_current resolver i) → ps' !! k = Some (Done (Ret (Some v))) →
    field v "epoch" = JNum (int e) → ∃ s stored, (Some k, s) ∈ tr ∧ parse stored = Ret v ∧ member s.1 i = Some stored ∧
      settled e stored (member s.1 i)) as Hstep.
  { intros j u Hj Hu Hue. destruct (pool_exec _ _ _ _ _ _ j _ _ Hrun Hj Hu w) as [w1 Hex].
    apply current_read in Hex as (s & stored & Htr & Hm & Hp%fence_parse_Ret). exists s, stored.
    split; [apply own_step_pool; rewrite Htr; by apply elem_of_cons; left|]. split; [done|]. split; [done|].
    exists stored, (int e). split_and!; [done|by eapply stored_epoch|by right]. }
  destruct (Hstep k v Hk Hd He) as (s & x & Hs & Px & Mx & Sx). destruct (Hstep k' v' Hk' Hd' He') as (s' & x' & Hs' & Px' & Mx' & Sx').
  assert (∀ e1 e2 x1 x2, (∃ t1 t2 t3, tr = t1 ++ e1 :: t2 ++ e2 :: t3)%list → settled e x1 (member e1.2.1 i) →
    member e2.2.1 i = Some x2 → cjson_epoch x2 = Some (int e) → x2 = x1) as Hsame.
  { intros e1 e2 x1 x2 (t1 & t2 & t3 & Htr) H1 H2 H3.
    pose proof (pool_rtc member_moves _ _ _ Hall (pool_chain _ _ _ _ _ _ Hrun _ _ _ _ _ Htr) i) as Hc.
    assert (member_moves e1.2.1 e1.2.2) as Hm1 by (rewrite Forall_forall in Hall; apply Hall; rewrite Htr; set_solver).
    pose proof (settled_moves _ _ _ _ H1 (Hm1 i)) as H4. pose proof (settled_moves _ _ _ _ H4 Hc) as (y & m & Hy & Hm & H5).
    rewrite H2 in Hy. injection Hy as <-. rewrite H3 in Hm. injection Hm as <-.
    destruct H5 as [H5|[_ ->]]; [|done]. rewrite num_gtZ_int in H5. apply bool_decide_eq_true in H5. lia. }
  assert (x' = x) as ->; [|congruence].
  destruct (trace_order _ _ _ _ _ Hne Hs Hs') as (t1 & t2 & t3 & [Htr|Htr]).
  - by eapply (Hsame (Some k, s) (Some k', s')); [by exists t1, t2, t3|exact Sx|exact Mx'|eapply stored_epoch].
  - symmetry. by eapply (Hsame (Some k', s') (Some k, s)); [by exists t1, t2, t3|exact Sx'|exact Mx|eapply stored_epoch].
Qed.

(** A majority of answers in one group. *)
Lemma currents_lookup n i : (i < n)%nat → currents resolver n !! i = Some (member_current resolver i).
Proof. intros Hi. unfold currents. by rewrite list_lookup_fmap, lookup_seq_lt. Qed.
Lemma currents_length n : length (currents resolver n) = n.
Proof. unfold currents. by rewrite length_fmap, length_seq. Qed.
Lemma currents_always n : Forall (always member_moves) (currents resolver n).
Proof. apply Forall_fmap, Forall_forall. intros j _. by apply always_read. Qed.

(** Two reads, in any interleaving, that find majorities share a member: it answered
    each with a value of its group. *)
Lemma two_reads n vs vs' record record' w tr w' :
  pool_run member_moves (currents resolver n ++ currents resolver n) w tr w' ((Done <$> vs) ++ (Done <$> vs')) → length vs = n →
  rawCurrent n vs = Ret record → rawCurrent n vs' = Ret record' →
  ∃ v v', jparsed v ∧ jparsed v' ∧ jcs_canonicalize v = jcs_canonicalize record ∧ jcs_canonicalize v' = jcs_canonicalize record' ∧
    ∀ e, field v "epoch" = JNum (int e) → field v' "epoch" = JNum (int e) → v = v'.
Proof.
  intros Hrun Hlen (key & Hkey & T1)%rawCurrent_majority (key' & Hkey' & T2)%rawCurrent_majority.
  pose proof (pool_length _ _ _ _ _ _ Hrun) as Hl. rewrite !length_app, !length_fmap, currents_length in Hl.
  destruct (majorities_meet n (read_in_group key <$> vs) (read_in_group key' <$> vs')) as (i & H1 & H2);
    [by rewrite length_fmap|rewrite length_fmap; lia|done|done|].
  rewrite list_lookup_fmap in H1, H2. destruct (vs !! i) as [[[v|]|]|] eqn:Hv; try done. destruct (vs' !! i) as [[[v'|]|]|] eqn:Hv'; try done.
  injection H1 as H1. injection H2 as H2. apply bool_decide_eq_true in H1, H2. pose proof (lookup_lt_Some _ _ _ Hv) as Hi. rewrite Hlen in Hi.
  assert ((currents resolver n ++ currents resolver n)%list !! i = Some (member_current resolver i) ∧
    (currents resolver n ++ currents resolver n)%list !! (n + i)%nat = Some (member_current resolver i)) as [L1 L2].
  { split; [rewrite lookup_app_l by (by rewrite currents_length); by apply currents_lookup|].
    rewrite lookup_app_r by (rewrite currents_length; lia). rewrite currents_length, Nat.add_comm, Nat.add_sub. by apply currents_lookup. }
  assert (((Done <$> vs) ++ (Done <$> vs'))%list !! i = Some (Done (W := FenceWorld) (Ret (Some v))) ∧
    ((Done <$> vs) ++ (Done <$> vs'))%list !! (n + i)%nat = Some (Done (W := FenceWorld) (Ret (Some v')))) as [D1 D2].
  { split; [rewrite lookup_app_l by (by rewrite length_fmap, Hlen); by rewrite list_lookup_fmap, Hv|].
    rewrite lookup_app_r by (rewrite length_fmap; lia). rewrite length_fmap, Hlen, Nat.add_comm, Nat.add_sub. by rewrite list_lookup_fmap, Hv'. }
  assert (∀ k u, (currents resolver n ++ currents resolver n)%list !! k = Some (member_current resolver i) →
    ((Done <$> vs) ++ (Done <$> vs'))%list !! k = Some (Done (W := FenceWorld) (Ret (Some u))) → jparsed u) as Hp.
  { intros k u Hk Hu. destruct (pool_exec _ _ _ _ _ _ k _ _ Hrun Hk Hu w) as [w1 Hex].
    apply current_read in Hex as (s & stored & _ & _ & Hpp%fence_parse_Ret). by eapply parse_parsed. }
  exists v, v'. split_and!; [by apply (Hp i)|by apply (Hp (n + i)%nat)|congruence|congruence|]. intros e He He'.
  eapply (member_reads_once _ _ _ _ _ i (n + i)); [|exact Hrun|lia|exact L1|exact L2|exact D1|exact D2|exact He|exact He'].
  apply Forall_app. split; apply currents_always.
Qed.

Lemma two_reads_parsed n vs vs' w tr w' :
  pool_run member_moves (currents resolver n ++ currents resolver n) w tr w' ((Done <$> vs) ++ (Done <$> vs')) → length vs = n →
  Forall jparsed (omap fulfilled_record vs) ∧ Forall jparsed (omap fulfilled_record vs').
Proof.
  intros Hrun Hlen. pose proof (pool_length _ _ _ _ _ _ Hrun) as Hl. rewrite !length_app, !length_fmap, currents_length in Hl.
  assert (∀ k i u, (currents resolver n ++ currents resolver n)%list !! k = Some (member_current resolver i) →
    ((Done <$> vs) ++ (Done <$> vs'))%list !! k = Some (Done (W := FenceWorld) (Ret (Some u))) → jparsed u) as Hp.
  { intros k i u Hk Hu. destruct (pool_exec _ _ _ _ _ _ k _ _ Hrun Hk Hu w) as [w1 Hex].
    apply current_read in Hex as (s & stored & _ & _ & Hpp%fence_parse_Ret). by eapply parse_parsed. }
  split; apply Forall_forall; intros v (res & Hres & Hf)%list_elem_of_omap; destruct res as [[x|]|]; try done; injection Hf as ->;
    apply list_elem_of_lookup in Hres as [i Hi]; pose proof (lookup_lt_Some _ _ _ Hi) as Hlt.
  - eapply (Hp i i); [rewrite lookup_app_l by (rewrite currents_length; lia); apply currents_lookup; lia|].
    rewrite lookup_app_l by (by rewrite length_fmap). by rewrite list_lookup_fmap, Hi.
  - eapply (Hp (n + i)%nat i); [rewrite lookup_app_r by (rewrite currents_length; lia);
      rewrite currents_length, Nat.add_comm, Nat.add_sub; apply currents_lookup; lia|].
    rewrite lookup_app_r by (rewrite length_fmap; lia). rewrite length_fmap, Hlen, Nat.add_comm, Nat.add_sub. by rewrite list_lookup_fmap, Hi.
Qed.
End member.
