(* ===== verification/SourceLease.v ===== *)
(** * Source leases (packages/server/src/bpc-ha-final.ts)

    The right of a node to write a stream at an epoch is a signed lease, kept in the
    control tables: one head row per stream and the history of all grants.  A grant
    is installed inside a transaction that holds the advisory lock of its stream.
    The statements are functions on the two tables; the CHECKs and the unique keys
    are those of the schema. *)

From S2P Require Import Prelude JsNum Encoding Json JsText Crypto OutboxContract OutboxPg OutboxPgFacts HttpTransport HaSigned.
From stdpp Require Import base strings list gmap sorting relations.
From Stdlib Require Import ZArith Lia.

Local Open Scope string_scope.
Local Open Scope bpc_scope.

(** ** Grants *)

Record SourceLeaseGrant := mkGrant {
  sl_streamId : string; sl_epoch : Z; sl_status : string; sl_holderNodeId : string; sl_leaseId : string;
  sl_commandId : string; sl_expiresAtMs : Z; sl_maxTransactionDurationMs : Z; sl_grantSeq : Z;
  sl_prevDigest : option string; sl_grantDigest : string; sl_keyId : string; sl_signature : string }.

Section grants.
Context `{WC : WebCrypto} `{NB : NodeBuffer} `{ED : Ed25519}.
Implicit Types (g : SourceLeaseGrant) (resolver : string → option KeyObject).

Definition leaseMessage g (digest : string) : exc string :=
  frame [Some "bpc-source-lease/v1"; Some (sl_streamId g); Some (z_to_string (sl_epoch g)); Some (sl_status g);
         Some (sl_holderNodeId g); Some (sl_leaseId g); Some (sl_commandId g); Some (z_to_string (sl_expiresAtMs g));
         Some (z_to_string (sl_maxTransactionDurationMs g)); Some (z_to_string (sl_grantSeq g)); sl_prevDigest g; Some digest].

Definition lease_status (s : string) : bool := (bool_decide (s = "active") || bool_decide (s = "revoked"))%bool.
Definition prev_ok (prev : option string) : bool := match prev with None => true | Some d => HEX64 d end.

Definition validateBareLease g : exc unit :=
  _ ← id (sl_streamId g) STREAM_RE "streamId";
  _ ← id (sl_holderNodeId g) ID_RE "holderNodeId";
  _ ← id (sl_leaseId g) ID_RE "leaseId";
  _ ← id (sl_commandId g) ID_RE "commandId";
  _ ← safe_field (sl_epoch g) "epoch" 1 MAX_EPOCH;
  _ ← safe_field (sl_expiresAtMs g) "expiresAtMs" 0 MAX_MS;
  _ ← safe_field (sl_maxTransactionDurationMs g) "maxTransactionDurationMs" 1 300000;
  _ ← safe_field (sl_grantSeq g) "grantSeq" 1 MAX_SAFE_INTEGER;
  _ ← require (lease_status (sl_status g)) "invalid lease status";
  require (prev_ok (sl_prevDigest g)) "invalid prevDigest".

(** The digest, key id and signature of [bare] are not read. *)
Definition signSourceLeaseGrant (keyId : string) (key : KeyObject) (bare : SourceLeaseGrant) : exc SourceLeaseGrant :=
  _ ← validateBareLease bare;
  m ← leaseMessage bare EmptyString;
  let grantDigest := sha256_hex m in
  m' ← leaseMessage bare grantDigest;
  signature ← sign keyId key m';
  Ret (mkGrant (sl_streamId bare) (sl_epoch bare) (sl_status bare) (sl_holderNodeId bare) (sl_leaseId bare) (sl_commandId bare)
         (sl_expiresAtMs bare) (sl_maxTransactionDurationMs bare) (sl_grantSeq bare) (sl_prevDigest bare) grantDigest keyId signature).

Definition verifySourceLeaseGrant resolver g : exc unit :=
  _ ← validateBareLease g;
  if negb (HEX64 (sl_grantDigest g)) then contract_error "lease grant digest mismatch" else
  m ← leaseMessage g EmptyString;
  if decide (sha256_hex m ≠ sl_grantDigest g) then contract_error "lease grant digest mismatch" else
  m' ← leaseMessage g (sl_grantDigest g);
  verify resolver (sl_keyId g) m' (sl_signature g).

(** ** The tables *)

Record LeaseDb := mkLeaseDb { ld_head : gmap string SourceLeaseGrant; ld_history : list SourceLeaseGrant }.
Definition lease_empty : LeaseDb := mkLeaseDb ∅ [].
Implicit Types d : LeaseDb.

(** The columns read back: the numbers are checked, the texts are taken. *)
Definition leaseFromRow (row : SourceLeaseGrant) : exc SourceLeaseGrant :=
  epoch ← safe_field (sl_epoch row) "epoch" 1 MAX_EPOCH;
  expiresAtMs ← safe_field (sl_expiresAtMs row) "expiresAtMs" 0 MAX_MS;
  window ← safe_field (sl_maxTransactionDurationMs row) "maxTransactionDurationMs" 1 300000;
  grantSeq ← safe_field (sl_grantSeq row) "grantSeq" 1 MAX_SAFE_INTEGER;
  Ret (mkGrant (sl_streamId row) epoch (sl_status row) (sl_holderNodeId row) (sl_leaseId row) (sl_commandId row)
         expiresAtMs window grantSeq (sl_prevDigest row) (sl_grantDigest row) (sl_keyId row) (sl_signature row)).

(** The CHECK constraints of both tables. *)
Definition lease_check g : bool :=
  (bool_decide (1 <= sl_epoch g <= MAX_EPOCH)%Z && lease_status (sl_status g) && bool_decide (0 <= sl_expiresAtMs g <= MAX_MS)%Z &&
   bool_decide (1 <= sl_maxTransactionDurationMs g <= 300000)%Z && bool_decide (1 <= sl_grantSeq g <= MAX_SAFE_INTEGER)%Z &&
   prev_ok (sl_prevDigest g) && HEX64 (sl_grantDigest g))%bool.

(** Two rows that a unique key of the history keeps apart. *)
Definition lease_conflict g g' : bool :=
  (bool_decide (sl_streamId g = sl_streamId g') &&
   (bool_decide (sl_grantSeq g = sl_grantSeq g') || bool_decide (sl_grantDigest g = sl_grantDigest g') ||
    bool_decide (sl_commandId g = sl_commandId g')))%bool.

Definition insert_history g : tx LeaseDb Z := λ d,
  if negb (lease_check g) then (d, Throw (PgError "new row violates check constraint"))
  else if existsb (lease_conflict g) (ld_history d)
  then (d, Throw (PgError "duplicate key value violates unique constraint"))
  else (mkLeaseDb (ld_head d) (ld_history d ++ [g])%list, Ret 1%Z).
Definition insert_head g : tx LeaseDb Z := λ d,
  if negb (lease_check g) then (d, Throw (PgError "new row violates check constraint"))
  else match ld_head d !! sl_streamId g with
       | Some _ => (d, Throw (PgError "duplicate key value violates unique constraint"))
       | None => (mkLeaseDb (<[sl_streamId g := g]> (ld_head d)) (ld_history d), Ret 1%Z)
       end.
Definition update_head g (digest : string) : tx LeaseDb Z := λ d,
  match ld_head d !! sl_streamId g with
  | Some row =>
      if decide (sl_grantDigest row = digest) then
        if lease_check g then (mkLeaseDb (<[sl_streamId g := g]> (ld_head d)) (ld_history d), Ret 1%Z)
        else (d, Throw (PgError "new row violates check constraint"))
      else (d, Ret 0%Z)
  | None => (d, Ret 0%Z)
  end.

Definition stream_rows (streamId : string) d : list SourceLeaseGrant := filter (λ r, sl_streamId r = streamId) (ld_history d).
Definition epoch_rows (streamId : string) (epoch : Z) d : list SourceLeaseGrant :=
  filter (λ r, sl_epoch r = epoch) (stream_rows streamId d).
Definition by_seq (a b : SourceLeaseGrant) : Prop := (sl_grantSeq a <= sl_grantSeq b)%Z.
#[export] Instance by_seq_dec : RelDecision by_seq.
Proof. intros a b. unfold by_seq. apply _. Defined.

(** [ORDER BY grant_seq LIMIT 1], [LIMIT 1] and [max(expires_at_ms)] *)
Definition first_of_epoch (streamId : string) (epoch : Z) d : option SourceLeaseGrant :=
  head (merge_sort by_seq (epoch_rows streamId epoch d)).
Definition revoked_in_epoch (streamId : string) (epoch : Z) d : bool :=
  existsb (λ r, bool_decide (sl_status r = "revoked")) (epoch_rows streamId epoch d).
Definition prior_max (streamId : string) (epoch : Z) d : option Z :=
  match epoch_rows streamId epoch d with
  | [] => None
  | r :: rs => Some (foldr (λ r acc, Z.max (sl_expiresAtMs r) acc) (sl_expiresAtMs r) rs)
  end.

(** ** Installing a grant *)

Definition current_lease resolver (streamId : string) : tx LeaseDb (option SourceLeaseGrant) :=
  let! row := tread (λ d, ld_head d !! streamId) in
  match row with
  | None => tret None
  | Some row =>
      let! current := tlift (leaseFromRow row) in
      do! tlift (verifySourceLeaseGrant resolver current) in
      tret (Some current)
  end.

(** What the history says of the grant's epoch. *)
Definition epoch_rules g : tx LeaseDb unit :=
  let! first := tread (first_of_epoch (sl_streamId g) (sl_epoch g)) in
  do! tlift (match first with
             | None => Ret tt
             | Some f =>
                 if decide (sl_holderNodeId f = sl_holderNodeId g ∧ sl_leaseId f = sl_leaseId g) then
                   window ← safe_field (sl_maxTransactionDurationMs f) "epoch transaction window" 1 300000;
                   require (bool_decide (window = sl_maxTransactionDurationMs g))
                     "holder/lease/transaction-window identity cannot pivot within an epoch"
                 else contract_error "holder/lease/transaction-window identity cannot pivot within an epoch"
             end) in
  let! revoked := tread (revoked_in_epoch (sl_streamId g) (sl_epoch g)) in
  if (revoked && bool_decide (sl_status g = "active"))%bool then tlift (contract_error "revoked epoch cannot reactivate") else
  let! priorMax := tread (prior_max (sl_streamId g) (sl_epoch g)) in
  tlift (match priorMax with
         | None => Ret tt
         | Some m =>
             m ← safe_field m "prior maximum expiry" 0 MAX_MS;
             if decide (sl_expiresAtMs g < m)%Z then contract_error "lease expiry cannot decrease within an epoch" else Ret tt
         end).

Definition write_grant (current : option SourceLeaseGrant) g : tx LeaseDb unit :=
  let! inserted := insert_history g in
  do! tlift (require (bool_decide (inserted = 1%Z)) "lease history insert failed") in
  match current with
  | None =>
      let! head := insert_head g in
      tlift (require (bool_decide (head = 1%Z)) "lease head insert failed")
  | Some c =>
      let! head := update_head g (sl_grantDigest c) in
      tlift (require (bool_decide (head = 1%Z)) "lease head forward-CAS failed")
  end.

Definition installSourceLeaseGrant resolver g : tx LeaseDb unit :=
  do! tlift (verifySourceLeaseGrant resolver g) in
  let! current := current_lease resolver (sl_streamId g) in
  let! byCommand := tread (λ d, List.find (λ r, bool_decide (sl_commandId r = sl_commandId g)) (stream_rows (sl_streamId g) d)) in
  match byCommand with
  | Some r =>
      if decide (sl_grantDigest r ≠ sl_grantDigest g)
      then tlift (contract_error "lease command reused with different grant") else tret tt
  | None =>
      if decide (sl_grantSeq g ≠ default 0 (sl_grantSeq <$> current) + 1 ∨ sl_prevDigest g ≠ sl_grantDigest <$> current)%Z
      then tlift (contract_error "lease grant does not advance the signed chain") else
      if (match current with Some c => bool_decide (sl_epoch g < sl_epoch c)%Z | None => false end)
      then tlift (contract_error "lease epoch regression") else
      do! epoch_rules g in
      write_grant current g
  end.
End grants.
