(* ===== verification/LeaseSafety.v ===== *)
(** * What the lease history guarantees

    Whatever grants are offered and whatever becomes of their transactions, the
    history of a stream is a numbered chain of sealed grants whose last one is the
    head, epochs never go back, and inside an epoch the holder, the lease and the
    transaction window stay what they were, the expiry never decreases and a
    revocation is final. *)

From S2P Require Import Prelude JsNum Encoding Json JsText Crypto OutboxContract OutboxPg OutboxPgFacts HttpTransport HaSigned SourceLease.
From stdpp Require Import base strings list gmap sorting relations.
From Stdlib Require Import ZArith Lia.

Local Open Scope string_scope.
Local Open Scope bpc_scope.

(** Two elements of a sorted list are equal or in order. *)
Lemma sorted_in {A} (R : A → A → Prop) (l : list A) x y : StronglySorted R l → x ∈ l → y ∈ l → x = y ∨ R x y ∨ R y x.
Proof.
  induction 1 as [|z l Hl IH Hz]; intros Hx Hy; [by apply not_elem_of_nil in Hx|]. rewrite Forall_forall in Hz.
  apply elem_of_cons in Hx as [->|Hx], Hy as [->|Hy]; [by left|right; left; auto|right; right; auto|auto].
Qed.

Section safety.
Context `{WC : WebCrypto} `{NB : NodeBuffer} `{ED : Ed25519}.
Implicit Types (g : SourceLeaseGrant) (d : LeaseDb) (resolver : string → option KeyObject).

(** The digest of a grant is that of its fields. *)
Definition sealed g : Prop := ∃ m, leaseMessage g EmptyString = Ret m ∧ sha256_hex m = sl_grantDigest g.

(** An earlier and a later grant of one stream. *)
Definition lease_before (a b : SourceLeaseGrant) : Prop :=
  (sl_epoch a <= sl_epoch b)%Z ∧
  (sl_epoch a = sl_epoch b →
   sl_holderNodeId a = sl_holderNodeId b ∧ sl_leaseId a = sl_leaseId b ∧
   sl_maxTransactionDurationMs a = sl_maxTransactionDurationMs b ∧ (sl_expiresAtMs a <= sl_expiresAtMs b)%Z ∧
   (sl_status a = "revoked" → sl_status b = "revoked")).

Fixpoint lease_chain (seq : Z) (prev : option string) (l : list SourceLeaseGrant) : Prop :=
  match l with
  | [] => True
  | g :: l => sl_grantSeq g = (seq + 1)%Z ∧ sl_prevDigest g = prev ∧ sealed g ∧ lease_chain (sl_grantSeq g) (Some (sl_grantDigest g)) l
  end.

Definition lease_inv d : Prop := ∀ streamId, let l := stream_rows streamId d in
  lease_chain 0 None l ∧ StronglySorted lease_before l ∧ ld_head d !! streamId = last l.

(** One transaction that installs a grant, whatever its fate. *)
Definition lease_step d d' : Prop :=
  ∃ resolver g f, d' = (transaction f (installSourceLeaseGrant resolver g) d).1.

(** ** What a committed installation did *)

Lemma leaseFromRow_Ret row g : leaseFromRow row = Ret g → g = row.
Proof.
  unfold leaseFromRow. intros H. do 4 (apply exc_bind_Ret in H as (? & (-> & _)%safe_field_Ret & H)).
  destruct row. by injection H as <-.
Qed.

Lemma verifyLease_Ret resolver g : verifySourceLeaseGrant resolver g = Ret tt → sealed g ∧ lease_status (sl_status g) = true.
Proof.
  unfold verifySourceLeaseGrant. intros ([] & Hb & H)%exc_bind_Ret. destruct (negb _); [done|].
  apply exc_bind_Ret in H as (m & Hm & H). case_decide as Hd; [done|]. split; [by exists m; rewrite Hm; naive_solver|].
  unfold validateBareLease in Hb. do 8 (apply exc_bind_Ret in Hb as (? & _ & Hb)).
  apply exc_bind_Ret in Hb as ([] & ?%require_Ret & _). done.
Qed.

Lemma current_lease_Ret resolver streamId d d' c : current_lease resolver streamId d = (d', Ret c) → d' = d ∧ c = ld_head d !! streamId.
Proof.
  unfold current_lease. intros H. tx_inv. destruct (ld_head _ !! streamId) as [row|]; tx_inv; [|done].
  by match goal with H : leaseFromRow _ = _ |- _ => apply leaseFromRow_Ret in H as -> end.
Qed.

Definition obeys (rows : list SourceLeaseGrant) g : Prop :=
  Forall (λ r, sl_expiresAtMs r <= sl_expiresAtMs g)%Z rows ∧
  (sl_status g = "active" → Forall (λ r, sl_status r ≠ "revoked") rows) ∧
  (rows ≠ [] → ∃ f, f ∈ rows ∧ sl_holderNodeId f = sl_holderNodeId g ∧ sl_leaseId f = sl_leaseId g ∧
     sl_maxTransactionDurationMs f = sl_maxTransactionDurationMs g).

Lemma prior_max_bound streamId epoch d m : prior_max streamId epoch d = Some m →
  Forall (λ r, sl_expiresAtMs r <= m)%Z (epoch_rows streamId epoch d).
Proof.
  unfold prior_max. destruct (epoch_rows _ _ _) as [|r rs]; [done|]. intros [= <-].
  induction rs as [|x rs IH]; simpl; [by repeat constructor|]. inversion_clear IH. constructor; [lia|]. constructor; [lia|].
  eapply Forall_impl; [eassumption|]. simpl. lia.
Qed.

Lemma first_elem streamId epoch d f : first_of_epoch streamId epoch d = Some f → f ∈ epoch_rows streamId epoch d.
Proof. unfold first_of_epoch. intros Hf%head_Some_elem_of. by rewrite merge_sort_Permutation in Hf. Qed.

Lemma first_none streamId epoch d : first_of_epoch streamId epoch d = None → epoch_rows streamId epoch d = [].
Proof.
  unfold first_of_epoch. intros Hf%head_None. apply Permutation_nil_r.
  rewrite <-(merge_sort_Permutation by_seq). by rewrite Hf.
Qed.

Lemma epoch_rules_Ret g d d' : epoch_rules g d = (d', Ret tt) → d' = d ∧ obeys (epoch_rows (sl_streamId g) (sl_epoch g) d) g.
Proof.
  unfold epoch_rules. intros H. apply tbind_Ret in H as (s1 & first & (-> & ->)%tread_Ret & H).
  apply tbind_Ret in H as (s2 & [] & (Hfirst & ->)%tlift_Ret & H). apply tbind_Ret in H as (s3 & rv & (-> & ->)%tread_Ret & H).
  destruct (_ && _)%bool eqn:Hrv; [by apply tlift_Ret in H as [? _]|].
  apply tbind_Ret in H as (s4 & pm & (-> & ->)%tread_Ret & H). apply tlift_Ret in H as [Hpm ->]. split; [done|]. split_and!.
  - destruct (prior_max _ _ d) as [m|] eqn:Hm.
    + apply exc_bind_Ret in Hpm as (m' & (-> & _)%safe_field_Ret & Hpm). case_decide as Hlt; [done|].
      eapply Forall_impl; [by apply prior_max_bound|]. simpl. lia.
    + unfold prior_max in Hm. by destruct (epoch_rows _ _ d).
  - intros Ha. rewrite Ha, bool_decide_true, andb_true_r in Hrv by done. apply Forall_forall. intros r Hr Hs.
    enough (revoked_in_epoch (sl_streamId g) (sl_epoch g) d = true) by congruence.
    apply existsb_exists. exists r. split; [by apply list_elem_of_In|]. by apply bool_decide_eq_true.
  - intros Hne. destruct (first_of_epoch _ _ d) as [f|] eqn:Hf; [|by apply first_none in Hf].
    exists f. split; [by apply first_elem|]. case_decide as Hh; [|done].
    apply exc_bind_Ret in Hfirst as (w & (-> & _)%safe_field_Ret & Hw%require_Ret). apply bool_decide_eq_true in Hw.
    destruct Hh. by split_and!.
Qed.

Lemma insert_history_Ret g d d' n : insert_history g d = (d', Ret n) →
  n = 1%Z ∧ d' = mkLeaseDb (ld_head d) (ld_history d ++ [g])%list.
Proof. unfold insert_history. destruct (negb _); [done|]. destruct (existsb _ _); [done|]. by intros [= <- <-]. Qed.

Lemma write_grant_Ret current g d d' : write_grant current g d = (d', Ret tt) →
  d' = mkLeaseDb (<[sl_streamId g := g]> (ld_head d)) (ld_history d ++ [g])%list.
Proof.
  unfold write_grant. intros (s1 & n & [-> ->]%insert_history_Ret & H)%tbind_Ret.
  apply tbind_Ret in H as (s2 & [] & (_ & ->)%tlift_Ret & H). destruct current as [c|].
  - apply tbind_Ret in H as (s3 & k & Hu & H). apply tlift_Ret in H as [Hk%require_Ret ->]. apply bool_decide_eq_true in Hk as ->.
    unfold update_head in Hu. cbn in Hu. destruct (ld_head d !! _); [|done]. case_decide; [|done].
    destruct (lease_check g); [|done]. by injection Hu as <-.
  - apply tbind_Ret in H as (s3 & k & Hu & H). apply tlift_Ret in H as [_ ->].
    unfold insert_head in Hu. destruct (negb _); [done|]. cbn in Hu. destruct (ld_head d !! _); [done|]. by injection Hu as <- _.
Qed.

(** The two outcomes of an installation that returns: nothing, for a command already
    installed, or the grant is appended and becomes the head. *)
Lemma install_Ret resolver g d d' : installSourceLeaseGrant resolver g d = (d', Ret tt) → d' = d ∨
  d' = mkLeaseDb (<[sl_streamId g := g]> (ld_head d)) (ld_history d ++ [g])%list ∧
  sealed g ∧ lease_status (sl_status g) = true ∧
  let current := ld_head d !! sl_streamId g in
  sl_grantSeq g = (default 0 (sl_grantSeq <$> current) + 1)%Z ∧ sl_prevDigest g = sl_grantDigest <$> current ∧
  (∀ c, current = Some c → (sl_epoch c <= sl_epoch g)%Z) ∧ obeys (epoch_rows (sl_streamId g) (sl_epoch g) d) g.
Proof.
  unfold installSourceLeaseGrant. intros (s0 & [] & ([Hs Hst]%verifyLease_Ret & ->)%tlift_Ret & H)%tbind_Ret.
  apply tbind_Ret in H as (s1 & c & (-> & ->)%current_lease_Ret & H). apply tbind_Ret in H as (s2 & bc & (-> & ->)%tread_Ret & H).
  destruct (List.find _ _) as [r|]; [case_decide; [by apply tlift_Ret in H as [? _]|by apply tret_Ret in H as [_ ->]; left]|].
  case_decide as Hd; [by apply tlift_Ret in H as [? _]|]. destruct (match _ with Some _ => _ | None => _ end) eqn:He; [by apply tlift_Ret in H as [? _]|].
  apply tbind_Ret in H as (s3 & [] & (-> & Hrules)%epoch_rules_Ret & Hw%write_grant_Ret). right.
  destruct (decide (sl_grantSeq g = default 0 (sl_grantSeq <$> ld_head d !! sl_streamId g) + 1)%Z); [|naive_solver].
  destruct (decide (sl_prevDigest g = sl_grantDigest <$> ld_head d !! sl_streamId g)); [|naive_solver].
  split_and!; [done..| |done]. intros c Hc. rewrite Hc in He. apply bool_decide_eq_false in He. lia.
Qed.

(** ** The invariant *)

Lemma lease_chain_app seq prev l g : lease_chain seq prev (l ++ [g])%list ↔
  lease_chain seq prev l ∧ sl_grantSeq g = (default seq (sl_grantSeq <$> last l) + 1)%Z ∧
  sl_prevDigest g = (match last l with None => prev | Some c => Some (sl_grantDigest c) end) ∧ sealed g.
Proof.
  revert seq prev. induction l as [|x l IH]; intros seq prev; simpl; [tauto|]. rewrite IH. destruct l as [|y l]; [simpl; tauto|].
  rewrite !last_cons_cons. destruct (last (y :: l)) eqn:Hl; [simpl; tauto|]. by apply last_None in Hl.
Qed.

Lemma sorted_snoc (l : list SourceLeaseGrant) g : StronglySorted lease_before l → Forall (λ x, lease_before x g) l →
  StronglySorted lease_before (l ++ [g])%list.
Proof.
  induction 1 as [|x l Hl IH Hx]; intros Hg; [repeat constructor|]. inversion_clear Hg as [|? ? Hxg Hlg]. simpl. constructor; [by apply IH|].
  apply Forall_app. split; [done|]. by apply Forall_singleton.
Qed.

Lemma sorted_last (l : list SourceLeaseGrant) g x : StronglySorted lease_before l → last l = Some g → x ∈ l → x = g ∨ lease_before x g.
Proof.
  intros Hs Hl Hx. apply last_Some in Hl as [l' ->]. apply elem_of_app in Hx as [Hx|Hx]; [right|left; by apply list_elem_of_singleton in Hx].
  clear -Hs Hx. induction l' as [|y l' IH]; [by apply not_elem_of_nil in Hx|]. simpl in Hs. inversion_clear Hs as [|? ? Hs' Hy].
  apply elem_of_cons in Hx as [->|Hx]; [|by apply IH].
  apply Forall_app in Hy as [_ Hy]. by rewrite Forall_singleton in Hy.
Qed.

Lemma stream_rows_app streamId hd d g : stream_rows streamId (mkLeaseDb hd (ld_history d ++ [g])%list) =
  (stream_rows streamId d ++ (if decide (sl_streamId g = streamId) then [g] else []))%list.
Proof. unfold stream_rows. cbn. rewrite filter_app. f_equal. Qed.

(** A grant that obeys the rules comes after every row of its stream. *)
Lemma obeys_before d g : lease_inv d → (∀ c, ld_head d !! sl_streamId g = Some c → (sl_epoch c <= sl_epoch g)%Z) →
  lease_status (sl_status g) = true → obeys (epoch_rows (sl_streamId g) (sl_epoch g) d) g →
  Forall (λ x, lease_before x g) (stream_rows (sl_streamId g) d).
Proof.
  intros Hinv He Hst (Hexp & Hrev & Hid). destruct (Hinv (sl_streamId g)) as (_ & Hs & Hh). apply Forall_forall. intros x Hx.
  assert (sl_epoch x <= sl_epoch g)%Z as Hxe.
  { destruct (last (stream_rows (sl_streamId g) d)) as [c|] eqn:Hl; [|apply last_None in Hl; rewrite Hl in Hx; by apply not_elem_of_nil in Hx].
    specialize (He c Hh). destruct (sorted_last _ _ _ Hs Hl Hx) as [->|[? _]]; lia. }
  split; [done|]. intros Heq. assert (x ∈ epoch_rows (sl_streamId g) (sl_epoch g) d) as Hxr by (by apply list_elem_of_filter).
  destruct Hid as (f & Hf & <- & <- & <-); [intros Hn; rewrite Hn in Hxr; by apply not_elem_of_nil in Hxr|].
  rewrite Forall_forall in Hexp. pose proof (Hexp x Hxr) as Hxexp. clear Hexp. apply list_elem_of_filter in Hf as [Hfe Hf].
  assert (sl_holderNodeId x = sl_holderNodeId f ∧ sl_leaseId x = sl_leaseId f ∧
          sl_maxTransactionDurationMs x = sl_maxTransactionDurationMs f) as (-> & -> & ->).
  { destruct (sorted_in lease_before _ x f Hs Hx Hf) as [->|[[_ H]|[_ H]]]; [done|..];
      (destruct H as (? & ? & ? & _); [congruence|by split_and!]). }
  split_and!; [done|done|done|done|]. intros Hr. unfold lease_status in Hst.
  apply orb_true_iff in Hst as [Ha|Ha]; apply bool_decide_eq_true in Ha; [|done]. specialize (Hrev Ha). rewrite Forall_forall in Hrev. by destruct (Hrev x).
Qed.

Lemma install_inv resolver g d d' : lease_inv d → installSourceLeaseGrant resolver g d = (d', Ret tt) → lease_inv d'.
Proof.
  intros Hinv [->|(-> & Hseal & Hst & Hseq & Hprev & He & Hob)]%install_Ret; [done|]. intros s. rewrite stream_rows_app. cbn [ld_head].
  destruct (decide (sl_streamId g = s)) as [<-|Hne]; [|by rewrite app_nil_r, lookup_insert_ne].
  rewrite lookup_insert_eq, last_snoc. pose proof (obeys_before _ _ Hinv He Hst Hob) as Hbef.
  destruct (Hinv (sl_streamId g)) as (Hc & Hs & Hh). split_and!; [|by apply sorted_snoc|done].
  apply lease_chain_app. rewrite <-Hh. split_and!; [done|done| |done]. rewrite Hprev. by destruct (ld_head d !! _).
Qed.

Lemma step_inv d d' : lease_step d d' → lease_inv d → lease_inv d'.
Proof.
  intros (resolver & g & f & ->) Hinv. destruct (transaction f _ d) as [d' r] eqn:Ht.
  apply transaction_cases in Ht as [[-> _]|([] & Hi & _)]; [done|]. by eapply install_inv.
Qed.
Lemma steps_inv d d' : rtc lease_step d d' → lease_inv d → lease_inv d'.
Proof. induction 1; eauto using step_inv. Qed.

Lemma empty_inv : lease_inv lease_empty.
Proof. intros s. unfold stream_rows, lease_empty. cbn. split; [done|]. split; [constructor|done]. Qed.

Lemma step_grows d d' : lease_step d d' → ∃ l, ld_history d' = (ld_history d ++ l)%list.
Proof.
  intros (resolver & g & f & ->). destruct (transaction f _ d) as [d' r] eqn:Ht.
  apply transaction_cases in Ht as [[-> _]|([] & [->|[-> _]]%install_Ret & _)]; cbn [fst ld_history].
  - exists []. by rewrite app_nil_r.
  - exists []. by rewrite app_nil_r.
  - by exists [g].
Qed.
Lemma steps_grow d d' : rtc lease_step d d' → ∃ l, ld_history d' = (ld_history d ++ l)%list.
Proof.
  induction 1 as [d|d d1 d2 Hs _ [l Hl]]; [exists []; by rewrite app_nil_r|]. apply step_grows in Hs as [l' Hl'].
  exists (l' ++ l)%list. by rewrite Hl, Hl', <-app_assoc.
Qed.

(** C23 From the empty tables, any sequence of installations -- of any grants, under
    any keys, with any fate of each transaction -- keeps every stream's history a
    numbered chain of sealed grants that ends in the head, with epochs that never go
    back and, inside an epoch, one holder, lease and transaction window, a growing
    expiry and no reactivation; and it only appends to the history. *)
Theorem lease_history_safe d d' : rtc lease_step lease_empty d → rtc lease_step d d' →
  lease_inv d' ∧ ∃ l, ld_history d' = (ld_history d ++ l)%list.
Proof.
  intros H H'. split; [|by apply steps_grow]. eapply steps_inv; [exact H'|]. eapply steps_inv; [exact H|exact empty_inv].
Qed.
End safety.
