(* ===== verification/Cutover.v ===== *)
(** * Cutovers (packages/server/src/bpc-ha-final.ts)

    Moving the write authority of a stream to the next epoch: a signed receipt that
    goes through PREPARING, FENCED and ACTIVE in the control database, the witness of
    the epoch that was fenced last, and the evidence each phase needs.  A method is
    one transaction, except [markActive], which is a sequence of three.  What Redis
    answers and the control clock are inputs of a transaction. *)

From S2P Require Import Prelude Proc JsNum Encoding Json JsText Crypto OutboxContract OutboxPg HttpTransport HaSigned RedisFence SourceLease.
From stdpp Require Import base strings list gmap sorting.
From Stdlib Require Import ZArith Lia.

Local Open Scope string_scope.
Local Open Scope bpc_scope.

(** ** Receipts *)

(** The fields of a receipt that all its phases share. *)
Record CutoverIntent := mkIntent {
  ci_streamId : string; ci_commandId : string; ci_previousEpoch : Z; ci_targetEpoch : Z; ci_targetNodeId : string;
  ci_targetSourceEpoch : string; ci_manifestDigest : string; ci_finalSourceSequence : Z; ci_stateDigest : string;
  ci_redisClaimDigest : string; ci_oldLeaseDigest : string; ci_oldLeaseExpiresAtMs : Z; ci_sourceTransactionWindowMs : Z }.
Record CutoverReceipt := mkReceipt {
  cr_intent : CutoverIntent; cr_phase : string; cr_prevStateDigest : option string;
  cr_stateDigestSigned : string; cr_keyId : string; cr_signature : string }.

Record PromotionReadinessAttestation := mkReadiness {
  pa_streamId : string; pa_commandId : string; pa_targetEpoch : Z; pa_targetSourceEpoch : string; pa_targetSystemId : string;
  pa_snapshotKeyId : string; pa_manifestDigest : string; pa_appliedSequence : Z; pa_stateDigest : string;
  pa_fencedDigest : string; pa_keyId : string; pa_attestationDigest : string; pa_signature : string }.

Section receipts.
Context `{WC : WebCrypto} `{NB : NodeBuffer} `{ED : Ed25519}.
Implicit Types (resolver : string → option KeyObject) (i : CutoverIntent) (r : CutoverReceipt).

Definition promotionAttestationMessage (v : PromotionReadinessAttestation) (d : string) : exc string :=
  frame [Some "bpc-promotion-readiness/v1"; Some (pa_streamId v); Some (pa_commandId v); Some (z_to_string (pa_targetEpoch v));
         Some (pa_targetSourceEpoch v); Some (pa_targetSystemId v); Some (pa_snapshotKeyId v); Some (pa_manifestDigest v);
         Some (z_to_string (pa_appliedSequence v)); Some (pa_stateDigest v); Some (pa_fencedDigest v); Some d].
Definition verifyPromotionReadinessAttestation resolver (v : PromotionReadinessAttestation) : exc unit :=
  _ ← id (pa_streamId v) STREAM_RE "streamId";
  _ ← id (pa_commandId v) ID_RE "commandId";
  _ ← id (pa_targetSourceEpoch v) ID_RE "targetSourceEpoch";
  _ ← id (pa_snapshotKeyId v) KEY_RE "snapshotKeyId";
  _ ← require (DIGITS_RE (pa_targetSystemId v)) "promotion target system identity malformed";
  _ ← safe_field (pa_targetEpoch v) "targetEpoch" 1 MAX_EPOCH;
  _ ← safe_field (pa_appliedSequence v) "appliedSequence" 0 MAX_SAFE_INTEGER;
  _ ← require (forallb HEX64 [pa_manifestDigest v; pa_stateDigest v; pa_fencedDigest v; pa_attestationDigest v])
        "promotion attestation digest malformed";
  m ← promotionAttestationMessage v EmptyString;
  _ ← require (bool_decide (sha256_hex m = pa_attestationDigest v)) "promotion attestation digest mismatch";
  m' ← promotionAttestationMessage v (pa_attestationDigest v);
  verify resolver (pa_keyId v) m' (pa_signature v).

Definition cutoverMessage i (phase : string) (prev : option string) (digest : string) : exc string :=
  frame [Some "bpc-cutover/v1"; Some (ci_streamId i); Some (ci_commandId i); Some phase; Some (z_to_string (ci_previousEpoch i));
         Some (z_to_string (ci_targetEpoch i)); Some (ci_targetNodeId i); Some (ci_targetSourceEpoch i); Some (ci_manifestDigest i);
         Some (z_to_string (ci_finalSourceSequence i)); Some (ci_stateDigest i); Some (ci_redisClaimDigest i);
         Some (ci_oldLeaseDigest i); Some (z_to_string (ci_oldLeaseExpiresAtMs i));
         Some (z_to_string (ci_sourceTransactionWindowMs i)); prev; Some digest].

Definition cutover_phase (s : string) : bool := bool_decide (s ∈ ["PREPARING"; "FENCED"; "ACTIVE"]).

Definition validateBareCutover i (phase : string) (prev : option string) : exc unit :=
  _ ← id (ci_streamId i) STREAM_RE "streamId";
  _ ← id (ci_commandId i) ID_RE "commandId";
  _ ← id (ci_targetNodeId i) ID_RE "targetNodeId";
  _ ← id (ci_targetSourceEpoch i) ID_RE "targetSourceEpoch";
  _ ← require (cutover_phase phase) "invalid cutover phase";
  _ ← safe_field (ci_previousEpoch i) "previousEpoch" 0 (MAX_EPOCH - 1);
  _ ← safe_field (ci_targetEpoch i) "targetEpoch" 1 MAX_EPOCH;
  _ ← safe_field (ci_finalSourceSequence i) "finalSourceSequence" 0 MAX_SAFE_INTEGER;
  _ ← safe_field (ci_oldLeaseExpiresAtMs i) "oldLeaseExpiresAtMs" 0 MAX_MS;
  _ ← safe_field (ci_sourceTransactionWindowMs i) "sourceTransactionWindowMs" 1 300000;
  _ ← require (bool_decide (ci_targetEpoch i = ci_previousEpoch i + 1)%Z) "cutover epoch must advance exactly once";
  _ ← require (HEX64 (ci_manifestDigest i)) "invalid manifestDigest";
  _ ← require (HEX64 (ci_stateDigest i)) "invalid stateDigest";
  _ ← require (HEX64 (ci_redisClaimDigest i)) "invalid redisClaimDigest";
  _ ← require (HEX64 (ci_oldLeaseDigest i)) "invalid oldLeaseDigest";
  require (prev_ok prev) "invalid previous cutover digest".

Definition signCutoverReceipt (keyId : string) (key : KeyObject) i (phase : string) (prev : option string) : exc CutoverReceipt :=
  _ ← validateBareCutover i phase prev;
  m ← cutoverMessage i phase prev EmptyString;
  let stateDigestSigned := sha256_hex m in
  m' ← cutoverMessage i phase prev stateDigestSigned;
  signature ← sign keyId key m';
  Ret (mkReceipt i phase prev stateDigestSigned keyId signature).

Definition verifyCutoverReceipt resolver r : exc unit :=
  _ ← validateBareCutover (cr_intent r) (cr_phase r) (cr_prevStateDigest r);
  if negb (HEX64 (cr_stateDigestSigned r)) then contract_error "cutover state digest mismatch" else
  m ← cutoverMessage (cr_intent r) (cr_phase r) (cr_prevStateDigest r) EmptyString;
  if decide (sha256_hex m ≠ cr_stateDigestSigned r) then contract_error "cutover state digest mismatch" else
  m' ← cutoverMessage (cr_intent r) (cr_phase r) (cr_prevStateDigest r) (cr_stateDigestSigned r);
  verify resolver (cr_keyId r) m' (cr_signature r).

(** ** The control database *)

Record ControlDb := mkControl {
  cn_lease : LeaseDb;
  cn_head : gmap string CutoverReceipt;
  cn_history : list CutoverReceipt;
  cn_witness : gmap string (Z * string);
  cn_attestation : gmap string PromotionReadinessAttestation }.
Definition control_empty : ControlDb := mkControl lease_empty ∅ [] ∅ ∅.
Implicit Types d : ControlDb.

Definition set_lease_db l d : ControlDb := mkControl l (cn_head d) (cn_history d) (cn_witness d) (cn_attestation d).
Definition set_cutover_head h d : ControlDb := mkControl (cn_lease d) h (cn_history d) (cn_witness d) (cn_attestation d).
Definition set_cutover_history h d : ControlDb := mkControl (cn_lease d) (cn_head d) h (cn_witness d) (cn_attestation d).
Definition set_witness w d : ControlDb := mkControl (cn_lease d) (cn_head d) (cn_history d) w (cn_attestation d).
Definition set_attestation a d : ControlDb := mkControl (cn_lease d) (cn_head d) (cn_history d) (cn_witness d) a.

Definition stream_of r : string := ci_streamId (cr_intent r).
Definition command_of r : string := ci_commandId (cr_intent r).

Definition cutoverFromRow (row : CutoverReceipt) : exc CutoverReceipt :=
  let i := cr_intent row in
  previousEpoch ← safe_field (ci_previousEpoch i) "previousEpoch" 0 (MAX_EPOCH - 1);
  targetEpoch ← safe_field (ci_targetEpoch i) "targetEpoch" 1 MAX_EPOCH;
  finalSourceSequence ← safe_field (ci_finalSourceSequence i) "finalSourceSequence" 0 MAX_SAFE_INTEGER;
  oldLeaseExpiresAtMs ← safe_field (ci_oldLeaseExpiresAtMs i) "oldLeaseExpiresAtMs" 0 MAX_MS;
  window ← safe_field (ci_sourceTransactionWindowMs i) "sourceTransactionWindowMs" 1 300000;
  Ret (mkReceipt (mkIntent (ci_streamId i) (ci_commandId i) previousEpoch targetEpoch (ci_targetNodeId i) (ci_targetSourceEpoch i)
         (ci_manifestDigest i) finalSourceSequence (ci_stateDigest i) (ci_redisClaimDigest i) (ci_oldLeaseDigest i)
         oldLeaseExpiresAtMs window) (cr_phase row) (cr_prevStateDigest row) (cr_stateDigestSigned row) (cr_keyId row) (cr_signature row)).

(** The CHECKs of both tables, and the unique keys of each. *)
Definition cutover_check r : bool :=
  let i := cr_intent r in
  (cutover_phase (cr_phase r) && bool_decide (0 <= ci_previousEpoch i <= MAX_EPOCH - 1)%Z && bool_decide (1 <= ci_targetEpoch i <= MAX_EPOCH)%Z &&
   HEX64 (ci_manifestDigest i) && bool_decide (0 <= ci_finalSourceSequence i <= MAX_SAFE_INTEGER)%Z && HEX64 (ci_stateDigest i) &&
   HEX64 (ci_redisClaimDigest i) && HEX64 (ci_oldLeaseDigest i) && bool_decide (0 <= ci_oldLeaseExpiresAtMs i <= MAX_MS)%Z &&
   bool_decide (1 <= ci_sourceTransactionWindowMs i <= 300000)%Z && HEX64 (cr_stateDigestSigned r))%bool.
Definition cutover_conflict r r' : bool :=
  (bool_decide (stream_of r = stream_of r') &&
   ((bool_decide (ci_targetEpoch (cr_intent r) = ci_targetEpoch (cr_intent r')) && bool_decide (cr_phase r = cr_phase r')) ||
    bool_decide (cr_stateDigestSigned r = cr_stateDigestSigned r')))%bool.
(** Another stream's head has the command. *)
Definition command_taken r d : bool :=
  existsb (λ kr : string * CutoverReceipt, bool_decide (kr.1 ≠ stream_of r ∧ command_of kr.2 = command_of r)) (map_to_list (cn_head d)).

Definition insert_cutover_history r : tx ControlDb Z := λ d,
  if negb (cutover_check r) then (d, Throw (PgError "new row violates check constraint"))
  else if existsb (cutover_conflict r) (cn_history d) then (d, Throw (PgError "duplicate key value violates unique constraint"))
  else (set_cutover_history (cn_history d ++ [r])%list d, Ret 1%Z).
Definition insert_cutover_head r : tx ControlDb Z := λ d,
  if negb (cutover_check r) then (d, Throw (PgError "new row violates check constraint"))
  else if (bool_decide (is_Some (cn_head d !! stream_of r)) || command_taken r d)%bool
  then (d, Throw (PgError "duplicate key value violates unique constraint"))
  else (set_cutover_head (<[stream_of r := r]> (cn_head d)) d, Ret 1%Z).
Definition update_cutover_head r (digest : string) : tx ControlDb Z := λ d,
  match cn_head d !! stream_of r with
  | Some row =>
      if decide (cr_stateDigestSigned row ≠ digest) then (d, Ret 0%Z)
      else if negb (cutover_check r) then (d, Throw (PgError "new row violates check constraint"))
      else if command_taken r d then (d, Throw (PgError "duplicate key value violates unique constraint"))
      else (set_cutover_head (<[stream_of r := r]> (cn_head d)) d, Ret 1%Z)
  | None => (d, Ret 0%Z)
  end.

Definition phase_rank (s : string) : Z := if decide (s = "PREPARING") then 1 else if decide (s = "FENCED") then 2 else 3.
Definition cutover_order r r' : Prop :=
  let e := ci_targetEpoch (cr_intent r) in
  let e' := ci_targetEpoch (cr_intent r') in
  (e < e' ∨ e = e' ∧ phase_rank (cr_phase r) <= phase_rank (cr_phase r'))%Z.
#[export] Instance cutover_order_dec : RelDecision cutover_order.
Proof. intros a b. unfold cutover_order. apply _. Defined.
Definition cutover_rows (streamId : string) d : list CutoverReceipt := filter (λ r, stream_of r = streamId) (cn_history d).

Fixpoint walk_chain resolver (rows : list CutoverReceipt) (previous : option string) (last : option CutoverReceipt)
    : exc (option CutoverReceipt) :=
  match rows with
  | [] => Ret last
  | row :: rows =>
      receipt ← cutoverFromRow row;
      _ ← verifyCutoverReceipt resolver receipt;
      if decide (cr_prevStateDigest receipt ≠ previous) then contract_error "cutover retained history chain is broken"
      else walk_chain resolver rows (Some (cr_stateDigestSigned receipt)) (Some receipt)
  end.

Definition verifyCutoverChain resolver (streamId : string) d : exc (option CutoverReceipt) :=
  last ← walk_chain resolver (merge_sort cutover_order (cutover_rows streamId d)) None None;
  match cn_head d !! streamId with
  | None =>
      match last with
      | Some _ => contract_error "cutover history exists without authority head"
      | None => Ret None
      end
  | Some headRow =>
      head ← cutoverFromRow headRow;
      _ ← verifyCutoverReceipt resolver head;
      match last with
      | Some last =>
          if decide (cr_stateDigestSigned head ≠ cr_stateDigestSigned last)
          then contract_error "cutover head is not the latest retained history state" else Ret (Some head)
      | None => contract_error "cutover head is not the latest retained history state"
      end
  end.

(** ** BpcCutoverController *)

(** [exec.query] on the lease tables: the transition reads the lease head. *)
Definition lease_head (streamId : string) d : option SourceLeaseGrant := ld_head (cn_lease d) !! streamId.

(** Insert a receipt and make it the head. *)
Definition advance_history r (message : string) : tx ControlDb unit :=
  let! n := insert_cutover_history r in
  tlift (require (bool_decide (n = 1%Z)) message).
Definition advance_head r (digest message : string) : tx ControlDb unit :=
  let! n := update_cutover_head r digest in
  tlift (require (bool_decide (n = 1%Z)) message).

(** Every field of the intent but the stream, which the row was found by. *)
Definition same_intent i j : bool :=
  (bool_decide (ci_commandId i = ci_commandId j) && bool_decide (ci_previousEpoch i = ci_previousEpoch j) &&
   bool_decide (ci_targetEpoch i = ci_targetEpoch j) && bool_decide (ci_targetNodeId i = ci_targetNodeId j) &&
   bool_decide (ci_targetSourceEpoch i = ci_targetSourceEpoch j) && bool_decide (ci_manifestDigest i = ci_manifestDigest j) &&
   bool_decide (ci_finalSourceSequence i = ci_finalSourceSequence j) && bool_decide (ci_stateDigest i = ci_stateDigest j) &&
   bool_decide (ci_redisClaimDigest i = ci_redisClaimDigest j) && bool_decide (ci_oldLeaseDigest i = ci_oldLeaseDigest j) &&
   bool_decide (ci_oldLeaseExpiresAtMs i = ci_oldLeaseExpiresAtMs j) &&
   bool_decide (ci_sourceTransactionWindowMs i = ci_sourceTransactionWindowMs j))%bool.

Definition witness_epoch (witness : option (Z * string)) (min : Z) : exc Z :=
  match witness with Some (e, _) => safe_field e "witnessEpoch" min MAX_EPOCH | None => Ret 0%Z end.
Definition zero_digest : string := unchars (replicate 64 "0"%char).

Section controller.
Variables (resolver : string → option KeyObject) (guardKeyId : string) (guardKey : KeyObject) (maxClockSkewMs : Z).

(** The admission of a new intent after [current], or of the first one. *)
Definition admit_intent (current : option CutoverReceipt) i : tx ControlDb CutoverReceipt :=
  let! witness := tread (λ d, cn_witness d !! ci_streamId i) in
  let! epoch := tlift (witness_epoch witness 0) in
  if decide (epoch ≠ ci_previousEpoch i) then tlift (contract_error "cutover does not advance the external epoch witness") else
  do! (match witness with
       | None => λ d, (set_witness (<[ci_streamId i := (0%Z, zero_digest)]> (cn_witness d)) d, Ret tt)
       | Some _ => tret tt
       end) in
  let! preparing := tlift (signCutoverReceipt guardKeyId guardKey i "PREPARING" (cr_stateDigestSigned <$> current)) in
  do! tlift (verifyCutoverReceipt resolver preparing) in
  do! advance_history preparing "cutover history insert failed" in
  do! (match current with
       | None =>
           let! n := insert_cutover_head preparing in
           tlift (require (bool_decide (n = 1%Z)) "cutover head insert failed")
       | Some c => advance_head preparing (cr_stateDigestSigned c) "cutover admission forward-CAS failed"
       end) in
  tret preparing.

Definition begin_tx i : tx ControlDb CutoverReceipt :=
  let! head := tread (λ d, cn_head d !! ci_streamId i) in
  match head with
  | None => admit_intent None i
  | Some row =>
      let! current := tlift (cutoverFromRow row) in
      do! tlift (verifyCutoverReceipt resolver current) in
      if same_intent (cr_intent current) i then tret current
      else if decide (cr_phase current ≠ "ACTIVE" ∨ ci_previousEpoch i ≠ ci_targetEpoch (cr_intent current))
      then tlift (contract_error "another cutover intent is already authoritative")
      else admit_intent (Some current) i
  end.

(** The evidence that the old source is fenced: its lease, the clock of the control
    database, the majority of the Redis members. *)
Definition check_old_lease i (now : Z) d : exc unit :=
  match lease_head (ci_streamId i) d with
  | None => contract_error "old source lease evidence missing"
  | Some row =>
      lease ← leaseFromRow row;
      _ ← verifySourceLeaseGrant resolver lease;
      _ ← require (bool_decide (sl_status lease = "revoked" ∧ sl_grantDigest lease = ci_oldLeaseDigest i ∧
                     sl_epoch lease = ci_previousEpoch i ∧ sl_expiresAtMs lease = ci_oldLeaseExpiresAtMs i ∧
                     sl_maxTransactionDurationMs lease = ci_sourceTransactionWindowMs i))
            "old source lease is not exactly revoked or its transaction window is not bound";
      controlNow ← safe_field now "control clock" 0 MAX_MS;
      require (bool_decide (sl_expiresAtMs lease + maxClockSkewMs + ci_sourceTransactionWindowMs i <= controlNow)%Z)
        "old source lease expiry plus signed transaction window has not been proven"
  end.
Definition check_redis i (quorum : option (exc jsval)) : exc unit :=
  match quorum with
  | None => contract_error "Redis quorum required"
  | Some answer =>
      redis ← answer;
      if decide (field redis "streamId" = JStr (ci_streamId i) ∧ field redis "epoch" = JNum (int (ci_targetEpoch i)) ∧
                 field redis "nodeId" = JStr (ci_targetNodeId i) ∧ field redis "commandId" = JStr (ci_commandId i)) then
        digest ← redisFenceRecordDigest redis;
        require (bool_decide (digest = ci_redisClaimDigest i)) "Redis quorum does not match the signed cutover intent"
      else contract_error "Redis quorum does not match the signed cutover intent"
  end.
Definition check_fenced_retry (current : CutoverReceipt) d : exc unit :=
  verified ← verifyCutoverChain resolver (stream_of current) d;
  match verified, cn_witness d !! stream_of current with
  | Some v, Some (epoch, digest) =>
      if decide (cr_stateDigestSigned v ≠ cr_stateDigestSigned current)
      then contract_error "FENCED retry lost its signed PostgreSQL witness" else
      e ← safe_field epoch "witnessEpoch" 1 MAX_EPOCH;
      require (bool_decide (e = ci_targetEpoch (cr_intent current) ∧ digest = cr_stateDigestSigned current))
        "FENCED retry lost its signed PostgreSQL witness"
  | _, _ => contract_error "FENCED retry lost its signed PostgreSQL witness"
  end.

(** [UPDATE bpc_ha.epoch_witness ... WHERE stream_id=$1 AND epoch=$4] *)
Definition update_witness (streamId : string) (epoch : Z) (digest : string) (previous : Z) : tx ControlDb Z := λ d,
  match cn_witness d !! streamId with
  | Some (e, _) =>
      if decide (e ≠ previous) then (d, Ret 0%Z)
      else if (bool_decide (0 <= epoch <= MAX_EPOCH)%Z && HEX64 digest)%bool
      then (set_witness (<[streamId := (epoch, digest)]> (cn_witness d)) d, Ret 1%Z)
      else (d, Throw (PgError "new row violates check constraint"))
  | None => (d, Ret 0%Z)
  end.

(** The signed step of [current] to the phase. *)
Definition advance (current : CutoverReceipt) (phase : string) : tx ControlDb CutoverReceipt :=
  let! next := tlift (signCutoverReceipt guardKeyId guardKey (cr_intent current) phase (Some (cr_stateDigestSigned current))) in
  do! advance_history next "cutover history transition failed" in
  do! advance_head next (cr_stateDigestSigned current) "cutover head forward-CAS failed" in
  do! (if decide (phase = "FENCED") then
         let! n := update_witness (stream_of next) (ci_targetEpoch (cr_intent next)) (cr_stateDigestSigned next)
                     (ci_previousEpoch (cr_intent next)) in
         tlift (require (bool_decide (n = 1%Z)) "epoch witness forward-CAS failed")
       else tret tt) in
  tret next.

Definition head_of_command (commandId : string) d : option CutoverReceipt :=
  snd <$> List.find (λ kr : string * CutoverReceipt, bool_decide (command_of kr.2 = commandId)) (map_to_list (cn_head d)).

(** [transition(commandId, 'FENCED', quorum)] *)
Definition fence_tx (now : Z) (quorum : option (exc jsval)) (commandId : string) : tx ControlDb CutoverReceipt :=
  let! row := tread (head_of_command commandId) in
  match row with
  | None => tlift (contract_error "cutover intent missing")
  | Some row =>
      let! current := tlift (cutoverFromRow row) in
      do! tlift (verifyCutoverReceipt resolver current) in
      if negb (cutover_phase (cr_phase current)) then tlift (contract_error "cutover phase transition out of order") else
      let! checked := tread (check_old_lease (cr_intent current) now) in
      do! tlift checked in
      do! tlift (check_redis (cr_intent current) quorum) in
      if (bool_decide (cr_phase current = "FENCED") || bool_decide (cr_phase current = "ACTIVE"))%bool then
        let! retry := tread (check_fenced_retry current) in
        do! tlift retry in
        tret current
      else advance current "FENCED"
  end.

(** [transition(commandId, 'ACTIVE')] *)
Definition activate_tx (commandId : string) : tx ControlDb CutoverReceipt :=
  let! row := tread (head_of_command commandId) in
  match row with
  | None => tlift (contract_error "cutover intent missing")
  | Some row =>
      let! current := tlift (cutoverFromRow row) in
      do! tlift (verifyCutoverReceipt resolver current) in
      if decide (cr_phase current = "ACTIVE") then tret current
      else if decide (cr_phase current ≠ "FENCED") then tlift (contract_error "cutover phase transition out of order")
      else advance current "ACTIVE"
  end.

(** The transactions of [markActive] before its transition. *)
Definition read_head_tx (commandId : string) : tx ControlDb CutoverReceipt :=
  let! row := tread (head_of_command commandId) in
  match row with
  | None => tlift (contract_error "cutover intent missing")
  | Some row => tlift (cutoverFromRow row)
  end.
Definition attestation_matches (commandId : string) (a : PromotionReadinessAttestation) d : bool :=
  match cn_attestation d !! commandId with
  | Some e => bool_decide (pa_attestationDigest e = pa_attestationDigest a)
  | None => false
  end.
Definition insert_attestation_tx (commandId : string) (a : PromotionReadinessAttestation) : tx ControlDb unit := λ d,
  if negb (HEX64 (pa_attestationDigest a)) then (d, Throw (PgError "new row violates check constraint"))
  else match cn_attestation d !! commandId with
       | None => (set_attestation (<[commandId := a]> (cn_attestation d)) d, Ret tt)
       | Some _ => (d, require (attestation_matches commandId a d) "conflicting promotion readiness attestation")
       end.

Definition binds (a : PromotionReadinessAttestation) (commandId : string) r : bool :=
  let i := cr_intent r in
  (bool_decide (cr_phase r = "FENCED") && bool_decide (pa_commandId a = commandId) && bool_decide (pa_streamId a = ci_streamId i) &&
   bool_decide (pa_targetEpoch a = ci_targetEpoch i) && bool_decide (pa_targetSourceEpoch a = ci_targetSourceEpoch i) &&
   bool_decide (pa_manifestDigest a = ci_manifestDigest i) && bool_decide (pa_appliedSequence a = ci_finalSourceSequence i) &&
   bool_decide (pa_stateDigest a = ci_stateDigest i) && bool_decide (pa_fencedDigest a = cr_stateDigestSigned r))%bool.

(** The signer of the attestation is another authority than the guard. *)
Definition independent_signer (export_der : KeyObject → string) (sourceResolver : string → option KeyObject)
    (a : PromotionReadinessAttestation) (head : CutoverReceipt) : exc unit :=
  let refuse := contract_error "promotion readiness must be signed by the independent snapshot authority" in
  if decide (pa_keyId a ≠ pa_snapshotKeyId a ∨ pa_keyId a = cr_keyId head) then refuse else
  f ← publicKeyFingerprint export_der sourceResolver (pa_keyId a);
  g ← publicKeyFingerprint export_der resolver (cr_keyId head);
  if decide (f = g) then refuse else Ret tt.

Definition in_tx {B} (f : fate) (t : tx ControlDb B) : proc ControlDb (exc B) := call (transaction f t).

(** [markActive]; [f1], [f2] and [f3] are the fates of its transactions. *)
Definition markActive (export_der : KeyObject → string) (sourceResolver : string → option KeyObject) (f1 f2 f3 : fate)
    (commandId : string) (a : PromotionReadinessAttestation) : proc ControlDb (exc CutoverReceipt) :=
  let+ _ := Done (verifyPromotionReadinessAttestation sourceResolver a) in
  let+ head := in_tx f1 (read_head_tx commandId) in
  let+ _ := Done (verifyCutoverReceipt resolver head) in
  let+ _ := Done (independent_signer export_der sourceResolver a head) in
  if decide (cr_phase head = "ACTIVE") then
    let+ ok := in_tx f2 (tread (attestation_matches commandId a)) in
    if (ok : bool) then Done (Ret head) else Done (contract_error "ACTIVE retry has conflicting readiness evidence")
  else if binds a commandId head then
    let+ _ := in_tx f2 (insert_attestation_tx commandId a) in
    in_tx f3 (activate_tx commandId)
  else Done (contract_error "promotion readiness attestation does not bind the FENCED cutover").

(** ** PgRedisFenceWitness *)

Definition bootstrapGenesis (record : RedisFenceRecord) : exc (tx ControlDb unit) :=
  _ ← require (bool_decide (rf_epoch record = 1%Z)) "Redis genesis must be epoch 1";
  m ← redisFenceMessage (fence_value record);
  _ ← verify resolver (rf_keyId record) m (rf_signature record);
  digest ← redisFenceRecordDigest (fence_value record);
  Ret (λ d,
    match cn_witness d !! rf_streamId record with
    | None =>
        if HEX64 digest then (set_witness (<[rf_streamId record := (1%Z, digest)]> (cn_witness d)) d, Ret tt)
        else (d, Throw (PgError "new row violates check constraint"))
    | Some (epoch, stored) =>
        (d, e ← safe_field epoch "genesis witness epoch" 1 MAX_EPOCH;
            require (bool_decide (e = 1%Z ∧ stored = digest)) "conflicting governed Redis genesis")
    end).

Definition conflicting {A} : exc A := contract_error "Redis fence epoch is rollback, unapproved future, or conflicting".
(** [s.slice(0, 12)] *)
Definition short (s : string) : string := unchars (take 12 (chars s)).
Definition is_null (v : jsval) : bool := match v with JNull | JUndef => true | _ => false end.

(** [verify(record)]: the transaction reads only. *)
Definition witness_verify (record : jsval) d : exc unit :=
  _ ← require (negb (is_null record)) "empty Redis fence state is not authoritative";
  streamId ← js_to_string (field record "streamId");
  let witness := cn_witness d !! streamId in
  epoch ← witness_epoch witness 0;
  if decide (epoch = 0%Z) then contract_error "Redis genesis is not governed by a signed PostgreSQL witness" else
  let digest := default EmptyString (snd <$> witness) in
  let at_epoch (e : Z) := bool_decide (field record "epoch" = JNum (int e)) in
  let headRow := cn_head d !! streamId in
  if (at_epoch epoch && bool_decide (epoch = 1%Z) && negb (bool_decide (is_Some headRow)))%bool then
    actual ← redisFenceRecordDigest record;
    require (bool_decide (digest = actual)) "Redis genesis disagrees with the external witness"
  else if negb (bool_decide (is_Some headRow)) then contract_error "cutover authority head missing" else
  chain ← verifyCutoverChain resolver streamId d;
  match chain with
  | None => contract_error "cutover authority chain missing"
  | Some head =>
      if at_epoch epoch then
        match List.find (λ r, bool_decide (ci_targetEpoch (cr_intent r) = epoch ∧ cr_phase r = "FENCED")) (cutover_rows streamId d) with
        | None => contract_error "signed FENCED witness history missing"
        | Some row =>
            fenced ← cutoverFromRow row;
            _ ← verifyCutoverReceipt resolver fenced;
            actual ← redisFenceRecordDigest record;
            require (bool_decide (digest = cr_stateDigestSigned fenced ∧ actual = ci_redisClaimDigest (cr_intent fenced)))
              ("Redis authority disagrees with signed epoch witness (witness=" +:+ short digest +:+ ", fenced=" +:+
               short (cr_stateDigestSigned fenced) +:+ ", redis=" +:+ short actual +:+ ", expected=" +:+
               short (ci_redisClaimDigest (cr_intent fenced)) +:+ ")")
        end
      else if (at_epoch (epoch + 1)%Z && bool_decide (cr_phase head = "PREPARING") &&
               bool_decide (ci_targetEpoch (cr_intent head) = epoch + 1)%Z)%bool then
        actual ← redisFenceRecordDigest record;
        if decide (ci_redisClaimDigest (cr_intent head) = actual) then Ret tt else conflicting
      else conflicting
  end.
End controller.
End receipts.
