(* ===== verification/CutoverSafety.v ===== *)
(** * What the cutover history guarantees

    However the controllers, the guards and the environment move, the receipts of a
    stream go through PREPARING, FENCED and ACTIVE one intent at a time, each intent
    takes the stream exactly one epoch further, and the witness of the epoch fenced
    last only grows. *)

From S2P Require Import Prelude Proc JsNum Encoding Json JsText Crypto OutboxContract OutboxDigest OutboxPg OutboxPgFacts HttpTransport HaSigned RedisFence SourceLease LeaseSafety Cutover.
From stdpp Require Import base strings list gmap sorting relations.
From Stdlib Require Import ZArith Lia.

Local Open Scope string_scope.
Local Open Scope bpc_scope.

Section safety.
Context `{WC : WebCrypto} `{NB : NodeBuffer} `{ED : Ed25519}.
Implicit Types (r : CutoverReceipt) (d : ControlDb) (resolver : string → option KeyObject).

(** ** The lifecycle *)

Definition receipt_sealed r : Prop := ∃ m,
  cutoverMessage (cr_intent r) (cr_phase r) (cr_prevStateDigest r) EmptyString = Ret m ∧ sha256_hex m = cr_stateDigestSigned r.

(** The phase a receipt is in after another of the same intent, or of the next. *)
Definition next_phase (c r : CutoverReceipt) : Prop :=
  (cr_phase c = "PREPARING" ∧ cr_phase r = "FENCED" ∧ cr_intent r = cr_intent c) ∨
  (cr_phase c = "FENCED" ∧ cr_phase r = "ACTIVE" ∧ cr_intent r = cr_intent c) ∨
  (cr_phase c = "ACTIVE" ∧ cr_phase r = "PREPARING" ∧ ci_previousEpoch (cr_intent r) = ci_targetEpoch (cr_intent c)).

Definition follows (prev : option CutoverReceipt) r : Prop :=
  receipt_sealed r ∧ ci_targetEpoch (cr_intent r) = (ci_previousEpoch (cr_intent r) + 1)%Z ∧
  cr_prevStateDigest r = cr_stateDigestSigned <$> prev ∧
  match prev with None => cr_phase r = "PREPARING" | Some c => next_phase c r end.

Fixpoint lifecycle (prev : option CutoverReceipt) (rows : list CutoverReceipt) : Prop :=
  match rows with [] => True | r :: rows => follows prev r ∧ lifecycle (Some r) rows end.

(** The epoch that is fenced when [r] is the head, and the digest of its witness. *)
Definition fenced_epoch r : Z :=
  if decide (cr_phase r = "PREPARING") then ci_previousEpoch (cr_intent r) else ci_targetEpoch (cr_intent r).
Definition witness_ok (head : option CutoverReceipt) (w : option (Z * string)) : Prop :=
  match head with
  | None => ∀ e dg, w = Some (e, dg) → e = 1%Z
  | Some r => ∃ dg, w = Some (fenced_epoch r, dg) ∧ (cr_phase r = "FENCED" → dg = cr_stateDigestSigned r) ∧
      (cr_phase r = "ACTIVE" → cr_prevStateDigest r = Some dg)
  end.

Definition cutover_inv d : Prop := ∀ s,
  lifecycle None (cutover_rows s d) ∧ cn_head d !! s = last (cutover_rows s d) ∧ witness_ok (cn_head d !! s) (cn_witness d !! s).

(** One transaction on the control database: an installation of a lease, a genesis,
    or a step of some controller, whatever its fate. *)
Inductive control_step d : ControlDb → Prop :=
  | step_lease l : lease_step (cn_lease d) l → control_step d (set_lease_db l d)
  | step_begin resolver key_id key i f : control_step d (transaction f (begin_tx resolver key_id key i) d).1
  | step_fence resolver key_id key skew now quorum command f :
      control_step d (transaction f (fence_tx resolver key_id key skew now quorum command) d).1
  | step_active resolver key_id key command f : control_step d (transaction f (activate_tx resolver key_id key command) d).1
  | step_attest command a f : control_step d (transaction f (insert_attestation_tx command a) d).1
  | step_genesis resolver record t f : bootstrapGenesis resolver record = Ret t → control_step d (transaction f t d).1.

(** ** The statements *)

Lemma cutoverFromRow_Ret row r : cutoverFromRow row = Ret r → r = row.
Proof.
  unfold cutoverFromRow. intros H. do 5 (apply exc_bind_Ret in H as (? & (-> & _)%safe_field_Ret & H)).
  destruct row as [[] ]. by injection H as <-.
Qed.

Lemma signCutover_Ret key_id key i phase prev r : signCutoverReceipt key_id key i phase prev = Ret r →
  cr_intent r = i ∧ cr_phase r = phase ∧ cr_prevStateDigest r = prev ∧ receipt_sealed r ∧
  ci_targetEpoch i = (ci_previousEpoch i + 1)%Z.
Proof.
  unfold signCutoverReceipt. intros ([] & Hv & H)%exc_bind_Ret. apply exc_bind_Ret in H as (m & Hm & H).
  apply exc_bind_Ret in H as (m' & _ & H). apply exc_bind_Ret in H as (s & _ & [= <-]). split_and!; [done|done|done|by exists m|].
  unfold validateBareCutover in Hv. do 10 (apply exc_bind_Ret in Hv as (? & _ & Hv)).
  apply exc_bind_Ret in Hv as ([] & Hr%require_Ret & _). by apply bool_decide_eq_true in Hr.
Qed.

Lemma insert_cutover_history_Ret r d d' n : insert_cutover_history r d = (d', Ret n) → d' = set_cutover_history (cn_history d ++ [r])%list d.
Proof. unfold insert_cutover_history. destruct (negb _); [done|]. destruct (existsb _ _); [done|]. by intros [= <- _]. Qed.
Lemma insert_cutover_head_Ret r d d' n : insert_cutover_head r d = (d', Ret n) → d' = set_cutover_head (<[stream_of r := r]> (cn_head d)) d.
Proof. unfold insert_cutover_head. destruct (negb _); [done|]. destruct (_ || _)%bool; [done|]. by intros [= <- _]. Qed.
Lemma update_cutover_head_Ret r dg d d' : update_cutover_head r dg d = (d', Ret 1%Z) → d' = set_cutover_head (<[stream_of r := r]> (cn_head d)) d.
Proof.
  unfold update_cutover_head. destruct (cn_head d !! _); [|done]. case_decide; [done|]. destruct (negb _); [done|].
  destruct (command_taken r d); [done|]. by intros [= <-].
Qed.

Lemma one_row_Ret (n : Z) msg d d' : tlift (require (bool_decide (n = 1%Z)) msg) d = (d', Ret tt) → n = 1%Z ∧ d' = d.
Proof. by intros [Hn%require_Ret%bool_decide_eq_true ->]%tlift_Ret. Qed.
Lemma advance_history_Ret r msg d d' : advance_history r msg d = (d', Ret tt) → d' = set_cutover_history (cn_history d ++ [r])%list d.
Proof. unfold advance_history. by intros (s & n & ->%insert_cutover_history_Ret & [_ ->]%one_row_Ret)%tbind_Ret. Qed.
Lemma advance_head_Ret r dg msg d d' : advance_head r dg msg d = (d', Ret tt) → d' = set_cutover_head (<[stream_of r := r]> (cn_head d)) d.
Proof. unfold advance_head. by intros (s & n & Hu & [-> ->]%one_row_Ret)%tbind_Ret; apply update_cutover_head_Ret in Hu. Qed.

Lemma update_witness_Ret s e dg p d d' : update_witness s e dg p d = (d', Ret 1%Z) →
  d' = set_witness (<[s := (e, dg)]> (cn_witness d)) d ∧ ∃ dg', cn_witness d !! s = Some (p, dg').
Proof.
  unfold update_witness. destruct (cn_witness d !! s) as [[e' dg']|]; [|done]. case_decide as He; [done|].
  destruct (_ && _)%bool; [|done]. intros [= <-]. split; [done|]. exists dg'. naive_solver.
Qed.

Lemma head_of_command_elem command d r : head_of_command command d = Some r → ∃ s, cn_head d !! s = Some r ∧ command_of r = command.
Proof.
  unfold head_of_command. destruct (List.find _ _) as [[s x]|] eqn:Hf; [|done]. intros [= <-]. apply List.find_some in Hf as [Hin Hc].
  exists s. split; [by apply elem_of_map_to_list, list_elem_of_In|]. by apply bool_decide_eq_true in Hc.
Qed.

(** What an advance of the head did: the receipt is appended, it becomes the head, and
    the witness moves when it is FENCED. *)
Definition advanced (w : option (Z * string)) r d : ControlDb :=
  let d := set_cutover_history (cn_history d ++ [r])%list d in
  let d := set_cutover_head (<[stream_of r := r]> (cn_head d)) d in
  match w with None => d | Some x => set_witness (<[stream_of r := x]> (cn_witness d)) d end.

Lemma advance_Ret key_id key c phase d d' r : advance key_id key c phase d = (d', Ret r) →
  cr_intent r = cr_intent c ∧ cr_phase r = phase ∧ cr_prevStateDigest r = Some (cr_stateDigestSigned c) ∧ receipt_sealed r ∧
  ci_targetEpoch (cr_intent r) = (ci_previousEpoch (cr_intent r) + 1)%Z ∧
  d' = advanced (if decide (phase = "FENCED") then Some (ci_targetEpoch (cr_intent r), cr_stateDigestSigned r) else None) r d.
Proof.
  unfold advance. intros (s1 & x & ((Hi & Hp & Hpr & Hs & Ht)%signCutover_Ret & ->)%tlift_Ret & H)%tbind_Ret.
  apply tbind_Ret in H as (s2 & [] & ->%advance_history_Ret & H). apply tbind_Ret in H as (s3 & [] & ->%advance_head_Ret & H).
  apply tbind_Ret in H as (s4 & [] & Hw & [-> ->]%tret_Ret). split_and!; [done..|congruence|]. unfold advanced.
  case_decide; [|by apply tret_Ret in Hw as [_ ->]].
  apply tbind_Ret in Hw as (s5 & n & Hu & [-> ->]%one_row_Ret). by apply update_witness_Ret in Hu as [-> _].
Qed.

Lemma fence_tx_Ret resolver key_id key skew now quorum command d d' r :
  fence_tx resolver key_id key skew now quorum command d = (d', Ret r) →
  ∃ s c, cn_head d !! s = Some c ∧ cr_intent r = cr_intent c ∧ cutover_phase (cr_phase c) = true ∧
    check_old_lease resolver skew (cr_intent c) now d = Ret tt ∧ check_redis (cr_intent c) quorum = Ret tt ∧
    (d' = d ∧ r = c ∧ (cr_phase c = "FENCED" ∨ cr_phase c = "ACTIVE") ∧ check_fenced_retry resolver c d = Ret tt ∨
     cr_phase c ≠ "FENCED" ∧ cr_phase c ≠ "ACTIVE" ∧ advance key_id key c "FENCED" d = (d', Ret r)).
Proof.
  unfold fence_tx. intros (s1 & row & [-> ->]%tread_Ret & H)%tbind_Ret. destruct (head_of_command command d) as [c|] eqn:Hc; [|by apply tlift_Ret in H as [? _]].
  apply head_of_command_elem in Hc as (s & Hs & _). apply tbind_Ret in H as (s2 & x & (->%cutoverFromRow_Ret & ->)%tlift_Ret & H).
  apply tbind_Ret in H as (s3 & [] & (_ & ->)%tlift_Ret & H). destruct (cutover_phase (cr_phase c)) eqn:Hph; [|by apply tlift_Ret in H as [? _]].
  cbn [negb] in H. apply tbind_Ret in H as (s4 & x & [-> ->]%tread_Ret & H). apply tbind_Ret in H as (s5 & [] & [Hl ->]%tlift_Ret & H).
  apply tbind_Ret in H as (s6 & [] & [Hr ->]%tlift_Ret & H). exists s, c. destruct (_ || _)%bool eqn:Hp.
  - apply tbind_Ret in H as (s7 & x & [-> ->]%tread_Ret & H). apply tbind_Ret in H as (s8 & [] & [Hv ->]%tlift_Ret & [-> ->]%tret_Ret).
    split_and!; [done..|]. left. split_and!; [done..| |done]. apply orb_true_iff in Hp as [Hp|Hp]; apply bool_decide_eq_true in Hp; auto.
  - pose proof (advance_Ret _ _ _ _ _ _ _ H) as (Hi & _). split_and!; [done..|]. right. btrue. by split_and!.
Qed.

Lemma activate_tx_Ret resolver key_id key command d d' r : activate_tx resolver key_id key command d = (d', Ret r) →
  ∃ s c, cn_head d !! s = Some c ∧ (d' = d ∧ r = c ∨ cr_phase c = "FENCED" ∧ advance key_id key c "ACTIVE" d = (d', Ret r)).
Proof.
  unfold activate_tx. intros (s1 & row & [-> ->]%tread_Ret & H)%tbind_Ret. destruct (head_of_command command d) as [c|] eqn:Hc; [|by apply tlift_Ret in H as [? _]].
  apply head_of_command_elem in Hc as (s & Hs & _). apply tbind_Ret in H as (s2 & x & (->%cutoverFromRow_Ret & ->)%tlift_Ret & H).
  apply tbind_Ret in H as (s3 & [] & (_ & ->)%tlift_Ret & H). exists s, c. split; [done|]. case_decide; [left; by apply tret_Ret in H as [-> ->]|].
  case_decide as Hf; [by apply tlift_Ret in H as [? _]|]. right. by split.
Qed.

Lemma witness_epoch_Ret w min e : witness_epoch w min = Ret e → match w with Some (e', _) => e' = e | None => e = 0%Z end.
Proof. destruct w as [[e' dg]|]; cbn [witness_epoch]; [by intros [-> _]%safe_field_Ret|by intros [= <-]]. Qed.

(** The witness of the receipt's stream after it. *)
Definition witness_after (w : option (Z * string)) r d : option (Z * string) :=
  match w with Some x => Some x | None => cn_witness d !! stream_of r end.

Lemma admit_Ret resolver key_id key c i d d' r : admit_intent resolver key_id key c i d = (d', Ret r) →
  cr_intent r = i ∧ cr_phase r = "PREPARING" ∧ cr_prevStateDigest r = cr_stateDigestSigned <$> c ∧ receipt_sealed r ∧
  ci_targetEpoch i = (ci_previousEpoch i + 1)%Z ∧
  ∃ w dg, d' = advanced w r d ∧ witness_after w r d = Some (ci_previousEpoch i, dg) ∧
    default 0%Z (fst <$> cn_witness d !! stream_of r) = ci_previousEpoch i.
Proof.
  unfold admit_intent. intros (s1 & x & [-> ->]%tread_Ret & H)%tbind_Ret.
  apply tbind_Ret in H as (s2 & e & (He%witness_epoch_Ret & ->)%tlift_Ret & H). case_decide as Hep; [by apply tlift_Ret in H as [? _]|].
  apply tbind_Ret in H as (s3 & [] & Hw & H).
  apply tbind_Ret in H as (s4 & x & ((Hi & Hp & Hpr & Hs & Ht)%signCutover_Ret & ->)%tlift_Ret & H).
  apply tbind_Ret in H as (s5 & [] & (_ & ->)%tlift_Ret & H). apply tbind_Ret in H as (s6 & [] & ->%advance_history_Ret & H).
  apply tbind_Ret in H as (s7 & [] & Hh & [-> ->]%tret_Ret).
  assert (s7 = set_cutover_head (<[stream_of x := x]> (cn_head s3)) (set_cutover_history (cn_history s3 ++ [x])%list s3)) as ->.
  { destruct c; [by apply advance_head_Ret in Hh|]. apply tbind_Ret in Hh as (s8 & n & Hu%insert_cutover_head_Ret & [_ ->]%one_row_Ret). done. }
  clear Hh. split_and!; [done..|]. assert (stream_of x = ci_streamId i) as Hst by (unfold stream_of; by rewrite Hi).
  destruct (cn_witness d !! ci_streamId i) as [[e' dg]|] eqn:Hwit.
  - apply tret_Ret in Hw as [_ ->]. exists None, dg. split; [done|]. unfold witness_after. rewrite Hst, Hwit. cbn.
    by assert (e' = ci_previousEpoch i) as -> by congruence.
  - injection Hw as <-. exists (Some (0%Z, zero_digest)), zero_digest. split; [unfold advanced; by rewrite <-Hst|].
    unfold witness_after. rewrite Hst, Hwit. cbn. by assert (ci_previousEpoch i = 0%Z) as -> by congruence.
Qed.

(** ** The invariant *)

Lemma lifecycle_app prev rows r : lifecycle prev (rows ++ [r])%list ↔
  lifecycle prev rows ∧ follows (match last rows with None => prev | Some c => Some c end) r.
Proof.
  revert prev. induction rows as [|x rows IH]; intros prev; simpl; [tauto|]. rewrite IH. destruct rows as [|y rows]; [simpl; tauto|].
  rewrite last_cons_cons. destruct (last (y :: rows)) eqn:Hl; [tauto|]. by apply last_None in Hl.
Qed.

Lemma cutover_rows_advanced s w r d : cutover_rows s (advanced w r d) =
  (cutover_rows s d ++ (if decide (stream_of r = s) then [r] else []))%list.
Proof. unfold cutover_rows, advanced. destruct w; cbn [cn_history set_cutover_history set_cutover_head set_witness]; rewrite filter_app; f_equal. Qed.
Lemma head_advanced w r d : cn_head (advanced w r d) = <[stream_of r := r]> (cn_head d).
Proof. by destruct w. Qed.
Lemma witness_advanced w r d s : cn_witness (advanced w r d) !! s =
  if decide (stream_of r = s) then witness_after w r d else cn_witness d !! s.
Proof.
  unfold advanced, witness_after. destruct w as [x|]; cbn [cn_witness set_witness set_cutover_head set_cutover_history].
  - case_decide as Hs; [subst; by rewrite lookup_insert_eq|by rewrite lookup_insert_ne].
  - case_decide as Hs; [by subst|done].
Qed.

Lemma advanced_inv w r d : cutover_inv d → follows (cn_head d !! stream_of r) r → witness_ok (Some r) (witness_after w r d) →
  cutover_inv (advanced w r d).
Proof.
  intros Hinv Hf Hw s. rewrite cutover_rows_advanced, head_advanced, witness_advanced. destruct (Hinv s) as (Hl & Hh & Hs).
  case_decide as Heq; [subst s|by rewrite app_nil_r, lookup_insert_ne].
  rewrite lookup_insert_eq, last_snoc. split_and!; [|done|done]. apply lifecycle_app. split; [done|].
  rewrite <-Hh. by destruct (cn_head d !! stream_of r).
Qed.

Lemma head_stream d s c : cutover_inv d → cn_head d !! s = Some c → stream_of c = s ∧ c ∈ cutover_rows s d.
Proof.
  intros Hinv Hc. destruct (Hinv s) as (_ & Hh & _). rewrite Hc in Hh. symmetry in Hh. apply last_Some_elem_of in Hh.
  split; [|done]. by apply list_elem_of_filter in Hh as [? _].
Qed.

Definition witness_at (s : string) d : Z := default 0%Z (fst <$> cn_witness d !! s).
(** The history is only appended to, the fenced epoch does not go back, and the
    leases move by installations. *)
Definition grows d d' : Prop :=
  (∃ l, cn_history d' = (cn_history d ++ l)%list) ∧ (∀ s, (witness_at s d <= witness_at s d')%Z) ∧
  rtc lease_step (cn_lease d) (cn_lease d').

#[export] Instance grows_preorder : PreOrder grows.
Proof.
  split; [intros d; split_and!; [exists []; by rewrite app_nil_r|done..]|].
  intros d1 d2 d3 ([l1 H1] & W1 & L1) ([l2 H2] & W2 & L2). split_and!; [exists (l1 ++ l2)%list; by rewrite H2, H1, <-app_assoc| |by etrans].
  intros s. etrans; [apply W1|apply W2].
Qed.

Lemma advanced_grows w r d e dg : witness_after w r d = Some (e, dg) → (witness_at (stream_of r) d <= e)%Z → grows d (advanced w r d).
Proof.
  intros Hw He. split_and!; [exists [r]; unfold advanced; by destruct w| |unfold advanced; by destruct w]. intros s. unfold witness_at at 2. rewrite witness_advanced.
  case_decide as Hs; [subst s; by rewrite Hw|done].
Qed.

Lemma admit_step resolver key_id key c i d d' r : cutover_inv d → cn_head d !! ci_streamId i = c →
  (∀ x, c = Some x → cr_phase x = "ACTIVE" ∧ ci_previousEpoch i = ci_targetEpoch (cr_intent x)) →
  admit_intent resolver key_id key c i d = (d', Ret r) → cutover_inv d' ∧ grows d d'.
Proof.
  intros Hinv Hc Hx (Hi & Hp & Hpr & Hs & Ht & w & dg & -> & Hw & Hb)%admit_Ret.
  assert (stream_of r = ci_streamId i) as Hst by (unfold stream_of; by rewrite Hi). split.
  - apply advanced_inv; [done| |].
    + rewrite Hst, Hc. split_and!; [done|by rewrite Hi|done|]. destruct c as [c|]; [|done]. destruct (Hx c eq_refl).
      right; right. rewrite Hi. done.
    + exists dg. rewrite Hw. unfold fenced_epoch. rewrite Hp, decide_True, Hi by done. split_and!; done.
  - eapply advanced_grows; [exact Hw|]. unfold witness_at. by rewrite Hb.
Qed.

Lemma begin_step resolver key_id key i d d' r : cutover_inv d → begin_tx resolver key_id key i d = (d', Ret r) →
  cutover_inv d' ∧ grows d d'.
Proof.
  intros Hinv (s1 & x & [-> ->]%tread_Ret & H)%tbind_Ret. destruct (cn_head d !! ci_streamId i) as [c|] eqn:Hc.
  - apply tbind_Ret in H as (s2 & x & (->%cutoverFromRow_Ret & ->)%tlift_Ret & H). apply tbind_Ret in H as (s3 & [] & (_ & ->)%tlift_Ret & H).
    destruct (same_intent _ _); [by apply tret_Ret in H as [_ ->]|]. case_decide as Hd; [by apply tlift_Ret in H as [? _]|].
    eapply admit_step; [done|exact Hc| |exact H]. intros x [= <-]. split; [destruct (decide (cr_phase c = "ACTIVE")); naive_solver|].
    destruct (decide (ci_previousEpoch i = ci_targetEpoch (cr_intent c))); naive_solver.
  - by eapply admit_step; [| |..|exact H].
Qed.

Lemma phase_preparing c : cutover_phase (cr_phase c) = true → cr_phase c ≠ "FENCED" → cr_phase c ≠ "ACTIVE" → cr_phase c = "PREPARING".
Proof.
  intros H%bool_decide_eq_true H1 H2. rewrite !elem_of_cons in H. destruct H as [H|[H|[H|H]]]; [done..|]. by apply not_elem_of_nil in H.
Qed.

Lemma fence_step resolver key_id key skew now quorum command d d' r : cutover_inv d →
  fence_tx resolver key_id key skew now quorum command d = (d', Ret r) → cutover_inv d' ∧ grows d d'.
Proof.
  intros Hinv (s & c & Hc & Hi & Hph & _ & _ & [(-> & _)|(Hf & Ha & Hadv)])%fence_tx_Ret; [done|].
  pose proof (phase_preparing c Hph Hf Ha) as Hprep. destruct (head_stream _ _ _ Hinv Hc) as [<- _].
  destruct (Hinv (stream_of c)) as (_ & _ & Hw). rewrite Hc in Hw. destruct Hw as (dg & Hw & _). unfold fenced_epoch in Hw. rewrite decide_True in Hw by done.
  apply advance_Ret in Hadv as (_ & Hp & Hpr & Hs & Ht & ->). rewrite decide_True by done.
  assert (stream_of r = stream_of c) as Hst by (unfold stream_of; by rewrite Hi). split.
  - apply advanced_inv; [done| |].
    + rewrite Hst, Hc. split_and!; [done..|]. by left.
    + exists (cr_stateDigestSigned r). unfold witness_after, fenced_epoch. rewrite Hp, decide_False by done. by split_and!.
  - eapply advanced_grows; [done|]. unfold witness_at. rewrite Hst, Hw. cbn. rewrite Ht, Hi. lia.
Qed.

Lemma active_step resolver key_id key command d d' r : cutover_inv d →
  activate_tx resolver key_id key command d = (d', Ret r) → cutover_inv d' ∧ grows d d'.
Proof.
  intros Hinv (s & c & Hc & [[-> _]|[Hf Hadv]])%activate_tx_Ret; [done|]. destruct (head_stream _ _ _ Hinv Hc) as [<- _].
  destruct (Hinv (stream_of c)) as (_ & _ & Hw). rewrite Hc in Hw. destruct Hw as (dg & Hw & Hdg & _). specialize (Hdg Hf).
  unfold fenced_epoch in Hw. rewrite Hf, decide_False in Hw by done. apply advance_Ret in Hadv as (Hi & Hp & Hpr & Hs & Ht & ->).
  assert (stream_of r = stream_of c) as Hst by (unfold stream_of; by rewrite Hi). rewrite decide_False by done.
  assert (witness_after None r d = Some (ci_targetEpoch (cr_intent r), dg)) as Hwa by (unfold witness_after; by rewrite Hst, Hw, Hi). split.
  - apply advanced_inv; [done| |].
    + rewrite Hst, Hc. split_and!; [done..|]. right; left. by rewrite Hi.
    + rewrite Hwa. exists dg. unfold fenced_epoch. rewrite Hp, decide_False by done. split_and!; [done|done|]. intros _. by rewrite Hpr, Hdg.
  - eapply advanced_grows; [exact Hwa|]. unfold witness_at. rewrite Hst, Hw, Hi. done.
Qed.

Lemma genesis_step resolver record t d d' : cutover_inv d → bootstrapGenesis resolver record = Ret t → t d = (d', Ret tt) →
  cutover_inv d' ∧ grows d d'.
Proof.
  intros Hinv Ht. unfold bootstrapGenesis in Ht. do 2 (apply exc_bind_Ret in Ht as (? & _ & Ht)).
  apply exc_bind_Ret in Ht as (? & _ & Ht). apply exc_bind_Ret in Ht as (dg & _ & [= <-]).
  destruct (cn_witness d !! rf_streamId record) as [[e dg0]|] eqn:Hw; [by intros [= -> _]|]. destruct (HEX64 dg); [|done]. intros [= <-]. split.
  - intros s. destruct (Hinv s) as (Hl & Hh & Hs). split_and!; [done|done|]. cbn [set_witness cn_witness cn_head].
    destruct (decide (rf_streamId record = s)) as [<-|Hne]; [|by rewrite lookup_insert_ne]. rewrite lookup_insert_eq.
    destruct (cn_head d !! rf_streamId record) as [c|]; [|by intros e dg' [= <- _]]. destruct Hs as (? & Hs & _). congruence.
  - split_and!; [exists []; cbn; by rewrite app_nil_r| |done]. intros s. unfold witness_at. cbn.
    destruct (decide (rf_streamId record = s)) as [<-|Hne]; [|by rewrite lookup_insert_ne]. by rewrite lookup_insert_eq, Hw.
Qed.

Lemma attest_step command a d d' : cutover_inv d → insert_attestation_tx command a d = (d', Ret tt) → cutover_inv d' ∧ grows d d'.
Proof.
  unfold insert_attestation_tx. destruct (negb _); [done|]. intros Hinv. destruct (cn_attestation d !! command); [by intros [= <- _]|].
  intros [= <-]. split; [exact Hinv|]. split_and!; [exists []; cbn; by rewrite app_nil_r|done..].
Qed.

Lemma transaction_step {B} f (t : tx ControlDb B) d : cutover_inv d →
  (∀ d' b, t d = (d', Ret b) → cutover_inv d' ∧ grows d d') → cutover_inv (transaction f t d).1 ∧ grows d (transaction f t d).1.
Proof.
  intros Hinv Ht. destruct (transaction f t d) as [d' res] eqn:Hf. apply transaction_cases in Hf as [[-> _]|(b & Hb & _)]; [done|].
  by eapply Ht.
Qed.

Lemma control_step_inv d d' : control_step d d' → cutover_inv d → cutover_inv d' ∧ grows d d'.
Proof.
  intros Hs Hinv. destruct Hs as [l Hl|? ? ? ? f|? ? ? ? ? ? ? f|? ? ? ? f|? ? f|? ? t f Ht].
  - split; [exact Hinv|]. split_and!; [exists []; cbn; by rewrite app_nil_r|done|by apply rtc_once].
  - apply transaction_step; [done|]. intros ? ?. by apply begin_step.
  - apply transaction_step; [done|]. intros ? ?. by apply fence_step.
  - apply transaction_step; [done|]. intros ? ?. by apply active_step.
  - apply transaction_step; [done|]. intros ? []. by apply attest_step.
  - apply transaction_step; [done|]. intros ? []. by apply (genesis_step _ _ _ _ _ Hinv Ht).
Qed.
Lemma control_steps_inv d d' : rtc control_step d d' → cutover_inv d → cutover_inv d' ∧ grows d d'.
Proof.
  induction 1 as [d|d d1 d2 Hs _ IH]; intros Hinv; [done|]. destruct (control_step_inv _ _ Hs Hinv) as [Hinv1 Hg].
  destruct (IH Hinv1) as [? Hg']. split; [done|]. by etrans.
Qed.

Lemma control_empty_inv : cutover_inv control_empty.
Proof. intros s. unfold cutover_rows, control_empty. cbn [cn_head cn_history cn_witness]. rewrite !lookup_empty. by split_and!. Qed.

(** ** One intent per epoch *)

Definition intent_before (x y : CutoverReceipt) : Prop :=
  (ci_targetEpoch (cr_intent x) < ci_targetEpoch (cr_intent y))%Z ∨ cr_intent x = cr_intent y.
Lemma intent_before_trans x y z : intent_before x y → intent_before y z → intent_before x z.
Proof. unfold intent_before. intros [H|H] [H'|H']; rewrite ?H, <-?H'; auto. left. lia. Qed.

Lemma lifecycle_sorted prev rows : lifecycle prev rows →
  StronglySorted intent_before rows ∧ ∀ c, prev = Some c → Forall (intent_before c) rows.
Proof.
  revert prev. induction rows as [|r rows IH]; intros prev; [by repeat constructor|]. intros [(_ & Ht & _ & Hn) Hl].
  destruct (IH _ Hl) as [Hs Hr]. specialize (Hr r eq_refl). split; [by constructor|]. intros c ->.
  assert (intent_before c r) as Hc by (destruct Hn as [(_ & _ & He)|[(_ & _ & He)|(_ & _ & He)]]; [by right|by right|left; lia]).
  constructor; [done|]. eapply Forall_impl; [exact Hr|]. intros x. by apply intent_before_trans.
Qed.

Lemma one_intent d r r' : cutover_inv d → r ∈ cn_history d → r' ∈ cn_history d → stream_of r = stream_of r' →
  ci_targetEpoch (cr_intent r) = ci_targetEpoch (cr_intent r') → cr_intent r = cr_intent r'.
Proof.
  intros Hinv Hr Hr' Hst He. destruct (Hinv (stream_of r)) as (Hl & _). apply lifecycle_sorted in Hl as [Hs _].
  assert (r ∈ cutover_rows (stream_of r) d) as H1 by (by apply list_elem_of_filter).
  assert (r' ∈ cutover_rows (stream_of r) d) as H2 by (by apply list_elem_of_filter).
  destruct (sorted_in _ _ _ _ Hs H1 H2) as [->|[[?|?]|[?|?]]]; [done|lia|done|lia|done].
Qed.

(** C22 From the empty control database, whatever the controllers, guards and the
    environment do: every stream's receipts go through PREPARING, FENCED and ACTIVE,
    one intent at a time and one epoch at a time, in a chain of digests whose last
    one is the head; no two intents share an epoch of a stream; the history is only
    appended to; and the witness holds the epoch that was fenced last, which never
    goes back. *)
Theorem cutover_history_safe d d' : rtc control_step control_empty d → rtc control_step d d' →
  cutover_inv d' ∧ grows d d' ∧
  (∀ r r', r ∈ cn_history d' → r' ∈ cn_history d' → stream_of r = stream_of r' →
     ci_targetEpoch (cr_intent r) = ci_targetEpoch (cr_intent r') → cr_intent r = cr_intent r').
Proof.
  intros H H'. destruct (control_steps_inv _ _ H control_empty_inv) as [Hinv _].
  destruct (control_steps_inv _ _ H' Hinv) as [Hinv' Hg]. split_and!; [done|done|]. intros r r'. by apply one_intent.
Qed.

(** ** Two intents that cannot be completed *)

(** The signed fields of two receipts are different and have one digest. *)
Definition receipts_collide r r' : Prop := ∃ m m',
  cutoverMessage (cr_intent r) (cr_phase r) (cr_prevStateDigest r) EmptyString = Ret m ∧
  cutoverMessage (cr_intent r') (cr_phase r') (cr_prevStateDigest r') EmptyString = Ret m' ∧ m ≠ m' ∧ sha256 m = sha256 m'.

Lemma sealed_phase r r' : receipt_sealed r → receipt_sealed r' → cr_stateDigestSigned r = cr_stateDigestSigned r' →
  cr_phase r ≠ cr_phase r' → receipts_collide r r'.
Proof.
  intros (m & Hm & Hd) (m' & Hm' & Hd') Heq Hne. exists m, m'. split_and!; [done|done| |].
  - intros <-. pose proof (frame_parts_inj _ _ _ Hm Hm'). congruence.
  - apply hex_of_inj. unfold sha256_hex in *. congruence.
Qed.

Lemma lifecycle_last prev rows c : lifecycle prev rows → last rows = Some c →
  receipt_sealed c ∧ (cr_phase c ≠ "PREPARING" → prev = None → ∃ f, f ∈ rows ∧ receipt_sealed f ∧
    cr_prevStateDigest c = Some (cr_stateDigestSigned f) ∧ next_phase f c).
Proof.
  intros Hl Hlast. apply last_Some in Hlast as [rows' ->]. apply lifecycle_app in Hl as [Hl Hf].
  destruct (last rows') as [f|] eqn:Hlast.
  - destruct Hf as (Hs & _ & Hp & Hn). split; [done|]. intros _ _. exists f. split; [|split_and!; [|done|done]].
    + apply elem_of_app; left. by apply last_Some_elem_of.
    + clear Hs Hp Hn. apply last_Some in Hlast as [rows'' ->]. by apply lifecycle_app in Hl as [_ [? _]].
  - destruct Hf as (Hs & _ & Hp & Hn). split; [done|]. intros Hph ->. done.
Qed.

Lemma fenced_retry_collides resolver key_id key skew now quorum command d d' r : cutover_inv d →
  fence_tx resolver key_id key skew now quorum command d = (d', Ret r) →
  cr_phase r = "ACTIVE" → ∃ f, f ∈ cn_history d ∧ receipts_collide f r.
Proof.
  intros Hinv (s & c & Hc & _ & _ & _ & _ & [(_ & -> & _ & Hretry)|(_ & _ & Hadv)])%fence_tx_Ret Hact;
    [|apply advance_Ret in Hadv as (_ & Hp & _); congruence].
  destruct (head_stream _ _ _ Hinv Hc) as [Hst _].
  subst s. destruct (Hinv (stream_of c)) as (Hl & Hh & Hw). rewrite Hc in Hh, Hw. symmetry in Hh.
  destruct Hw as (dg & Hw & _ & Hdg). specialize (Hdg Hact).
  destruct (lifecycle_last _ _ _ Hl Hh) as [Hs Hf]. destruct Hf as (f & Hin & Hsf & Hpf & Hn); [congruence|done|].
  exists f. apply list_elem_of_filter in Hin as [_ Hin]. split; [done|].
  assert (cr_phase f = "FENCED") as Hph by (destruct Hn as [(_ & ? & _)|[(? & _)|(_ & ? & _)]]; congruence).
  apply sealed_phase; [done..| |congruence].
  unfold check_fenced_retry in Hretry. apply exc_bind_Ret in Hretry as (v & _ & Hretry). destruct v as [v|]; [|done].
  rewrite Hw in Hretry. case_decide; [done|]. apply exc_bind_Ret in Hretry as (e & _ & Hr%require_Ret).
  apply bool_decide_eq_true in Hr as [_ Hr]. congruence.
Qed.

(** [markFenced] means to return the receipt again when the cutover is already
    fenced or active, but once the cutover is ACTIVE it is always refused: the witness
    holds the digest of the FENCED receipt, never that of the ACTIVE one -- unless
    the two are a SHA-256 collision. *)
Theorem fence_retry_after_active resolver key_id key skew now quorum command d c :
  rtc control_step control_empty d → head_of_command command d = Some c → cr_phase c = "ACTIVE" →
  (∀ f, f ∈ cn_history d → ¬ receipts_collide f c) →
  ∃ e, (fence_tx resolver key_id key skew now quorum command d).2 = Throw e.
Proof.
  intros Hreach Hhead Hact Hno. destruct (fence_tx _ _ _ _ _ _ _ d) as [d' [r|e]] eqn:Ht; [|by exists e]. exfalso.
  destruct (control_steps_inv _ _ Hreach control_empty_inv) as [Hinv _].
  assert (r = c) as ->.
  { unfold fence_tx in Ht. apply tbind_Ret in Ht as (s1 & row & [-> ->]%tread_Ret & Ht). rewrite Hhead in Ht.
    apply tbind_Ret in Ht as (s2 & x & (->%cutoverFromRow_Ret & ->)%tlift_Ret & H). apply tbind_Ret in H as (s3 & [] & (_ & ->)%tlift_Ret & H).
    destruct (negb _); [by apply tlift_Ret in H as [? _]|]. apply tbind_Ret in H as (s4 & x & [-> ->]%tread_Ret & H).
    do 2 (apply tbind_Ret in H as (? & [] & [_ ->]%tlift_Ret & H)). rewrite Hact in H. cbn [orb bool_decide decide_rel] in H.
    change (bool_decide ("ACTIVE" = "FENCED") || bool_decide ("ACTIVE" = "ACTIVE"))%bool with true in H.
    apply tbind_Ret in H as (? & x & [-> ->]%tread_Ret & H). apply tbind_Ret in H as (? & [] & [_ ->]%tlift_Ret & H).
    by apply tret_Ret in H as [-> _]. }
  destruct (fenced_retry_collides _ _ _ _ _ _ _ _ _ _ Hinv Ht Hact) as (f & Hf & Hcol). by apply (Hno f).
Qed.

Lemma check_old_lease_Ret resolver skew i now d : check_old_lease resolver skew i now d = Ret tt →
  ∃ l, lease_head (ci_streamId i) d = Some l ∧ sl_status l = "revoked" ∧ sl_epoch l = ci_previousEpoch i ∧ (1 <= sl_epoch l)%Z ∧
    sl_maxTransactionDurationMs l = ci_sourceTransactionWindowMs i ∧
    (sl_expiresAtMs l + skew + ci_sourceTransactionWindowMs i <= now)%Z.
Proof.
  unfold check_old_lease. destruct (lease_head _ d) as [row|]; [|done]. intros (l & Hl & H)%exc_bind_Ret.
  pose proof (leaseFromRow_Ret _ _ Hl) as ->. unfold leaseFromRow in Hl. apply exc_bind_Ret in Hl as (e & (_ & _ & He)%safe_field_Ret & _).
  apply exc_bind_Ret in H as ([] & _ & H). apply exc_bind_Ret in H as ([] & Hr%require_Ret & H).
  apply bool_decide_eq_true in Hr as (Hs & _ & Hep & _ & Hw). apply exc_bind_Ret in H as (n & (-> & _)%safe_field_Ret & H%require_Ret).
  apply bool_decide_eq_true in H. exists row. split_and!; [done..|lia|done|lia].
Qed.

(** [begin] admits an intent from epoch 0, but no lease is of epoch 0, so the intent
    is never fenced. *)
Lemma fenced_from_positive resolver key_id key skew now quorum command d d' r :
  fence_tx resolver key_id key skew now quorum command d = (d', Ret r) → (1 <= ci_previousEpoch (cr_intent r))%Z.
Proof.
  intros (s & c & _ & -> & _ & Hl & _)%fence_tx_Ret. apply check_old_lease_Ret in Hl as (l & _ & _ & <- & ? & _). done.
Qed.
End safety.
