(* ===== verification/WriteFence.v ===== *)
(** * The right to write (packages/server/src/bpc-ha-final.ts)

    Before a mutation and before its commit the source checks, inside its own
    transaction, that it still holds the authority of its stream: an active and
    unexpired lease, for a promoted source the ACTIVE receipt, the record a majority
    of the Redis members stores, the identity of the database and the possession of
    the node's key.  The posture of the database role, the answer of the Redis quorum
    and the node's prover are inputs. *)

From S2P Require Import Prelude Proc JsNum Encoding Json JsText Crypto OutboxContract OutboxPg HttpTransport HaSigned RedisFence SourceLease Cutover.
From stdpp Require Import base strings list gmap sorting.
From Stdlib Require Import ZArith Lia.

Local Open Scope string_scope.
Local Open Scope bpc_scope.

Record SourceLeaseBinding := mkBinding {
  sb_streamId : string; sb_epoch : Z; sb_holderNodeId : string; sb_authoritySystemId : string; sb_nodeCredentialKeyId : string;
  sb_leaseId : string; sb_grantDigest : string; sb_redisClaimDigest : string; sb_maxClockSkewMs : Z;
  sb_maxTransactionDurationMs : Z; sb_activationDigest : option string }.

(** The row of [bpc_ha.source_activation] of a stream. *)
Record Activation := mkActivation {
  ac_epoch : Z; ac_digest : string; ac_keyId : string; ac_signature : string;
  ac_receipt : CutoverReceipt; ac_readiness : PromotionReadinessAttestation }.
(** The database of a source, and the identifier of its cluster. *)
Record SourceDb := mkSourceDb { sd_lease : LeaseDb; sd_activation : gmap string Activation; sd_systemId : string }.

Section write.
Context `{WC : WebCrypto} `{NB : NodeBuffer} `{ED : Ed25519} (resolver : string → option KeyObject).
Implicit Types (b : SourceLeaseBinding) (s : SourceDb).

(** [new PgSourceLeaseFence(...)]; the window is the one its transactor enforces, the
    key id the prover's. *)
Definition PgSourceLeaseFence_new (transactor_window : Z) (prover_keyId : string) b : exc SourceLeaseBinding :=
  _ ← id (sb_streamId b) STREAM_RE "streamId";
  _ ← id (sb_holderNodeId b) ID_RE "holderNodeId";
  _ ← id (sb_leaseId b) ID_RE "leaseId";
  _ ← require (DIGITS_RE (sb_authoritySystemId b)) "invalid authoritySystemId";
  _ ← id (sb_nodeCredentialKeyId b) KEY_RE "nodeCredentialKeyId";
  _ ← require (bool_decide (prover_keyId = sb_nodeCredentialKeyId b)) "node identity prover does not match the signed authority binding";
  _ ← safe_field (sb_epoch b) "epoch" 1 MAX_EPOCH;
  _ ← safe_field (sb_maxClockSkewMs b) "maxClockSkewMs" 0 60000;
  _ ← safe_field (sb_maxTransactionDurationMs b) "maxTransactionDurationMs" 1 300000;
  _ ← require (bool_decide (transactor_window = sb_maxTransactionDurationMs b))
        "source transaction window is not bound to the configured PgTransactor";
  _ ← require (HEX64 (sb_grantDigest b)) "invalid grantDigest";
  _ ← require (HEX64 (sb_redisClaimDigest b)) "invalid redisClaimDigest";
  _ ← require (bool_decide (sb_epoch b <= 1)%Z || match sb_activationDigest b with Some d => HEX64 d | None => false end)
        "promoted source requires a signed ACTIVE cutover digest";
  Ret b.

Definition nodeIdentityMessage (challenge : string) : exc string :=
  prefix ← frame [Some "bpc-node-identity/v1"]; Ret (prefix +:+ challenge).
Definition signNodeIdentityChallenge (keyId : string) (key : KeyObject) (challenge : string) : exc string :=
  m ← nodeIdentityMessage challenge; sign keyId key m.

(** ** The steps of [assertWritableInTx] *)

(** [bpc_ha.read_source_lease_for_write]: the head, and the newest row of the history. *)
Definition by_seq_desc (a c : SourceLeaseGrant) : Prop := (sl_grantSeq c <= sl_grantSeq a)%Z.
#[export] Instance by_seq_desc_dec : RelDecision by_seq_desc.
Proof. intros a c. unfold by_seq_desc. apply _. Defined.
Definition latest_row (streamId : string) (l : LeaseDb) : option SourceLeaseGrant :=
  head (merge_sort by_seq_desc (stream_rows streamId l)).

Definition bound_lease b (lease : SourceLeaseGrant) : bool :=
  (bool_decide (sl_status lease = "active") && bool_decide (sl_epoch lease = sb_epoch b) &&
   bool_decide (sl_holderNodeId lease = sb_holderNodeId b) && bool_decide (sl_leaseId lease = sb_leaseId b) &&
   bool_decide (sl_grantDigest lease = sb_grantDigest b) &&
   bool_decide (sl_maxTransactionDurationMs lease = sb_maxTransactionDurationMs b))%bool.

Definition check_lease b (dbNow : Z) s : exc unit :=
  match ld_head (sd_lease s) !! sb_streamId b with
  | None => contract_error "source lease missing (fail closed)"
  | Some row =>
      lease ← leaseFromRow row;
      _ ← verifySourceLeaseGrant resolver lease;
      let latest := latest_row (sb_streamId b) (sd_lease s) in
      seq ← safeInt (match latest with Some l => JNum (int (sl_grantSeq l)) | None => JNull end) "latest grantSeq" 1 MAX_SAFE_INTEGER;
      _ ← require (bool_decide (seq = sl_grantSeq lease) && bool_decide (sl_grantDigest <$> latest = Some (sl_grantDigest lease)))
            "source lease head/history mismatch";
      _ ← require (bound_lease b lease) "source lease binding is stale or revoked";
      now ← safe_field dbNow "database clock" 0 MAX_MS;
      require (bool_decide (now + sb_maxClockSkewMs b < sl_expiresAtMs lease)%Z) "source lease expired (fail closed)"
  end.

Definition check_activation b s : exc unit :=
  if decide (sb_epoch b <= 1)%Z then Ret tt else
  let missing := contract_error "promoted source ACTIVE receipt missing or stale" in
  match sd_activation s !! sb_streamId b with
  | None => missing
  | Some active =>
      if decide (ac_epoch active ≠ sb_epoch b ∨ Some (ac_digest active) ≠ sb_activationDigest b) then missing else
      let receipt := ac_receipt active in
      let readiness := ac_readiness active in
      _ ← verifyCutoverReceipt resolver receipt;
      _ ← verifyPromotionReadinessAttestation resolver readiness;
      require (bool_decide (cr_phase receipt = "ACTIVE") && bool_decide (stream_of receipt = sb_streamId b) &&
               bool_decide (ci_targetEpoch (cr_intent receipt) = sb_epoch b) &&
               bool_decide (Some (cr_stateDigestSigned receipt) = sb_activationDigest b) &&
               bool_decide (Some (pa_fencedDigest readiness) = cr_prevStateDigest receipt) &&
               bool_decide (pa_targetSystemId readiness = sb_authoritySystemId b))
        "promoted source ACTIVE/readiness binding invalid"
  end.

Definition check_authority b (redis : jsval) s : exc unit :=
  let refuse := contract_error "external Redis fence authority is missing, stale, or conflicting" in
  if decide (field redis "streamId" = JStr (sb_streamId b) ∧ field redis "epoch" = JNum (int (sb_epoch b)) ∧
             field redis "nodeId" = JStr (sb_holderNodeId b) ∧ field redis "nodeCredentialKeyId" = JStr (sb_nodeCredentialKeyId b)) then
    digest ← redisFenceRecordDigest redis;
    if decide (digest ≠ sb_redisClaimDigest b) then refuse else
    require (bool_decide (sd_systemId s = sb_authoritySystemId b) && bool_decide (field redis "authoritySystemId" = JStr (sd_systemId s)))
      "source authority PostgreSQL identity does not match its signed fence"
  else refuse.

Definition check_possession b (nonce : string) (prove : string → exc string) s : exc unit :=
  challenge ← frame [Some "bpc-source-write/v1"; Some (sb_streamId b); Some (z_to_string (sb_epoch b)); Some (sd_systemId s);
                     Some (sb_grantDigest b); Some (sb_redisClaimDigest b); Some nonce];
  proof ← prove challenge;
  m ← nodeIdentityMessage challenge;
  verify resolver (sb_nodeCredentialKeyId b) m proof.

(** [posture] is the outcome of the checks of the runtime role, [current] of
    [quorum.current()]. *)
Definition assertWritableInTx b (posture : exc unit) (dbNow : Z) (current : exc jsval) (nonce : string)
    (prove : string → exc string) s : exc unit :=
  _ ← posture;
  _ ← check_lease b dbNow s;
  _ ← check_activation b s;
  redis ← current;
  _ ← check_authority b redis s;
  check_possession b nonce prove s.

(** ** The receipt of a promotion *)

(** [installActiveCutoverReceipt]: the transaction. *)
Definition activation_check (a : Activation) : bool := (bool_decide (2 <= ac_epoch a <= MAX_EPOCH)%Z && HEX64 (ac_digest a))%bool.
Definition upsert_activation (streamId : string) (a : Activation) : tx SourceDb Z := λ s,
  if negb (activation_check a) then (s, Throw (PgError "new row violates check constraint")) else
  let write := (mkSourceDb (sd_lease s) (<[streamId := a]> (sd_activation s)) (sd_systemId s), Ret 1%Z) in
  match sd_activation s !! streamId with
  | None => write
  | Some e => if decide (ac_epoch e < ac_epoch a)%Z then write else (s, Ret 0%Z)
  end.
Definition activation_tx (value : CutoverReceipt) (readiness : PromotionReadinessAttestation) : tx SourceDb unit :=
  let! systemId := tread sd_systemId in
  do! tlift (require (bool_decide (pa_targetSystemId readiness = systemId)) "readiness receipt belongs to a different PostgreSQL authority") in
  let epoch := ci_targetEpoch (cr_intent value) in
  let! n := upsert_activation (stream_of value)
              (mkActivation epoch (cr_stateDigestSigned value) (cr_keyId value) (cr_signature value) value readiness) in
  if decide (n = 1%Z) then tret tt else
  let! existing := tread (λ s, sd_activation s !! stream_of value) in
  tlift (match existing with
         | None => contract_error "source ACTIVE receipt did not advance"
         | Some e =>
             e' ← safe_field (ac_epoch e) "existing activation epoch" 2 MAX_EPOCH;
             require (bool_decide (e' = epoch) && bool_decide (ac_digest e = cr_stateDigestSigned value))
               "source ACTIVE receipt did not advance"
         end).
Definition installActiveCutoverReceipt (f : fate) (value : CutoverReceipt) (readiness : PromotionReadinessAttestation) s
    : SourceDb * exc unit :=
  match (_ ← verifyCutoverReceipt resolver value;
         _ ← verifyPromotionReadinessAttestation resolver readiness;
         require (bool_decide (cr_phase value = "ACTIVE") && bool_decide (Some (pa_fencedDigest readiness) = cr_prevStateDigest value) &&
                  bool_decide (pa_targetEpoch readiness = ci_targetEpoch (cr_intent value)) &&
                  bool_decide (pa_streamId readiness = stream_of value))
           "source activation requires matching ACTIVE and readiness receipts") with
  | Throw e => (s, Throw e)
  | Ret _ => transaction f (activation_tx value readiness) s
  end.
End write.
