(* ===== verification/WriteSafety.v ===== *)
(** * What the write check guarantees

    The check of [WriteFence], the leases, the cutover and the Redis fence together:
    two sources that pass the check for one stream and epoch are one holder; a source
    whose epoch was claimed away in Redis does not pass; and every write of an old
    source has ended, on the control clock, before its epoch is fenced. *)

From S2P Require Import Prelude Proc JsNum Encoding Json JsText Crypto OutboxContract OutboxCanon OutboxPg OutboxPgFacts HttpTransport HaSigned RedisFence FenceSafety SourceLease LeaseSafety Cutover CutoverSafety WriteFence.
From stdpp Require Import base strings list gmap sorting relations.
From Stdlib Require Import ZArith Lia.

Local Open Scope string_scope.
Local Open Scope bpc_scope.

(** ** Values equal up to the order of keys *)

Lemma jparsed_distinct v : jparsed v → keys_distinct v.
Proof.
  induction v as [| |b|n|s|l IH|l IH] using jsval_induction; try done.
  - rewrite keys_distinct_arr. cbn [jparsed]. rewrite (foldr_and_Forall jparsed). intros Hl. decompose_Forall. auto.
  - rewrite keys_distinct_obj. cbn [jparsed]. rewrite (foldr_and_Forall (λ kv, jparsed kv.2)). intros [[Hnd _] Hl].
    split; [done|]. decompose_Forall. auto.
Qed.

Lemma field_jsorted v k : keys_distinct v → field (jsorted v) k = jsorted (field v k).
Proof.
  destruct v as [| | | | | |l]; try done. intros [Hnd _]%keys_distinct_obj. rewrite jsorted_obj. unfold field, prop.
  rewrite (om_get_perm k (fields_sorted _) (sort_field <$> l));
    [|by rewrite fields_sorted_keys, sorted_keys_perm, sort_field_keys|by apply fields_sorted_perm; rewrite sort_field_keys].
  rewrite sort_field_fmap, om_get_fmap. by destruct (om_get k l).
Qed.

(** Two values with one canonical text have the same scalar fields. *)
Lemma canonical_field v v' k c : keys_distinct v → keys_distinct v' → jsorted v = jsorted v' → is_nested c = false →
  field v k = c → field v' k = c.
Proof.
  intros Hv Hv' Heq Hc Hf. assert (jsorted (field v' k) = jsorted c) as H by (rewrite <-Hf, <-!field_jsorted by done; congruence).
  destruct c, (field v' k); try done; cbn in H; congruence.
Qed.

Section write.
Context `{WC : WebCrypto} `{NB : NodeBuffer} `{ED : Ed25519} (resolver : string → option KeyObject).
Implicit Types (b : SourceLeaseBinding) (s : SourceDb).

(** ** What a passed check says *)

Lemma check_lease_Ret b now s : check_lease resolver b now s = Ret tt →
  ∃ g, ld_head (sd_lease s) !! sb_streamId b = Some g ∧ sl_status g = "active" ∧ sl_epoch g = sb_epoch b ∧
    sl_holderNodeId g = sb_holderNodeId b ∧ sl_leaseId g = sb_leaseId b ∧
    sl_maxTransactionDurationMs g = sb_maxTransactionDurationMs b ∧ (now + sb_maxClockSkewMs b < sl_expiresAtMs g)%Z.
Proof.
  unfold check_lease. destruct (_ !! _) as [row|]; [|done]. intros (g & ->%leaseFromRow_Ret & H)%exc_bind_Ret.
  apply exc_bind_Ret in H as ([] & _ & H). apply exc_bind_Ret in H as (seq & _ & H). apply exc_bind_Ret in H as ([] & _ & H).
  apply exc_bind_Ret in H as ([] & Hb%require_Ret & H). apply exc_bind_Ret in H as (n & (-> & _)%safe_field_Ret & Hn%require_Ret).
  apply bool_decide_eq_true in Hn. exists row. unfold bound_lease in Hb. btrue. by split_and!.
Qed.

Lemma check_authority_Ret b redis s : check_authority b redis s = Ret tt →
  field redis "streamId" = JStr (sb_streamId b) ∧ field redis "epoch" = JNum (int (sb_epoch b)) ∧
  field redis "nodeId" = JStr (sb_holderNodeId b) ∧ field redis "nodeCredentialKeyId" = JStr (sb_nodeCredentialKeyId b) ∧
  field redis "authoritySystemId" = JStr (sd_systemId s) ∧ redisFenceRecordDigest redis = Ret (sb_redisClaimDigest b).
Proof.
  unfold check_authority. case_decide as Hc; [|done]. intros (dg & Hdg & H)%exc_bind_Ret. case_decide as Hd; [done|].
  apply require_Ret in H. btrue. destruct Hc as (? & ? & ? & ?). subst dg.
  by split_and!.
Qed.

Lemma assertWritable_Ret b posture now current nonce prove s : assertWritableInTx resolver b posture now current nonce prove s = Ret tt →
  check_lease resolver b now s = Ret tt ∧ check_activation resolver b s = Ret tt ∧
  ∃ redis, current = Ret redis ∧ check_authority b redis s = Ret tt ∧ check_possession resolver b nonce prove s = Ret tt.
Proof.
  unfold assertWritableInTx. intros ([] & _ & H)%exc_bind_Ret. apply exc_bind_Ret in H as ([] & Hl & H).
  apply exc_bind_Ret in H as ([] & Ha & H). apply exc_bind_Ret in H as (redis & Hr & H). apply exc_bind_Ret in H as ([] & Hc & H).
  split_and!; [done|done|]. by exists redis.
Qed.

(** ** One holder *)

(** On one database the lease alone orders the writers. *)
Lemma lease_order b b' p p' now now' cur cur' x x' f f' s s' :
  rtc lease_step lease_empty (sd_lease s) → rtc lease_step (sd_lease s) (sd_lease s') → sb_streamId b = sb_streamId b' →
  assertWritableInTx resolver b p now cur x f s = Ret tt → assertWritableInTx resolver b' p' now' cur' x' f' s' = Ret tt →
  (sb_epoch b <= sb_epoch b')%Z ∧
  (sb_epoch b = sb_epoch b' → sb_holderNodeId b = sb_holderNodeId b' ∧ sb_leaseId b = sb_leaseId b' ∧
     sb_maxTransactionDurationMs b = sb_maxTransactionDurationMs b').
Proof.
  intros H0 H1 Hst (Hl & _)%assertWritable_Ret (Hl' & _)%assertWritable_Ret.
  apply check_lease_Ret in Hl as (g & Hg & _ & <- & <- & <- & <- & _). apply check_lease_Ret in Hl' as (g' & Hg' & _ & <- & <- & <- & <- & _).
  pose proof (steps_inv _ _ H0 empty_inv) as Hinv. pose proof (steps_inv _ _ H1 Hinv) as Hinv'.
  destruct (Hinv (sb_streamId b)) as (_ & _ & Hh). destruct (Hinv' (sb_streamId b)) as (_ & Hs & Hh').
  rewrite Hg in Hh. rewrite Hst, Hg', <-Hst in Hh'. symmetry in Hh, Hh'. apply last_Some_elem_of in Hh.
  assert (g ∈ stream_rows (sb_streamId b) (sd_lease s')) as Hin.
  { destruct (steps_grow _ _ H1) as [l Hgrow]. apply list_elem_of_filter in Hh as [? ?]. apply list_elem_of_filter. split; [done|].
    rewrite Hgrow. apply elem_of_app. by left. }
  destruct (sorted_last _ _ _ Hs Hh' Hin) as [->|[He Hsame]]; [done|]. split; [done|]. intros Heq. by destruct (Hsame Heq) as (? & ? & ? & _).
Qed.

Lemma canonical_Ret v w : jcs_canonicalize v = jcs_canonicalize w → jparsed v → jparsed w → ∀ t, jcs_canonicalize w = Ret t → jsorted v = jsorted w.
Proof. intros Heq Hv Hw t Ht. eapply jcs_canonicalize_inj; [by apply jparsed_distinct..| |exact Ht]. by rewrite Heq. Qed.

(** What the record of the quorum says of a binding that passed, read from any value
    with the same canonical text. *)
Lemma authority_fields b redis s v : check_authority b redis s = Ret tt → jparsed redis → jparsed v →
  jcs_canonicalize v = jcs_canonicalize redis →
  field v "streamId" = JStr (sb_streamId b) ∧ field v "epoch" = JNum (int (sb_epoch b)) ∧
  field v "nodeId" = JStr (sb_holderNodeId b) ∧ field v "nodeCredentialKeyId" = JStr (sb_nodeCredentialKeyId b) ∧
  field v "authoritySystemId" = JStr (sd_systemId s).
Proof.
  intros (F1 & F2 & F3 & F4 & F5 & Hdg)%check_authority_Ret Hr Hv Hcan.
  unfold redisFenceRecordDigest in Hdg. apply exc_bind_Ret in Hdg as (key & Hkey & _).
  pose proof (canonical_Ret _ _ Hcan Hv Hr _ Hkey) as Hs. symmetry in Hs. apply jparsed_distinct in Hv, Hr.
  split_and!; by apply (canonical_field redis v).
Qed.

(** C20 One writer per epoch.  Two bindings pass the write check on any two databases,
    with any posture, clock and proof, each on its own read of the fence quorum; the
    two reads and any claims run in any interleaving, whatever commands and answers are
    lost.  If the bindings are of one epoch they are of one stream, one holder node and
    credential, and the databases have one system identifier.  If moreover the second
    database is the first one after further installations of grants, the epoch has not
    gone back, and in one epoch the lease and its transaction window are the same. *)
Theorem writers_exclusive n vs vs' w tr w' witness witness' b b' p p' now now' x x' f f' s s' :
  pool_run member_moves (currents resolver n ++ currents resolver n) w tr w' ((Done <$> vs) ++ (Done <$> vs')) → length vs = n →
  assertWritableInTx resolver b p now (quorum_current witness n vs) x f s = Ret tt →
  assertWritableInTx resolver b' p' now' (quorum_current witness' n vs') x' f' s' = Ret tt →
  (sb_epoch b = sb_epoch b' →
     sb_streamId b = sb_streamId b' ∧ sb_holderNodeId b = sb_holderNodeId b' ∧
     sb_nodeCredentialKeyId b = sb_nodeCredentialKeyId b' ∧ sd_systemId s = sd_systemId s') ∧
  (sb_streamId b = sb_streamId b' → rtc lease_step lease_empty (sd_lease s) → rtc lease_step (sd_lease s) (sd_lease s') →
     (sb_epoch b <= sb_epoch b')%Z ∧
     (sb_epoch b = sb_epoch b' → sb_leaseId b = sb_leaseId b' ∧ sb_maxTransactionDurationMs b = sb_maxTransactionDurationMs b')).
Proof.
  intros Hrun Hlen Hw Hw'. split.
  - intros Hep. apply assertWritable_Ret in Hw as (_ & _ & redis & Hq & Ha & _). apply assertWritable_Ret in Hw' as (_ & _ & redis' & Hq' & Ha' & _).
    unfold quorum_current in Hq, Hq'. apply exc_bind_Ret in Hq as (r & Hr & Hq), Hq' as (r' & Hr' & Hq').
    apply exc_bind_Ret in Hq as ([] & _ & [= ->]), Hq' as ([] & _ & [= ->]).
    destruct (two_reads resolver n vs vs' redis redis' w tr w' Hrun Hlen Hr Hr') as (v & v' & Pv & Pv' & Cv & Cv' & Hone).
    pose proof (two_reads_parsed resolver n vs vs' w tr w' Hrun Hlen) as [Hall Hall'].
    destruct (authority_fields b redis s v Ha) as (F1 & F2 & F3 & F4 & F5); [by eapply rawCurrent_Forall|done|done|].
    destruct (authority_fields b' redis' s' v' Ha') as (F1' & F2' & F3' & F4' & F5'); [by eapply rawCurrent_Forall|done|done|].
    rewrite <-Hep in F2'. rewrite (Hone _ F2 F2') in *. split_and!; congruence.
  - intros Hst H0 H1. destruct (lease_order _ _ _ _ _ _ _ _ _ _ _ _ _ _ H0 H1 Hst Hw Hw') as [Hle Hsame]. split; [done|].
    intros Heq. by destruct (Hsame Heq) as (_ & ? & ?).
Qed.

(** ** The end of an epoch *)

(** C18 Every write of the old source has ended before its epoch is fenced.  When
    [markFenced] returns on the control database at its clock [now], and a source
    passed the check for the previous epoch at its own clock [t], under a grant the
    control database has too, then [t] plus the bound on the source's clock, plus the
    transaction window, plus the controller's bound, is before [now]. *)
Theorem fenced_after_writes key_id key skew now quorum command d d' r b posture t current nonce prove s g :
  rtc control_step control_empty d →
  fence_tx resolver key_id key skew now quorum command d = (d', Ret r) →
  assertWritableInTx resolver b posture t current nonce prove s = Ret tt →
  sb_streamId b = stream_of r → sb_epoch b = ci_previousEpoch (cr_intent r) →
  ld_head (sd_lease s) !! sb_streamId b = Some g → g ∈ stream_rows (stream_of r) (cn_lease d) →
  (t + sb_maxClockSkewMs b + sb_maxTransactionDurationMs b + skew < now)%Z.
Proof.
  intros Hreach Hf (Hl & _)%assertWritable_Ret Hst Hep Hhead Hin.
  apply check_lease_Ret in Hl as (g' & Hg' & _ & Hge & _ & _ & <- & Hexp). assert (g' = g) as -> by congruence.
  destruct (control_steps_inv _ _ Hreach control_empty_inv) as [_ (_ & _ & Hleases)]. cbn [control_empty cn_lease] in Hleases.
  pose proof (steps_inv _ _ Hleases empty_inv (stream_of r)) as (_ & Hs & Hh).
  apply fence_tx_Ret in Hf as (s0 & c & _ & Hi & _ & Hold & _). rewrite <-Hi in Hold. apply check_old_lease_Ret in Hold as (l & Hlh & _ & Hle & _ & Hw & Hnow).
  unfold lease_head in Hlh. change (ci_streamId (cr_intent r)) with (stream_of r) in Hlh. rewrite Hlh in Hh. symmetry in Hh.
  destruct (sorted_last _ _ _ Hs Hh Hin) as [->|[_ Hsame]]; [lia|]. destruct Hsame as (_ & _ & Hwin & Hexpires & _); [congruence|]. lia.
Qed.

(** ** A superseded source *)

(** C19 A superseded source is refused.  After the claim of a record was granted by the
    Redis quorum, whatever else is claimed, lost or restarted, a source whose check
    passes is of the claimed epoch or a later one, and if it is of this epoch it is
    the claimed node, with the claimed key, on the claimed database. *)
Theorem stale_source_refused n r rs vs w tr w1 tr' w2 witness b posture now nonce prove s :
  fence_fields (fence_value r) = Ret tt →
  pool_run member_moves (claims resolver n r) w tr w1 (Done <$> rs) → granted n rs = true →
  pool_run member_moves (currents resolver n) w1 tr' w2 (Done <$> vs) →
  assertWritableInTx resolver b posture now (quorum_current witness n vs) nonce prove s = Ret tt →
  (rf_epoch r <= sb_epoch b)%Z ∧
  (sb_epoch b = rf_epoch r → sb_streamId b = rf_streamId r ∧ sb_holderNodeId b = rf_nodeId r ∧
     sb_nodeCredentialKeyId b = rf_nodeCredentialKeyId r ∧ sd_systemId s = rf_authoritySystemId r).
Proof.
  intros Hr Hrun Hg Hread (_ & _ & redis & Hq & Ha & _)%assertWritable_Ret. unfold quorum_current in Hq.
  apply exc_bind_Ret in Hq as (record & Hraw & Hq). apply exc_bind_Ret in Hq as ([] & _ & [= <-]).
  destruct (read_after_claim resolver n r rs vs record w tr w1 tr' w2 Hr Hrun Hg Hread Hraw) as (v & Hv & Hcan & Hat).
  pose proof (rawCurrent_Forall jparsed _ _ _ Hraw (reads_parsed _ _ _ _ _ _ Hread)) as Hrec.
  pose proof Hraw as (key & Hkey & _)%rawCurrent_majority; [|exact resolver].
  pose proof (canonical_Ret _ _ Hcan Hv Hrec _ Hkey) as Hs. symmetry in Hs.
  apply check_authority_Ret in Ha as (F1 & F2 & F3 & F4 & F5 & _).
  apply jparsed_distinct in Hv, Hrec.
  apply (canonical_field _ v) in F1, F2, F3, F4, F5; [|done..]. destruct Hat as [->|(m & Hm & Hgt)].
  - unfold fence_value in F1, F2, F3, F4, F5. cbn in F1, F2, F3, F4, F5. unfold int in F2. injection F1 as <-. injection F2 as He.
    injection F3 as <-. injection F4 as <-. injection F5 as <-. split; [lia|]. done.
  - rewrite F2 in Hm. injection Hm as <-. rewrite num_gtZ_int in Hgt. apply bool_decide_eq_true in Hgt. split; [lia|]. lia.
Qed.
End write.
