(* ===== verification/Snapshot.v ===== *)
(** * Snapshots and promotion (packages/server/src/bpc-ha-final.ts)

    A signed snapshot carries every record of a source up to its committed head.  A
    fresh receiver replays it; a promotion checks that the receiver has applied
    exactly this history, raises the fence to the new epoch, opens the new source
    sequence and stores the receipts, in one transaction.

    The texts of the two pair tables, their row counts and the applier's statements
    are the database's: parameters on the application state of [OutboxPg]. *)

From S2P Require Import Prelude JsNum Encoding Json JsText Crypto OutboxContract OutboxPg OutboxPgFacts HttpTransport HaSigned SourceLease Cutover.
From stdpp Require Import base strings list gmap sorting.
From Stdlib Require Import ZArith Lia.

Local Open Scope string_scope.
Local Open Scope bpc_scope.

Record PairSnapshotManifest := mkManifest {
  sm_streamId : string; sm_sourceEpoch : string; sm_finalSequence : Z; sm_sourceSystemId : string;
  sm_stateDigest : string; sm_historyDigest : string; sm_issuedAtMs : Z; sm_keyId : string; sm_signature : string }.
(** The records are as they were received. *)
Record PairSnapshotBundle := mkBundle { bu_manifest : PairSnapshotManifest; bu_records : list jsval }.

Definition manifest_value (m : PairSnapshotManifest) : jsval :=
  JObj [("streamId", JStr (sm_streamId m)); ("sourceEpoch", JStr (sm_sourceEpoch m)); ("finalSequence", JNum (int (sm_finalSequence m)));
        ("sourceSystemId", JStr (sm_sourceSystemId m)); ("stateDigest", JStr (sm_stateDigest m));
        ("historyDigest", JStr (sm_historyDigest m)); ("issuedAtMs", JNum (int (sm_issuedAtMs m))); ("keyId", JStr (sm_keyId m));
        ("signature", JStr (sm_signature m))].

(** A row of [bpc_ha.promotion_receipt]. *)
Record PromotionReceipt := mkPromotion {
  pr_manifestDigest : string; pr_finalSequence : Z; pr_stateDigest : string; pr_sourceKeyId : string; pr_sourceSignature : string;
  pr_guardKeyId : string; pr_guardSignature : string }.
Record HaDb (A : Type) := mkHaDb { hd_pg : PgDb A; hd_receipts : gmap (string * Z) PromotionReceipt }.
Arguments mkHaDb {A}. Arguments hd_pg {A}. Arguments hd_receipts {A}.

(** A statement on the outbox tables. *)
Definition on_pg {A B} (t : tx (PgDb A) B) : tx (HaDb A) B := λ d, let '(p, r) := t (hd_pg d) in (mkHaDb p (hd_receipts d), r).

Section snapshot.
Context `{WC : WebCrypto} `{NB : NodeBuffer} `{ED : Ed25519} `{SAN : MutationSanitizer} {A : Type}.
(** [jsonb_agg(...)::text] and [count( * )] of the two tables. *)
Context (pairs_text pending_text : A → string) (pair_count pending_count : A → Z).
Context (applyInTx : OutboxRecord → A → exc A).
Implicit Types (d : PgDb A) (m : PairSnapshotManifest) (resolver : string → option KeyObject).

Definition snapshotMessage m : exc string :=
  frame [Some "bpc-pair-snapshot/v1"; Some (sm_streamId m); Some (sm_sourceEpoch m); Some (z_to_string (sm_finalSequence m));
         Some (sm_sourceSystemId m); Some (sm_stateDigest m); Some (sm_historyDigest m); Some (z_to_string (sm_issuedAtMs m))].
Definition stateDigest (a : A) : exc string :=
  t ← frame [Some "bpc-pair-state/v1"; Some (pairs_text a); Some (pending_text a)]; Ret (sha256_hex t).
(** [sha256(canonicalize(v))] *)
Definition canonical_digest (v : jsval) : exc string := t ← jcs_canonicalize v; Ret (sha256_hex (utf8_encode t)).

(** ** Building *)

Definition by_sequence (r r' : row_key * OutboxRow) : Prop := (r.1.2 <= r'.1.2)%Z.
#[export] Instance by_sequence_dec : RelDecision by_sequence.
Proof. intros r r'. unfold by_sequence. apply _. Defined.
Definition rows_through (streamId epoch : string) (final : Z) d : list (row_key * OutboxRow) :=
  merge_sort by_sequence (filter (λ kr : row_key * OutboxRow, kr.1.1 = (streamId, epoch) ∧ (kr.1.2 <= final)%Z) (map_to_list (db_rows d))).
Definition row_snapshot (kr : row_key * OutboxRow) : exc jsval :=
  sequence ← safe_field kr.1.2 "sequence" 1 MAX_SAFE_INTEGER;
  Ret (JObj [("contractVersion", JStr "1"); ("streamId", JStr kr.1.1.1); ("sourceEpoch", JStr kr.1.1.2);
             ("sequence", JNum (int sequence)); ("fenceToken", JStr (z_to_string (ro_fence kr.2)));
             ("opDigest", JStr (ro_digest kr.2)); ("mutation", ro_mutation kr.2)]).
(** [record.sequence === index + 1] for all of them *)
Fixpoint numbered (index : Z) (records : list jsval) : bool :=
  match records with
  | [] => true
  | r :: records => (bool_decide (field r "sequence" = JNum (int (index + 1))) && numbered (index + 1) records)%bool
  end.

Definition buildPairSnapshotBundle (systemId streamId : string) (throughSequence : Z) (keyId : string) (key : KeyObject) (now : Z) d
    : exc PairSnapshotBundle :=
  _ ← id streamId STREAM_RE "streamId";
  match db_source d !! streamId with
  | None => contract_error "source checkpoint missing"
  | Some cp =>
      sourceSequence ← safe_field (sc_sequence cp) "sourceSequence" 0 MAX_SAFE_INTEGER;
      finalSequence ← safe_field throughSequence "throughSequence" 0 MAX_SAFE_INTEGER;
      _ ← require (bool_decide (finalSequence = sourceSequence)) "snapshot must capture the locked committed source head exactly";
      records ← mapM row_snapshot (rows_through streamId (sc_epoch cp) finalSequence d);
      _ ← require (bool_decide (Z.of_nat (length records) = finalSequence) && numbered 0 records)
            "snapshot history is not contiguous from genesis";
      state ← stateDigest (db_app d);
      history ← canonical_digest (JArr records);
      issued ← safe_field now "issuedAtMs" 0 MAX_MS;
      let bare sg := mkManifest streamId (sc_epoch cp) finalSequence systemId state history issued keyId sg in
      message ← snapshotMessage (bare EmptyString);
      signature ← sign keyId key message;
      Ret (mkBundle (bare signature) records)
  end.

(** ** Verifying *)

Definition verifyPairSnapshotManifest resolver m : exc unit :=
  _ ← id (sm_streamId m) STREAM_RE "streamId";
  _ ← id (sm_sourceEpoch m) ID_RE "sourceEpoch";
  _ ← safe_field (sm_finalSequence m) "finalSequence" 0 MAX_SAFE_INTEGER;
  _ ← safe_field (sm_issuedAtMs m) "issuedAtMs" 0 MAX_MS;
  _ ← require (DIGITS_RE (sm_sourceSystemId m) && HEX64 (sm_stateDigest m) && HEX64 (sm_historyDigest m)) "snapshot manifest malformed";
  message ← snapshotMessage m;
  verify resolver (sm_keyId m) message (sm_signature m).
Definition pairSnapshotManifestDigest m : exc string := canonical_digest (manifest_value m).

Definition verify_record m (index : Z) (record : jsval) : exc unit :=
  _ ← assertHeaderConformant (or_header (record_of record));
  _ ← require (bool_decide (field record "streamId" = JStr (sm_streamId m)) && bool_decide (field record "sourceEpoch" = JStr (sm_sourceEpoch m)) &&
               bool_decide (field record "sequence" = JNum (int (index + 1)))) "snapshot history is gapped/reordered/misbinding";
  _ ← assertSanitized (field record "mutation");
  digest ← canonicalOpDigest (field record "streamId") (field record "sourceEpoch") (field record "sequence")
             (field record "fenceToken") (field record "mutation");
  require (bool_decide (JStr digest = field record "opDigest")) "snapshot record digest mismatch".
Fixpoint verify_records m (index : Z) (records : list jsval) : exc unit :=
  match records with
  | [] => Ret tt
  | r :: records => _ ← verify_record m index r; verify_records m (index + 1) records
  end.
Definition verifyBundle resolver (bundle : PairSnapshotBundle) : exc unit :=
  let m := bu_manifest bundle in
  _ ← verifyPairSnapshotManifest resolver m;
  _ ← (if decide (Z.of_nat (length (bu_records bundle)) ≠ sm_finalSequence m) then contract_error "snapshot history digest/length mismatch"
       else history ← canonical_digest (JArr (bu_records bundle));
            require (bool_decide (history = sm_historyDigest m)) "snapshot history digest/length mismatch");
  verify_records m 0 (bu_records bundle).

(** ** Importing *)

Definition opDigest_of (record : jsval) : string := js_str (field record "opDigest").
Definition key_of (record : jsval) : row_key :=
  (js_str (field record "streamId"), js_str (field record "sourceEpoch"), default 0%Z (js_safe_int (field record "sequence"))).

Fixpoint replay (records : list jsval) : tx (PgDb A) unit :=
  match records with
  | [] => tret tt
  | r :: records =>
      do! app_write (applyInTx (record_of r)) in
      let! n := insert_applied (key_of r) (opDigest_of r) in
      do! tlift (require (bool_decide (n = 1%Z)) "snapshot applied-history insert failed") in
      replay records
  end.
Definition import_tx (bundle : PairSnapshotBundle) : tx (PgDb A) unit :=
  let m := bu_manifest bundle in
  let! pairs := tread (λ d, pair_count (db_app d)) in
  let! pending := tread (λ d, pending_count (db_app d)) in
  if decide (pairs ≠ 0 ∨ pending ≠ 0)%Z then tlift (contract_error "snapshot import requires an empty pair authority") else
  let! cp := tread (λ d, db_receiver d !! sm_streamId m) in
  match cp with
  | None => tlift (contract_error "snapshot import requires a genesis receiver checkpoint")
  | Some cp =>
      do! tlift (if decide (rc_epoch cp ≠ sm_sourceEpoch m) then contract_error "snapshot import requires a genesis receiver checkpoint"
                 else q ← safe_field (rc_sequence cp) "receiverSequence" 0 MAX_SAFE_INTEGER;
                      require (bool_decide (q = 0%Z)) "snapshot import requires a genesis receiver checkpoint") in
      do! replay (bu_records bundle) in
      let! n := update_receiver (sm_streamId m) (sm_finalSequence m) (default EmptyString (opDigest_of <$> last (bu_records bundle))) in
      do! tlift (require (bool_decide (n = 1%Z)) "snapshot checkpoint advance failed") in
      let! digest := tread (λ d, stateDigest (db_app d)) in
      let! digest := tlift digest in
      tlift (require (bool_decide (digest = sm_stateDigest m)) "snapshot replay state digest mismatch")
  end.
Definition importPairSnapshotBundle resolver (f : fate) (bundle : PairSnapshotBundle) d : PgDb A * exc unit :=
  match verifyBundle resolver bundle with
  | Throw e => (d, Throw e)
  | Ret _ => transaction f (import_tx bundle) d
  end.

(** ** Promoting *)

(** [SELECT sequence,op_digest ... ORDER BY sequence] *)
Definition by_number (p q : Z * string) : Prop := (p.1 <= q.1)%Z.
#[export] Instance by_number_dec : RelDecision by_number.
Proof. intros p q. unfold by_number. apply _. Defined.
Definition applied_through (streamId epoch : string) (final : Z) d : list (Z * string) :=
  merge_sort by_number ((λ kd : row_key * string, (kd.1.2, kd.2)) <$>
    filter (λ kd : row_key * string, kd.1.1 = (streamId, epoch) ∧ (kd.1.2 <= final)%Z) (map_to_list (db_applied d))).
(** The rows are the records, one by one. *)
Fixpoint same_history (index : Z) (rows : list (Z * string)) (records : list jsval) : exc bool :=
  match rows, records with
  | (q, digest) :: rows, r :: records =>
      q ← safe_field q "applied sequence" 1 MAX_SAFE_INTEGER;
      if (bool_decide (q = index + 1)%Z && bool_decide (field r "opDigest" = JStr digest))%bool
      then same_history (index + 1) rows records else Ret false
  | _, _ => Ret true
  end.

Definition fenced_binds (targetEpoch : Z) (targetSourceEpoch manifestDigest : string) m (fenced : CutoverReceipt) : bool :=
  let i := cr_intent fenced in
  (bool_decide (cr_phase fenced = "FENCED") && bool_decide (ci_streamId i = sm_streamId m) && bool_decide (ci_targetEpoch i = targetEpoch) &&
   bool_decide (ci_targetSourceEpoch i = targetSourceEpoch) && bool_decide (ci_manifestDigest i = manifestDigest) &&
   bool_decide (ci_finalSourceSequence i = sm_finalSequence m) && bool_decide (ci_stateDigest i = sm_stateDigest m))%bool.

(** The statements of the promotion. *)
Definition raise_fence (streamId : string) (targetEpoch : Z) : tx (PgDb A) Z := λ d,
  match db_fence d !! streamId with
  | Some f => if decide (f < targetEpoch)%Z then
                if fence_check targetEpoch then (set_fence (<[streamId := targetEpoch]> (db_fence d)) d, Ret 1%Z)
                else (d, Throw (PgError "new row violates check constraint"))
              else (d, Ret 0%Z)
  | None => (d, Ret 0%Z)
  end.
Definition open_source (streamId epoch : string) : tx (PgDb A) Z := λ d,
  if negb (text_check streamId && text_check epoch) then (d, Throw (PgError "new row violates check constraint")) else
  let write := (set_source (<[streamId := mkSourceCp epoch 0]> (db_source d)) d, Ret 1%Z) in
  match db_source d !! streamId with
  | None => write
  | Some c => if decide (sc_sequence c = 0%Z) then write else (d, Ret 0%Z)
  end.
Definition promotion_row (manifestDigest : string) m (fenced : CutoverReceipt) : PromotionReceipt :=
  mkPromotion manifestDigest (sm_finalSequence m) (sm_stateDigest m) (sm_keyId m) (sm_signature m) (cr_keyId fenced) (cr_signature fenced).
Definition insert_promotion (k : string * Z) (r : PromotionReceipt) : tx (HaDb A) Z := λ (d : HaDb A),
  if negb (bool_decide (1 <= k.2 <= MAX_EPOCH)%Z && HEX64 (pr_manifestDigest r) &&
           bool_decide (0 <= pr_finalSequence r <= MAX_SAFE_INTEGER)%Z && HEX64 (pr_stateDigest r))
  then (d, Throw (PgError "new row violates check constraint"))
  else match hd_receipts d !! k with
       | Some _ => (d, Throw (PgError "duplicate key value violates unique constraint"))
       | None => (mkHaDb (hd_pg d) (<[k := r]> (hd_receipts d)), Ret 1%Z)
       end.

(** An exact retry finds what the first promotion left. *)
Definition retry_ok (targetEpoch : Z) (targetSourceEpoch manifestDigest : string) m (fenced : CutoverReceipt) (e : PromotionReceipt) d : exc unit :=
  let refuse := contract_error "existing promotion conflicts with exact retry" in
  if decide (pr_manifestDigest e ≠ manifestDigest) then refuse else
  q ← safe_field (pr_finalSequence e) "existing final sequence" 0 MAX_SAFE_INTEGER;
  if negb (bool_decide (q = sm_finalSequence m) && bool_decide (pr_stateDigest e = sm_stateDigest m) &&
           bool_decide (pr_sourceKeyId e = sm_keyId m) && bool_decide (pr_sourceSignature e = sm_signature m) &&
           bool_decide (pr_guardKeyId e = cr_keyId fenced) && bool_decide (pr_guardSignature e = cr_signature fenced))
  then refuse else
  match db_fence d !! sm_streamId m with
  | None => refuse
  | Some f =>
      f ← safe_field f "existing fence" 0 MAX_SAFE_INTEGER;
      require (bool_decide (f = targetEpoch) && bool_decide (sc_epoch <$> db_source d !! sm_streamId m = Some targetSourceEpoch))
        "existing promotion conflicts with exact retry"
  end.

Definition check_receiver m (records : list jsval) d : exc unit :=
  match db_receiver d !! sm_streamId m with
  | None => contract_error "receiver has not applied the complete frozen source tail"
  | Some cp =>
      _ ← (if decide (rc_epoch cp ≠ sm_sourceEpoch m) then contract_error "receiver has not applied the complete frozen source tail"
           else q ← safe_field (rc_sequence cp) "receiverSequence" 0 MAX_SAFE_INTEGER;
                require (bool_decide (q = sm_finalSequence m)) "receiver has not applied the complete frozen source tail");
      let applied := applied_through (sm_streamId m) (sm_sourceEpoch m) (sm_finalSequence m) d in
      same ← (if decide (length applied ≠ length records) then Ret false else same_history 0 applied records);
      _ ← require same "receiver applied-history does not match the signed source history";
      state ← stateDigest (db_app d);
      require (bool_decide (state = sm_stateDigest m)) "receiver state does not match signed source snapshot"
  end.

Definition promote_tx (targetEpoch : Z) (targetSourceEpoch manifestDigest : string) (bundle : PairSnapshotBundle) (fenced : CutoverReceipt)
    : tx (HaDb A) unit :=
  let m := bu_manifest bundle in
  let! existing := tread (λ d : HaDb A, hd_receipts d !! (sm_streamId m, targetEpoch)) in
  match existing with
  | Some e =>
      let! ok := tread (λ d : HaDb A, retry_ok targetEpoch targetSourceEpoch manifestDigest m fenced e (hd_pg d)) in
      tlift ok
  | None =>
      let! ok := tread (λ d : HaDb A, check_receiver m (bu_records bundle) (hd_pg d)) in
      do! tlift ok in
      let! n := on_pg (raise_fence (sm_streamId m) targetEpoch) in
      do! tlift (require (bool_decide (n = 1%Z)) "promotion fence advance failed") in
      let! n := on_pg (open_source (sm_streamId m) targetSourceEpoch) in
      do! tlift (require (bool_decide (n = 1%Z)) "promotion source checkpoint initialization failed") in
      let! n := insert_promotion (sm_streamId m, targetEpoch) (promotion_row manifestDigest m fenced) in
      tlift (require (bool_decide (n = 1%Z)) "promotion receipt insert failed")
  end.

(** The checks before the transaction, and the digest of the manifest. *)
Definition promotion_checks sourceResolver guardResolver (bundle : PairSnapshotBundle) (targetEpoch : Z) (targetSourceEpoch : string)
    (fenced : CutoverReceipt) : exc string :=
  let m := bu_manifest bundle in
  _ ← verifyBundle sourceResolver bundle;
  _ ← verifyPairSnapshotManifest sourceResolver m;
  _ ← safe_field targetEpoch "targetEpoch" 1 MAX_EPOCH;
  _ ← id targetSourceEpoch ID_RE "targetSourceEpoch";
  _ ← verifyCutoverReceipt guardResolver fenced;
  manifestDigest ← pairSnapshotManifestDigest m;
  _ ← require (fenced_binds targetEpoch targetSourceEpoch manifestDigest m fenced) "signed FENCED receipt does not bind this promotion";
  Ret manifestDigest.
Definition promoteReceiverToSource sourceResolver guardResolver (f : fate) (bundle : PairSnapshotBundle) (targetEpoch : Z)
    (targetSourceEpoch : string) (fenced : CutoverReceipt) (d : HaDb A) : HaDb A * exc unit :=
  match promotion_checks sourceResolver guardResolver bundle targetEpoch targetSourceEpoch fenced with
  | Throw e => (d, Throw e)
  | Ret manifestDigest => transaction f (promote_tx targetEpoch targetSourceEpoch manifestDigest bundle fenced) d
  end.

(** ** The attestation of a promotion *)

Definition buildPromotionReadinessAttestation (systemId : string) (fenced : CutoverReceipt) (snapshotKeyId keyId : string) (key : KeyObject) d
    : exc PromotionReadinessAttestation :=
  let i := cr_intent fenced in
  let not_ready {B} : exc B := contract_error "promoted receiver/source state is not ready" in
  _ ← require (bool_decide (cr_phase fenced = "FENCED")) "readiness attestation requires FENCED cutover";
  match db_receiver d !! ci_streamId i with
  | None => not_ready
  | Some cp =>
      q ← safe_field (rc_sequence cp) "appliedSequence" 0 MAX_SAFE_INTEGER;
      if decide (q ≠ ci_finalSourceSequence i) then not_ready else
      match db_source d !! ci_streamId i with
      | None => not_ready
      | Some source =>
          if decide (sc_epoch source ≠ ci_targetSourceEpoch i) then not_ready else
          n ← safe_field (sc_sequence source) "newSourceSequence" 0 MAX_SAFE_INTEGER;
          if decide (n ≠ 0%Z) then not_ready else
          state ← stateDigest (db_app d);
          if decide (state ≠ ci_stateDigest i) then not_ready else
          let bare dg sg := mkReadiness (ci_streamId i) (ci_commandId i) (ci_targetEpoch i) (ci_targetSourceEpoch i) systemId snapshotKeyId
            (ci_manifestDigest i) (ci_finalSourceSequence i) (ci_stateDigest i) (cr_stateDigestSigned fenced) keyId dg sg in
          message ← promotionAttestationMessage (bare EmptyString EmptyString) EmptyString;
          let attestationDigest := sha256_hex message in
          message' ← promotionAttestationMessage (bare attestationDigest EmptyString) attestationDigest;
          signature ← sign keyId key message';
          Ret (bare attestationDigest signature)
      end
  end.
End snapshot.
