(* ===== verification/SnapshotSafety.v ===== *)
(** * What a promotion guarantees

    A promotion that commits has found the receiver with exactly the signed history
    and state, it moves the fence up to the new epoch and opens the new source
    sequence once, and its retry changes nothing.  A fresh receiver that imports the
    snapshot satisfies what the promotion checks. *)

From S2P Require Import Prelude JsNum Encoding Json JsText Crypto OutboxContract OutboxDigest OutboxPg OutboxPgFacts HttpTransport HaSigned SourceLease Cutover Snapshot.
From stdpp Require Import base strings list gmap sorting.
From Stdlib Require Import ZArith Lia.

Local Open Scope string_scope.
Local Open Scope bpc_scope.

#[export] Instance by_number_total : Total by_number.
Proof. intros p q. unfold by_number. lia. Qed.
#[export] Instance by_number_trans : Transitive by_number.
Proof. intros p q r. unfold by_number. lia. Qed.

Section safety.
Context `{WC : WebCrypto} `{NB : NodeBuffer} `{ED : Ed25519} `{SAN : MutationSanitizer} {A : Type}.
Context (pairs_text pending_text : A → string) (pair_count pending_count : A → Z).
Context (applyInTx : OutboxRecord → A → exc A).
Implicit Types (d : PgDb A) (m : PairSnapshotManifest) (resolver : string → option KeyObject).

(** ** The applied history *)

Lemma safe_integer_between z : (0 <= z)%Z → (z <= MAX_SAFE_INTEGER)%Z → is_safe_integer z = true.
Proof. intros H0 H1. unfold is_safe_integer. rewrite !bool_decide_true; [done|lia|unfold MAX_SAFE_INTEGER in *; lia]. Qed.
Lemma safe_field_keep z label min max : is_safe_integer z = true → (min <= z <= max)%Z → safe_field z label min max = Ret z.
Proof. intros. by apply safe_field_Ret. Qed.

Lemma same_history_lookup index rows records : same_history index rows records = Ret true → length rows = length records →
  ∀ i r, records !! i = Some r → ∃ dg, rows !! i = Some (index + Z.of_nat i + 1, dg)%Z ∧ field r "opDigest" = JStr dg.
Proof.
  revert index rows. induction records as [|x records IH]; intros index [|[q dg] rows] H Hlen i r Hr; try done.
  cbn [same_history] in H. apply exc_bind_Ret in H as (q' & (-> & _)%safe_field_Ret & H). destruct (_ && _)%bool eqn:Hc; [|done]. btrue.
  destruct i as [|i]; [injection Hr as <-; exists dg; split; [cbn; do 2 f_equal; lia|done]|]. injection Hlen as Hlen.
  destruct (IH _ _ H Hlen i r Hr) as (dg' & Hrow & Hd). exists dg'. split; [|done]. etrans; [exact Hrow|]. do 2 f_equal. lia.
Qed.

Lemma elem_of_applied_through s e final d q dg :
  (q, dg) ∈ applied_through s e final d ↔ db_applied d !! (s, e, q) = Some dg ∧ (q <= final)%Z.
Proof.
  unfold applied_through. rewrite merge_sort_Permutation, list_elem_of_fmap. split.
  - intros ([[k1 k2] x] & [= -> ->] & [[Hk Hq] Hin%elem_of_map_to_list]%list_elem_of_filter). cbn in *. by subst k1.
  - intros [H Hq]. exists ((s, e, q), dg). split; [done|]. apply list_elem_of_filter. split; [done|]. by apply elem_of_map_to_list.
Qed.

Lemma check_receiver_Ret m records d : check_receiver pairs_text pending_text m records d = Ret tt →
  (∃ cp, db_receiver d !! sm_streamId m = Some cp ∧ rc_epoch cp = sm_sourceEpoch m ∧ rc_sequence cp = sm_finalSequence m) ∧
  (∀ i r, records !! i = Some r → db_applied d !! (sm_streamId m, sm_sourceEpoch m, Z.of_nat i + 1)%Z = Some (opDigest_of r)) ∧
  stateDigest pairs_text pending_text (db_app d) = Ret (sm_stateDigest m).
Proof.
  unfold check_receiver. destruct (db_receiver d !! _) as [cp|]; [|done]. intros ([] & Hcp & H)%exc_bind_Ret.
  destruct (decide (rc_epoch cp ≠ sm_sourceEpoch m)) as [|He%dec_stable]; [done|]. apply exc_bind_Ret in Hcp as (q & (-> & _)%safe_field_Ret & Hq%require_Ret). apply bool_decide_eq_true in Hq.
  apply exc_bind_Ret in H as (same & Hs & H). apply exc_bind_Ret in H as ([] & ->%require_Ret & H).
  apply exc_bind_Ret in H as (state & Hst & H%require_Ret). apply bool_decide_eq_true in H as <-. case_decide as Hlen; [done|].
  split_and!; [|intros i r Hr|done].
  - exists cp. by split_and!.
  - destruct (same_history_lookup _ _ _ Hs Hlen i r Hr) as (dg & Hrow%list_elem_of_lookup_2 & Hd).
    apply elem_of_applied_through in Hrow as [Hrow _]. rewrite Z.add_0_l in Hrow. unfold opDigest_of. by rewrite Hd.
Qed.

(** ** The promotion *)

Lemma promotion_checks_Ret sr gr bundle e ep fenced dg : promotion_checks sr gr bundle e ep fenced = Ret dg →
  verifyBundle sr bundle = Ret tt ∧ verifyCutoverReceipt gr fenced = Ret tt ∧ is_safe_integer e = true ∧ (1 <= e)%Z ∧
  pairSnapshotManifestDigest (bu_manifest bundle) = Ret dg ∧ fenced_binds e ep dg (bu_manifest bundle) fenced = true.
Proof.
  unfold promotion_checks. intros ([] & Hb & H)%exc_bind_Ret. apply exc_bind_Ret in H as ([] & _ & H).
  apply exc_bind_Ret in H as (? & (_ & Hs & He)%safe_field_Ret & H). apply exc_bind_Ret in H as (? & _ & H).
  apply exc_bind_Ret in H as ([] & Hv & H). apply exc_bind_Ret in H as (dg' & Hdg & H). apply exc_bind_Ret in H as ([] & Hr%require_Ret & [= <-]).
  split_and!; [done..|lia|done|done].
Qed.

Lemma verifyBundle_final sr bundle : verifyBundle sr bundle = Ret tt → is_safe_integer (sm_finalSequence (bu_manifest bundle)) = true ∧
  (0 <= sm_finalSequence (bu_manifest bundle) <= MAX_SAFE_INTEGER)%Z ∧ Z.of_nat (length (bu_records bundle)) = sm_finalSequence (bu_manifest bundle) ∧
  verify_records (bu_manifest bundle) 0 (bu_records bundle) = Ret tt.
Proof.
  unfold verifyBundle, verifyPairSnapshotManifest. intros ([] & Hm & H)%exc_bind_Ret. apply exc_bind_Ret in H as ([] & Hh & H).
  do 2 (apply exc_bind_Ret in Hm as (? & _ & Hm)). apply exc_bind_Ret in Hm as (? & (_ & Hs & Hb)%safe_field_Ret & _).
  case_decide as Hl; [done|]. split_and!; [done|lia|lia|done|done].
Qed.

(** The database after a promotion. *)
Definition promoted (s ep : string) (e : Z) (r : PromotionReceipt) (d : HaDb A) : HaDb A :=
  mkHaDb (set_source (<[s := mkSourceCp ep 0]> (db_source (hd_pg d))) (set_fence (<[s := e]> (db_fence (hd_pg d))) (hd_pg d)))
    (<[(s, e) := r]> (hd_receipts d)).

Lemma promote_tx_Ret e ep dg bundle fenced (d d' : HaDb A) : hd_receipts d !! (sm_streamId (bu_manifest bundle), e) = None →
  promote_tx pairs_text pending_text e ep dg bundle fenced d = (d', Ret tt) →
  let m := bu_manifest bundle in
  check_receiver pairs_text pending_text m (bu_records bundle) (hd_pg d) = Ret tt ∧
  (∃ f, db_fence (hd_pg d) !! sm_streamId m = Some f ∧ (f < e)%Z) ∧
  (∀ c, db_source (hd_pg d) !! sm_streamId m = Some c → sc_sequence c = 0%Z) ∧
  d' = promoted (sm_streamId m) ep e (promotion_row dg m fenced) d.
Proof.
  intros Hno. unfold promote_tx. intros (s1 & x & [-> ->]%tread_Ret & H)%tbind_Ret. rewrite Hno in H.
  apply tbind_Ret in H as (s2 & ok & [-> ->]%tread_Ret & H). apply tbind_Ret in H as (s3 & [] & [Hok ->]%tlift_Ret & H).
  apply tbind_Ret in H as (s4 & n & Hf & H). apply tbind_Ret in H as (s5 & [] & [Hn%require_Ret ->]%tlift_Ret & H).
  apply bool_decide_eq_true in Hn as ->. apply tbind_Ret in H as (s6 & n & Hs & H).
  apply tbind_Ret in H as (s7 & [] & [Hn%require_Ret ->]%tlift_Ret & H). apply bool_decide_eq_true in Hn as ->.
  apply tbind_Ret in H as (s8 & n & Hi & H). apply tlift_Ret in H as [_ ->]. destruct d as [d rs]. cbn [hd_pg hd_receipts] in *.
  unfold on_pg, raise_fence in Hf. cbn [hd_pg hd_receipts] in Hf. destruct (db_fence d !! _) as [f|] eqn:Hfence; [|done].
  case_decide as Hlt; [|done]. destruct (fence_check e); [|done]. injection Hf as <-.
  unfold on_pg, open_source in Hs. cbn [hd_pg hd_receipts] in Hs. destruct (negb _); [done|].
  unfold insert_promotion in Hi. destruct (negb _); [done|].
  assert ((∀ c, db_source d !! sm_streamId (bu_manifest bundle) = Some c → sc_sequence c = 0%Z) ∧
    s6 = mkHaDb (set_source (<[sm_streamId (bu_manifest bundle) := mkSourceCp ep 0]> (db_source d))
           (set_fence (<[sm_streamId (bu_manifest bundle) := e]> (db_fence d)) d)) rs) as [Hsrc ->].
  { cbn [set_fence db_source] in Hs. destruct (db_source d !! sm_streamId (bu_manifest bundle)) as [c|]; [|by injection Hs as <-].
    case_decide as Hc; [|done]. injection Hs as <-. split; [by intros ? [= <-]|done]. }
  cbn [hd_receipts] in Hi. rewrite Hno in Hi. injection Hi as <- _. split_and!; [done|by exists f|done|done].
Qed.

Lemma retry_after e ep dg m fenced (d : HaDb A) : is_safe_integer (sm_finalSequence m) = true → (0 <= sm_finalSequence m <= MAX_SAFE_INTEGER)%Z →
  is_safe_integer e = true → (1 <= e)%Z →
  retry_ok e ep dg m fenced (promotion_row dg m fenced) (hd_pg (promoted (sm_streamId m) ep e (promotion_row dg m fenced) d)) = Ret tt.
Proof.
  intros Hs Hb He He1. unfold retry_ok, promotion_row, promoted. cbn. rewrite decide_False by tauto. rewrite safe_field_keep by done. cbn.
  rewrite !bool_decide_true by done. cbn. rewrite !lookup_insert_eq. rewrite safe_field_keep by (done || (unfold is_safe_integer in He; btrue; lia)).
  cbn. by rewrite !bool_decide_true.
Qed.

(** C24 What a first promotion that returns has established: the snapshot is signed by
    the source, a FENCED receipt signed by the guard binds its manifest and the new
    epoch, and the receiver has applied exactly its records and has exactly its state.
    It has moved the fence up to the new epoch and opened the new sequence, and
    nothing else; and the same call afterwards returns without a further change. *)
Theorem promotion_exact sr gr f bundle e ep fenced (d d' : HaDb A) :
  hd_receipts d !! (sm_streamId (bu_manifest bundle), e) = None →
  promoteReceiverToSource pairs_text pending_text sr gr f bundle e ep fenced d = (d', Ret tt) →
  let m := bu_manifest bundle in
  verifyBundle sr bundle = Ret tt ∧ verifyCutoverReceipt gr fenced = Ret tt ∧
  (∃ dg, pairSnapshotManifestDigest m = Ret dg ∧ fenced_binds e ep dg m fenced = true ∧
     d' = promoted (sm_streamId m) ep e (promotion_row dg m fenced) d) ∧
  (∃ cp, db_receiver (hd_pg d) !! sm_streamId m = Some cp ∧ rc_epoch cp = sm_sourceEpoch m ∧ rc_sequence cp = sm_finalSequence m) ∧
  (∀ i r, bu_records bundle !! i = Some r →
     db_applied (hd_pg d) !! (sm_streamId m, sm_sourceEpoch m, Z.of_nat i + 1)%Z = Some (opDigest_of r)) ∧
  stateDigest pairs_text pending_text (db_app (hd_pg d)) = Ret (sm_stateDigest m) ∧
  (∃ f, db_fence (hd_pg d) !! sm_streamId m = Some f ∧ (f < e)%Z) ∧
  promoteReceiverToSource pairs_text pending_text sr gr Committed bundle e ep fenced d' = (d', Ret tt).
Proof.
  intros Hno. unfold promoteReceiverToSource. destruct (promotion_checks _ _ _ _ _ _) as [dg|] eqn:Hc; [|done].
  pose proof (promotion_checks_Ret _ _ _ _ _ _ _ Hc) as (Hb & Hv & Hse & He & Hdg & Hbind).
  destruct (verifyBundle_final _ _ Hb) as (Hsf & Hf & _). intros Ht. apply transaction_cases in Ht as [[_ (? & ?)]|([] & Ht & _)]; [done|].
  destruct (promote_tx_Ret _ _ _ _ _ _ _ Hno Ht) as (Hrec & Hfence & _ & ->). apply check_receiver_Ret in Hrec as (Hcp & Happ & Hst).
  split_and!; [done|done|by exists dg|done|done|done|done|].
  pose proof (retry_after e ep dg (bu_manifest bundle) fenced d Hsf Hf Hse He) as Hr. revert Hr.
  set (d' := promoted _ _ _ _ d). intros Hr.
  assert (hd_receipts d' !! (sm_streamId (bu_manifest bundle), e) = Some (promotion_row dg (bu_manifest bundle) fenced)) as Hl
    by apply lookup_insert_eq.
  unfold transaction, promote_tx, tbind, tread. rewrite Hl, Hr. done.
Qed.

(** ** Importing a snapshot *)

(** The applied rows of records numbered from [index + 1]. *)
Fixpoint history (s e : string) (index : Z) (records : list jsval) : gmap row_key string :=
  match records with [] => ∅ | r :: records => <[(s, e, index + 1)%Z := opDigest_of r]> (history s e (index + 1) records) end.
Fixpoint digests_from (index : Z) (records : list jsval) : list (Z * string) :=
  match records with [] => [] | r :: records => ((index + 1)%Z, opDigest_of r) :: digests_from (index + 1) records end.

Lemma digests_from_bound index records q dg : (q, dg) ∈ digests_from index records → (index < q <= index + Z.of_nat (length records))%Z.
Proof.
  revert index. induction records as [|r records IH]; intros index; cbn [digests_from length]; [by intros ?%not_elem_of_nil|].
  intros [[= -> ->]|H%IH]%elem_of_cons; lia.
Qed.
Lemma digests_from_sorted index records : StronglySorted by_number (digests_from index records).
Proof.
  revert index. induction records as [|r records IH]; intros index; cbn [digests_from]; constructor; [by apply IH|].
  apply Forall_forall. intros [q dg] Hq%digests_from_bound. unfold by_number. cbn. lia.
Qed.
Lemma digests_from_nodup index records : NoDup (digests_from index records).
Proof.
  revert index. induction records as [|r records IH]; intros index; cbn [digests_from]; constructor; [|by apply IH].
  intros Hq%digests_from_bound. lia.
Qed.

Lemma history_Some s e index records k dg : history s e index records !! k = Some dg ↔ ∃ q, k = (s, e, q) ∧ (q, dg) ∈ digests_from index records.
Proof.
  revert index. induction records as [|r records IH]; intros index; cbn [history digests_from].
  { rewrite lookup_empty. split; [done|]. by intros (q & _ & ?%not_elem_of_nil). }
  destruct (decide ((s, e, index + 1)%Z = k)) as [<-|Hne].
  - rewrite lookup_insert_eq. split.
    + intros [= <-]. exists (index + 1)%Z. split; [done|]. by apply elem_of_cons; left.
    + intros (q & [= <-] & [[= ->]|Hq%digests_from_bound]%elem_of_cons); [done|lia].
  - rewrite lookup_insert_ne, IH by done. split; intros (q & -> & Hq); exists q; (split; [done|]).
    + by apply elem_of_cons; right.
    + apply elem_of_cons in Hq as [[= -> _]|Hq]; [done|done].
Qed.

(** A record of a verified bundle, at its place. *)
Definition in_place m (index : Z) (r : jsval) : Prop :=
  key_of r = (sm_streamId m, sm_sourceEpoch m, (index + 1)%Z) ∧ field r "opDigest" = JStr (opDigest_of r).
Fixpoint placed m (index : Z) (records : list jsval) : Prop :=
  match records with [] => True | r :: records => in_place m index r ∧ placed m (index + 1) records end.

Lemma verify_records_placed m index records : verify_records m index records = Ret tt → (0 <= index)%Z →
  (index + Z.of_nat (length records) <= MAX_SAFE_INTEGER)%Z → placed m index records.
Proof.
  revert index. induction records as [|r records IH]; intros index; cbn [verify_records placed length]; [done|].
  intros ([] & Hr & H)%exc_bind_Ret H0 Hb. split; [|apply IH; [done|lia|lia]]. unfold verify_record in Hr.
  apply exc_bind_Ret in Hr as ([] & _ & Hr). apply exc_bind_Ret in Hr as ([] & Hf%require_Ret & Hr). btrue.
  apply exc_bind_Ret in Hr as ([] & _ & Hr). apply exc_bind_Ret in Hr as (dg & _ & Hd%require_Ret). apply bool_decide_eq_true in Hd.
  unfold in_place, key_of, opDigest_of. rewrite <-Hd. split; [|done].
  repeat match goal with H : field r _ = _ |- _ => rewrite H; clear H end. cbn [js_str].
  assert (js_safe_int (JNum (int (index + 1))) = Some (index + 1)%Z) as ->; [|done].
  apply js_safe_int_Some. split; [done|]. by apply safe_integer_between; lia.
Qed.

Lemma replay_Ret m index records d d' : placed m index records → replay applyInTx records d = (d', Ret tt) →
  db_receiver d' = db_receiver d ∧ db_source d' = db_source d ∧ db_fence d' = db_fence d ∧ db_rows d' = db_rows d ∧
  foldl (λ a r, a ≫= applyInTx (record_of r)) (Ret (db_app d)) records = Ret (db_app d') ∧
  history (sm_streamId m) (sm_sourceEpoch m) index records ##ₘ db_applied d ∧
  db_applied d' = history (sm_streamId m) (sm_sourceEpoch m) index records ∪ db_applied d.
Proof.
  revert index d. induction records as [|r records IH]; intros index d; cbn [replay placed history foldl].
  { intros _ [_ ->]%tret_Ret. split_and!; [done..|apply map_disjoint_empty_l|by rewrite map_empty_union]. }
  intros [[Hk Hd] Hp] (s1 & [] & (a & Ha & ->)%app_write_Ret & H)%tbind_Ret.
  apply tbind_Ret in H as (s2 & n & (-> & Hnone & ->)%insert_applied_Ret & H). apply tbind_Ret in H as (s3 & [] & [_ ->]%tlift_Ret & H).
  destruct (IH _ _ Hp H) as (H1 & H2 & H3 & H4 & H5 & H6 & H7). rewrite Hk in Hnone, H6, H7.
  cbn [set_applied set_app db_applied db_app db_receiver db_source db_fence db_rows] in *.
  apply map_disjoint_insert_r in H6 as [Hh H6]. split_and!; [done..| | |].
  - change (Ret (db_app d) ≫= applyInTx (record_of r)) with (applyInTx (record_of r) (db_app d)). by rewrite Ha.
  - apply map_disjoint_insert_l. by split.
  - rewrite H7. by rewrite <-insert_union_l, insert_union_r.
Qed.

(** What [db_applied] has of the stream is what [applied_through] returns. *)
Lemma applied_through_history (s e : string) (records : list jsval) d (old : gmap row_key string) : db_applied d = history s e 0 records ∪ old →
  (∀ q, old !! (s, e, q) = None) → applied_through s e (Z.of_nat (length records)) d = digests_from 0 records.
Proof.
  intros Hd H0. assert (∀ x, x ∈ applied_through s e (Z.of_nat (length records)) d ↔ x ∈ digests_from 0 records) as Helem.
  { intros [q dg]. rewrite elem_of_applied_through, Hd, lookup_union_Some_raw, history_Some, H0. split.
    - intros [[(q' & [= <-] & ?)|[_ ?]] _]; [done|done].
    - intros Hq. split; [left; by exists q|]. apply digests_from_bound in Hq. lia. }
  apply (StronglySorted_unique_strong by_number).
  - intros [q dg] [q' dg'] Hx%Helem Hy Hxy Hyx. unfold by_number in *. cbn in Hxy, Hyx. assert (q' = q) as -> by lia.
    clear -Hx Hy. revert Hx Hy. generalize 0%Z. induction records as [|r records IH]; intros index; cbn [digests_from]; [by intros ?%not_elem_of_nil|].
    intros Hx%elem_of_cons Hy%elem_of_cons. destruct Hx as [Hx|Hx], Hy as [Hy|Hy]; [congruence| | |by eapply IH].
    + injection Hx as -> ->. apply digests_from_bound in Hy. lia.
    + injection Hy as -> ->. apply digests_from_bound in Hx. lia.
  - unfold applied_through. apply (StronglySorted_merge_sort by_number).
  - apply digests_from_sorted.
  - apply NoDup_Permutation; [|apply digests_from_nodup|done]. unfold applied_through. rewrite merge_sort_Permutation.
    apply NoDup_fmap_2_strong; [|by apply NoDup_filter, NoDup_map_to_list].
    intros [[k1 k2] x] [[k1' k2'] x'] [[Hk _] _]%list_elem_of_filter [[Hk' _] _]%list_elem_of_filter [= -> ->]. cbn in *. congruence.
Qed.

Lemma same_history_placed m index records : placed m index records → (0 <= index)%Z →
  (index + Z.of_nat (length records) <= MAX_SAFE_INTEGER)%Z → same_history index (digests_from index records) records = Ret true.
Proof.
  revert index. induction records as [|r records IH]; intros index; cbn [placed digests_from length same_history]; [done|].
  intros [[_ Hd] Hp] H0 Hb. rewrite safe_field_keep by (by (apply safe_integer_between; lia) || lia).
  change (Ret (index + 1)%Z ≫= ?k) with (k (index + 1)%Z). cbn beta. rewrite !bool_decide_true by done. cbn [andb]. apply IH; [done|lia|lia].
Qed.
Lemma digests_from_length index records : length (digests_from index records) = length records.
Proof. revert index. induction records as [|r records IH]; intros index; [done|]. cbn [digests_from length]. by rewrite IH. Qed.

Lemma import_tx_Ret bundle d d' : import_tx pairs_text pending_text pair_count pending_count applyInTx bundle d = (d', Ret tt) →
  let m := bu_manifest bundle in
  ∃ cp d1, db_receiver d !! sm_streamId m = Some cp ∧ rc_epoch cp = sm_sourceEpoch m ∧ rc_sequence cp = 0%Z ∧
    replay applyInTx (bu_records bundle) d = (d1, Ret tt) ∧
    (∃ c last, db_receiver d1 !! sm_streamId m = Some c ∧
       d' = set_receiver (<[sm_streamId m := mkReceiverCp (rc_epoch c) (sm_finalSequence m) last]> (db_receiver d1)) d1) ∧
    stateDigest pairs_text pending_text (db_app d') = Ret (sm_stateDigest m).
Proof.
  unfold import_tx. intros (s1 & pairs & [-> ->]%tread_Ret & H)%tbind_Ret. apply tbind_Ret in H as (s2 & pending & [-> ->]%tread_Ret & H).
  case_decide; [by apply tlift_Ret in H as [? _]|]. apply tbind_Ret in H as (s3 & x & [-> ->]%tread_Ret & H).
  destruct (db_receiver d !! _) as [cp|] eqn:Hcp; [|by apply tlift_Ret in H as [? _]].
  apply tbind_Ret in H as (s4 & [] & [Hok ->]%tlift_Ret & H). case_decide as He; [done|].
  apply exc_bind_Ret in Hok as (q & (-> & _)%safe_field_Ret & Hq%require_Ret). apply bool_decide_eq_true in Hq.
  apply tbind_Ret in H as (d1 & [] & Hrep & H). apply tbind_Ret in H as (s5 & n & Hu & H).
  apply tbind_Ret in H as (s6 & [] & [Hn%require_Ret ->]%tlift_Ret & H). apply bool_decide_eq_true in Hn as ->.
  apply update_receiver_Ret in Hu as (c & Hc & ->). apply tbind_Ret in H as (s7 & x & [-> ->]%tread_Ret & H).
  apply tbind_Ret in H as (s8 & dg & [Hdg ->]%tlift_Ret & H). apply tlift_Ret in H as [Hr%require_Ret ->]. apply bool_decide_eq_true in Hr as ->.
  exists cp, d1. split_and!; [done|done|done|done| |done]. by eexists c, _.
Qed.

(** C25 An import that returns has replayed exactly the signed records, in order, on an
    application state without pairs, and reproduced the signed state; and a receiver
    that had applied nothing of this source before is then exactly what the promotion
    of this snapshot checks for. *)
Theorem import_promotable resolver bundle f d d' :
  importPairSnapshotBundle pairs_text pending_text pair_count pending_count applyInTx resolver f bundle d = (d', Ret tt) →
  let m := bu_manifest bundle in
  (∀ q, db_applied d !! (sm_streamId m, sm_sourceEpoch m, q) = None) →
  verifyBundle resolver bundle = Ret tt ∧
  foldl (λ a r, a ≫= applyInTx (record_of r)) (Ret (db_app d)) (bu_records bundle) = Ret (db_app d') ∧
  db_applied d' = history (sm_streamId m) (sm_sourceEpoch m) 0 (bu_records bundle) ∪ db_applied d ∧
  check_receiver pairs_text pending_text m (bu_records bundle) d' = Ret tt.
Proof.
  unfold importPairSnapshotBundle. destruct (verifyBundle resolver bundle) as [[]|] eqn:Hv; [|done]. intros Ht Hfresh.
  destruct (verifyBundle_final _ _ Hv) as (Hsf & Hf & Hlen & Hrec). apply verify_records_placed in Hrec; [|lia|lia].
  apply transaction_cases in Ht as [[_ (? & ?)]|([] & Ht & _)]; [done|].
  apply import_tx_Ret in Ht as (cp & d1 & Hcp & He & Hq & Hrep & (c & lst & Hc & ->) & Hst).
  destruct (replay_Ret _ _ _ _ _ Hrec Hrep) as (H1 & _ & _ & _ & Happ & _ & Hap). cbn [set_receiver db_app db_applied] in *.
  split_and!; [done|done|done|]. assert (c = cp) as -> by congruence. unfold check_receiver. cbn [set_receiver db_receiver db_app].
  rewrite lookup_insert_eq. cbn [rc_epoch rc_sequence]. rewrite He. destruct (decide (sm_sourceEpoch (bu_manifest bundle) ≠ sm_sourceEpoch (bu_manifest bundle))); [done|].
  rewrite safe_field_keep by done.
  change (Ret (sm_finalSequence (bu_manifest bundle)) ≫= ?k) with (k (sm_finalSequence (bu_manifest bundle))). cbn beta.
  rewrite bool_decide_true by done. change (require true ?x ≫= ?k) with (k tt). cbn beta.
  match goal with |- context [applied_through ?s ?e ?n ?x] => assert (applied_through s e n x = digests_from 0 (bu_records bundle)) as -> end.
  { rewrite <-Hlen. by apply (applied_through_history _ _ _ _ (db_applied d)). }
  rewrite digests_from_length. destruct (decide (length (bu_records bundle) ≠ length (bu_records bundle))); [done|].
  rewrite (same_history_placed (bu_manifest bundle)) by (done || lia).
  apply exc_bind_Ret. exists true. split; [done|]. apply exc_bind_Ret. exists tt. split; [done|].
  apply exc_bind_Ret. exists (sm_stateDigest (bu_manifest bundle)). split; [done|]. apply require_Ret. by apply bool_decide_eq_true.
Qed.
End safety.
