(* ===== verification/OutboxSafety.v ===== *)
(** * Exactly-once delivery of the durable outbox

    The invariant [inv] relates the two nodes of a stream: the source's rows are
    numbered contiguously, whatever was sent carries a row, the receiver has
    applied exactly the rows up to its checkpoint, in order, and only rows it has
    applied are acknowledged.  Every step of every process keeps it, whatever the
    network and the commits do. *)

From S2P Require Import Prelude Proc JsNum Encoding Json JsText Crypto OutboxContract OutboxCanon OutboxDigest OutboxPg OutboxPgFacts OutboxPublisher.
From stdpp Require Import base strings list gmap sorting.
From Stdlib Require Import ZArith Lia.

Local Open Scope string_scope.
Local Open Scope bpc_scope.

(** ** Rows as records *)

Lemma ROW_KEYS_NoDup : NoDup ROW_KEYS.
Proof. apply (bool_decide_unpack _). vm_compute. exact I. Qed.

Section rows.
Context `{WC : WebCrypto} `{SAN : MutationSanitizer}.

Lemma field_row_obj k r key v : jfin (ro_mutation r) →
  match row_obj (k, r) with JObj l => om_get key l = Some v | _ => False end →
  field (copied (row_obj (k, r))) key = copied v.
Proof. intros Hm Hg. unfold row_obj in *. rewrite field_copied by exact ROW_KEYS_NoDup. by rewrite Hg. Qed.

Lemma row_obj_distinct k r : jfin (ro_mutation r) → keys_distinct (row_obj (k, r)).
Proof.
  intros Hm. apply keys_distinct_obj. split; [exact ROW_KEYS_NoDup|].
  repeat apply Forall_cons_2; cbn [snd]; [done..|by apply jfin_distinct|by apply Forall_nil_2].
Qed.

(** The publisher sends a row as a record that carries it, after checking that
    the stored digest is the digest of what it sends. *)
Lemma row_record_Ret k r rec : jfin (ro_mutation r) → row_record k.1.1 (row_obj (k, r)) = Ret rec →
  carries k r rec ∧ assertSanitized (or_mutation rec) = Ret tt ∧ assertHeaderConformant (row_header k r) = Ret tt ∧
  canonicalOpDigest (JStr k.1.1) (JStr k.1.2) (JNum (int k.2)) (JStr (z_to_string (ro_fence r))) (or_mutation rec) =
    Ret (ro_digest r).
Proof.
  intros Hm. unfold row_record. intros (row & Hrow & H)%exc_bind_Ret.
  apply snapshotJson_Ret in Hrow as (_ & -> & _); [|by apply row_obj_distinct].
  apply exc_bind_Ret in H as ([] & _ & H).
  erewrite !field_row_obj in H; [|first [exact Hm|reflexivity]..].
  change (copied (JStr ?s)) with (JStr s) in H. cbn [js_to_string mbind exc_bind] in H.
  apply exc_bind_Ret in H as (q & [-> _]%safeSeq_z & H). cbn [fst snd js_to_string mbind exc_bind] in H.
  apply exc_bind_Ret in H as (rec' & Hrec & H).
  apply snapshotRecord_scalar in Hrec as [-> Hconf]; [|by apply copied_fin|by repeat constructor].
  apply exc_bind_Ret in H as ([] & Hsan & H). apply exc_bind_Ret in H as (dg & Hdg & H).
  apply exc_bind_Ret in H as (same & Hsame & H). destruct same; [|done].
  injection H as <-. apply digestEqualsField_true in Hsame. cbn in Hsame. injection Hsame as Hsame.
  split_and!; try done.
  - split_and!; cbn [or_mutation]; [done|by apply copied_fin, copied_fin|].
    by rewrite !copied_sorted by auto using copied_fin.
  - rewrite Hsame. exact Hdg.
Qed.
End rows.

(** ** The invariant *)

(** The applier run over records in order. *)
Fixpoint replay {B} (applyInTx : OutboxRecord → B → exc B) (recs : list OutboxRecord) (a : B) : exc B :=
  match recs with [] => Ret a | rec :: recs => a ← applyInTx rec a; replay applyInTx recs a end.

Lemma replay_snoc {B} (f : OutboxRecord → B → exc B) recs rec a a1 a2 :
  replay f recs a = Ret a1 → f rec a1 = Ret a2 → replay f (recs ++ [rec]) a = Ret a2.
Proof.
  revert a. induction recs as [|r recs IH]; intros a; simpl.
  - intros [= ->] H. by rewrite H.
  - intros (a' & Ha & H)%exc_bind_Ret H2. rewrite Ha. simpl. by apply IH.
Qed.

(** Two states of a row: what identifies its operation does not change. *)
Definition same_row (r r' : OutboxRow) : Prop :=
  ro_fence r' = ro_fence r ∧ ro_digest r' = ro_digest r ∧ ro_mutation r' = ro_mutation r.
Lemma same_row_refl r : same_row r r.
Proof. done. Qed.
Lemma carries_same k r r' rec : same_row r r' → carries k r rec → carries k r' rec.
Proof. intros (H1 & H2 & H3). unfold carries, row_header. by rewrite H1, H2, H3. Qed.

Section safety.
Context `{WC : WebCrypto} `{J : Jsonb} `{!JsonbLaws J} `{SAN : MutationSanitizer} `{!MutationSanitizerLaws SAN}.
Context {A B : Type}.
Notation W := (HA A B).
Context `{ACK : AckReceiptVerifier W}.
Context (ss : Session) (schema streamId : string) (opts : PgOutboxOptions) (leaseMs : Z).
Context (preCommitCheck : option (tx (PgDb A) unit)) (applyInTx : OutboxRecord → B → exc B).
Context (epoch : string) (app0 : B).
Implicit Types w : W.

Definition key (q : Z) : row_key := (streamId, epoch, q).
Definition src_row w (q : Z) : option OutboxRow := db_rows (ha_source w) !! key q.
Definition dst_applied w (q : Z) : option string := db_applied (ha_dest w) !! key q.

(** The source: one row for each number up to the checkpoint. *)
Definition source_ok w (n : Z) : Prop :=
  db_source (ha_source w) !! streamId = Some (mkSourceCp epoch n) ∧ (0 <= n)%Z ∧
  ∀ e q r, db_rows (ha_source w) !! (streamId, e, q) = Some r → e = epoch ∧ (1 <= q <= n)%Z ∧ jfin (ro_mutation r).

(** The receiver: the records [recs] applied, one for each number up to its
    checkpoint, each carrying the source's row of that number. *)
Definition dest_ok w (recs : list OutboxRecord) : Prop :=
  (∃ dg, db_receiver (ha_dest w) !! streamId = Some (mkReceiverCp epoch (Z.of_nat (length recs)) dg)) ∧
  (∀ q dg, dst_applied w q = Some dg → (1 <= q <= Z.of_nat (length recs))%Z) ∧
  (∀ i rec, recs !! i = Some rec → ∃ r, src_row w (Z.of_nat i + 1) = Some r ∧
     carries (key (Z.of_nat i + 1)) r rec ∧ dst_applied w (Z.of_nat i + 1) = Some (ro_digest r)) ∧
  replay applyInTx recs app0 = Ret (db_app (ha_dest w)).

Record inv w : Prop := mkInv {
  inv_source : ∃ n, source_ok w n;
  inv_full : ∀ n q, source_ok w n → (1 <= q <= n)%Z → is_Some (src_row w q);
  inv_sent : ∀ rec, rec ∈ ha_sent w → ∃ q r, src_row w q = Some r ∧ carries (key q) r rec;
  inv_dest : ∃ recs, dest_ok w recs;
  inv_issued : ∀ rec d, (rec, d) ∈ ha_issued w → d = applied ∨ d = duplicate_ok →
    ∃ q r, src_row w q = Some r ∧ carries (key q) r rec ∧ is_Some (dst_applied w q);
  inv_acked : ∀ q r, src_row w q = Some r → ro_acked r ≠ None → is_Some (dst_applied w q);
}.

(** What steps do not undo. *)
Definition grows w w' : Prop :=
  (∀ q r, src_row w q = Some r → ∃ r', src_row w' q = Some r' ∧ same_row r r') ∧
  (∀ q dg, dst_applied w q = Some dg → dst_applied w' q = Some dg) ∧
  (∀ x, x ∈ ha_issued w → x ∈ ha_issued w').

Definition keeps w w' : Prop := (inv w → inv w') ∧ grows w w'.

Lemma grows_refl w : grows w w.
Proof. split_and!; [|done..]. intros q r Hr. exists r. by split. Qed.
Lemma keeps_refl w : keeps w w.
Proof. split; [done|apply grows_refl]. Qed.
Lemma keeps_trans w1 w2 w3 : keeps w1 w2 → keeps w2 w3 → keeps w1 w3.
Proof.
  intros [H1 (G1 & A1 & I1)] [H2 (G2 & A2 & I2)]. split; [auto|]. split_and!; [|auto..].
  intros q r Hr. destruct (G1 q r Hr) as (r1 & Hr1 & ? & ? & ?). destruct (G2 q r1 Hr1) as (r2 & Hr2 & ? & ? & ?).
  exists r2. split; [done|]. split_and!; congruence.
Qed.

(** A step that leaves the core of the world alone: the environment changes
    fences, leases, the clock, the outcomes it has in store, the source's
    application tables. *)
Definition same_core w w' : Prop :=
  db_rows (ha_source w') = db_rows (ha_source w) ∧ db_source (ha_source w') = db_source (ha_source w) ∧
  db_receiver (ha_dest w') = db_receiver (ha_dest w) ∧ db_applied (ha_dest w') = db_applied (ha_dest w) ∧
  db_app (ha_dest w') = db_app (ha_dest w) ∧ ha_sent w' = ha_sent w ∧ ha_issued w' = ha_issued w.

Lemma same_core_keeps w w' : same_core w w' → keeps w w'.
Proof.
  intros (H1 & H2 & H3 & H4 & H5 & H6 & H7). split.
  - intros [S F T D I K]. unfold source_ok, dest_ok, src_row, dst_applied in *.
    split; unfold source_ok, dest_ok, src_row, dst_applied in *; by rewrite ?H1, ?H2, ?H3, ?H4, ?H5, ?H6, ?H7.
  - unfold grows, src_row, dst_applied. rewrite H1, H4, H7. split_and!; [|done..]. intros q r Hr. exists r. by split.
Qed.

Lemma source_ok_det w n n' : source_ok w n → source_ok w n' → n = n'.
Proof. intros [H _] [H' _]. congruence. Qed.
Lemma dest_ok_len w recs recs' : dest_ok w recs → dest_ok w recs' → length recs = length recs'.
Proof. intros [[? H] _] [[? H'] _]. rewrite H in H'. injection H'. lia. Qed.

(** The receiver is never ahead of the source. *)
Lemma dest_le_source w n recs : source_ok w n → dest_ok w recs → (Z.of_nat (length recs) <= n)%Z.
Proof.
  intros (_ & Hn & Hs) (_ & _ & Hrecs & _).
  destruct (decide (length recs = 0)) as [->|Hne]; [lia|].
  destruct (lookup_lt_is_Some_2 recs (length recs - 1)) as [rec Hrec]; [lia|].
  destruct (Hrecs _ _ Hrec) as (r & Hr & _). apply Hs in Hr. lia.
Qed.

Lemma carries_key k r k' r' rec : carries k r rec → carries k' r' rec → k = k' ∧ ro_digest r = ro_digest r'.
Proof.
  intros (H & _) (H' & _). rewrite H in H'. unfold row_header in H'. injection H' as H1 H2 H3 _ H5.
  destruct k as [[? ?] ?], k' as [[? ?] ?]. simpl in *. by subst.
Qed.

(** ** Steps on the source database *)

Definition with_source (d : PgDb A) w : W :=
  mkHA d (ha_dest w) (ha_clock w) (ha_sent w) (ha_issued w) (ha_fates w) (ha_replies w) (ha_uuids w) (S (ha_draws w)).

Lemma wpg_source_tx {C} (fn : Z → tx (PgDb A) C) (Q : exc C → W → Prop) w :
  (∀ w1 d c, keeps w w1 → fn (ha_clock w1) (ha_source w1) = (d, Ret c) →
     keeps w1 (with_source d w1) ∧ Q (Ret c) (with_source d w1)) →
  (∀ w1 e, Q (Throw e) w1) → wpg keeps keeps (source_tx fn) Q w.
Proof.
  intros Hfn HQ. apply wpg_call. intros w1 Hw.
  destruct (transaction _ _ _) as [d r] eqn:Ht. cbn [fst snd].
  apply transaction_cases in Ht as [(-> & e & ->)|(c & Hc & Hr)].
  - split; [by apply same_core_keeps|apply HQ].
  - destruct (Hfn w1 d c Hw Hc) as [HK Hq]. split; [exact HK|].
    destruct Hr as [->|[e ->]]; [exact Hq|apply HQ].
Qed.

(** A transaction that leaves rows and checkpoint alone. *)
Lemma with_source_core d w :
  db_rows d = db_rows (ha_source w) → db_source d = db_source (ha_source w) → keeps w (with_source d w).
Proof. intros H1 H2. by apply same_core_keeps. Qed.

(** Marking a row keeps the invariant when the row stays the same operation and
    an acknowledgement is covered by the receiver's history. *)
Lemma update_row_keeps k guard f (d : PgDb A) n w d0 :
  db_rows d0 = db_rows (ha_source w) → db_source d0 = db_source (ha_source w) →
  update_row k guard f d0 = (d, Ret n) →
  (∀ r, same_row r (f r)) →
  (∀ q r, k = key q → src_row w q = Some r → ro_acked (f r) ≠ None → ro_acked r = None → is_Some (dst_applied w q)) →
  keeps w (with_source d w).
Proof.
  intros Hrows Hsrc Hup Hsame Hack. unfold update_row in Hup.
  destruct (db_rows d0 !! k) as [r|] eqn:Hr; [|injection Hup as <- _; by apply with_source_core].
  destruct (guard r); [|injection Hup as <- _; by apply with_source_core].
  injection Hup as <- _. rewrite Hrows in Hr.
  assert (∀ q, src_row (with_source (set_rows (<[k:=f r]> (db_rows d0)) d0) w) q =
    if decide (k = key q) then Some (f r) else src_row w q) as Hlook.
  { intros q. unfold src_row. simpl. rewrite Hrows. case_decide as Hk; [by rewrite <-Hk, lookup_insert_eq|by rewrite lookup_insert_ne]. }
  assert (∀ q r', src_row w q = Some r' → ∃ r1, src_row (with_source (set_rows (<[k:=f r]> (db_rows d0)) d0) w) q = Some r1 ∧
    same_row r' r1) as Hgrow.
  { intros q r' Hq. rewrite Hlook. case_decide as Hk; [|by exists r'].
    exists (f r). split; [done|]. subst k. unfold src_row in Hq. rewrite Hr in Hq. injection Hq as <-. apply Hsame. }
  split; [|split_and!; done].
  assert (∀ n, source_ok (with_source (set_rows (<[k:=f r]> (db_rows d0)) d0) w) n ↔ source_ok w n) as Hso.
  { intros m. unfold source_ok. simpl. rewrite Hrows, Hsrc. apply and_iff_compat_l, and_iff_compat_l. split; intros H e q r'.
    - intros Hq. destruct (decide (k = (streamId, e, q))) as [->|Hne].
      + rewrite Hr in Hq. injection Hq as ->. specialize (H e q (f r') (lookup_insert_eq _ _ _)).
        destruct (Hsame r') as (_ & _ & ->) in H. done.
      + apply (H e q). by rewrite lookup_insert_ne.
    - intros [[-> <-]|[Hne Hq]]%lookup_insert_Some; [|by apply H].
      destruct (Hsame r) as (_ & _ & ->). by apply H. }
  intros [S F T D I K]. split.
  - destruct S as [m S]. exists m. by apply Hso.
  - intros m q Hm Hq. apply Hso in Hm. destruct (F m q Hm Hq) as [r' Hr']. destruct (Hgrow q r' Hr') as (r1 & Hr1 & _). by exists r1.
  - intros rec Hrec. destruct (T rec Hrec) as (q & r' & Hr' & Hc). destruct (Hgrow q r' Hr') as (r1 & Hr1 & Hsm).
    exists q, r1. split; [done|]. by eapply carries_same.
  - destruct D as [recs (D1 & D2 & D3 & D4)]. exists recs. split_and!; [done..| |done].
    intros i rec Hi. destruct (D3 i rec Hi) as (r' & Hr' & Hc & Ha). destruct (Hgrow _ r' Hr') as (r1 & Hr1 & Hsm).
    exists r1. split; [done|]. split; [by eapply carries_same|]. destruct Hsm as (_ & -> & _). done.
  - intros rec dec Hin Hdec. destruct (I rec dec Hin Hdec) as (q & r' & Hr' & Hc & Ha).
    destruct (Hgrow _ r' Hr') as (r1 & Hr1 & Hsm). exists q, r1. split_and!; [done|by eapply carries_same|done].
  - intros q r1. rewrite Hlook. case_decide as Hk; [|by apply K]. intros [= <-] Ha.
    assert (src_row w q = Some r) as Hq by (subst k; exact Hr).
    destruct (ro_acked r) eqn:Hra; [by apply (K q r Hq); rewrite Hra|]. by eapply Hack.
Qed.

(** An append extends the log by one row. *)
Lemma append_keeps raw fence (d1 d2 d : PgDb A) h w :
  db_rows d1 = db_rows (ha_source w) → db_source d1 = db_source (ha_source w) →
  appended opts streamId raw fence d1 h d2 →
  db_rows d = db_rows d2 → db_source d = db_source d2 → keeps w (with_source d w).
Proof.
  intros Hr1 Hs1 (cp & clean & dg & _ & Hcp & _ & _ & Hrange & _ & Hfin & _ & Hnone & _ & ->) Hr Hs.
  simpl in Hr, Hs. rewrite Hr1 in Hr, Hnone. rewrite Hs1 in Hs, Hcp.
  set (k := (streamId, sc_epoch cp, (sc_sequence cp + 1)%Z)) in *.
  set (row := mkRow _ _ _ _ _ _) in *.
  assert (∀ q r, src_row w q = Some r → src_row (with_source d w) q = Some r) as Hkeep.
  { intros q r Hq. unfold src_row in *. simpl. rewrite Hr, lookup_insert_ne; [done|]. intros Heq. rewrite Heq in Hnone. congruence. }
  split; [|split_and!; [|done..]; intros q r Hq; exists r; split; [by apply Hkeep|done]].
  intros [[n S] F T D I K].
  assert (cp = mkSourceCp epoch n) as -> by (destruct S as [S _]; congruence). subst k. simpl in *.
  assert (source_ok (with_source d w) (n + 1)) as Hn1.
  { destruct S as (S1 & S2 & S3). split_and!; [simpl; rewrite Hs; by rewrite lookup_insert_eq|lia|].
    intros e q r. simpl. rewrite Hr. intros [[Heq <-]|[Hne Hq]]%lookup_insert_Some.
    - injection Heq as <- <-. split_and!; [done|lia|lia|].
      apply (proj1 (jsonb_value _ (copied_fin _ Hfin))).
    - destruct (S3 e q r Hq) as (? & ? & ?). split_and!; (done || lia). }
  split.
  - by exists (n + 1)%Z.
  - intros m q Hm Hq. assert (m = n + 1)%Z as -> by by eapply source_ok_det.
    destruct (decide (q = n + 1)%Z) as [->|Hne].
    + exists row. unfold src_row, key. simpl. by rewrite Hr, lookup_insert_eq.
    + destruct (F n q S ltac:(lia)) as [r Hq']. exists r. by apply Hkeep.
  - intros rec Hrec. destruct (T rec Hrec) as (q & r & Hq & Hc). exists q, r. split; [by apply Hkeep|done].
  - destruct D as [recs (D1 & D2 & D3 & D4)]. exists recs. split_and!; [done..| |done].
    intros i rec Hi. destruct (D3 i rec Hi) as (r & Hq & Hc & Ha). exists r. split; [by apply Hkeep|done].
  - intros rec dec Hin Hdec. destruct (I rec dec Hin Hdec) as (q & r & Hq & Hc & Ha). exists q, r. split; [by apply Hkeep|done].
  - intros q r Hq Ha. unfold src_row in Hq. simpl in Hq. rewrite Hr in Hq.
    apply lookup_insert_Some in Hq as [[_ <-]|[_ Hq]]; [done|by apply (K q r)].
Qed.

(** ** The receiver *)

Definition with_dest (d : PgDb B) issued w : W :=
  mkHA (ha_source w) d (ha_clock w) (ha_sent w) issued (ha_fates w) (ha_replies w) (ha_uuids w) (S (ha_draws w)).

(** A decision about a sent record, whether its transaction is acknowledged or
    not, and whether a receipt is issued for it or not. *)
Lemma delivery_keeps q r rec rec' dec d w issued :
  src_row w q = Some r → carries (key q) r rec → carries (key q) r rec' →
  delivery applyInTx (key q) r rec' dec (ha_dest w) d →
  issued = ha_issued w ∨ issued = (ha_issued w ++ [(rec, dec)])%list →
  keeps w (with_dest d issued w).
Proof.
  intros Hr Hc Hc' Hd Hiss.
  assert (∀ q' dg, dst_applied w q' = Some dg → db_applied d !! key q' = Some dg) as Hgrow.
  { intros q' dg Hq'. unfold dst_applied in Hq'. destruct dec; simpl in Hd; try (by subst d); [|by destruct Hd as [-> _]].
    destruct Hd as (cp & a & _ & _ & _ & _ & _ & Hnone & _ & -> & _). simpl.
    rewrite lookup_insert_ne; [done|]. intros Heq. rewrite Heq in Hnone. congruence. }
  assert (∀ x, x ∈ ha_issued w → x ∈ issued) as Hissued.
  { intros x Hx. destruct Hiss as [->| ->]; [done|]. apply elem_of_app. by left. }
  split; [|split_and!; [|done..]; intros q' r' Hq'; exists r'; by split].
  intros [S F T D I K].
  assert (dec = applied ∨ dec = duplicate_ok → is_Some (db_applied d !! key q)) as Hack.
  { intros [->| ->]; simpl in Hd.
    - destruct Hd as (cp & a & _ & _ & _ & _ & _ & _ & _ & -> & _). simpl. rewrite lookup_insert_eq. by eexists.
    - destruct Hd as [-> Ha]. by exists (ro_digest r). }
  split; [done|done|done| | |].
  - destruct (decide (dec = applied)) as [->|Hne].
    + destruct Hd as (cp & a & _ & Hcp & He & Hn & Hq & Hnone & Hap & -> & _).
      destruct D as [recs ([dg D1] & D2 & D3 & D4)]. exists (recs ++ [rec'])%list.
      assert (rc_sequence cp = Z.of_nat (length recs)) as Hlen by (simpl in Hcp; rewrite D1 in Hcp; by injection Hcp as <-).
      simpl in Hq, He. unfold dest_ok, with_dest, received, dst_applied. cbn [ha_dest db_receiver db_applied db_app set_receiver set_applied set_app fst snd key].
      rewrite length_app. simpl length.
      split_and!.
      * exists (ro_digest r). rewrite lookup_insert_eq. do 2 f_equal. lia.
      * intros q' dg'. intros [[Heq <-]|[_ Hq']]%lookup_insert_Some; [injection Heq as <-; lia|].
        specialize (D2 q' dg' Hq'). lia.
      * intros i rec0 [Hi|[Hi Hl]]%lookup_app_Some.
        -- destruct (D3 i rec0 Hi) as (r0 & Hr0 & Hc0 & Ha0). exists r0. split; [done|]. split; [done|].
           rewrite lookup_insert_ne; [done|]. intros Heq. rewrite Heq in Hnone. unfold dst_applied in Ha0. congruence.
        -- apply list_lookup_singleton_Some in Hl as [Hl <-].
           assert (Z.of_nat i + 1 = q)%Z as -> by lia. exists r. split_and!; [done..|by rewrite lookup_insert_eq].
      * by eapply replay_snoc.
    + assert (d = ha_dest w) as -> by (destruct dec; simpl in Hd; try done; by destruct Hd).
      destruct D as [recs Dr]. exists recs. exact Dr.
  - intros rec0 dec0 Hin Hdec0. simpl in Hin. unfold dst_applied. simpl.
    assert ((rec0, dec0) ∈ ha_issued w ∨ (rec0, dec0) = (rec, dec)) as [Hold|Hnew].
    { destruct Hiss as [->| ->]; [by left|]. apply elem_of_app in Hin as [?|Hin]; [by left|]. right.
      by apply list_elem_of_singleton in Hin. }
    + destruct (I rec0 dec0 Hold Hdec0) as (q0 & r0 & Hq0 & Hc0 & [dg Ha0]). exists q0, r0. split_and!; [done|done|].
      exists dg. by apply Hgrow.
    + injection Hnew as -> ->. exists q, r. split_and!; [done|done|by apply Hack].
  - intros q0 r0 Hq0 Ha0. destruct (K q0 r0 Hq0 Ha0) as [dg Hdg]. exists dg. unfold dst_applied. simpl. by apply Hgrow.
Qed.

(** ** Processes

    [safe p Q]: from any world of the invariant, every step of [p] keeps it. *)
Definition safe {C} (p : proc W (exc C)) (w : W) (Q : C → W → Prop) : Prop :=
  wpg keeps keeps p (λ r w', inv w' ∧ match r with Ret c => Q c w' | Throw _ => True end) w.

Lemma safe_tx {C} (fn : Z → tx (PgDb A) C) Q w : inv w →
  (∀ w1 d c, keeps w w1 → inv w1 → fn (ha_clock w1) (ha_source w1) = (d, Ret c) →
     keeps w1 (with_source d w1) ∧ Q c (with_source d w1)) →
  safe (source_tx fn) w Q.
Proof.
  intros Hw Hfn. apply wpg_call. intros w1 HK. pose proof (proj1 HK Hw) as Hw1.
  destruct (transaction _ _ _) as [d r] eqn:Ht. cbn [fst snd].
  apply transaction_cases in Ht as [(-> & e & ->)|(c & Hc & Hr)].
  - assert (keeps w1 (with_source (ha_source w1) w1)) as HK' by by apply same_core_keeps.
    split; [exact HK'|]. split; [by apply HK'|done].
  - destruct (Hfn w1 d c HK Hw1 Hc) as [HK' HQ]. split; [exact HK'|]. split; [by apply HK'|].
    by destruct Hr as [->|[e ->]].
Qed.

Lemma safe_ebind {C D} (p : proc W (exc C)) (k : C → proc W (exc D)) Q Q' w :
  safe p w Q → (∀ c w', inv w' → Q c w' → safe (k c) w' Q') → safe (ebind p k) w Q'.
Proof.
  intros Hp Hk. apply wpg_bind. eapply wpg_mono; [|exact Hp].
  intros [c|e] w' [Hw' HQ]; [by apply Hk|]. by split.
Qed.
Lemma safe_pure {C D} (x : exc C) (k : C → proc W (exc D)) Q w :
  inv w → (∀ c, x = Ret c → safe (k c) w Q) → safe (ebind (Done x) k) w Q.
Proof. intros Hw Hk. destruct x as [c|e]; [by apply Hk|]. by split. Qed.
Lemma safe_done {C} (x : exc C) w : inv w → safe (Done x) w (λ _ _, True).
Proof. intros Hw. split; [done|by destruct x]. Qed.
Lemma safe_mono {C} (p : proc W (exc C)) w (Q Q' : C → W → Prop) :
  (∀ c w', Q c w' → Q' c w') → safe p w Q → safe p w Q'.
Proof. intros HQ. apply wpg_mono. intros [c|e] w' [? ?]; split; auto. Qed.

(** The record is carried by a row of the source. *)
Definition published (q : Z) (rec : OutboxRecord) w : Prop :=
  ∃ r, src_row w q = Some r ∧ carries (key q) r rec.
Lemma published_grows q rec w w' : grows w w' → published q rec w → published q rec w'.
Proof.
  intros (G & _) (r & Hr & Hc). destruct (G q r Hr) as (r' & Hr' & Hs).
  exists r'. split; [done|by eapply carries_same].
Qed.

Lemma require_lease_Ret tok msg (d d' : PgDb A) u : require_lease streamId tok msg d = (d', Ret u) → d' = d.
Proof.
  unfold require_lease. intros (? & ? & [-> ->]%tread_Ret & H)%tbind_Ret.
  destruct (db_lease d !! streamId) as [l|]; [|tx_inv]. case_decide; [by apply tret_Ret in H as [_ ->]|tx_inv].
Qed.

Lemma acquire_safe tok w : inv w → safe (acquireLease ss schema streamId leaseMs tok) w (λ _ _, True).
Proof.
  intros Hw. apply safe_tx; [done|]. intros w1 d c _ _ Hfn. split; [|done].
  apply critical_Ret, tbind_Ret in Hfn as (d1 & n & Hsql & [_ ->]%tret_Ret).
  unfold acquire_sql in Hsql. repeat case_match; injection Hsql as <- _; by apply with_source_core.
Qed.
Lemma release_safe tok w : inv w → safe (releaseLease ss schema streamId tok) w (λ _ _, True).
Proof.
  intros Hw. apply safe_tx; [done|]. intros w1 d c _ _ Hfn. split; [|done]. apply critical_Ret in Hfn.
  repeat case_match; injection Hfn as <- _; by apply with_source_core.
Qed.

Lemma lowest_unacked_Some (d : PgDb A) k r : lowest_unacked streamId d = Some (k, r) →
  db_rows d !! k = Some r ∧ k.1.1 = streamId ∧ ro_acked r = None.
Proof.
  unfold lowest_unacked. intros Hh. apply head_Some_elem_of in Hh. rewrite merge_sort_Permutation in Hh.
  apply list_elem_of_filter in Hh as [[H1 H2] H]. apply elem_of_map_to_list in H. done.
Qed.

Lemma next_safe tok w : inv w → safe (nextDeliverable ss schema streamId tok) w
  (λ o w', ∀ row, o = Some row → ∃ q r, src_row w' q = Some r ∧ row = row_obj (key q, r)).
Proof.
  intros Hw. apply safe_tx; [done|]. intros w1 d c _ [[n (_ & _ & S)] _ _ _ _ _] Hfn.
  apply critical_Ret, tbind_Ret in Hfn as (d1 & u & ->%require_lease_Ret & Hfn).
  apply tbind_Ret in Hfn as (? & o & [-> ->]%tread_Ret & [-> ->]%tret_Ret).
  split; [by apply with_source_core|]. intros row.
  destruct (lowest_unacked _ _) as [[[[s e] q] r]|] eqn:Hl; [|done]. cbn [snd].
  case_decide; [|done]. intros [= <-].
  apply lowest_unacked_Some in Hl as (Hr & Hs & _). simpl in Hs. subst s.
  destruct (S e q r Hr) as (-> & _). by exists q, r.
Qed.

Lemma deliver_safe rec q w : inv w → published q rec w →
  safe (deliverAndAwaitAck rec) w (λ _ w', published q rec w').
Proof.
  intros Hw Hp. apply wpg_bind, wpg_call. intros w1 HK. cbn [fst snd].
  pose proof (published_grows _ _ _ _ (proj2 HK) Hp) as Hp1.
  set (w2 := mkHA _ _ _ _ _ _ _ _ _).
  assert (keeps w1 w2) as HK2.
  { split; [|split_and!; [|done..]; intros q' r' Hr'; exists r'; by split].
    intros [S F T D I K]. split; try done.
    intros rec0 [Hin|Hin]%elem_of_app; [by apply T|]. apply list_elem_of_singleton in Hin as ->. by exists q. }
  split; [exact HK2|]. apply wpg_call. intros w3 HK3. cbn [fst snd].
  assert (inv w3) as Hw3 by (apply HK3, HK2, HK, Hw).
  split; [by apply same_core_keeps|]. split.
  - assert (keeps w3 (mkHA (ha_source w3) (ha_dest w3) (ha_clock w3) (ha_sent w3) (ha_issued w3) (ha_fates w3)
      (ha_replies w3) (ha_uuids w3) (S (ha_draws w3)))) as HK4 by by apply same_core_keeps. by apply HK4.
  - destruct (ha_replies w3 _ _); [|done]. apply (published_grows q rec w1); [|done].
    by apply (keeps_trans _ _ _ HK2 HK3).
Qed.

Lemma quarantine_safe tok e q dg dec w : inv w →
  safe (quarantineRecord ss schema streamId tok e q dg dec) w (λ _ _, True).
Proof.
  intros Hw. apply safe_tx; [done|]. intros w1 d c _ _ Hfn. split; [|done].
  apply critical_Ret, tbind_Ret in Hfn as (d1 & u & ->%require_lease_Ret & Hfn).
  apply tbind_Ret in Hfn as (d2 & u2 & Hins & Hfn). apply tbind_Ret in Hfn as (d3 & n & Hup & [_ ->]%tlift_Ret).
  assert (db_rows d2 = db_rows (ha_source w1) ∧ db_source d2 = db_source (ha_source w1)) as [H1 H2].
  { unfold quarantine_insert in Hins. repeat case_match; try done; by injection Hins as <- _. }
  eapply update_row_keeps; [exact H1|exact H2|exact Hup|done|]. intros q' r' _ _ Ha Hn. done.
Qed.

Lemma ack_safe tok e q dg w : inv w → (e = epoch → is_Some (dst_applied w q)) →
  safe (ackRecord ss schema streamId tok e q dg) w (λ _ _, True).
Proof.
  intros Hw Happ. apply safe_tx; [done|]. intros w1 d c HK _ Hfn. split; [|done].
  apply critical_Ret, tbind_Ret in Hfn as (d1 & u & ->%require_lease_Ret & Hfn).
  apply tbind_Ret in Hfn as (d2 & n & Hup & [_ ->]%tlift_Ret).
  eapply update_row_keeps; [done|done|exact Hup|done|]. intros q' r' Hk _ _ _.
  unfold key in Hk. injection Hk as He ->. destruct (Happ He) as [dg' Hdg]. exists dg'. by apply HK.
Qed.

(** ** The publisher *)

(** The contract of the verifier: it accepts only receipts whose decision the
    receiver made about this record. *)
Context (ack_genuine : ∀ receipt rec w, ack_verify receipt rec w = Ret tt →
  ∃ d, ar_decision receipt = decision_text d ∧ (rec, d) ∈ ha_issued w).
(** The pre-commit hook does not write the outbox tables. *)
Context (hook_reads : ∀ check d d' u, preCommitCheck = Some check → check d = (d', Ret u) →
  db_rows d' = db_rows d ∧ db_source d' = db_source d).

Lemma decision_text_inj d d' : decision_text d = decision_text d' → d = d'.
Proof. destruct d, d'; (done || discriminate). Qed.

Lemma ack_applied receipt rec q w : inv w → published q rec w →
  ack_verify receipt rec w = Ret tt → ar_decision receipt ∈ ACK_DECISIONS → is_Some (dst_applied w q).
Proof.
  intros [_ _ _ _ I _] (r & Hr & Hc) (d & Hd & Hin)%ack_genuine Hack. rewrite Hd in Hack.
  assert (d = applied ∨ d = duplicate_ok) as Hd'.
  { unfold ACK_DECISIONS in Hack. apply list_elem_of_fmap in Hack as (d' & ->%decision_text_inj & Hd').
    set_unfold in Hd'. naive_solver. }
  destruct (I rec d Hin Hd') as (q' & r' & Hr' & Hc' & Ha).
  destruct (carries_key _ _ _ _ _ Hc Hc') as [[= ->] _]. done.
Qed.

Lemma row_published q r rec w : inv w → src_row w q = Some r →
  row_record streamId (row_obj (key q, r)) = Ret rec →
  published q rec w ∧ js_str (oh_sourceEpoch (or_header rec)) = epoch ∧
  default 0%Z (js_safe_int (oh_sequence (or_header rec))) = q.
Proof.
  intros [[n (_ & _ & S)] _ _ _ _ _] Hr Hrec. destruct (S _ _ _ Hr) as (_ & _ & Hfin).
  apply (row_record_Ret (key q)) in Hrec as (Hc & _ & Hconf & _); [|done].
  split; [by exists r|]. destruct Hc as (-> & _). split; [done|].
  apply assertHeaderConformant_Ret in Hconf as (? & ? & q' & ? & ? & Heq & _ & _ & Hsafe & _).
  unfold row_header in Heq. injection Heq as _ _ Hq _ _. simpl in Hq. subst q'.
  cbn [row_header oh_sequence snd key]. by rewrite (proj2 (js_safe_int_Some (JNum (int q)) q)).
Qed.

(** What comes back is acted on only when it is a genuine receipt. *)
Lemma drain_safe n tok p a z w : inv w → safe (drain_loop ss schema streamId n tok p a z) w (λ _ _, True).
Proof.
  revert p a z w. induction n as [|n IH]; intros p a z w Hw; [by apply safe_done|]. cbn [drain_loop].
  eapply safe_ebind; [by apply next_safe|]. intros [row|] w1 Hw1 Hrow; [|by apply safe_done].
  destruct (Hrow row eq_refl) as (q & r & Hr & ->).
  apply safe_pure; [done|]. intros rec Hrec.
  destruct (row_published q r rec w1 Hw1 Hr Hrec) as (Hpub & He & Hq). rewrite He, Hq.
  apply wpg_bind. eapply wpg_mono; [|apply (deliver_safe rec q w1 Hw1 Hpub)].
  intros [delivered|e] w2 [Hw2 Hpub2].
  - apply safe_pure; [done|]. intros receipt _. eapply (safe_ebind _ _ (λ _ w, published q rec w ∧
      (ar_decision receipt ∈ ACK_DECISIONS → is_Some (dst_applied w q)))).
    { apply wpg_call. intros w3 HK3. cbn [fst snd]. split; [apply keeps_refl|].
      assert (inv w3) as Hw3 by (by apply HK3). split; [done|].
      assert (published q rec w3) as Hpub3 by (eapply published_grows; [apply HK3|done]).
      destruct (ack_verify receipt rec w3) as [[]|] eqn:Hv; [|done]. split; [done|]. by eapply ack_applied. }
    intros [] w3 Hw3 [Hpub3 Happ]. apply safe_pure; [done|]. intros bound _.
    apply safe_pure; [done|]. intros [] _. apply safe_pure; [done|]. intros [] _.
    case_decide as Hack.
    + eapply safe_ebind; [apply ack_safe; [done|by intros _; apply Happ]|]. intros [] w4 Hw4 _. by apply IH.
    + case_decide; [by apply safe_done|].
      eapply safe_ebind; [by apply quarantine_safe|]. intros [] w4 Hw4 _. by apply safe_done.
  - assert (safe (C := option DrainResult) (ethrow e) w2 (λ _ _, True)) as Hthrow by by apply safe_done.
    destruct e; try exact Hthrow. destruct retriable; [exact Hthrow|].
    eapply safe_ebind; [by apply quarantine_safe|]. intros [] w4 Hw4 _. by apply safe_done.
Qed.

Lemma drainOnce_safe n w : inv w → safe (drainOnce ss schema streamId leaseMs n) w (λ _ _, True).
Proof.
  intros Hw. apply wpg_bind, wpg_call. intros w1 HK. cbn [fst snd].
  match goal with |- keeps _ ?w2 ∧ _ => assert (keeps w1 w2) as HK' by (by apply same_core_keeps) end.
  split; [exact HK'|]. eapply safe_ebind; [apply acquire_safe, HK', HK, Hw|].
  intros held w2 Hw2 _. destruct held; [|by apply safe_done]. cbn [negb].
  apply wpg_bind. eapply wpg_mono; [|by apply drain_safe]. intros r w3 [Hw3 _].
  eapply safe_ebind; [by apply release_safe|]. intros [] w4 Hw4 _. by apply safe_done.
Qed.

(** ** The other processes *)

Lemma appendOne_safe mutate raw fence w : inv w →
  safe (appendOne ss schema streamId opts preCommitCheck mutate raw fence) w (λ _ _, True).
Proof.
  intros Hw. apply safe_tx; [done|]. intros w1 d h _ _ Hfn. split; [|done].
  apply critical_Ret, tbind_Ret in Hfn as (d2 & h' & Hfn & Hhook).
  apply tbind_Ret in Hfn as (d1 & u & (a & _ & ->)%app_write_Ret & Happ%appendInTx_Ret).
  apply tbind_Ret in Hhook as (d3 & u' & Hhook & [_ ->]%tret_Ret).
  assert (db_rows d3 = db_rows d2 ∧ db_source d3 = db_source d2) as [H1 H2].
  { destruct preCommitCheck as [check|] eqn:Hc; [by eapply hook_reads|]. by apply tret_Ret in Hhook as [_ ->]. }
  by eapply append_keeps; [..|exact Happ|exact H1|exact H2].
Qed.

#[local] Opaque snapshotRecord verify_and_apply enterCriticalTx.
Lemma delivered_keeps rec f w d r : inv w → rec ∈ ha_sent w →
  verifyAndApplyDelivered applyInTx f ss schema streamId (record_obj rec) (ha_dest w) = (d, r) →
  keeps w (with_dest d (match r with Ret dec => (ha_issued w ++ [(rec, dec)])%list | Throw _ => ha_issued w end) w).
Proof.
  intros Hw Hrec Hd. destruct (inv_sent _ Hw rec Hrec) as (q & ro & Hro & Hc). unfold verifyAndApplyDelivered in Hd.
  destruct (snapshotRecord (record_obj rec)) as [captured|] eqn:Hcap; [|injection Hd as <- <-; by apply same_core_keeps].
  pose proof (carries_snapshot _ _ _ _ Hc Hcap) as Hc1.
  apply transaction_cases in Hd as [(-> & e & ->)|(dec & Hv & Hr)]; [by apply same_core_keeps|].
  apply tbind_Ret in Hv as (? & captured2 & [Hcap2 ->]%tlift_Ret & Hv). apply critical_Ret in Hv.
  pose proof (carries_snapshot _ _ _ _ Hc1 Hcap2) as Hc2.
  apply (verify_and_apply_Ret _ (key q) ro) in Hv; [|done].
  apply (delivery_keeps q ro rec captured2 dec); try done. destruct Hr as [->|[e ->]]; [by right|by left].
Qed.

Lemma receiveOne_safe i w : inv w → safe (receiveOne ss schema streamId applyInTx i) w (λ _ _, True).
Proof.
  intros Hw. apply wpg_call. intros w1 HK. pose proof (proj1 HK Hw) as Hw1.
  destruct (ha_sent w1 !! i) as [rec|] eqn:Hrec; cbn [fst snd]; [|by split; [apply keeps_refl|]].
  apply list_elem_of_lookup_2 in Hrec.
  pose proof (delivered_keeps rec (ha_fates w1 (ha_draws w1)) w1) as Hdel. revert Hdel.
  generalize (verifyAndApplyDelivered applyInTx (ha_fates w1 (ha_draws w1)) ss schema streamId (record_obj rec) (ha_dest w1)).
  intros [d r] Hdel. specialize (Hdel d r Hw1 Hrec eq_refl). split; [exact Hdel|].
  split; [exact (proj1 Hdel Hw1)|by destruct r].
Qed.

Lemma acquireDestFence_safe w : inv w → safe (acquireDestFence ss schema streamId) w (λ _ _, True).
Proof.
  intros Hw. apply wpg_call. intros w1 HK. pose proof (proj1 HK Hw) as Hw1.
  destruct (transaction _ _ _) as [d r] eqn:Ht. cbn [fst snd].
  enough (keeps w1 (with_dest d (ha_issued w1) w1)) as HK' by (split; [exact HK'|split; [by apply HK'|by destruct r]]).
  apply transaction_cases in Ht as [(-> & _)|(f & Hf & _)]; [by apply same_core_keeps|].
  apply fence_acquire_Ret in Hf as (_ & -> & _). by apply same_core_keeps.
Qed.
Lemma acquireSourceFence_safe w : inv w → safe (acquireSourceFence ss schema streamId) w (λ _ _, True).
Proof.
  intros Hw. apply safe_tx; [done|]. intros w1 d c _ _ Hfn. split; [|done]. apply fence_acquire_Ret in Hfn as (_ & -> & _).
  by apply with_source_core.
Qed.

(** Anything that runs on the two nodes. *)
Inductive node_op :=
  | Append (mutate : A → exc A) (rawMutation : jsval) (fenceToken : Z)
  | Drain (rounds : nat)
  | Receive (i : nat)
  | FenceSource
  | FenceDest.
Definition op_proc (op : node_op) : proc W (exc unit) :=
  match op with
  | Append mutate raw fence => ebind (appendOne ss schema streamId opts preCommitCheck mutate raw fence) (λ _, eret tt)
  | Drain n => ebind (drainOnce ss schema streamId leaseMs n) (λ _, eret tt)
  | Receive i => ebind (receiveOne ss schema streamId applyInTx i) (λ _, eret tt)
  | FenceSource => ebind (acquireSourceFence ss schema streamId) (λ _, eret tt)
  | FenceDest => ebind (acquireDestFence ss schema streamId) (λ _, eret tt)
  end.

Lemma op_safe op w : inv w → safe (op_proc op) w (λ _ _, True).
Proof.
  intros Hw. destruct op; (eapply safe_ebind; [|intros; by apply safe_done]).
  - by apply appendOne_safe.
  - by apply drainOnce_safe.
  - by apply receiveOne_safe.
  - by apply acquireSourceFence_safe.
  - by apply acquireDestFence_safe.
Qed.

(** A freshly provisioned stream: both checkpoints at the genesis of the epoch,
    nothing sent, nothing applied. *)
Definition provisioned w : Prop :=
  db_source (ha_source w) !! streamId = Some (mkSourceCp epoch 0) ∧
  (∃ dg, db_receiver (ha_dest w) !! streamId = Some (mkReceiverCp epoch 0 dg)) ∧
  (∀ e q, db_rows (ha_source w) !! (streamId, e, q) = None) ∧ (∀ q, dst_applied w q = None) ∧
  ha_sent w = [] ∧ ha_issued w = [] ∧ db_app (ha_dest w) = app0.

Lemma provisioned_inv w : provisioned w → inv w.
Proof.
  intros (Hs & [dg Hr] & Hrows & Happ & Hsent & Hiss & Ha).
  assert (source_ok w 0) as Hs0 by (split_and!; [done|done|intros e q r; by rewrite Hrows]).
  split.
  - by exists 0%Z.
  - intros n q Hn Hq. pose proof (source_ok_det _ _ _ Hn Hs0). lia.
  - rewrite Hsent. by intros rec ?%elem_of_nil.
  - exists []. split_and!; [by exists dg|intros q; by rewrite Happ|done|by rewrite Ha].
  - rewrite Hiss. by intros rec d ?%elem_of_nil.
  - intros q r. unfold src_row, key. by rewrite Hrows.
Qed.

Lemma run_inv ops w tr w' ps' : inv w → pool_run same_core (op_proc <$> ops) w tr w' ps' → keeps w w'.
Proof.
  intros Hw Hrun. apply (pool_run_mono _ keeps) in Hrun; [|exact same_core_keeps].
  assert (PreOrder keeps) as Hpre by (split; [exact keeps_refl|intros ???; apply keeps_trans]).
  apply (pool_rtc keeps tr); [|by eapply pool_chain_all].
  refine (proj1 (pool_guarantee keeps keeps (λ _ _ _, True) _ w tr w' ps' keeps_trans _ keeps_refl _ Hrun _)); [done|done|].
  intros i p Hi. rewrite list_lookup_fmap in Hi. destruct (ops !! i) as [op|]; [|done]. injection Hi as <-.
  eapply wpg_mono; [|by apply op_safe]. done.
Qed.

(** C12 Exactly-once, in-order, no-loss delivery.  Appends, publishers, receivers and
    fence changes run interleaved, transactions abort or lose their
    acknowledgement, leases are stolen, the network loses, repeats, delays and
    reorders records and invents replies.  In every state reached the source's
    rows are numbered 1..n, the receiver's tables are the effect of applying the
    records of rows 1..m, each once and in that order, with m <= n, and every
    acknowledged row is one of them. *)
Theorem outbox_exactly_once ops w tr w' ps' : provisioned w →
  pool_run same_core (op_proc <$> ops) w tr w' ps' →
  ∃ n recs,
    db_source (ha_source w') !! streamId = Some (mkSourceCp epoch n) ∧
    (∀ q, is_Some (src_row w' q) ↔ (1 <= q <= n)%Z) ∧
    (Z.of_nat (length recs) <= n)%Z ∧
    (∀ i rec, recs !! i = Some rec → ∃ r, src_row w' (Z.of_nat i + 1) = Some r ∧ carries (key (Z.of_nat i + 1)) r rec) ∧
    replay applyInTx recs app0 = Ret (db_app (ha_dest w')) ∧
    (∀ q r, src_row w' q = Some r → ro_acked r ≠ None → (1 <= q <= Z.of_nat (length recs))%Z).
Proof.
  intros Hprov Hrun. pose proof (run_inv _ _ _ _ _ (provisioned_inv _ Hprov) Hrun) as [Hinv _].
  destruct (Hinv (provisioned_inv _ Hprov)) as [[n S] F _ [recs D] _ K]. exists n, recs. split_and!.
  - apply S.
  - intros q. split; [|by apply F]. intros [r Hr]. by apply S in Hr as (_ & ? & _).
  - by eapply dest_le_source.
  - intros i rec Hi. destruct D as (_ & _ & D & _). destruct (D i rec Hi) as (r & ? & ? & _). eauto.
  - apply D.
  - intros q r Hr Ha. destruct (K q r Hr Ha) as [dg Hdg]. by apply D in Hdg.
Qed.
End safety.
