(* ===== verification/OutboxLive.v ===== *)
(** * What the outbox achieves when nothing fails

    [append_atomic]: the caller's change and its outbox row commit together;
    [drain_delivers]: with a network that answers, one drain delivers and
    acknowledges every pending row and stops; [redelivery_idempotent]: a record
    delivered again is recognised and changes nothing. *)

From S2P Require Import Prelude Proc JsNum Encoding Json JsText Crypto OutboxContract OutboxCanon OutboxDigest OutboxPg OutboxPgFacts OutboxPublisher OutboxSafety.
From stdpp Require Import base strings list gmap sorting.
From Stdlib Require Import ZArith Lia.

Local Open Scope string_scope.
Local Open Scope bpc_scope.

Section live.
Context `{WC : WebCrypto} `{J : Jsonb} `{SAN : MutationSanitizer} `{!MutationSanitizerLaws SAN}.
Context {A B : Type}.
Notation W := (HA A B).
Context `{ACK : AckReceiptVerifier W}.
Context (ss : Session) (schema streamId : string) (opts : PgOutboxOptions) (leaseMs : Z).
Implicit Types w : W.

(** C13 The caller's change to the application tables and the outbox row commit
    together or not at all, whatever the fate of the transaction; and they commit
    only under the persisted fence token and below the backlog bound. *)
Theorem append_atomic f mutate raw fence (d d' : PgDb A) r :
  transaction f (withOutboxTx ss schema None (do! app_write mutate in appendInTx opts streamId raw fence)) d = (d', r) →
  (d' = d ∧ ∃ e, r = Throw e) ∨
  (∃ a h, mutate (db_app d) = Ret a ∧ appended opts streamId raw fence (set_app a d) h d' ∧
     db_fence d !! streamId = Some fence ∧ (pending_rows streamId d < oo_maxPendingRows opts)%Z ∧
     (r = Ret h ∨ ∃ e, r = Throw e)).
Proof.
  intros [[-> He]|(h & Hfn & Hr)]%transaction_cases; [by left|right].
  apply critical_Ret, tbind_Ret in Hfn as (d2 & h' & Hfn & Hhook).
  apply tbind_Ret in Hhook as (? & ? & [_ ->]%tret_Ret & [-> ->]%tret_Ret).
  apply tbind_Ret in Hfn as (d1 & u & (a & Ha & ->)%app_write_Ret & Happ%appendInTx_Ret).
  exists a, h'. pose proof Happ as (cp & clean & dg & _ & _ & Hf & Hp & _). done.
Qed.

(** ** Redelivery *)

Lemma tbind_step {S C D} (p : tx S C) (k : C → tx S D) s s1 c : p s = (s1, Ret c) → tbind p k s = k c s1.
Proof. intros H. unfold tbind. by rewrite H. Qed.

(** A later state of the receiver: the history is kept, the checkpoint has not
    gone back, the fence has not moved. *)
Definition later (k : row_key) (d d' : PgDb B) : Prop :=
  (∀ dg, db_applied d !! k = Some dg → db_applied d' !! k = Some dg) ∧ db_fence d' !! k.1.1 = db_fence d !! k.1.1 ∧
  ∀ cp, db_receiver d !! k.1.1 = Some cp → ∃ cp', db_receiver d' !! k.1.1 = Some cp' ∧
    rc_epoch cp' = rc_epoch cp ∧ (rc_sequence cp <= rc_sequence cp' <= MAX_SAFE_INTEGER)%Z.

(** At-least-once delivery is safe: a record that was applied is recognised
    whenever it comes again -- the network repeated it, the acknowledgement was
    lost, the publisher restarted -- and the receiver answers [duplicate-ok] with
    its database unchanged, however many records it has applied since. *)
Theorem redelivery_idempotent applyInTx k r rec (d d1 d2 : PgDb B) : carries k r rec →
  verify_and_apply applyInTx k.1.1 rec d = (d1, Ret applied) → later k d1 d2 →
  verify_and_apply applyInTx k.1.1 rec d2 = (d2, Ret duplicate_ok).
Proof.
  intros Hc Hv (Happ & Hfe & Hrcv). pose proof Hc as (Hh & _ & _). destruct k as [[s e] q].
  apply (verify_and_apply_Ret _ _ r) in Hv; [|done].
  destruct Hv as (cp & a & Hf & Hcp & He & Hn & Hq & Hnone & Hap & -> & Hconf & Hsan & Hdg). simpl in *.
  specialize (Happ _ (lookup_insert_eq _ _ _)). rewrite Hf in Hfe.
  destruct (Hrcv _ (lookup_insert_eq _ _ _)) as (cp' & Hcp' & He' & Hq'). simpl in He', Hq'. clear Hrcv.
  pose proof (row_header_safe (s, e, q) r Hconf) as Hsafe. cbn [snd] in Hsafe.
  assert (0 <= rc_sequence cp' <= MAX_SAFE_INTEGER)%Z as Hsq by lia.
  unfold verify_and_apply. rewrite Hh. unfold row_header.
  cbn [oh_streamId oh_sourceEpoch oh_sequence oh_fenceToken oh_opDigest fst snd js_str].
  rewrite decide_False by tauto.
  erewrite tbind_step by (unfold tlift; unfold row_header in Hconf; cbn in Hconf; rewrite Hconf; reflexivity).
  rewrite Hsan. erewrite tbind_step by (unfold tlift; rewrite Hdg; reflexivity).
  erewrite tbind_step by (unfold tlift; rewrite (proj2 (digestEqualsField_true _ _) eq_refl); reflexivity).
  cbn [negb]. erewrite tbind_step by reflexivity. rewrite Hfe, BigInt_of_z, decide_False by tauto.
  erewrite tbind_step by reflexivity. rewrite Hcp'.
  erewrite tbind_step by (unfold tlift; rewrite (proj2 (safeSeq_z _ _ _) (conj eq_refl Hsq)); reflexivity).
  rewrite decide_False by (rewrite He'; tauto). rewrite Hsafe. cbn [default from_option id].
  rewrite decide_True by (cbn; lia). erewrite tbind_step by reflexivity. unfold from_option, id. rewrite Happ.
  by erewrite tbind_step by (unfold tlift; rewrite (proj2 (digestEqualsField_true _ _) eq_refl); reflexivity).
Qed.

(** ** Draining *)

Lemma run_source_tx {C} (fn : Z → tx (PgDb A) C) w d c :
  (∀ i, ha_fates w i = Committed) → fn (ha_clock w) (ha_source w) = (d, Ret c) →
  run (source_tx fn) w = (with_source d w, Ret c).
Proof. intros Hf Hfn. unfold source_tx. cbn. unfold transaction. by rewrite Hfn, Hf. Qed.

(** The rows of the stream still to be acknowledged. *)
Definition pending_row (kr : row_key * OutboxRow) : Prop := kr.1.1.1 = streamId ∧ ro_acked kr.2 = None.
#[local] Instance pending_row_dec kr : Decision (pending_row kr).
Proof. unfold pending_row. apply _. Defined.
Definition pendings (d : PgDb A) : gmap row_key OutboxRow := filter pending_row (db_rows d).

Lemma lowest_unacked_None (d : PgDb A) : lowest_unacked streamId d = None → pendings d = ∅.
Proof.
  unfold lowest_unacked. intros Hh%head_None. apply map_empty_filter. intros k r Hr Hp.
  apply elem_of_map_to_list in Hr. match type of Hh with merge_sort _ ?l = _ =>
    pose proof (merge_sort_Permutation seq_le l) as HP; assert ((k, r) ∈ l) as Hin by (by apply list_elem_of_filter) end.
  rewrite Hh in HP. rewrite <-HP in Hin. by apply not_elem_of_nil in Hin.
Qed.

(** What the publisher writes when it acknowledges. *)
Definition acked_row (now : Z) (r : OutboxRow) : OutboxRow :=
  mkRow (ro_fence r) (ro_digest r) (ro_mutation r) (Some now) (Some now) (ro_quarantined r).
Lemma pendings_Some (d : PgDb A) k r :
  pendings d !! k = Some r ↔ db_rows d !! k = Some r ∧ k.1.1 = streamId ∧ ro_acked r = None.
Proof. apply map_lookup_filter_Some. Qed.
Lemma pendings_ack (d : PgDb A) k r now :
  pendings (set_rows (<[k := acked_row now r]> (db_rows d)) d) = delete k (pendings d).
Proof.
  apply map_eq. intros k'. apply option_eq. intros r'. rewrite pendings_Some, lookup_delete_Some, pendings_Some. cbn.
  rewrite lookup_insert_Some. unfold acked_row. naive_solver.
Qed.
(** The rows of the stream once every pending one is acknowledged. *)
Definition all_acked (now : Z) (d : PgDb A) : gmap row_key OutboxRow := (acked_row now <$> pendings d) ∪ db_rows d.
Lemma all_acked_ack (d : PgDb A) k r now : pendings d !! k = Some r →
  all_acked now (set_rows (<[k := acked_row now r]> (db_rows d)) d) = all_acked now d.
Proof.
  intros Hr. unfold all_acked. rewrite pendings_ack. apply map_eq. intros k'. cbn. rewrite fmap_delete.
  destruct (decide (k' = k)) as [->|Hne].
  - rewrite lookup_union_r by apply lookup_delete_eq. rewrite lookup_insert_eq. symmetry.
    apply lookup_union_Some_l. by rewrite lookup_fmap, Hr.
  - rewrite !lookup_union, lookup_delete_ne, lookup_insert_ne by done. done.
Qed.

Section drain.
Context (w0 : W).
(** The network answers every delivery of [rec] with an accepted receipt. *)
Definition answered (rec : OutboxRecord) : Prop := ∀ i, ∃ v receipt,
  ha_replies w0 i rec = Ret v ∧ snapshotAckReceipt v = Ret receipt ∧
  (∀ w, ha_issued w = ha_issued w0 → ack_verify receipt rec w = Ret tt) ∧
  receipt_binds streamId receipt rec = Ret true ∧ ar_decision receipt ∈ ACK_DECISIONS.
(** A row the publisher can send: not quarantined, intact. *)
Definition sendable (k : row_key) (r : OutboxRow) : Prop :=
  jfin (ro_mutation r) ∧ ro_quarantined r = None ∧
  ∃ rec, row_record streamId (row_obj (k, r)) = Ret rec ∧ answered rec.

(** The part of the world a quiet run does not change. *)
Definition same_env w : Prop :=
  ha_fates w = ha_fates w0 ∧ ha_replies w = ha_replies w0 ∧ ha_issued w = ha_issued w0 ∧ ha_clock w = ha_clock w0 ∧
  ha_dest w = ha_dest w0.

Context (Hcrit : enterCriticalTx ss schema = Ret tt) (Hfates : ∀ i, ha_fates w0 i = Committed).

Lemma run_critical {C} (fn : Z → tx (PgDb A) C) w d c : same_env w →
  fn (ha_clock w0) (ha_source w) = (d, Ret c) →
  run (source_tx (λ now, critical ss schema (fn now))) w = (with_source d w, Ret c).
Proof.
  intros (Hf & _ & _ & Hcl & _) Hfn. apply run_source_tx; [intros i; rewrite Hf; apply Hfates|].
  unfold critical. rewrite Hcl. by erewrite tbind_step by (unfold tlift; rewrite Hcrit; reflexivity).
Qed.

Definition holds_lease (tok : string) w : Prop := ∃ l, db_lease (ha_source w) !! streamId = Some l ∧ le_token l = Some tok.
Lemma require_lease_held tok msg w : holds_lease tok w →
  require_lease streamId tok msg (ha_source w) = (ha_source w, Ret tt).
Proof. intros (l & Hl & Ht). unfold require_lease, tbind, tread. by rewrite Hl, decide_True. Qed.

(** One round: the lowest pending row is sent, its receipt accepted, the row
    acknowledged. *)
Lemma nextDeliverable_run tok w : same_env w → holds_lease tok w →
  (∀ k r, pendings (ha_source w) !! k = Some r → sendable k r) →
  ∃ w', same_env w' ∧ ha_source w' = ha_source w ∧ ha_sent w' = ha_sent w ∧
    ((pendings (ha_source w) = ∅ ∧ run (nextDeliverable ss schema streamId tok) w = (w', Ret None)) ∨
     ∃ k r, pendings (ha_source w) !! k = Some r ∧
       run (nextDeliverable ss schema streamId tok) w = (w', Ret (Some (row_obj (k, r))))).
Proof.
  intros Henv Hl Hsend. exists (with_source (ha_source w) w). split; [exact Henv|]. do 2 (split; [done|]).
  destruct (lowest_unacked streamId (ha_source w)) as [[k r]|] eqn:Hlow; [right|left].
  - exists k, r. assert (pendings (ha_source w) !! k = Some r) as Hp by by apply pendings_Some, lowest_unacked_Some.
    destruct (Hsend k r Hp) as (_ & Hq & _). split; [done|]. apply (run_critical (λ _, _)); [done|].
    erewrite tbind_step by by apply require_lease_held. erewrite tbind_step by reflexivity. rewrite Hlow. cbn [snd].
    by rewrite decide_True.
  - split; [by apply lowest_unacked_None|]. apply (run_critical (λ _, _)); [done|].
    erewrite tbind_step by by apply require_lease_held. erewrite tbind_step by reflexivity. by rewrite Hlow.
Qed.

Lemma ackRecord_run tok w k r : same_env w → holds_lease tok w → db_rows (ha_source w) !! k = Some r →
  k.1.1 = streamId → ro_acked r = None → ro_quarantined r = None →
  run (ackRecord ss schema streamId tok k.1.2 k.2 (ro_digest r)) w =
    (with_source (set_rows (<[k := acked_row (ha_clock w0) r]> (db_rows (ha_source w))) (ha_source w)) w, Ret tt).
Proof.
  intros Henv Hl Hr Hs Ha Hq. unfold ackRecord.
  destruct k as [[s e] q]. cbn in Hs. subst s. cbn [fst snd]. apply (run_critical (λ now, _)); [done|].
  erewrite tbind_step by by apply require_lease_held.
  erewrite tbind_step by (unfold update_row; rewrite Hr; unfold row_open; rewrite Ha, Hq, !bool_decide_true by done; reflexivity).
  unfold tlift, acked_row. by rewrite (proj2 (affectedOne_Ret _ _) eq_refl), Hq.
Qed.

Lemma deliver_run rec w : same_env w → answered rec → ∃ w' v receipt,
  run (deliverAndAwaitAck rec) w = (w', Ret v) ∧ same_env w' ∧ ha_source w' = ha_source w ∧
  ha_sent w' = (ha_sent w ++ [rec])%list ∧ snapshotAckReceipt v = Ret receipt ∧
  (∀ w, ha_issued w = ha_issued w0 → ack_verify receipt rec w = Ret tt) ∧
  receipt_binds streamId receipt rec = Ret true ∧ ar_decision receipt ∈ ACK_DECISIONS.
Proof.
  intros Henv Hans. destruct (Hans (ha_draws w)) as (v & receipt & Hv & H1 & H2 & H3 & H4).
  destruct Henv as (Hf & Hr & Henv). eexists _, v, receipt.
  split; [cbn; by rewrite Hr, Hv|]. by split_and!; try apply Henv.
Qed.

#[local] Opaque nextDeliverable row_record ackRecord deliverAndAwaitAck snapshotAckReceipt.
(** Enough rounds for the pending rows: the loop acknowledges every one and stops. *)
Lemma drain_loop_run n tok p a q w : same_env w → holds_lease tok w →
  (∀ k r, pendings (ha_source w) !! k = Some r → sendable k r) → size (pendings (ha_source w)) < n →
  let c := Z.of_nat (size (pendings (ha_source w))) in
  ∃ w' recs, run (drain_loop ss schema streamId n tok p a q) w = (w', Ret (Some (mkDrain (p + c) (a + c) q false))) ∧
    same_env w' ∧ holds_lease tok w' ∧ db_rows (ha_source w') = all_acked (ha_clock w0) (ha_source w) ∧
    ha_sent w' = (ha_sent w ++ recs)%list ∧ length recs = size (pendings (ha_source w)) ∧
    ∀ k r, pendings (ha_source w) !! k = Some r → ∃ rec, rec ∈ recs ∧ carries k r rec.
Proof.
  revert p a w. induction n as [|n IH]; intros p a w Henv Hl Hsend Hn; [lia|]. cbn [drain_loop].
  destruct (nextDeliverable_run tok w Henv Hl Hsend) as (w1 & Henv1 & Hs1 & Hsent1 & [[Hem Hrun]|(k & r & Hp & Hrun)]).
  { rewrite run_ebind, Hrun. exists w1, []. unfold all_acked. rewrite Hs1, Hem, Hsent1, app_nil_r, fmap_empty, map_empty_union.
    rewrite map_size_empty, !Z.add_0_r. split_and!; try done.
    - destruct Hl as (l & ? & ?). exists l. by rewrite Hs1. }
  rewrite run_ebind, Hrun. destruct (Hsend k r Hp) as (Hfin & Hq & rec & Hrec & Hans).
  pose proof (row_record_Ret k r rec Hfin) as Hcar. pose proof Hp as (Hrow & Hs & Ha)%pendings_Some. rewrite Hs in Hcar.
  destruct (Hcar Hrec) as (Hc & _ & Hconf & _). pose proof (row_header_safe k r Hconf) as Hsafe.
  rewrite run_ebind, Hrec. cbn [run]. rewrite run_bind.
  destruct (deliver_run rec w1 Henv1 Hans) as (w2 & v & receipt & Hdel & Henv2 & Hs2 & Hsent2 & Hsnap & Hver & Hbind & Hacc).
  rewrite Hdel, run_ebind, Hsnap. cbn [run]. rewrite run_ebind. unfold read, call. cbn [run].
  rewrite (Hver w2) by apply Henv2. rewrite run_ebind, Hbind. cbn [run]. rewrite run_ebind. cbn [negb throw_if run].
  rewrite run_ebind. rewrite bool_decide_false by (unfold KNOWN_DECISIONS; set_solver +Hacc). cbn [throw_if run].
  rewrite decide_True by done. destruct Hc as (Hh & Hc). rewrite Hh.
  destruct k as [[s e] sq]. cbn in Hs. subst s.
  cbn [row_header oh_sourceEpoch oh_sequence oh_opDigest js_str fst snd]. cbn [snd] in Hsafe. rewrite Hsafe. cbn [default from_option id].
  rewrite run_ebind. unfold from_option, id.
  assert (db_rows (ha_source w2) !! (streamId, e, sq) = Some r) as Hrow2 by by rewrite Hs2, Hs1.
  assert (holds_lease tok w2) as Hl2 by (destruct Hl as (l & ? & ?); exists l; by rewrite Hs2, Hs1).
  pose proof (ackRecord_run tok w2 (streamId, e, sq) r Henv2 Hl2 Hrow2 eq_refl Ha Hq) as Hack. cbn [fst snd] in Hack.
  rewrite Hack. clear Hack.
  set (w3 := with_source _ w2).
  assert (pendings (ha_source w3) = delete (streamId, e, sq) (pendings (ha_source w))) as Hp3.
  { cbn. by rewrite pendings_ack, Hs2, Hs1. }
  pose proof (map_size_delete_Some (streamId, e, sq) (pendings (ha_source w)) (mk_is_Some _ _ Hp)) as Hsz.
  pose proof (map_size_ne_0_lookup_2 (pendings (ha_source w)) _ (mk_is_Some _ _ Hp)) as Hpos.
  destruct (IH (p + 1)%Z (a + 1)%Z w3) as (w4 & recs & Hrun4 & Henv4 & Hl4 & Hrows4 & Hsent4 & Hlen4 & Hcov).
  - exact Henv2.
  - destruct Hl2 as (l & ? & ?). by exists l.
  - intros k' r'. rewrite Hp3. intros [_ Hk']%lookup_delete_Some. by apply Hsend.
  - rewrite Hp3, Hsz. lia.
  - assert (∀ x, x + 1 + Z.of_nat (pred (size (pendings (ha_source w)))) = x + Z.of_nat (size (pendings (ha_source w))))%Z
      as Hcount by lia.
    cbn zeta in *. rewrite Hp3, Hsz in *. rewrite Hrun4. exists w4, (rec :: recs). split_and!.
    + by rewrite !Hcount.
    + done.
    + done.
    + rewrite Hrows4. cbn. by rewrite all_acked_ack, Hs2, Hs1 by by rewrite Hs2, Hs1.
    + rewrite Hsent4. cbn. by rewrite Hsent2, Hsent1, <-app_assoc.
    + cbn [length]. rewrite Hlen4. destruct (size _); [done|reflexivity].
    + intros k' r' Hk'. destruct (decide (k' = (streamId, e, sq))) as [->|Hne].
      * exists rec. split; [apply list_elem_of_here|]. rewrite Hp in Hk'. injection Hk' as <-. by split.
      * destruct (Hcov k' r') as (rec' & Hin & Hcar'); [by rewrite lookup_delete_ne|].
        exists rec'. split; [by apply list_elem_of_further|done].
Qed.

(** C14 The publisher always makes progress.  With commits that succeed, a lease that
    is free or expired and a network that answers, one drain of [n] rounds, [n]
    above the number of pending rows, terminates: it sends a record for every
    pending row, acknowledges every one, changes no other row and nothing at the
    receiver, and frees the lease. *)
Theorem drain_delivers n :
  (∀ l u, db_lease (ha_source w0) !! streamId = Some l → le_until l = Some u → (u < ha_clock w0)%Z) →
  (∀ k r, pendings (ha_source w0) !! k = Some r → sendable k r) → size (pendings (ha_source w0)) < n →
  let c := Z.of_nat (size (pendings (ha_source w0))) in
  ∃ w' recs, run (drainOnce ss schema streamId leaseMs n) w0 = (w', Ret (Some (mkDrain c c 0 false))) ∧
    db_rows (ha_source w') = all_acked (ha_clock w0) (ha_source w0) ∧
    ha_sent w' = (ha_sent w0 ++ recs)%list ∧ length recs = size (pendings (ha_source w0)) ∧
    (∀ k r, pendings (ha_source w0) !! k = Some r → ∃ rec, rec ∈ recs ∧ carries k r rec) ∧
    ha_dest w' = ha_dest w0 ∧ db_lease (ha_source w') !! streamId = Some (mkLease None None).
Proof.
  intros Hlease Hsend Hn c. unfold drainOnce, randomUUID. rewrite run_bind. unfold call at 1. cbn [run].
  set (tok := ha_uuids w0 (ha_draws w0)). set (w1 := mkHA _ _ _ _ _ _ _ _ _).
  set (d1 := set_lease (<[streamId := mkLease (Some tok) (Some (ha_clock w0 + leaseMs)%Z)]> (db_lease (ha_source w0))) (ha_source w0)).
  assert (same_env w1) as Henv1 by done.
  assert (run (acquireLease ss schema streamId leaseMs tok) w1 = (with_source d1 w1, Ret true)) as Hacq.
  { apply (run_critical (λ now, _)); [done|]. unfold tbind, acquire_sql. cbn [ha_source w1].
    destruct (db_lease (ha_source w0) !! streamId) as [l|] eqn:Hl; [|done].
    destruct (le_until l) as [u|] eqn:Hu; [|done]. rewrite bool_decide_true by by eapply Hlease. done. }
  rewrite run_ebind, Hacq. cbn [negb]. rewrite run_bind.
  destruct (drain_loop_run n tok 0 0 0 (with_source d1 w1)) as (w2 & recs & Hrun & Henv2 & Hl2 & Hrows & Hsent & Hlen & Hcov); try done.
  { eexists. split; [apply lookup_insert_eq|done]. }
  cbn zeta in *. rewrite !Z.add_0_l in Hrun. change (pendings (ha_source (with_source d1 w1))) with (pendings (ha_source w0)) in *.
  rewrite Hrun. fold c. rewrite run_ebind. destruct Hl2 as (l & Hl & Htok).
  pose proof (run_critical (λ _ d, match db_lease d !! streamId with
    | Some l => if decide (le_token l = Some tok) then (set_lease (<[streamId := mkLease None None]> (db_lease d)) d, Ret tt) else (d, Ret tt)
    | None => (d, Ret tt) end) w2 (set_lease (<[streamId := mkLease None None]> (db_lease (ha_source w2))) (ha_source w2)) tt Henv2) as Hrel.
  unfold releaseLease. rewrite Hrel by (rewrite Hl, decide_True; done). cbn [run]. exists (with_source
    (set_lease (<[streamId := mkLease None None]> (db_lease (ha_source w2))) (ha_source w2)) w2), recs.
  split_and!; try done.
  - cbn. apply Henv2.
  - cbn. apply lookup_insert_eq.
Qed.
End drain.
End live.
