(* ===== verification/ReplicaEnvelope.v ===== *)
(** * Replica envelopes
    (packages/server/src: replica-envelope.ts, replicating-store.ts [ReplicaOp])

    A mutation travels to a replica in an envelope with a source, a sequence
    number and a time, authenticated by an HMAC over its JSON text with sorted
    keys.  The file has the envelope's functions and the guard that admits one
    sequence number after the other. *)

From S2P Require Import Prelude JsNum Encoding Json JsText Crypto OutboxContract.
From stdpp Require Import base strings list sorting sets.
From Stdlib Require Import ZArith Lia.

Local Open Scope string_scope.

Definition REPLICA_ENVELOPE_VERSION : string := "bpc.replica.v1".
Definition DEFAULT_REPLICA_FRESHNESS_MS : Z := 60000.

(** [ReplicaOp]: the payloads are JavaScript objects, kept as they are. *)
Inductive ReplicaOp :=
  | OpSet (p : jsval)
  | OpDelete (pairId : string)
  | OpSetPending (token : string) (registration : jsval) (requestedAt : num)
  | OpDeletePending (token : string).
#[export] Instance ReplicaOp_eq_dec : EqDecision ReplicaOp.
Proof. solve_decision. Defined.

(** The object literals of the code. *)
Definition op_value (op : ReplicaOp) : jsval :=
  match op with
  | OpSet p => JObj [("op", JStr "set"); ("pair", p)]
  | OpDelete pairId => JObj [("op", JStr "delete"); ("pairId", JStr pairId)]
  | OpSetPending token registration requestedAt =>
      JObj [("op", JStr "setPending"); ("token", JStr token); ("registration", registration);
            ("requestedAt", JNum requestedAt)]
  | OpDeletePending token => JObj [("op", JStr "deletePending"); ("token", JStr token)]
  end.

(** ** Canonical text *)

(** [sortValue]: assigning to [out['__proto__']] sets a prototype and adds no
    property. *)
Definition assign_sorted (l : list (string * jsval)) : list (string * jsval) :=
  js_order (filter (λ kv, kv.1 ≠ "__proto__") (fields_sorted l)).
Fixpoint sortValue (value : jsval) : jsval :=
  match value with
  | JArr l => JArr (List.map sortValue l)
  | JObj l => JObj (assign_sorted (List.map (λ kv : string * jsval, let (k, x) := kv in (k, sortValue x)) l))
  | v => v
  end.
Definition canonicalJson (value : jsval) : string := stringify (sortValue value).

Definition canonicalReplicaEnvelope (envelope : jsval) : string :=
  canonicalJson (JObj [("op", field envelope "op"); ("sentAt", field envelope "sentAt");
    ("sequence", field envelope "sequence"); ("sourceId", field envelope "sourceId");
    ("version", field envelope "version")]).

Definition isSafeIdentifier (value : jsval) : bool :=
  match value with
  | JStr s => (bool_decide (1 <= str_len s)%Z && bool_decide (str_len s <= 128)%Z &&
               all_chars (λ c, is_alnum c || one_of "_.:-" c) s)%bool
  | _ => false
  end.

(** ** Signatures *)

(** [Buffer.from(s, 'hex')] on an even number of hexadecimal digits. *)
Fixpoint from_hex (s : string) : string :=
  match s with
  | String a (String b s) =>
      String (ascii_of_N (Z.to_N (default 0%Z (hex_val a) * 16 + default 0%Z (hex_val b))%Z)) (from_hex s)
  | _ => EmptyString
  end.

Section signatures.
Context `{WC : WebCrypto}.

Definition assertReplicaKey (key : string) : exc unit :=
  if decide (utf8Len key < 32)%Z
  then Throw (TypeError "replication authentication key must contain at least 32 bytes") else Ret tt.

(** [createHmac('sha256', key)] *)
Definition signReplicaEnvelope (envelope : jsval) (key : string) : exc string :=
  _ ← assertReplicaKey key;
  tag ← hmac_sha256 (utf8_encode key) (utf8_encode (canonicalReplicaEnvelope envelope));
  Ret (hex_of tag).

(** [/^[0-9a-f]{64}$/i] *)
Definition hex64_i (s : string) : bool := (bool_decide (str_len s = 64)%Z && all_chars is_hex s)%bool.

Definition verifyReplicaEnvelopeSignature (envelope presentedSignature : jsval) (key : string) : bool :=
  match presentedSignature with
  | JStr s =>
      if negb (hex64_i s) then false
      else match signReplicaEnvelope envelope key with
           | Throw _ => false
           | Ret expected =>
               let a := from_hex s in
               let b := from_hex expected in
               (bool_decide (String.length a = String.length b) && bool_decide (a = b))%bool
           end
  | _ => false
  end.

Definition replicaOperationDigest (op : ReplicaOp) : string :=
  hex_of (sha256 (utf8_encode (canonicalJson (op_value op)))).
End signatures.

(** ** Validation *)

Definition validateReplicaEnvelope (body : jsval) (expectedSourceId : string) (nowMs freshnessMs : Z) : string + jsval :=
  match body with
  | JObj _ =>
      if decide (field body "version" ≠ JStr REPLICA_ENVELOPE_VERSION) then inl "invalid_envelope_version"
      else if (bool_decide (field body "sourceId" ≠ JStr expectedSourceId) || negb (isSafeIdentifier (field body "sourceId")))%bool
      then inl "invalid_replica_source"
      else match js_safe_int (field body "sequence") with
      | None => inl "invalid_replica_sequence"
      | Some sequence =>
          if decide (sequence < 1)%Z then inl "invalid_replica_sequence" else
          match field body "sentAt" with
          | JNum (Fin sentAt) =>
              if dec_far nowMs sentAt freshnessMs then inl "replica_request_expired"
              else match field body "op" with
                   | JObj _ | JArr _ =>
                       if decide (65536 < str_len (canonicalJson body))%Z then inl "replica_envelope_too_large"
                       else inr body
                   | _ => inl "invalid_replica_op"
                   end
          | _ => inl "invalid_replica_timestamp"
          end
      end
  | _ => inl "invalid_envelope"
  end.

(** ** The apply guard *)

Inductive ReplicaApplyDisposition := d_applied | d_duplicate | d_conflict | d_stale | d_gap | d_apply_failed.
#[export] Instance ReplicaApplyDisposition_eq_dec : EqDecision ReplicaApplyDisposition.
Proof. solve_decision. Defined.

(** [MemoryReplicaApplyGuard]: the last sequence and digest of each source.  Calls
    run one after the other on [tail]. *)
Definition MemoryReplicaApplyGuard : Type := list (string * (Z * string)).

Definition lastSequence (sourceId : string) (g : MemoryReplicaApplyGuard) : Z :=
  match om_get sourceId g with Some (sequence, _) => sequence | None => 0%Z end.

(** [applyIfNext]; [apply] changes the state [S] and says whether it succeeded. *)
Definition applyIfNext {S} (sourceId : string) (sequence : Z) (operationDigest : string) (apply : S → S * bool)
    (g : MemoryReplicaApplyGuard) (s : S) : MemoryReplicaApplyGuard * S * ReplicaApplyDisposition :=
  let state := om_get sourceId g in
  let last := lastSequence sourceId g in
  if decide (sequence = last)
  then (g, s, if decide (snd <$> state = Some operationDigest) then d_duplicate else d_conflict)
  else if decide (sequence < last)%Z then (g, s, d_stale)
  else if decide (sequence ≠ last + 1)%Z then (g, s, d_gap)
  else match apply s with
       | (s, false) => (g, s, d_apply_failed)
       | (s, true) => (om_set sourceId (sequence, operationDigest) g, s, d_applied)
       end.

(** ** The canonical text ignores the order of properties *)

Definition sortV_field (kv : string * jsval) : string * jsval := let (k, x) := kv in (k, sortValue x).
Lemma sortValue_obj l : sortValue (JObj l) = JObj (assign_sorted (sortV_field <$> l)).
Proof. done. Qed.
Lemma sortV_field_keys l : (sortV_field <$> l).*1 = l.*1.
Proof. induction l as [|[k v] l IH]; [done|]. csimpl. by rewrite IH. Qed.

Lemma assign_sorted_perm l l' : NoDup l.*1 → l ≡ₚ l' → assign_sorted l = assign_sorted l'.
Proof. intros Hnd Hp. unfold assign_sorted. by rewrite (fields_sorted_ext l l'). Qed.

(** What parsing does to a value it does not do to the canonical text. *)
Lemma sortValue_reorder v : keys_distinct v → sortValue (jreorder v) = sortValue v.
Proof.
  induction v as [| |b|n|s|l IH|l IH] using jsval_induction; try done.
  - rewrite keys_distinct_arr. intros Hl. cbn [jreorder sortValue]. f_equal.
    change (sortValue <$> (jreorder <$> l) = sortValue <$> l). rewrite <-list_fmap_compose.
    apply fmap_eq_Forall. decompose_Forall. simpl. auto.
  - rewrite keys_distinct_obj. intros [Hnd Hl].
    change (jreorder (JObj l)) with (JObj (js_order (List.map reorder_field l))).
    rewrite !sortValue_obj. f_equal. apply assign_sorted_perm.
    { by rewrite sortV_field_keys, js_order_perm, reorder_field_keys. }
    rewrite js_order_perm. change (List.map reorder_field l) with (reorder_field <$> l).
    rewrite <-list_fmap_compose. rewrite (fmap_eq_Forall _ sortV_field); [done|]. decompose_Forall.
    destruct x as [k x]. simpl in *. f_equal. auto.
Qed.

(** Reading a property of a parsed object. *)
Lemma field_reorder l k : NoDup l.*1 → field (jreorder (JObj l)) k = jreorder (field (JObj l) k).
Proof.
  intros Hnd. change (jreorder (JObj l)) with (JObj (js_order (List.map reorder_field l))).
  unfold field. cbn [prop]. rewrite (om_get_perm k _ (List.map reorder_field l)).
  - clear Hnd. induction l as [|[k' v] l IH]; [done|]. cbn. by case_decide.
  - by rewrite js_order_perm, reorder_field_keys.
  - apply js_order_perm.
Qed.
Lemma field_value l k v : om_get k l = Some v → field (JObj l) k = v.
Proof. intros H. unfold field. cbn. by rewrite H. Qed.

(** ** What a canonical text says *)

(** [JSON.stringify] writes an infinite number, which [JSON.parse] gives for
    [1e999], as [null]. *)
Fixpoint jnull (v : jsval) : jsval :=
  match v with
  | JNum (Fin d) => JNum (Fin d)
  | JNum _ => JNull
  | JArr l => JArr (List.map jnull l)
  | JObj l => JObj (List.map (λ kv : string * jsval, let (k, x) := kv in (k, jnull x)) l)
  | v => v
  end.
Definition jnull_field (kv : string * jsval) : string * jsval := let (k, x) := kv in (k, jnull x).
Lemma jnull_field_keys l : (jnull_field <$> l).*1 = l.*1.
Proof. induction l as [|[k v] l IH]; [done|]. csimpl. by rewrite IH. Qed.
Lemma om_get_jnull k l : om_get k (jnull_field <$> l) = jnull <$> om_get k l.
Proof. induction l as [|[k' v] l IH]; [done|]. csimpl. by case_decide. Qed.

Lemma stringify_jnull v : stringify_opt (jnull v) = stringify_opt v.
Proof.
  induction v as [| |b|[d| |]|s|l IH|l IH] using jsval_induction; try done; cbn [jnull stringify_opt]; do 4 f_equal.
  - change (List.map jnull l) with (jnull <$> l). change (((λ x, default "null" (stringify_opt x)) <$> (jnull <$> l)) =
      ((λ x, default "null" (stringify_opt x)) <$> l)). rewrite <-list_fmap_compose. apply fmap_eq_Forall.
    eapply Forall_impl; [exact IH|]. simpl. by intros x ->.
  - induction IH as [|[k x] l Hx _ IHl]; [done|]. cbn [List.map omap list_omap]. cbn [snd] in Hx. rewrite Hx. by rewrite IHl.
Qed.

Lemma assign_sorted_keys l : NoDup l.*1 → NoDup (filter (λ kv : string * jsval, kv.1 ≠ "__proto__") (fields_sorted l)).*1.
Proof.
  intros Hnd. apply om_wf_filter. unfold om_wf. by rewrite fields_sorted_keys, sorted_keys_perm.
Qed.
Lemma om_get_assign_sorted k l : k ≠ "__proto__" → NoDup l.*1 → om_get k (assign_sorted l) = om_get k l.
Proof.
  intros Hk Hnd. unfold assign_sorted.
  rewrite <-(om_get_perm k (filter (λ kv : string * jsval, kv.1 ≠ "__proto__") (fields_sorted l)));
    [|by apply assign_sorted_keys|by rewrite js_order_perm].
  rewrite om_get_filter by (unfold om_wf; by rewrite fields_sorted_keys, sorted_keys_perm).
  rewrite (om_get_perm k (fields_sorted l) l); [|by rewrite fields_sorted_keys, sorted_keys_perm|by apply fields_sorted_perm].
  destruct (om_get k l); [|done]. cbn. by rewrite decide_True.
Qed.

(** The value that is written: sorted, without infinite numbers. *)
Definition written (v : jsval) : jsval := jnull (sortValue v).
Lemma canonicalJson_written v : canonicalJson v = stringify (written v).
Proof. unfold canonicalJson, stringify, written. by rewrite stringify_jnull. Qed.

Lemma jparsed_keys v : jparsed v → keys_distinct v.
Proof.
  induction v as [| |b|n|s|l IH|l IH] using jsval_induction; try done.
  - rewrite keys_distinct_arr. cbn [jparsed]. rewrite (foldr_and_Forall jparsed). intros Hl. decompose_Forall. auto.
  - rewrite keys_distinct_obj. cbn [jparsed]. rewrite (foldr_and_Forall (λ kv, jparsed kv.2)). intros [[Hnd _] Hl].
    split; [done|]. decompose_Forall. auto.
Qed.

(** A parsed value as it is written is a well-formed value, so its text determines it. *)
Lemma written_wf v : jparsed v → jwf (written v).
Proof.
  unfold written. induction v as [| |b|[d| |]|s|l IH|l IH] using jsval_induction; try done; cbn [jparsed].
  - rewrite (foldr_and_Forall jparsed). intros Hl. cbn [sortValue jnull jwf]. rewrite (foldr_and_Forall jwf).
    change (Forall jwf (jnull <$> (sortValue <$> l))). rewrite <-list_fmap_compose. apply Forall_fmap. decompose_Forall. simpl. auto.
  - rewrite (foldr_and_Forall (λ kv, jparsed kv.2)). intros [[Hnd Ho] Hl].
    change (jwf (JObj (jnull_field <$> assign_sorted (sortV_field <$> l)))).
    assert (NoDup (sortV_field <$> l).*1) as Hnd' by (by rewrite sortV_field_keys).
    pose proof (assign_sorted_keys _ Hnd') as Hk. cbn [jwf]. rewrite (foldr_and_Forall (λ kv, jwf kv.2)). split; [split|].
    + rewrite jnull_field_keys. unfold assign_sorted. by rewrite js_order_perm.
    + rewrite js_order_fmap; [|by intros []|unfold assign_sorted; by rewrite js_order_perm].
      f_equal. unfold assign_sorted. by apply js_order_idem.
    + apply Forall_fmap, Forall_forall. intros x Hx. unfold assign_sorted in Hx. rewrite js_order_perm in Hx.
      apply list_elem_of_filter in Hx as [_ Hx]. rewrite fields_sorted_perm in Hx by done.
      apply list_elem_of_fmap in Hx as ([k y] & -> & Hy). rewrite Forall_forall in IH, Hl.
      exact (IH _ Hy (Hl _ Hy)).
Qed.

Lemma canonicalJson_inj v w : jparsed v → jparsed w → canonicalJson v = canonicalJson w → written v = written w.
Proof. rewrite !canonicalJson_written. intros Hv Hw. apply stringify_inj; by apply written_wf. Qed.

(** Member by member, [__proto__] apart. *)
Lemma written_obj l : written (JObj l) = JObj (jnull_field <$> assign_sorted (sortV_field <$> l)).
Proof. done. Qed.
Lemma written_members l l' k : k ≠ "__proto__" → NoDup l.*1 → NoDup l'.*1 → written (JObj l) = written (JObj l') →
  written (field (JObj l) k) = written (field (JObj l') k).
Proof.
  intros Hk Hl Hl'. rewrite !written_obj. intros [= Heq].
  assert (∀ l, NoDup l.*1 → om_get k (jnull_field <$> assign_sorted (sortV_field <$> l)) = written <$> om_get k l) as Hget.
  { clear -Hk. intros l Hl. rewrite om_get_jnull, om_get_assign_sorted by (by rewrite ?sortV_field_keys).
    clear. induction l as [|[k' v] l IH]; [done|]. csimpl. by case_decide. }
  pose proof (Hget l Hl) as H1. pose proof (Hget l' Hl') as H2. rewrite Heq, H2 in H1.
  unfold field. cbn [prop]. by destruct (om_get k l), (om_get k l'); simplify_eq/=.
Qed.
Lemma written_obj_inv v l : written v = written (JObj l) → ∃ l', v = JObj l'.
Proof. destruct v as [| | |[]| | |l']; try done. by exists l'. Qed.
Lemma written_str v s : written v = JStr s → v = JStr s.
Proof. by destruct v as [| | |[]| | |]. Qed.
Lemma written_fin v d : written v = JNum (Fin d) → v = JNum (Fin d).
Proof. by destruct v as [| | |[]| | |]. Qed.
Lemma written_text v w : written v = written w → canonicalJson v = canonicalJson w.
Proof. rewrite !canonicalJson_written. by intros ->. Qed.

Lemma jparsed_obj l : jparsed (JObj l) → NoDup l.*1 ∧ Forall (λ kv, jparsed kv.2) l.
Proof. cbn [jparsed]. rewrite (foldr_and_Forall (λ kv, jparsed kv.2)). by intros [[? _] ?]. Qed.
Lemma jparsed_field v k : jparsed v → field v k = JUndef ∨ jparsed (field v k).
Proof.
  destruct v as [| | | | | |l]; try (by left). intros [_ Hl]%jparsed_obj. unfold field. cbn [prop].
  destruct (om_get k l) as [x|] eqn:Hx; [|by left]. right. apply om_get_Some_elem in Hx. rewrite Forall_forall in Hl. by apply (Hl (k, x)).
Qed.

(** The five members of an envelope are all signed. *)
Definition envelope_members (v : jsval) : list (string * jsval) :=
  [("op", field v "op"); ("sentAt", field v "sentAt"); ("sequence", field v "sequence");
   ("sourceId", field v "sourceId"); ("version", field v "version")].
Lemma envelope_text_inj v w : jparsed v → jparsed w →
  (∀ k, k ∈ (envelope_members v).*1 → field v k ≠ JUndef ∧ field w k ≠ JUndef) →
  canonicalReplicaEnvelope v = canonicalReplicaEnvelope w →
  ∀ k, k ∈ (envelope_members v).*1 → written (field v k) = written (field w k).
Proof.
  intros Hv Hw Hdef Heq.
  assert (∀ u : jsval, NoDup (envelope_members u).*1) as Hnd by (intros u; apply (bool_decide_unpack _); vm_compute; exact I).
  assert (∀ u, jparsed u → (∀ k, k ∈ (envelope_members u).*1 → field u k ≠ JUndef) → jparsed (JObj (envelope_members u))) as Hp.
  { clear. intros u Hu Hd. cbn [jparsed]. rewrite (foldr_and_Forall (λ kv, jparsed kv.2)). split; [split|].
    - apply (bool_decide_unpack _). vm_compute. exact I.
    - apply js_order_no_index. unfold envelope_members. repeat (apply Forall_cons; split; [vm_compute; reflexivity|]). apply Forall_nil_2.
    - unfold envelope_members in *. csimpl in Hd. repeat (apply Forall_cons; split; [cbn [snd];
        match goal with |- jparsed (field u ?k) => destruct (jparsed_field u k Hu) as [H|H]; [|exact H]; exfalso; apply (Hd k); [set_solver|exact H] end|]).
      apply Forall_nil_2. }
  apply canonicalJson_inj in Heq; [|by apply Hp; [|intros k Hk; by apply Hdef]..].
  intros k Hk. pose proof (written_members _ _ k ltac:(intros ->; revert Hk; vm_compute; set_solver) (Hnd v) (Hnd w) Heq) as Hm.
  assert (∀ u, field (JObj (envelope_members u)) k = field u k) as Hf.
  { intros u. unfold envelope_members in Hk. csimpl in Hk. rewrite !elem_of_cons, elem_of_nil in Hk. by repeat destruct Hk as [-> |Hk]. }
  by rewrite !Hf in Hm.
Qed.

(** ** Hexadecimal digits *)

Lemma hex_digit_facts d : (0 <= d < 16)%Z → hex_val (hex_digit d) = Some d ∧ is_hex (hex_digit d) = true.
Proof.
  intros Hd. assert (∀ i, (i < 16)%nat → hex_val (hex_digit (Z.of_nat i)) = Some (Z.of_nat i) ∧ is_hex (hex_digit (Z.of_nat i)) = true) as H.
  { intros i Hi. do 16 (destruct i as [|i]; [vm_compute; by split|]). lia. }
  specialize (H (Z.to_nat d) ltac:(lia)). by rewrite Z2Nat.id in H by lia.
Qed.
Lemma byte_digits c : let n := Z.of_N (char_code c) in (0 <= n / 16 < 16)%Z ∧ (0 <= n mod 16 < 16)%Z ∧ (n / 16 * 16 + n mod 16 = n)%Z.
Proof. intros n. pose proof (char_code_bound c). split_and!; Z.div_mod_to_equations; lia. Qed.

Lemma hex_of_cons c s : hex_of (String c s) =
  String (hex_digit (Z.of_N (char_code c) / 16)) (String (hex_digit (Z.of_N (char_code c) mod 16)) (hex_of s)).
Proof. unfold hex_of. cbn [codes chars fmap list_fmap foldr]. unfold hex_byte at 1. done. Qed.

Lemma from_hex_hex_of s : from_hex (hex_of s) = s.
Proof.
  induction s as [|c s IH]; [done|]. rewrite hex_of_cons. destruct (byte_digits c) as (H1 & H2 & H3).
  cbn [from_hex]. rewrite (proj1 (hex_digit_facts _ H1)), (proj1 (hex_digit_facts _ H2)). cbn [default]. unfold from_option, id.
  rewrite H3, N2Z.id, IH. f_equal. unfold char_code. apply ascii_N_embedding.
Qed.
Lemma hex_of_facts s : all_chars is_hex (hex_of s) = true ∧ String.length (hex_of s) = (2 * String.length s)%nat.
Proof.
  induction s as [|c s [IH1 IH2]]; [done|]. rewrite hex_of_cons. destruct (byte_digits c) as (H1 & H2 & H3).
  cbn [all_chars String.length]. rewrite (proj2 (hex_digit_facts _ H1)), (proj2 (hex_digit_facts _ H2)), IH1, IH2.
  split; [done|lia].
Qed.
Lemma hex_of_hex64 s : String.length s = 32%nat → hex64_i (hex_of s) = true.
Proof.
  intros Hl. destruct (hex_of_facts s) as [H1 H2]. unfold hex64_i. by rewrite H1, H2, Hl.
Qed.

(** An envelope signed with a key of 32 bytes verifies under it. *)
Lemma sign_verifies `{WC : WebCrypto} `{!WebCryptoLaws WC} envelope key :
  (32 <= utf8Len key)%Z → ∃ sig, signReplicaEnvelope envelope key = Ret sig ∧
    verifyReplicaEnvelopeSignature envelope (JStr sig) key = true.
Proof.
  intros Hk. unfold verifyReplicaEnvelopeSignature, signReplicaEnvelope, assertReplicaKey. rewrite decide_False by lia.
  destruct (hmac_total (utf8_encode key) (utf8_encode (canonicalReplicaEnvelope envelope))) as (tag & -> & Hl).
  { intros H. unfold utf8Len in Hk. rewrite H in Hk. by vm_compute in Hk. }
  exists (hex_of tag). split; [done|]. rewrite hex_of_hex64 by done. simpl. by rewrite !bool_decide_true.
Qed.
