(* ===== verification/AgentCache.v ===== *)
(** * The agent's credential cache (packages/server/src/agent-cache.ts)

    A credential is sealed with the platform's data protection and kept under a
    key; reading it back checks the envelope, unseals, parses and compares the entry
    with the current state, and fails closed.  The store and the protector are
    reached through classes; [MemoryAgentCredentialCacheStore] and
    [WindowsCurrentUserDpapiProtector] are instances.  What PowerShell prints is the
    environment's. *)

From S2P Require Import Prelude Proc JsNum Encoding Json JsText Crypto OutboxContract ReplicaEnvelope.
From stdpp Require Import base strings list.
From Stdlib Require Import ZArith Lia.

Local Open Scope string_scope.
Local Open Scope bpc_scope.

(** ** Data *)

Record AgentCredentialCacheEntry := mkEntry {
  ce_version : jsval;
  ce_principal_id : string;
  ce_binding_hash : string;
  ce_policy_digest : string;
  ce_permissions_hash : string;
  ce_expires_at : dec;
  ce_sealed_at : dec;
  ce_credential_material : jsval;
}.

(** Fields that are checked where they are used are values of any type;
    [ci_credentialMaterial] is [None] when the input has no such own property. *)
Record CreateAgentCredentialCacheEntryInput := mkCreate {
  ci_principalId : jsval; ci_bindingHash : jsval; ci_policyDigest : jsval; ci_permissionsHash : jsval;
  ci_expiresAt : jsval; ci_credentialMaterial : option jsval; ci_nowMs : option num }.

Record AgentCredentialCacheExpectedState := mkExpected {
  ex_principalId : jsval; ex_bindingHash : jsval; ex_policyDigest : jsval; ex_permissionsHash : jsval;
  ex_nowMs : option num }.

(** ** Checks *)

Definition tampered {A} (what : string) : exc A := Throw (CacheTamperedError ("agent credential cache " +:+ what)).

Definition requireNonEmptyString (value : jsval) (fieldName : string) : exc string :=
  match value with
  | JStr s => if decide (trim s = EmptyString) then tampered (fieldName +:+ " invalid") else Ret s
  | _ => tampered (fieldName +:+ " invalid")
  end.

Definition requireFiniteTimestamp (value : jsval) (fieldName : string) : exc dec :=
  match value with
  | JNum (Fin d) => Ret d
  | _ => tampered (fieldName +:+ " invalid")
  end.

Definition assertCacheKey (cacheKey : string) : exc string :=
  if decide (trim cacheKey = EmptyString) then Throw (CacheUnavailableError "agent credential cache key is required")
  else Ret cacheKey.

(** [x <= y] on a finite number and any number. *)
Definition dec_le_num (x : dec) (y : num) : bool :=
  num_leb (Fin x) y.

Definition createAgentCredentialCacheEntry (input : CreateAgentCredentialCacheEntryInput) (clock : Z) :
    exc AgentCredentialCacheEntry :=
  let now := JNum (default (int clock) (ci_nowMs input)) in
  principal_id ← requireNonEmptyString (ci_principalId input) "principalId";
  binding_hash ← requireNonEmptyString (ci_bindingHash input) "bindingHash";
  policy_digest ← requireNonEmptyString (ci_policyDigest input) "policyDigest";
  permissions_hash ← requireNonEmptyString (ci_permissionsHash input) "permissionsHash";
  expires_at ← requireFiniteTimestamp (ci_expiresAt input) "expiresAt";
  sealed_at ← requireFiniteTimestamp now "nowMs";
  match ci_credentialMaterial input with
  | None => tampered "entry missing credential material"
  | Some m => Ret (mkEntry (JStr "1") principal_id binding_hash policy_digest permissions_hash expires_at sealed_at m)
  end.

(** The entry as an object, in the order its fields are written. *)
Definition entry_value (e : AgentCredentialCacheEntry) : jsval :=
  JObj [("version", ce_version e); ("principal_id", JStr (ce_principal_id e)); ("binding_hash", JStr (ce_binding_hash e));
    ("policy_digest", JStr (ce_policy_digest e)); ("permissions_hash", JStr (ce_permissions_hash e));
    ("expires_at", JNum (Fin (ce_expires_at e))); ("sealed_at", JNum (Fin (ce_sealed_at e)));
    ("credential_material", ce_credential_material e)].

(** The part of [parseCacheEntry] after [JSON.parse]. *)
Definition entry_of (parsed : jsval) : exc AgentCredentialCacheEntry :=
  match parsed with
  | JObj l =>
      let get k := field parsed k in
      principal_id ← requireNonEmptyString (get "principal_id") "principal_id";
      binding_hash ← requireNonEmptyString (get "binding_hash") "binding_hash";
      policy_digest ← requireNonEmptyString (get "policy_digest") "policy_digest";
      permissions_hash ← requireNonEmptyString (get "permissions_hash") "permissions_hash";
      expires_at ← requireFiniteTimestamp (get "expires_at") "expires_at";
      sealed_at ← requireFiniteTimestamp (get "sealed_at") "sealed_at";
      let entry := mkEntry (get "version") principal_id binding_hash policy_digest permissions_hash expires_at sealed_at
                     (get "credential_material") in
      if decide (ce_version entry ≠ JStr "1") then tampered "payload version invalid"
      else if negb (om_has "credential_material" l) then tampered "payload missing credential material"
      else Ret entry
  | _ => tampered "payload invalid"
  end.

(** [parseCacheEntry(Buffer.from(plaintext).toString('utf8'))] *)
Definition parseCacheEntry (plaintext : string) : exc AgentCredentialCacheEntry :=
  match parse_utf8 plaintext with
  | Throw _ => tampered "payload is not valid JSON"
  | Ret parsed => entry_of parsed
  end.

Definition validateSealedEnvelope (cache : jsval) : exc unit :=
  if negb (match cache with JObj _ | JArr _ => true | _ => false end) then tampered "envelope invalid"
  else if decide (field cache "version" ≠ JStr "1") then tampered "version invalid"
  else if decide (field cache "scope" ≠ JStr "CurrentUser") then tampered "scope invalid"
  else
    _ ← requireNonEmptyString (field cache "ciphertext_b64") "ciphertext_b64";
    _ ← requireFiniteTimestamp (field cache "protected_at") "protected_at";
    Ret tt.

Section checks.
Context `{WC : WebCrypto}.

(** [timingSafeEqual] on the SHA-256 of both texts. *)
Definition constantTimeStringEqual (a b : string) : bool :=
  let aHash := sha256 (utf8_encode a) in
  let bHash := sha256 (utf8_encode b) in
  bool_decide (aHash = bHash).

Definition assertSameField (actual : string) (expected : jsval) (fieldName : string) : exc unit :=
  expected ← requireNonEmptyString expected fieldName;
  if negb (constantTimeStringEqual actual expected) then tampered (fieldName +:+ " mismatch") else Ret tt.

Definition validateEntryAgainstCurrentState (entry : AgentCredentialCacheEntry) (expected : AgentCredentialCacheExpectedState)
    (clock : Z) : exc unit :=
  let now := default (int clock) (ex_nowMs expected) in
  if dec_le_num (ce_expires_at entry) now then Throw CacheExpiredError
  else
    _ ← assertSameField (ce_principal_id entry) (ex_principalId expected) "principal_id";
    _ ← assertSameField (ce_binding_hash entry) (ex_bindingHash expected) "binding_hash";
    _ ← assertSameField (ce_policy_digest entry) (ex_policyDigest expected) "policy_digest";
    assertSameField (ce_permissions_hash entry) (ex_permissionsHash expected) "permissions_hash".

(** The hash of [JSON.stringify]'s text; [undefined] has none, which [update] refuses. *)
Definition computePermissionsHash (authorizationContext : jsval) : exc string :=
  match stringify_opt (sortValue authorizationContext) with
  | Some text => Ret ("sha256:" +:+ hex_of (sha256 (utf8_encode text)))
  | None => Throw (TypeError "The data argument must be of type string")
  end.
End checks.

(** ** The protector and the store *)

(** [scope], [protect] and [unprotect], over the state of the platform. *)
Class DpapiProtector (P : Type) := {
  dp_scope : P → string;
  protect : string → P → P * exc string;
  unprotect : string → P → P * exc string;
}.
(** What is protected is unprotected again, under the identity that protected it. *)
Class DpapiProtectorLaws (P : Type) `{!DpapiProtector P} := {
  same_identity : P → P → Prop;
  same_scope p p' : same_identity p p' → dp_scope p' = dp_scope p;
  protect_scope b p p1 r : protect b p = (p1, r) → dp_scope p1 = dp_scope p;
  unprotect_protect b p p1 p2 c : protect b p = (p1, Ret c) → same_identity p1 p2 → (unprotect c p2).2 = Ret b;
  protect_nonempty b p p1 c : protect b p = (p1, Ret c) → c ≠ EmptyString;
}.

Class AgentCredentialCacheStore (S : Type) := {
  cache_put : string → jsval → S → S * exc unit;
  cache_get : string → S → S * exc (option jsval);
}.

Definition MemoryAgentCredentialCacheStore : Type := list (string * jsval).
Definition memory_put (cacheKey : string) (cache : jsval) (entries : MemoryAgentCredentialCacheStore) :
    MemoryAgentCredentialCacheStore * exc unit :=
  match assertCacheKey cacheKey with
  | Ret k => (om_set k cache entries, Ret tt)
  | Throw e => (entries, Throw e)
  end.
Definition memory_cache_get (cacheKey : string) (entries : MemoryAgentCredentialCacheStore) :
    MemoryAgentCredentialCacheStore * exc (option jsval) :=
  match assertCacheKey cacheKey with
  | Ret k => (entries, Ret (om_get k entries))
  | Throw e => (entries, Throw e)
  end.
#[export] Instance memory_cache_store : AgentCredentialCacheStore MemoryAgentCredentialCacheStore := {
  cache_put := memory_put; cache_get := memory_cache_get }.

(** [Buffer.from(s, 'base64')] ignores what is no digit; it decodes what
    [toString('base64')] encodes. *)
Class NodeBase64 := { from_base64 : string → string }.
Class NodeBase64Laws (B : NodeBase64) := { from_base64_btoa b : from_base64 (btoa b) = b }.

(** The process: its platform, and what [powershell.exe] prints for an operation. *)
Record WindowsCurrentUserDpapiProtector := mkWindows {
  wp_platform : string; wp_powershell : string → string → exc string }.

Definition is_cache_error (e : error) : bool :=
  match e with CacheExpiredError | CacheTamperedError _ | CacheUnavailableError _ => true | _ => false end.

Section windows.
Context `{B : NodeBase64}.

Definition runDpapi (operation input : string) (p : WindowsCurrentUserDpapiProtector) : exc string :=
  stdout ← wp_powershell p operation (btoa input);
  let output := trim stdout in
  if decide (output = EmptyString) then Throw (CacheUnavailableError "DPAPI returned no output")
  else Ret (from_base64 output).

Definition only_on_windows : exc string :=
  Throw (CacheUnavailableError "DPAPI CurrentUser protection is only available on Windows").

Definition windows_protect (plaintext : string) (p : WindowsCurrentUserDpapiProtector) : exc string :=
  if decide (wp_platform p ≠ "win32") then only_on_windows
  else catch (runDpapi "protect" plaintext p) (λ e,
    match e with
    | CacheUnavailableError _ => Throw e
    | _ => Throw (CacheUnavailableError "DPAPI CurrentUser protection failed")
    end).
Definition windows_unprotect (ciphertext : string) (p : WindowsCurrentUserDpapiProtector) : exc string :=
  if decide (wp_platform p ≠ "win32") then only_on_windows
  else catch (runDpapi "unprotect" ciphertext p) (λ e,
    match e with
    | CacheUnavailableError _ | CacheTamperedError _ => Throw e
    | _ => Throw (CacheTamperedError "DPAPI CurrentUser cache could not be unsealed")
    end).
#[export] Instance windows_protector : DpapiProtector WindowsCurrentUserDpapiProtector := {
  dp_scope _ := "CurrentUser"; protect b p := (p, windows_protect b p); unprotect c p := (p, windows_unprotect c p) }.
End windows.

(** ** Sealing, opening, and the cache *)

Record CacheWorld (P S : Type) := mkCacheWorld { aw_now : Z; aw_protector : P; aw_store : S }.
Arguments mkCacheWorld {P S}.
Arguments aw_now {P S}.
Arguments aw_protector {P S}.
Arguments aw_store {P S}.

Section cache.
Context `{WC : WebCrypto} `{B : NodeBase64} {P S : Type} `{!DpapiProtector P} `{!AgentCredentialCacheStore S}.
Notation W := (CacheWorld P S).

Definition on_protector {A} (f : P → P * A) : proc W A :=
  call (λ w, let '(p, a) := f (aw_protector w) in (mkCacheWorld (aw_now w) p (aw_store w), a)).
Definition on_store {A} (f : S → S * A) : proc W A :=
  call (λ w, let '(s, a) := f (aw_store w) in (mkCacheWorld (aw_now w) (aw_protector w) s, a)).

Definition wrong_scope {A} : exc A := Throw (CacheUnavailableError "agent credential cache requires DPAPI CurrentUser scope").

Definition sealed_value (protected_at : dec) (ciphertext : string) : jsval :=
  JObj [("version", JStr "1"); ("scope", JStr "CurrentUser"); ("protected_at", JNum (Fin protected_at));
    ("ciphertext_b64", JStr (btoa ciphertext))].

(** Everything before the first [await], with the call it makes. *)
Definition seal_begin (input : CreateAgentCredentialCacheEntryInput) (w : W) : W * exc (AgentCredentialCacheEntry * string) :=
  if decide (dp_scope (aw_protector w) ≠ "CurrentUser") then (w, wrong_scope)
  else match createAgentCredentialCacheEntry input (aw_now w) with
       | Throw e => (w, Throw e)
       | Ret entry =>
           let '(p, r) := protect (utf8_encode (stringify (entry_value entry))) (aw_protector w) in
           (mkCacheWorld (aw_now w) p (aw_store w), c ← r; Ret (entry, c))
       end.
Definition sealAgentCredentialCacheEntry (input : CreateAgentCredentialCacheEntryInput) : proc W (exc jsval) :=
  let+ sealed := call (seal_begin input) in
  eret (sealed_value (ce_sealed_at sealed.1) sealed.2).

(** The errors of [unprotect] that are not the cache's own become one. *)
Definition unseal_error (e : error) : error :=
  if is_cache_error e then e else CacheTamperedError "agent credential cache could not be unsealed".

Definition open_begin (sealedCache : jsval) (w : W) : W * exc string :=
  match validateSealedEnvelope sealedCache with
  | Throw e => (w, Throw e)
  | Ret _ =>
      if decide (dp_scope (aw_protector w) ≠ "CurrentUser") then (w, wrong_scope)
      else match field sealedCache "ciphertext_b64" with
           | JStr c =>
               let '(p, r) := unprotect (from_base64 c) (aw_protector w) in
               (mkCacheWorld (aw_now w) p (aw_store w), catch r (λ e, Throw (unseal_error e)))
           | _ => (w, tampered "ciphertext_b64 invalid")
           end
  end.
Definition open_end (expected : AgentCredentialCacheExpectedState) (plaintext : string) (clock : Z) : exc AgentCredentialCacheEntry :=
  entry ← parseCacheEntry plaintext;
  _ ← validateEntryAgainstCurrentState entry expected clock;
  Ret entry.
Definition openAgentCredentialCacheEntry (sealedCache : jsval) (expected : AgentCredentialCacheExpectedState) :
    proc W (exc AgentCredentialCacheEntry) :=
  let+ plaintext := call (open_begin sealedCache) in
  read (λ w, open_end expected plaintext (aw_now w)).

(** [DpapiFailClosedAgentCache] *)
Definition cache_write (cacheKey : string) (input : CreateAgentCredentialCacheEntryInput) : proc W (exc jsval) :=
  let+ sealed := sealAgentCredentialCacheEntry input in
  do+ on_store (cache_put cacheKey sealed) in
  eret sealed.

Definition cache_read (cacheKey : string) (expected : AgentCredentialCacheExpectedState) :
    proc W (exc AgentCredentialCacheEntry) :=
  let+ sealed := on_store (cache_get cacheKey) in
  match sealed with
  | Some sealed =>
      if truthy sealed then openAgentCredentialCacheEntry sealed expected
      else ethrow (CacheUnavailableError "agent credential cache entry unavailable")
  | None => ethrow (CacheUnavailableError "agent credential cache entry unavailable")
  end.
End cache.

(** ** base64 text has no white space *)

Lemma trim_solid s : Forall (λ c, is_js_space c = false) (chars s) → trim s = s.
Proof.
  assert (∀ l, Forall (λ c, is_js_space c = false) l → drop_space l = l) as Hd.
  { intros [|c l]; [done|]. intros [Hc _]%Forall_cons. simpl. by rewrite Hc. }
  intros Hs. unfold trim. rewrite (Hd (chars s)) by done. rewrite Hd by (by rewrite Forall_reverse). by rewrite reverse_involutive, unchars_chars.
Qed.

Lemma btoa_solid s : Forall (λ c, is_js_space c = false) (chars (btoa s)).
Proof.
  unfold btoa. rewrite chars_unchars. apply Forall_app. split; [|by apply Forall_replicate; vm_compute].
  apply Forall_fmap. eapply Forall_impl; [apply b64_enc_bound, codes_bound|]. intros v Hv.
  apply negb_true_iff. apply (N_below (λ v, negb (is_js_space (b64_char v))) v 64); [by vm_compute|done].
Qed.

Lemma trim_btoa s : trim (btoa s) = btoa s.
Proof. apply trim_solid, btoa_solid. Qed.

Lemma btoa_nonempty s : s ≠ EmptyString → btoa s ≠ EmptyString.
Proof.
  destruct s as [|a [|b [|c s]]]; [done|..]; intros _ H; apply (f_equal chars) in H; unfold btoa in H;
    rewrite chars_unchars in H; cbn in H; done.
Qed.

(** ** What a read returns *)

Section reading.
Context `{WC : WebCrypto}.

(** The field agrees with what is expected, or the two texts are a SHA-256 collision. *)
Definition agrees (actual : string) (expected : jsval) : Prop :=
  ∃ s, expected = JStr s ∧ trim s ≠ EmptyString ∧ (actual = s ∨ sha256 (utf8_encode actual) = sha256 (utf8_encode s)).
Definition entry_agrees (e : AgentCredentialCacheEntry) (expected : AgentCredentialCacheExpectedState) : Prop :=
  agrees (ce_principal_id e) (ex_principalId expected) ∧ agrees (ce_binding_hash e) (ex_bindingHash expected) ∧
  agrees (ce_policy_digest e) (ex_policyDigest expected) ∧ agrees (ce_permissions_hash e) (ex_permissionsHash expected).

Lemma requireNonEmptyString_Ret v f s : requireNonEmptyString v f = Ret s ↔ v = JStr s ∧ trim s ≠ EmptyString.
Proof.
  unfold requireNonEmptyString. split.
  - destruct v; try done. case_decide; [done|]. by intros [= ->].
  - intros [-> Hs]. by rewrite decide_False.
Qed.

Lemma nonempty_ok s f : trim s ≠ EmptyString → requireNonEmptyString (JStr s) f = Ret s.
Proof. intros Hs. by apply requireNonEmptyString_Ret. Qed.

Lemma requireFiniteTimestamp_Ret v f d : requireFiniteTimestamp v f = Ret d ↔ v = JNum (Fin d).
Proof. unfold requireFiniteTimestamp. destruct v as [| | |[]| | |]; naive_solver. Qed.

Lemma assertSameField_Ret a v f : assertSameField a v f = Ret tt ↔ agrees a v.
Proof.
  unfold assertSameField, agrees, constantTimeStringEqual. split.
  - intros (s & [-> Hs]%requireNonEmptyString_Ret & H)%exc_bind_Ret. case_bool_decide; [|done]. exists s. tauto.
  - intros (s & -> & Hs & Hd). unfold requireNonEmptyString. rewrite decide_False by done. cbn.
    rewrite bool_decide_true; [done|]. by destruct Hd as [->|].
Qed.

Lemma validate_Ret e expected clock : validateEntryAgainstCurrentState e expected clock = Ret tt ↔
  dec_le_num (ce_expires_at e) (default (int clock) (ex_nowMs expected)) = false ∧ entry_agrees e expected.
Proof.
  unfold validateEntryAgainstCurrentState, entry_agrees. destruct (dec_le_num _ _); [naive_solver|].
  rewrite <-!assertSameField_Ret. split.
  - intros H. split; [done|]. apply exc_bind_Ret in H as ([] & H1 & H). apply exc_bind_Ret in H as ([] & H2 & H).
    by apply exc_bind_Ret in H as ([] & H3 & H).
  - intros (_ & H1 & H2 & H3 & H4). by rewrite H1, H2, H3.
Qed.

(** ** Every failure is one of the cache's own *)

Definition cache_errors {A} (m : exc A) : Prop := match m with Throw e => is_cache_error e = true | Ret _ => True end.

Lemma cache_errors_bind {A C} (m : exc A) (k : A → exc C) : cache_errors m → (∀ a, cache_errors (k a)) → cache_errors (m ≫= k).
Proof. destruct m; [intros _ H; apply H|done]. Qed.
Lemma cache_errors_nonempty v f : cache_errors (requireNonEmptyString v f).
Proof. unfold requireNonEmptyString. destruct v; try done. by case_decide. Qed.
Lemma cache_errors_timestamp v f : cache_errors (requireFiniteTimestamp v f).
Proof. unfold requireFiniteTimestamp. by destruct v as [| | |[]| | |]. Qed.
#[local] Hint Resolve cache_errors_bind cache_errors_nonempty cache_errors_timestamp : cache.

Lemma cache_errors_same a v f : cache_errors (assertSameField a v f).
Proof. unfold assertSameField. apply cache_errors_bind; [auto with cache|]. intros s. by destruct (constantTimeStringEqual a s). Qed.
#[local] Hint Resolve cache_errors_same : cache.

Lemma cache_errors_create input clock : cache_errors (createAgentCredentialCacheEntry input clock).
Proof.
  unfold createAgentCredentialCacheEntry. repeat (apply cache_errors_bind; [by auto with cache|]; intros ?). by destruct (ci_credentialMaterial input).
Qed.
Lemma cache_errors_entry_of v : cache_errors (entry_of v).
Proof.
  unfold entry_of. destruct v; try done. repeat (apply cache_errors_bind; [by auto with cache|]; intros ?). by cases.
Qed.
Lemma cache_errors_parse s : cache_errors (parseCacheEntry s).
Proof. unfold parseCacheEntry. destruct (parse_utf8 s); [apply cache_errors_entry_of|done]. Qed.
Lemma cache_errors_envelope v : cache_errors (validateSealedEnvelope v).
Proof.
  unfold validateSealedEnvelope. destruct (negb _); [done|]. case_decide; [done|]. case_decide; [done|].
  repeat (apply cache_errors_bind; [by auto with cache|]; intros ?). done.
Qed.
Lemma cache_errors_validate e expected clock : cache_errors (validateEntryAgainstCurrentState e expected clock).
Proof.
  unfold validateEntryAgainstCurrentState. destruct (dec_le_num _ _); [done|].
  do 3 (apply cache_errors_bind; [by auto with cache|]; intros ?). auto with cache.
Qed.
Lemma cache_errors_open_end expected pt clock : cache_errors (open_end expected pt clock).
Proof.
  unfold open_end. apply cache_errors_bind; [apply cache_errors_parse|]. intros e.
  apply cache_errors_bind; [apply cache_errors_validate|]. done.
Qed.
End reading.

Section theorems.
Context `{WC : WebCrypto} `{B : NodeBase64} {P S : Type} `{!DpapiProtector P} `{!AgentCredentialCacheStore S}.
Notation W := (CacheWorld P S).
Implicit Types (w : W) (R : W → W → Prop).

Lemma on_store_inv R {A} (f : S → S * A) w tr w' a : exec R (on_store f) w tr w' a →
  ∃ u, tr = [(u, w')] ∧ (f (aw_store u)).2 = a ∧ aw_protector w' = aw_protector u ∧ aw_now w' = aw_now u.
Proof.
  intros (u & _ & Hu & ->)%exec_call_inv. exists u. destruct (f (aw_store u)) as [s x]. cbn in Hu. injection Hu as <- <-. done.
Qed.

Lemma open_begin_Ret sealedCache w pt : (open_begin sealedCache w).2 = Ret pt →
  ∃ c, validateSealedEnvelope sealedCache = Ret tt ∧ dp_scope (aw_protector w) = "CurrentUser" ∧
    field sealedCache "ciphertext_b64" = JStr c ∧ (unprotect (from_base64 c) (aw_protector w)).2 = Ret pt.
Proof.
  unfold open_begin. destruct (validateSealedEnvelope _) as [[]|]; [|done]. case_decide as Hs; [done|].
  destruct (field _ _) as [| | | |c| |]; try done. destruct (unprotect _ _) as [p [x|e]] eqn:Hu; [|done]. cbn. intros [= ->].
  exists c. by rewrite Hu.
Qed.

(** C39 Soundness of a read, under any interference with the store and the platform:
    a returned entry is what the protector unsealed from a well-formed envelope that
    the store held under this key; it carries every field the code requires; it
    expires after the time of the check -- the caller's [nowMs], or the clock -- unless
    the caller gave NaN for it; and it agrees with the expected principal, binding,
    policy and permissions, up to a SHA-256 collision with the expected text.  Only
    these four are compared: a checkpoint or a credential version is not. *)
Theorem cache_read_sound R key expected w tr w' e : exec R (cache_read key expected) w tr w' (Ret e) →
  ∃ s1 s2 s3 sealed c plaintext parsed, tr = [s1; s2; s3] ∧
    (cache_get key (aw_store s1.1)).2 = Ret (Some sealed) ∧ validateSealedEnvelope sealed = Ret tt ∧
    field sealed "ciphertext_b64" = JStr c ∧ dp_scope (aw_protector s2.1) = "CurrentUser" ∧
    (unprotect (from_base64 c) (aw_protector s2.1)).2 = Ret plaintext ∧
    parse_utf8 plaintext = Ret parsed ∧ entry_of parsed = Ret e ∧ ce_version e = JStr "1" ∧
    (let now := default (int (aw_now s3.1)) (ex_nowMs expected) in
     now = NaN ∨ num_ltb now (Fin (ce_expires_at e)) = true) ∧ entry_agrees e expected.
Proof.
  unfold cache_read. intros Hex. apply exec_ebind_inv in Hex as (o & w1 & t1 & t2 & Hget & Hex & ->).
  apply on_store_inv in Hget as (u1 & -> & Hget & _ & _).
  destruct o as [sealed|]; [|by apply exec_done_inv in Hex as (? & _)].
  destruct (truthy sealed); [|by apply exec_done_inv in Hex as (? & _)].
  unfold openAgentCredentialCacheEntry in Hex. apply exec_ebind_inv in Hex as (pt & w2 & t3 & t4 & Hb & Hex & ->).
  apply exec_call_inv in Hb as (u2 & _ & Hb & ->).
  apply exec_call_inv in Hex as (u3 & _ & [= <- He] & ->).
  assert ((open_begin sealed u2).2 = Ret pt) as Hbegin by (by rewrite Hb).
  apply open_begin_Ret in Hbegin as (c & Hv & Hscope & Hc & Hun). unfold open_end, parseCacheEntry in He.
  destruct (parse_utf8 pt) as [parsed|] eqn:Hp; [|done]. apply exc_bind_Ret in He as (e' & He' & He).
  apply exc_bind_Ret in He as ([] & Hval & [= ->]). apply validate_Ret in Hval as [Hexp Hag].
  unfold dec_le_num in Hexp. apply num_leb_false in Hexp as [Hexp|Hexp]; [done|].
  exists (u1, w1), (u2, w2), (u3, u3), sealed, c, pt, parsed. split_and!; try done.
  unfold entry_of in He'. destruct parsed; try done. repeat apply exc_bind_Ret in He' as (? & _ & He').
  by cases.
Qed.

Lemma cache_errors_open_begin sealedCache w : cache_errors (open_begin sealedCache w).2.
Proof.
  unfold open_begin. pose proof (cache_errors_envelope sealedCache) as He.
  destruct (validateSealedEnvelope sealedCache); [|done]. case_decide; [done|]. destruct (field _ _); try done.
  destruct (unprotect _ _) as [p [x|e]]; cbn; [done|]. unfold unseal_error. by destruct (is_cache_error e) eqn:Hx.
Qed.

(** A read fails closed, whatever the store holds and whatever the protector
    throws: its only other outcome is one of the three documented errors of the
    cache, or the error with which the store refused to answer. *)
Theorem cache_read_fails_closed R key expected w tr w' x : exec R (cache_read key expected) w tr w' (Throw x) →
  is_cache_error x = true ∨ ∃ s rest, tr = s :: rest ∧ (cache_get key (aw_store s.1)).2 = Throw x.
Proof.
  unfold cache_read. intros Hex. apply exec_bind_inv in Hex as (r & w1 & t1 & t2 & Hget & Hex & ->).
  apply on_store_inv in Hget as (u1 & -> & Hget & _ & _). destruct r as [o|y].
  2: { apply exec_done_inv in Hex as ([= ->] & _ & _). right. by exists (u1, w1), t2. }
  left. destruct o as [sealed|]; [|by apply exec_done_inv in Hex as ([= ->] & _ & _)].
  destruct (truthy sealed); [|by apply exec_done_inv in Hex as ([= ->] & _ & _)].
  unfold openAgentCredentialCacheEntry in Hex. apply exec_bind_inv in Hex as (r & w2 & t3 & t4 & Hb & Hex & ->).
  apply exec_call_inv in Hb as (u2 & _ & Hb & ->). destruct r as [pt|y].
  - apply exec_call_inv in Hex as (u3 & _ & [= _ He] & _). pose proof (cache_errors_open_end expected pt (aw_now u3)) as Hc. by rewrite He in Hc.
  - apply exec_done_inv in Hex as ([= ->] & _ & _). pose proof (cache_errors_open_begin sealed u2) as Hc. by rewrite Hb in Hc.
Qed.

(** ** What was written is read *)

Lemma seal_begin_Ret input w w1 e c : seal_begin input w = (w1, Ret (e, c)) →
  dp_scope (aw_protector w) = "CurrentUser" ∧ createAgentCredentialCacheEntry input (aw_now w) = Ret e ∧
  protect (utf8_encode (stringify (entry_value e))) (aw_protector w) = (aw_protector w1, Ret c) ∧
  aw_store w1 = aw_store w ∧ aw_now w1 = aw_now w.
Proof.
  unfold seal_begin. case_decide as Hs; [done|].
  destruct (createAgentCredentialCacheEntry _ _) as [e'|]; [|done].
  destruct (protect _ _) as [p [x|y]] eqn:Hp; [|done]. cbn. intros [= <- <- <-]. done.
Qed.

(** The entry as [JSON.parse] gives it back. *)
Definition reread (e : AgentCredentialCacheEntry) : AgentCredentialCacheEntry :=
  mkEntry (ce_version e) (ce_principal_id e) (ce_binding_hash e) (ce_policy_digest e) (ce_permissions_hash e)
    (ce_expires_at e) (ce_sealed_at e) (jreorder (ce_credential_material e)).

Definition well_numbered (d : dec) : Prop := dec_normal d ∧ dec_finite d.

Lemma created_entry input clock e : createAgentCredentialCacheEntry input clock = Ret e →
  ce_version e = JStr "1" ∧ trim (ce_principal_id e) ≠ EmptyString ∧ trim (ce_binding_hash e) ≠ EmptyString ∧
  trim (ce_policy_digest e) ≠ EmptyString ∧ trim (ce_permissions_hash e) ≠ EmptyString ∧
  ci_principalId input = JStr (ce_principal_id e) ∧ ci_bindingHash input = JStr (ce_binding_hash e) ∧
  ci_policyDigest input = JStr (ce_policy_digest e) ∧ ci_permissionsHash input = JStr (ce_permissions_hash e) ∧
  ci_expiresAt input = JNum (Fin (ce_expires_at e)) ∧ ci_credentialMaterial input = Some (ce_credential_material e) ∧
  default (int clock) (ci_nowMs input) = Fin (ce_sealed_at e).
Proof.
  unfold createAgentCredentialCacheEntry. intros Hc.
  apply exc_bind_Ret in Hc as (x1 & [-> H1]%requireNonEmptyString_Ret & Hc).
  apply exc_bind_Ret in Hc as (x2 & [-> H2]%requireNonEmptyString_Ret & Hc).
  apply exc_bind_Ret in Hc as (x3 & [-> H3]%requireNonEmptyString_Ret & Hc).
  apply exc_bind_Ret in Hc as (x4 & [-> H4]%requireNonEmptyString_Ret & Hc).
  apply exc_bind_Ret in Hc as (x5 & H5%requireFiniteTimestamp_Ret & Hc).
  apply exc_bind_Ret in Hc as (x6 & H6%requireFiniteTimestamp_Ret & Hc).
  destruct (ci_credentialMaterial input); [|done]. injection Hc as <-. cbn. split_and!; try done. congruence.
Qed.

Lemma entry_reread e : ce_version e = JStr "1" → trim (ce_principal_id e) ≠ EmptyString → trim (ce_binding_hash e) ≠ EmptyString →
  trim (ce_policy_digest e) ≠ EmptyString → trim (ce_permissions_hash e) ≠ EmptyString →
  jfin (ce_credential_material e) → well_numbered (ce_expires_at e) → well_numbered (ce_sealed_at e) →
  parseCacheEntry (utf8_encode (stringify (entry_value e))) = Ret (reread e).
Proof.
  intros Hv H1 H2 H3 H4 Hm He Hs. unfold parseCacheEntry. rewrite parse_utf8_encode, parse_stringify_fin.
  - unfold entry_value. cbn [jreorder List.map]. rewrite js_order_no_index by (repeat (apply Forall_cons; split; [vm_compute; reflexivity|]); apply Forall_nil_2). rewrite Hv.
    unfold entry_of. set (parsed := JObj _).
    change (field parsed "principal_id") with (JStr (ce_principal_id e)). change (field parsed "binding_hash") with (JStr (ce_binding_hash e)).
    change (field parsed "policy_digest") with (JStr (ce_policy_digest e)). change (field parsed "permissions_hash") with (JStr (ce_permissions_hash e)).
    change (field parsed "expires_at") with (JNum (Fin (ce_expires_at e))). change (field parsed "sealed_at") with (JNum (Fin (ce_sealed_at e))).
    change (field parsed "version") with (JStr "1"). change (field parsed "credential_material") with (jreorder (ce_credential_material e)).
    rewrite !nonempty_ok by done. cbn [mbind exc_bind requireFiniteTimestamp ce_version]. unfold reread. by rewrite Hv.
  - unfold entry_value. cbn [jfin]. split; [by apply (bool_decide_unpack _)|]. cbn. rewrite Hv. done.
Qed.

Lemma sealed_valid d c : c ≠ EmptyString → validateSealedEnvelope (sealed_value d c) = Ret tt.
Proof.
  intros Hc. unfold validateSealedEnvelope. set (cache := sealed_value d c).
  change (field cache "version") with (JStr "1"). change (field cache "scope") with (JStr "CurrentUser").
  change (field cache "ciphertext_b64") with (JStr (btoa c)). change (field cache "protected_at") with (JNum (Fin d)).
  rewrite nonempty_ok; [done|]. rewrite trim_btoa. by apply btoa_nonempty.
Qed.

Definition expects (expected : AgentCredentialCacheExpectedState) (e : AgentCredentialCacheEntry) : Prop :=
  ex_principalId expected = JStr (ce_principal_id e) ∧ ex_bindingHash expected = JStr (ce_binding_hash e) ∧
  ex_policyDigest expected = JStr (ce_policy_digest e) ∧ ex_permissionsHash expected = JStr (ce_permissions_hash e).

(** The store still answers with what was written, under the identity that wrote it. *)
Definition undisturbed `{!DpapiProtectorLaws P} (key : string) (sealed : jsval) (p : P) (w : W) : Prop :=
  (cache_get key (aw_store w)).2 = Ret (Some sealed) ∧ same_identity p (aw_protector w).

Lemma open_begin_written `{!DpapiProtectorLaws P} `{!NodeBase64Laws B} input w w1 e c w2 :
  seal_begin input w = (w1, Ret (e, c)) → same_identity (aw_protector w1) (aw_protector w2) →
  (open_begin (sealed_value (ce_sealed_at e) c) w2).2 = Ret (utf8_encode (stringify (entry_value e))).
Proof.
  intros (Hscope & _ & Hp & _)%seal_begin_Ret Hid. unfold open_begin.
  rewrite sealed_valid by (by eapply protect_nonempty). destruct (decide (dp_scope (aw_protector w2) ≠ "CurrentUser")) as [Hs|_].
  { exfalso. apply Hs. rewrite (same_scope _ _ Hid). by rewrite (protect_scope _ _ _ _ Hp). }
  change (field (sealed_value _ c) "ciphertext_b64") with (JStr (btoa c)). cbv beta iota. rewrite from_base64_btoa.
  pose proof (unprotect_protect _ _ _ _ _ Hp Hid) as Hu. destruct (unprotect c _) as [p r]. cbn in Hu |- *. by subst r.
Qed.

(** What was written is read: while the store keeps the record and the platform
    the identity, a read answers with the entry that was sealed -- its credential as
    JSON gives it back -- when the expected state is the sealed one and the entry
    has not expired, and with [CacheExpiredError] when it has. *)
Theorem cache_roundtrip `{!DpapiProtectorLaws P} `{!NodeBase64Laws B} R key input w w1 sealed expected w2 tr w' r e :
  run (cache_write key input) w = (w1, Ret sealed) → createAgentCredentialCacheEntry input (aw_now w) = Ret e →
  jfin (ce_credential_material e) → well_numbered (ce_expires_at e) → well_numbered (ce_sealed_at e) →
  exec R (cache_read key expected) w2 tr w' r →
  Forall (λ s, undisturbed key sealed (aw_protector w1) s.1) tr →
  ∃ s, last tr = Some s ∧
    let expired := dec_le_num (ce_expires_at e) (default (int (aw_now s.1)) (ex_nowMs expected)) in
    (expired = true → r = Throw CacheExpiredError) ∧ (expired = false → expects expected e → r = Ret (reread e)).
Proof.
  intros Hw He Hm Hexp Hsa Hex Hall. unfold cache_write, sealAgentCredentialCacheEntry in Hw. rewrite !run_ebind in Hw.
  cbn [run call fst snd] in Hw. destruct (seal_begin input w) as [wa [[e' c]|x]] eqn:Hseal; [|done]. cbn in Hw.
  pose proof (seal_begin_Ret _ _ _ _ _ Hseal) as (Hscope & He' & Hprot & _). rewrite He in He'. injection He' as <-.
  destruct (cache_put _ _ _) as [s0 [[]|x]]; [|done]. cbn in Hw. injection Hw as <- <-. cbn in Hall.
  destruct (created_entry _ _ _ He) as (Hv & H1 & H2 & H3 & H4 & _).
  unfold cache_read in Hex. apply exec_bind_inv in Hex as (o & w3 & t1 & t2 & Hget & Hex & ->).
  apply on_store_inv in Hget as (u1 & -> & Hget & _ & _). apply Forall_app in Hall as [[[Hg1 _] _]%Forall_cons Hall].
  cbn in Hg1. rewrite Hg1 in Hget. subst o. cbn [truthy sealed_value] in Hex.
  unfold openAgentCredentialCacheEntry in Hex. apply exec_bind_inv in Hex as (o & w4 & t3 & t4 & Hb & Hex & ->).
  apply exec_call_inv in Hb as (u2 & _ & Hb & ->). apply Forall_app in Hall as [[[_ Hid] _]%Forall_cons Hall].
  pose proof (open_begin_written _ _ _ _ _ u2 Hseal Hid) as Hopen. rewrite Hb in Hopen. cbn [snd] in Hopen. subst o.
  apply exec_call_inv in Hex as (u3 & _ & Hr & ->). cbv beta in Hr. apply pair_eq in Hr as [<- Hr]. exists (u3, u3). split; [done|]. cbn [fst]. subst r.
  unfold open_end. rewrite entry_reread by done. cbn [mbind exc_bind]. unfold validateEntryAgainstCurrentState. cbn [reread ce_expires_at].
  split; intros Hx; rewrite Hx; [done|]. intros (E1 & E2 & E3 & E4).
  assert (∀ a f, trim a ≠ EmptyString → assertSameField a (JStr a) f = Ret tt) as Hsame.
  { intros a f Ha. apply assertSameField_Ret. exists a. tauto. }
  cbn. rewrite E1, E2, E3, E4, !Hsame by done. done.
Qed.
End theorems.
