(* ===== verification/PrincipalSession.v ===== *)
(** * Principal sessions (packages/server/src/principal-session.ts)

    A principal is a key; its sessions with providers are recorded as hash-chained
    streams of events, and every change appends a hash-chained checkpoint of all
    stream heads.  The file has the data, the proof of possession, the in-memory
    ledger with each asynchronous operation as a process over [LedgerWorld], the
    continuity verification, and the sealed cache a fallback authorizes from.

    Principal and stream records are shared by reference in the source; an object
    is its key in the ledger's map, which no operation ever deletes. *)

From S2P Require Import Prelude Proc ChainLink JsNum Encoding Json JsText Crypto Nonce AuditChain OutboxContract ReplicaEnvelope RuntimeCapture.
From stdpp Require Import base strings list sorting.
From Stdlib Require Import ZArith Lia.

Local Open Scope string_scope.
Local Open Scope bpc_scope.

Definition PRINCIPAL_GENESIS_HASH : string := unchars (replicate 64 "0"%char).
Definition PRINCIPAL_BINDING_PURPOSE : string := "bpc.principal.session.bind.v1".

(** ** Data *)

(** A JavaScript object of the caller, kept as its properties. *)
Definition AuthorizationContext : Type := list (string * jsval).

Record PrincipalRecord := mkPrincipal {
  pr_principalId : string;
  pr_keyFingerprint : string;
  pr_publicKeyJwk : jsval;
  pr_createdAt : Z;
  pr_updatedAt : Z;
  pr_authorizationContext : AuthorizationContext;
  pr_keyVersion : Z;
  pr_sessionIds : list string;
  pr_activeSessionIds : list string;
  pr_streamIds : list string;
  pr_checkpointHead : string;
  pr_checkpointSeq : Z;
}.

Record PrincipalStreamRecord := mkStream {
  st_principalId : string;
  st_streamId : string;
  st_provider : string;
  st_agentInstanceId : string;
  st_providerSessionIds : list string;
  st_seq : Z;
  st_headHash : string;
}.

Record PrincipalSessionProof := mkProof { sp_challengeNonce : string; sp_signedAt : num; sp_signature : string }.

Record BindSessionInput := mkBind {
  bi_publicKeyJwk : jsval;
  bi_proof : PrincipalSessionProof;
  bi_provider : string;
  bi_providerSessionId : string;
  bi_agentInstanceId : option string;
  bi_policyDigest : string;
  bi_runtimeMetadata : option (list (string * jsval));
  bi_authorizationContext : option AuthorizationContext;
  bi_maxProofAgeMs : option num;
}.

Inductive PrincipalEventType := session_bound | session_event | session_closed | key_rotated | authorization_updated.
#[export] Instance PrincipalEventType_eq_dec : EqDecision PrincipalEventType.
Proof. solve_decision. Defined.
Definition event_string (t : PrincipalEventType) : string :=
  match t with
  | session_bound => "session_bound" | session_event => "session_event" | session_closed => "session_closed"
  | key_rotated => "key_rotated" | authorization_updated => "authorization_updated"
  end.

(** An event without its hashes, and with them. *)
Record EventBase := mkEventBase {
  eb_principalId : string;
  eb_streamId : string;
  eb_provider : string;
  eb_providerSessionId : option string;
  eb_agentInstanceId : string;
  eb_seq : Z;
  eb_timestamp : Z;
  eb_eventType : PrincipalEventType;
  eb_policyDigest : option string;
  eb_proofDigest : option string;
  eb_payloadHash : string;
  eb_payload : jsval;
  eb_prevHash : string;
}.
Record PrincipalStreamEvent := mkEvent { ev_base : EventBase; ev_chainHash : string; ev_bindingHash : option string }.
Definition ev_seq (e : PrincipalStreamEvent) : Z := eb_seq (ev_base e).
Definition ev_prevHash (e : PrincipalStreamEvent) : string := eb_prevHash (ev_base e).

(** [{ seq, chainHash }] *)
Record StreamHead := mkStreamHead { hd_seq : Z; hd_chainHash : string }.
#[export] Instance StreamHead_eq_dec : EqDecision StreamHead.
Proof. solve_decision. Defined.

Record CheckpointBase := mkCheckpointBase {
  cb_principalId : string;
  cb_seq : Z;
  cb_timestamp : Z;
  cb_streamHeads : list (string * StreamHead);
  cb_prevHash : string;
}.
Record PrincipalCheckpoint := mkCheckpoint { cp_base : CheckpointBase; cp_checkpointHash : string }.
Definition cp_seq (c : PrincipalCheckpoint) : Z := cb_seq (cp_base c).
Definition cp_prevHash (c : PrincipalCheckpoint) : string := cb_prevHash (cp_base c).

Record SessionBinding := mkBinding {
  sb_principalId : string;
  sb_streamId : string;
  sb_provider : string;
  sb_providerSessionId : string;
  sb_agentInstanceId : string;
  sb_boundAt : Z;
  sb_policyDigest : string;
  sb_authorizationContext : AuthorizationContext;
  sb_runtime : jsval;
  sb_prevHash : string;
  sb_bindingHash : string;
  sb_checkpointHash : string;
}.

Record PrincipalChainVerifyResult := mkChainVerify {
  cv_valid : bool; cv_principalId : string; cv_brokenAt : option string; cv_reason : option string }.

Record AuthorizationResolutionInput := mkResolution {
  ri_principalId : string; ri_keyFingerprint : string; ri_policyDigest : string; ri_requested : AuthorizationContext }.

(** The ledger's maps, the clock, and the resolver: what it answers is the
    environment's choice and may change at any time. *)
Record LedgerWorld := mkLedger {
  lw_now : Z;
  lw_resolve : AuthorizationResolutionInput → exc AuthorizationContext;
  lw_principals : list (string * PrincipalRecord);
  lw_streams : list (string * PrincipalStreamRecord);
  lw_events : list (string * list PrincipalStreamEvent);
  lw_checkpoints : list (string * list PrincipalCheckpoint);
  lw_consumedProofNonces : list string;
}.

(** A ledger as it is constructed. *)
Definition MemoryPrincipalSessionLedger_new (now : Z)
    (resolve : AuthorizationResolutionInput → exc AuthorizationContext) : LedgerWorld :=
  mkLedger now resolve [] [] [] [] [].

Definition set_principals f (w : LedgerWorld) : LedgerWorld :=
  mkLedger (lw_now w) (lw_resolve w) (f (lw_principals w)) (lw_streams w) (lw_events w) (lw_checkpoints w) (lw_consumedProofNonces w).
Definition set_streams f (w : LedgerWorld) : LedgerWorld :=
  mkLedger (lw_now w) (lw_resolve w) (lw_principals w) (f (lw_streams w)) (lw_events w) (lw_checkpoints w) (lw_consumedProofNonces w).
Definition set_events f (w : LedgerWorld) : LedgerWorld :=
  mkLedger (lw_now w) (lw_resolve w) (lw_principals w) (lw_streams w) (f (lw_events w)) (lw_checkpoints w) (lw_consumedProofNonces w).
Definition set_checkpoints f (w : LedgerWorld) : LedgerWorld :=
  mkLedger (lw_now w) (lw_resolve w) (lw_principals w) (lw_streams w) (lw_events w) (f (lw_checkpoints w)) (lw_consumedProofNonces w).
Definition set_consumed f (w : LedgerWorld) : LedgerWorld :=
  mkLedger (lw_now w) (lw_resolve w) (lw_principals w) (lw_streams w) (lw_events w) (lw_checkpoints w) (f (lw_consumedProofNonces w)).

(** [l.includes(x) || l.push(x)] *)
Definition push_new (x : string) (l : list string) : list string := if decide (x ∈ l) then l else (l ++ [x])%list.

(** A blank required text: [!s || s.trim() === '']. *)
Definition blank (s : string) : bool := bool_decide (trim s = EmptyString).

Definition assertBindingInput (input : BindSessionInput) : exc unit :=
  if blank (bi_provider input) then Throw (PlainError "provider is required")
  else if blank (bi_providerSessionId input) then Throw (PlainError "providerSessionId is required")
  else if blank (bi_policyDigest input) then Throw (PlainError "policyDigest is required")
  else Ret tt.

(** [input.agentInstanceId ?? `${input.provider}:${input.providerSessionId}`] *)
Definition agentOf (input : BindSessionInput) : string :=
  default (bi_provider input +:+ ":" +:+ bi_providerSessionId input) (bi_agentInstanceId input).

Section model.
Context `{WC : WebCrypto}.

(** ** Identifiers and hashes *)

Definition principalIdFromFingerprint (keyFingerprint : string) : string :=
  "principal_" +:+ String.substring 0 24 (sha256hex ("bpc-principal-v1:" +:+ keyFingerprint)).

Definition makeStreamId (principalId provider agentInstanceId : string) : string :=
  "stream_" +:+ String.substring 0 24 (sha256hex (principalId +:+ ":" +:+ provider +:+ ":" +:+ agentInstanceId)).

Definition event_text (event : EventBase) : string :=
  canonicalJson (JArr [
    JNum (int (eb_seq event)); JStr (eb_prevHash event); JStr (eb_principalId event); JStr (eb_streamId event);
    JStr (eb_provider event); opt_json (eb_providerSessionId event); JStr (eb_agentInstanceId event);
    JNum (int (eb_timestamp event)); JStr (event_string (eb_eventType event)); opt_json (eb_policyDigest event);
    opt_json (eb_proofDigest event); JStr (eb_payloadHash event); nullish (eb_payload event) (JObj [])]).
Definition computeStreamEventHash (event : EventBase) : string := sha256hex (event_text event).

Definition head_value (h : StreamHead) : jsval :=
  JObj [("seq", JNum (int (hd_seq h))); ("chainHash", JStr (hd_chainHash h))].
Definition heads_value (l : list (string * StreamHead)) : jsval := JObj (prod_map id head_value <$> l).
Definition checkpoint_text (checkpoint : CheckpointBase) : string :=
  canonicalJson (JArr [
    JNum (int (cb_seq checkpoint)); JStr (cb_prevHash checkpoint); JStr (cb_principalId checkpoint);
    JNum (int (cb_timestamp checkpoint)); heads_value (cb_streamHeads checkpoint)]).
Definition computeCheckpointHash (checkpoint : CheckpointBase) : string := sha256hex (checkpoint_text checkpoint).

(** ** Proof of possession *)

Definition buildPrincipalSessionProofPayload (keyFingerprint provider providerSessionId agentInstanceId policyDigest : string)
    (authorizationContext runtimeMetadata : list (string * jsval)) (challengeNonce : string) (signedAt : num) : jsval :=
  JObj [("purpose", JStr PRINCIPAL_BINDING_PURPOSE); ("key_fingerprint", JStr keyFingerprint);
    ("provider", JStr provider); ("provider_session_id", JStr providerSessionId);
    ("agent_instance_id", JStr agentInstanceId); ("policy_digest", JStr policyDigest);
    ("authorization_context_hash",
      JStr (sha256hex (canonicalJson (sanitizeCaptureValue (JObj authorizationContext) EmptyString))));
    ("runtime_metadata_hash", JStr (sha256hex (canonicalJson (sanitizeCaptureValue (JObj runtimeMetadata) EmptyString))));
    ("challenge_nonce", JStr challengeNonce); ("signed_at", JNum signedAt)].

Definition proof_payload (input : BindSessionInput) (fingerprint : string) : jsval :=
  buildPrincipalSessionProofPayload fingerprint (bi_provider input) (bi_providerSessionId input) (agentOf input)
    (bi_policyDigest input) (default [] (bi_authorizationContext input)) (default [] (bi_runtimeMetadata input))
    (sp_challengeNonce (bi_proof input)) (sp_signedAt (bi_proof input)).

(** With the clock reading [now]. *)
Definition verifyPrincipalSessionProof (input : BindSessionInput) (keyFingerprint : option string) (now : Z) : exc unit :=
  fingerprint ← match keyFingerprint with Some f => Ret f | None => computeFingerprint (bi_publicKeyJwk input) end;
  let maxProofAgeMs := default (int (5 * 60000)) (bi_maxProofAgeMs input) in
  let age := num_dist now (sp_signedAt (bi_proof input)) in
  if num_ltb maxProofAgeMs age then Throw (PlainError "principal session proof expired")
  else if decide (str_len (sp_challengeNonce (bi_proof input)) < 16)%Z
  then Throw (PlainError "principal session proof nonce too short")
  else
    publicKey ← importPublicKeyFromJwk (bi_publicKeyJwk input);
    if verifyPayload publicKey (proof_payload input fingerprint) (sp_signature (bi_proof input)) then Ret tt
    else Throw (PlainError "principal session proof invalid").

(** ** Private operations of the ledger *)

Definition mustPrincipal (principalId : string) (w : LedgerWorld) : exc PrincipalRecord :=
  match om_get principalId (lw_principals w) with
  | Some p => Ret p
  | None => Throw (PlainError ("Unknown principal: " +:+ principalId))
  end.

Definition upsertPrincipal (publicKeyJwk : jsval) (keyFingerprint : string) (authorizationContext : AuthorizationContext)
    (w : LedgerWorld) : LedgerWorld * string :=
  let principalId := principalIdFromFingerprint keyFingerprint in
  match om_get principalId (lw_principals w) with
  | Some _ => (w, principalId)
  | None =>
      let now := lw_now w in
      let principal := mkPrincipal principalId keyFingerprint publicKeyJwk now now authorizationContext 1 [] [] []
                         PRINCIPAL_GENESIS_HASH 0 in
      (set_checkpoints (om_set principalId []) (set_principals (om_set principalId principal) w), principalId)
  end.

Definition with_streamIds f (p : PrincipalRecord) : PrincipalRecord :=
  mkPrincipal (pr_principalId p) (pr_keyFingerprint p) (pr_publicKeyJwk p) (pr_createdAt p) (pr_updatedAt p)
    (pr_authorizationContext p) (pr_keyVersion p) (pr_sessionIds p) (pr_activeSessionIds p) (f (pr_streamIds p))
    (pr_checkpointHead p) (pr_checkpointSeq p).
Definition with_sessions f g (p : PrincipalRecord) : PrincipalRecord :=
  mkPrincipal (pr_principalId p) (pr_keyFingerprint p) (pr_publicKeyJwk p) (pr_createdAt p) (pr_updatedAt p)
    (pr_authorizationContext p) (pr_keyVersion p) (f (pr_sessionIds p)) (g (pr_activeSessionIds p)) (pr_streamIds p)
    (pr_checkpointHead p) (pr_checkpointSeq p).
Definition with_context f (p : PrincipalRecord) : PrincipalRecord :=
  mkPrincipal (pr_principalId p) (pr_keyFingerprint p) (pr_publicKeyJwk p) (pr_createdAt p) (pr_updatedAt p)
    (f (pr_authorizationContext p)) (pr_keyVersion p) (pr_sessionIds p) (pr_activeSessionIds p) (pr_streamIds p)
    (pr_checkpointHead p) (pr_checkpointSeq p).
Definition with_head (head : string) (seq timestamp : Z) (p : PrincipalRecord) : PrincipalRecord :=
  mkPrincipal (pr_principalId p) (pr_keyFingerprint p) (pr_publicKeyJwk p) (pr_createdAt p) timestamp
    (pr_authorizationContext p) (pr_keyVersion p) (pr_sessionIds p) (pr_activeSessionIds p) (pr_streamIds p) head seq.
Definition with_jwk (jwk : jsval) (p : PrincipalRecord) : PrincipalRecord :=
  mkPrincipal (pr_principalId p) (pr_keyFingerprint p) jwk (pr_createdAt p) (pr_updatedAt p)
    (pr_authorizationContext p) (pr_keyVersion p) (pr_sessionIds p) (pr_activeSessionIds p) (pr_streamIds p)
    (pr_checkpointHead p) (pr_checkpointSeq p).
Definition with_key (fingerprint : string) (version now : Z) (p : PrincipalRecord) : PrincipalRecord :=
  mkPrincipal (pr_principalId p) fingerprint (pr_publicKeyJwk p) (pr_createdAt p) now
    (pr_authorizationContext p) version (pr_sessionIds p) (pr_activeSessionIds p) (pr_streamIds p)
    (pr_checkpointHead p) (pr_checkpointSeq p).

(** An assignment to a property of the record with this key. *)
Definition on_principal (principalId : string) (f : PrincipalRecord → PrincipalRecord) (w : LedgerWorld) : LedgerWorld :=
  match om_get principalId (lw_principals w) with
  | Some p => set_principals (om_set principalId (f p)) w
  | None => w
  end.

Definition upsertStream (principal : PrincipalRecord) (streamId provider agentInstanceId providerSessionId : string)
    (w : LedgerWorld) : LedgerWorld * PrincipalStreamRecord :=
  match om_get streamId (lw_streams w) with
  | Some existing =>
      let existing := mkStream (st_principalId existing) (st_streamId existing) (st_provider existing) (st_agentInstanceId existing)
                        (push_new providerSessionId (st_providerSessionIds existing)) (st_seq existing) (st_headHash existing) in
      (set_streams (om_set streamId existing) w, existing)
  | None =>
      let stream := mkStream (pr_principalId principal) streamId provider agentInstanceId [providerSessionId] 0
                      PRINCIPAL_GENESIS_HASH in
      let w := set_events (om_set streamId []) (set_streams (om_set streamId stream) w) in
      (on_principal (pr_principalId principal) (with_streamIds (λ l, (l ++ [streamId])%list)) w, stream)
  end.

(** The optional arguments of [appendEventToStream]. *)
Record EventOptions := mkOptions {
  eo_providerSessionId : option string; eo_policyDigest : option string; eo_proofDigest : option string; eo_binding : bool }.
Definition no_options : EventOptions := mkOptions None None None false.

Definition appendEventToStream (stream : PrincipalStreamRecord) (eventType : PrincipalEventType)
    (payload : list (string * jsval)) (options : EventOptions) (w : LedgerWorld) : LedgerWorld * PrincipalStreamEvent :=
  let sanitizedPayload := sanitizeCaptureValue (JObj payload) EmptyString in
  let seq := (st_seq stream + 1)%Z in
  let base := mkEventBase (st_principalId stream) (st_streamId stream) (st_provider stream) (eo_providerSessionId options)
                (st_agentInstanceId stream) seq (lw_now w) eventType (eo_policyDigest options) (eo_proofDigest options)
                (sha256hex (canonicalJson sanitizedPayload)) sanitizedPayload (st_headHash stream) in
  let chainHash := computeStreamEventHash base in
  let event := mkEvent base chainHash (if eo_binding options then Some chainHash else None) in
  let entries := default [] (om_get (st_streamId stream) (lw_events w)) in
  let w := set_events (om_set (st_streamId stream) (entries ++ [event])%list) w in
  let stream := mkStream (st_principalId stream) (st_streamId stream) (st_provider stream) (st_agentInstanceId stream)
                  (st_providerSessionIds stream) seq chainHash in
  (set_streams (om_set (st_streamId stream) stream) w, event).

(** The heads of the principal's streams, in their order. *)
Definition collect_heads (w : LedgerWorld) (streamIds : list string) : list (string * StreamHead) :=
  foldl (λ heads streamId, match om_get streamId (lw_streams w) with
                           | Some s => om_set streamId (mkStreamHead (st_seq s) (st_headHash s)) heads
                           | None => heads
                           end) [] streamIds.

Definition appendCheckpoint (principal : PrincipalRecord) (w : LedgerWorld) : LedgerWorld * PrincipalCheckpoint :=
  let existing := default [] (om_get (pr_principalId principal) (lw_checkpoints w)) in
  let base := mkCheckpointBase (pr_principalId principal) (pr_checkpointSeq principal + 1) (lw_now w)
                (collect_heads w (pr_streamIds principal)) (pr_checkpointHead principal) in
  let full := mkCheckpoint base (computeCheckpointHash base) in
  let w := set_checkpoints (om_set (pr_principalId principal) (existing ++ [full])%list) w in
  (on_principal (pr_principalId principal) (with_head (cp_checkpointHash full) (cp_seq full) (cb_timestamp base)) w, full).

(** ** Binding a session *)

(** The nonce check and its registration, in one turn of the event loop. *)
Definition consumeProofNonce (digest : string) (w : LedgerWorld) : LedgerWorld * exc unit :=
  if decide (digest ∈ lw_consumedProofNonces w) then (w, Throw (PlainError "principal session proof replayed"))
  else (set_consumed (λ l, (l ++ [digest])%list) w, Ret tt).

Definition proof_value (p : PrincipalSessionProof) : jsval :=
  JObj [("challengeNonce", JStr (sp_challengeNonce p)); ("signedAt", JNum (sp_signedAt p)); ("signature", JStr (sp_signature p))].

(** What [bindSession] does after its last [await]. *)
Definition bindCommit (input : BindSessionInput) (principalId : string) (authorizationContext : AuthorizationContext)
    (w : LedgerWorld) : LedgerWorld * exc SessionBinding :=
  match mustPrincipal principalId w with
  | Throw e => (w, Throw e)
  | Ret principal =>
      let agentInstanceId := agentOf input in
      let session := bi_providerSessionId input in
      let streamId := makeStreamId (pr_principalId principal) (bi_provider input) agentInstanceId in
      let '(w, stream) := upsertStream principal streamId (bi_provider input) agentInstanceId session w in
      let w := on_principal principalId (with_sessions (push_new session) (push_new session)) w in
      let w := match authorizationContext with
               | [] => w
               | _ => on_principal principalId (with_context (λ c, spread c authorizationContext)) w
               end in
      match mustPrincipal principalId w with
      | Throw e => (w, Throw e)
      | Ret principal =>
          let runtime := sanitizeCaptureValue (JObj (default [] (bi_runtimeMetadata input))) EmptyString in
          let proofDigest := sha256hex (canonicalJson (proof_value (bi_proof input))) in
          let payload := [("provider", JStr (bi_provider input)); ("providerSessionId", JStr session);
            ("agentInstanceId", JStr agentInstanceId); ("policyDigest", JStr (bi_policyDigest input));
            ("runtime", runtime); ("authorizationContext", JObj (pr_authorizationContext principal))] in
          let '(w, event) := appendEventToStream stream session_bound payload
                               (mkOptions (Some session) (Some (bi_policyDigest input)) (Some proofDigest) true) w in
          let '(w, checkpoint) := appendCheckpoint principal w in
          (w, Ret (mkBinding principalId streamId (bi_provider input) session agentInstanceId
                    (eb_timestamp (ev_base event)) (bi_policyDigest input) (pr_authorizationContext principal) runtime
                    (ev_prevHash event) (ev_chainHash event) (cp_checkpointHash checkpoint)))
      end
  end.

Definition bindSession (input : BindSessionInput) : proc LedgerWorld (exc SessionBinding) :=
  match assertBindingInput input with
  | Throw e => ethrow e
  | Ret _ =>
      match computeFingerprint (bi_publicKeyJwk input) with
      | Throw e => ethrow e
      | Ret keyFingerprint =>
          let+ _ := read (λ w, verifyPrincipalSessionProof input (Some keyFingerprint) (lw_now w)) in
          let+ _ := call (consumeProofNonce (sha256hex (sp_challengeNonce (bi_proof input)))) in
          let+ authorizationContext := read (λ w, lw_resolve w
            (mkResolution (principalIdFromFingerprint keyFingerprint) keyFingerprint (bi_policyDigest input)
               (default [] (bi_authorizationContext input)))) in
          let* principalId := call (upsertPrincipal (bi_publicKeyJwk input) keyFingerprint authorizationContext) in
          call (bindCommit input principalId authorizationContext)
      end
  end.

(** ** The other operations *)

Definition appendStreamEvent (principalId streamId : string) (eventType : PrincipalEventType)
    (payload : list (string * jsval)) (w : LedgerWorld) : LedgerWorld * exc PrincipalStreamEvent :=
  match mustPrincipal principalId w with
  | Throw e => (w, Throw e)
  | Ret principal =>
      match om_get streamId (lw_streams w) with
      | Some stream =>
          if decide (st_principalId stream ≠ principalId)
          then (w, Throw (PlainError ("Unknown stream for principal: " +:+ streamId)))
          else
            let '(w, event) := appendEventToStream stream eventType payload no_options w in
            let '(w, _) := appendCheckpoint principal w in
            (w, Ret event)
      | None => (w, Throw (PlainError ("Unknown stream for principal: " +:+ streamId)))
      end
  end.

Definition closeSession (principalId streamId providerSessionId : string) (w : LedgerWorld) : LedgerWorld * exc unit :=
  match mustPrincipal principalId w with
  | Throw e => (w, Throw e)
  | Ret _ =>
      let w := on_principal principalId (with_sessions id (filter (λ i, i ≠ providerSessionId))) w in
      let '(w, r) := appendStreamEvent principalId streamId session_closed
                       [("providerSessionId", JStr providerSessionId)] w in
      (w, r ≫= λ _, Ret tt)
  end.

(** The record gets the new key before its fingerprint is computed. *)
Definition rotateBegin (principalId : string) (publicKeyJwk : jsval) (w : LedgerWorld) : LedgerWorld * exc string :=
  match mustPrincipal principalId w with
  | Throw e => (w, Throw e)
  | Ret _ => (on_principal principalId (with_jwk publicKeyJwk) w, computeFingerprint publicKeyJwk)
  end.
Definition rotateCommit (principalId fingerprint : string) (keyVersion : option Z) (w : LedgerWorld) : LedgerWorld * exc PrincipalRecord :=
  match mustPrincipal principalId w with
  | Throw e => (w, Throw e)
  | Ret p =>
      let version := default (pr_keyVersion p + 1)%Z keyVersion in
      let p := with_key fingerprint version (lw_now w) p in
      let w := set_principals (om_set principalId p) w in
      let '(w, _) := appendCheckpoint p w in
      (w, mustPrincipal principalId w)
  end.
Definition rotatePrincipalKey (principalId : string) (publicKeyJwk : jsval) (keyVersion : option Z) : proc LedgerWorld (exc PrincipalRecord) :=
  let+ fingerprint := call (rotateBegin principalId publicKeyJwk) in
  call (rotateCommit principalId fingerprint keyVersion).

Definition getPrincipal (principalId : string) (w : LedgerWorld) : option PrincipalRecord := om_get principalId (lw_principals w).

(** The order of the comparator.  [localeCompare] on the stream identifiers the
    ledger makes, equally long texts of lower-case hexadecimal digits after one
    prefix, is the order of their code units. *)
Definition event_le (a b : PrincipalStreamEvent) : Prop :=
  let '(a, b) := (ev_base a, ev_base b) in
  (eb_timestamp a < eb_timestamp b)%Z ∨ eb_timestamp a = eb_timestamp b ∧
    (eb_streamId a ≠ eb_streamId b ∧ String.le (eb_streamId a) (eb_streamId b) ∨
     eb_streamId a = eb_streamId b ∧ (eb_seq a <= eb_seq b)%Z).
#[export] Instance event_le_dec a b : Decision (event_le a b).
Proof. unfold event_le. apply _. Defined.

Definition queryPrincipalEvents (principalId : string) (limit : Z) (w : LedgerWorld) : exc (list PrincipalStreamEvent) :=
  match mustPrincipal principalId w with
  | Throw e => Throw e
  | Ret principal =>
      Ret (slice_neg limit (merge_sort event_le
        (mjoin ((λ streamId, default [] (om_get streamId (lw_events w))) <$> pr_streamIds principal))))
  end.

(** ** Verifying continuity *)

Definition not_continuous (principalId : string) (brokenAt : string) (reason : string) : PrincipalChainVerifyResult :=
  mkChainVerify false principalId (Some brokenAt) (Some reason).

Definition check_entries : list PrincipalStreamEvent → (PrincipalStreamEvent * link_fault) + string :=
  check_links ev_seq ev_prevHash ev_chainHash (λ e, computeStreamEventHash (ev_base e)) 0 PRINCIPAL_GENESIS_HASH.
Definition stream_reason (f : link_fault) : string :=
  match f with bad_seq => "non_contiguous_stream_seq" | bad_prev => "broken_stream_link" | bad_hash => "stream_entry_hash_mismatch" end.

(** The loop over the streams: the current heads, or the result that returns. *)
Fixpoint verifyStreams (principalId : string) (streamIds : list string) (currentHeads : list (string * StreamHead))
    (w : LedgerWorld) : PrincipalChainVerifyResult + list (string * StreamHead) :=
  match streamIds with
  | [] => inr currentHeads
  | streamId :: streamIds =>
      match om_get streamId (lw_streams w) with
      | None => inl (not_continuous principalId streamId "stream_missing")
      | Some stream =>
          let entries := default [] (om_get streamId (lw_events w)) in
          match check_entries entries with
          | inl (event, fault) =>
              inl (not_continuous principalId (streamId +:+ ":" +:+ z_to_string (ev_seq event)) (stream_reason fault))
          | inr prevHash =>
              if (bool_decide (st_seq stream ≠ Z.of_nat (length entries)) || bool_decide (st_headHash stream ≠ prevHash))%bool
              then inl (not_continuous principalId streamId "stream_head_mismatch")
              else verifyStreams principalId streamIds
                     (om_set streamId (mkStreamHead (st_seq stream) (st_headHash stream)) currentHeads) w
          end
      end
  end.

Definition check_checkpoints : list PrincipalCheckpoint → (PrincipalCheckpoint * link_fault) + string :=
  check_links cp_seq cp_prevHash cp_checkpointHash (λ c, computeCheckpointHash (cp_base c)) 0 PRINCIPAL_GENESIS_HASH.
Definition checkpoint_reason (f : link_fault) : string :=
  match f with
  | bad_seq => "non_contiguous_checkpoint_seq" | bad_prev => "broken_checkpoint_link" | bad_hash => "checkpoint_hash_mismatch"
  end.

Definition verifyPrincipalContinuity (principalId : string) (w : LedgerWorld) : PrincipalChainVerifyResult :=
  match om_get principalId (lw_principals w) with
  | None => mkChainVerify false principalId None (Some "principal_not_found")
  | Some principal =>
      match verifyStreams principalId (pr_streamIds principal) [] w with
      | inl r => r
      | inr currentHeads =>
          let checkpoints := default [] (om_get principalId (lw_checkpoints w)) in
          match check_checkpoints checkpoints with
          | inl (checkpoint, fault) =>
              not_continuous principalId ("checkpoint:" +:+ z_to_string (cp_seq checkpoint)) (checkpoint_reason fault)
          | inr _ =>
              match last checkpoints with
              | None => not_continuous principalId "checkpoint:head" "principal_checkpoint_head_mismatch"
              | Some latest =>
                  if (bool_decide (cp_checkpointHash latest ≠ pr_checkpointHead principal) ||
                      bool_decide (cp_seq latest ≠ pr_checkpointSeq principal))%bool
                  then not_continuous principalId "checkpoint:head" "principal_checkpoint_head_mismatch"
                  else if decide (canonicalJson (heads_value (cb_streamHeads (cp_base latest))) ≠
                                  canonicalJson (heads_value currentHeads))
                  then not_continuous principalId "checkpoint:latest" "checkpoint_stream_heads_mismatch"
                  else mkChainVerify true principalId None None
              end
          end
      end
  end.
End model.
