(* ===== verification/PrincipalChain.v ===== *)
(** * The ledger's chains stay continuous

    The invariant of the ledger of [PrincipalSession]: every stream is hash-linked
    from genesis to its head, every principal's checkpoints are linked to its
    checkpoint head, the latest one records the heads of all its streams.  Every
    operation keeps it, in any interleaving, so the continuity verification
    succeeds; and a checkpoint head pins the whole history below it. *)

From S2P Require Import Prelude Proc ChainLink JsNum Encoding Json JsText Crypto AuditChain OutboxContract ReplicaEnvelope RuntimeCapture PrincipalSession.
From stdpp Require Import base strings list relations.
From Stdlib Require Import ZArith Lia.

Local Open Scope bpc_scope.

Section growth.
Context `{WC : WebCrypto}.

Lemma om_get_set_case {V} (k k' : string) (v : V) m :
  om_get k' (om_set k v m) = if decide (k' = k) then Some v else om_get k' m.
Proof. destruct (decide (k' = k)) as [->|H]; [apply om_get_set|]. by apply om_get_set_ne, not_eq_sym. Qed.

Lemma on_principal_get pid f p w : om_get pid (lw_principals w) = Some p →
  om_get pid (lw_principals (on_principal pid f w)) = Some (f p).
Proof. intros Hp. unfold on_principal. rewrite Hp. cbn. apply om_get_set. Qed.

Lemma on_principal_streams pid f w : lw_streams (on_principal pid f w) = lw_streams w.
Proof. unfold on_principal. by destruct (om_get pid _). Qed.

(** ** Histories only grow *)

Definition entries_of (w : LedgerWorld) (sid : string) : list PrincipalStreamEvent := default [] (om_get sid (lw_events w)).
Definition checkpoints_of (w : LedgerWorld) (pid : string) : list PrincipalCheckpoint := default [] (om_get pid (lw_checkpoints w)).

Definition grows (w w' : LedgerWorld) : Prop :=
  (∀ sid, entries_of w sid `prefix_of` entries_of w' sid) ∧ (∀ pid, checkpoints_of w pid `prefix_of` checkpoints_of w' pid).

Lemma grows_same w w' : lw_events w' = lw_events w → lw_checkpoints w' = lw_checkpoints w → grows w w'.
Proof. intros He Hc. unfold grows, entries_of, checkpoints_of. by rewrite He, Hc. Qed.

Lemma grows_trans w1 w2 w3 : grows w1 w2 → grows w2 w3 → grows w1 w3.
Proof. intros [E1 C1] [E2 C2]. split; intros x; (etrans; [apply E1 || apply C1|apply E2 || apply C2]). Qed.

Lemma grows_on pid f w : grows w (on_principal pid f w).
Proof. unfold on_principal. destruct (om_get pid _); by apply grows_same. Qed.

(** A list of one key extended, the others as they were. *)
Lemma prefix_set {V} (k k' : string) (l : list V) (m : list (string * list V)) :
  default [] (om_get k m) `prefix_of` l → default [] (om_get k' m) `prefix_of` default [] (om_get k' (om_set k l m)).
Proof. intros Hl. rewrite om_get_set_case. case_decide; by subst. Qed.

Lemma grows_checkpoint p w : grows w (appendCheckpoint p w).1 ∧
  (appendCheckpoint p w).2 ∈ checkpoints_of (appendCheckpoint p w).1 (pr_principalId p).
Proof.
  unfold appendCheckpoint. set (base := mkCheckpointBase _ _ _ _ _). set (full := mkCheckpoint base _). set (l := (_ ++ _)%list).
  set (w1 := set_checkpoints _ w). set (w2 := on_principal _ _ w1). cbn [fst snd].
  assert (checkpoints_of w2 (pr_principalId p) = l) as Hl.
  { unfold checkpoints_of, w2, on_principal. destruct (om_get _ (lw_principals w1)); cbn; by rewrite om_get_set. }
  split; [|rewrite Hl; apply elem_of_app; right; by apply list_elem_of_singleton].
  eapply grows_trans; [|apply grows_on]. split; [done|]. intros pid. apply prefix_set, prefix_app_r. done.
Qed.

Lemma grows_event stream type payload options w :
  let '(w', e) := appendEventToStream stream type payload options w in
  grows w w' ∧ e ∈ entries_of w' (st_streamId stream).
Proof.
  unfold appendEventToStream. set (e := mkEvent _ _ _). split; [split; [|done]; intros sid; by apply prefix_set, prefix_app_r|].
  unfold entries_of. cbn. rewrite om_get_set. apply elem_of_app. right. by apply list_elem_of_singleton.
Qed.

End growth.

Section invariant.
Context `{WC : WebCrypto}.
(** Which principal a stream identifier belongs to. *)
Context (own : string → string → Prop).
Hypothesis own_unique : ∀ sid p q, own sid p → own sid q → p = q.
Implicit Types (w : LedgerWorld) (pid sid : string) (p : PrincipalRecord).

Record stream_ok w sid (s : PrincipalStreamRecord) : Prop := {
  so_id : st_streamId s = sid;
  so_chain : check_entries (entries_of w sid) = inr (st_headHash s);
  so_seq : st_seq s = Z.of_nat (length (entries_of w sid));
  so_own : own sid (st_principalId s);
}.

(** [stale] is the principal whose latest checkpoint is about to be renewed. *)
Record principal_ok (stale : option string) w pid p : Prop := {
  po_id : pr_principalId p = pid;
  po_nodup : NoDup (pr_streamIds p);
  po_streams sid : sid ∈ pr_streamIds p ↔ ∃ s, om_get sid (lw_streams w) = Some s ∧ st_principalId s = pid;
  po_chain : check_checkpoints (checkpoints_of w pid) = inr (pr_checkpointHead p);
  po_seq : pr_checkpointSeq p = Z.of_nat (length (checkpoints_of w pid));
  po_heads c : stale ≠ Some pid → last (checkpoints_of w pid) = Some c →
    cb_streamHeads (cp_base c) = collect_heads w (pr_streamIds p);
}.

Record ledger_inv (stale : option string) w : Prop := {
  li_streams sid s : om_get sid (lw_streams w) = Some s → stream_ok w sid s;
  li_owned sid s : om_get sid (lw_streams w) = Some s → is_Some (om_get (st_principalId s) (lw_principals w));
  li_principals pid p : om_get pid (lw_principals w) = Some p → principal_ok stale w pid p;
  li_checkpoints pid : om_get pid (lw_principals w) = None → checkpoints_of w pid = [];
  li_entries sid : om_get sid (lw_streams w) = None → entries_of w sid = [];
}.

Lemma inv_stale w pid : ledger_inv None w → ledger_inv (Some pid) w.
Proof.
  intros [Hs Ho Hp Hc He]. split; [done|done| |done|done]. intros pid' p H. destruct (Hp pid' p H). split; try done.
  intros c _. by apply po_heads0.
Qed.

Lemma collect_heads_ext w w' ids : (∀ sid, sid ∈ ids → om_get sid (lw_streams w') = om_get sid (lw_streams w)) →
  collect_heads w' ids = collect_heads w ids.
Proof.
  unfold collect_heads. generalize (@nil (string * StreamHead)).
  induction ids as [|sid ids IH]; intros acc H; simpl; [done|]. rewrite (H sid) by (by apply elem_of_cons; left).
  apply IH. intros sid' Hin. apply H. by apply elem_of_cons; right.
Qed.

Lemma stream_ok_ext w w' sid s : om_get sid (lw_events w') = om_get sid (lw_events w) →
  stream_ok w sid s → stream_ok w' sid s.
Proof. intros He []. assert (entries_of w' sid = entries_of w sid) as Heq by (unfold entries_of; by rewrite He). by split; rewrite ?Heq. Qed.

Lemma principal_ok_ext stale w w' pid p : lw_streams w' = lw_streams w →
  om_get pid (lw_checkpoints w') = om_get pid (lw_checkpoints w) → principal_ok stale w pid p → principal_ok stale w' pid p.
Proof.
  intros Hs Hc []. assert (checkpoints_of w' pid = checkpoints_of w pid) as Heq by (unfold checkpoints_of; by rewrite Hc).
  split; rewrite ?Heq, ?Hs; try done. intros c Hne Hl. rewrite (po_heads0 c Hne Hl). symmetry. apply collect_heads_ext.
  intros sid _. by rewrite Hs.
Qed.

(** ** Steps that leave the chains alone *)

Definition chain_neutral (f : PrincipalRecord → PrincipalRecord) : Prop := ∀ p,
  pr_principalId (f p) = pr_principalId p ∧ pr_streamIds (f p) = pr_streamIds p ∧
  pr_checkpointHead (f p) = pr_checkpointHead p ∧ pr_checkpointSeq (f p) = pr_checkpointSeq p.

Lemma neutral_keeps stale f pid w : chain_neutral f → ledger_inv stale w → ledger_inv stale (on_principal pid f w).
Proof.
  intros Hf [Hs Ho Hp Hc He]. unfold on_principal. destruct (om_get pid (lw_principals w)) as [p|] eqn:Hg; [|done].
  split; cbn [lw_streams lw_principals lw_events lw_checkpoints set_principals].
  - intros sid s Hsid. eapply stream_ok_ext; [|by apply Hs]. done.
  - intros sid s Hsid. rewrite om_get_set_case. case_decide; [done|]. by eapply Ho.
  - intros pid' p'. rewrite om_get_set_case. case_decide as Heq; [|intros Hp'; by apply (principal_ok_ext stale w), Hp].
    intros [= <-]. subst pid'. destruct (Hp pid p Hg), (Hf p) as (H1 & H2 & H3 & H4).
    split; try rewrite H1; try rewrite H2; try rewrite H3; try rewrite H4; done.
  - intros pid'. rewrite om_get_set_case. case_decide; [done|]. apply Hc.
  - done.
Qed.

Lemma consumed_keeps stale f w : ledger_inv stale w → ledger_inv stale (set_consumed f w).
Proof.
  intros [H1 H2 H3 H4 H5]. split; [|done| |done|done].
  - intros sid s Hs. by apply (stream_ok_ext w), H1.
  - intros pid p Hp. by apply (principal_ok_ext stale w), H3.
Qed.

Lemma upsertPrincipal_keeps stale jwk fp ctx w : ledger_inv stale w → ledger_inv stale (upsertPrincipal jwk fp ctx w).1.
Proof.
  intros [Hs Ho Hp Hc He]. unfold upsertPrincipal. set (pid := principalIdFromFingerprint fp).
  destruct (om_get pid (lw_principals w)) as [p|] eqn:Hg; [done|].
  assert (∀ pid', checkpoints_of (set_checkpoints (om_set pid []) w) pid' = checkpoints_of w pid') as Hcp.
  { intros pid'. unfold checkpoints_of. cbn. rewrite om_get_set_case. case_decide as H; [subst|done].
    cbn. symmetry. by apply Hc. }
  split; cbn [fst lw_streams lw_principals lw_events lw_checkpoints set_principals set_checkpoints].
  - intros sid s Hsid. eapply stream_ok_ext; [|by apply Hs]. done.
  - intros sid s Hsid. rewrite om_get_set_case. case_decide; [done|]. by eapply Ho.
  - intros pid' p'. rewrite om_get_set_case. case_decide as Heq.
    + intros [= <-]. subst pid'. split; cbn; [done|by apply NoDup_nil| | | |].
      * intros sid. split; [by intros ?%not_elem_of_nil|]. intros (s & Hsid & Heq).
        destruct (Ho sid s Hsid) as [x Hx]. congruence.
      * unfold checkpoints_of. cbn. by rewrite om_get_set.
      * unfold checkpoints_of. cbn. by rewrite om_get_set.
      * intros c _. unfold checkpoints_of. cbn. by rewrite om_get_set.
    + intros Hp'. apply (principal_ok_ext stale w); [done|by apply om_get_set_ne, not_eq_sym|by apply Hp].
  - intros pid'. rewrite om_get_set_case. case_decide; [done|]. intros Hn. specialize (Hcp pid').
    rewrite (Hc _ Hn) in Hcp. exact Hcp.
  - done.
Qed.

(** ** The commit of a change *)

Lemma appendEvent_keeps stream type payload options w :
  let pid := st_principalId stream in let sid := st_streamId stream in
  ledger_inv (Some pid) w → om_get sid (lw_streams w) = Some stream →
  let '(w', e) := appendEventToStream stream type payload options w in
  ledger_inv (Some pid) w' ∧ lw_principals w' = lw_principals w ∧ lw_checkpoints w' = lw_checkpoints w.
Proof.
  intros pid sid [Hs Ho Hp Hc He] Hg. unfold appendEventToStream. split; [|done].
  destruct (Hs sid stream Hg) as [Hid Hch Hseq Hown].
  set (base := mkEventBase _ _ _ _ _ _ _ _ _ _ _ _ _).
  set (event := mkEvent base (computeStreamEventHash base) _).
  set (stream' := mkStream _ _ _ _ _ _ _).
  assert (∀ sid' s', om_get sid' (om_set sid stream' (lw_streams w)) = Some s' →
    ∃ s, om_get sid' (lw_streams w) = Some s ∧ st_principalId s = st_principalId s') as Hback.
  { intros sid' s'. rewrite om_get_set_case. case_decide; [|by eauto]. intros [= <-]. subst sid'. by exists stream. }
  split; cbn [lw_streams lw_principals lw_events lw_checkpoints set_streams set_events]; fold sid.
  - intros sid' s'. rewrite om_get_set_case. case_decide as Heq.
    + intros [= <-]. subst sid'. unfold sid in *.
      split; cbn [st_streamId st_principalId stream']; [done| | |done]; unfold entries_of;
        cbn [lw_events set_streams set_events]; rewrite om_get_set; cbn [from_option id].
      * apply (check_links_snoc ev_seq ev_prevHash ev_chainHash _ 0 _ _ event (st_headHash stream)); [exact Hch|]. split_and!; [|done|done].
        unfold ev_seq. cbn [ev_base event eb_seq base]. rewrite Hseq. reflexivity.
      * cbn [st_seq stream']. rewrite Hseq, length_app. unfold entries_of. cbn [length]. lia.
    + intros Hs'. apply (stream_ok_ext w); [by apply om_get_set_ne, not_eq_sym|by apply Hs].
  - intros sid' s' (s & Hs' & Heq)%Hback. rewrite <-Heq. by eapply Ho.
  - intros pid' p' Hp'. destruct (Hp pid' p' Hp') as [Hid' Hnd Hst Hch' Hsq' Hhd'].
    assert (∀ sid', sid' ∈ pr_streamIds p' ↔
      ∃ s, om_get sid' (om_set sid stream' (lw_streams w)) = Some s ∧ st_principalId s = pid') as Hst'.
    { intros sid'. rewrite Hst. split.
      - intros (s & Hs' & Heq). rewrite om_get_set_case. case_decide as Hd; [|by eauto].
        exists stream'. split; [done|]. subst sid'. assert (s = stream) as -> by congruence. exact Heq.
      - intros (s' & (s & Hs' & Heq)%Hback & Heq'). exists s. split; [done|congruence]. }
    split; try done. intros c Hne Hlast. rewrite (Hhd' c Hne Hlast). symmetry. apply collect_heads_ext. intros sid' Hin. cbn. apply om_get_set_ne. intros <-.
    apply Hst in Hin as (s & Hs' & Heq). assert (s = stream) as -> by congruence. apply Hne. f_equal. exact Heq.
  - done.
  - intros sid'. rewrite om_get_set_case. case_decide; [done|]. intros Hn. unfold entries_of. cbn.
    rewrite om_get_set_ne by done. by apply He.
Qed.

Lemma appendCheckpoint_keeps pid p w : ledger_inv (Some pid) w → om_get pid (lw_principals w) = Some p →
  ledger_inv None (appendCheckpoint p w).1.
Proof.
  intros [Hs Ho Hp Hc He] Hg. destruct (Hp pid p Hg) as [Hid Hnd Hst Hch Hsq Hhd]. unfold appendCheckpoint.
  set (base := mkCheckpointBase _ _ _ _ _). set (full := mkCheckpoint base _). rewrite Hid.
  unfold on_principal. cbn [lw_principals set_checkpoints]. rewrite Hg.
  split; cbn [fst lw_streams lw_principals lw_events lw_checkpoints set_principals set_checkpoints].
  - intros sid s Hsid. eapply stream_ok_ext; [|by apply Hs]. done.
  - intros sid s Hsid. rewrite om_get_set_case. case_decide; [done|]. by eapply Ho.
  - intros pid' p'. rewrite om_get_set_case. case_decide as Heq.
    + intros [= <-]. subst pid'.
      assert (checkpoints_of (set_principals (om_set pid (with_head (cp_checkpointHash full) (cp_seq full) (cb_timestamp base) p))
        (set_checkpoints (om_set pid (checkpoints_of w pid ++ [full])%list) w)) pid = (checkpoints_of w pid ++ [full])%list) as Hcl.
      { unfold checkpoints_of. cbn. by rewrite om_get_set. }
      split; cbn [with_head pr_principalId pr_streamIds pr_checkpointHead pr_checkpointSeq]; try done.
      * etrans; [exact (f_equal check_checkpoints Hcl)|].
        apply (check_links_snoc cp_seq cp_prevHash cp_checkpointHash _ 0 _ _ full (pr_checkpointHead p)); [exact Hch|]. split_and!; [|done|done].
        unfold cp_seq. cbn [cp_base full cb_seq base]. rewrite Hsq. reflexivity.
      * etrans; [|exact (f_equal (λ l, Z.of_nat (length l)) (eq_sym Hcl))]. rewrite length_app. unfold cp_seq.
        cbn [cp_base full cb_seq base length]. rewrite Hsq. lia.
      * intros c _ Hlast. assert (last (checkpoints_of w pid ++ [full])%list = Some c) as Hl' by (by rewrite <-Hcl).
        rewrite last_snoc in Hl'. by injection Hl' as <-.
    + intros Hp'. destruct (Hp pid' p' Hp'). split; try done; unfold checkpoints_of in *; cbn;
        rewrite om_get_set_ne by done; try done. intros c _. apply po_heads0. congruence.
  - intros pid'. rewrite om_get_set_case. case_decide; [done|]. intros Hn. specialize (Hc _ Hn).
    unfold checkpoints_of in *. cbn. by rewrite om_get_set_ne.
  - exact He.
Qed.

(** Replacing a stream by one with the same owner and head changes no head. *)
Lemma collect_heads_same w sid s s' ids : om_get sid (lw_streams w) = Some s → st_seq s' = st_seq s →
  st_headHash s' = st_headHash s → collect_heads (set_streams (om_set sid s') w) ids = collect_heads w ids.
Proof.
  intros Hg Hsq Hhd. unfold collect_heads. generalize (@nil (string * StreamHead)).
  induction ids as [|sid' ids IH]; intros acc; simpl; [done|]. rewrite om_get_set_case, IH. f_equal.
  case_decide; [subst; by rewrite Hg, Hsq, Hhd|done].
Qed.

Lemma upsertStream_keeps pid principal sid provider agent session w :
  om_get pid (lw_principals w) = Some principal → own sid pid → ledger_inv (Some pid) w →
  let '(w', s) := upsertStream principal sid provider agent session w in
  ledger_inv (Some pid) w' ∧ om_get sid (lw_streams w') = Some s ∧ st_principalId s = pid ∧ st_streamId s = sid.
Proof.
  intros Hpr Hown [Hs Ho Hp Hc He]. pose proof (Hp pid principal Hpr) as [Hpid Hnd Hst Hch Hsq _]. unfold upsertStream. destruct (om_get sid (lw_streams w)) as [s|] eqn:Hg.
  - destruct (Hs sid s Hg) as [Hid Hsch Hsseq Hso]. pose proof (own_unique _ _ _ Hown Hso) as Hpo.
    set (s' := mkStream _ _ _ _ _ _ _). cbn [fst snd]. split_and!; [|apply om_get_set|done|done].
    assert (∀ sid' x, om_get sid' (om_set sid s' (lw_streams w)) = Some x →
      ∃ x', om_get sid' (lw_streams w) = Some x' ∧ st_principalId x' = st_principalId x) as Hback.
    { intros sid' x. rewrite om_get_set_case. case_decide; [|by eauto]. intros [= <-]. subst sid'. by exists s. }
    split; cbn [lw_streams lw_principals lw_events lw_checkpoints set_streams].
    + intros sid' x. rewrite om_get_set_case. case_decide as Heq.
      * intros [= <-]. subst sid'. by split.
      * intros Hx. by apply (stream_ok_ext w), Hs.
    + intros sid' x (x' & Hx & <-)%Hback. by eapply Ho.
    + intros pid' p' Hp'. destruct (Hp pid' p' Hp') as [Hid' Hnd' Hst' Hch' Hsq' Hhd'].
      split; [done|done| |done|done|]; cbn [lw_streams set_streams].
      * intros sid'. rewrite Hst'. split.
        -- intros (x & Hx & Heq). rewrite om_get_set_case. case_decide as Hd; [|by eauto].
           exists s'. split; [done|]. subst sid'. assert (x = s) as -> by congruence. exact Heq.
        -- intros (x & (x' & Hx & Heq)%Hback & Heq'). exists x'. split; [done|congruence].
      * intros c Hne Hl. rewrite (Hhd' c Hne Hl). symmetry. by eapply collect_heads_same.
    + done.
    + intros sid'. rewrite om_get_set_case. case_decide; [done|]. apply He.
  - set (s := mkStream _ _ _ _ _ _ _). unfold on_principal. cbn [lw_principals set_events set_streams]. rewrite Hpid, Hpr.
    split_and!; [|apply om_get_set|exact Hpid|done].
    assert (sid ∉ pr_streamIds principal) as Hnew by (rewrite Hst; intros (x & Hx & _); congruence).
    split; cbn [lw_streams lw_principals lw_events lw_checkpoints set_streams set_principals set_events].
    + intros sid' x. rewrite om_get_set_case. case_decide as Heq.
      * intros [= <-]. subst sid'. split; cbn; [done| | |by rewrite Hpid]; unfold entries_of; cbn; by rewrite om_get_set.
      * intros Hx. apply (stream_ok_ext w); [by apply om_get_set_ne, not_eq_sym|by apply Hs].
    + intros sid' x. rewrite !om_get_set_case. case_decide as Heq.
      * intros [= <-]. cbn. rewrite Hpid. by rewrite decide_True.
      * intros Hx. case_decide; [done|]. by eapply Ho.
    + intros pid' p'. rewrite om_get_set_case. case_decide as Heq.
      * intros [= <-]. subst pid'. split; cbn; [done| | |done|done|done].
        -- apply NoDup_app. split_and!; [done| |apply NoDup_singleton].
           intros x Hx ->%list_elem_of_singleton. done.
        -- intros sid'. rewrite elem_of_app, list_elem_of_singleton, om_get_set_case. case_decide as Hd.
           ++ split; [|by right]. intros _. exists s. split; [done|exact Hpid].
           ++ rewrite Hst. naive_solver.
      * intros Hp'. destruct (Hp pid' p' Hp') as [Hid' Hnd' Hst' Hch' Hsq' Hhd'].
        split; [done|done| |done|done|]; cbn [lw_streams set_streams set_events set_principals].
        -- intros sid'. rewrite Hst', om_get_set_case. case_decide as Hd; [|done]. subst sid'. split.
           ++ intros (x & Hx & _). congruence.
           ++ intros (x & [= <-] & Hx). cbn in Hx. congruence.
        -- intros c Hne Hl. rewrite (Hhd' c Hne Hl). symmetry. apply collect_heads_ext. intros sid' Hin. cbn.
           apply om_get_set_ne. intros <-. apply Hst' in Hin as (x & Hx & _). congruence.
    + intros pid'. rewrite om_get_set_case. case_decide; [done|]. apply Hc.
    + intros sid'. rewrite om_get_set_case. case_decide; [done|]. intros Hn. unfold entries_of. cbn.
      rewrite om_get_set_ne by done. by apply He.
Qed.

Lemma upsertPrincipal_grows jwk fp ctx w stale : ledger_inv stale w → grows w (upsertPrincipal jwk fp ctx w).1.
Proof.
  intros [_ _ _ Hc _]. unfold upsertPrincipal. destruct (om_get _ (lw_principals w)) eqn:Hg; [by apply grows_same|].
  split; [done|]. intros pid. unfold checkpoints_of. cbn. apply prefix_set. specialize (Hc _ Hg). unfold checkpoints_of in Hc. by rewrite Hc.
Qed.

Lemma upsertStream_grows stale principal sid provider agent session w : ledger_inv stale w →
  grows w (upsertStream principal sid provider agent session w).1.
Proof.
  intros [_ _ _ _ He]. unfold upsertStream. destruct (om_get sid (lw_streams w)) eqn:Hg; [by apply grows_same|].
  cbn [fst]. eapply grows_trans; [|apply grows_on]. split; [|done]. intros sid'. unfold entries_of. cbn. apply prefix_set.
  specialize (He _ Hg). unfold entries_of in He. by rewrite He.
Qed.

(** Appending to a stream of a principal and renewing its checkpoint. *)
Lemma commit_event pid p stream type payload options w :
  om_get pid (lw_principals w) = Some p → om_get (st_streamId stream) (lw_streams w) = Some stream →
  st_principalId stream = pid → ledger_inv (Some pid) w →
  let '(w1, e) := appendEventToStream stream type payload options w in
  let '(w', c) := appendCheckpoint p w1 in
  ledger_inv None w' ∧ grows w w' ∧ e ∈ entries_of w' (st_streamId stream) ∧ c ∈ checkpoints_of w' pid.
Proof.
  intros Hp Hg <- Hinv. pose proof (appendEvent_keeps stream type payload options w Hinv Hg) as Hk.
  destruct (li_principals _ _ Hinv _ p Hp) as [Hid _ _ _ Hsq _]. pose proof (grows_event stream type payload options w) as Ge.
  destruct (appendEventToStream stream type payload options w) as [w1 e]. destruct Hk as (Hinv' & Hpr & _), Ge as [Ge He].
  pose proof (grows_checkpoint p w1) as [Gc Hc]. rewrite Hid in Hc.
  pose proof (appendCheckpoint_keeps (st_principalId stream) p w1 Hinv') as Hk.
  destruct (appendCheckpoint p w1) as [w' c]. split_and!; [apply Hk; by rewrite Hpr|by eapply grows_trans| |done].
  destruct (proj1 Gc (st_streamId stream)) as [l Hl]. cbn [fst] in Hl. rewrite Hl. apply elem_of_app. by left.
Qed.

Lemma unchanged w stale : ledger_inv stale w → ledger_inv stale w ∧ grows w w.
Proof. intros. split; [done|by apply grows_same]. Qed.

Lemma appendStreamEvent_keeps pid sid type payload w : ledger_inv None w →
  ledger_inv None (appendStreamEvent pid sid type payload w).1 ∧ grows w (appendStreamEvent pid sid type payload w).1.
Proof.
  intros Hinv. unfold appendStreamEvent, mustPrincipal. destruct (om_get pid (lw_principals w)) as [p|] eqn:Hp; [|by apply unchanged].
  destruct (om_get sid (lw_streams w)) as [stream|] eqn:Hg; [|by apply unchanged]. case_decide as Hid; [by apply unchanged|].
  pose proof (so_id _ _ _ (li_streams _ _ Hinv sid stream Hg)) as Hsid. subst sid.
  pose proof (commit_event pid p stream type payload no_options w Hp Hg Hid (inv_stale _ _ Hinv)) as Hk.
  destruct (appendEventToStream _ _ _ _ w) as [w' e]. destruct (appendCheckpoint p w'). by destruct Hk as (? & ? & _).
Qed.

Lemma closeSession_keeps pid sid session w : ledger_inv None w →
  ledger_inv None (closeSession pid sid session w).1 ∧ grows w (closeSession pid sid session w).1.
Proof.
  intros Hinv. unfold closeSession. destruct (mustPrincipal pid w); [|by apply unchanged]. set (w1 := on_principal _ _ w).
  pose proof (appendStreamEvent_keeps pid sid session_closed [("providerSessionId", JStr session)] w1) as Hk.
  destruct (appendStreamEvent _ _ _ _ w1) as [w' r]. destruct Hk as [Hi Hg]; [by apply neutral_keeps|].
  split; [done|]. eapply grows_trans; [|exact Hg]. apply grows_on.
Qed.

Lemma rotateBegin_keeps pid jwk w : ledger_inv None w →
  ledger_inv None (rotateBegin pid jwk w).1 ∧ grows w (rotateBegin pid jwk w).1.
Proof.
  intros Hinv. unfold rotateBegin. destruct (mustPrincipal pid w); [|by apply unchanged].
  split; [by apply neutral_keeps|apply grows_on].
Qed.

Lemma rotateCommit_keeps pid fp version w : ledger_inv None w →
  ledger_inv None (rotateCommit pid fp version w).1 ∧ grows w (rotateCommit pid fp version w).1.
Proof.
  intros Hinv. unfold rotateCommit, mustPrincipal. destruct (om_get pid (lw_principals w)) as [p|] eqn:Hp; [|by apply unchanged].
  set (f := with_key fp _ _).
  assert (set_principals (om_set pid (f p)) w = on_principal pid f w) as -> by (unfold on_principal; by rewrite Hp).
  pose proof (appendCheckpoint_keeps pid (f p) (on_principal pid f w)) as Hk.
  destruct (grows_checkpoint (f p) (on_principal pid f w)) as [Hg _].
  destruct (appendCheckpoint _ _) as [w' c]. split.
  - apply Hk; [|by apply on_principal_get]. apply inv_stale. by apply neutral_keeps.
  - eapply grows_trans; [|exact Hg]. apply grows_on.
Qed.

(** The event and the checkpoint a binding reports. *)
Definition recorded (b : SessionBinding) w : Prop :=
  (∃ e, e ∈ entries_of w (sb_streamId b) ∧ ev_chainHash e = sb_bindingHash b ∧ ev_bindingHash e = Some (sb_bindingHash b) ∧
     eb_eventType (ev_base e) = session_bound ∧ eb_providerSessionId (ev_base e) = Some (sb_providerSessionId b) ∧
     eb_policyDigest (ev_base e) = Some (sb_policyDigest b) ∧ eb_timestamp (ev_base e) = sb_boundAt b ∧
     eb_principalId (ev_base e) = sb_principalId b) ∧
  ∃ c, c ∈ checkpoints_of w (sb_principalId b) ∧ cp_checkpointHash c = sb_checkpointHash b.

Lemma recorded_grows b w w' : grows w w' → recorded b w → recorded b w'.
Proof.
  intros [Ge Gc] [(e & He & Hfacts) (c & Hc & Hh)]. destruct (Ge (sb_streamId b)) as [l Hl], (Gc (sb_principalId b)) as [l' Hl'].
  split; [exists e; rewrite Hl|exists c; rewrite Hl']; (split; [apply elem_of_app; by left|done]).
Qed.

Lemma event_facts stream type payload options w :
  let e := (appendEventToStream stream type payload options w).2 in
  ev_bindingHash e = (if eo_binding options then Some (ev_chainHash e) else None) ∧ eb_eventType (ev_base e) = type ∧
  eb_providerSessionId (ev_base e) = eo_providerSessionId options ∧ eb_policyDigest (ev_base e) = eo_policyDigest options ∧
  eb_principalId (ev_base e) = st_principalId stream.
Proof. done. Qed.

Lemma bindCommit_keeps input pid ctx w :
  own (makeStreamId pid (bi_provider input) (agentOf input)) pid → ledger_inv None w →
  let '(w', r) := bindCommit input pid ctx w in
  ledger_inv None w' ∧ grows w w' ∧ (∀ b, r = Ret b → recorded b w').
Proof.
  intros Hown Hinv. unfold bindCommit, mustPrincipal at 1. destruct (om_get pid (lw_principals w)) as [p|] eqn:Hp; [|by split_and!; [|apply grows_same|]].
  pose proof (po_id _ _ _ _ (li_principals _ _ Hinv pid p Hp)) as Hid. rewrite Hid. set (sid := makeStreamId _ _ _) in *.
  pose proof (upsertStream_keeps pid p sid (bi_provider input) (agentOf input) (bi_providerSessionId input) w Hp Hown
    (inv_stale _ _ Hinv)) as Hk.
  pose proof (upsertStream_grows None p sid (bi_provider input) (agentOf input) (bi_providerSessionId input) w Hinv) as G1.
  destruct (upsertStream _ _ _ _ _ _) as [w1 stream]. destruct Hk as (H1 & Hg1 & Hsp & Hss).
  set (w2 := on_principal pid _ w1). set (w3 := match ctx with [] => w2 | _ => _ end).
  assert (ledger_inv (Some pid) w3 ∧ om_get sid (lw_streams w3) = Some stream ∧ grows w w3) as (H3 & Hg3 & G3).
  { assert (ledger_inv (Some pid) w2 ∧ om_get sid (lw_streams w2) = Some stream ∧ grows w w2) as (H2 & Hg2 & G2).
    { split_and!; [by apply neutral_keeps|by unfold w2; rewrite on_principal_streams|].
      eapply grows_trans; [exact G1|]. apply grows_on. }
    unfold w3. destruct ctx; [done|]. split_and!; [by apply neutral_keeps|by rewrite on_principal_streams|].
    eapply grows_trans; [exact G2|]. apply grows_on. }
  unfold mustPrincipal. destruct (om_get pid (lw_principals w3)) as [p3|] eqn:Hp3.
  - rewrite <-Hss in Hg3.
    match goal with |- context [appendEventToStream stream session_bound ?payload ?options w3] =>
      pose proof (commit_event pid p3 stream session_bound payload options w3 Hp3 Hg3 Hsp H3) as Hk;
      pose proof (event_facts stream session_bound payload options w3) as Hf;
      set (pl := payload) in *; set (opts := options) in * end.
    destruct (appendEventToStream _ _ _ _ w3) as [w4 e]. destruct (appendCheckpoint p3 w4) as [w5 c].
    destruct Hk as (H5 & G5 & E5 & C5). split_and!; [done|by eapply grows_trans|]. intros b [= <-].
    split; cbn; [|by exists c]. rewrite <-Hss. exists e. cbn [snd] in Hf. destruct Hf as (-> & -> & -> & -> & ->). by split_and!.
  - exfalso. destruct (li_owned _ _ H3 sid stream Hg3) as [x Hx]. congruence.
Qed.

(** ** Verification succeeds under the invariant *)

Lemma verifyStreams_ok pid w ids acc : ledger_inv None w → (∀ sid, sid ∈ ids → is_Some (om_get sid (lw_streams w))) →
  verifyStreams pid ids acc w =
  inr (foldl (λ heads sid, match om_get sid (lw_streams w) with
                           | Some s => om_set sid (mkStreamHead (st_seq s) (st_headHash s)) heads
                           | None => heads end) acc ids).
Proof.
  intros Hinv. revert acc. induction ids as [|sid ids IH]; intros acc Hids; simpl; [done|].
  destruct (Hids sid) as [s Hs]; [by apply elem_of_cons; left|]. rewrite Hs.
  destruct (li_streams _ _ Hinv sid s Hs) as [Hid Hch Hsq Hso].
  change (default [] (om_get sid (lw_events w))) with (entries_of w sid). rewrite Hch, Hsq.
  rewrite !bool_decide_false by naive_solver. cbn [orb]. apply IH. intros x Hx. apply Hids. by apply elem_of_cons; right.
Qed.

Lemma last_checkpoint l h c : check_checkpoints l = inr h → last l = Some c →
  cp_checkpointHash c = h ∧ cp_seq c = Z.of_nat (length l).
Proof.
  destruct l as [|c' l _] using rev_ind; [done|]. rewrite last_snoc. intros H [= ->]. apply check_links_app in H as (h1 & H & (F & [= Hh])%check_links_cons).
  split; [done|]. destruct F as (-> & _ & _). rewrite length_app. cbn [length]. lia.
Qed.

Lemma invariant_verifies w pid p : ledger_inv None w → om_get pid (lw_principals w) = Some p → (0 < pr_checkpointSeq p)%Z →
  verifyPrincipalContinuity pid w = mkChainVerify true pid None None.
Proof.
  intros Hinv Hp Hpos. destruct (li_principals _ _ Hinv pid p Hp) as [Hid Hnd Hst Hch Hsq Hhd].
  unfold verifyPrincipalContinuity. rewrite Hp, (verifyStreams_ok pid w _ [] Hinv).
  2: { intros sid (s & Hs & _)%Hst. by eexists. }
  change (default [] (om_get pid (lw_checkpoints w))) with (checkpoints_of w pid). rewrite Hch.
  destruct (last (checkpoints_of w pid)) as [c|] eqn:Hl.
  - destruct (last_checkpoint _ _ _ Hch Hl) as [Hh Hs]. rewrite !bool_decide_false by (rewrite ?Hh, ?Hs, ?Hsq; naive_solver).
    cbn [orb]. rewrite decide_False; [done|]. intros Hne. apply Hne. by rewrite (Hhd c ltac:(done) eq_refl).
  - exfalso. apply last_None in Hl. rewrite Hl in Hsq. simpl in Hsq. lia.
Qed.
End invariant.

(** ** Any interleaving *)

Inductive LedgerOp :=
  | OpBind (input : BindSessionInput)
  | OpAppend (principalId streamId : string) (eventType : PrincipalEventType) (payload : list (string * jsval))
  | OpClose (principalId streamId providerSessionId : string)
  | OpRotate (principalId : string) (publicKeyJwk : jsval) (keyVersion : option Z).
Inductive LedgerAnswer :=
  | Bound (r : exc SessionBinding) | Appended (r : exc PrincipalStreamEvent) | Closed (r : exc unit) | Rotated (r : exc PrincipalRecord).

Section runs.
Context `{WC : WebCrypto}.

Definition ledger_op (o : LedgerOp) : proc LedgerWorld LedgerAnswer :=
  match o with
  | OpBind input => let* r := bindSession input in Done (Bound r)
  | OpAppend pid sid type payload => let* r := call (appendStreamEvent pid sid type payload) in Done (Appended r)
  | OpClose pid sid session => let* r := call (closeSession pid sid session) in Done (Closed r)
  | OpRotate pid jwk version => let* r := rotatePrincipalKey pid jwk version in Done (Rotated r)
  end.

(** Between the steps the clock and the resolver change, the ledger does not. *)
Definition ledger_env (w w' : LedgerWorld) : Prop :=
  lw_principals w' = lw_principals w ∧ lw_streams w' = lw_streams w ∧ lw_events w' = lw_events w ∧
  lw_checkpoints w' = lw_checkpoints w ∧ lw_consumedProofNonces w' = lw_consumedProofNonces w.

(** The principal a binding among [ops] gives a stream identifier to. *)
Definition stream_owner (ops : list LedgerOp) (sid pid : string) : Prop :=
  ∃ input fp, OpBind input ∈ ops ∧ computeFingerprint (bi_publicKeyJwk input) = Ret fp ∧
    pid = principalIdFromFingerprint fp ∧ sid = makeStreamId pid (bi_provider input) (agentOf input).

(** No two principals are given one truncated stream identifier. *)
Definition no_stream_collision (ops : list LedgerOp) : Prop :=
  ∀ sid p q, stream_owner ops sid p → stream_owner ops sid q → p = q.

(** The same as a check. *)
Definition owners (ops : list LedgerOp) : list (string * string) :=
  omap (λ o, match o with
    | OpBind input => match computeFingerprint (bi_publicKeyJwk input) with
        | Ret fp => let pid := principalIdFromFingerprint fp in Some (makeStreamId pid (bi_provider input) (agentOf input), pid)
        | Throw _ => None end
    | _ => None end) ops.
Definition collision_free_check (l : list (string * string)) : bool :=
  forallb (λ a, forallb (λ b, negb (bool_decide (a.1 = b.1)) || bool_decide (a.2 = b.2))%bool l) l.

Lemma owner_listed ops sid pid : stream_owner ops sid pid → (sid, pid) ∈ owners ops.
Proof.
  intros (input & fp & Hin & Hfp & -> & ->). apply list_elem_of_omap. exists (OpBind input). split; [done|]. cbn. by rewrite Hfp.
Qed.

Lemma no_collision_checked ops : collision_free_check (owners ops) = true → no_stream_collision ops.
Proof.
  unfold collision_free_check. rewrite List.forallb_forall. intros H sid p q Hp%owner_listed Hq%owner_listed.
  specialize (H _ (proj1 (list_elem_of_In _ _) Hp)). rewrite List.forallb_forall in H.
  specialize (H _ (proj1 (list_elem_of_In _ _) Hq)). cbn in H. rewrite bool_decide_true in H by done. by apply bool_decide_eq_true in H.
Qed.

Lemma ledger_env_keeps own stale w w' : ledger_env w w' → ledger_inv own stale w → ledger_inv own stale w'.
Proof.
  intros (Hp & Hs & He & Hc & _) [H1 H2 H3 H4 H5]. split; rewrite ?Hp, ?Hs.
  - intros sid s Hsid. apply (stream_ok_ext own w); [by rewrite He|by apply H1].
  - done.
  - intros pid p Hpid. apply (principal_ok_ext stale w); [done|by rewrite Hc|by apply H3].
  - intros pid Hpid. specialize (H4 pid Hpid). unfold checkpoints_of in *. by rewrite Hc.
  - intros sid Hsid. specialize (H5 sid Hsid). unfold entries_of in *. by rewrite He.
Qed.

Lemma upsertPrincipal_id jwk fp ctx w : (upsertPrincipal jwk fp ctx w).2 = principalIdFromFingerprint fp.
Proof. unfold upsertPrincipal. by destruct (om_get _ _). Qed.

(** ** Every operation keeps the chains *)

Section pool.
Context (ops : list LedgerOp) (collision_free : no_stream_collision ops).

Definition ledger_rel (w w' : LedgerWorld) : Prop :=
  (ledger_inv (stream_owner ops) None w → ledger_inv (stream_owner ops) None w') ∧ grows w w'.
Definition answer_ok (a : LedgerAnswer) (w : LedgerWorld) : Prop :=
  match a with Bound (Ret b) => recorded b w | _ => True end.

Lemma rel_refl w : ledger_rel w w.
Proof. split; [done|by apply grows_same]. Qed.
Lemma rel_trans w1 w2 w3 : ledger_rel w1 w2 → ledger_rel w2 w3 → ledger_rel w1 w3.
Proof. intros [H1 G1] [H2 G2]. split; [by auto|by eapply grows_trans]. Qed.
Lemma rel_env w w' : ledger_env w w' → ledger_rel w w'.
Proof. intros Henv. split; [by apply ledger_env_keeps|]. apply grows_same; apply Henv. Qed.
Lemma answer_stable a w w' : ledger_rel w w' → answer_ok a w → answer_ok a w'.
Proof. intros [_ Hg]. destruct a as [[b|]| | |]; try done. by apply recorded_grows. Qed.

(** A single step that keeps the invariant and the checkpoints. *)
Lemma ledger_safe_call {A} (f : LedgerWorld → LedgerWorld * A) (Q : A → LedgerWorld → Prop) w :
  ledger_inv (stream_owner ops) None w →
  (∀ w1, ledger_inv (stream_owner ops) None w1 →
    ledger_inv (stream_owner ops) None (f w1).1 ∧ grows w1 (f w1).1 ∧
    (ledger_inv (stream_owner ops) None (f w1).1 → Q (f w1).2 (f w1).1)) →
  wpg ledger_rel ledger_rel (call f) Q w.
Proof.
  intros Hinv Hf. apply wpg_call. intros w1 [Hi _]. destruct (Hf w1 (Hi Hinv)) as (H1 & H2 & H3).
  split; [by split|by apply H3].
Qed.

Lemma bind_safe input w : OpBind input ∈ ops → ledger_inv (stream_owner ops) None w →
  wpg ledger_rel ledger_rel (bindSession input) (λ r w', answer_ok (Bound r) w') w.
Proof.
  intros Ho Hw. unfold bindSession. destruct (assertBindingInput input); [|done].
  destruct (computeFingerprint _) as [fp|] eqn:Hfp; [|done].
  apply wpg_bind, ledger_safe_call; [done|intros w1 H1]. cbn [fst snd]. split_and!; [done|by apply grows_same|intros _].
  destruct (verifyPrincipalSessionProof _ _ _) as [[]|]; [|done].
  apply wpg_bind, ledger_safe_call; [done|intros w2 H2].
  assert (ledger_inv (stream_owner ops) None (consumeProofNonce (sha256hex (sp_challengeNonce (bi_proof input))) w2).1) as Hc.
  { unfold consumeProofNonce. case_decide; [done|]. by apply consumed_keeps. }
  split_and!; [done|unfold consumeProofNonce; case_decide; by apply grows_same|intros H3].
  destruct (consumeProofNonce _ w2) as [w3 [[]|]]; [|done]. cbn [snd fst] in *.
  apply wpg_bind, ledger_safe_call; [done|intros w4 H4]. cbn [fst snd]. split_and!; [done|by apply grows_same|intros _].
  destruct (lw_resolve _ _) as [ctx|]; [|done].
  apply wpg_bind, ledger_safe_call; [done|intros w5 H5].
  split_and!; [by apply upsertPrincipal_keeps|by eapply upsertPrincipal_grows|intros H6].
  rewrite upsertPrincipal_id. apply ledger_safe_call; [done|intros w7 H7].
  pose proof (bindCommit_keeps (stream_owner ops) collision_free input (principalIdFromFingerprint fp) ctx w7) as Hk.
  destruct (bindCommit _ _ _ w7) as [w8 r]. destruct Hk as (H8 & G8 & B8); [by exists input, fp|done|].
  split_and!; [done|done|intros _]. cbn. destruct r as [b|]; [by apply B8|done].
Qed.

Lemma ledger_op_safe o w : o ∈ ops → ledger_inv (stream_owner ops) None w →
  wpg ledger_rel ledger_rel (ledger_op o) answer_ok w.
Proof.
  intros Ho Hw. destruct o as [input|pid sid type payload|pid sid session|pid jwk version]; cbn [ledger_op].
  - by apply wpg_bind, bind_safe.
  - apply wpg_bind, ledger_safe_call; [done|intros w1 H1]. destruct (appendStreamEvent_keeps (stream_owner ops) pid sid type payload w1 H1). by split_and!.
  - apply wpg_bind, ledger_safe_call; [done|intros w1 H1]. destruct (closeSession_keeps (stream_owner ops) pid sid session w1 H1). by split_and!.
  - apply wpg_bind, wpg_bind, ledger_safe_call; [done|intros w1 H1].
    destruct (rotateBegin_keeps (stream_owner ops) pid jwk w1 H1) as [H2 G2].
    split_and!; [done|done|intros _]. destruct (rotateBegin pid jwk w1) as [w2 [fp|]]; [|done]. cbn [fst snd] in *.
    apply ledger_safe_call; [done|intros w3 H3]. destruct (rotateCommit_keeps (stream_owner ops) pid fp version w3 H3). by split_and!.
Qed.

Lemma ledger_empty_inv own now resolve : ledger_inv own None (MemoryPrincipalSessionLedger_new now resolve).
Proof. by split. Qed.
End pool.

(** A run from a new ledger: the invariant holds at its end, bindings are recorded. *)
Lemma ledger_run ops now resolve tr w ps : no_stream_collision ops →
  pool_run ledger_env (ledger_op <$> ops) (MemoryPrincipalSessionLedger_new now resolve) tr w ps →
  ledger_inv (stream_owner ops) None w ∧ (∀ i p, ps !! i = Some p → wpg (ledger_rel ops) (ledger_rel ops) p answer_ok w).
Proof.
  intros Hcol Hrun. set (w0 := MemoryPrincipalSessionLedger_new now resolve) in *.
  destruct (pool_guarantee (ledger_rel ops) (ledger_rel ops) (λ _, answer_ok) (ledger_op <$> ops) w0 tr w ps) as [Hall Hend].
  - apply rel_trans.
  - done.
  - apply rel_refl.
  - intros _ a w1 w2. apply answer_stable.
  - eapply pool_run_mono; [apply rel_env|exact Hrun].
  - intros i p Hi. apply list_lookup_fmap_Some in Hi as (o & -> & Hi). apply ledger_op_safe; [done|by eapply list_elem_of_lookup_2|apply ledger_empty_inv].
  - split; [|done]. pose proof (pool_chain_all _ _ _ _ _ _ Hrun) as Hch. rewrite Forall_forall in Hall.
    assert (ledger_inv (stream_owner ops) None w0) as H0 by apply ledger_empty_inv.
    clear -Hall Hch H0. induction Hch as [|w1 w2 w3 (e & He & Heq) _ IH]; [done|]. apply IH.
    destruct (Hall e He) as [Hr _]. rewrite Heq in Hr. by apply Hr.
Qed.

Lemma checkpoint_verifies own w pid c : ledger_inv own None w → c ∈ checkpoints_of w pid →
  verifyPrincipalContinuity pid w = mkChainVerify true pid None None.
Proof.
  intros Hinv Hc. destruct (om_get pid (lw_principals w)) as [p|] eqn:Hp.
  - eapply invariant_verifies; [done..|]. rewrite (po_seq _ _ _ _ (li_principals _ _ _ Hinv pid p Hp)).
    destruct (checkpoints_of w pid); [by apply not_elem_of_nil in Hc|]. simpl. lia.
  - rewrite (li_checkpoints _ _ _ Hinv pid Hp) in Hc. by apply not_elem_of_nil in Hc.
Qed.

(** C36 Whatever bindings, events, closings and rotations run interleaved over a new
    ledger, every principal that has a checkpoint is verified as continuous, and
    every returned binding stays recorded: its event is in its stream, its
    checkpoint among the principal's -- unless two principals were given one stream
    identifier, which is a truncated hash. *)
Theorem ledger_continuity ops now resolve tr w' ps' :
  no_stream_collision ops →
  pool_run ledger_env (ledger_op <$> ops) (MemoryPrincipalSessionLedger_new now resolve) tr w' ps' →
  (∀ pid c, c ∈ checkpoints_of w' pid → verifyPrincipalContinuity pid w' = mkChainVerify true pid None None) ∧
  (∀ i b, ps' !! i = Some (Done (Bound (Ret b))) →
     recorded b w' ∧ verifyPrincipalContinuity (sb_principalId b) w' = mkChainVerify true (sb_principalId b) None None).
Proof.
  intros Hcol Hrun. destruct (ledger_run _ _ _ _ _ _ Hcol Hrun) as [Hinv Hend]. split.
  - intros pid c. by eapply checkpoint_verifies.
  - intros i b Hi. pose proof (Hend i _ Hi) as Hb. split; [done|]. destruct Hb as [_ (c & Hc & _)]. by eapply checkpoint_verifies.
Qed.

(** The ledger is append-only: between two moments of a run no stream and no
    list of checkpoints loses, replaces or reorders an entry. *)
Theorem ledger_append_only ops now resolve tr w ps tr' w' ps' :
  no_stream_collision ops →
  pool_run ledger_env (ledger_op <$> ops) (MemoryPrincipalSessionLedger_new now resolve) tr w ps →
  pool_run ledger_env ps w tr' w' ps' →
  (∀ sid, entries_of w sid `prefix_of` entries_of w' sid) ∧ (∀ pid, checkpoints_of w pid `prefix_of` checkpoints_of w' pid).
Proof.
  intros Hcol Hrun Hrun'. destruct (ledger_run _ _ _ _ _ _ Hcol Hrun) as [Hinv Hend].
  destruct (pool_guarantee (ledger_rel ops) (ledger_rel ops) (λ _, answer_ok) ps w tr' w' ps') as [Hall _].
  - apply rel_trans.
  - done.
  - apply rel_refl.
  - intros _ a w1 w2. apply answer_stable.
  - eapply pool_run_mono; [apply rel_env|exact Hrun'].
  - done.
  - assert (grows w w') as [He Hc]; [|done]. pose proof (pool_chain_all _ _ _ _ _ _ Hrun') as Hch. rewrite Forall_forall in Hall.
    clear -Hall Hch. induction Hch as [|w1 w2 w3 (e & He & Heq) _ IH]; [by apply grows_same|].
    eapply grows_trans; [|exact IH]. destruct (Hall e He) as [_ Hg]. by rewrite Heq in Hg.
Qed.
End runs.
