(* ===== verification/PrincipalPin.v ===== *)
(** * What a checkpoint head pins

    Two ledgers in which one principal is verified as continuous, and which agree
    on its checkpoint head, agree on its checkpoints, its streams and every event --
    or two texts with one digest are at hand.  The canonical texts of checkpoints
    and events are decoded field by field. *)

From S2P Require Import Prelude ChainLink JsNum Encoding Json JsText Crypto AuditChain OutboxContract ReplicaEnvelope RuntimeCapture PrincipalSession PrincipalChain.
From stdpp Require Import base strings list sorting.
From Stdlib Require Import ZArith Lia.

Local Open Scope string_scope.

(** ** Decoding texts *)

Lemma quote_app_inj s1 s2 r1 r2 : quote s1 +:+ r1 = quote s2 +:+ r2 → s1 = s2 ∧ r1 = r2.
Proof.
  unfold quote. rewrite !string_app_cons, !string_app_assoc, !string_app_cons, !string_app_nil. intros [= H].
  apply (f_equal parse_chars) in H. rewrite !parse_chars_escape in H. by simplify_eq.
Qed.

Lemma digits_app_inj a b r1 r2 : (0 <= a)%Z → (0 <= b)%Z → non_digit_head r1 → non_digit_head r2 →
  digits a +:+ r1 = digits b +:+ r2 → a = b ∧ r1 = r2.
Proof.
  intros Ha Hb H1 H2 H. apply (f_equal (span is_digit)) in H.
  rewrite !span_digits_app in H by (try done; by apply digits_all). simplify_eq. split; [|done]. by apply digits_inj.
Qed.

Lemma digits_no_sign n r s : (0 <= n)%Z → digits n +:+ r ≠ String "-"%char s.
Proof.
  intros Hn. pose proof (digits_all n Hn) as Ha. pose proof (digits_nonempty n Hn) as Hne.
  destruct (digits n) as [|c d]; [done|]. rewrite string_app_cons. intros [= -> _]. by vm_compute in Ha.
Qed.

Lemma z_to_string_app_inj a b r1 r2 : non_digit_head r1 → non_digit_head r2 →
  z_to_string a +:+ r1 = z_to_string b +:+ r2 → a = b ∧ r1 = r2.
Proof.
  intros H1 H2. unfold z_to_string. case_decide; case_decide; rewrite ?string_app_cons, ?string_app_nil; intros H'.
  - injection H' as H'. apply digits_app_inj in H' as [? ?]; [|lia|lia|done|done]. split; [lia|done].
  - exfalso. by apply (digits_no_sign b r2 _ ltac:(lia) (eq_sym H')).
  - exfalso. by apply (digits_no_sign a r1 _ ltac:(lia) H').
  - by apply digits_app_inj in H'; [|lia|lia| |].
Qed.

Lemma opt_text_inj o1 o2 r1 r2 :
  stringify (opt_json o1) +:+ r1 = stringify (opt_json o2) +:+ r2 → o1 = o2 ∧ r1 = r2.
Proof.
  destruct o1 as [s1|], o2 as [s2|]; cbn.
  - intros [-> ->]%quote_app_inj. done.
  - unfold quote. by rewrite !string_app_cons.
  - unfold quote. by rewrite !string_app_cons.
  - rewrite !string_app_cons, !string_app_nil. by intros [= ->].
Qed.

Lemma string_app_inv_tail a b t : a +:+ t = b +:+ t → a = b.
Proof.
  intros H. apply (f_equal chars) in H. rewrite !chars_app in H. apply (app_inv_tail (chars t)) in H.
  by rewrite <-(unchars_chars a), <-(unchars_chars b), H.
Qed.

Lemma sep_inj c r1 r2 : String c r1 = String c r2 → r1 = r2.
Proof. congruence. Qed.

(** A field and the separator behind it. *)
Ltac decode_next H tac :=
  rewrite ?string_app_assoc in H; apply tac in H as [? H]; [|done..];
  rewrite ?string_app_cons, ?string_app_nil in H; apply sep_inj in H.

Lemma event_string_inj a b : event_string a = event_string b → a = b.
Proof. by destruct a, b. Qed.

Section pin.
Context `{WC : WebCrypto}.

(** What an event records, apart from the payload. *)
Definition event_header (e : EventBase) :=
  (eb_seq e, eb_prevHash e, eb_principalId e, eb_streamId e, eb_provider e, eb_providerSessionId e,
   (eb_agentInstanceId e, eb_timestamp e, eb_eventType e, eb_policyDigest e, eb_proofDigest e, eb_payloadHash e)).
Definition payload_text (e : EventBase) : string := canonicalJson (nullish (eb_payload e) (JObj [])).

Lemma payload_text_item e : default "null" (stringify_opt (sortValue (nullish (eb_payload e) (JObj [])))) = payload_text e.
Proof. unfold payload_text, canonicalJson, stringify. destruct (eb_payload e) as [| |[]|[]| | |]; done. Qed.

Lemma event_text_items e : event_text e =
  "[" +:+ (z_to_string (eb_seq e) +:+ "," +:+ quote (eb_prevHash e) +:+ "," +:+ quote (eb_principalId e) +:+ "," +:+
    quote (eb_streamId e) +:+ "," +:+ quote (eb_provider e) +:+ "," +:+ stringify (opt_json (eb_providerSessionId e)) +:+ "," +:+
    quote (eb_agentInstanceId e) +:+ "," +:+ z_to_string (eb_timestamp e) +:+ "," +:+ quote (event_string (eb_eventType e)) +:+ "," +:+
    stringify (opt_json (eb_policyDigest e)) +:+ "," +:+ stringify (opt_json (eb_proofDigest e)) +:+ "," +:+
    quote (eb_payloadHash e) +:+ "," +:+ payload_text e) +:+ "]".
Proof. rewrite <-payload_text_item. unfold event_text. destruct (eb_providerSessionId e), (eb_policyDigest e), (eb_proofDigest e); reflexivity. Qed.

Lemma event_text_inj a b : event_text a = event_text b → event_header a = event_header b ∧ payload_text a = payload_text b.
Proof.
  rewrite !event_text_items, !string_app_cons, !string_app_nil. intros H. apply sep_inj in H.
  decode_next H z_to_string_app_inj. do 4 decode_next H quote_app_inj. decode_next H opt_text_inj.
  decode_next H quote_app_inj. decode_next H z_to_string_app_inj. decode_next H quote_app_inj.
  do 2 decode_next H opt_text_inj. decode_next H quote_app_inj.
  apply string_app_inv_tail in H. split; [|done].
  match goal with E : event_string _ = event_string _ |- _ => apply event_string_inj in E end. unfold event_header. congruence.
Qed.

Definition checkpoint_header (c : CheckpointBase) := (cb_seq c, cb_prevHash c, cb_principalId c, cb_timestamp c).
Definition heads_text (l : list (string * StreamHead)) : string := canonicalJson (heads_value l).

Lemma checkpoint_text_items c : checkpoint_text c =
  "[" +:+ (z_to_string (cb_seq c) +:+ "," +:+ quote (cb_prevHash c) +:+ "," +:+ quote (cb_principalId c) +:+ "," +:+
    z_to_string (cb_timestamp c) +:+ "," +:+ heads_text (cb_streamHeads c)) +:+ "]".
Proof. reflexivity. Qed.

Lemma checkpoint_text_inj a b : checkpoint_text a = checkpoint_text b →
  checkpoint_header a = checkpoint_header b ∧ heads_text (cb_streamHeads a) = heads_text (cb_streamHeads b).
Proof.
  rewrite !checkpoint_text_items, !string_app_cons, !string_app_nil. intros H. apply sep_inj in H.
  decode_next H z_to_string_app_inj. do 2 decode_next H quote_app_inj. decode_next H z_to_string_app_inj.
  apply string_app_inv_tail in H. split; [|done]. unfold checkpoint_header. congruence.
Qed.

(** ** The heads of a checkpoint *)

Definition sorted_head (h : StreamHead) : jsval :=
  JObj [("chainHash", JStr (hd_chainHash h)); ("seq", JNum (int (hd_seq h)))].
Definition member (kv : string * StreamHead) : string := quote kv.1 +:+ ":" +:+ stringify (sorted_head kv.2).

Lemma sortValue_head h : sortValue (head_value h) = sorted_head h.
Proof. reflexivity. Qed.

Lemma sorted_head_inj h h' : sorted_head h = sorted_head h' → h = h'.
Proof. destruct h, h'. unfold sorted_head. unfold int. cbn. congruence. Qed.

Lemma fmap_preimage {A B C} (g : B → C) (X : list (A * C)) : Forall (λ kv, ∃ h, kv.2 = g h) X → ∃ m, X = prod_map id g <$> m.
Proof.
  induction 1 as [|[k v] X [h Hh] _ (m & ->)]; [by exists []|]. cbn in Hh. subst v. by exists ((k, h) :: m).
Qed.

Lemma heads_sorted l : NoDup l.*1 → ∃ m, sortValue (heads_value l) = JObj (prod_map id sorted_head <$> m) ∧
  ∀ k h, (k, h) ∈ m ↔ k ≠ "__proto__" ∧ (k, h) ∈ l.
Proof.
  intros Hnd. unfold heads_value. rewrite sortValue_obj.
  set (Y := sortV_field <$> (prod_map id head_value <$> l)).
  assert (Y = prod_map id sorted_head <$> l) as HY.
  { unfold Y. rewrite <-list_fmap_compose. apply list_fmap_ext. intros i [k h] _. cbn. f_equal. }
  assert (∀ k v, (k, v) ∈ assign_sorted Y ↔ k ≠ "__proto__" ∧ ∃ h, (k, h) ∈ l ∧ v = sorted_head h) as Hel.
  { intros k v. unfold assign_sorted. rewrite js_order_perm, list_elem_of_filter, fields_sorted_perm, HY.
    - cbn [fst]. rewrite list_elem_of_fmap. split.
      + intros (Hk & [k' h] & [= -> ->] & Hin). split; [done|]. by exists h.
      + intros (Hk & h & Hin & ->). split; [done|]. by exists (k, h).
    - rewrite HY, <-list_fmap_compose. done. }
  destruct (fmap_preimage sorted_head (assign_sorted Y)) as [m Hm].
  { apply Forall_forall. intros [k v] (_ & h & _ & ->)%Hel. by exists h. }
  exists m. split; [by rewrite Hm|]. intros k h. rewrite Hm in Hel. specialize (Hel k (sorted_head h)).
  rewrite list_elem_of_fmap in Hel. split.
  - intros Hin. destruct Hel as [Hel _]. destruct Hel as (Hk & h' & Hin' & Heq); [by exists (k, h)|].
    apply sorted_head_inj in Heq as ->. done.
  - intros (Hk & Hin). destruct Hel as [_ Hel]. destruct Hel as ([k' h'] & Heq & Hin'); [by eauto|].
    cbn [prod_map fst snd id] in Heq. apply pair_eq in Heq as [-> ->%sorted_head_inj]. done.
Qed.

Lemma member_text kv : member kv =
  quote kv.1 +:+ ":{" +:+ quote "chainHash" +:+ ":" +:+ quote (hd_chainHash kv.2) +:+ "," +:+ quote "seq" +:+ ":" +:+
  z_to_string (hd_seq kv.2) +:+ "}".
Proof.
  unfold member. assert (stringify (sorted_head kv.2) = "{" +:+ ((quote "chainHash" +:+ ":" +:+ quote (hd_chainHash kv.2)) +:+ "," +:+
    (quote "seq" +:+ ":" +:+ z_to_string (hd_seq kv.2))) +:+ "}") as -> by reflexivity.
  by rewrite !string_app_assoc, !string_app_cons, !string_app_nil.
Qed.

Lemma heads_text_items m : stringify (JObj (prod_map id sorted_head <$> m)) = "{" +:+ str_join "," (member <$> m) +:+ "}".
Proof.
  unfold stringify. cbn [stringify_opt default from_option id]. f_equal. f_equal. f_equal.
  induction m as [|[k h] m IH]; [done|]. cbn. f_equal. exact IH.
Qed.

Lemma member_inj a b r1 r2 : member a +:+ r1 = member b +:+ r2 → a = b ∧ r1 = r2.
Proof.
  rewrite !member_text. destruct a as [k [q h]], b as [k' [q' h']]. cbn [fst snd hd_seq hd_chainHash]. intros H.
  rewrite !string_app_assoc in H. apply quote_app_inj in H as [-> H]. rewrite !string_app_cons, !string_app_nil in H.
  do 2 apply sep_inj in H. apply quote_app_inj in H as [_ H]. apply sep_inj in H.
  apply quote_app_inj in H as [-> H]. rewrite ?string_app_cons, ?string_app_nil in H. apply sep_inj in H.
  apply quote_app_inj in H as [_ H]. apply sep_inj in H. apply z_to_string_app_inj in H as [-> H]; [|done..].
  by apply sep_inj in H.
Qed.

Lemma members_cons a m t : str_join "," (member <$> a :: m) +:+ String "}"%char t =
  member a +:+ match m with [] => String "}"%char t | _ => String ","%char (str_join "," (member <$> m) +:+ String "}"%char t) end.
Proof. destruct m as [|b m]; [done|]. cbn [fmap list_fmap str_join]. by rewrite !string_app_assoc, string_app_cons, string_app_nil. Qed.

Lemma member_head a t s : member a +:+ t ≠ String "}"%char s.
Proof. unfold member, quote. by rewrite !string_app_cons. Qed.

Lemma members_inj m1 m2 t : str_join "," (member <$> m1) +:+ String "}"%char t = str_join "," (member <$> m2) +:+ String "}"%char t →
  m1 = m2.
Proof.
  revert m2. induction m1 as [|a m1 IH]; intros [|b m2] H; [done| | |].
  - exfalso. rewrite members_cons in H. cbn [fmap list_fmap str_join] in H. rewrite string_app_nil in H. by eapply member_head.
  - exfalso. rewrite members_cons in H. cbn [fmap list_fmap str_join] in H. rewrite string_app_nil in H. by eapply member_head.
  - rewrite !members_cons in H. apply member_inj in H as [-> H]. f_equal. destruct m1, m2; try done.
    apply sep_inj in H. by apply IH.
Qed.

(** Equal texts, equal heads. *)
Lemma heads_text_inj l1 l2 k h : NoDup l1.*1 → NoDup l2.*1 → heads_text l1 = heads_text l2 → k ≠ "__proto__" →
  (k, h) ∈ l1 → (k, h) ∈ l2.
Proof.
  intros H1 H2 Ht Hk Hin. destruct (heads_sorted l1 H1) as (m1 & E1 & M1), (heads_sorted l2 H2) as (m2 & E2 & M2).
  unfold heads_text, canonicalJson in Ht. rewrite E1, E2, !heads_text_items in Ht.
  assert (m1 = m2) as <-.
  { rewrite !string_app_cons, !string_app_nil in Ht. apply sep_inj in Ht. by eapply members_inj. }
  apply M2, M1. done.
Qed.

(** ** What a successful verification establishes *)

Lemma verifyStreams_inr pid ids acc w heads : verifyStreams pid ids acc w = inr heads → om_wf acc →
  om_wf heads ∧ ∀ sid, (sid ∈ ids → ∃ s, om_get sid (lw_streams w) = Some s ∧
      check_entries (entries_of w sid) = inr (st_headHash s) ∧ st_seq s = Z.of_nat (length (entries_of w sid)) ∧
      om_get sid heads = Some (mkStreamHead (st_seq s) (st_headHash s))) ∧
    (sid ∉ ids → om_get sid heads = om_get sid acc).
Proof.
  revert acc. induction ids as [|id ids IH]; intros acc; simpl.
  { intros [= <-] Hwf. split; [done|]. intros sid. split; [by intros ?%not_elem_of_nil|done]. }
  destruct (om_get id (lw_streams w)) as [s|] eqn:Hs; [|done]. change (default [] (om_get id (lw_events w))) with (entries_of w id).
  destruct (check_entries (entries_of w id)) as [[]|h] eqn:Hc; [done|]. destruct (_ || _)%bool eqn:Hb; [done|]. btrue.
  intros Hv Hwf. destruct (IH _ Hv (om_wf_set _ _ _ Hwf)) as [Hwf' Hall]. split; [done|]. intros sid.
  destruct (Hall sid) as [Hin Hout]. destruct (decide (sid ∈ ids)) as [Hi|Hi].
  - split; [by intros _; apply Hin|]. intros Hn. exfalso. apply Hn. by apply elem_of_cons; right.
  - rewrite (Hout Hi), om_get_set_case. split.
    + intros [->|]%elem_of_cons; [|done]. rewrite decide_True by done.
      apply dec_stable in H, H0. subst h. by exists s.
    + intros Hn. rewrite decide_False; [done|]. intros ->. apply Hn. by apply elem_of_cons; left.
Qed.

Lemma verified_facts pid w p : om_get pid (lw_principals w) = Some p → cv_valid (verifyPrincipalContinuity pid w) = true →
  ∃ heads latest, verifyStreams pid (pr_streamIds p) [] w = inr heads ∧
    check_checkpoints (checkpoints_of w pid) = inr (pr_checkpointHead p) ∧ last (checkpoints_of w pid) = Some latest ∧
    heads_text (cb_streamHeads (cp_base latest)) = heads_text heads.
Proof.
  intros Hp. unfold verifyPrincipalContinuity. rewrite Hp. change (default [] (om_get pid (lw_checkpoints w))) with (checkpoints_of w pid).
  destruct (verifyStreams _ _ _ _) as [r|heads] eqn:Hv.
  { intros H. exfalso. clear -Hv H. revert Hv. generalize (@nil (string * StreamHead)). induction (pr_streamIds p) as [|id ids IH]; intros acc; simpl; [done|].
    destruct (om_get id _); [|by intros [= <-]]. destruct (check_entries _) as [[]|]; [by intros [= <-]|].
    destruct (_ || _)%bool; [by intros [= <-]|]. apply IH. }
  destruct (check_checkpoints _) as [[]|h] eqn:Hc; [done|]. destruct (last _) as [latest|] eqn:Hl; [|done].
  destruct (_ || _)%bool eqn:Hb; [done|]. destruct (decide (canonicalJson _ ≠ _)) as [Hh|Hh]; [done|]. intros _. btrue. apply dec_stable in H, H0, Hh.
  exists heads, latest. split_and!; [done| |done|exact Hh]. destruct (last_checkpoint _ _ _ Hc Hl) as [Hx _]. congruence.
Qed.

(** ** The history below a head *)

Definition same_event (a b : PrincipalStreamEvent) : Prop :=
  event_header (ev_base a) = event_header (ev_base b) ∧ payload_text (ev_base a) = payload_text (ev_base b).
Definition same_checkpoint (a b : PrincipalCheckpoint) : Prop :=
  checkpoint_header (cp_base a) = checkpoint_header (cp_base b) ∧
  heads_text (cb_streamHeads (cp_base a)) = heads_text (cb_streamHeads (cp_base b)).

(** An entry of the one history and an entry of the other with one SHA-256 digest
    and different texts. *)
Definition events_collide : list PrincipalStreamEvent → list PrincipalStreamEvent → Prop :=
  collision sha256hex (λ e, event_text (ev_base e)).
Definition checkpoints_collide : list PrincipalCheckpoint → list PrincipalCheckpoint → Prop :=
  collision sha256hex (λ c, checkpoint_text (cp_base c)).
Definition histories_collide (pid : string) (ids : list string) (w1 w2 : LedgerWorld) : Prop :=
  checkpoints_collide (checkpoints_of w1 pid) (checkpoints_of w2 pid) ∨
  ∃ sid, sid ∈ ids ∧ events_collide (entries_of w1 sid) (entries_of w2 sid).

Lemma texts_same {A} (text : A → string) (same : A → A → Prop) (l1 l2 : list A) :
  (∀ a b, text a = text b → same a b) → text <$> l1 = text <$> l2 → Forall2 same l1 l2.
Proof.
  intros Ht. revert l2. induction l1 as [|a l1 IH]; intros [|b l2] H; [constructor|done|done|].
  rewrite !fmap_cons in H. injection H as Ha Hl. constructor; [by apply Ht|by apply IH].
Qed.

Lemma entries_pinned l1 l2 h : check_entries l1 = inr h → check_entries l2 = inr h → length l1 = length l2 →
  Forall2 same_event l1 l2 ∨ events_collide l1 l2.
Proof.
  intros H1 H2 Hl. destruct (head_pins ev_seq ev_prevHash ev_chainHash (λ e, computeStreamEventHash (ev_base e)) sha256hex
    (λ e, event_text (ev_base e))) with (i := 0%Z) (p := PRINCIPAL_GENESIS_HASH) (l1 := l1) (l2 := l2) (h := h) as [Ht|]; try done.
  - intros a b [Hh _]%event_text_inj. unfold event_header in Hh. unfold ev_prevHash. congruence.
  - left. eapply texts_same; [|exact Ht]. intros a b. apply event_text_inj.
  - by right.
Qed.

Lemma checkpoints_pinned l1 l2 h c1 c2 : check_checkpoints l1 = inr h → check_checkpoints l2 = inr h →
  last l1 = Some c1 → last l2 = Some c2 → Forall2 same_checkpoint l1 l2 ∨ checkpoints_collide l1 l2.
Proof.
  intros H1 H2 L1 L2. destruct (last_checkpoint _ _ _ H1 L1) as [E1 S1], (last_checkpoint _ _ _ H2 L2) as [E2 S2].
  assert (computeCheckpointHash (cp_base c1) = cp_checkpointHash c1 ∧ computeCheckpointHash (cp_base c2) = cp_checkpointHash c2) as [C1 C2].
  { apply last_Some in L1 as [l1' ->], L2 as [l2' ->].
    apply check_links_app in H1 as (? & _ & (F1 & _)%check_links_cons), H2 as (? & _ & (F2 & _)%check_links_cons).
    split; [apply F1|apply F2]. }
  destruct (decide (checkpoint_text (cp_base c1) = checkpoint_text (cp_base c2))) as [Ht|Ht].
  - apply checkpoint_text_inj in Ht as [Hh _]. unfold checkpoint_header in Hh.
    assert (cp_seq c1 = cp_seq c2) as Hs by (unfold cp_seq; congruence). assert (length l1 = length l2) as Hl by lia.
    destruct (head_pins cp_seq cp_prevHash cp_checkpointHash (λ c, computeCheckpointHash (cp_base c)) sha256hex
      (λ c, checkpoint_text (cp_base c))) with (i := 0%Z) (p := PRINCIPAL_GENESIS_HASH) (l1 := l1) (l2 := l2) (h := h) as [Ht|]; try done.
    + intros a b [Hh' _]%checkpoint_text_inj. unfold checkpoint_header in Hh'. unfold cp_prevHash. congruence.
    + left. eapply texts_same; [|exact Ht]. intros a b. apply checkpoint_text_inj.
    + by right.
  - right. exists c1, c2. split_and!; [by eapply last_Some_elem_of.. |done|].
    change (computeCheckpointHash (cp_base c1) = computeCheckpointHash (cp_base c2)). congruence.
Qed.
End pin.

Lemma Forall_or_side {A} (l : list A) (P : A → Prop) (Q : Prop) : (∀ x, x ∈ l → P x ∨ Q) → Forall P l ∨ Q.
Proof.
  induction l as [|x l IH]; intros H; [by left; constructor|].
  destruct (H x) as [Hx|]; [by apply elem_of_cons; left| |by right].
  destruct IH as [Hl|]; [|left; by constructor|by right]. intros y Hy. apply H. by apply elem_of_cons; right.
Qed.

Section history.
Context `{WC : WebCrypto}.

(** The streams of one ledger appear in the other, with the same events. *)
Lemma streams_pinned pid w1 w2 ids1 ids2 heads1 heads2 :
  verifyStreams pid ids1 [] w1 = inr heads1 → verifyStreams pid ids2 [] w2 = inr heads2 →
  heads_text heads1 = heads_text heads2 →
  ∀ sid, sid ≠ "__proto__" → sid ∈ ids1 →
  sid ∈ ids2 ∧ (Forall2 same_event (entries_of w1 sid) (entries_of w2 sid) ∨ events_collide (entries_of w1 sid) (entries_of w2 sid)).
Proof.
  intros V1 V2 Ht sid Hsid Hin.
  destruct (verifyStreams_inr _ _ _ _ _ V1) as [N1 A1]; [by apply NoDup_nil|].
  destruct (verifyStreams_inr _ _ _ _ _ V2) as [N2 A2]; [by apply NoDup_nil|].
  destruct (A1 sid) as [I1 _], (A2 sid) as [I2 O2]. destruct (I1 Hin) as (s1 & _ & C1 & Q1 & G1).
  assert (om_get sid heads2 = Some (mkStreamHead (st_seq s1) (st_headHash s1))) as G2.
  { apply om_get_elem; [done|]. apply (heads_text_inj heads1 heads2); [done..|]. by apply om_get_Some_elem. }
  destruct (decide (sid ∈ ids2)) as [Hin2|Hout]; [|by rewrite O2 in G2].
  split; [done|]. destruct (I2 Hin2) as (s2 & _ & C2 & Q2 & G2'). rewrite G2 in G2'. injection G2' as Hs Hh.
  eapply (entries_pinned _ _ (st_headHash s1)); [done|by rewrite Hh|lia].
Qed.

(** C37 A checkpoint head is a commitment to the whole history of a principal: two
    ledgers that verify the principal and agree on its head agree on every
    checkpoint, on the streams and on every event of them, unless a checkpoint or an
    event of the one collides, as SHA-256 preimages, with one of the other. *)
Theorem checkpoint_pins_history pid w1 w2 p1 p2 :
  getPrincipal pid w1 = Some p1 → getPrincipal pid w2 = Some p2 →
  pr_checkpointHead p1 = pr_checkpointHead p2 →
  cv_valid (verifyPrincipalContinuity pid w1) = true → cv_valid (verifyPrincipalContinuity pid w2) = true →
  (Forall2 same_checkpoint (checkpoints_of w1 pid) (checkpoints_of w2 pid) ∧
   ∀ sid, sid ≠ "__proto__" →
     (sid ∈ pr_streamIds p1 ↔ sid ∈ pr_streamIds p2) ∧
     (sid ∈ pr_streamIds p1 → Forall2 same_event (entries_of w1 sid) (entries_of w2 sid))) ∨
  histories_collide pid (pr_streamIds p1) w1 w2.
Proof.
  intros P1 P2 Hh V1 V2. destruct (verified_facts pid w1 p1 P1 V1) as (h1 & c1 & S1 & C1 & L1 & T1).
  destruct (verified_facts pid w2 p2 P2 V2) as (h2 & c2 & S2 & C2 & L2 & T2). rewrite <-Hh in C2.
  destruct (checkpoints_pinned _ _ _ _ _ C1 C2 L1 L2) as [Hc|]; [|by right; left].
  assert (heads_text h1 = heads_text h2) as Ht.
  { apply last_Some in L1 as [l1 E1], L2 as [l2 E2]. rewrite E1, E2 in Hc.
    apply Forall2_app_inv in Hc as [_ Hc].
    - apply Forall2_cons in Hc as [[_ Hc] _]. congruence.
    - apply Forall2_length in Hc. rewrite !length_app in Hc. simpl in Hc. lia. }
  pose proof (streams_pinned pid w1 w2 _ _ _ _ S1 S2 Ht) as F12.
  pose proof (streams_pinned pid w2 w1 _ _ _ _ S2 S1 (eq_sym Ht)) as F21.
  destruct (Forall_or_side (pr_streamIds p1) (λ sid, sid ≠ "__proto__" → Forall2 same_event (entries_of w1 sid) (entries_of w2 sid))
    (∃ sid, sid ∈ pr_streamIds p1 ∧ events_collide (entries_of w1 sid) (entries_of w2 sid))) as [Hall|]; [|left; split; [done|]|by right; right].
  - intros sid Hin. destruct (decide (sid = "__proto__")); [by left|]. destruct (F12 sid) as [_ [|]]; [done..|by left|right; by exists sid].
  - intros sid Hne. rewrite Forall_forall in Hall. split; [split; intros Hin; [by apply F12|by apply F21]|]. intros Hin. by apply Hall.
Qed.
End history.
