(* ===== verification/PrincipalSafety.v ===== *)
(** * What a binding of a session proves

    A binding is returned only for a fresh, signed proof by the key the principal
    is named after, with a nonce that was not used before; its authorization
    context is the resolver's answer over what the principal already had, never the
    request's own claim; and one proof nonce binds one session. *)

From S2P Require Import Prelude Proc JsNum Encoding Json JsText Crypto AuditChain OutboxContract ReplicaEnvelope RuntimeCapture PrincipalSession PrincipalChain.
From stdpp Require Import base strings list relations.
From Stdlib Require Import ZArith Lia.

Local Open Scope bpc_scope.

Section safety.
Context `{WC : WebCrypto}.
#[local] Open Scope string_scope.

(** ** The proof of possession *)

(** Signed less than the permitted age away from [now]: enforced on numbers other
    than NaN only. *)
Definition proof_fresh (input : BindSessionInput) (now : Z) : Prop :=
  let maxProofAgeMs := default (int (5 * 60000)) (bi_maxProofAgeMs input) in
  maxProofAgeMs = NaN ∨ sp_signedAt (bi_proof input) = NaN ∨
  num_leb (num_dist now (sp_signedAt (bi_proof input))) maxProofAgeMs = true.

(** What the key signs, field by field. *)
Definition signed_statement (input : BindSessionInput) (fp : string) : jsval :=
  let digest (v : option (list (string * jsval))) :=
    sha256hex (canonicalJson (sanitizeCaptureValue (JObj (default [] v)) EmptyString)) in
  JObj [("purpose", JStr "bpc.principal.session.bind.v1");
    ("key_fingerprint", JStr fp);
    ("provider", JStr (bi_provider input));
    ("provider_session_id", JStr (bi_providerSessionId input));
    ("agent_instance_id", JStr (agentOf input));
    ("policy_digest", JStr (bi_policyDigest input));
    ("authorization_context_hash", JStr (digest (bi_authorizationContext input)));
    ("runtime_metadata_hash", JStr (digest (bi_runtimeMetadata input)));
    ("challenge_nonce", JStr (sp_challengeNonce (bi_proof input)));
    ("signed_at", JNum (sp_signedAt (bi_proof input)))].

(** The checks of [verifyPrincipalSessionProof], read at one moment. *)
Record proof_holds (input : BindSessionInput) (fp : string) (now : Z) : Prop := {
  ph_fresh : proof_fresh input now;
  ph_nonce : (16 <= str_len (sp_challengeNonce (bi_proof input)))%Z;
  ph_signed : ∃ pk, importPublicKeyFromJwk (bi_publicKeyJwk input) = Ret pk ∧
    verifyPayload pk (signed_statement input fp) (sp_signature (bi_proof input)) = true;
}.

Lemma fresh_iff input now : proof_fresh input now ↔
  num_ltb (default (int (5 * 60000)) (bi_maxProofAgeMs input)) (num_dist now (sp_signedAt (bi_proof input))) = false.
Proof. unfold proof_fresh. by rewrite num_ltb_false, num_dist_NaN. Qed.

Lemma verifyProof_iff input fp now : verifyPrincipalSessionProof input (Some fp) now = Ret tt ↔ proof_holds input fp now.
Proof.
  unfold verifyPrincipalSessionProof. cbn [mbind exc_bind]. split.
  - destruct (num_ltb _ _) eqn:Hf; [done|]. apply fresh_iff in Hf. case_decide; [done|].
    destruct (importPublicKeyFromJwk _) as [pk|] eqn:Hk; [|done]. cbn [mbind exc_bind].
    destruct (verifyPayload _ _ _) eqn:Hv; [|done]. intros _. split; [done|lia|by exists pk].
  - intros [Hf%fresh_iff Hn (pk & Hk & Hv)]. rewrite Hf, decide_False by lia. rewrite Hk. cbn [mbind exc_bind]. change (signed_statement input fp) with (proof_payload input fp) in Hv. by rewrite Hv.
Qed.

(** ** The granted context *)

Definition context_of (pid : string) (w : LedgerWorld) : option AuthorizationContext :=
  pr_authorizationContext <$> om_get pid (lw_principals w).

Lemma context_on_principal pid pid' f w : (∀ p, pr_authorizationContext (f p) = pr_authorizationContext p) →
  context_of pid (on_principal pid' f w) = context_of pid w.
Proof.
  intros Hf. unfold context_of, on_principal. destruct (om_get pid' _) as [p|] eqn:Hp; [|done]. cbn.
  rewrite om_get_set_case. case_decide; [subst|done]. rewrite Hp. cbn. by rewrite Hf.
Qed.

Lemma context_upsertStream pid principal sid provider agent session w :
  context_of pid (upsertStream principal sid provider agent session w).1 = context_of pid w.
Proof. unfold upsertStream. destruct (om_get sid _); [done|]. cbn [fst]. by rewrite context_on_principal. Qed.

Lemma context_append stream type payload options w pid :
  context_of pid (appendEventToStream stream type payload options w).1 = context_of pid w.
Proof. done. Qed.

(** What the last step of a binding returns. *)
Lemma bindCommit_returns input pid ctx w w' b : bindCommit input pid ctx w = (w', Ret b) →
  sb_principalId b = pid ∧ sb_provider b = bi_provider input ∧ sb_providerSessionId b = bi_providerSessionId input ∧
  sb_agentInstanceId b = agentOf input ∧ sb_policyDigest b = bi_policyDigest input ∧
  ∃ before, context_of pid w = Some before ∧ sb_authorizationContext b = spread before ctx.
Proof.
  unfold bindCommit, mustPrincipal at 1. destruct (om_get pid (lw_principals w)) as [p|] eqn:Hp; [|done].
  match goal with |- context [upsertStream ?a ?b ?c ?d ?e w] => pose proof (context_upsertStream pid a b c d e w) as H1 end.
  destruct (upsertStream _ _ _ _ _ _) as [w1 stream]. cbn [fst] in H1.
  set (w2 := on_principal pid _ w1). assert (context_of pid w2 = context_of pid w) as H2 by (unfold w2; by rewrite context_on_principal).
  set (w3 := match ctx with [] => w2 | _ => _ end).
  assert (context_of pid w3 = (λ c, spread c ctx) <$> context_of pid w) as H3.
  { unfold w3. destruct ctx as [|x ctx]; [rewrite H2; by destruct (context_of pid w)|].
    rewrite <-H2. unfold context_of, on_principal. destruct (om_get pid (lw_principals w2)) as [q|] eqn:Hq; [|by rewrite Hq].
    cbn. by rewrite om_get_set. }
  unfold mustPrincipal. destruct (om_get pid (lw_principals w3)) as [p3|] eqn:Hp3; [|done].
  destruct (appendEventToStream _ _ _ _ _) as [w4 e]. destruct (appendCheckpoint _ _) as [w5 c]. intros [= _ <-]. cbn.
  split_and!; [done..|]. exists (pr_authorizationContext p). unfold context_of in *. rewrite Hp, Hp3 in *. cbn in *.
  split; [done|congruence].
Qed.

(** C34 Soundness of a binding, under any interference: the key whose fingerprint the
    principal is named after -- which need not be the key a later rotation gave it --
    signed exactly the fields of [signed_statement]; the proof is no older than the
    permitted age, unless its signing time or that age is NaN; its nonce is long
    enough, was unused and is used from then on; and the granted context is the
    resolver's answer over the principal's context, in which the requested context has
    no part but as the resolver's input. *)
Theorem binding_sound R input w tr w' b :
  exec R (bindSession input) w tr w' (Ret b) →
  ∃ fp ctx s1 s2 s3 s4 s5, tr = [s1; s2; s3; s4; s5] ∧
    assertBindingInput input = Ret tt ∧ computeFingerprint (bi_publicKeyJwk input) = Ret fp ∧
    proof_holds input fp (lw_now s1.1) ∧
    sha256hex (sp_challengeNonce (bi_proof input)) ∉ lw_consumedProofNonces s2.1 ∧
    lw_consumedProofNonces s2.2 = (lw_consumedProofNonces s2.1 ++ [sha256hex (sp_challengeNonce (bi_proof input))])%list ∧
    lw_resolve s3.1 (mkResolution (principalIdFromFingerprint fp) fp (bi_policyDigest input)
      (default [] (bi_authorizationContext input))) = Ret ctx ∧
    sb_principalId b = principalIdFromFingerprint fp ∧ sb_provider b = bi_provider input ∧
    sb_providerSessionId b = bi_providerSessionId input ∧ sb_agentInstanceId b = agentOf input ∧
    sb_policyDigest b = bi_policyDigest input ∧
    ∃ before, context_of (sb_principalId b) s5.1 = Some before ∧ sb_authorizationContext b = spread before ctx.
Proof.
  unfold bindSession. destruct (assertBindingInput input) as [[]|] eqn:Ha; [|by intros [? _]%exec_done_inv].
  destruct (computeFingerprint _) as [fp|] eqn:Hfp; [|by intros [? _]%exec_done_inv].
  intros ([] & w1 & t1 & t1' & (u1 & _ & [= <- Hv] & ->)%exec_call_inv & Hex & ->)%exec_ebind_inv.
  apply exec_ebind_inv in Hex as ([] & w2 & t2 & t2' & (u2 & _ & Hc & ->)%exec_call_inv & Hex & ->).
  apply exec_ebind_inv in Hex as (ctx & w3 & t3 & t3' & (u3 & _ & [= <- Hr] & ->)%exec_call_inv & Hex & ->).
  apply exec_bind_inv in Hex as (pid & w4 & t4 & t4' & (u4 & _ & Hu & ->)%exec_call_inv & Hex & ->).
  apply exec_call_inv in Hex as (u5 & _ & Hb & ->).
  assert (pid = principalIdFromFingerprint fp) as ->.
  { pose proof (upsertPrincipal_id (bi_publicKeyJwk input) fp ctx u4) as Hid. by rewrite Hu in Hid. }
  apply bindCommit_returns in Hb as (Hpid & Hpr & Hse & Hag & Hpo & before & Hbe & Hctx).
  unfold consumeProofNonce in Hc. destruct (decide _) as [Hin|Hin]; [done|]. injection Hc as <-.
  exists fp, ctx, (u1, u1), (u2, set_consumed (λ l, (l ++ [sha256hex (sp_challengeNonce (bi_proof input))])%list) u2), (u3, u3), (u4, w4), (u5, w').
  split_and!; try done; [by apply verifyProof_iff|]. exists before. by rewrite Hpid.
Qed.

(** ** One proof, one binding *)

Definition consumed_kept (w w' : LedgerWorld) : Prop :=
  ∀ d, d ∈ lw_consumedProofNonces w → d ∈ lw_consumedProofNonces w'.
#[local] Instance consumed_kept_order : PreOrder consumed_kept.
Proof. split; [by intros w d|]. intros w1 w2 w3 H1 H2 d Hd. by apply H2, H1. Qed.

Lemma kept_same w w' : lw_consumedProofNonces w' = lw_consumedProofNonces w → consumed_kept w w'.
Proof. intros H d. by rewrite H. Qed.

Lemma consumed_on_principal pid f w : lw_consumedProofNonces (on_principal pid f w) = lw_consumedProofNonces w.
Proof. unfold on_principal. by destruct (om_get pid _). Qed.

Lemma consumed_append stream type payload options w :
  lw_consumedProofNonces (appendEventToStream stream type payload options w).1 = lw_consumedProofNonces w.
Proof. done. Qed.

Lemma consumed_checkpoint p w : lw_consumedProofNonces (appendCheckpoint p w).1 = lw_consumedProofNonces w.
Proof. unfold appendCheckpoint. cbn [fst]. by rewrite consumed_on_principal. Qed.

Lemma consumed_upsertStream principal sid provider agent session w :
  lw_consumedProofNonces (upsertStream principal sid provider agent session w).1 = lw_consumedProofNonces w.
Proof. unfold upsertStream. destruct (om_get sid _); [done|]. cbn [fst]. by rewrite consumed_on_principal. Qed.

Lemma consumed_commit stream type payload options p w :
  let '(w1, _) := appendEventToStream stream type payload options w in
  lw_consumedProofNonces (appendCheckpoint p w1).1 = lw_consumedProofNonces w.
Proof.
  pose proof (consumed_append stream type payload options w) as H. destruct (appendEventToStream _ _ _ _ _) as [w1 e].
  by rewrite consumed_checkpoint.
Qed.

Lemma consumed_appendStreamEvent pid sid type payload w :
  lw_consumedProofNonces (appendStreamEvent pid sid type payload w).1 = lw_consumedProofNonces w.
Proof.
  unfold appendStreamEvent. destruct (mustPrincipal pid w) as [p|]; [|done]. destruct (om_get sid _) as [s|]; [|done].
  case_decide; [done|]. pose proof (consumed_commit s type payload no_options p w) as Hc.
  destruct (appendEventToStream _ _ _ _ _) as [w1 e]. by destruct (appendCheckpoint p w1).
Qed.

Lemma consumed_bindCommit input pid ctx w :
  lw_consumedProofNonces (bindCommit input pid ctx w).1 = lw_consumedProofNonces w.
Proof.
  unfold bindCommit. destruct (mustPrincipal pid w) as [p|]; [|done].
  match goal with |- context [upsertStream ?a ?b ?c ?d ?e w] => pose proof (consumed_upsertStream a b c d e w) as H1 end.
  destruct (upsertStream _ _ _ _ _ _) as [w1 stream]. cbn [fst] in H1.
  set (w3 := match ctx with [] => _ | _ => _ end).
  assert (lw_consumedProofNonces w3 = lw_consumedProofNonces w) as H3.
  { unfold w3. destruct ctx; by rewrite ?consumed_on_principal. }
  destruct (mustPrincipal pid w3) as [p3|]; [|done].
  match goal with |- context [appendEventToStream ?a ?b ?c ?d w3] => pose proof (consumed_commit a b c d p3 w3) as H4 end.
  destruct (appendEventToStream _ _ _ _ _) as [w4 e]. destruct (appendCheckpoint _ _) as [w5 c]. cbn [fst] in *. congruence.
Qed.

Lemma ledger_op_kept o : always consumed_kept (ledger_op o).
Proof.
  destruct o as [input|pid sid type payload|pid sid session|pid jwk version]; cbn [ledger_op]; (apply always_bind; [|done]).
  - unfold bindSession. destruct (assertBindingInput input); [|done]. destruct (computeFingerprint _) as [fp|]; [|done].
    apply always_ebind; [by apply always_read|intros _].
    apply always_ebind; [apply always_call; intros w d|intros _].
    { unfold consumeProofNonce. case_decide; [done|]. intros Hd. apply elem_of_app. by left. }
    apply always_ebind; [by apply always_read|intros ctx]. apply always_bind; [apply always_call; intros w|intros pid].
    + apply kept_same. unfold upsertPrincipal. by destruct (om_get _ _).
    + apply always_call. intros w. apply kept_same, consumed_bindCommit.
  - apply always_call. intros w. apply kept_same, consumed_appendStreamEvent.
  - apply always_call. intros w. apply kept_same. unfold closeSession. destruct (mustPrincipal pid w); [|done].
    match goal with |- context [appendStreamEvent ?a ?b ?c ?d ?w1] => pose proof (consumed_appendStreamEvent a b c d w1) as H end.
    destruct (appendStreamEvent _ _ _ _ _) as [w' r]. cbn [fst] in *. by rewrite H, consumed_on_principal.
  - unfold rotatePrincipalKey. apply always_ebind; [apply always_call; intros w|intros fp; apply always_call; intros w]; apply kept_same.
    + unfold rotateBegin. destruct (mustPrincipal pid w); [|done]. apply consumed_on_principal.
    + unfold rotateCommit. destruct (mustPrincipal pid w) as [p|]; [|done].
      match goal with |- context [appendCheckpoint ?a ?b] => pose proof (consumed_checkpoint a b) as H end.
      by destruct (appendCheckpoint _ _).
Qed.

(** The step of a successful binding that uses up its nonce. *)
Lemma binding_consumes ops w tr w' ps' i input b :
  pool_run ledger_env (ledger_op <$> ops) w tr w' ps' → ops !! i = Some (OpBind input) →
  ps' !! i = Some (Done (Bound (Ret b))) →
  ∃ s, (Some i, s) ∈ tr ∧ sha256hex (sp_challengeNonce (bi_proof input)) ∉ lw_consumedProofNonces s.1 ∧
    sha256hex (sp_challengeNonce (bi_proof input)) ∈ lw_consumedProofNonces s.2.
Proof.
  intros Hrun Hi Hd. destruct (pool_exec _ _ _ _ _ _ i (ledger_op (OpBind input)) (Bound (Ret b)) Hrun) with (w0 := w) as [w1 Hex];
    [by rewrite list_lookup_fmap, Hi|exact Hd|]. cbn [ledger_op] in Hex.
  apply exec_bind_inv in Hex as (r & w2 & t1 & t2 & Hex & Hdone & Htr). apply exec_done_inv in Hdone as ([= <-] & -> & _).
  apply binding_sound in Hex as (fp & ctx & s1 & s2 & s3 & s4 & s5 & -> & _ & _ & _ & Hout & Hin & _).
  exists s2. split; [|split; [done|rewrite Hin; apply elem_of_app; right; by apply list_elem_of_singleton]].
  apply own_step_pool. rewrite Htr. apply elem_of_app. left. apply elem_of_cons. right. apply elem_of_cons. by left.
Qed.

(** C35 A proof of possession is good for one binding: of several bindings in any
    interleaving whose proofs carry one challenge nonce, at most one succeeds. *)
Theorem proof_binds_once ops w tr w' ps' i j input input' b b' :
  pool_run ledger_env (ledger_op <$> ops) w tr w' ps' → i ≠ j →
  ops !! i = Some (OpBind input) → ops !! j = Some (OpBind input') →
  sp_challengeNonce (bi_proof input) = sp_challengeNonce (bi_proof input') →
  ps' !! i = Some (Done (Bound (Ret b))) → ps' !! j ≠ Some (Done (Bound (Ret b'))).
Proof.
  intros Hrun Hne Hi Hj Heq Hdi Hdj.
  assert (Forall (λ e, consumed_kept e.2.1 e.2.2) tr) as Hall.
  { eapply Forall_impl; [eapply (pool_always _ consumed_kept); [exact Hrun|]|].
    - apply Forall_fmap, Forall_forall. intros o _. apply ledger_op_kept.
    - intros [[k|] [a c]]; [done|]. cbn. intros (_ & _ & _ & _ & Hc). by apply kept_same. }
  destruct (binding_consumes _ _ _ _ _ _ _ _ Hrun Hi Hdi) as (si & Ii & Oi & Ni).
  destruct (binding_consumes _ _ _ _ _ _ _ _ Hrun Hj Hdj) as (sj & Ij & Oj & Nj). rewrite <-Heq in Oj, Nj.
  destruct (trace_order _ _ _ _ _ Hne Ii Ij) as (t1 & t2 & t3 & [Htr|Htr]);
    pose proof (pool_rtc consumed_kept _ _ _ Hall (pool_chain _ _ _ _ _ _ Hrun _ _ _ _ _ Htr)) as Hk; cbn in Hk.
  - by apply Oj, Hk.
  - by apply Oi, Hk.
Qed.
End safety.
