(* ===== verification/PrincipalFallback.v ===== *)
(** * Fallback authorization from a sealed cache (packages/server/src/principal-session.ts)

    [sealPrincipalCache] authenticates a snapshot of a principal's authorization;
    [verifyFallbackAuthorization] answers from it while the ledger is out of reach.
    The nonce store is reached through [NonceBackend]; its promise [NonceLaws] gives
    the single use of a challenge across the fallbacks that share it. *)

From S2P Require Import Prelude Proc JsNum Encoding Json JsText Crypto Nonce AuditChain OutboxContract ReplicaEnvelope PrincipalSession.
From stdpp Require Import base strings list relations.
From Stdlib Require Import ZArith Lia.

Local Open Scope string_scope.
Local Open Scope bpc_scope.

Record SealedBody := mkBody {
  pc_source : string;
  pc_principalId : string;
  pc_policyDigest : string;
  pc_checkpointHash : string;
  pc_issuedAt : num;
  pc_expiresAt : num;
  pc_consumedNonceDigests : list string;
  pc_authorizationContext : AuthorizationContext;
}.
Record SealedPrincipalCache := mkCache { pc_body : SealedBody; pc_version : string; pc_seal : string }.

Record SealPrincipalCacheInput := mkSeal {
  si_source : string; si_principalId : string; si_policyDigest : string; si_checkpointHash : string;
  si_issuedAt : num; si_expiresAt : num; si_consumedNonceDigests : option (list string);
  si_authorizationContext : option AuthorizationContext; si_sealKey : string }.

(** [{ seal: _seal, ...cacheBody }] without the seal. *)
Definition body_value (version : string) (b : SealedBody) : jsval :=
  JObj [("version", JStr version); ("source", JStr (pc_source b)); ("principalId", JStr (pc_principalId b));
    ("policyDigest", JStr (pc_policyDigest b)); ("checkpointHash", JStr (pc_checkpointHash b));
    ("issuedAt", JNum (pc_issuedAt b)); ("expiresAt", JNum (pc_expiresAt b));
    ("consumedNonceDigests", JArr (JStr <$> pc_consumedNonceDigests b));
    ("authorizationContext", JObj (pc_authorizationContext b))].

(** [Buffer.from(s, 'hex')]: the pairs of digits up to the first that is none. *)
Fixpoint hex_buffer (s : string) : string :=
  match s with
  | String a (String b s) =>
      match hex_val a, hex_val b with
      | Some x, Some y => String (ascii_of_N (Z.to_N (x * 16 + y)%Z)) (hex_buffer s)
      | _, _ => EmptyString
      end
  | _ => EmptyString
  end.

Definition constantTimeHexEqual (a b : string) : bool :=
  let aBuf := hex_buffer a in
  let bBuf := hex_buffer b in
  if decide (String.length aBuf ≠ String.length bBuf) then false else bool_decide (aBuf = bBuf).

Record FallbackAuthorizationInput := mkFallback {
  fi_cache : SealedPrincipalCache;
  fi_sealKey : string;
  fi_requestedPolicyDigest : string;
  fi_expectedCheckpointHash : string;
  fi_challengeNonce : string;
  fi_proofVerified : bool;
  fi_nowMs : option num;
}.
Record FallbackAuthorizationResult := mkFallbackResult {
  fr_ok : bool; fr_source : option string; fr_authorizationContext : option AuthorizationContext; fr_error : option string }.
Definition refused (e : string) : exc FallbackAuthorizationResult := Ret (mkFallbackResult false None None (Some e)).

(** The clock and the shared nonce store. *)
Record FallbackWorld (N : Type) := mkFW { fw_now : Z; fw_nonceStore : ServerNonceStore N }.
Arguments mkFW {N}.
Arguments fw_now {N}.
Arguments fw_nonceStore {N}.

Section model.
Context `{WC : WebCrypto} {N : Type} `{!NonceBackend N}.

(** [createHmac('sha256', sealKey)] *)
Definition computeCacheSeal (version : string) (b : SealedBody) (sealKey : string) : exc string :=
  tag ← hmac_sha256 (utf8_encode sealKey) (utf8_encode (canonicalJson (body_value version b)));
  Ret (hex_of tag).

Definition sealPrincipalCache (input : SealPrincipalCacheInput) : exc SealedPrincipalCache :=
  let body := mkBody (si_source input) (si_principalId input) (si_policyDigest input) (si_checkpointHash input)
                (si_issuedAt input) (si_expiresAt input) (default [] (si_consumedNonceDigests input))
                (default [] (si_authorizationContext input)) in
  seal ← computeCacheSeal "1" body (si_sealKey input);
  Ret (mkCache body "1" seal).

(** The checks before the nonce is consumed, at the time [now]: the error, if any. *)
Definition fallback_refusal (input : FallbackAuthorizationInput) (expectedSeal : string) (now : num) : option string :=
  let cache := pc_body (fi_cache input) in
  if negb (constantTimeHexEqual (pc_seal (fi_cache input)) expectedSeal) then Some "cache_seal_invalid"
  else if num_ltb now (pc_issuedAt cache) then Some "cache_not_yet_valid"
  else if num_leb (pc_expiresAt cache) now then Some "cache_expired"
  else if decide (pc_policyDigest cache ≠ fi_requestedPolicyDigest input) then Some "policy_mismatch"
  else if decide (pc_checkpointHash cache ≠ fi_expectedCheckpointHash input) then Some "checkpoint_mismatch"
  else if negb (fi_proofVerified input) then Some "fresh_proof_required"
  else if decide (str_len (fi_challengeNonce input) < 16)%Z then Some "nonce_too_short"
  else if decide (sha256hex (fi_challengeNonce input) ∈ pc_consumedNonceDigests cache) then Some "nonce_replay"
  else None.

Definition consume_fallback (nonce : string) (w : FallbackWorld N) : FallbackWorld N * exc bool :=
  let '(s, r) := ServerNonceStore_checkAndConsume nonce (fw_now w) (fw_nonceStore w) in (mkFW (fw_now w) s, r).

Definition verifyFallbackAuthorization (input : FallbackAuthorizationInput) :
    proc (FallbackWorld N) (exc FallbackAuthorizationResult) :=
  let* now := match fi_nowMs input with Some n => Done n | None => read (λ w, int (fw_now w)) end in
  match computeCacheSeal (pc_version (fi_cache input)) (pc_body (fi_cache input)) (fi_sealKey input) with
  | Throw e => ethrow e
  | Ret expectedSeal =>
      match fallback_refusal input expectedSeal now with
      | Some e => Done (refused e)
      | None =>
          let+ replay := call (consume_fallback (fi_challengeNonce input)) in
          if (replay : bool) then Done (refused "nonce_replay")
          else eret (mkFallbackResult true (Some (pc_source (pc_body (fi_cache input))))
                      (Some (pc_authorizationContext (pc_body (fi_cache input)))) None)
      end
  end.
End model.

Section correct.
Context `{WC : WebCrypto} {N : Type} `{!NonceBackend N} `{!NonceLaws N}.
Notation W := (FallbackWorld N).

Lemma hex_buffer_hex_of s : hex_buffer (hex_of s) = s.
Proof.
  induction s as [|c s IH]; [done|]. rewrite hex_of_cons. destruct (byte_digits c) as (H1 & H2 & H3).
  cbn [hex_buffer]. rewrite (proj1 (hex_digit_facts _ H1)), (proj1 (hex_digit_facts _ H2)).
  rewrite H3, N2Z.id, IH. f_equal. unfold char_code. apply ascii_N_embedding.
Qed.

Lemma hex_equal_iff seal tag : constantTimeHexEqual seal (hex_of tag) = true ↔ hex_buffer seal = tag.
Proof.
  unfold constantTimeHexEqual. rewrite hex_buffer_hex_of. destruct (decide _) as [Hl|Hl].
  - split; [done|]. by intros <-.
  - by rewrite bool_decide_eq_true.
Qed.

(** What makes a cache authorize a request at a time.  Each of the two bounds of the
    lifetime is enforced on numbers other than NaN only. *)
Record admissible (input : FallbackAuthorizationInput) (now : num) : Prop := {
  ad_sealed : hmac_sha256 (utf8_encode (fi_sealKey input))
    (utf8_encode (canonicalJson (body_value (pc_version (fi_cache input)) (pc_body (fi_cache input))))) =
    Ret (hex_buffer (pc_seal (fi_cache input)));
  ad_begun : now = NaN ∨ pc_issuedAt (pc_body (fi_cache input)) = NaN ∨
    num_leb (pc_issuedAt (pc_body (fi_cache input))) now = true;
  ad_live : pc_expiresAt (pc_body (fi_cache input)) = NaN ∨ now = NaN ∨
    num_ltb now (pc_expiresAt (pc_body (fi_cache input))) = true;
  ad_policy : pc_policyDigest (pc_body (fi_cache input)) = fi_requestedPolicyDigest input;
  ad_checkpoint : pc_checkpointHash (pc_body (fi_cache input)) = fi_expectedCheckpointHash input;
  ad_proof : fi_proofVerified input = true;
  ad_nonce : (16 <= str_len (fi_challengeNonce input))%Z;
  ad_unused : sha256hex (fi_challengeNonce input) ∉ pc_consumedNonceDigests (pc_body (fi_cache input));
}.

Lemma admissible_iff input now : admissible input now ↔
  ∃ seal, computeCacheSeal (pc_version (fi_cache input)) (pc_body (fi_cache input)) (fi_sealKey input) = Ret seal ∧
    fallback_refusal input seal now = None.
Proof.
  unfold computeCacheSeal, fallback_refusal. split.
  - intros [H1 H2%num_ltb_false H2'%num_leb_false H3 H4 H5 H6 H7]. rewrite H1. eexists. split; [done|].
    rewrite (proj2 (hex_equal_iff _ _)) by done. cbn [negb]. rewrite H2, H2'.
    rewrite !decide_False by (lia || naive_solver). by rewrite H5.
  - intros (seal & Hs & Hr). apply exc_bind_Ret in Hs as (tag & Ht & [= <-]).
    destruct (constantTimeHexEqual _ _) eqn:Hc; [|done]. apply hex_equal_iff in Hc. cbn [negb] in Hr.
    destruct (num_ltb _ _) eqn:Hb; [done|]. destruct (num_leb _ _) eqn:Hl; [done|].
    apply num_ltb_false in Hb. apply num_leb_false in Hl.
    destruct (decide (pc_policyDigest _ ≠ _)) as [|Hp]; [done|]. destruct (decide (pc_checkpointHash _ ≠ _)) as [|Hh]; [done|].
    destruct (fi_proofVerified input) eqn:Hv; [|done]. cbn [negb] in Hr.
    destruct (decide (_ < 16)%Z); [done|]. destruct (decide (_ ∈ _)); [done|].
    apply dec_stable in Hp, Hh. split; [by rewrite Ht, Hc|done..|lia|done].
Qed.

Definition granted (input : FallbackAuthorizationInput) : FallbackAuthorizationResult :=
  mkFallbackResult true (Some (pc_source (pc_body (fi_cache input))))
    (Some (pc_authorizationContext (pc_body (fi_cache input)))) None.

(** C38 A fallback grants exactly when the cache carries the HMAC of its own contents
    under the seal key, is issued and not expired at the request's time -- the caller's
    [nowMs], or the clock -- where each comparison holds for any time when one side of
    it is NaN, is for the requested policy and checkpoint, a proof was verified, the
    challenge is long enough and not among the cache's used ones, and the shared store
    accepts it; what it grants is the sealed context.  Nothing else is asked for: no
    credential version is compared. *)
Theorem fallback_grants_iff input w w' r :
  (run (verifyFallbackAuthorization input) w = (w', Ret r) ∧ fr_ok r = true) ↔
  (r = granted input ∧ admissible input (default (int (fw_now w)) (fi_nowMs input)) ∧
   consume_fallback (fi_challengeNonce input) w = (w', Ret false)).
Proof.
  set (now := default (int (fw_now w)) (fi_nowMs input)).
  assert (run (verifyFallbackAuthorization input) w =
    match computeCacheSeal (pc_version (fi_cache input)) (pc_body (fi_cache input)) (fi_sealKey input) with
    | Throw e => (w, Throw e)
    | Ret seal => match fallback_refusal input seal now with
      | Some e => (w, refused e)
      | None => match consume_fallback (fi_challengeNonce input) w with
        | (w1, Ret true) => (w1, refused "nonce_replay")
        | (w1, Ret false) => (w1, Ret (granted input))
        | (w1, Throw e) => (w1, Throw e) end end end) as ->.
  { unfold verifyFallbackAuthorization. rewrite run_bind.
    assert (run (match fi_nowMs input with Some n => Done n | None => read (λ w, int (fw_now w)) end) w = (w, now)) as ->
      by (unfold now; by destruct (fi_nowMs input)).
    destruct (computeCacheSeal _ _ _) as [seal|]; [|done]. destruct (fallback_refusal _ _ _); [done|].
    rewrite run_ebind. cbn. by destruct (consume_fallback _ w) as [w1 [[]|]]. }
  rewrite admissible_iff. destruct (computeCacheSeal _ _ _) as [seal|]; [|naive_solver].
  destruct (fallback_refusal _ _ _) eqn:Hr.
  - split; [by intros [[= <- <-] ?]|]. intros (_ & (x & [= <-] & Hn) & _). congruence.
  - destruct (consume_fallback _ w) as [w1 [[]|]]; split; try (by intros [[= <- <-] ?]); try (by intros (_ & _ & ?)).
    + intros [[= <- <-] _]. split_and!; [done|by exists seal|done].
    + by intros (-> & _ & [= <-]).
Qed.

(** With [nowMs] NaN a cache is admissible at every time of its life, before it and
    after it. *)
Lemma nan_now_ignores_lifetime input now : admissible input now → admissible input NaN.
Proof. intros []. split; auto. Qed.

(** A cache sealed under a key carries the right seal under that key. *)
Lemma sealed_carries_seal input cache : sealPrincipalCache input = Ret cache →
  hmac_sha256 (utf8_encode (si_sealKey input)) (utf8_encode (canonicalJson (body_value (pc_version cache) (pc_body cache)))) =
  Ret (hex_buffer (pc_seal cache)).
Proof.
  unfold sealPrincipalCache. intros (seal & Hs & [= <-])%exc_bind_Ret. apply exc_bind_Ret in Hs as (tag & Ht & [= <-]).
  cbn. by rewrite hex_buffer_hex_of.
Qed.

(** ** One challenge, one fallback *)

(** Between the steps the clock moves forward; other users of the store consume
    nonces of their own choice. *)
Definition fw_env (w w' : W) : Prop :=
  (fw_now w <= fw_now w')%Z ∧
  (fw_nonceStore w' = fw_nonceStore w ∨ ∃ m, (consume_fallback m w).1 = mkFW (fw_now w) (fw_nonceStore w')).

(** The nonce is remembered up to [t], by a clock that does not go back. *)
Definition fw_kept (w w' : W) : Prop :=
  (fw_now w <= fw_now w')%Z ∧ sns_windowMs (fw_nonceStore w') = sns_windowMs (fw_nonceStore w) ∧
  ∀ n t, (fw_now w' <= t)%Z → remembers (sns_backend (fw_nonceStore w)) n t → remembers (sns_backend (fw_nonceStore w')) n t.
#[local] Instance fw_kept_order : PreOrder fw_kept.
Proof.
  split; [by intros w; split_and!|]. intros w1 w2 w3 (T1 & S1 & K1) (T2 & S2 & K2). split_and!; [lia|congruence|].
  intros n t Ht Hn. apply K2; [done|]. apply K1; [lia|done].
Qed.

Lemma consume_kept m w : fw_kept w (consume_fallback m w).1.
Proof.
  unfold consume_fallback, ServerNonceStore_checkAndConsume.
  destruct (checkAndConsume _ _ _ _) as [b r] eqn:Hc. cbn. split_and!; [done|done|]. intros n t Ht Hn.
  assert (b = (checkAndConsume m (sns_windowMs (fw_nonceStore w)) (fw_now w) (sns_backend (fw_nonceStore w))).1) as -> by (by rewrite Hc).
  by apply remembers_stable.
Qed.

Lemma env_kept w w' : fw_env w w' → fw_kept w w'.
Proof.
  intros [Ht [Hs|[m Hm]]].
  - split_and!; [done|by rewrite Hs|]. intros n t _. by rewrite Hs.
  - pose proof (consume_kept m w) as Hk. rewrite Hm in Hk. destruct Hk as (_ & Hw & Hk). split_and!; [done|done|].
    intros n t Ht' Hn. apply Hk; [cbn; lia|done].
Qed.

Definition fallbacks (inputs : list FallbackAuthorizationInput) : list (proc W (exc FallbackAuthorizationResult)) :=
  verifyFallbackAuthorization <$> inputs.

Lemma fallback_kept input : always fw_kept (verifyFallbackAuthorization input).
Proof.
  unfold verifyFallbackAuthorization. apply always_bind; [destruct (fi_nowMs input); [done|by apply always_read]|intros now].
  destruct (computeCacheSeal _ _ _); [|done]. destruct (fallback_refusal _ _ _); [done|].
  apply always_ebind; [apply always_call, consume_kept|]. by intros [].
Qed.

(** The step of a granted fallback that consumes its challenge. *)
Lemma fallback_consumes R input w tr w' r : exec R (verifyFallbackAuthorization input) w tr w' (Ret r) → fr_ok r = true →
  (∃ now, admissible input now) ∧ ∃ s, s ∈ tr ∧ consume_fallback (fi_challengeNonce input) s.1 = (s.2, Ret false).
Proof.
  unfold verifyFallbackAuthorization. intros (now & w1 & t1 & t2 & _ & Hex & ->)%exec_bind_inv Hok.
  destruct (computeCacheSeal _ _ _) as [seal|] eqn:Hs; [|by apply exec_done_inv in Hex as [? _]].
  destruct (fallback_refusal _ _ _) eqn:Hr; [by apply exec_done_inv in Hex as [[= ->] _]|].
  apply exec_ebind_inv in Hex as (replay & w2 & t3 & t4 & (u & _ & Hc & ->)%exec_call_inv & Hex & ->).
  destruct replay; [by apply exec_done_inv in Hex as [[= ->] _]|].
  split; [exists now; apply admissible_iff; by exists seal|]. exists (u, w2). split; [|done].
  apply elem_of_app. right. apply elem_of_app. left. by apply list_elem_of_singleton.
Qed.

Lemma consumed_remembered n w w' : consume_fallback n w = (w', Ret false) →
  remembers (sns_backend (fw_nonceStore w')) n (fw_now w + sns_windowMs (fw_nonceStore w)).
Proof.
  unfold consume_fallback, ServerNonceStore_checkAndConsume. destruct (checkAndConsume _ _ _ _) as [b r] eqn:Hc.
  intros [= <- Hr]. cbn. destruct r as [v|]; [|done]. injection Hr as ->. by eapply accept_remembers.
Qed.

Lemma remembered_refused n w w' t : remembers (sns_backend (fw_nonceStore w)) n t → (fw_now w <= t)%Z →
  consume_fallback n w ≠ (w', Ret false).
Proof.
  unfold consume_fallback, ServerNonceStore_checkAndConsume. intros Hn Ht.
  pose proof (remembered_not_accepted n (sns_windowMs (fw_nonceStore w)) (fw_now w) _ t Hn Ht) as Hx.
  destruct (checkAndConsume _ _ _ _) as [b [v|]]; [|done]. intros [= _ ->]. by apply Hx.
Qed.

(** A challenge is good for one fallback within the store's retention: two
    fallbacks that share the nonce store are granted for one challenge only in a run
    that outlasts the retention, whatever else uses the store in between. *)
Theorem fallback_single_use inputs w tr w' ps' i j input input' r r' :
  pool_run fw_env (fallbacks inputs) w tr w' ps' → i ≠ j →
  inputs !! i = Some input → inputs !! j = Some input' → fi_challengeNonce input = fi_challengeNonce input' →
  ps' !! i = Some (Done (Ret r)) → ps' !! j = Some (Done (Ret r')) → fr_ok r = true → fr_ok r' = true →
  (fw_now w' - fw_now w > sns_windowMs (fw_nonceStore w))%Z.
Proof.
  intros Hrun Hne Hi Hj Heq Hdi Hdj Hoi Hoj.
  assert (Forall (λ e, fw_kept e.2.1 e.2.2) tr) as Hall.
  { eapply Forall_impl; [eapply (pool_always _ fw_kept); [exact Hrun|]|].
    - apply Forall_fmap, Forall_forall. intros o _. apply fallback_kept.
    - intros [[k|] [a c]]; [done|]. apply env_kept. }
  assert (∀ k x y, inputs !! k = Some x → ps' !! k = Some (Done (Ret y)) → fr_ok y = true →
    ∃ s, (Some k, s) ∈ tr ∧ consume_fallback (fi_challengeNonce x) s.1 = (s.2, Ret false)) as Hstep.
  { intros k x y Hk Hd Hok. destruct (pool_exec _ _ _ _ _ _ k (verifyFallbackAuthorization x) (Ret y) Hrun) with (w0 := w) as [w1 Hex];
      [unfold fallbacks; by rewrite list_lookup_fmap, Hk|done|].
    destruct (fallback_consumes _ _ _ _ _ _ Hex Hok) as [_ (s & Hs & Hc)]. exists s. split; [by apply own_step_pool|done]. }
  destruct (Hstep _ _ _ Hi Hdi Hoi) as (si & Ii & Ci), (Hstep _ _ _ Hj Hdj Hoj) as (sj & Ij & Cj). rewrite <-Heq in Cj.
  assert (∀ x y t1 k1 t2 k2 t3, consume_fallback (fi_challengeNonce input) x.1 = (x.2, Ret false) →
    consume_fallback (fi_challengeNonce input) y.1 = (y.2, Ret false) → tr = (t1 ++ (Some k1, x) :: t2 ++ (Some k2, y) :: t3)%list →
    (fw_now w' - fw_now w > sns_windowMs (fw_nonceStore w))%Z) as Hgen.
  { intros x y t1 k1 t2 k2 t3 Cx Cy Htr.
    destruct (pool_rtc fw_kept _ _ _ Hall (pool_chain_from _ _ _ _ _ _ Hrun _ _ _ Htr)) as (T0 & S0 & _).
    destruct (pool_rtc fw_kept _ _ _ Hall (pool_chain _ _ _ _ _ _ Hrun _ _ _ _ _ Htr)) as (T1 & _ & K1). cbn in *.
    assert (fw_kept y.2 w') as (T3 & _ & _).
    { apply (pool_rtc fw_kept tr _ _ Hall). apply (pool_chain_to _ _ _ _ _ _ Hrun (t1 ++ (Some k1, x) :: t2)%list (Some k2, y) t3).
      by rewrite Htr, <-app_assoc. }
    pose proof (consume_kept (fi_challengeNonce input) y.1) as (T2 & _ & _). rewrite Cy in T2. cbn in T2.
    destruct (decide (fw_now y.1 <= fw_now x.1 + sns_windowMs (fw_nonceStore x.1))%Z) as [Hle|]; [|rewrite S0 in *; lia].
    exfalso. apply (remembered_refused (fi_challengeNonce input) y.1 y.2 (fw_now x.1 + sns_windowMs (fw_nonceStore x.1))%Z); [|done..].
    apply K1; [done|]. by apply consumed_remembered. }
  destruct (trace_order _ _ _ _ _ Hne Ii Ij) as (t1 & t2 & t3 & [Htr|Htr]); [exact (Hgen _ _ _ _ _ _ _ Ci Cj Htr)|exact (Hgen _ _ _ _ _ _ _ Cj Ci Htr)].
Qed.
End correct.
