(* ===== verification/ReplicaReceiver.v ===== *)
(** * The replica receiver (packages/server/src/replica-receiver.ts)

    [handleReplicaIngest] authenticates an envelope, validates its operation and
    applies it under the guard.  The replica's store is reached through the
    [PairStore] operations an operation maps to, as a class over JavaScript
    values: what a client sends is stored as it is. *)

From S2P Require Import Prelude JsNum Encoding Json JsText Crypto OutboxContract ReplicaEnvelope.
From stdpp Require Import base strings list.
From Stdlib Require Import ZArith Lia.

Local Open Scope string_scope.

Definition MAX_TOKEN_LEN : Z := 256.
Definition VALID_SCOPES : list string := ["read"; "read-write"; "admin"].
Definition VALID_MODES : list string := ["development"; "production"].
Definition VALID_STATUSES : list string := ["active"; "locked"; "expired"; "rotated"; "revoked"].
Definition VALID_PAIR_KINDS : list string := ["legitimate"; "ghost"].
Definition VALID_CANARY_CLASSES : list string := ["env_file"; "docs"; "registry_exfil"].

(** ** Validation *)

(** [set.has(v)] for a set of strings *)
Definition set_has (l : list string) (v : jsval) : bool :=
  match v with JStr s => bool_decide (s ∈ l) | _ => false end.
(** [/^[A-Za-z0-9_-]{lo,hi}$/.test(v)] on a string *)
Definition url_chars (lo hi : Z) (v : jsval) : bool :=
  match v with
  | JStr s => (all_chars is_b64url_char s && bool_decide (lo <= str_len s)%Z && bool_decide (str_len s <= hi)%Z)%bool
  | _ => false
  end.
Definition safe_nonneg (v : jsval) : bool :=
  match js_safe_int v with Some n => bool_decide (0 <= n)%Z | None => false end.
Definition is_undefined (v : jsval) : bool := bool_decide (v = JUndef).

Definition isValidPairId : jsval → bool := url_chars 1 64.

Definition isValidJwk (jwk : jsval) : bool :=
  match jwk with
  | JObj _ =>
      (bool_decide (field jwk "kty" = JStr "EC") && bool_decide (field jwk "crv" = JStr "P-256") &&
       url_chars 43 43 (field jwk "x") && url_chars 43 43 (field jwk "y"))%bool
  | _ => false
  end.

Definition isValidRegistration (value : jsval) : bool :=
  match value with
  | JObj _ =>
      (match field value "name" with JStr s => bool_decide (1 <= str_len s)%Z && bool_decide (str_len s <= 128)%Z | _ => false end &&
       set_has VALID_SCOPES (field value "scope") && set_has VALID_MODES (field value "mode") &&
       url_chars 43 43 (field value "secretHash") && isValidJwk (field value "pubJwk"))%bool
  | _ => false
  end.

Definition isValidStoredPair (value : jsval) : bool :=
  if negb (isValidRegistration value) then false else
  let kind := match field value "kind" with JUndef | JNull => JStr "legitimate" | k => k end in
  let canaryIsValid :=
    if bool_decide (kind = JStr "ghost") then set_has VALID_CANARY_CLASSES (field value "canaryClass")
    else is_undefined (field value "canaryClass") in
  (isValidPairId (field value "id") && set_has VALID_STATUSES (field value "status") &&
   safe_nonneg (field value "created") &&
   (bool_decide (field value "lastActive" = JNull) || safe_nonneg (field value "lastActive")) &&
   safe_nonneg (field value "requests") && safe_nonneg (field value "failedSigs") &&
   (is_undefined (field value "cumulativeFailures") ||
    match field value "cumulativeFailures" with JNum (Fin d) => dec_geZ d 0 | _ => false end) &&
   (is_undefined (field value "firstFailureAt") || bool_decide (field value "firstFailureAt" = JNull) ||
    safe_nonneg (field value "firstFailureAt")) &&
   (is_undefined (field value "expiresAt") || safe_nonneg (field value "expiresAt")) &&
   (is_undefined (field value "maxRequests") || safe_nonneg (field value "maxRequests")) &&
   set_has VALID_PAIR_KINDS kind && canaryIsValid)%bool.

Definition valid_token (token : string) : bool :=
  (bool_decide (token ≠ EmptyString) && bool_decide (str_len token <= MAX_TOKEN_LEN)%Z)%bool.

Definition validateReplicaOp (body : jsval) : string + ReplicaOp :=
  match body with
  | JObj _ | JArr _ =>
      match field body "op" with
      | JStr op =>
          if decide (op = "set") then
            if isValidStoredPair (field body "pair") then inr (OpSet (field body "pair")) else inl "invalid_set"
          else if decide (op = "delete") then
            if isValidPairId (field body "pairId") then inr (OpDelete (js_str (field body "pairId"))) else inl "invalid_delete"
          else if decide (op = "setPending") then
            match field body "token" with
            | JStr token =>
                if negb (valid_token token) then inl "invalid_pending_token"
                else if negb (isValidRegistration (field body "registration")) then inl "invalid_pending_registration"
                else match field body "requestedAt" with
                     | JNum (Fin d) => inr (OpSetPending token (field body "registration") (Fin d))
                     | _ => inl "invalid_pending_requestedAt"
                     end
            | _ => inl "invalid_pending_token"
            end
          else if decide (op = "deletePending") then
            match field body "token" with
            | JStr token => if valid_token token then inr (OpDeletePending token) else inl "invalid_pending_token"
            | _ => inl "invalid_pending_token"
            end
          else inl "unknown_op"
      | _ => inl "unknown_op"
      end
  | _ => inl "invalid_body"
  end.

(** ** Application *)

Class ReplicaStore (S : Type) := {
  rs_set : jsval → S → S * exc unit;
  rs_delete : string → S → S * exc unit;
  rs_setPending : string → jsval → num → S → S * exc unit;
  rs_deletePending : string → S → S * exc unit;
}.

(** [error]: a code of the receiver, or the message of a caught exception. *)
Inductive ApplyError := Code (code : string) | MessageOf (e : error).
Record ReplicaApplyResult := mkApplyResult { ra_ok : bool; ra_error : option ApplyError }.

Section receiver.
Context `{WC : WebCrypto} {S : Type} `{!ReplicaStore S}.

Definition replica_op (op : ReplicaOp) : S → S * exc unit :=
  match op with
  | OpSet p => rs_set p
  | OpDelete pairId => rs_delete pairId
  | OpSetPending token registration requestedAt => rs_setPending token registration requestedAt
  | OpDeletePending token => rs_deletePending token
  end.
Definition applyReplicaOp (op : ReplicaOp) (s : S) : S * ReplicaApplyResult :=
  match replica_op op s with
  | (s, Ret _) => (s, mkApplyResult true None)
  | (s, Throw e) => (s, mkApplyResult false (Some (MessageOf e)))
  end.

(** [authorizeReplica(headers, envelope, expectedKey)] *)
Definition authorizeReplica (headers envelope : jsval) (expectedKey : string) : bool :=
  verifyReplicaEnvelopeSignature envelope (field headers "x-replica-signature") expectedKey.

Definition sequence_error (d : ReplicaApplyDisposition) : string :=
  "replica_sequence_" +:+
  match d with d_applied => "applied" | d_duplicate => "duplicate" | d_conflict => "conflict"
             | d_stale => "stale" | d_gap => "gap" | d_apply_failed => "apply_failed" end.

(** The receiver's state: the guard and the store. *)
Definition Replica : Type := MemoryReplicaApplyGuard * S.

(** [handleReplicaIngest]; the checks await nothing, the rest is one turn of the
    guard. *)
Definition handleReplicaIngest (headers body : jsval) (expectedKey expectedSourceId : string) (nowMs : Z) (r : Replica)
    : Replica * (Z * ReplicaApplyResult) :=
  match validateReplicaEnvelope body expectedSourceId nowMs DEFAULT_REPLICA_FRESHNESS_MS with
  | inl error => (r, (400%Z, mkApplyResult false (Some (Code error))))
  | inr envelope =>
      if negb (authorizeReplica headers envelope expectedKey)
      then (r, (401%Z, mkApplyResult false (Some (Code "unauthorized"))))
      else match validateReplicaOp (field envelope "op") with
      | inl error => (r, (400%Z, mkApplyResult false (Some (Code error))))
      | inr op =>
          let '(g, s) := r in
          let failed := (applyReplicaOp op s).2 in
          let '(g, s, disposition) :=
            applyIfNext expectedSourceId (default 0%Z (js_safe_int (field envelope "sequence"))) (replicaOperationDigest op)
              (λ s, let '(s, res) := applyReplicaOp op s in (s, ra_ok res)) g s in
          ((g, s),
           match disposition with
           | d_applied => (200%Z, mkApplyResult true None)
           | d_duplicate => (200%Z, mkApplyResult true (Some (Code "duplicate_ignored")))
           | d_apply_failed => (500%Z, failed)
           | d => (409%Z, mkApplyResult false (Some (Code (sequence_error d))))
           end)
      end
  end.
End receiver.
Arguments Replica S : clear implicits.

(** ** Validation survives the wire

    The receiver validates what it has parsed: the same values, with the
    properties of objects in another order. *)

Definition wire_op (op : ReplicaOp) : ReplicaOp :=
  match op with
  | OpSet p => OpSet (jreorder p)
  | OpSetPending token registration requestedAt => OpSetPending token (jreorder registration) requestedAt
  | op => op
  end.

Lemma field_jreorder v k : keys_distinct v → field (jreorder v) k = jreorder (field v k).
Proof. destruct v; try done. intros [Hnd _]%keys_distinct_obj. by apply field_reorder. Qed.
Lemma field_distinct v k : keys_distinct v → keys_distinct (field v k).
Proof.
  destruct v; try done. intros [_ Hl]%keys_distinct_obj. unfold field. cbn.
  destruct (om_get k l) as [x|] eqn:Hx; [|done]. apply om_get_Some_elem in Hx.
  rewrite Forall_forall in Hl. by apply (Hl (k, x)).
Qed.

(** Tests that look only at scalars do not see the order of properties. *)
Lemma jreorder_scalar v c : is_nested c = false → jreorder v = c ↔ v = c.
Proof. intros Hc. destruct v, c; try done. Qed.
Lemma is_scalar_reorder v c : is_nested c = false → bool_decide (jreorder v = c) = bool_decide (v = c).
Proof. intros Hc. apply bool_decide_ext. by apply jreorder_scalar. Qed.
Lemma set_has_reorder l v : set_has l (jreorder v) = set_has l v.
Proof. by destruct v. Qed.
Lemma url_chars_reorder lo hi v : url_chars lo hi (jreorder v) = url_chars lo hi v.
Proof. by destruct v. Qed.
Lemma safe_nonneg_reorder v : safe_nonneg (jreorder v) = safe_nonneg v.
Proof. by destruct v. Qed.
Lemma is_undefined_reorder v : is_undefined (jreorder v) = is_undefined v.
Proof. by apply is_scalar_reorder. Qed.

Lemma isValidJwk_reorder v : keys_distinct v → isValidJwk (jreorder v) = isValidJwk v.
Proof.
  intros Hv. destruct v as [| | | | | |l]; try done. unfold isValidJwk. rewrite !field_jreorder by done.
  rewrite !is_scalar_reorder, !url_chars_reorder by done. done.
Qed.

Lemma isValidRegistration_reorder v : keys_distinct v → isValidRegistration (jreorder v) = isValidRegistration v.
Proof.
  intros Hv. destruct v as [| | | | | |l]; try done. unfold isValidRegistration. rewrite !field_jreorder by done.
  rewrite !set_has_reorder, !url_chars_reorder, isValidJwk_reorder by by apply field_distinct.
  by destruct (field (JObj l) "name").
Qed.

Lemma isValidStoredPair_reorder v : keys_distinct v → isValidStoredPair (jreorder v) = isValidStoredPair v.
Proof.
  intros Hv. unfold isValidStoredPair. rewrite isValidRegistration_reorder by done. unfold isValidPairId.
  rewrite !field_jreorder by done.
  rewrite !is_scalar_reorder, !set_has_reorder, !url_chars_reorder, !safe_nonneg_reorder, !is_undefined_reorder by done.
  destruct (isValidRegistration v); [|done]. cbn [negb].
  assert (∀ k, match jreorder k with JUndef | JNull => JStr "legitimate" | k => k end =
    jreorder (match k with JUndef | JNull => JStr "legitimate" | k => k end)) as Hkind by by intros [].
  rewrite Hkind. clear Hkind.
  rewrite set_has_reorder, is_scalar_reorder by done. by destruct (field v "cumulativeFailures"), (field v "kind").
Qed.

(** An operation the receiver would accept is accepted after the wire. *)
Lemma validate_wire op : keys_distinct (op_value op) → validateReplicaOp (op_value op) = inr op →
  validateReplicaOp (jreorder (op_value op)) = inr (wire_op op).
Proof.
  intros Hd. assert (∀ w, match jreorder (op_value op) with JObj _ | JArr _ => w | _ => inl "invalid_body" end = (w : string + ReplicaOp)) as Hshape
    by by destruct op.
  unfold validateReplicaOp. rewrite Hshape. clear Hshape. rewrite !field_jreorder by done.
  pose proof (λ k, field_distinct _ k Hd) as Hf.
  destruct op as [p|pairId|token reg at_|token].
  - change (field (op_value (OpSet p)) "op") with (JStr "set"). change (field (op_value (OpSet p)) "pair") with p.
    cbn [op_value jreorder]. rewrite isValidStoredPair_reorder by exact (Hf "pair").
    rewrite decide_True by done. by destruct (isValidStoredPair p).
  - change (field (op_value (OpDelete pairId)) "op") with (JStr "delete").
    change (field (op_value (OpDelete pairId)) "pairId") with (JStr pairId). done.
  - change (field (op_value (OpSetPending token reg at_)) "op") with (JStr "setPending").
    change (field (op_value (OpSetPending token reg at_)) "token") with (JStr token).
    change (field (op_value (OpSetPending token reg at_)) "registration") with reg.
    change (field (op_value (OpSetPending token reg at_)) "requestedAt") with (JNum at_).
    cbn [op_value jreorder]. rewrite isValidRegistration_reorder by exact (Hf "registration").
    rewrite !decide_False by done. rewrite decide_True by done.
    destruct (valid_token token), (isValidRegistration reg), at_; done.
  - change (field (op_value (OpDeletePending token)) "op") with (JStr "deletePending").
    change (field (op_value (OpDeletePending token)) "token") with (JStr token). done.
Qed.

(** The digest of an operation is the same on both sides. *)
Lemma digest_wire `{WebCrypto} op : keys_distinct (op_value op) →
  replicaOperationDigest (wire_op op) = replicaOperationDigest op.
Proof.
  intros Hd. unfold replicaOperationDigest, canonicalJson. do 4 f_equal.
  assert (∀ l l' : list (string * jsval), sortV_field <$> l = sortV_field <$> l' → sortValue (JObj l) = sortValue (JObj l')) as Hl
    by (intros l l' Heq; by rewrite !sortValue_obj, Heq).
  pose proof (λ k, field_distinct _ k Hd) as Hf.
  destruct op as [p| |token reg at_|]; try done; cbn [wire_op op_value]; apply Hl; csimpl.
  - by rewrite sortValue_reorder by exact (Hf "pair").
  - by rewrite sortValue_reorder by exact (Hf "registration").
Qed.
