(* ===== verification/Replicating.v ===== *)
(** * The replicating store and its replica
    (packages/server/src/replicating-store.ts)

    [Rep] is the world of a primary with its replication queue, of the network
    and of the replica.  A write of a client, the drainer and each delivery of a
    request are processes; the network delivers any posted request any number of
    times at any time, reports any outcome to the sender, and delivers requests of
    its own, which may reuse the signatures it has seen. *)

From S2P Require Import Prelude Proc JsNum Encoding Json JsText Crypto OutboxContract OutboxDigest ReplicaEnvelope ReplicaReceiver.
From stdpp Require Import base strings list.
From Stdlib Require Import ZArith Lia.

Local Open Scope string_scope.
Local Open Scope bpc_scope.

Record ReplicaTarget := mkTarget { rt_sourceId : string; rt_token : string }.
Record ReplicatingStoreOptions := mkReplicatingOptions {
  ro_maxQueue : Z; ro_backoffBaseMs : Z; ro_backoffMaxMs : Z }.
Definition DEFAULTS : ReplicatingStoreOptions := mkReplicatingOptions 5000 1000 30000.

(** [a + 1] on integers up to [2 ^ 53], where the sum rounds back. *)
Definition js_succ (a : Z) : Z := Z.min (a + 1) (2 ^ 53).

Record Rep (P S : Type) := mkRep {
  rp_primary : P;
  rp_replica : Replica S;
  rp_clock : Z;
  rp_sequence : Z;
  rp_queue : list (Z * ReplicaOp);
  rp_draining : bool;
  rp_attempt : Z;
  (** what [onDrop] was told *)
  rp_dropped : list ReplicaOp;
  (** the operations in the order in which they were given their numbers *)
  rp_log : list ReplicaOp;
  (** the requests posted: body and signature *)
  rp_posted : list (string * string);
  (** what the sender is told of each request, and the failures of the sequence source *)
  rp_outcomes : nat → bool;
  rp_faults : nat → option error;
  rp_draws : nat }.
Arguments mkRep {P S}. Arguments rp_primary {P S}. Arguments rp_replica {P S}. Arguments rp_clock {P S}.
Arguments rp_sequence {P S}. Arguments rp_queue {P S}. Arguments rp_draining {P S}. Arguments rp_attempt {P S}.
Arguments rp_dropped {P S}. Arguments rp_log {P S}. Arguments rp_posted {P S}. Arguments rp_outcomes {P S}.
Arguments rp_faults {P S}. Arguments rp_draws {P S}.

Section updates.
Context {P S : Type}.
Implicit Types w : Rep P S.
Definition rp_set_primary p w : Rep P S := mkRep p (rp_replica w) (rp_clock w) (rp_sequence w) (rp_queue w) (rp_draining w) (rp_attempt w) (rp_dropped w) (rp_log w) (rp_posted w) (rp_outcomes w) (rp_faults w) (rp_draws w).
Definition rp_set_replica r w : Rep P S := mkRep (rp_primary w) r (rp_clock w) (rp_sequence w) (rp_queue w) (rp_draining w) (rp_attempt w) (rp_dropped w) (rp_log w) (rp_posted w) (rp_outcomes w) (rp_faults w) (rp_draws w).
Definition rp_set_sequence q l w : Rep P S := mkRep (rp_primary w) (rp_replica w) (rp_clock w) q (rp_queue w) (rp_draining w) (rp_attempt w) (rp_dropped w) l (rp_posted w) (rp_outcomes w) (rp_faults w) (rp_draws w).
Definition rp_set_queue q d w : Rep P S := mkRep (rp_primary w) (rp_replica w) (rp_clock w) (rp_sequence w) q (rp_draining w) (rp_attempt w) d (rp_log w) (rp_posted w) (rp_outcomes w) (rp_faults w) (rp_draws w).
Definition rp_set_drain b a w : Rep P S := mkRep (rp_primary w) (rp_replica w) (rp_clock w) (rp_sequence w) (rp_queue w) b a (rp_dropped w) (rp_log w) (rp_posted w) (rp_outcomes w) (rp_faults w) (rp_draws w).
Definition rp_set_posted m w : Rep P S := mkRep (rp_primary w) (rp_replica w) (rp_clock w) (rp_sequence w) (rp_queue w) (rp_draining w) (rp_attempt w) (rp_dropped w) (rp_log w) m (rp_outcomes w) (rp_faults w) (rp_draws w).
Definition rp_draw w : Rep P S := mkRep (rp_primary w) (rp_replica w) (rp_clock w) (rp_sequence w) (rp_queue w) (rp_draining w) (rp_attempt w) (rp_dropped w) (rp_log w) (rp_posted w) (rp_outcomes w) (rp_faults w) (1 + rp_draws w)%nat.
End updates.

(** The object literal of [push]. *)
Definition envelope_value (sourceId : string) (sequence sentAt : Z) (op : ReplicaOp) : jsval :=
  JObj [("version", JStr REPLICA_ENVELOPE_VERSION); ("sourceId", JStr sourceId); ("sequence", JNum (int sequence));
        ("sentAt", JNum (int sentAt)); ("op", op_value op)].
Definition signature_headers (signature : string) : jsval := JObj [("x-replica-signature", JStr signature)].

Section replicating.
Context `{WC : WebCrypto} {P S : Type} `{!ReplicaStore P} `{!ReplicaStore S}.
Context (target : ReplicaTarget) (opts : ReplicatingStoreOptions).
Notation W := (Rep P S).
Implicit Types w : W.

(** ** The sender *)

(** [MemoryReplicaSequenceSource.next], or the failure of a durable source. *)
Definition next (op : ReplicaOp) : proc W (exc Z) :=
  call (λ w, match rp_faults w (rp_draws w) with
             | Some e => (rp_draw w, Throw e)
             | None => let q := js_succ (rp_sequence w) in
                       (rp_draw (rp_set_sequence q (rp_log w ++ [op])%list w), Ret q)
             end).

(** The rest of [enqueue]: shed the oldest when full, then queue. *)
Definition queue_op (sequence : Z) (op : ReplicaOp) (w : W) : W :=
  let '(q, d) :=
    if decide (ro_maxQueue opts <= Z.of_nat (length (rp_queue w)))%Z
    then match rp_queue w with
         | [] => ([], rp_dropped w)
         | dropped :: q => (q, (rp_dropped w ++ [dropped.2])%list)
         end
    else (rp_queue w, rp_dropped w) in
  rp_set_queue (q ++ [(sequence, op)])%list d w.
Definition enqueue (op : ReplicaOp) : proc W (exc unit) :=
  let+ sequence := next op in
  do* update (queue_op sequence op) in
  eret tt.

(** [set], [delete], [setPending], [deletePending]: the primary first. *)
Definition write (op : ReplicaOp) : proc W (exc unit) :=
  do+ call (λ w, let '(p, r) := replica_op op (rp_primary w) in (rp_set_primary p w, r)) in
  enqueue op.

(** [push]: the request leaves in one step, its outcome arrives in another. *)
Definition post (sequence : Z) (op : ReplicaOp) (w : W) : W * bool :=
  let envelope := envelope_value (rt_sourceId target) sequence (rp_clock w) op in
  match signReplicaEnvelope envelope (rt_token target) with
  | Throw _ => (w, false)
  | Ret signature => (rp_set_posted (rp_posted w ++ [(stringify envelope, signature)])%list w, true)
  end.
Definition outcome (posted : bool) : proc W bool :=
  if posted then call (λ w, (rp_draw w, rp_outcomes w (rp_draws w))) else Done false.
Definition push_op (sequence : Z) (op : ReplicaOp) : proc W bool :=
  let* posted := call (post sequence op) in
  outcome posted.

Definition backoff (attempt : Z) : Z :=
  Z.min (ro_backoffBaseMs opts * 2 ^ Z.min attempt 10) (ro_backoffMaxMs opts).

(** The loop of [drain], [n] rounds of it. *)
Fixpoint drain_queue (n : nat) : proc W unit :=
  match n with
  | O => Done tt
  | Datatypes.S n =>
      let* head := call (λ w, match rp_queue w with
                              | [] => (rp_set_drain false (rp_attempt w) w, None)
                              | h :: _ => (w, Some h)
                              end) in
      match head with
      | None => Done tt
      | Some (sequence, op) =>
          let* ok := push_op sequence op in
          do* update (λ w, if (ok : bool) then rp_set_drain (rp_draining w) 0 (rp_set_queue (tl (rp_queue w)) (rp_dropped w) w)
                           else rp_set_drain (rp_draining w) (rp_attempt w + 1) w) in
          drain_queue n
      end
  end.
Definition drain (n : nat) : proc W unit :=
  let* start := call (λ w, if rp_draining w then (w, false) else (rp_set_drain true (rp_attempt w) w, true)) in
  if (start : bool) then drain_queue n else Done tt.

(** ** The network *)

(** The receiver is handed a request: any posted one, or one of the attacker's. *)
Definition ingest (headers body : jsval) (now : Z) (w : W) : W :=
  rp_set_replica (handleReplicaIngest headers body (rt_token target) (rt_sourceId target) now (rp_replica w)).1 w.
Definition deliver (i : nat) (now : Z) : proc W unit :=
  update (λ w, match rp_posted w !! i with
               | Some (body, signature) =>
                   match parse body with Ret v => ingest (signature_headers signature) v now w | Throw _ => w end
               | None => w
               end).

(** The sender has signed the text that authenticates this envelope. *)
Definition signed_text (envelope : jsval) (w : W) : bool :=
  existsb (λ m, match parse m.1 with
                | Ret v => bool_decide (canonicalReplicaEnvelope v = canonicalReplicaEnvelope envelope)
                | Throw _ => false
                end) (rp_posted w).
(** A request of the attacker's: any headers and any JSON text -- a posted one
    changed at will included -- except one that would take the key: a signature
    that verifies over a text the sender has not signed. *)
Definition inject (headers : jsval) (body : string) (now : Z) (w : W) : W :=
  match parse body with
  | Throw _ => w
  | Ret v => if (authorizeReplica headers v (rt_token target) && negb (signed_text v w))%bool then w
             else ingest headers v now w
  end.

Inductive rep_op :=
  | Write (op : ReplicaOp)
  | Drain (rounds : nat)
  | Deliver (i : nat) (now : Z)
  | Inject (headers : jsval) (body : string) (now : Z).
Definition rep_proc (o : rep_op) : proc W unit :=
  match o with
  | Write op => do* write op in Done tt
  | Drain n => drain n
  | Deliver i now => deliver i now
  | Inject headers body now => update (inject headers body now)
  end.
End replicating.
