(* ===== verification/ReplicaSafety.v ===== *)
(** * What replication guarantees, and what it does not

    [replica_is_prefix]: whatever the network does without the key, the replica holds
    exactly the first operations of the sender's numbering, as they were signed.  [push_accepted]: an honest request
    is accepted and a repeat of it is recognised. *)

From S2P Require Import Prelude Proc JsNum Encoding Json JsText Crypto OutboxContract OutboxDigest ReplicaEnvelope ReplicaReceiver Replicating.
From stdpp Require Import base strings list sets.
From Stdlib Require Import ZArith Lia.

Local Open Scope string_scope.
Local Open Scope bpc_scope.

(** ** Envelopes on the wire *)

Lemma int_jfin z : (0 <= z <= 2 ^ 53)%Z → jfin (JNum (int z)).
Proof.
  intros Hz. cbn. split; [by left|]. unfold dec_finite. cbn [dm dk].
  assert (2 ^ 53 < max_finite)%Z by (vm_compute; reflexivity). unfold pow10. simpl. lia.
Qed.

Lemma envelope_jfin src q t op : jfin (op_value op) → (0 <= q <= 2 ^ 53)%Z → (0 <= t <= 2 ^ 53)%Z →
  jfin (envelope_value src q t op).
Proof.
  intros Hop Hq Ht. unfold envelope_value. apply jfin_obj. split; [apply (bool_decide_unpack _); vm_compute; exact I|].
  repeat apply Forall_cons_2; cbn [snd]; [done|done|by apply int_jfin|by apply int_jfin|done|by apply Forall_nil_2].
Qed.

Lemma envelope_fields src q t op : jfin (op_value op) → (0 <= q <= 2 ^ 53)%Z → (0 <= t <= 2 ^ 53)%Z →
  let v := jreorder (envelope_value src q t op) in
  parse (stringify (envelope_value src q t op)) = Ret v ∧
  field v "version" = JStr REPLICA_ENVELOPE_VERSION ∧ field v "sourceId" = JStr src ∧ field v "sequence" = JNum (int q) ∧
  field v "sentAt" = JNum (int t) ∧ field v "op" = jreorder (op_value op) ∧ (∃ l, v = JObj l) ∧
  canonicalReplicaEnvelope v = canonicalReplicaEnvelope (envelope_value src q t op) ∧
  canonicalJson v = canonicalJson (envelope_value src q t op).
Proof.
  intros Hop Hq Ht. pose proof (envelope_jfin src q t op Hop Hq Ht) as Hfin. pose proof (jfin_distinct _ Hfin) as Hd.
  intros v. subst v. rewrite !field_jreorder by done.
  change (field (envelope_value src q t op) "version") with (JStr REPLICA_ENVELOPE_VERSION).
  change (field (envelope_value src q t op) "sourceId") with (JStr src).
  change (field (envelope_value src q t op) "sequence") with (JNum (int q)).
  change (field (envelope_value src q t op) "sentAt") with (JNum (int t)).
  change (field (envelope_value src q t op) "op") with (op_value op).
  split; [by apply parse_stringify_fin|]. do 5 (split; [done|]). split; [by eexists|].
  split; [|unfold canonicalJson; by rewrite sortValue_reorder].
  unfold canonicalReplicaEnvelope. rewrite !field_jreorder by done. unfold canonicalJson. f_equal.
  rewrite !sortValue_obj. do 2 f_equal. csimpl.
  repeat (rewrite sortValue_reorder by (by apply field_distinct)). done.
Qed.

(** A verified envelope is what [signReplicaEnvelope] signs; reordering does not
    matter. *)
Lemma verify_reorder `{WebCrypto} src q t op sig key : jfin (op_value op) → (0 <= q <= 2 ^ 53)%Z → (0 <= t <= 2 ^ 53)%Z →
  verifyReplicaEnvelopeSignature (jreorder (envelope_value src q t op)) sig key =
  verifyReplicaEnvelopeSignature (envelope_value src q t op) sig key.
Proof.
  intros Hop Hq Ht. destruct (envelope_fields src q t op Hop Hq Ht) as (_ & _ & _ & _ & _ & _ & _ & Hc & _).
  unfold verifyReplicaEnvelopeSignature, signReplicaEnvelope. by rewrite Hc.
Qed.

(** What the receiver makes of an operation it has parsed. *)
Lemma validate_sound op o : keys_distinct (op_value op) → validateReplicaOp (jreorder (op_value op)) = inr o → o = wire_op op.
Proof.
  intros Hd. unfold validateReplicaOp.
  assert (∀ w, match jreorder (op_value op) with JObj _ | JArr _ => w | _ => inl "invalid_body" end = (w : string + ReplicaOp)) as Hshape
    by by destruct op.
  rewrite Hshape. clear Hshape. rewrite !field_jreorder by done.
  destruct op as [p|pairId|token reg at_|token].
  - change (field (op_value (OpSet p)) "op") with (JStr "set"). change (field (op_value (OpSet p)) "pair") with p.
    cbn [jreorder]. rewrite decide_True by done. case_match; [|done]. by intros [= <-].
  - change (field (op_value (OpDelete pairId)) "op") with (JStr "delete").
    change (field (op_value (OpDelete pairId)) "pairId") with (JStr pairId).
    cbn [jreorder]. rewrite decide_False, decide_True by done. case_match; [|done]. by intros [= <-].
  - change (field (op_value (OpSetPending token reg at_)) "op") with (JStr "setPending").
    change (field (op_value (OpSetPending token reg at_)) "token") with (JStr token).
    change (field (op_value (OpSetPending token reg at_)) "registration") with reg.
    change (field (op_value (OpSetPending token reg at_)) "requestedAt") with (JNum at_).
    cbn [jreorder]. rewrite !decide_False, decide_True by done. repeat (case_match; try done). by intros [= <-].
  - change (field (op_value (OpDeletePending token)) "op") with (JStr "deletePending").
    change (field (op_value (OpDeletePending token)) "token") with (JStr token).
    cbn [jreorder]. rewrite !decide_False, decide_True by done. case_match; [|done]. by intros [= <-].
Qed.

Lemma validate_envelope_inr body src now fresh e : validateReplicaEnvelope body src now fresh = inr e →
  e = body ∧ ∃ q, js_safe_int (field body "sequence") = Some q ∧ (1 <= q)%Z.
Proof.
  unfold validateReplicaEnvelope. destruct body; try done. case_decide; [done|]. case_match; [done|].
  destruct (js_safe_int _) as [q|] eqn:Hq; [|done]. destruct (decide (q < 1)%Z); [done|]. repeat (case_match; try done).
  all: intros [= <-]; split; [done|]; exists q; split; [done|lia].
Qed.

(** An envelope that passes the checks has all its members. *)
Lemma validate_envelope_present body src now fresh e : validateReplicaEnvelope body src now fresh = inr e →
  ∀ k, k ∈ (envelope_members body).*1 → field body k ≠ JUndef.
Proof.
  unfold validateReplicaEnvelope. destruct body as [| | | | | |l]; try done. set (body := JObj l). clearbody body.
  destruct (decide (field body "version" ≠ _)) as [|Hv]; [done|]. apply dec_stable in Hv.
  destruct (_ || _)%bool eqn:Hsrc; [done|]. apply orb_false_iff in Hsrc as [Hsrc _]. apply bool_decide_eq_false in Hsrc.
  apply dec_stable in Hsrc. destruct (field body "sequence") as [| | |x| | |] eqn:Hq; try done.
  destruct (js_safe_int (JNum x)) as [q|]; [|done]. destruct (decide (q < 1)%Z); [done|].
  destruct (field body "sentAt") as [| | |[d| |]| | |] eqn:Hs; try done. destruct (dec_far _ _ _); [done|].
  intros Hop k Hk. unfold envelope_members in Hk. csimpl in Hk. rewrite !elem_of_cons, elem_of_nil in Hk.
  destruct Hk as [->|[->|[->|[->|[->|[]]]]]]; rewrite ?Hv, ?Hsrc, ?Hq, ?Hs; try done.
  by destruct (field body "op").
Qed.

(** ** What a signature fixes of an operation

    The operation that is applied is the one that was signed, up to what the
    signed text leaves open: the order of properties, members called
    [__proto__], and an infinite number for [null]. *)
Inductive signed_as : ReplicaOp → ReplicaOp → Prop :=
  | as_set p p' : canonicalJson p = canonicalJson p' → signed_as (OpSet p) (OpSet p')
  | as_delete pairId : signed_as (OpDelete pairId) (OpDelete pairId)
  | as_setPending token r r' at_ : canonicalJson r = canonicalJson r' →
      signed_as (OpSetPending token r at_) (OpSetPending token r' at_)
  | as_deletePending token : signed_as (OpDeletePending token) (OpDeletePending token).

(** The members of an operation, parsed or as it was given. *)
Lemma written_op_field v op k : k ≠ "__proto__" → jparsed v → keys_distinct (op_value op) →
  written v = written (op_value op) → written (field v k) = written (field (op_value op) k).
Proof.
  intros Hk Hv Hd Heq. assert (∃ l, op_value op = JObj l) as [l Hl] by (destruct op; by eexists).
  rewrite Hl in *. destruct (written_obj_inv _ _ Heq) as [l' ->]. apply written_members; [done| | |done].
  - by apply jparsed_obj.
  - apply keys_distinct_obj in Hd. by destruct Hd.
Qed.

Lemma validate_signed v op o : jparsed v → keys_distinct (op_value op) → written v = written (op_value op) →
  validateReplicaOp v = inr o → signed_as o op.
Proof.
  intros Hv Hd Heq. pose proof (λ k Hk, written_op_field v op k Hk Hv Hd Heq) as Hf.
  pose proof (Hf "op" ltac:(done)) as Hop. unfold validateReplicaOp.
  destruct op as [p|pairId|token reg at_|token].
  - apply written_str in Hop. rewrite Hop. pose proof (Hf "pair" ltac:(done)) as Hp. intros H.
    destruct v; try done. rewrite decide_True in H by done. destruct (isValidStoredPair _); [|done]. injection H as <-.
    constructor. by apply written_text.
  - apply written_str in Hop. rewrite Hop. pose proof (Hf "pairId" ltac:(done)) as Hp. apply written_str in Hp. rewrite Hp. intros H.
    destruct v; try done. rewrite decide_False, decide_True in H by done. repeat (case_match; try done); simplify_eq; constructor.
  - apply written_str in Hop. rewrite Hop. pose proof (Hf "token" ltac:(done)) as Ht. apply written_str in Ht. rewrite Ht.
    pose proof (Hf "registration" ltac:(done)) as Hr. pose proof (Hf "requestedAt" ltac:(done)) as Ha. intros H.
    destruct v; try done. rewrite !decide_False, decide_True in H by done. repeat (case_match; try done); simplify_eq.
    all: change (field (op_value (OpSetPending token reg at_)) "requestedAt") with (JNum at_) in Ha;
      destruct at_; simplify_eq/=; constructor; by apply written_text.
  - apply written_str in Hop. rewrite Hop. pose proof (Hf "token" ltac:(done)) as Ht. apply written_str in Ht. rewrite Ht. intros H.
    destruct v; try done. rewrite !decide_False, decide_True in H by done. repeat (case_match; try done); simplify_eq; constructor.
Qed.

(** ** The invariant *)

(** The store's operations run on operations in order. *)
Fixpoint replayed {S} `{!ReplicaStore S} (ops : list ReplicaOp) (s : S) : exc S :=
  match ops with
  | [] => Ret s
  | op :: ops => match replica_op op s with (s, Ret _) => replayed ops s | (_, Throw e) => Throw e end
  end.
Lemma replayed_snoc {S} `{!ReplicaStore S} ops op (s s1 s2 : S) :
  replayed ops s = Ret s1 → replica_op op s1 = (s2, Ret tt) → replayed (ops ++ [op]) s = Ret s2.
Proof.
  revert s. induction ops as [|o ops IH]; intros s; simpl.
  - intros [= ->] H. by rewrite H.
  - destruct (replica_op o s) as [s' [u|e]]; [|done]. apply IH.
Qed.

Section safety.
Context `{WC : WebCrypto} {P S : Type} `{!ReplicaStore P} `{!ReplicaStore S}.
Context (target : ReplicaTarget) (opts : ReplicatingStoreOptions) (s0 : S).
Notation W := (Rep P S).
Implicit Types w : W.
(** An operation of the replica's store that throws has changed nothing. *)
Context (store_all_or_nothing : ∀ op (s s' : S) e, replica_op op s = (s', Throw e) → s' = s).

Definition numbered w (q : Z) (op : ReplicaOp) : Prop :=
  (1 <= q <= 2 ^ 53)%Z ∧ jfin (op_value op) ∧ ((q <= MAX_SAFE_INTEGER)%Z → rp_log w !! (Z.to_nat (q - 1)) = Some op).
Definition clock_ok w : Prop := (0 <= rp_clock w <= 2 ^ 53)%Z.

Definition posted_ok w (m : string * string) : Prop := ∃ q t op,
  numbered w q op ∧ (0 <= t <= 2 ^ 53)%Z ∧ m.1 = stringify (envelope_value (rt_sourceId target) q t op).

(** The replica has applied the first [m] numbered operations, as they were
    signed. *)
Definition replica_ok w : Prop := ∃ (m : nat) applied,
  lastSequence (rt_sourceId target) (rp_replica w).1 = Z.of_nat m ∧ (m <= length (rp_log w))%nat ∧
  Forall2 signed_as applied (take m (rp_log w)) ∧ replayed applied s0 = Ret (rp_replica w).2.

Record rep_inv w : Prop := mkRepInv {
  ri_sequence : rp_sequence w = Z.min (Z.of_nat (length (rp_log w))) (2 ^ 53);
  ri_clock : clock_ok w;
  ri_queue : ∀ q op, (q, op) ∈ rp_queue w → numbered w q op;
  ri_posted : ∀ m, m ∈ rp_posted w → posted_ok w m;
  ri_replica : replica_ok w;
}.

Definition log_grows w w' : Prop := ∃ l, rp_log w' = (rp_log w ++ l)%list.
Definition rep_keeps w w' : Prop := (rep_inv w → rep_inv w') ∧ log_grows w w'.
Lemma log_grows_refl w : log_grows w w.
Proof. exists []. by rewrite app_nil_r. Qed.
Lemma numbered_grows w w' q op : log_grows w w' → numbered w q op → numbered w' q op.
Proof. intros [l Hl] (H1 & H2 & H3). do 2 (split; [done|]). intros Hq. rewrite Hl. by apply lookup_app_l_Some, H3. Qed.

(** A step that keeps the log, the queue and the requests. *)
Definition quiet w w' : Prop :=
  rp_log w' = rp_log w ∧ rp_sequence w' = rp_sequence w ∧ (clock_ok w → clock_ok w') ∧
  (∀ x, x ∈ rp_queue w' → x ∈ rp_queue w) ∧ rp_posted w' = rp_posted w ∧ rp_replica w' = rp_replica w.
Lemma quiet_keeps w w' : quiet w w' → rep_keeps w w'.
Proof.
  intros (Hl & Hs & Hc & Hq & Hp & Hr). assert (log_grows w w') as Hg by (exists []; by rewrite app_nil_r).
  split; [|done]. intros [I1 I2 I3 I4 I5]. split.
  - by rewrite Hl, Hs.
  - auto.
  - intros q op Hin. eapply numbered_grows; [done|]. by apply I3, Hq.
  - rewrite Hp. intros m Hm. destruct (I4 m Hm) as (q & t & op & H1 & H2). exists q, t, op. split; [by eapply numbered_grows|done].
  - unfold replica_ok. by rewrite Hl, Hr.
Qed.

(** Numbering an operation. *)
Lemma next_keeps w op : jfin (op_value op) →
  let w' := rp_draw (rp_set_sequence (js_succ (rp_sequence w)) (rp_log w ++ [op])%list w) in
  rep_keeps w w' ∧ (rep_inv w → numbered w' (js_succ (rp_sequence w)) op).
Proof.
  intros Hop w'. assert (log_grows w w') as Hg by by exists [op].
  assert (rep_inv w → js_succ (rp_sequence w) = Z.min (Z.of_nat (length (rp_log w)) + 1) (2 ^ 53)) as Hseq.
  { intros [I1 _ _ _ _]. unfold js_succ. rewrite I1. lia. }
  split; [split; [|done]|].
  - intros Hw. pose proof (Hseq Hw) as Hq. destruct Hw as [I1 I2 I3 I4 I5]. split.
    + cbn. rewrite Hq, length_app. cbn [length]. lia.
    + exact I2.
    + intros q o Hin. eapply numbered_grows; [done|]. by apply I3.
    + intros m Hm. destruct (I4 m Hm) as (q & t & o & H1 & H2). exists q, t, o. split; [by eapply numbered_grows|done].
    + destruct I5 as (m & applied & H1 & H2 & H3). exists m, applied. split; [done|]. cbn. rewrite length_app, take_app_le by done. split; [lia|done].
  - intros Hw. rewrite (Hseq Hw). split_and!; [lia|lia|done|]. intros Hle. cbn.
    assert (MAX_SAFE_INTEGER < 2 ^ 53)%Z by done. rewrite list_lookup_middle; [done|lia].
Qed.

(** Handing a request to the receiver. *)
Lemma ingest_keeps headers body now w :
  (∀ o q, validateReplicaEnvelope body (rt_sourceId target) now DEFAULT_REPLICA_FRESHNESS_MS = inr body →
     validateReplicaOp (field body "op") = inr o → js_safe_int (field body "sequence") = Some q → (1 <= q)%Z →
     authorizeReplica headers body (rt_token target) = true →
     ∃ op, signed_as o op ∧ rp_log w !! (Z.to_nat (q - 1)) = Some op) →
  rep_keeps w (ingest target headers body now w).
Proof.
  intros Hgen. split; [|exists []; by rewrite app_nil_r].
  intros [I1 I2 I3 I4 (m & applied & Hm & Hle & Hsig & Hrep)]. split; [done..|].
  enough (∃ (m : nat) applied, lastSequence (rt_sourceId target) (rp_replica (ingest target headers body now w)).1 = Z.of_nat m ∧
    (m <= length (rp_log w))%nat ∧ Forall2 signed_as applied (take m (rp_log w)) ∧
    replayed applied s0 = Ret (rp_replica (ingest target headers body now w)).2) by done.
  unfold ingest, handleReplicaIngest. cbn [rp_replica rp_set_replica].
  destruct (validateReplicaEnvelope _ _ _ _) as [e|env] eqn:Henv; [by exists m, applied|].
  pose proof (validate_envelope_inr _ _ _ _ _ Henv) as (-> & q & Hq & Hq1).
  destruct (authorizeReplica _ _ _) eqn:Hauth; [|by exists m, applied]. cbn [negb].
  destruct (validateReplicaOp _) as [e|o] eqn:Hop; [by exists m, applied|].
  destruct (Hgen o q) as (op & Hso & Hlog); [done..|]. rewrite Hq. cbn [default from_option]. unfold from_option, id.
  destruct (rp_replica w) as [g s] eqn:Hrw. cbn [fst snd] in *. unfold applyIfNext. rewrite Hm.
  case_decide as H1; [by exists m, applied|]. case_decide as H2; [by exists m, applied|]. case_decide as H3; [by exists m, applied|].
  assert (q = Z.of_nat m + 1)%Z as -> by lia. unfold applyReplicaOp.
  destruct (replica_op o s) as [s' [[]|e]] eqn:Hst; cbn [fst snd ra_ok].
  - exists (Datatypes.S m), (applied ++ [o])%list. unfold lastSequence. rewrite om_get_set. replace (Z.to_nat (Z.of_nat m + 1 - 1)) with m in Hlog by lia.
    split; [lia|]. split; [by apply lookup_lt_Some in Hlog|]. rewrite (take_S_r _ _ op) by done.
    split; [by apply Forall2_app; [done|repeat constructor]|by eapply replayed_snoc].
  - apply store_all_or_nothing in Hst as ->. by exists m, applied.
Qed.

(** A request whose signed text is that of a posted one carries the operation and
    the number of the posted one. *)
Lemma text_ingest headers v m now w : rep_inv w → m ∈ rp_posted w → jparsed v →
  (∃ u, parse m.1 = Ret u ∧ canonicalReplicaEnvelope u = canonicalReplicaEnvelope v) →
  rep_keeps w (ingest target headers v now w).
Proof.
  intros Hw Hm Hv (u & Hu & Htext). apply ingest_keeps. intros o q' Henv Hval Hq' _ _.
  destruct (ri_posted _ Hw _ Hm) as (q & t & op & (Hq & Hfin & Hlog) & Ht & Hb).
  destruct (envelope_fields (rt_sourceId target) q t op) as (Hp & Eversion & Esource & Eseq & Esent & Eop & _); [done|lia|done|].
  rewrite Hb, Hp in Hu. injection Hu as <-. set (u := jreorder (envelope_value (rt_sourceId target) q t op)) in *.
  assert (jparsed u) as Hup by by eapply parse_parsed.
  pose proof (envelope_text_inj u v Hup Hv) as Hinj.
  assert (∀ k, k ∈ (envelope_members u).*1 → field u k ≠ JUndef ∧ field v k ≠ JUndef) as Hdef.
  { intros k Hk. split; [|by eapply validate_envelope_present].
    unfold envelope_members in Hk. csimpl in Hk. rewrite !elem_of_cons, elem_of_nil in Hk.
    destruct Hk as [->|[->|[->|[->|[->|[]]]]]]; rewrite ?Eop, ?Esent, ?Eseq, ?Esource, ?Eversion; [|done..]. by destruct op. }
  specialize (Hinj Hdef Htext). exists op.
  assert ("sequence" ∈ (envelope_members u).*1 ∧ "op" ∈ (envelope_members u).*1) as [Ks Ko]
    by (split; [do 2 right|]; left).
  pose proof (Hinj _ Ks) as Hs. rewrite Eseq in Hs. symmetry in Hs. apply written_fin in Hs.
  rewrite Hs in Hq'. apply js_safe_int_Some in Hq' as [[= <-] Hsafe]. split.
  - pose proof (Hinj _ Ko) as Hop. rewrite Eop in Hop. pose proof (jfin_distinct _ Hfin) as Hd.
    assert (written (jreorder (op_value op)) = written (op_value op)) as Hr by (unfold written; by rewrite sortValue_reorder).
    eapply validate_signed; [|exact Hd|by rewrite <-Hop, Hr|exact Hval].
    destruct (jparsed_field v "op" Hv) as [Hun|]; [|done]. by rewrite Hun in Hval.
  - apply Hlog. unfold is_safe_integer in Hsafe. by btrue.
Qed.

(** ** The processes *)

Lemma rep_keeps_refl w : rep_keeps w w.
Proof. split; [done|apply log_grows_refl]. Qed.
Lemma rep_keeps_trans w1 w2 w3 : rep_keeps w1 w2 → rep_keeps w2 w3 → rep_keeps w1 w3.
Proof. intros [H1 [l1 E1]] [H2 [l2 E2]]. split; [auto|]. exists (l1 ++ l2)%list. by rewrite E2, E1, <-app_assoc. Qed.

Definition safe {C} (p : proc W C) (Q : C → W → Prop) w : Prop :=
  wpg rep_keeps rep_keeps p (λ c w', rep_inv w' ∧ Q c w') w.
Lemma safe_bind {C D} (p : proc W C) (k : C → proc W D) Q Q' w :
  safe p Q' w → (∀ c w', rep_inv w' → Q' c w' → safe (k c) Q w') → safe (pbind p k) Q w.
Proof. intros Hp Hk. apply wpg_bind. eapply wpg_mono; [|exact Hp]. intros c w' [Hw HQ]. by apply Hk. Qed.
Lemma safe_ret {C} (c : C) (Q : C → W → Prop) w : rep_inv w → Q c w → safe (Done c) Q w.
Proof. by split. Qed.
Lemma safe_call {C} (f : W → W * C) (Q : C → W → Prop) w : rep_inv w →
  (∀ w1, rep_inv w1 → rep_keeps w w1 → rep_keeps w1 (f w1).1 ∧ Q (f w1).2 (f w1).1) → safe (call f) Q w.
Proof.
  intros Hw H. apply wpg_call. intros w1 HK. destruct (H w1 (proj1 HK Hw) HK) as [HK' HQ].
  split; [done|]. split; [by apply HK', HK|done].
Qed.
Lemma safe_update (f : W → W) w : rep_inv w → (∀ w1, rep_inv w1 → rep_keeps w w1 → rep_keeps w1 (f w1)) →
  safe (update f) (λ _ _, True) w.
Proof. intros Hw H. apply safe_call; [done|]. intros w1 Hw1 HK. split; [by apply H|done]. Qed.

Ltac quietly := apply quiet_keeps; unfold quiet; cbn; split_and!; done || auto.

Lemma queue_keeps q op w : numbered w q op → rep_keeps w (queue_op opts q op w).
Proof.
  intros Hn. split; [|exists []; unfold queue_op; destruct (decide _); [destruct (rp_queue w) as [|x0 q0]|]; by rewrite app_nil_r].
  intros [I1 I2 I3 I4 I5].
  assert (∀ q' op', (q', op') ∈ rp_queue (queue_op opts q op w) → (q', op') ∈ rp_queue w ∨ (q', op') = (q, op)) as Hin.
  { intros q' op' H. unfold queue_op in H. destruct (decide _); [destruct (rp_queue w) as [|x0 q0]|]; cbn [rp_queue rp_set_queue] in H;
      apply elem_of_app in H as [H|H%list_elem_of_singleton]; (by right) || left; [done|by apply list_elem_of_further|done]. }
  assert (rp_log (queue_op opts q op w) = rp_log w ∧ rp_sequence (queue_op opts q op w) = rp_sequence w ∧
    rp_clock (queue_op opts q op w) = rp_clock w ∧ rp_posted (queue_op opts q op w) = rp_posted w ∧
    rp_replica (queue_op opts q op w) = rp_replica w) as (E1 & E2 & E3 & E4 & E5) by (unfold queue_op; destruct (decide _); [destruct (rp_queue w) as [|x0 q0]|]; done).
  split; unfold clock_ok, posted_ok, replica_ok, numbered in *; rewrite ?E1, ?E2, ?E3, ?E4, ?E5; try done.
  intros q' op' H. apply Hin in H as [H|H]; [by apply I3|]. injection H as -> ->. done.
Qed.

Lemma post_keeps q op w : clock_ok w → numbered w q op → rep_keeps w (post target q op w).1.
Proof.
  intros Hc Hn. unfold post. destruct (signReplicaEnvelope _ _) as [sig|e]; [|apply rep_keeps_refl]. cbn [fst].
  split; [|exists []; by rewrite app_nil_r]. intros [I1 I2 I3 I4 I5]. split; try done.
  intros m [Hm| ->%list_elem_of_singleton]%elem_of_app; [by apply I4|]. by exists q, (rp_clock w), op.
Qed.

Lemma rep_write_safe op w : jfin (op_value op) → rep_inv w → safe (write opts op) (λ _ _, True) w.
Proof.
  intros Hop Hw. unfold write, ebind. eapply (safe_bind _ _ _ (λ _ _, True)).
  { apply safe_call; [done|]. intros w1 _ _. destruct (replica_op op (rp_primary w1)) as [p r]. split; [quietly|done]. }
  intros [u|e] w1 Hw1 _; [|by apply safe_ret]. unfold enqueue, ebind.
  eapply (safe_bind _ _ _ (λ r w', match r with Ret q => numbered w' q op | Throw _ => True end)).
  { apply safe_call; [done|]. intros w2 Hw2 _. destruct (rp_faults w2 (rp_draws w2)); [split; [quietly|done]|].
    cbn [fst snd]. destruct (next_keeps w2 op Hop) as [HK HN]. split; [exact HK|by apply HN]. }
  intros [q|e] w2 Hw2 Hn; [|by apply safe_ret].
  eapply (safe_bind _ _ _ (λ _ _, True)); [|intros; by apply safe_ret].
  apply safe_update; [done|]. intros w3 Hw3 HK. apply queue_keeps. by eapply numbered_grows; [apply HK|].
Qed.

Lemma drain_queue_safe n w : rep_inv w → safe (drain_queue target n) (λ _ _, True) w.
Proof.
  revert w. induction n as [|n IH]; intros w Hw; [by apply safe_ret|]. cbn [drain_queue].
  eapply (safe_bind _ _ _ (λ h w', match h with Some (q, op) => numbered w' q op | None => True end)).
  { apply safe_call; [done|]. intros w1 Hw1 _. destruct (rp_queue w1) as [|[q op] l] eqn:E; cbn [fst snd]; (split; [|]).
    - quietly.
    - done.
    - apply rep_keeps_refl.
    - apply ri_queue; [done|]. rewrite E. apply list_elem_of_here. }
  intros [[q op]|] w1 Hw1 Hn; [|by apply safe_ret].
  eapply (safe_bind _ _ _ (λ _ _, True)).
  { unfold push_op. eapply (safe_bind _ _ _ (λ _ _, True)).
    - apply safe_call; [done|]. intros w2 Hw2 HK. split; [|done]. apply post_keeps; [apply Hw2|]. by eapply numbered_grows; [apply HK|].
    - intros [] w2 Hw2 _; [|by apply safe_ret]. apply safe_call; [done|]. intros w3 _ _. split; [quietly|done]. }
  intros ok w2 Hw2 _. eapply (safe_bind _ _ _ (λ _ _, True)); [|intros; by apply IH].
  apply safe_update; [done|]. intros w3 _ _. destruct ok; [|quietly].
  apply quiet_keeps. unfold quiet; cbn. split_and!; try done. intros x Hx. destruct (rp_queue w3); [done|by apply list_elem_of_further].
Qed.

Lemma rep_drain_safe n w : rep_inv w → safe (drain target n) (λ _ _, True) w.
Proof.
  intros Hw. unfold drain. eapply (safe_bind _ _ _ (λ _ _, True)).
  { apply safe_call; [done|]. intros w1 _ _. destruct (rp_draining w1); (split; [|done]); [apply rep_keeps_refl|quietly]. }
  intros [] w1 Hw1 _; [by apply drain_queue_safe|by apply safe_ret].
Qed.

Lemma rep_deliver_safe i now w : rep_inv w → safe (deliver target i now) (λ _ _, True) w.
Proof.
  intros Hw. apply safe_update; [done|]. intros w1 Hw1 _.
  destruct (rp_posted w1 !! i) as [[body sig]|] eqn:Hi; [|apply rep_keeps_refl].
  apply list_elem_of_lookup_2 in Hi. destruct (parse body) as [v|e] eqn:Hp; [|apply rep_keeps_refl].
  eapply text_ingest; [done|exact Hi|by eapply parse_parsed|by exists v].
Qed.

Lemma inject_safe headers body now w : rep_inv w → safe (update (inject target headers body now)) (λ _ _, True) w.
Proof.
  intros Hw. apply safe_update; [done|]. intros w1 Hw1 _. unfold inject.
  destruct (parse body) as [v|e] eqn:Hp; [|apply rep_keeps_refl].
  destruct (authorizeReplica headers v (rt_token target)) eqn:Ha.
  2:{ apply ingest_keeps. rewrite Ha. by intros. }
  destruct (signed_text v w1) eqn:Hs; [|apply rep_keeps_refl]. unfold signed_text in Hs.
  apply existsb_exists in Hs as (m & Hm & Hs). apply list_elem_of_In in Hm.
  destruct (parse m.1) as [u|e] eqn:Hu; [|done]. apply bool_decide_eq_true in Hs.
  eapply text_ingest; [done|exact Hm|by eapply parse_parsed|by exists u].
Qed.

(** A primary and a replica that start together. *)
Definition started w : Prop :=
  rp_log w = [] ∧ rp_sequence w = 0%Z ∧ rp_queue w = [] ∧ rp_posted w = [] ∧ clock_ok w ∧
  lastSequence (rt_sourceId target) (rp_replica w).1 = 0%Z ∧ (rp_replica w).2 = s0.
Lemma started_inv w : started w → rep_inv w.
Proof.
  intros (Hl & Hs & Hq & Hp & Hc & Hg & Hr). split.
  - by rewrite Hl, Hs.
  - done.
  - rewrite Hq. by intros ? ? ?%not_elem_of_nil.
  - rewrite Hp. by intros ? ?%not_elem_of_nil.
  - exists 0%nat, []. rewrite Hl. simpl. rewrite Hr. split_and!; [done|lia|constructor|done].
Qed.

(** Every process whose payloads are JSON data is safe. *)
Definition json_payload (o : rep_op) : Prop :=
  match o with Write op => jfin (op_value op) | _ => True end.
Lemma rep_proc_safe o w : json_payload o → rep_inv w → safe (rep_proc target opts o) (λ _ _, True) w.
Proof.
  destruct o as [op|n|i now|headers body now]; intros Ho Hw.
  - eapply (safe_bind _ _ _ (λ _ _, True)); [by apply rep_write_safe|]. intros. by apply safe_ret.
  - by apply rep_drain_safe.
  - by apply rep_deliver_safe.
  - by apply inject_safe.
Qed.

(** C15 The replica is a prefix of the source.  Clients write, drainers push, the
    network loses, repeats, delays and reorders the posted requests, lies about
    their outcome, and delivers requests of its own -- altered and spliced ones,
    with any headers -- short of forging a signature over a text the sender never
    signed, in any interleaving.  In every state reached the replica's store is its
    initial state with the first [m] numbered operations applied, in the order of
    their numbers, each once and as it was signed, and [m] is what its guard says. *)
Theorem replica_is_prefix ops w tr w' ps' : started w → Forall json_payload ops →
  pool_run quiet (rep_proc target opts <$> ops) w tr w' ps' →
  ∃ (m : nat) applied, lastSequence (rt_sourceId target) (rp_replica w').1 = Z.of_nat m ∧ (m <= length (rp_log w'))%nat ∧
    Forall2 signed_as applied (take m (rp_log w')) ∧ replayed applied s0 = Ret (rp_replica w').2.
Proof.
  intros Hstart Hhon Hrun. pose proof (started_inv _ Hstart) as Hw.
  apply (pool_run_mono _ rep_keeps) in Hrun; [|exact quiet_keeps].
  assert (rep_keeps w w') as HK; [|by apply HK].
  assert (PreOrder rep_keeps) by (split; [exact rep_keeps_refl|intros ???; apply rep_keeps_trans]).
  apply (pool_rtc rep_keeps tr); [|by eapply pool_chain_all].
  refine (proj1 (pool_guarantee rep_keeps rep_keeps (λ _ _ _, True) _ w tr w' ps' rep_keeps_trans _ rep_keeps_refl _ Hrun _)); [done|done|].
  intros i p Hi. rewrite list_lookup_fmap in Hi. destruct (ops !! i) as [o|] eqn:Ho; [|done]. injection Hi as <-.
  eapply wpg_mono; [|apply rep_proc_safe; [|done]]; [done|]. by eapply Forall_lookup_1.
Qed.
End safety.

(** ** Honest requests are accepted *)

Section accepted.
Context `{WC : WebCrypto} `{!WebCryptoLaws WC} {S : Type} `{!ReplicaStore S}.

(** C16 A request the sender posts within the freshness window, with the next number
    and an operation the receiver's checks allow, is applied; the same request
    again is recognised and changes nothing. *)
Theorem push_accepted src key q t now op sig (g : MemoryReplicaApplyGuard) (s s' : S) :
  jfin (op_value op) → validateReplicaOp (op_value op) = inr op → isSafeIdentifier (JStr src) = true →
  (1 <= q <= MAX_SAFE_INTEGER)%Z → (0 <= t <= 2 ^ 53)%Z → (Z.abs (now - t) <= DEFAULT_REPLICA_FRESHNESS_MS)%Z →
  (str_len (canonicalJson (envelope_value src q t op)) <= 65536)%Z →
  signReplicaEnvelope (envelope_value src q t op) key = Ret sig → lastSequence src g = (q - 1)%Z →
  replica_op (wire_op op) s = (s', Ret tt) →
  ∃ v g', parse (stringify (envelope_value src q t op)) = Ret v ∧
    handleReplicaIngest (signature_headers sig) v key src now (g, s) = ((g', s'), (200%Z, mkApplyResult true None)) ∧
    handleReplicaIngest (signature_headers sig) v key src now (g', s') =
      ((g', s'), (200%Z, mkApplyResult true (Some (Code "duplicate_ignored")))).
Proof.
  intros Hfin Hval Hsrc Hq Ht Hnow Hlen Hsig Hlast Hst.
  assert (0 <= q <= 2 ^ 53)%Z as Hq' by (unfold MAX_SAFE_INTEGER in Hq; lia).
  destruct (envelope_fields src q t op Hfin Hq' Ht) as (Hp & Hv & Hs & Hseq & Hat & Hop & [l Hl] & _ & Hc).
  set (v := jreorder (envelope_value src q t op)) in *.
  assert (validateReplicaEnvelope v src now DEFAULT_REPLICA_FRESHNESS_MS = inr v) as Henv.
  { unfold validateReplicaEnvelope. rewrite Hv, Hs, Hseq, Hat, Hop. rewrite Hl at 1. rewrite decide_False by tauto.
    rewrite bool_decide_false by tauto. rewrite Hsrc. cbn [orb negb].
    rewrite (proj2 (js_safe_int_Some (JNum (int q)) q)).
    2:{ split; [done|]. unfold is_safe_integer. rewrite !bool_decide_true by lia. done. }
    rewrite decide_False by lia. cbn [int]. unfold dec_far. cbn [dm dk].
    rewrite bool_decide_false by (unfold pow10; simpl; lia). rewrite Hc, decide_False by lia. by destruct op. }
  assert (authorizeReplica (signature_headers sig) v key = true) as Hauth.
  { unfold authorizeReplica. change (field (signature_headers sig) "x-replica-signature") with (JStr sig).
    unfold v. rewrite verify_reorder by done.
    destruct (sign_verifies (envelope_value src q t op) key) as (sig' & Hsig' & Hver).
    - revert Hsig. unfold signReplicaEnvelope, assertReplicaKey. case_decide; [done|lia].
    - rewrite Hsig in Hsig'. by injection Hsig' as <-. }
  assert (js_safe_int (JNum (int q)) = Some q) as Hqs.
  { apply js_safe_int_Some. split; [done|]. unfold is_safe_integer. rewrite !bool_decide_true by lia. done. }
  exists v, (om_set src (q, replicaOperationDigest (wire_op op)) g). split; [done|].
  unfold handleReplicaIngest. rewrite Henv, Hauth, Hop, Hseq, validate_wire, Hqs by (done || by apply jfin_distinct).
  cbn [negb default from_option]. unfold from_option, id, applyIfNext, applyReplicaOp. rewrite Hst, Hlast.
  rewrite decide_False by lia. rewrite decide_False by lia. rewrite decide_False by lia. cbn [snd fst ra_ok]. split; [done|].
  unfold lastSequence. rewrite om_get_set. rewrite decide_True by done. by rewrite decide_True.
Qed.
End accepted.
