(* ===== verification/Promotion.v ===== *)
(** * Promotion of a replica (packages/server/src/promotion.ts)

    The controller that says whether a node accepts client writes, and the command
    endpoint of the guard. *)

From S2P Require Import Prelude JsNum Encoding Json OutboxContract OutboxDigest.
From stdpp Require Import base strings list.
From Stdlib Require Import ZArith Lia.

Local Open Scope string_scope.

Inductive NodeRole := primary | replica.
#[export] Instance NodeRole_eq_dec : EqDecision NodeRole.
Proof. solve_decision. Defined.

(** [reason] is not validated: it is whatever the command carries. *)
Record PromotionController := mkController {
  pc_role : NodeRole; pc_promoted : bool; pc_promotedAt : option Z; pc_promotedBy : option string; pc_reason : jsval }.
Definition PromotionController_new (role : NodeRole) : PromotionController := mkController role false None None JNull.

Record PromotionSnapshot := mkPromotionSnapshot {
  ps_role : NodeRole; ps_writable : bool; ps_promoted : bool;
  ps_promotedAt : option Z; ps_promotedBy : option string; ps_reason : jsval }.

Implicit Types c : PromotionController.

Definition isWritable c : bool := (bool_decide (pc_role c = primary) || pc_promoted c)%bool.
Definition snapshot c : PromotionSnapshot :=
  mkPromotionSnapshot (pc_role c) (isWritable c) (pc_promoted c) (pc_promotedAt c) (pc_promotedBy c) (pc_reason c).

Definition promote (by_ : string) (reason : jsval) (now : Z) c : PromotionController * exc PromotionSnapshot :=
  if decide (pc_role c ≠ replica) then (c, Throw (PlainError "promote: only a replica node can be promoted"))
  else let c := mkController (pc_role c) true (Some now) (Some by_) reason in (c, Ret (snapshot c)).
Definition demote (by_ : string) (reason : jsval) c : PromotionController * exc PromotionSnapshot :=
  if decide (pc_role c ≠ replica) then (c, Throw (PlainError "demote: only a replica node can be demoted"))
  else let c := mkController (pc_role c) false None (Some by_) reason in (c, Ret (snapshot c)).

(** [Some (status, error)] when the endpoint must refuse. *)
Definition assertWritable c : option (Z * string) :=
  if isWritable c then None else Some (503%Z, "replica_not_promoted").

Definition MAX_GUARD_TOKEN_LEN : Z := 256.
Definition constantTimeTokenMatch (presented : jsval) (expected : string) : bool :=
  match presented with
  | JStr p =>
      if decide (p = EmptyString) then false
      else if (bool_decide (MAX_GUARD_TOKEN_LEN < str_len p)%Z || bool_decide (MAX_GUARD_TOKEN_LEN < str_len expected)%Z)%bool
      then false
      else
        let a := utf8_encode p in
        let b := utf8_encode expected in
        if decide (str_len b < 32)%Z then false
        else if decide (str_len a ≠ str_len b) then false
        else bool_decide (a = b)
  | _ => false
  end.

Inductive command_result := Refused (error : string) | Failed (e : error) | Done_ (s : PromotionSnapshot).

Definition handlePromotionCommand (headers body : jsval) (guardToken : string) (now : Z) c
    : PromotionController * (Z * command_result) :=
  if negb (constantTimeTokenMatch (field headers "x-guard-token") guardToken) then (c, (401%Z, Refused "unauthorized"))
  else match body with
  | JObj _ | JArr _ =>
      let command := field body "command" in
      if (negb (bool_decide (command = JStr "promote")) && negb (bool_decide (command = JStr "demote")))%bool
      then (c, (400%Z, Refused "invalid_command"))
      else match field body "by" with
      | JStr by_ =>
          if decide (by_ = EmptyString) then (c, (400%Z, Refused "missing_by"))
          else
            let reason := match field body "reason" with JUndef | JNull => JStr EmptyString | r => r end in
            match (if bool_decide (command = JStr "promote") then promote by_ reason now c else demote by_ reason c) with
            | (c, Ret snap) => (c, (200%Z, Done_ snap))
            | (c, Throw e) => (c, (409%Z, Failed e))
            end
      | _ => (c, (400%Z, Refused "missing_by"))
      end
  | _ => (c, (400%Z, Refused "invalid_body"))
  end.

(** ** Sequences of commands *)

Record Request := mkRequest { rq_headers : jsval; rq_body : jsval; rq_now : Z }.
Definition handle_all (guardToken : string) (rs : list Request) c : PromotionController :=
  foldl (λ c r, (handlePromotionCommand (rq_headers r) (rq_body r) guardToken (rq_now r) c).1) c rs.

(** The guard's token is usable and the request presents it. *)
Definition presents (guardToken : string) (headers : jsval) : Prop :=
  field headers "x-guard-token" = JStr guardToken ∧ (32 <= utf8Len guardToken)%Z ∧ (str_len guardToken <= MAX_GUARD_TOKEN_LEN)%Z.
(** A command of the holder of the guard's token, who gives a name. *)
Definition from_guard (guardToken command : string) (r : Request) : Prop :=
  presents guardToken (rq_headers r) ∧ field (rq_body r) "command" = JStr command ∧
  ∃ name, name ≠ EmptyString ∧ field (rq_body r) "by" = JStr name.

Lemma token_match headers expected :
  constantTimeTokenMatch (field headers "x-guard-token") expected = true ↔ presents expected headers.
Proof.
  unfold constantTimeTokenMatch, presents, utf8Len. destruct (field headers "x-guard-token") as [| | | |p| |]; try by (split; [|intros [? _]]).
  destruct (decide (p = EmptyString)) as [->|Hp].
  { split; [done|]. intros ([= <-] & H & _). by vm_compute in H. }
  destruct (_ || _)%bool eqn:Hl.
  { split; [done|]. intros ([= ->] & _ & Hm). apply orb_true_iff in Hl as [Hl|Hl]; apply bool_decide_eq_true in Hl; lia. }
  btrue. destruct (decide (str_len (utf8_encode expected) < 32)%Z) as [H32|H32].
  { split; [done|]. intros (_ & ? & _). lia. }
  destruct (decide (str_len (utf8_encode p) ≠ _)) as [Hne|_].
  { split; [done|]. by intros ([= ->] & _). }
  rewrite bool_decide_eq_true. split.
  - intros ->%utf8_encode_inj. split_and!; (done || lia).
  - by intros ([= ->] & _).
Qed.

(** One command either changes nothing, or the guard promotes, or the guard
    demotes. *)
Lemma command_cases r guardToken c : pc_role c = replica →
  let c' := (handlePromotionCommand (rq_headers r) (rq_body r) guardToken (rq_now r) c).1 in
  pc_role c' = replica ∧
  (c' = c ∧ ¬ from_guard guardToken "promote" r ∧ ¬ from_guard guardToken "demote" r ∨
   from_guard guardToken "promote" r ∧ pc_promoted c' = true ∨
   from_guard guardToken "demote" r ∧ pc_promoted c' = false).
Proof.
  intros Hr. unfold handlePromotionCommand, from_guard. destruct r as [headers body now]. cbn [rq_headers rq_body rq_now].
  pose proof (token_match headers guardToken) as Htok.
  destruct (constantTimeTokenMatch _ _) eqn:Hm; cbn [negb].
  2:{ split; [done|]. left. split; [done|]. rewrite <-Htok. by split; intros [? _]. }
  apply proj1 in Htok. specialize (Htok eq_refl).
  assert ((∀ k, field body k = JUndef) ∨ ∃ l, body = JObj l) as [Hnone|[l ->]]
    by (destruct body; [by left..|right; by eexists]).
  { rewrite !Hnone. split; [by destruct body|]. left. split; [by destruct body|]. by split; intros (_ & ? & _). }
  set (command := field (JObj l) "command").
  assert (command = JStr "promote" ∨ command = JStr "demote" ∨ command ≠ JStr "promote" ∧ command ≠ JStr "demote") as Hcmd
    by (destruct (decide (command = JStr "promote")), (decide (command = JStr "demote")); auto).
  destruct Hcmd as [Hcmd|[Hcmd|[H1 H2]]].
  3:{ rewrite !bool_decide_false by done. split; [done|]. left. split; [done|]. by split; intros (_ & ? & _). }
  all: rewrite Hcmd.
  all: first [rewrite (bool_decide_true (JStr "promote" = JStr "promote")) by done
             |rewrite (bool_decide_false (JStr "demote" = JStr "promote")) by done];
    rewrite ?(bool_decide_true (JStr "demote" = JStr "demote")) by done; cbn [negb andb].
  all: destruct (field (JObj l) "by") as [| | | |name| |] eqn:Hby;
    try (split; [done|]; left; split; [done|]; split; intros (_ & _ & ? & _ & ?); done).
  all: destruct (decide (name = EmptyString)) as [->|Hne];
    [split; [done|]; left; split; [done|]; split; intros (_ & _ & ? & ? & [= <-]); done|].
  all: unfold promote, demote; rewrite decide_False by (rewrite Hr; tauto); cbn [fst pc_role pc_promoted].
  - split; [done|]. right; left. split; [|done]. split_and!; [apply Htok..|done|]. by exists name.
  - split; [done|]. right; right. split; [|done]. split_and!; [apply Htok..|done|]. by exists name.
Qed.

(** C17 A replica accepts writes only under the guard's authority.  After any sequence
    of requests to the command endpoint, a replica that started read-only is
    writable exactly when some request was a promotion by the holder of the guard's
    token and no request after it was a demotion by the holder; otherwise its gate
    answers 503.  A promotion never lapses by itself. *)
Theorem replica_writable_by_guard guardToken rs :
  let c := handle_all guardToken rs (PromotionController_new replica) in
  (assertWritable c = None ↔
   ∃ before_ r after, rs = (before_ ++ r :: after)%list ∧ from_guard guardToken "promote" r ∧
     Forall (λ r', ¬ from_guard guardToken "demote" r') after) ∧
  (assertWritable c = None ∨ assertWritable c = Some (503%Z, "replica_not_promoted")).
Proof.
  intros c. split; [|unfold assertWritable; destruct (isWritable c); auto].
  assert (pc_role c = replica ∧ (pc_promoted c = true ↔ ∃ before_ r after, rs = (before_ ++ r :: after)%list ∧
    from_guard guardToken "promote" r ∧ Forall (λ r', ¬ from_guard guardToken "demote" r') after)) as [Hrole Hpr].
  2:{ unfold assertWritable, isWritable. rewrite Hrole. rewrite bool_decide_false by done. cbn [orb].
      rewrite <-Hpr. by destruct (pc_promoted c). }
  subst c. induction rs as [|r rs [IHr IH]] using rev_ind.
  { split; [done|]. split; [done|]. intros (b & r & a & H & _). by destruct b. }
  unfold handle_all in *. rewrite foldl_app. cbn [foldl].
  destruct (command_cases r guardToken _ IHr) as [Hr' Hcases]. split; [exact Hr'|].
  assert ((∃ before_ r0 after, (rs ++ [r])%list = (before_ ++ r0 :: after)%list ∧
     from_guard guardToken "promote" r0 ∧ Forall (λ r', ¬ from_guard guardToken "demote" r') after) ↔
     from_guard guardToken "promote" r ∨ ¬ from_guard guardToken "demote" r ∧
       ∃ before_ r0 after, rs = (before_ ++ r0 :: after)%list ∧ from_guard guardToken "promote" r0 ∧
         Forall (λ r', ¬ from_guard guardToken "demote" r') after) as Hsplit.
  { split.
    - intros (b & r0 & a & Heq & Hg & Ha). destruct a as [|x a _] using rev_ind.
      + apply app_inj_tail in Heq as [_ ->]. by left.
      + rewrite app_comm_cons, app_assoc in Heq. apply app_inj_tail in Heq as [-> ->].
        apply Forall_app in Ha as [Ha Hx]. right. rewrite Forall_singleton in Hx. split; [exact Hx|]. by exists b, r0, a.
    - intros [Hg|(Hnd & b & r0 & a & -> & Hg & Ha)]; [by exists rs, r, []|].
      exists b, r0, (a ++ [r])%list. rewrite <-app_assoc. do 2 (split; [done|]). apply Forall_app. split; [done|by apply Forall_singleton]. }
  rewrite Hsplit. clear Hsplit.
  destruct Hcases as [(-> & Hp & Hd)|[[Hg ->]|[Hg ->]]].
  - rewrite IH. naive_solver.
  - split; auto.
  - split; [done|]. intros [Hp|[Hd _]]; [|done]. destruct Hg as (_ & Hg & _), Hp as (_ & Hp & _). congruence.
Qed.

(** On a primary the endpoint changes nothing and the gate is always open. *)
Lemma primary_unaffected guardToken rs : handle_all guardToken rs (PromotionController_new primary) = PromotionController_new primary.
Proof.
  unfold handle_all. induction rs as [|r rs IH] using rev_ind; [done|]. rewrite foldl_app, IH. cbn [foldl].
  unfold handlePromotionCommand. repeat (case_match; try done). all: unfold promote, demote in *; simplify_eq/=; done.
Qed.
