(* ===== verification/RollbackCheckpoint.v ===== *)
(** * The rollback checkpoint (packages/server/src/rollback-checkpoint.ts)

    The guard compares the sequence Redis mirrors with an independent monotonic
    witness and reserves the next number by a fenced compare-and-advance.  The
    witness is a class, what its interface documents are its laws; an outage is a
    thrown error, and an operation that throws may still have taken effect.  The
    authorizer's answers are the environment's. *)

From S2P Require Import Prelude Proc JsNum Encoding Json Crypto OutboxContract.
From stdpp Require Import base strings list relations.
From Stdlib Require Import ZArith Lia.

Local Open Scope string_scope.
Local Open Scope bpc_scope.

Record CheckpointState := mkState { cs_epoch : string; cs_sequence : Z }.
#[export] Instance CheckpointState_eq_dec : EqDecision CheckpointState.
Proof. solve_decision. Defined.
Definition state_value (s : CheckpointState) : jsval :=
  JObj [("epoch", JStr (cs_epoch s)); ("sequence", JNum (int (cs_sequence s)))].

Record RedisSequenceView := mkView { rv_epoch : jsval; rv_sequence : num }.

Inductive RollbackVerdict := v_ok | v_rollback | v_redis_ahead | v_epoch_mismatch | v_witness_missing.
#[export] Instance RollbackVerdict_eq_dec : EqDecision RollbackVerdict.
Proof. solve_decision. Defined.

(** [/^[A-Za-z0-9][A-Za-z0-9:._/-]{0,127}$/] *)
Definition ID_PATTERN (s : string) : bool :=
  match s with
  | String c r => (is_alnum c && all_chars (λ c, is_alnum c || one_of ":._/-" c) r && bool_decide (str_len r <= 127)%Z)%bool
  | EmptyString => false
  end.
Definition MAX_SEQUENCE : Z := MAX_SAFE_INTEGER - 1.

Definition validation_error {A} (label : string) : exc A := Throw (ContinuityValidationError label).
Definition assertId (v : jsval) (label : string) : exc unit :=
  match v with
  | JStr s => if ID_PATTERN s then Ret tt else validation_error label
  | _ => validation_error label
  end.
Definition assertSeq (n : jsval) (label : string) : exc unit :=
  match js_safe_int n with
  | Some z => if decide (z < 0)%Z then validation_error label else Ret tt
  | None => validation_error label
  end.
Definition assertState (s : jsval) (label : string) : exc unit :=
  match s with
  | JObj _ | JArr _ =>
      _ ← assertId (field s "epoch") (label +:+ ".epoch");
      assertSeq (field s "sequence") (label +:+ ".sequence")
  | _ => validation_error label
  end.

(** ** The witness *)

Class MonotonicCheckpoint (T : Type) := {
  witness_read : string → T → T * exc jsval;
  compareAndAdvance : string → CheckpointState → CheckpointState → T → T * exc jsval;
  createGenesis : string → CheckpointState → T → T * exc jsval;
}.

(** What the interface documents.  [stored s ns]: the row of a namespace. *)
Class MonotonicCheckpointLaws (T : Type) `{!MonotonicCheckpoint T} := {
  stored : T → string → option CheckpointState;
  (** The current state, or null, or a thrown outage; reading changes nothing. *)
  read_law ns s : (∀ n, stored (witness_read ns s).1 n = stored s n) ∧
    ∀ v, (witness_read ns s).2 = Ret v → v = match stored s ns with Some st => state_value st | None => JNull end;
  (** A compare-and-set that returns has happened; one that throws has happened or
      not; a conflict has not. *)
  advance_law ns expected next s : let '(s', r) := compareAndAdvance ns expected next s in
    (∀ n, n ≠ ns → stored s' n = stored s n) ∧
    (stored s' ns = stored s ns ∧ (∀ v, r ≠ Ret v) ∨
     stored s ns = Some expected ∧ stored s' ns = Some next ∧ r ≠ Throw CheckpointConflictError);
  genesis_law ns genesis s : let '(s', r) := createGenesis ns genesis s in
    (∀ n, n ≠ ns → stored s' n = stored s n) ∧
    (stored s' ns = stored s ns ∧ (∀ v, r ≠ Ret v) ∨
     stored s ns = None ∧ stored s' ns = Some genesis ∧ r ≠ Throw CheckpointConflictError);
}.

(** The witness and the authorizer, whose answer may change at any time. *)
Record CheckpointWorld (T : Type) := mkCW { cw_witness : T; cw_authorizeProvision : string → string → exc bool }.
Arguments mkCW {T}.
Arguments cw_witness {T}.
Arguments cw_authorizeProvision {T}.

Record RollbackCheckpointGuard := mkRollbackGuard { rg_ns : string }.

Section guard.
Context {T : Type} `{!MonotonicCheckpoint T}.
Notation W := (CheckpointWorld T).

Definition RollbackCheckpointGuard_new (namespace : jsval) (hasAuthorizer : bool) : exc RollbackCheckpointGuard :=
  _ ← assertId namespace "namespace";
  if negb hasAuthorizer then validation_error "a ProvisioningAuthorizer is required"
  else Ret (mkRollbackGuard (js_str namespace)).

(** A call of the witness. *)
Definition on_witness {A} (f : T → T * A) : proc W A :=
  call (λ w, let '(t, a) := f (cw_witness w) in (mkCW t (cw_authorizeProvision w), a)).

(** [catch (err)]: conflicts pass, everything else is an outage. *)
Definition conflict_or_unavailable {A} (e : error) : proc W (exc A) :=
  if decide (e = CheckpointConflictError) then ethrow e else ethrow CheckpointUnavailableError.

Definition provision (g : RollbackCheckpointGuard) (genesisEpoch : jsval) : proc W (exc jsval) :=
  let+ _ := Done (assertId genesisEpoch "genesisEpoch") in
  let+ allowed := etry (read (λ w, cw_authorizeProvision w (rg_ns g) (js_str genesisEpoch)))
                       (λ _, ethrow CheckpointUnavailableError) in
  if negb allowed then ethrow NotAuthorizedError
  else etry (on_witness (createGenesis (rg_ns g) (mkState (js_str genesisEpoch) 0))) conflict_or_unavailable.

Definition check (g : RollbackCheckpointGuard) (redis : RedisSequenceView) : proc W (exc RollbackVerdict) :=
  let+ _ := Done (assertId (rv_epoch redis) "redis.epoch") in
  let+ _ := Done (assertSeq (JNum (rv_sequence redis)) "redis.sequence") in
  let+ current := etry (on_witness (witness_read (rg_ns g))) (λ _, ethrow CheckpointUnavailableError) in
  match current with
  | JNull => eret v_witness_missing
  | _ =>
      let+ _ := Done (assertState current "witness") in
      if decide (field current "epoch" ≠ rv_epoch redis) then eret v_epoch_mismatch
      else match num_safe_int (rv_sequence redis), js_safe_int (field current "sequence") with
           | Some r, Some c =>
               if decide (r < c)%Z then eret v_rollback
               else if decide (c < r)%Z then eret v_redis_ahead else eret v_ok
           | _, _ => eret v_ok
           end
  end.

(** The text of [w.sequence] in an error's message; a missing row is a TypeError. *)
Definition sequence_text (w : jsval) : exc string := v ← prop w "sequence"; js_to_string v.
Definition epoch_text (w : jsval) : exc string := if truthy w then js_to_string (field w "epoch") else Ret "(none)".

(** A returned value as the integer it is. *)
Definition number_of (v : jsval) : Z := match v with JNum (Fin d) => dm d | _ => 0%Z end.

Definition reserve (g : RollbackCheckpointGuard) (redis : RedisSequenceView) : proc W (exc Z) :=
  let+ verdict := check g redis in
  let sequence := default 0%Z (num_safe_int (rv_sequence redis)) in
  match verdict with
  | v_witness_missing => ethrow (WitnessMissingError (rg_ns g))
  | v_epoch_mismatch =>
      let+ w := on_witness (witness_read (rg_ns g)) in
      let+ text := Done (epoch_text w) in ethrow (CheckpointInconsistentError (js_str (rv_epoch redis)) text)
  | v_rollback =>
      let+ w := on_witness (witness_read (rg_ns g)) in
      let+ text := Done (sequence_text w) in ethrow (RollbackDetectedError sequence text)
  | v_redis_ahead =>
      let+ w := on_witness (witness_read (rg_ns g)) in
      let+ text := Done (sequence_text w) in ethrow (RedisAheadError sequence text)
  | v_ok =>
      if decide (MAX_SEQUENCE <= sequence)%Z then ethrow (SequenceExhaustedError sequence)
      else
        let expected := mkState (js_str (rv_epoch redis)) sequence in
        let next := mkState (js_str (rv_epoch redis)) (sequence + 1) in
        let+ result := etry (on_witness (compareAndAdvance (rg_ns g) expected next)) conflict_or_unavailable in
        if (negb (truthy result) || bool_decide (field result "epoch" ≠ JStr (cs_epoch next)) ||
            bool_decide (field result "sequence" ≠ JNum (int (cs_sequence next))))%bool
        then ethrow (MalformedCasError (cs_epoch next) (cs_sequence next))
        else eret (number_of (field result "sequence"))
  end.
End guard.

(** ** What the guard guarantees *)

(** A view of Redis that passes validation. *)
Definition view_of (redis : RedisSequenceView) (e : string) (q : Z) : Prop :=
  rv_epoch redis = JStr e ∧ ID_PATTERN e = true ∧ num_safe_int (rv_sequence redis) = Some q ∧ (0 <= q)%Z.

(** The specification of the verdict: exact agreement and nothing else is fine. *)
Definition verdict_of (current : option CheckpointState) (e : string) (q : Z) : RollbackVerdict :=
  match current with
  | None => v_witness_missing
  | Some st =>
      if decide (cs_epoch st ≠ e) then v_epoch_mismatch
      else match (q ?= cs_sequence st)%Z with Lt => v_rollback | Gt => v_redis_ahead | Eq => v_ok end
  end.

Section safety.
Context {T : Type} `{!MonotonicCheckpoint T} `{!MonotonicCheckpointLaws T}.
Notation W := (CheckpointWorld T).
Definition row (w : W) (ns : string) : option CheckpointState := stored (cw_witness w) ns.

Lemma assertId_Ret v label : assertId v label = Ret tt → ∃ s, v = JStr s ∧ ID_PATTERN s = true.
Proof. destruct v as [| | | |s| |]; cbn; try done. destruct (ID_PATTERN s) eqn:H; [|done]. by exists s. Qed.

Lemma assertSeq_Ret n label : assertSeq n label = Ret tt → ∃ z, js_safe_int n = Some z ∧ (0 <= z)%Z.
Proof. unfold assertSeq. destruct (js_safe_int n) as [z|]; [|done]. case_decide; [done|]. exists z. split; [done|lia]. Qed.

Lemma exec_etry_inv (R : W → W → Prop) {A} (p : proc W (exc A)) (h : error → proc W (exc A)) w tr w' r :
  exec R (etry p h) w tr w' r →
  (∃ a, r = Ret a ∧ exec R p w tr w' (Ret a)) ∨
  ∃ e w1 t1 t2, exec R p w t1 w1 (Throw e) ∧ exec R (h e) w1 t2 w' r ∧ tr = (t1 ++ t2)%list.
Proof.
  intros ([a|e] & w1 & t1 & t2 & Hp & Hk & ->)%exec_bind_inv; [left|right; by eauto 10].
  apply exec_done_inv in Hk as (-> & -> & ->). exists a. split; [done|]. by rewrite app_nil_r.
Qed.

Lemma witness_call_inv (R : W → W → Prop) {A} (f : T → T * A) w tr w' a :
  exec R (on_witness f) w tr w' a → ∃ s, tr = [s] ∧ s.2 = w' ∧ f (cw_witness s.1) = (cw_witness s.2, a).
Proof.
  intros (w1 & _ & Hf & ->)%exec_call_inv. exists (w1, w'). split; [done|]. split; [done|]. cbn in *.
  destruct (f (cw_witness w1)) as [t x]. by injection Hf as <- <-.
Qed.

Lemma read_unchanged (s : W * W) ns r : witness_read ns (cw_witness s.1) = (cw_witness s.2, r) →
  (∀ n, row s.2 n = row s.1 n) ∧ ∀ v, r = Ret v → v = match row s.1 ns with Some st => state_value st | None => JNull end.
Proof.
  intros H. destruct (read_law ns (cw_witness s.1)) as [H1 H2]. rewrite H in H1, H2. cbn in *. unfold row.
  split; [done|]. intros v ->. by apply H2.
Qed.

(** The verdict is exact and free of side effects: whenever [check] answers, the
    answer compares the view with the one row it read, [ok] means equality of epoch
    and sequence, and nothing was written. *)
Theorem check_exact R g redis w tr w' v : exec R (check g redis) w tr w' (Ret v) →
  ∃ s e q, tr = [s] ∧ view_of redis e q ∧ v = verdict_of (row s.1 (rg_ns g)) e q ∧ ∀ n, row s.2 n = row s.1 n.
Proof.
  unfold check. intros ([] & w1 & t1 & t2 & (H1 & -> & ->)%exec_done_inv & Hex & ->)%exec_ebind_inv.
  apply exec_ebind_inv in Hex as ([] & w2 & t3 & t4 & (H2 & -> & ->)%exec_done_inv & Hex & ->).
  symmetry in H1, H2. apply assertId_Ret in H1 as (e & He & Hid). apply assertSeq_Ret in H2 as (q & Hq & Hpos).
  apply exec_ebind_inv in Hex as (current & w3 & t5 & t6 & Hr & Hex & ->).
  apply exec_etry_inv in Hr as [(c & [= <-] & Hr)|(? & ? & ? & ? & _ & Hx & _)]; [|by apply exec_done_inv in Hx as [? _]].
  apply witness_call_inv in Hr as (s & -> & <- & Hf). apply read_unchanged in Hf as [Hun Hv]. specialize (Hv _ eq_refl).
  exists s, e, q. cbn in Hq. destruct (row s.1 (rg_ns g)) as [st|] eqn:Hrow; subst current.
  - cbn [state_value] in Hex.
    apply exec_ebind_inv in Hex as ([] & w4 & t7 & t8 & (H3 & -> & ->)%exec_done_inv & Hex & ->).
    symmetry in H3. cbn [assertState] in H3. apply exc_bind_Ret in H3 as ([] & _ & (z & Hz & _)%assertSeq_Ret).
    change (field _ "epoch") with (JStr (cs_epoch st)) in Hex. change (field _ "sequence") with (JNum (int (cs_sequence st))) in Hex, Hz.
    rewrite Hz, Hq, He in Hex. assert (z = cs_sequence st) as ->.
    { cbn in Hz. destruct (is_safe_integer _); [by injection Hz|done]. }
    unfold view_of. rewrite He, Hq. unfold verdict_of. destruct (decide (cs_epoch st ≠ e)) as [Hne|Heq].
    + rewrite decide_True in Hex by congruence. apply exec_done_inv in Hex as ([= ->] & -> & ->). done.
    + rewrite decide_False in Hex by (intros Hn; apply Heq; congruence).
      destruct (Z.compare_spec q (cs_sequence st)).
      * rewrite !decide_False in Hex by lia. apply exec_done_inv in Hex as ([= ->] & -> & ->). done.
      * rewrite decide_True in Hex by lia. apply exec_done_inv in Hex as ([= ->] & -> & ->). done.
      * rewrite decide_False, decide_True in Hex by lia. apply exec_done_inv in Hex as ([= ->] & -> & ->). done.
  - apply exec_done_inv in Hex as ([= ->] & -> & ->). done.
Qed.

(** The step of a reservation: the row of the view, and that row advanced by one. *)
Definition reserves (ns e : string) (q : Z) (s : W * W) : Prop :=
  row s.1 ns = Some (mkState e q) ∧ row s.2 ns = Some (mkState e (q + 1)).

Lemma advance_inv (s : W * W) ns expected next r :
  compareAndAdvance ns expected next (cw_witness s.1) = (cw_witness s.2, r) →
  (∀ n, n ≠ ns → row s.2 n = row s.1 n) ∧
  (row s.2 ns = row s.1 ns ∧ (∀ v, r ≠ Ret v) ∨ row s.1 ns = Some expected ∧ row s.2 ns = Some next ∧ r ≠ Throw CheckpointConflictError).
Proof. intros H. pose proof (advance_law ns expected next (cw_witness s.1)) as Hl. by rewrite H in Hl. Qed.

Lemma is_safe_bound n : is_safe_integer n = true → (- MAX_SAFE_INTEGER <= n <= MAX_SAFE_INTEGER)%Z.
Proof. unfold is_safe_integer. intros H. btrue. lia. Qed.

Lemma error_branch (R : W → W → Prop) {A} (p : proc W (exc A)) (t : A → exc string) (k : string → error) w tr w' (n : Z) :
  ¬ exec R (ebind p (λ x, ebind (Done (t x)) (λ y, ethrow (k y)))) w tr w' (Ret n).
Proof.
  intros (x & w2 & t3 & t4 & _ & Hx & _)%exec_ebind_inv.
  apply exec_ebind_inv in Hx as (y & w3 & t5 & t6 & _ & Hx & _). by apply exec_done_inv in Hx as [? _].
Qed.

(** A reservation is returned only on exact agreement of Redis with the witness,
    it is the successor of the agreed sequence, still a safe integer, and in its one
    step the witness moved from the one to the other. *)
Theorem reserve_advances R g redis w tr w' n : exec R (reserve g redis) w tr w' (Ret n) →
  ∃ s0 s e q, tr = [s0; s] ∧ view_of redis e q ∧ row s0.1 (rg_ns g) = Some (mkState e q) ∧
    reserves (rg_ns g) e q s ∧ n = (q + 1)%Z ∧ (n <= MAX_SEQUENCE)%Z.
Proof.
  unfold reserve. intros (v & w1 & t1 & t2 & Hc & Hex & ->)%exec_ebind_inv.
  apply check_exact in Hc as (s0 & e & q & -> & Hview & -> & _). pose proof Hview as (He & _ & Hq & _).
  rewrite Hq, He in Hex. cbn [js_str default from_option id] in Hex.
  destruct (verdict_of _ e q) eqn:Hv; [|exfalso; first [by apply error_branch in Hex|by apply exec_done_inv in Hex as [? _]]..].
  unfold verdict_of in Hv. destruct (row s0.1 (rg_ns g)) as [st|] eqn:Hrow; [|done].
  destruct (decide (cs_epoch st ≠ e)) as [|Hep]; [done|]. apply dec_stable in Hep.
  destruct (Z.compare_spec q (cs_sequence st)) as [Hs| |]; [|done..].
  destruct (decide (MAX_SEQUENCE <= q)%Z) as [|Hmax]; [by apply exec_done_inv in Hex as [? _]|].
  apply exec_ebind_inv in Hex as (result & w2 & t3 & t4 & Hadv & Hex & ->).
  apply exec_etry_inv in Hadv as [(x & [= <-] & Hadv)|(err & ? & ? & ? & _ & Hx & _)].
  2: { unfold conflict_or_unavailable in Hx. case_decide; by apply exec_done_inv in Hx as [? _]. }
  apply witness_call_inv in Hadv as (s & -> & <- & Hf). apply advance_inv in Hf as [_ [[_ Hr]|(H1 & H2 & _)]]; [by destruct (Hr result)|].
  destruct (_ || _)%bool eqn:Hexact; [by apply exec_done_inv in Hex as [? _]|].
  apply orb_false_elim in Hexact as [_ Hseq]. apply bool_decide_eq_false, dec_stable in Hseq. rewrite Hseq in Hex.
  apply exec_done_inv in Hex as ([= ->] & -> & ->). cbn [cs_sequence dm].
  assert (row s0.1 (rg_ns g) = Some (mkState e q)) as Hrow' by (rewrite Hrow, <-Hep, Hs; by destruct st).
  exists s0, s, e, q. assert (reserves (rg_ns g) e q s) as Hres by done. repeat (split; [done|]). lia.
Qed.
End safety.

Section concurrency.
Context {T : Type} `{!MonotonicCheckpoint T} `{!MonotonicCheckpointLaws T}.
Notation W := (CheckpointWorld T).

(** What any step may do to a row: create it, or advance it within its epoch. *)
Definition row_moves (o o' : option CheckpointState) : Prop :=
  match o with
  | None => True
  | Some st => ∃ st', o' = Some st' ∧ cs_epoch st' = cs_epoch st ∧ (cs_sequence st <= cs_sequence st')%Z
  end.
Definition witness_moves (w w' : W) : Prop := ∀ n, row_moves (row w n) (row w' n).
#[local] Instance witness_moves_order : PreOrder witness_moves.
Proof.
  split.
  - intros w n. destruct (row w n) as [st|]; [|done]. by exists st.
  - intros w1 w2 w3 H1 H2 n. specialize (H1 n). specialize (H2 n). destruct (row w1 n) as [st|]; [|done].
    destruct H1 as (st' & H1 & He & Hs). rewrite H1 in H2. destruct H2 as (st'' & -> & He' & Hs').
    exists st''. split; [done|]. split; [congruence|lia].
Qed.

Lemma moves_same (w w' : W) : (∀ n, row w' n = row w n) → witness_moves w w'.
Proof. intros H n. rewrite H. destruct (row w n) as [st|]; [by exists st|done]. Qed.

Lemma moves_one (w w' : W) ns : (∀ n, n ≠ ns → row w' n = row w n) → row_moves (row w ns) (row w' ns) → witness_moves w w'.
Proof.
  intros Ho Hn n. destruct (decide (n = ns)) as [->|Hne]; [done|]. rewrite Ho by done.
  destruct (row w n) as [st|]; [by exists st|done].
Qed.

Lemma always_witness {A} (G : W → W → Prop) (f : T → T * A) :
  (∀ w t a, f (cw_witness w) = (t, a) → G w (mkCW t (cw_authorizeProvision w))) → always G (on_witness f).
Proof. intros H. apply always_call. intros w. specialize (H w). destruct (f (cw_witness w)) as [t a]. by eapply H. Qed.

Lemma always_etry {A} (G : W → W → Prop) (p : proc W (exc A)) h : always G p → (∀ e, always G (h e)) → always G (etry p h).
Proof. intros Hp Hh. apply always_bind; [done|]. intros [a|e]; [done|apply Hh]. Qed.

Lemma conflict_always {A} (G : W → W → Prop) e : always G (conflict_or_unavailable e : proc W (exc A)).
Proof. unfold conflict_or_unavailable. by case_decide. Qed.

(** Reads write nothing; every step of an operation satisfies [G] if its one
    writing call does. *)
Lemma always_read_witness (G : W → W → Prop) ns : (∀ w w', (∀ n, row w' n = row w n) → G w w') → always G (on_witness (witness_read ns)).
Proof.
  intros Hsame. apply always_witness. intros w t a Hf. apply Hsame.
  by destruct (read_unchanged (w, mkCW t (cw_authorizeProvision w)) ns a Hf).
Qed.

Lemma check_always (G : W → W → Prop) g redis : (∀ w w', (∀ n, row w' n = row w n) → G w w') → always G (check g redis).
Proof.
  intros Hsame. unfold check. apply always_ebind; [done|intros _]. apply always_ebind; [done|intros _].
  apply always_ebind; [by apply always_etry; [apply always_read_witness|]|].
  intros current. assert (always G (let+ _ := Done (assertState current "witness") in
    if decide (field current "epoch" ≠ rv_epoch redis) then eret v_epoch_mismatch
    else match num_safe_int (rv_sequence redis), js_safe_int (field current "sequence") with
         | Some r, Some c => if decide (r < c)%Z then eret v_rollback else if decide (c < r)%Z then eret v_redis_ahead else eret v_ok
         | _, _ => eret v_ok end)) as Hrest.
  { apply always_ebind; [done|intros _]. by repeat case_match. }
  by destruct current.
Qed.

Lemma reserve_always (G : W → W → Prop) g redis :
  (∀ w w', (∀ n, row w' n = row w n) → G w w') →
  (∀ e q w w' r, compareAndAdvance (rg_ns g) (mkState e q) (mkState e (q + 1)) (cw_witness w) = (cw_witness w', r) → G w w') →
  always G (reserve g redis).
Proof.
  intros Hsame Hcas. unfold reserve. apply always_ebind; [by apply check_always|intros v]. destruct v.
  - case_decide; [done|]. apply always_ebind.
    + apply always_etry; [|intros e; apply conflict_always]. apply always_witness. intros w t a Hf. by eapply (Hcas _ _ w (mkCW t _)).
    + intros result. by destruct (_ || _)%bool.
  - apply always_ebind; [by apply always_read_witness|intros x; by destruct (sequence_text x)].
  - apply always_ebind; [by apply always_read_witness|intros x; by destruct (sequence_text x)].
  - apply always_ebind; [by apply always_read_witness|intros x; by destruct (epoch_text x)].
  - done.
Qed.

Lemma provision_always (G : W → W → Prop) g epoch :
  (∀ w w', (∀ n, row w' n = row w n) → G w w') →
  (∀ w w' r, createGenesis (rg_ns g) (mkState (js_str epoch) 0) (cw_witness w) = (cw_witness w', r) → G w w') →
  always G (provision g epoch).
Proof.
  intros Hsame Hgen. unfold provision. apply always_ebind; [done|intros _].
  apply always_ebind; [apply always_etry; [apply always_read; intros w; by apply Hsame|done]|].
  intros [|]; [|done]. apply always_etry; [|intros e; apply conflict_always].
  apply always_witness. intros w t a Hf. by eapply (Hgen w (mkCW t _)).
Qed.

Lemma advance_moves ns e q (w w' : W) r :
  compareAndAdvance ns (mkState e q) (mkState e (q + 1)) (cw_witness w) = (cw_witness w', r) → witness_moves w w'.
Proof.
  intros Hf. destruct (advance_inv (w, w') ns _ _ _ Hf) as [Ho H]. cbn in *. apply (moves_one w w' ns Ho).
  destruct H as [[-> _]|(-> & -> & _)]; [destruct (row w ns) as [st|]; [by exists st|done]|].
  eexists. split; [done|]. cbn. split; [done|lia].
Qed.

Lemma genesis_inv (s : W * W) ns genesis r : createGenesis ns genesis (cw_witness s.1) = (cw_witness s.2, r) →
  (∀ n, n ≠ ns → row s.2 n = row s.1 n) ∧
  (row s.2 ns = row s.1 ns ∧ (∀ v, r ≠ Ret v) ∨ row s.1 ns = None ∧ row s.2 ns = Some genesis ∧ r ≠ Throw CheckpointConflictError).
Proof. intros H. pose proof (genesis_law ns genesis (cw_witness s.1)) as Hl. by rewrite H in Hl. Qed.

Lemma genesis_moves ns genesis (w w' : W) r : createGenesis ns genesis (cw_witness w) = (cw_witness w', r) → witness_moves w w'.
Proof.
  intros Hf. destruct (genesis_inv (w, w') ns _ _ Hf) as [Ho H]. cbn in *. apply (moves_one w w' ns Ho).
  destruct H as [[-> _]|(-> & -> & _)]; [destruct (row w ns) as [st|]; [by exists st|done]|done].
Qed.

(** ** Any interleaving *)

Inductive CheckpointOp :=
  | OpProvision (g : RollbackCheckpointGuard) (genesisEpoch : jsval)
  | OpCheck (g : RollbackCheckpointGuard) (redis : RedisSequenceView)
  | OpReserve (g : RollbackCheckpointGuard) (redis : RedisSequenceView).
Inductive CheckpointAnswer := Provisioned (r : exc jsval) | Checked (r : exc RollbackVerdict) | Reserved (r : exc Z).
Definition checkpoint_op (o : CheckpointOp) : proc W CheckpointAnswer :=
  match o with
  | OpProvision g epoch => let* r := provision g epoch in Done (Provisioned r)
  | OpCheck g redis => let* r := check g redis in Done (Checked r)
  | OpReserve g redis => let* r := reserve g redis in Done (Reserved r)
  end.

Lemma checkpoint_op_moves o : always witness_moves (checkpoint_op o).
Proof.
  destruct o; cbn [checkpoint_op]; (apply always_bind; [|done]).
  - apply provision_always; [apply moves_same|]. intros w w' r. apply genesis_moves.
  - apply check_always, moves_same.
  - apply reserve_always; [apply moves_same|]. intros e q w w' r. apply advance_moves.
Qed.

Lemma reserved_step ops (w : W) tr w' ps' i g redis n :
  pool_run witness_moves (checkpoint_op <$> ops) w tr w' ps' → ops !! i = Some (OpReserve g redis) →
  ps' !! i = Some (Done (Reserved (Ret n))) →
  ∃ s e q, (Some i, s) ∈ tr ∧ rv_epoch redis = JStr e ∧ reserves (rg_ns g) e q s ∧ n = (q + 1)%Z.
Proof.
  intros Hrun Hi Hd. destruct (pool_exec _ _ _ _ _ _ i (checkpoint_op (OpReserve g redis)) (Reserved (Ret n)) Hrun) with (w0 := w)
    as [w1 Hex]; [by rewrite list_lookup_fmap, Hi|done|]. cbn [checkpoint_op] in Hex.
  apply exec_bind_inv in Hex as (r & w2 & t1 & t2 & Hex & ([= <-] & -> & _)%exec_done_inv & Htr).
  apply reserve_advances in Hex as (s0 & s & e & q & -> & (He & _) & _ & Hres & -> & _).
  exists s, e, q. split; [|done]. apply own_step_pool. rewrite Htr. apply elem_of_cons. right. apply elem_of_cons. by left.
Qed.

(** C40 No sequence number is reserved twice: of any guards' operations on one
    witness, interleaved with anything that keeps its rows monotonic, no two
    reservations in one namespace and epoch return the same number. *)
Theorem reservations_unique ops (w : W) tr w' ps' i j g g' redis redis' n n' :
  pool_run witness_moves (checkpoint_op <$> ops) w tr w' ps' → i ≠ j →
  ops !! i = Some (OpReserve g redis) → ops !! j = Some (OpReserve g' redis') →
  rg_ns g = rg_ns g' → rv_epoch redis = rv_epoch redis' →
  ps' !! i = Some (Done (Reserved (Ret n))) → ps' !! j = Some (Done (Reserved (Ret n'))) → n ≠ n'.
Proof.
  intros Hrun Hne Hi Hj Hns Hep Hdi Hdj ->.
  assert (Forall (λ e, witness_moves e.2.1 e.2.2) tr) as Hall.
  { eapply Forall_impl; [eapply (pool_always _ witness_moves); [exact Hrun|]|].
    - apply Forall_fmap, Forall_forall. intros o _. apply checkpoint_op_moves.
    - by intros [[k|] [a c]]. }
  destruct (reserved_step _ _ _ _ _ _ _ _ _ Hrun Hi Hdi) as (si & e & q & Ii & Ei & [Ri Ri'] & Ni).
  destruct (reserved_step _ _ _ _ _ _ _ _ _ Hrun Hj Hdj) as (sj & e' & q' & Ij & Ej & [Rj Rj'] & Nj). rewrite <-Hns in Rj, Rj'.
  destruct (trace_order _ _ _ _ _ Hne Ii Ij) as (t1 & t2 & t3 & [Htr|Htr]);
    pose proof (pool_rtc witness_moves _ _ _ Hall (pool_chain _ _ _ _ _ _ Hrun _ _ _ _ _ Htr) (rg_ns g)) as Hk; cbn in Hk.
  - rewrite Ri', Rj in Hk. destruct Hk as (st & [= <-] & _ & Hle). cbn in Hle. lia.
  - rewrite Rj', Ri in Hk. destruct Hk as (st & [= <-] & _ & Hle). cbn in Hle. lia.
Qed.

(** The shapes of an execution of [provision]. *)
Lemma provision_inv R g epoch (w : W) tr w' r : exec R (provision g epoch) w tr w' r →
  (∀ v, r ≠ Ret v) ∧ tr = [] ∨
  ∃ u, (∀ v, r ≠ Ret v) ∧ tr = [(u, u)] ∧ cw_authorizeProvision u (rg_ns g) (js_str epoch) ≠ Ret true ∨
    ∃ s x, tr = [(u, u); s] ∧ cw_authorizeProvision u (rg_ns g) (js_str epoch) = Ret true ∧
      createGenesis (rg_ns g) (mkState (js_str epoch) 0) (cw_witness s.1) = (cw_witness s.2, x) ∧ (∀ v, r = Ret v → x = Ret v).
Proof.
  unfold provision. intros (v0 & w1 & t1 & t2 & (-> & -> & ->)%exec_done_inv & Hex & ->)%exec_bind_inv.
  destruct (assertId _ _) as [[]|err]; [right|by apply exec_done_inv in Hex as (-> & -> & ->); left].
  apply exec_bind_inv in Hex as (allowed & w2 & t3 & t4 & Ha & Hex & ->).
  apply exec_bind_inv in Ha as (x & w3 & t5 & t6 & (u & _ & [= <- Hx] & ->)%exec_call_inv & Ha & ->). exists u. rewrite Hx.
  destruct x as [[|]|err]; apply exec_done_inv in Ha as (-> & -> & ->); cbn [negb] in Hex.
  2,3: apply exec_done_inv in Hex as (-> & -> & ->); by left.
  right. apply exec_bind_inv in Hex as (x & w4 & t7 & t8 & Hc & Hex & ->). apply witness_call_inv in Hc as (s & -> & <- & Hf).
  exists s, x. destruct x as [v|e].
  - apply exec_done_inv in Hex as (-> & -> & ->). done.
  - unfold conflict_or_unavailable in Hex. case_decide; apply exec_done_inv in Hex as (-> & -> & ->); done.
Qed.

(** Provisioning never re-anchors: no step of it touches a row that exists, of
    any namespace; without the authorizer's consent nothing is written and the
    result is an error; and it succeeds only by creating the genesis row. *)
Theorem provision_never_reanchors R g epoch (w : W) tr w' r : exec R (provision g epoch) w tr w' r →
  Forall (λ s, ∀ n, row s.1 n ≠ None → row s.2 n = row s.1 n) tr ∧
  (Forall (λ s, cw_authorizeProvision s.1 (rg_ns g) (js_str epoch) ≠ Ret true) tr →
     Forall (λ s, ∀ n, row s.2 n = row s.1 n) tr ∧ ∀ v, r ≠ Ret v) ∧
  (∀ v, r = Ret v → ∃ s0 s, tr = [s0; s] ∧ cw_authorizeProvision s0.1 (rg_ns g) (js_str epoch) = Ret true ∧
     row s.1 (rg_ns g) = None ∧ row s.2 (rg_ns g) = Some (mkState (js_str epoch) 0)).
Proof.
  intros Hex. split.
  { eapply (always_exec (λ s1 s2, ∀ n, row s1 n ≠ None → row s2 n = row s1 n)); [|exact Hex].
    apply provision_always; [by intros w1 w2 H n _|]. intros w1 w2 x Hf n Hn.
    destruct (genesis_inv (w1, w2) _ _ _ Hf) as [Ho [[Hs _]|(Hs & _)]]; cbn in *;
      (destruct (decide (n = rg_ns g)) as [->|]; [done|by apply Ho]). }
  apply provision_inv in Hex as [[Hr ->]|(u & [(Hr & -> & _)|(s & x & -> & Hu & Hf & Hr)])].
  - split; [done|]. intros v Hv. by destruct (Hr v).
  - split; [intros _; split; [by repeat constructor|done]|]. intros v Hv. by destruct (Hr v).
  - split; [intros Hno; apply Forall_cons in Hno as [Hno _]; by destruct Hno|].
    intros v Hv%Hr. subst x. exists (u, u), s. apply genesis_inv in Hf as [_ [[_ Hno]|(H1 & H2 & _)]]; [by destruct (Hno v)|done].
Qed.
End concurrency.
