(* ===== verification/World.v ===== *)
(** * The verifier's shared state

    One verifier process serves many requests over shared components: the pair
    store and the registry's failure tracker, the replay store, the anomaly
    engine, the two rate limiters, the audit log, the continuity gate, the clock
    and the random number generator.  [World] is their product, over any
    implementation of the interfaces; each [*_op] is one atomic call on one of
    them. *)

From S2P Require Import Prelude Proc JsNum Json Crypto Store Nonce RateLimiter Anomaly AuditChain.
From stdpp Require Import base strings list.
From Stdlib Require Import ZArith.

(** The gate of middleware.ts: throws while authorization is quarantined. *)
Class ContinuityGate (G : Type) := { assertAcceptable : Z → G → exc unit }.

(** registry.ts: the fields of [PairRegistry] beside its store. *)
Record IpFailure := mkIpFailure { if_count : Z; if_windowStart : Z }.
Record PairRegistry := mkRegistry {
  reg_atomic : bool;         (* isAtomicPairStore(store) *)
  reg_maxPairs : Z;
  reg_lockoutCount : Z;
  reg_ipFailureTracker : list (string * IpFailure);
}.

Record World (S N A L U G : Type) := mkWorld {
  w_now : Z;
  w_random : nat → list Z;   (* the n-th 16 bytes of getRandomValues *)
  w_draws : nat;
  w_store : S;
  w_registry : PairRegistry;
  w_nonces : ServerNonceStore N;
  w_anomaly : AnomalyEngine A;
  w_ipLimiter : option L;
  w_limiter : option L;
  w_audit : option U;
  w_gate : option G;
}.
Arguments mkWorld {S N A L U G}.
Arguments w_now {S N A L U G}.
Arguments w_random {S N A L U G}.
Arguments w_draws {S N A L U G}.
Arguments w_store {S N A L U G}.
Arguments w_registry {S N A L U G}.
Arguments w_nonces {S N A L U G}.
Arguments w_anomaly {S N A L U G}.
Arguments w_ipLimiter {S N A L U G}.
Arguments w_limiter {S N A L U G}.
Arguments w_audit {S N A L U G}.
Arguments w_gate {S N A L U G}.

Section world.
Context {S N A L U G : Type}.
Notation W := (World S N A L U G).
Implicit Types w : W.

Definition set_draws (n : nat) w : W :=
  mkWorld (w_now w) (w_random w) n (w_store w) (w_registry w) (w_nonces w) (w_anomaly w)
    (w_ipLimiter w) (w_limiter w) (w_audit w) (w_gate w).
Definition set_store (s : S) w : W :=
  mkWorld (w_now w) (w_random w) (w_draws w) s (w_registry w) (w_nonces w) (w_anomaly w)
    (w_ipLimiter w) (w_limiter w) (w_audit w) (w_gate w).
Definition set_registry (r : PairRegistry) w : W :=
  mkWorld (w_now w) (w_random w) (w_draws w) (w_store w) r (w_nonces w) (w_anomaly w)
    (w_ipLimiter w) (w_limiter w) (w_audit w) (w_gate w).
Definition set_nonces (n : ServerNonceStore N) w : W :=
  mkWorld (w_now w) (w_random w) (w_draws w) (w_store w) (w_registry w) n (w_anomaly w)
    (w_ipLimiter w) (w_limiter w) (w_audit w) (w_gate w).
Definition set_anomaly (a : AnomalyEngine A) w : W :=
  mkWorld (w_now w) (w_random w) (w_draws w) (w_store w) (w_registry w) (w_nonces w) a
    (w_ipLimiter w) (w_limiter w) (w_audit w) (w_gate w).
Definition set_limiters (ip pair : option L) w : W :=
  mkWorld (w_now w) (w_random w) (w_draws w) (w_store w) (w_registry w) (w_nonces w) (w_anomaly w)
    ip pair (w_audit w) (w_gate w).
Definition set_audit (u : option U) w : W :=
  mkWorld (w_now w) (w_random w) (w_draws w) (w_store w) (w_registry w) (w_nonces w) (w_anomaly w)
    (w_ipLimiter w) (w_limiter w) u (w_gate w).

(** ** Atomic calls *)

Definition date_now : proc W Z := read w_now.

Definition random_bytes : proc W (list Z) :=
  call (λ w, (set_draws (w_draws w + 1) w, w_random w (w_draws w))).

(** [generateId(prefix)] *)
Definition fresh_id (prefix : string) : proc W string :=
  call (λ w, (set_draws (w_draws w + 1) w, generateId prefix (w_random w (w_draws w)))).

Definition store_op {B} (f : S → S * exc B) : proc W (exc B) :=
  call (λ w, let '(s, r) := f (w_store w) in (set_store s w, r)).

Definition registry_op {B} (f : Z → PairRegistry → PairRegistry * B) : proc W B :=
  call (λ w, let '(r, b) := f (w_now w) (w_registry w) in (set_registry r w, b)).

Definition nonce_op `{NonceBackend N} (nonce : string) : proc W (exc bool) :=
  call (λ w, let '(n, r) := ServerNonceStore_checkAndConsume nonce (w_now w) (w_nonces w) in (set_nonces n w, r)).

(** A call on the anomaly engine's counter store, and a synchronous change of
    its maps. *)
Definition counter_op {B} (f : Z → A → A * exc B) : proc W (exc B) :=
  call (λ w, let e := w_anomaly w in
             let '(a, r) := f (w_now w) (ae_store e) in
             (set_anomaly (mkEngine a (ae_shadowState e) (ae_tarpitState e)) w, r)).
Definition engine_op {B} (f : Z → AnomalyEngine A → AnomalyEngine A * B) : proc W B :=
  call (λ w, let '(e, b) := f (w_now w) (w_anomaly w) in (set_anomaly e w, b)).

(** [config.ipRateLimiter.check] and [config.rateLimiter.check]; [None] when
    the limiter is not configured. *)
Definition ip_limiter_op `{RateLimiter L} (key : string) : proc W (exc (option RateLimitResult)) :=
  call (λ w, match w_ipLimiter w with
             | None => (w, Ret None)
             | Some l => let '(l, r) := limiter_check key (w_now w) l in
                         (set_limiters (Some l) (w_limiter w) w, Some <$> r)
             end).
Definition limiter_op `{RateLimiter L} (key : string) : proc W (exc (option RateLimitResult)) :=
  call (λ w, match w_limiter w with
             | None => (w, Ret None)
             | Some l => let '(l, r) := limiter_check key (w_now w) l in
                         (set_limiters (w_ipLimiter w) (Some l) w, Some <$> r)
             end).

(** [config.auditLog?.write(entry)] *)
Definition audit_op `{AuditLog U} (entry : AuditInput) : proc W (exc unit) :=
  call (λ w, match w_audit w with
             | None => (w, Ret tt)
             | Some u => let '(u, r) := audit_write entry (w_now w) u in (set_audit (Some u) w, r)
             end).

(** [config.continuityGuard.assertAcceptable()] *)
Definition gate_op `{ContinuityGate G} : proc W (exc unit) :=
  read (λ w, match w_gate w with None => Ret tt | Some g => assertAcceptable (w_now w) g end).

(** What a single call does when it runs. *)
Lemma run_store_op {B} (f : S → S * exc B) w :
  run (store_op f) w = (set_store (f (w_store w)).1 w, (f (w_store w)).2).
Proof. cbn. by destruct (f (w_store w)). Qed.

Lemma run_nonce_op `{NonceBackend N} nonce w : run (nonce_op nonce) w =
  (set_nonces (ServerNonceStore_checkAndConsume nonce (w_now w) (w_nonces w)).1 w,
   (ServerNonceStore_checkAndConsume nonce (w_now w) (w_nonces w)).2).
Proof. cbn. by destruct (ServerNonceStore_checkAndConsume _ _ _). Qed.
End world.
