(* ===== verification/AnomalyEngine.v ===== *)
(** * The anomaly engine's asynchronous methods (packages/server/src/anomaly.ts)

    Each counter access is one step; [enterShadowState] and the map update of
    [applyTarpit] are synchronous.  The tarpit's wait is a step in which only
    the environment (the clock included) moves. *)

From S2P Require Import Prelude Proc JsNum Json Crypto Store Nonce RateLimiter Anomaly AuditChain World.
From stdpp Require Import base strings list.
From Stdlib Require Import ZArith Lia.

Local Open Scope bpc_scope.

Section engine.
Context {S N A L U G : Type} `{!AnomalyStore A}.
Notation W := (World S N A L U G).

Definition increment (key : string) : proc W (exc Z) :=
  counter_op (λ now a, counter_increment key WINDOW_MS now a).
Definition counter (key : string) : proc W (exc Z) := counter_op (λ now a, counter_get key now a).

(** [if (pairId) ...]: an undefined or empty identifier is false. *)
Definition present (o : option string) : option string :=
  match o with Some s => if decide (s = EmptyString) then None else Some s | None => None end.

(** The global counter and, when there is a pair, the pair's. *)
Definition record (name : string) (pairId : option string) : proc W (exc unit) :=
  do+ increment ("global:" +:+ name) in
  match present pairId with
  | Some p => do+ increment ("pair:" +:+ p +:+ ":" +:+ name) in eret tt
  | None => eret tt
  end.

Definition recordRequest (pairId : option string) : proc W (exc unit) := record "total" pairId.
Definition recordDenied (pairId : option string) : proc W (exc unit) := record "denied" pairId.
Definition recordUnknownPair : proc W (exc unit) := record "unknown_pair" None.
Definition recordSigFailure (pairId : option string) : proc W (exc unit) := record "sig_fail" pairId.
Definition recordReplay (pairId : option string) : proc W (exc unit) := record "replay" pairId.
Definition recordExpiredTimestamp (pairId : option string) : proc W (exc unit) := record "expired_ts" pairId.

Definition ipPairKey (sourceIp pairId : string) : string :=
  "ip:" +:+ sourceIp +:+ ":pair:" +:+ pairId +:+ ":sig_fail".

Definition recordSigFailureForIp (pairId sourceIp : string) : proc W (exc unit) :=
  do+ increment (ipPairKey sourceIp pairId) in recordSigFailure (Some pairId).

Definition threatScore : proc W (exc Z) :=
  let+ total := counter "global:total" in
  if decide (total = 0)%Z then eret 0%Z
  else
    let+ unknownPair := counter "global:unknown_pair" in
    let+ sigFail := counter "global:sig_fail" in
    let+ replay := counter "global:replay" in
    let+ expiredTs := counter "global:expired_ts" in
    eret (score total unknownPair sigFail replay expiredTs).

Definition enterShadow (pairId sourceIp reason : string) : proc W unit :=
  engine_op (λ now e, (enterShadowState pairId sourceIp reason now e, tt)).

Definition getVerdict (pairId sourceIp : string) : proc W (exc AnomalyVerdict) :=
  let* inShadow := read (λ w : W, isInShadowState pairId sourceIp (w_anomaly w)) in
  if (inShadow : bool) then eret shadow
  else
    let+ ipPairSigFails := counter (ipPairKey sourceIp pairId) in
    if decide (SHADOW_SIG_FAIL_THRESHOLD <= ipPairSigFails)%Z then
      do* enterShadow pairId sourceIp ("sig_fail_threshold:" +:+ z_to_string ipPairSigFails) in
      eret shadow
    else if decide (SUSPICIOUS_SIG_FAIL_THRESHOLD <= ipPairSigFails)%Z then eret suspicious
    else
      let+ s := threatScore in
      if decide (70 <= s)%Z then eret attack else eret clean.

(** [setTimeout(resolve, ms)] *)
Definition sleep (ms : Z) : proc W unit := read (λ _, tt).

Definition applyTarpit (sourceIp : string) (verdict : AnomalyVerdict) : proc W Z :=
  let delayMs := TARPIT_DELAY_MS verdict in
  if decide (0 < delayMs)%Z then
    do* engine_op (λ now e, (setTarpit sourceIp verdict now e, tt)) in
    do* sleep delayMs in
    Done delayMs
  else Done delayMs.

Record AnomalyCounters := mkCounters {
  ac_unknownPairProbes : Z; ac_sigFailures : Z; ac_replayAttempts : Z;
  ac_expiredTimestamps : Z; ac_totalRequests : Z; ac_deniedRequests : Z;
}.
Definition counters : proc W (exc AnomalyCounters) :=
  let+ u := counter "global:unknown_pair" in
  let+ s := counter "global:sig_fail" in
  let+ r := counter "global:replay" in
  let+ x := counter "global:expired_ts" in
  let+ t := counter "global:total" in
  let+ d := counter "global:denied" in
  eret (mkCounters u s r x t d).

Record PairCounters := mkPairCounters { pc_total : Z; pc_denied : Z; pc_sigFail : Z; pc_replay : Z }.
Definition pairCounters (pairId : string) : proc W (exc PairCounters) :=
  let+ t := counter ("pair:" +:+ pairId +:+ ":total") in
  let+ d := counter ("pair:" +:+ pairId +:+ ":denied") in
  let+ s := counter ("pair:" +:+ pairId +:+ ":sig_fail") in
  let+ r := counter ("pair:" +:+ pairId +:+ ":replay") in
  eret (mkPairCounters t d s r).

(** ** The score stays on its scale under any interleaving *)

Context `{!AnomalyStoreLaws A}.

Definition anomaly_ok (w : W) : Prop := counters_ok (ae_store (w_anomaly w)).
Definition keeps_counters (w w' : W) : Prop := anomaly_ok w → anomaly_ok w'.

Lemma counter_exec key (w : W) tr w' v : anomaly_ok w →
  exec keeps_counters (counter key) w tr w' (Ret v) → anomaly_ok w' ∧ (0 <= v)%Z.
Proof.
  intros Hok (w1 & HR & Hf & _)%exec_call_inv. specialize (HR Hok). unfold anomaly_ok in *.
  destruct (counter_get key (w_now w1) (ae_store (w_anomaly w1))) as [a r] eqn:Hg. injection Hf as <- ->.
  cbn. split.
  - pose proof (counters_ok_get key (w_now w1) _ HR) as H. by rewrite Hg in H.
  - apply (counter_get_nonneg key (w_now w1) (ae_store (w_anomaly w1))); [done|by rewrite Hg].
Qed.

Lemma threatScore_exec (w : W) tr w' s : anomaly_ok w →
  exec keeps_counters threatScore w tr w' (Ret s) → (0 <= s <= 100)%Z.
Proof.
  intros Hok (total & w1 & ? & ? & Ht & Hex & _)%exec_ebind_inv.
  apply counter_exec in Ht as [Hok1 Ht]; [|done].
  case_decide; [apply exec_done_inv in Hex as (Heq & _); injection Heq as ->; lia|].
  apply exec_ebind_inv in Hex as (u & w2 & ? & ? & Hu & Hex & _). apply counter_exec in Hu as [Hok2 Hu]; [|done].
  apply exec_ebind_inv in Hex as (g & w3 & ? & ? & Hg & Hex & _). apply counter_exec in Hg as [Hok3 Hg]; [|done].
  apply exec_ebind_inv in Hex as (r & w4 & ? & ? & Hr & Hex & _). apply counter_exec in Hr as [Hok4 Hr]; [|done].
  apply exec_ebind_inv in Hex as (xp & w5 & ? & ? & Hx & Hex & _). apply counter_exec in Hx as [_ Hx]; [|done].
  apply exec_done_inv in Hex as (Heq & _). injection Heq as ->. by apply score_bounds.
Qed.
End engine.

(** ** Properties *)

(** The threat score stays on its scale: computed from five separate counter
    reads, with any interference that keeps the counters non-negative, it is
    between 0 and 100. *)
Theorem threat_score_in_range {S N A L U G} `{!AnomalyStore A} `{!AnomalyStoreLaws A}
    (w : World S N A L U G) tr w' s :
  anomaly_ok w → exec keeps_counters threatScore w tr w' (Ret s) → (0 <= s <= 100)%Z.
Proof. apply threatScore_exec. Qed.

(** Shadow mode is scoped to one address of one pair: entering it for an
    address changes the state of no other pair and of no other address (pair
    identifiers have no colon). *)
Theorem shadow_is_scoped {A} p ip p' ip' reason now (e : AnomalyEngine A) :
  all_chars (λ c, bool_decide (c ≠ ":"%char)) p = true →
  all_chars (λ c, bool_decide (c ≠ ":"%char)) p' = true →
  isInShadowState p' ip' (enterShadowState p ip reason now e) =
  (bool_decide (p' = p ∧ ip' = ip) || isInShadowState p' ip' e)%bool.
Proof.
  intros Hp Hp'. destruct (decide (p' = p ∧ ip' = ip)) as [[-> ->]|Hne].
  - by rewrite shadow_enter_in, bool_decide_true.
  - rewrite bool_decide_false by done. apply shadow_enter_other. intros Heq.
    destruct (shadowKey_inj _ _ _ _ Hp Hp' Heq). naive_solver.
Qed.
