(* ===== verification/Registry.v ===== *)
(** * The pair registry (packages/server/src/registry.ts)

    Registration, approval, ghost pairs, revocation, failure tracking with
    half-life decay, lifecycle transitions and the successful-use claim, over any
    [PairStore], with the atomic path when the store has it and the get/set path
    when it has not. *)

From S2P Require Import Prelude Proc JsNum Json Crypto Store MemoryStore Nonce RateLimiter Anomaly AuditChain World.
From stdpp Require Import base gmap strings list.
From Stdlib Require Import ZArith Lia.

Local Open Scope bpc_scope.

Definition MIN_SECRET_HASH_LEN : Z := 43.
Definition MAX_NAME_LEN : Z := 128.
Definition ALLOWED_SCOPES : list string := ["read"; "read-write"; "admin"].
Definition ALLOWED_MODES : list string := ["development"; "production"].
Definition IP_FAILURE_WINDOW_MS : Z := 300000.

Record RedactedPair := mkRedacted {
  rp_id : string; rp_name : string; rp_scope : string; rp_mode : string; rp_status : PairStatus;
  rp_created : Z; rp_lastActive : option Z; rp_requests : Z;
}.
Definition redact (p : StoredPair) : RedactedPair :=
  mkRedacted (sp_id p) (sp_name p) (sp_scope p) (sp_mode p) (sp_status p) (sp_created p)
    (sp_lastActive p) (sp_requests p).

(** ** Pure parts *)

Definition PairRegistry_new (isAtomic : bool) (maxPairs lockoutCount : Z) (requireAtomic : bool) :
    exc PairRegistry :=
  if (requireAtomic && negb isAtomic)%bool
  then Throw (PlainError "AtomicPairStore is required for a production PairRegistry")
  else Ret (mkRegistry isAtomic maxPairs lockoutCount []).

Definition set_tracker (t : list (string * IpFailure)) (r : PairRegistry) : PairRegistry :=
  mkRegistry (reg_atomic r) (reg_maxPairs r) (reg_lockoutCount r) t.

Definition evictStaleIpEntries (now : Z) (r : PairRegistry) : PairRegistry :=
  set_tracker (filter (λ e, ¬ (IP_FAILURE_WINDOW_MS < now - if_windowStart e.2)%Z) (reg_ipFailureTracker r)) r.

(** The failure counted against one address: the new entry. *)
Definition trackFailure (pairId ip : string) (now : Z) (r : PairRegistry) : PairRegistry * Z :=
  let ipKey := pairId +:+ ":" +:+ ip in
  let fresh := mkIpFailure 1 now in
  let entry := match om_get ipKey (reg_ipFailureTracker r) with
               | Some t => if decide (IP_FAILURE_WINDOW_MS < now - if_windowStart t)%Z then fresh
                           else mkIpFailure (if_count t + 1) (if_windowStart t)
               | None => fresh
               end in
  (set_tracker (om_set ipKey entry (reg_ipFailureTracker r)) r, if_count entry).

(** The entries of one pair are dropped after a successful claim. *)
Definition clearFailures (pairId : string) (r : PairRegistry) : PairRegistry :=
  set_tracker (filter (λ e, starts_with (pairId +:+ ":") e.1 = false) (reg_ipFailureTracker r)) r.

Definition applyCumulativeDecay (now : Z) (p : StoredPair) : dec * Z :=
  let firstFailure := default now (default None (sp_firstFailureAt p)) in
  let windowsElapsed := ((now - firstFailure) / IP_FAILURE_WINDOW_MS)%Z in
  let cumulative := default (Dec 0 0) (sp_cumulativeFailures p) in
  let cumulative := if decide (0 < windowsElapsed)%Z then dec_half cumulative (Z.to_nat windowsElapsed)
                    else cumulative in
  (dec_addZ cumulative 1, if decide (0 < windowsElapsed)%Z then now else firstFailure).

(** [apply] of [recordActivity]. *)
Definition applyFailure (lockoutCount now : Z) (ipFailures : option Z) (p : StoredPair) : StoredPair :=
  let failedSigs := match ipFailures with Some n => n | None => (sp_failedSigs p + 1)%Z end in
  let '(cum, first) := applyCumulativeDecay now p in
  let p := with_failures failedSigs (Some cum) (Some (Some first)) p in
  let p := if (bool_decide (lockoutCount <= failedSigs)%Z && isActive p)%bool then with_status locked p else p in
  if (dec_geZ cum (lockoutCount * 2) && isActive p)%bool then with_status locked p else p.

Definition validateRegistration (r : PairRegistration) : exc unit :=
  if decide (r_secretHash r = EmptyString ∨ str_len (r_secretHash r) < MIN_SECRET_HASH_LEN)%Z
  then Throw (PlainError ("Registration rejected: secretHash must be at least " +:+
    z_to_string MIN_SECRET_HASH_LEN +:+
    " characters. Use hashSecret() to derive a proper HKDF key from your secret."))
  else if decide (r_name r = EmptyString)
  then Throw (PlainError "Registration rejected: name is required")
  else if decide (MAX_NAME_LEN < str_len (r_name r))%Z
  then Throw (PlainError ("Registration rejected: name must be at most " +:+ z_to_string MAX_NAME_LEN +:+ " characters"))
  else if decide (r_scope r ∉ ALLOWED_SCOPES)
  then Throw (PlainError ("Registration rejected: scope must be one of: " +:+ str_join ", " ALLOWED_SCOPES))
  else if decide (r_mode r ∉ ALLOWED_MODES)
  then Throw (PlainError ("Registration rejected: mode must be one of: " +:+ str_join ", " ALLOWED_MODES))
  else if negb (is_nested (r_pubJwk r))
  then Throw (PlainError "Registration rejected: pubJwk is required")
  else Ret tt.

(** The pair a pending registration becomes. *)
Definition pairOfRegistration (pairId : string) (created : Z) (r : PairRegistration) : StoredPair :=
  mkPair pairId (r_name r) (r_scope r) (r_mode r) (r_secretHash r) (r_pubJwk r) active created None 0 0
    None None (r_expiresAt r) (r_maxRequests r) (Some (pair_kind (r_kind r))) (r_canaryClass r).

(** [updates]: an outer [None] is an absent key. *)
Record PairUpdates := mkUpdates {
  u_scope : option string;
  u_expiresAt : option (option Z);
  u_maxRequests : option (option Z);
  u_name : option string;
}.
Definition applyUpdates (u : PairUpdates) (p : StoredPair) : exc StoredPair :=
  match u_scope u with
  | Some s => if decide (s ∉ ALLOWED_SCOPES)
              then Throw (PlainError ("Invalid scope: " +:+ s +:+ ". Must be one of: " +:+ str_join ", " ALLOWED_SCOPES))
              else Ret tt
  | None => Ret tt
  end ≫= λ _,
  Ret (with_policy (default (sp_name p) (u_name u)) (default (sp_scope p) (u_scope u))
         (default (sp_expiresAt p) (u_expiresAt u)) (default (sp_maxRequests p) (u_maxRequests u)) p).

(** [claim] of the get/set path: the pair to write back and the outcome. *)
Definition legacyClaim (at_ : Z) (captured : SuccessfulUsePolicy) (p : StoredPair) :
    exc (StoredPair * SuccessfulUseClaim) :=
  if decide (sp_status p = expired) then
    if elapsed (sp_expiresAt p) at_ then Ret (p, time_expired)
    else if cap_reached (sp_maxRequests p) (sp_requests p) then Ret (p, usage_exhausted)
    else Ret (p, inactive)
  else if decide (sp_status p ≠ active) then Ret (p, inactive)
  else if elapsed (sp_expiresAt p) at_ then Ret (with_status expired p, time_expired)
  else if cap_reached (sp_maxRequests p) (sp_requests p) then Ret (with_status expired p, usage_exhausted)
  else
    m ← successfulUsePolicyMatches p captured;
    if (m : bool) then
      let p := with_activity (sp_requests p + 1) (Some at_) p in
      let p := with_failures 0 (Some (Dec 0 0)) (Some None) p in
      Ret (if cap_reached (sp_maxRequests p) (sp_requests p) then with_status expired p else p, claimed)
    else Ret (p, policy_changed).

(** ** Operations *)

Section registry.
Context {S N A L U G : Type} `{!PairStore S} `{!AtomicPairStore S}.
Notation W := (World S N A L U G).

Definition atomic : proc W bool := read (λ w, reg_atomic (w_registry w)).

Definition reg_get (pairId : string) : proc W (exc (option StoredPair)) := store_op (store_get pairId).
Definition reg_list : proc W (exc (list StoredPair)) := store_op store_list.
Definition reg_listPending : proc W (exc (list (string * Pending))) := store_op store_listPending.
Definition listRedacted : proc W (exc (list RedactedPair)) :=
  let+ ps := store_op store_list in eret (redact <$> ps).

Definition requestPairing (r : PairRegistration) : proc W (exc string) :=
  match validateRegistration r with
  | Throw e => ethrow e
  | Ret _ =>
      let+ ps := store_op store_list in
      let* maxPairs := read (λ w, reg_maxPairs (w_registry w)) in
      if decide (maxPairs <= Z.of_nat (length (filter (λ p, isActive p = true) ps)))%Z
      then ethrow (PlainError ("Maximum pair capacity (" +:+ z_to_string maxPairs +:+ ") reached"))
      else
        let* token := fresh_id "approval" in
        let* now := date_now in
        do+ store_op (store_setPending token r now) in
        eret token
  end.

Definition approvePairing (token : string) : proc W (exc string) :=
  let+ pending := store_op (store_getPending token) in
  match pending with
  | None => ethrow (PlainError ("No pending approval for token: " +:+ token))
  | Some pd =>
      let* pairId := fresh_id "pair" in
      let* now := date_now in
      let p := pairOfRegistration pairId now (pd_registration pd) in
      let* isAtomic := atomic in
      if (isAtomic : bool) then
        let* maxPairs := read (λ w, reg_maxPairs (w_registry w)) in
        let+ approved := store_op (approvePending token pd p maxPairs) in
        if (approved : bool) then eret pairId
        else ethrow (PlainError ("Pending approval changed or was already consumed: " +:+ token))
      else
        do+ store_op (store_deletePending token) in
        do+ store_op (store_set p) in
        eret pairId
  end.

Definition registerDirect (r : PairRegistration) : proc W (exc string) :=
  let+ token := requestPairing r in approvePairing token.

(** [{ ...registration, kind: 'ghost', canaryClass }] *)
Definition ghostRegistration (r : PairRegistration) (c : CanaryClass) : PairRegistration :=
  mkRegistration (r_name r) (r_scope r) (r_mode r) (r_secretHash r) (r_pubJwk r) (r_expiresAt r)
    (r_maxRequests r) (Some ghost) (Some c).
Definition registerGhostPair (r : PairRegistration) (c : CanaryClass) : proc W (exc string) :=
  registerDirect (ghostRegistration r c).

(** A change of one stored pair: in one atomic step, or read and written back. *)
Definition mutatePair (pairId : string) (f : StoredPair → exc StoredPair) : proc W (exc (option StoredPair)) :=
  let* isAtomic := atomic in
  if (isAtomic : bool) then store_op (atomicMutate pairId (λ p, Some <$> f p))
  else
    let+ p := store_op (store_get pairId) in
    match p with
    | None => eret None
    | Some p =>
        match f p with
        | Throw e => ethrow e
        | Ret p' => do+ store_op (store_set p') in eret (Some p')
        end
    end.

Definition reg_revoke (pairId : string) : proc W (exc unit) :=
  do+ mutatePair pairId (λ p, Ret (with_status revoked p)) in eret tt.

Definition unlockPair (p : StoredPair) : StoredPair :=
  if decide (sp_status p = locked)
  then with_failures 0 (sp_cumulativeFailures p) (sp_firstFailureAt p) (with_status active p) else p.

Definition unlock (pairId : string) : proc W (exc unit) :=
  let* isAtomic := atomic in
  if (isAtomic : bool) then do+ store_op (atomicMutate pairId (λ p, Ret (Some (unlockPair p)))) in eret tt
  else
    let+ p := store_op (store_get pairId) in
    match p with
    | Some p => if decide (sp_status p = locked) then store_op (store_set (unlockPair p)) else eret tt
    | None => eret tt
    end.

Definition updatePair (pairId : string) (u : PairUpdates) : proc W (exc (option StoredPair)) :=
  mutatePair pairId (applyUpdates u).

Definition conditionalStatus (cond : StoredPair → bool) (st : PairStatus) (pairId : string) : proc W (exc bool) :=
  let+ p := store_op (store_get pairId) in
  match p with
  | Some p => if cond p then do+ store_op (store_set (with_status st p)) in eret true else eret false
  | None => eret false
  end.

Definition markExpired (pairId : string) (now : Z) : proc W (exc bool) :=
  let* isAtomic := atomic in
  if (isAtomic : bool) then store_op (expireIfElapsed pairId now)
  else conditionalStatus (expirable now) expired pairId.
Definition markUsageExpired (pairId : string) : proc W (exc bool) :=
  let* isAtomic := atomic in
  if (isAtomic : bool) then store_op (expireIfUsageExhausted pairId)
  else conditionalStatus exhausted expired pairId.
Definition ensureLocked (pairId : string) (minimumFailures : Z) : proc W (exc bool) :=
  let* isAtomic := atomic in
  if (isAtomic : bool) then store_op (lockIfFailureThreshold pairId minimumFailures)
  else conditionalStatus (lockable minimumFailures) locked pairId.

Definition forgetFailures (pairId : string) : proc W unit :=
  registry_op (λ _ r, (clearFailures pairId r, tt)).

Definition claimSuccessfulUseOutcome (pairId : string) (at_ : Z) (expected : SuccessfulUsePolicy) :
    proc W (exc SuccessfulUseClaim) :=
  let* isAtomic := atomic in
  if (isAtomic : bool) then
    let+ outcome := store_op (store_claimSuccessfulUse pairId at_ expected) in
    do* (if decide (outcome = claimed) then forgetFailures pairId else Done tt) in
    eret outcome
  else
    let+ p := store_op (store_get pairId) in
    match p with
    | None => eret missing
    | Some p =>
        match legacyClaim at_ expected p with
        | Throw e => ethrow e
        | Ret (p', outcome) =>
            do+ store_op (store_set p') in
            do* (if decide (outcome = claimed) then forgetFailures pairId else Done tt) in
            eret outcome
        end
    end.

Definition claimSuccessfulUse (pairId : string) : proc W (exc bool) :=
  let+ p := store_op (store_get pairId) in
  match p with
  | None => eret false
  | Some p =>
      let* now := date_now in
      match successfulUsePolicy p with
      | Throw e => ethrow e
      | Ret policy =>
          let+ outcome := claimSuccessfulUseOutcome pairId now policy in
          eret (bool_decide (outcome = claimed))
      end
  end.

Definition recordActivity (pairId : string) (success : bool) (ip : option string) : proc W (exc unit) :=
  if success then
    do* registry_op (λ now r, (evictStaleIpEntries now r, tt)) in
    do+ claimSuccessfulUse pairId in eret tt
  else
    let* res := registry_op (λ now r,
      let r := evictStaleIpEntries now r in
      match ip with
      | Some ip => if decide (ip = EmptyString) then (r, (now, None))
                   else let '(r, n) := trackFailure pairId ip now r in (r, (now, Some n))
      | None => (r, (now, None))
      end) in
    let* lockoutCount := read (λ w, reg_lockoutCount (w_registry w)) in
    do+ mutatePair pairId (λ p, Ret (applyFailure lockoutCount res.1 res.2 p)) in
    eret tt.
End registry.
