(* ===== verification/Middleware.v ===== *)
(** * Request verification (packages/server/src/middleware.ts)

    [verifyBPCRequest] is the whole pipeline, step for step, as a process over
    the shared [World]: every [await] is a step, so other requests, lifecycle
    changes and the clock may come in between.  [Ret r] is the resolved
    [BPCVerifyResult]; [Throw e] is a rejected promise. *)

From S2P Require Import Prelude Proc JsNum Encoding Json Crypto Store Nonce RateLimiter Anomaly AuditChain World AnomalyEngine Registry.
From stdpp Require Import base gmap strings list.
From Stdlib Require Import ZArith Lia.

Local Open Scope bpc_scope.

Definition BPC_PROTOCOL_VERSION : string := "1.0".

Record BPCRequestData := mkRequest {
  rq_pairId : option string;
  rq_signedData : option string;
  rq_signature : option string;
  rq_method : string;
  rq_path : string;
  rq_version : option string;
  rq_bodyHash : option string;
  rq_ip : option string;
}.

(** Limiters, audit log and gate are fields of the [World]. *)
Record BPCServerConfig := mkConfig {
  cfg_sigWindowMs : Z;
  cfg_lockoutCount : option Z;
  cfg_enableShadowMode : option bool;
  cfg_enableTarpit : option bool;
}.
Definition DEFAULT_SERVER_CONFIG : BPCServerConfig := mkConfig 60000 None (Some true) (Some true).

Definition MAX_SIGNED_DATA_LEN : Z := 4096.
Definition MAX_SIGNATURE_LEN : Z := 256.
Definition MAX_PAIR_ID_LEN : Z := 64.

Definition ALLOWED_METHODS : list string := ["GET"; "HEAD"; "OPTIONS"; "POST"; "PUT"; "PATCH"; "DELETE"].

Definition SCOPE_ALLOWED_METHODS (scope : string) : option (list string) :=
  if decide (scope = "read") then Some ["GET"; "HEAD"; "OPTIONS"]
  else if decide (scope = "read-write") then Some ["GET"; "HEAD"; "OPTIONS"; "POST"; "PUT"; "PATCH"]
  else if decide (scope = "admin") then Some ["GET"; "HEAD"; "OPTIONS"; "POST"; "PUT"; "PATCH"; "DELETE"]
  else None.

(** [UUID_RE]: a pattern of hexadecimal digits, either case. *)
Fixpoint matches_pattern (p s : string) : bool :=
  match p, s with
  | EmptyString, EmptyString => true
  | String k p, String c s =>
      ((if decide (k = "x"%char) then is_hex c
        else if decide (k = "v"%char) then one_of "89abAB" c
        else bool_decide (c = k)) && matches_pattern p s)%bool
  | _, _ => false
  end.
Definition UUID_RE (s : string) : bool := matches_pattern "xxxxxxxx-xxxx-4xxx-vxxx-xxxxxxxxxxxx" s.

(** [/^[A-Za-z0-9_-]+$/] *)
Definition PAIR_ID_RE (s : string) : bool := (bool_decide (s ≠ EmptyString) && all_chars is_b64url_char s)%bool.

Definition to_upper_char (c : ascii) : ascii :=
  if is_lower c then ascii_of_N (char_code c - 32) else c.
(** [toUpperCase] on ASCII. *)
Definition toUpperCase (s : string) : string := unchars (to_upper_char <$> chars s).

(** ** Results *)

Record AuthSnapshot := mkSnapshot {
  sn_pairId : string;
  sn_scope : string;
  sn_mode : string;
  sn_kind : PairKind;
  sn_canaryClass : option CanaryClass;
  sn_verifiedAt : Z;
}.

Record BPCVerifyResult := mkResult {
  vr_ok : bool;
  vr_pairId : option string;
  vr_snapshot : option AuthSnapshot;
  vr_error : option string;
  vr_shadow : option bool;
  vr_tarpitDelayMs : option Z;
}.
Definition denied (error : string) : BPCVerifyResult := mkResult false None None (Some error) None None.
Definition shadowed (pairId error : string) (delayMs : Z) : BPCVerifyResult :=
  mkResult false (Some pairId) None (Some error) (Some true) (Some delayMs).

(** ** The captured context *)

Record AuthorizationContext := mkContext {
  au_pairId : string;
  au_scope : string;
  au_mode : string;
  au_kind : PairKind;
  au_canaryClass : option CanaryClass;
  au_status : PairStatus;
  au_failedSigs : Z;
  au_expiresAt : option Z;
  au_maxRequests : option Z;
  au_requests : Z;
  au_secretHash : string;
  au_pubJwk : jsval;
}.

Definition captureAuthorizationContext (p : StoredPair) : exc AuthorizationContext :=
  pubJwk ← canonicalAuthorizationJwk (sp_pubJwk p);
  Ret (mkContext (sp_id p) (sp_scope p) (sp_mode p) (pair_kind (sp_kind p)) (sp_canaryClass p) (sp_status p)
         (sp_failedSigs p) (sp_expiresAt p) (sp_maxRequests p) (sp_requests p) (sp_secretHash p) (jwk_value pubJwk)).

Definition expectedUsePolicy (a : AuthorizationContext) : SuccessfulUsePolicy :=
  mkPolicy (au_status a) (au_scope a) (au_mode a) (au_secretHash a) (au_pubJwk a) (au_expiresAt a)
    (au_maxRequests a) (au_kind a) (au_canaryClass a).

Definition snapshotOf (a : AuthorizationContext) (now : Z) : AuthSnapshot :=
  mkSnapshot (au_pairId a) (au_scope a) (au_mode a) (au_kind a) (au_canaryClass a) now.

Definition canary_string (c : option CanaryClass) : string :=
  match c with
  | Some env_file => "env_file" | Some docs => "docs" | Some registry_exfil => "registry_exfil"
  | None => "undefined"
  end.

(** ** Decoding the signed data *)

Definition decodePayload (signedData : string) : exc jsval :=
  json ← b64urlDecode signedData;
  _ ← assertNoForbiddenKeys json;
  parse json.

(** The fields the pipeline reads, with their types. *)
Definition is_string (v : jsval) : option string := match v with JStr s => Some s | _ => None end.
Definition is_finite (v : jsval) : option dec := match v with JNum (Fin d) => Some d | _ => None end.

Section middleware.
Context `{WC : WebCrypto} {S N A L U G : Type}.
Context `{!PairStore S} `{!AtomicPairStore S} `{!NonceBackend N} `{!AnomalyStore A} `{!RateLimiter L}
  `{!AuditLog U} `{!ContinuityGate G}.
Notation W := (World S N A L U G).
Notation result := (proc W (exc BPCVerifyResult)).

Section request.
Context (req : BPCRequestData) (config : BPCServerConfig).

Definition sourceIp : string := default "unknown" (rq_ip req).
Definition shadowEnabled : bool := negb (bool_decide (cfg_enableShadowMode config = Some false)).
Definition tarpitEnabled : bool := negb (bool_decide (cfg_enableTarpit config = Some false)).
Definition truthy_string (o : option string) : option string := present o.

Definition audit_entry (action : AuditAction) (severity : option AuditSeverity) (pairId error detail : option string) :
    AuditInput :=
  mkInput action severity pairId error (rq_ip req) (Some (rq_method req)) (Some (rq_path req)) None None detail.

Definition deny (error : string) (doSigFail : bool) : result :=
  do+ recordDenied (rq_pairId req) in
  do+ (if doSigFail then
         do+ recordSigFailure (rq_pairId req) in
         match present (rq_pairId req) with
         | Some p => recordSigFailureForIp p sourceIp
         | None => eret tt
         end
       else eret tt) in
  do+ audit_op (audit_entry verify_fail None (rq_pairId req) (Some error) None) in
  do+ match present (rq_pairId req) with
      | Some p => if doSigFail then recordActivity p false (Some sourceIp) else eret tt
      | None => eret tt
      end in
  eret (denied error).

(** [tarpitEnabled ? await anomaly.applyTarpit(sourceIp, 'shadow') : 0] *)
Definition shadowTarpit : proc W Z := if tarpitEnabled then applyTarpit sourceIp shadow else Done 0%Z.

(** The end of the pipeline, after the nonce has been consumed. *)
Definition finishRequest (pairId : string) (auth : AuthorizationContext) (now tarpitDelayApplied : Z) : result :=
  if decide (au_kind auth = ghost) then
    do* enterShadow pairId sourceIp ("ghost_pair_hit:" +:+ canary_string (au_canaryClass auth)) in
    let* delayMs := shadowTarpit in
    do+ audit_op (audit_entry ghost_pair_triggered (Some CRITICAL) (Some pairId) None
          (Some (stringify (JObj [
             ("canaryClass", match au_canaryClass auth with Some c => JStr (canary_string (Some c)) | None => JUndef end);
             ("sourceIp", JStr sourceIp); ("method", JStr (rq_method req)); ("path", JStr (rq_path req));
             ("timestamp", JNum (int now));
             ("alert", JStr "CONFIRMED_BREACH - canary credential used. Attacker IP auto-routed to shadow mode.")])))) in
    eret (shadowed pairId "ghost_pair_denied" delayMs)
  else
    let* at_ := date_now in
    let+ useClaim := claimSuccessfulUseOutcome pairId at_ (expectedUsePolicy auth) in
    match useClaim with
    | time_expired => deny "pair_expired" false
    | usage_exhausted => deny "pair_usage_cap_exceeded" false
    | claimed =>
        do+ audit_op (audit_entry verify_pass None (Some pairId) None None) in
        eret (mkResult true (Some pairId) (Some (snapshotOf auth now)) None None
                (if decide (0 < tarpitDelayApplied)%Z then Some tarpitDelayApplied else None))
    | _ => deny "pair_state_changed_retry" false
    end.

(** The replay gate: continuity, then the nonce. *)
Definition consumeNonce (pairId : string) (auth : AuthorizationContext) (rawNonce : string)
    (now tarpitDelayApplied : Z) : result :=
  let* acceptable := gate_op in
  match acceptable with
  | Throw _ => deny "authorization_quarantined" false
  | Ret _ =>
      let* replayDetected := nonce_op rawNonce in
      match replayDetected with
      | Throw (AuthorizationQuarantineError _ _) => deny "authorization_quarantined" false
      | Throw _ => deny "replay_store_unavailable" false
      | Ret true =>
          do+ recordReplay (Some pairId) in
          deny "replay_detected" false
      | Ret false => finishRequest pairId auth now tarpitDelayApplied
      end
  end.

(** Steps 8 to 12, which only look at the request and the payload: the error to
    deny with, if any. *)
Definition bindingChecks (pairId signature : string) (auth : AuthorizationContext) (payload : list (string * jsval)) :
    option (string * bool) :=
  let field k := own payload k in
  if decide (field "method" ≠ JStr (rq_method req) ∨ field "path" ≠ JStr (rq_path req))
  then Some ("method_path_mismatch", true)
  else if decide (field "pair_id" ≠ JStr pairId) then Some ("pair_id_mismatch", true)
  else if decide (field "version" ≠ JStr BPC_PROTOCOL_VERSION) then Some ("version_mismatch", true)
  else
    let wireMethod := toUpperCase (rq_method req) in
    let payloadMethod := match field "method" with JStr m => toUpperCase m | _ => EmptyString end in
    match SCOPE_ALLOWED_METHODS (au_scope auth) with
    | None => Some ("scope_violation", false)
    | Some allowed =>
        if decide (wireMethod ∉ allowed ∨ payloadMethod ∉ allowed) then Some ("scope_violation", false)
        else
          match field "body_hash" with
          | JStr bodyHash =>
              if decide (bodyHash = EmptyString) then Some ("missing_body_hash", true)
              else
                match present (rq_bodyHash req) with
                | None => Some ("missing_body_hash", true)
                | Some h =>
                    if decide (bodyHash ≠ h) then Some ("invalid_body_hash", true)
                    else
                      let valid :=
                        match importPublicKeyFromJwk (au_pubJwk auth) with
                        | Ret publicKey => verifyPayload publicKey (JObj payload) signature
                        | Throw _ => false
                        end in
                      if valid then None else Some ("invalid_signature", true)
                end
          | _ => Some ("missing_body_hash", true)
          end
    end.

(** Steps 6 to 12: the payload. *)
Definition checkPayload (pairId signedData signature : string) (auth : AuthorizationContext)
    (tarpitDelayApplied : Z) : result :=
  match decodePayload signedData with
  | Throw _ => deny "invalid_signed_data" true
  | Ret payload =>
      match prop payload "nonce", prop payload "timestamp", prop payload "secret_hmac" with
      | Ret rawNonce, Ret rawTimestamp, Ret secretHmac =>
          match is_string rawNonce with
          | Some nonce =>
              if negb (UUID_RE nonce) then deny "invalid_signed_data" true
              else
                match is_finite rawTimestamp with
                | None => deny "invalid_signed_data" true
                | Some timestamp =>
                    if negb (truthy secretHmac) then deny "missing_secret_hmac" true
                    else if decide (au_secretHash auth = EmptyString) then deny "invalid_secret_hmac" true
                    else
                      match verifySecretHmac (au_secretHash auth) nonce (Fin timestamp) secretHmac with
                      | Throw e => ethrow e
                      | Ret false => deny "invalid_secret_hmac" true
                      | Ret true =>
                          let* now := date_now in
                          if dec_far now timestamp (cfg_sigWindowMs config) then
                            do+ recordExpiredTimestamp (Some pairId) in
                            deny "timestamp_expired" true
                          else
                            match bindingChecks pairId signature auth
                                    (match payload with JObj l => l | _ => [] end) with
                            | Some (error, doSigFail) => deny error doSigFail
                            | None => consumeNonce pairId auth nonce now tarpitDelayApplied
                            end
                      end
                end
          | None => deny "invalid_signed_data" true
          end
      | Throw e, _, _ | _, Throw e, _ | _, _, Throw e => ethrow e
      end
  end.

(** The anomaly verdict, before the payload is looked at. *)
Definition checkVerdict (pairId signedData signature : string) (auth : AuthorizationContext) : result :=
  if (tarpitEnabled && bool_decide (sourceIp ≠ "unknown"))%bool then
    let+ verdict := getVerdict pairId sourceIp in
    match verdict with
    | suspicious =>
        let* delayMs := applyTarpit sourceIp suspicious in
        checkPayload pairId signedData signature auth delayMs
    | shadow =>
        do* enterShadow pairId sourceIp "verdict_shadow" in
        let* delayMs := applyTarpit sourceIp shadow in
        eret (shadowed pairId "shadow_denied" delayMs)
    | attack => deny "rate_limit_exceeded" false
    | clean => checkPayload pairId signedData signature auth 0
    end
  else checkPayload pairId signedData signature auth 0.

(** [auth.expiresAt && Date.now() > auth.expiresAt] *)
Definition past_expiry (e : option Z) (now : Z) : bool :=
  match e with Some e => (bool_decide (e ≠ 0%Z) && bool_decide (e < now)%Z)%bool | None => false end.

(** Step 5: the pair's status and limits. *)
Definition checkStatus (pairId signedData signature : string) (auth : AuthorizationContext) : result :=
  match au_status auth with
  | revoked => deny "pair_revoked" false
  | locked =>
      if shadowEnabled then
        do* enterShadow pairId sourceIp "pair_locked" in
        let* delayMs := shadowTarpit in
        do+ audit_op (audit_entry shadow_mode_enter (Some HIGH) (Some pairId) None
              (Some ("Locked pair " +:+ pairId +:+ " - attacker IP " +:+ sourceIp +:+ " routed to shadow mode"))) in
        eret (shadowed pairId "pair_locked" delayMs)
      else deny "pair_locked" false
  | rotated => deny "pair_rotated" false
  | expired => deny "pair_expired" false
  | active =>
      let lockoutCount := default 10%Z (cfg_lockoutCount config) in
      if decide (lockoutCount <= au_failedSigs auth)%Z then
        let+ isLocked := ensureLocked pairId lockoutCount in
        if negb isLocked then deny "pair_state_changed_retry" false
        else if shadowEnabled then
          do* enterShadow pairId sourceIp "failedSigs_threshold" in
          let* delayMs := shadowTarpit in
          eret (shadowed pairId "pair_locked" delayMs)
        else deny "pair_locked" false
      else
        let* now := date_now in
        if past_expiry (au_expiresAt auth) now then
          let* now2 := date_now in
          let+ done := markExpired pairId now2 in
          if negb done then deny "pair_state_changed_retry" false else deny "pair_expired" false
        else if cap_reached (au_maxRequests auth) (au_requests auth) then
          let+ done := markUsageExpired pairId in
          if negb done then deny "pair_state_changed_retry" false else deny "pair_usage_cap_exceeded" false
        else checkVerdict pairId signedData signature auth
  end.

(** Steps 1b to 4: the method, the headers and the pair. *)
Definition checkHeaders : result :=
  if decide (rq_method req ∉ ALLOWED_METHODS) then deny "invalid_method" false
  else
    match present (rq_pairId req), present (rq_signedData req), present (rq_signature req) with
    | Some pairId, Some signedData, Some signature =>
        if decide (MAX_PAIR_ID_LEN < str_len pairId ∨ MAX_SIGNED_DATA_LEN < str_len signedData ∨
                   MAX_SIGNATURE_LEN < str_len signature)%Z
        then deny "invalid_signed_data" false
        else if negb (PAIR_ID_RE pairId) then deny "invalid_signed_data" false
        else if decide (default "1.0" (rq_version req) ≠ BPC_PROTOCOL_VERSION) then deny "version_mismatch" false
        else
          let+ pair := reg_get pairId in
          match pair with
          | None => do+ recordUnknownPair in deny "unknown_pair" false
          | Some p =>
              match captureAuthorizationContext p with
              | Throw e => ethrow e
              | Ret auth => checkStatus pairId signedData signature auth
              end
          end
    | _, _, _ => deny "missing_headers" false
    end.

(** Steps 0 and 1: the limiters and the shadow state. *)
Definition verifyBPCRequest : result :=
  do+ recordRequest (rq_pairId req) in
  let+ ipLimit := match present (rq_ip req) with
                  | Some ip => ip_limiter_op ("ip:" +:+ ip)
                  | None => eret None
                  end in
  if match ipLimit with Some r => negb (rl_allowed r) | None => false end
  then deny "rate_limit_exceeded" false
  else
    let* inShadow := read (λ w : W, match present (rq_pairId req) with
                                    | Some p => (shadowEnabled && isInShadowState p sourceIp (w_anomaly w))%bool
                                    | None => false
                                    end) in
    if (inShadow : bool) then
      let pairId := default EmptyString (rq_pairId req) in
      let* delayMs := shadowTarpit in
      do+ audit_op (audit_entry shadow_mode_hit (Some CRITICAL) (Some pairId) None
            (Some ("Shadow mode active for IP " +:+ sourceIp +:+ " on pair " +:+ pairId))) in
      eret (shadowed pairId "shadow_denied" delayMs)
    else
      let+ pairLimit := match present (rq_pairId req) with
                        | Some p => limiter_op ("pair:" +:+ p)
                        | None => eret None
                        end in
      if match pairLimit with Some r => negb (rl_allowed r) | None => false end
      then deny "rate_limit_exceeded" false
      else checkHeaders.
End request.
End middleware.
