(* ===== verification/Verification.v ===== *)
(** * What a verdict of the verifier means

    Soundness of [verifyBPCRequest] under arbitrary interference: the steps of an
    accepting run are a fixed list of phases, one for each check of the source, on
    values captured from one read of the pair; its nonce was consumed after the
    cryptographic checks and a use was claimed after that.  No ghost pair is
    accepted. *)

From S2P Require Import Prelude Proc JsNum Encoding Json Crypto Store Nonce RateLimiter Anomaly AuditChain World AnomalyEngine Registry Middleware.
From stdpp Require Import base gmap strings list sets.
From Stdlib Require Import ZArith Lia.

Section soundness.
Context `{WC : WebCrypto} {S N A L U G : Type}.
Context `{!PairStore S} `{!AtomicPairStore S} `{!NonceBackend N} `{!AnomalyStore A} `{!RateLimiter L}
  `{!AuditLog U} `{!ContinuityGate G}.
Notation W := (World S N A L U G).
Implicit Types w : W.
Context (R : W → W → Prop).

(** ** Processes that never accept *)

Definition never_ok (p : proc W (exc BPCVerifyResult)) : Prop :=
  ∀ w tr w' r, exec R p w tr w' (Ret r) → vr_ok r = false.

Lemma never_ok_ret r : vr_ok r = false → never_ok (eret r).
Proof. intros Hr w tr w' r' (Heq & _)%exec_done_inv. congruence. Qed.
Lemma never_ok_throw e : never_ok (ethrow e).
Proof. intros w tr w' r (Heq & _)%exec_done_inv. congruence. Qed.
Lemma never_ok_bind {B} (p : proc W B) k : (∀ b, never_ok (k b)) → never_ok (pbind p k).
Proof. intros Hk w tr w' r (b & w1 & tr1 & tr2 & _ & Hex & _)%exec_bind_inv. by eapply Hk. Qed.
Lemma never_ok_ebind {B} (p : proc W (exc B)) k : (∀ b, never_ok (k b)) → never_ok (ebind p k).
Proof. intros Hk w tr w' r (b & w1 & tr1 & tr2 & _ & Hex & _)%exec_ebind_inv. by eapply Hk. Qed.

Lemma never_ok_deny req error b : never_ok (deny req error b).
Proof. unfold deny. do 4 (apply never_ok_ebind; intros ?). by apply never_ok_ret. Qed.

Lemma never_ok_exec p w tr w' r : never_ok p → exec R p w tr w' (Ret r) → vr_ok r = true → False.
Proof. intros Hp Hex Hr. by rewrite (Hp _ _ _ _ Hex) in Hr. Qed.

(** Close a branch whose process cannot accept. *)
Ltac refuse :=
  match goal with
  | Hex : exec R _ _ _ _ (Ret ?r), Hr : vr_ok ?r = true |- _ =>
      solve [ exfalso; refine (never_ok_exec _ _ _ _ _ _ Hex Hr); clear;
              repeat first [ apply never_ok_deny | apply never_ok_throw | apply never_ok_ret; reflexivity
                           | apply never_ok_ebind; intros ? | apply never_ok_bind; intros ? ] ]
  end.

(** ** What a run of accepted phases looks like

    A trace is read as a list of phases, each a predicate on its own steps;
    nothing of the trace is left out. *)

Fixpoint phases (Ps : list (steps W → Prop)) (tr : steps W) : Prop :=
  match Ps with
  | [] => tr = []
  | P :: Ps => ∃ t1 t2, tr = t1 ++ t2 ∧ P t1 ∧ phases Ps t2
  end.

(** The steps of a run of [p] that ended with [b]. *)
Definition ran {B} (p : proc W B) (b : B) (t : steps W) : Prop := ∃ w w', exec R p w t w' b.
(** One step, from a world to another. *)
Definition one (P : W → W → Prop) (t : steps W) : Prop := ∃ w w', t = [(w, w')] ∧ P w w'.

Lemma phases_cons P Ps t1 t2 : P t1 → phases Ps t2 → phases (P :: Ps) (t1 ++ t2).
Proof. intros. by exists t1, t2. Qed.
Lemma phases_app Ps Qs tr : phases (Ps ++ Qs) tr ↔ ∃ t1 t2, tr = t1 ++ t2 ∧ phases Ps t1 ∧ phases Qs t2.
Proof.
  revert tr. induction Ps as [|P Ps IH]; intros tr; simpl.
  - split; [by exists [], tr|]. by intros (? & t & -> & -> & ?).
  - split.
    + intros (t1 & t2 & -> & H & (t3 & t4 & -> & ? & ?)%IH). exists (t1 ++ t3), t4.
      rewrite <-app_assoc. split_and!; [done|by exists t1, t3|done].
    + intros (t & t2 & -> & (t1 & t3 & -> & ? & ?) & ?). exists t1, (t3 ++ t2).
      rewrite <-app_assoc. split_and!; [done|done|]. apply IH. by exists t3, t2.
Qed.
Lemma ran_exec {B} (p : proc W B) w tr w' b : exec R p w tr w' b → ran p b tr.
Proof. by exists w, w'. Qed.
Lemma one_call {B} (f : W → W * B) w tr w' b : exec R (call f) w tr w' b → one (λ u u', f u = (u', b)) tr.
Proof. intros (u & _ & Hf & ->)%exec_call_inv. by exists u, w'. Qed.
Lemma one_mono (P Q : W → W → Prop) t : (∀ u u', P u u' → Q u u') → one P t → one Q t.
Proof. intros H (u & u' & -> & ?). exists u, u'. auto. Qed.

(** ** The phases *)

(** A limiter that is configured allowed the request. *)
Definition limiter_passed (get : W → option L) (set : L → W → W) (key : string) (w w' : W) : Prop :=
  match get w with
  | None => w' = w
  | Some l => ∃ l' res, limiter_check key (w_now w) l = (l', Ret res) ∧ rl_allowed res = true ∧ w' = set l' w
  end.
Definition ip_limit_passed (ip : option string) (t : steps W) : Prop :=
  match ip with
  | None => t = []
  | Some ip => one (limiter_passed w_ipLimiter (λ l w, set_limiters (Some l) (w_limiter w) w) ("ip:" +:+ ip)%string) t
  end.
Definition pair_limit_passed (pairId : string) : steps W → Prop :=
  one (limiter_passed w_limiter (λ l w, set_limiters (w_ipLimiter w) (Some l) w) ("pair:" +:+ pairId)%string).

(** The address is not in shadow mode for the pair, unless shadow mode is off. *)
Definition out_of_shadow (req : BPCRequestData) (config : BPCServerConfig) (pairId : string) (w w' : W) : Prop :=
  w' = w ∧ (shadowEnabled config = true → isInShadowState pairId (sourceIp req) (w_anomaly w) = false).

(** The step that read the pair. *)
Definition pair_read (pairId : string) (p : StoredPair) (w w' : W) : Prop :=
  store_get pairId (w_store w) = (w_store w', Ret (Some p)) ∧ w' = set_store (w_store w') w.

Definition unexpired (auth : AuthorizationContext) (w w' : W) : Prop :=
  w' = w ∧ past_expiry (au_expiresAt auth) (w_now w) = false.

(** The verdict on a known address, when the tarpit is on: clean, or suspicious
    and delayed. *)
Definition verdict_passed (req : BPCRequestData) (config : BPCServerConfig) (pairId : string) (delay : Z) (t : steps W) : Prop :=
  if (tarpitEnabled config && bool_decide (sourceIp req ≠ "unknown"))%bool then
    (ran (getVerdict pairId (sourceIp req)) (Ret clean) t ∧ delay = 0%Z) ∨
    phases [ran (getVerdict pairId (sourceIp req)) (Ret suspicious); ran (applyTarpit (sourceIp req) suspicious) delay] t
  else t = [] ∧ delay = 0%Z.

Definition clock_read (now : Z) (w w' : W) : Prop := w' = w ∧ w_now w = now.
Definition gate_open (w w' : W) : Prop :=
  w' = w ∧ match w_gate w with None => True | Some g => assertAcceptable (w_now w) g = Ret tt end.

(** The step that consumed the nonce. *)
Definition consumed (nonce : string) (s : W * W) : Prop :=
  ServerNonceStore_checkAndConsume nonce (w_now s.1) (w_nonces s.1) = (w_nonces s.2, Ret false) ∧
  s.2 = set_nonces (w_nonces s.2) s.1.

Definition passed_audited (req : BPCRequestData) (pairId : string) (w w' : W) : Prop :=
  match w_audit w with
  | None => w' = w
  | Some u => ∃ u', audit_write (audit_entry req verify_pass None (Some pairId) None None) (w_now w) u = (u', Ret tt) ∧
                w' = set_audit (Some u') w
  end.

(** From the replay gate on. *)
Definition final_phases (req : BPCRequestData) (pairId nonce : string) (auth : AuthorizationContext) (at_ : Z) :
    list (steps W → Prop) :=
  [ one gate_open;
    one (λ w w', consumed nonce (w, w'));
    one (clock_read at_);
    ran (claimSuccessfulUseOutcome pairId at_ (expectedUsePolicy auth)) (Ret claimed);
    one (passed_audited req pairId) ].

(** The answer to an accepted request. *)
Definition accepted_result (pairId : string) (auth : AuthorizationContext) (now delay : Z) : BPCVerifyResult :=
  mkResult true (Some pairId) (Some (snapshotOf auth now)) None None (if decide (0 < delay)%Z then Some delay else None).

(** ** The phases of an accepting run, from the last to the first *)

Lemma audit_passed req pairId w tr w' :
  exec R (audit_op (audit_entry req verify_pass None (Some pairId) None None)) w tr w' (Ret tt) →
  one (passed_audited req pairId) tr.
Proof.
  intros Hex. eapply one_mono; [|by eapply one_call]. cbv beta. intros u u'. unfold passed_audited.
  destruct (w_audit u) as [l|]; [|by intros [= <-]].
  destruct (audit_write _ _ l) as [l' x]. intros [= <- ->]. by exists l'.
Qed.
Lemma now_read w tr w' now : exec R date_now w tr w' now → one (clock_read now) tr.
Proof. intros Hex. eapply one_mono; [|by eapply one_call]. by intros u u' [= <- <-]. Qed.

Lemma finish_ok req config pairId auth now delay w tr w' r :
  exec R (finishRequest req config pairId auth now delay) w tr w' (Ret r) → vr_ok r = true →
  au_kind auth ≠ ghost ∧ r = accepted_result pairId auth now delay ∧
  ∃ at_, phases [one (clock_read at_); ran (claimSuccessfulUseOutcome pairId at_ (expectedUsePolicy auth)) (Ret claimed);
                 one (passed_audited req pairId)] tr.
Proof.
  unfold finishRequest. destruct (decide (au_kind auth = ghost)) as [Hg|Hg]; intros Hex Hr; [refuse|].
  split; [done|].
  apply exec_bind_inv in Hex as (at_ & w1 & tr1 & tr2 & Hat & Hex & ->).
  apply exec_ebind_inv in Hex as (c & w2 & tr3 & tr4 & Hc & Hex & ->).
  destruct c; try refuse.
  apply exec_ebind_inv in Hex as ([] & w3 & tr5 & tr6 & Ha & Hex & ->).
  apply exec_done_inv in Hex as (Heq & -> & _). injection Heq as ->. split; [done|]. exists at_.
  repeat apply phases_cons; [by eapply now_read|by eapply ran_exec|by eapply audit_passed|done].
Qed.

Lemma nonce_consumed nonce w tr w' : exec R (nonce_op nonce) w tr w' (Ret false) → one (λ u u', consumed nonce (u, u')) tr.
Proof.
  intros Hex. eapply one_mono; [|by eapply one_call]. cbv beta. intros u u'. unfold consumed. cbn [fst snd].
  destruct (ServerNonceStore_checkAndConsume nonce (w_now u) (w_nonces u)) as [n x]. by intros [= <- ->].
Qed.

Lemma consume_ok req config pairId auth nonce now delay w tr w' r :
  exec R (consumeNonce req config pairId auth nonce now delay) w tr w' (Ret r) → vr_ok r = true →
  au_kind auth ≠ ghost ∧ r = accepted_result pairId auth now delay ∧
  ∃ at_, phases (final_phases req pairId nonce auth at_) tr.
Proof.
  unfold consumeNonce. intros Hex Hr.
  apply exec_bind_inv in Hex as (g & w1 & tr1 & tr2 & Hg & Hex & ->).
  destruct g as [[]|e]; [|refuse].
  apply exec_bind_inv in Hex as (b & w2 & tr3 & tr4 & Hn & Hex & ->).
  destruct b as [[]|e]; [refuse| |destruct e; refuse].
  apply finish_ok in Hex as (Hk & -> & at_ & Ht); [|done]. split_and!; [done|done|]. exists at_.
  repeat apply phases_cons; [|by eapply nonce_consumed|done].
  eapply one_mono; [|by eapply one_call]. intros u u' [= <- H]. unfold gate_open. by destruct (w_gate u).
Qed.

(** What [bindingChecks] established when it found no error. *)
Record bound (req : BPCRequestData) (pairId signature : string) (auth : AuthorizationContext)
    (payload : list (string * jsval)) : Prop := {
  b_method : own payload "method" = JStr (rq_method req);
  b_path : own payload "path" = JStr (rq_path req);
  b_pair : own payload "pair_id" = JStr pairId;
  b_version : own payload "version" = JStr BPC_PROTOCOL_VERSION;
  b_scope : ∃ allowed, SCOPE_ALLOWED_METHODS (au_scope auth) = Some allowed ∧ toUpperCase (rq_method req) ∈ allowed;
  b_body : ∃ h, rq_bodyHash req = Some h ∧ h ≠ EmptyString ∧ own payload "body_hash" = JStr h;
  b_signature : ∃ pk, importPublicKeyFromJwk (au_pubJwk auth) = Ret pk ∧
    verifyPayload pk (JObj payload) signature = true;
}.

Lemma present_Some o s : present o = Some s ↔ o = Some s ∧ s ≠ EmptyString.
Proof. unfold present. destruct o; [case_decide|]; naive_solver. Qed.

Lemma binding_ok req pairId signature auth payload :
  bindingChecks req pairId signature auth payload = None ↔ bound req pairId signature auth payload.
Proof.
  unfold bindingChecks. split.
  - destruct (decide (_ ∨ _)) as [|H1]; [done|].
    destruct (decide (own payload "pair_id" ≠ _)) as [|H2]; [done|].
    destruct (decide (own payload "version" ≠ _)) as [|H3]; [done|].
    destruct (SCOPE_ALLOWED_METHODS (au_scope auth)) as [allowed|] eqn:Hs; [|done].
    destruct (decide (_ ∉ allowed ∨ _)) as [|H4]; [done|].
    destruct (own payload "body_hash") as [| | | |h| |] eqn:Hb; try done.
    destruct (decide (h = EmptyString)) as [|H5]; [done|].
    destruct (present (rq_bodyHash req)) as [h'|] eqn:Hp; [|done].
    destruct (decide (h ≠ h')) as [|H6]; [done|].
    destruct (importPublicKeyFromJwk (au_pubJwk auth)) as [pk|] eqn:Hi; [|done].
    destruct (verifyPayload pk (JObj payload) signature) eqn:Hv; [|done]. intros _.
    apply dec_stable in H2, H3, H6. apply Decidable.not_or in H1 as [H1 H1'], H4 as [H4 _].
    apply dec_stable in H1, H1', H4. subst h'. apply present_Some in Hp as [Hp _].
    split; eauto.
  - intros [Hm Hp Hpi Hv (allowed & Hs & Hin) (h & Hh & Hne & Hb) (pk & Hi & Hver)].
    rewrite decide_False by naive_solver. rewrite decide_False by naive_solver.
    rewrite decide_False by naive_solver. rewrite Hs, Hm.
    rewrite decide_False by naive_solver. rewrite Hb, decide_False by done.
    assert (present (rq_bodyHash req) = Some h) as -> by (by apply present_Some).
    rewrite decide_False by naive_solver. by rewrite Hi, Hver.
Qed.

(** Everything established about the payload. *)
Record checked (req : BPCRequestData) (config : BPCServerConfig) (pairId signedData signature : string)
    (auth : AuthorizationContext) (nonce : string) (now : Z) : Prop := {
  ck_payload : ∃ payload timestamp hmac,
    decodePayload signedData = Ret (JObj payload) ∧
    own payload "nonce" = JStr nonce ∧ UUID_RE nonce = true ∧
    own payload "timestamp" = JNum (Fin timestamp) ∧
    dec_far now timestamp (cfg_sigWindowMs config) = false ∧
    own payload "secret_hmac" = hmac ∧ au_secretHash auth ≠ EmptyString ∧
    verifySecretHmac (au_secretHash auth) nonce (Fin timestamp) hmac = Ret true ∧
    bound req pairId signature auth payload;
}.

Lemma prop_Ret v k x : prop v k = Ret x →
  x = JUndef ∨ ∃ l, v = JObj l ∧ x = own l k.
Proof. destruct v; simpl; intros [= <-]; eauto. Qed.

Lemma payload_ok req config pairId signedData signature auth delay w tr w' r :
  exec R (checkPayload req config pairId signedData signature auth delay) w tr w' (Ret r) → vr_ok r = true →
  au_kind auth ≠ ghost ∧ ∃ nonce now at_, checked req config pairId signedData signature auth nonce now ∧
    r = accepted_result pairId auth now delay ∧ phases (one (clock_read now) :: final_phases req pairId nonce auth at_) tr.
Proof.
  unfold checkPayload. intros Hex Hr.
  destruct (decodePayload signedData) as [payload|] eqn:Hd; [|refuse].
  destruct (prop payload "nonce") as [vn|] eqn:Hn; [|refuse].
  destruct (prop payload "timestamp") as [vt|] eqn:Ht; [|refuse].
  destruct (prop payload "secret_hmac") as [hm|] eqn:Hh; [|refuse].
  destruct (is_string vn) as [nonce|] eqn:Hs; [|refuse].
  destruct (UUID_RE nonce) eqn:Hu; [|refuse]. cbn [negb] in Hex.
  destruct (is_finite vt) as [ts|] eqn:Hf; [|refuse].
  destruct (truthy hm) eqn:Htr; [|refuse]. cbn [negb] in Hex.
  destruct (decide (au_secretHash auth = EmptyString)); [refuse|].
  destruct (verifySecretHmac _ nonce _ hm) as [[]|] eqn:Hv; [|refuse..].
  apply exec_bind_inv in Hex as (now & w1 & tr1 & tr2 & Hnow & Hex & ->).
  destruct (dec_far now ts _) eqn:Hfar; [refuse|].
  destruct vn as [| | | |s| |]; try done. injection Hs as ->.
  apply prop_Ret in Hn as [?|(l & -> & Hn)]; [done|].
  destruct (bindingChecks _ _ _ _ _) as [[err b]|] eqn:Hb; [refuse|].
  apply consume_ok in Hex as (Hk & -> & at_ & Hph); [|done].
  split; [done|]. exists nonce, now, at_. split_and!; [|done|apply phases_cons; [by eapply now_read|done]].
  destruct vt as [| | |[d| |]| | |]; try done. injection Hf as ->.
  apply prop_Ret in Ht as [?|(l' & [= <-] & Ht)]; [done|].
  split. exists l, ts, (own l "secret_hmac"). simpl in Hh. injection Hh as <-.
  split_and!; try done. by apply binding_ok.
Qed.

Lemma verdict_ok req config pairId signedData signature auth w tr w' r :
  exec R (checkVerdict req config pairId signedData signature auth) w tr w' (Ret r) → vr_ok r = true →
  au_kind auth ≠ ghost ∧ ∃ delay nonce now at_, checked req config pairId signedData signature auth nonce now ∧
    r = accepted_result pairId auth now delay ∧
    phases (verdict_passed req config pairId delay :: one (clock_read now) :: final_phases req pairId nonce auth at_) tr.
Proof.
  unfold checkVerdict, verdict_passed. intros Hex Hr.
  destruct (_ && _)%bool.
  2: { apply payload_ok in Hex as (Hk & nonce & now & at_ & Hc & -> & Hph); [|done]. split; [done|].
       exists 0%Z, nonce, now, at_. split_and!; [done|done|]. by apply (phases_cons _ _ []). }
  apply exec_ebind_inv in Hex as (v & w1 & tr1 & tr2 & Hv & Hex & ->).
  destruct v; [|..|refuse].
  - apply payload_ok in Hex as (Hk & nonce & now & at_ & Hc & -> & Hph); [|done]. split; [done|].
    exists 0%Z, nonce, now, at_. split_and!; [done|done|]. apply phases_cons; [|done]. left. split; [by eapply ran_exec|done].
  - apply exec_bind_inv in Hex as (d & w2 & tr3 & tr4 & Hd & Hex & ->).
    apply payload_ok in Hex as (Hk & nonce & now & at_ & Hc & -> & Hph); [|done]. split; [done|].
    exists d, nonce, now, at_. split_and!; [done|done|]. rewrite app_assoc. apply phases_cons; [|done]. right.
    apply phases_cons; [by eapply ran_exec|]. rewrite <-(app_nil_r tr3). apply phases_cons; [by eapply ran_exec|done].
  - refuse.
Qed.

(** The pair as it was read admits the request. *)
Record admits (config : BPCServerConfig) (p : StoredPair) (auth : AuthorizationContext) : Prop := {
  am_captured : captureAuthorizationContext p = Ret auth;
  am_status : au_status auth = active;
  am_failures : (au_failedSigs auth < default 10 (cfg_lockoutCount config))%Z;
  am_uses : cap_reached (au_maxRequests auth) (au_requests auth) = false;
  am_kind : au_kind auth ≠ ghost;
}.

Lemma status_ok req config pairId signedData signature auth w tr w' r :
  exec R (checkStatus req config pairId signedData signature auth) w tr w' (Ret r) → vr_ok r = true →
  au_status auth = active ∧ (au_failedSigs auth < default 10 (cfg_lockoutCount config))%Z ∧
  cap_reached (au_maxRequests auth) (au_requests auth) = false ∧
  au_kind auth ≠ ghost ∧ ∃ delay nonce now at_, checked req config pairId signedData signature auth nonce now ∧
    r = accepted_result pairId auth now delay ∧
    phases (one (unexpired auth) :: verdict_passed req config pairId delay :: one (clock_read now) ::
            final_phases req pairId nonce auth at_) tr.
Proof.
  unfold checkStatus. intros Hex Hr.
  destruct (au_status auth); [|destruct (shadowEnabled config)|..]; try refuse.
  destruct (decide (default 10%Z (cfg_lockoutCount config) <= au_failedSigs auth)%Z) as [|Hf].
  { apply exec_ebind_inv in Hex as (lk & w1 & tr1 & tr2 & _ & Hex & ->).
    destruct lk; [|refuse]. destruct (shadowEnabled config); refuse. }
  apply exec_bind_inv in Hex as (t & w1 & tr1 & tr2 & Hnow & Hex & ->).
  destruct (past_expiry _ _) eqn:Hexp.
  { apply exec_bind_inv in Hex as (n2 & w2 & tr3 & tr4 & _ & Hex & ->).
    apply exec_ebind_inv in Hex as (lk & w3 & tr5 & tr6 & _ & Hex & ->). destruct lk; refuse. }
  destruct (cap_reached _ _) eqn:Hcap.
  { apply exec_ebind_inv in Hex as (lk & w3 & tr5 & tr6 & _ & Hex & ->). destruct lk; refuse. }
  apply verdict_ok in Hex as (Hk & delay & nonce & now & at_ & Hc & -> & Hph); [|done].
  split_and!; [done|lia|done|done|]. exists delay, nonce, now, at_. split_and!; [done|done|]. apply phases_cons; [|done].
  eapply one_mono; [|by eapply now_read]. intros u u' [-> <-]. by split.
Qed.

(** The headers are all there, of allowed sizes and shapes. *)
Record admissible_headers (req : BPCRequestData) (pairId signedData signature : string) : Prop := {
  hd_pair : rq_pairId req = Some pairId;
  hd_data : rq_signedData req = Some signedData ∧ signedData ≠ EmptyString;
  hd_sig : rq_signature req = Some signature ∧ signature ≠ EmptyString;
  hd_methods : rq_method req ∈ ALLOWED_METHODS;
  hd_sizes : (str_len pairId <= MAX_PAIR_ID_LEN ∧ str_len signedData <= MAX_SIGNED_DATA_LEN ∧
              str_len signature <= MAX_SIGNATURE_LEN)%Z;
  hd_id : PAIR_ID_RE pairId = true;
  hd_protocol : default "1.0" (rq_version req) = BPC_PROTOCOL_VERSION;
}.

(** From the read of the pair on. *)
Definition pair_phases (req : BPCRequestData) (config : BPCServerConfig) (pairId nonce : string) (p : StoredPair)
    (auth : AuthorizationContext) (delay now at_ : Z) : list (steps W → Prop) :=
  [ one (pair_read pairId p); one (unexpired auth); verdict_passed req config pairId delay; one (clock_read now) ] ++
  final_phases req pairId nonce auth at_.

Lemma headers_ok req config w tr w' r :
  exec R (checkHeaders req config) w tr w' (Ret r) → vr_ok r = true →
  ∃ pairId signedData signature p auth nonce now delay at_,
    admissible_headers req pairId signedData signature ∧ admits config p auth ∧
    checked req config pairId signedData signature auth nonce now ∧
    r = accepted_result pairId auth now delay ∧ phases (pair_phases req config pairId nonce p auth delay now at_) tr.
Proof.
  unfold checkHeaders. intros Hex Hr.
  destruct (decide (rq_method req ∉ ALLOWED_METHODS)) as [|Hm]; [refuse|]. apply dec_stable in Hm.
  destruct (present (rq_pairId req)) as [pairId|] eqn:Hp; [|refuse].
  destruct (present (rq_signedData req)) as [sd|] eqn:Hsd; [|refuse].
  destruct (present (rq_signature req)) as [sg|] eqn:Hsg; [|refuse].
  destruct (decide (_ ∨ _ ∨ _)) as [|Hsz]; [refuse|].
  destruct (PAIR_ID_RE pairId) eqn:Hre; [|refuse]. cbn [negb] in Hex.
  destruct (decide (default "1.0" _ ≠ _)) as [|Hv]; [refuse|]. apply dec_stable in Hv.
  apply exec_ebind_inv in Hex as (o & w1 & tr1 & tr2 & Hget & Hex & ->).
  destruct o as [p|]; [|refuse].
  destruct (captureAuthorizationContext p) as [auth|] eqn:Hcap; [|refuse].
  apply status_ok in Hex as (Hst & Hfs & Huse & Hk & delay & nonce & now & at_ & Hc & -> & Hph); [|done].
  apply present_Some in Hp as [Hp _], Hsd as [Hsd Nsd], Hsg as [Hsg Nsg].
  exists pairId, sd, sg, p, auth, nonce, now, delay, at_. split_and!; [|done..|].
  - split; [done..| |done|done]. lia.
  - apply phases_cons; [|done]. eapply one_mono; [|by eapply one_call]. cbv beta. intros u u'. unfold pair_read.
    destruct (store_get pairId (w_store u)) as [s0 r0]. by intros [= <- ->].
Qed.

(** A request was accepted: everything that was checked, and every step taken. *)
Definition accepted (req : BPCRequestData) (config : BPCServerConfig) (tr : steps W) (r : BPCVerifyResult) : Prop :=
  ∃ pairId signedData signature p auth nonce now delay at_,
    admissible_headers req pairId signedData signature ∧ admits config p auth ∧
    checked req config pairId signedData signature auth nonce now ∧
    r = accepted_result pairId auth now delay ∧
    phases ([ ran (recordRequest (Some pairId)) (Ret tt);
              ip_limit_passed (present (rq_ip req));
              one (out_of_shadow req config pairId);
              pair_limit_passed pairId ] ++ pair_phases req config pairId nonce p auth delay now at_) tr.

Lemma PAIR_ID_RE_nonempty s : PAIR_ID_RE s = true → s ≠ EmptyString.
Proof. unfold PAIR_ID_RE. intros H. by btrue. Qed.

Lemma ip_limited ip w tr w' l :
  exec R (match present ip with Some ip => ip_limiter_op ("ip:" +:+ ip)%string | None => eret None end) w tr w' (Ret l) →
  match l with Some r => negb (rl_allowed r) | None => false end = false → ip_limit_passed (present ip) tr.
Proof.
  unfold ip_limit_passed. destruct (present ip) as [a|]; [|by intros (_ & -> & _)%exec_done_inv].
  intros Hex Hl. eapply one_mono; [|by eapply one_call]. cbv beta. intros u u'. unfold limiter_passed.
  destruct (w_ipLimiter u) as [m|]; [|by intros [= <- _]].
  destruct (limiter_check _ _ m) as [m' [x|e]]; [|done]. intros [= <- <-].
  exists m', x. split_and!; [done|by destruct (rl_allowed x)|done].
Qed.
Lemma pair_limited pairId w tr w' l : exec R (limiter_op ("pair:" +:+ pairId)%string) w tr w' (Ret l) →
  match l with Some r => negb (rl_allowed r) | None => false end = false → pair_limit_passed pairId tr.
Proof.
  intros Hex Hl. eapply one_mono; [|by eapply one_call]. cbv beta. intros u u'. unfold limiter_passed.
  destruct (w_limiter u) as [m|]; [|by intros [= <- _]].
  destruct (limiter_check _ _ m) as [m' [x|e]]; [|done]. intros [= <- <-].
  exists m', x. split_and!; [done|by destruct (rl_allowed x)|done].
Qed.

Lemma verify_ok req config w tr w' r :
  exec R (verifyBPCRequest req config) w tr w' (Ret r) → vr_ok r = true → accepted req config tr r.
Proof.
  unfold verifyBPCRequest. intros Hex Hr.
  apply exec_ebind_inv in Hex as ([] & w1 & tr1 & tr2 & Hrec & Hex & ->).
  apply exec_ebind_inv in Hex as (l1 & w2 & tr3 & tr4 & Hip & Hex & ->).
  destruct (match l1 with Some r => negb (rl_allowed r) | None => false end) eqn:Hl1; [refuse|].
  apply exec_bind_inv in Hex as (sh & w3 & tr5 & tr6 & Hsh & Hex & ->).
  destruct sh; [refuse|].
  apply exec_ebind_inv in Hex as (l2 & w4 & tr7 & tr8 & Hlim & Hex & ->).
  destruct (match l2 with Some r => negb (rl_allowed r) | None => false end) eqn:Hl2; [refuse|].
  apply headers_ok in Hex as (pairId & sd & sg & p & auth & nonce & now & delay & at_ & Hh & Ha & Hc & -> & Hph); [|done].
  pose proof (hd_pair _ _ _ _ Hh) as Hp. pose proof (PAIR_ID_RE_nonempty _ (hd_id _ _ _ _ Hh)) as Hne.
  rewrite Hp in *. unfold present at 1 in Hsh. unfold present at 1 in Hlim. rewrite decide_False in Hsh, Hlim by done.
  exists pairId, sd, sg, p, auth, nonce, now, delay, at_. split_and!; [done..|].
  apply phases_cons; [by eapply ran_exec|]. apply phases_cons; [by eapply ip_limited|].
  apply phases_cons; [|apply phases_cons; [by eapply pair_limited|done]].
  eapply one_mono; [|by eapply one_call]. intros u u' [= <- H]. split; [done|]. intros He. by rewrite He in H.
Qed.

(** C1 Soundness of the verifier, under any interference between its steps.  An
    accepted request carried an allowed method and present headers of allowed sizes
    and shapes for the protocol's version; the pair it names was read once, active,
    not a ghost, below the lockout threshold and its usage limit, and everything
    later is about that captured context; the decoded payload is fresh, carries the
    HMAC of the pair's secret and names this request's method, path, pair, version
    and body, within the pair's scope, under a valid signature of the pair's key.
    The run consists of these phases and nothing else, in this order: the request
    was counted, the address's limiter allowed it, the address was not in shadow
    mode for the pair, the pair's limiter allowed it, the pair was read, it had not
    expired, the anomaly verdict was clean (or suspicious, and the delay served),
    the clock was read, the continuity gate was open, the nonce was consumed, which
    the replay store had not seen, a use was claimed under the captured policy, and
    the success was audited.  The answer is the snapshot of the captured context. *)
Theorem verify_sound req config w tr w' r :
  exec R (verifyBPCRequest req config) w tr w' (Ret r) → vr_ok r = true → accepted req config tr r.
Proof. apply verify_ok. Qed.
End soundness.
