(* ===== verification/ReplaySafety.v ===== *)
(** * One acceptance per signed request

    A pool of verifications runs over one world, in any interleaving, while the
    environment only moves the clock forward and keeps the replay store's
    memory.  Two verifications of the same signed data are not both accepted, as
    long as no verifier takes more than the retention's safety buffer between
    its timestamp check and the consumption of the nonce, and the replay store
    outlasts the calls of the pool: any number on Redis, 90000 in memory. *)

From S2P Require Import Prelude Proc JsNum Encoding Json Crypto Store Nonce RateLimiter Anomaly AuditChain World AnomalyEngine Registry Middleware Verification.
From stdpp Require Import base gmap strings list relations.
From Stdlib Require Import ZArith Lia.

Section replay.
Context `{WC : WebCrypto} {S N A L U G : Type}.
Context `{!PairStore S} `{!AtomicPairStore S} `{!NonceBackend N} `{!BoundedNonceLaws N} `{!AnomalyStore A} `{!RateLimiter L}
  `{!AuditLog U} `{!ContinuityGate G}.
Notation W := (World S N A L U G).
Implicit Types w : W.

(** A step that touches neither the clock nor the replay store. *)
Definition code_step (w w' : W) : Prop := w_now w' = w_now w ∧ w_nonces w' = w_nonces w.
(** A call of the replay store. *)
Definition nonce_step (w w' : W) : Prop :=
  w_now w' = w_now w ∧ ∃ n, w_nonces w' = (ServerNonceStore_checkAndConsume n (w_now w) (w_nonces w)).1.

Lemma code_step_refl w : code_step w w.
Proof. done. Qed.

(** Close [always code_step] goals by the structure of the process. *)
Lemma always_store_op {B} (f : S → S * exc B) : always code_step (store_op f : proc W (exc B)).
Proof. apply always_call. intros w. destruct (f (w_store w)). done. Qed.
Lemma always_registry_op {B} (f : Z → PairRegistry → PairRegistry * B) : always code_step (registry_op f : proc W B).
Proof. apply always_call. intros w. cbn. case_match. done. Qed.
Lemma always_counter_op {B} (f : Z → A → A * exc B) : always code_step (counter_op f : proc W (exc B)).
Proof. apply always_call. intros w. cbn. case_match. done. Qed.
Lemma always_engine_op {B} (f : Z → AnomalyEngine A → AnomalyEngine A * B) : always code_step (engine_op f : proc W B).
Proof. apply always_call. intros w. cbn. case_match. done. Qed.
Lemma always_audit_op e : always code_step (audit_op e : proc W (exc unit)).
Proof.
  apply always_call. intros w. destruct (w_audit w) as [u|]; [|apply code_step_refl].
  by destruct (audit_write _ _ _).
Qed.
Lemma always_ip_limiter_op k : always code_step (ip_limiter_op k : proc W _).
Proof.
  apply always_call. intros w. destruct (w_ipLimiter w); [|apply code_step_refl].
  by destruct (limiter_check _ _ _).
Qed.
Lemma always_limiter_op k : always code_step (limiter_op k : proc W _).
Proof.
  apply always_call. intros w. destruct (w_limiter w); [|apply code_step_refl].
  by destruct (limiter_check _ _ _).
Qed.
Lemma always_read_op {B} (f : W → B) : always code_step (read f).
Proof. apply always_read, code_step_refl. Qed.

Create HintDb steps.
#[local] Hint Resolve always_store_op always_registry_op always_counter_op always_engine_op always_audit_op
  always_ip_limiter_op always_limiter_op always_read_op : steps.

Ltac always_steps :=
  repeat first
    [ solve [auto with steps]
    | exact I
    | apply always_ebind; [|intros ?]
    | apply always_bind; [|intros ?]
    | case_match ].

Lemma always_record n p : always code_step (record n p : proc W (exc unit)).
Proof. unfold record, increment. always_steps. Qed.
#[local] Hint Resolve always_record : steps.
Lemma always_recordSigFailureForIp p ip : always code_step (recordSigFailureForIp p ip : proc W (exc unit)).
Proof. unfold recordSigFailureForIp, increment, recordSigFailure. always_steps. Qed.
Lemma always_applyTarpit ip v : always code_step (applyTarpit ip v : proc W Z).
Proof. unfold applyTarpit, sleep. always_steps. Qed.
Lemma always_enterShadow p ip r : always code_step (enterShadow p ip r : proc W unit).
Proof. unfold enterShadow. always_steps. Qed.
#[local] Hint Resolve always_recordSigFailureForIp always_applyTarpit always_enterShadow : steps.
Lemma always_getVerdict p ip : always code_step (getVerdict p ip : proc W _).
Proof. unfold getVerdict, threatScore, counter. always_steps. Qed.
Lemma always_claim p at_ e : always code_step (claimSuccessfulUseOutcome p at_ e : proc W _).
Proof. unfold claimSuccessfulUseOutcome, forgetFailures, atomic. always_steps. Qed.
Lemma always_recordActivity p ip : always code_step (recordActivity p false ip : proc W _).
Proof. unfold recordActivity, mutatePair, atomic. always_steps. Qed.
#[local] Hint Resolve always_getVerdict always_claim always_recordActivity : steps.
Lemma always_deny req e b : always code_step (deny req e b : proc W _).
Proof. unfold deny, recordDenied, recordSigFailure. always_steps. Qed.
#[local] Hint Resolve always_deny : steps.

(** ** Calls of the replay store

    [calls_le k p]: [p] calls the replay store at most [k] times, and only
    through [checkAndConsume]; the clock stands still in all its steps. *)
Fixpoint calls_le {B} (k : nat) (p : proc W B) : Prop :=
  match p with
  | Done _ => True
  | Step f => ∀ w, (code_step w (f w).1 ∧ calls_le k (f w).2) ∨
                   (nonce_step w (f w).1 ∧ ∃ k', k = Datatypes.S k' ∧ calls_le k' (f w).2)
  end.

Lemma calls_always {B} k (p : proc W B) : always code_step p → calls_le k p.
Proof. revert p. fix IH 1. intros [b|f] Hp; simpl; [done|]. intros w. left. destruct (Hp w) as [H1 H2]. split; [done|]. by apply IH. Qed.
Lemma calls_bind {B C} k (p : proc W B) (q : B → proc W C) : always code_step p → (∀ b, calls_le k (q b)) → calls_le k (pbind p q).
Proof.
  intros Hp Hq. revert p Hp. fix IH 1. intros [b|f] Hp; simpl; [apply Hq|]. intros w. left. destruct (Hp w) as [H1 H2].
  destruct (f w) as [w' p']. split; [done|]. by apply IH.
Qed.
Lemma calls_ebind {B C} k (p : proc W (exc B)) (q : B → proc W (exc C)) : always code_step p → (∀ b, calls_le k (q b)) → calls_le k (ebind p q).
Proof. intros Hp Hq. apply calls_bind; [done|]. by intros [b|e]; [apply Hq|]. Qed.
Lemma calls_nonce {B} n (q : exc bool → proc W B) : (∀ b, always code_step (q b)) → calls_le 1 (pbind (nonce_op n) q).
Proof.
  intros Hq w. right. cbn. destruct (ServerNonceStore_checkAndConsume n (w_now w) (w_nonces w)) as [x b] eqn:E. cbn. split.
  - split; [done|]. exists n. by rewrite E.
  - exists 0%nat. split; [done|]. by apply calls_always.
Qed.

Ltac calls_steps rest :=
  unfold ethrow;
  repeat first
    [ rest
    | apply calls_always; solve [auto with steps | exact I]
    | apply calls_ebind; [solve [always_steps]|intros ?]
    | apply calls_bind; [solve [always_steps]|intros ?]
    | case_match ].

Lemma calls_consume req cfg p auth n now d : calls_le 1 (consumeNonce req cfg p auth n now d : proc W _).
Proof.
  unfold consumeNonce, gate_op. apply calls_bind; [always_steps|]. intros [u|e]; [|calls_steps fail].
  apply calls_nonce. intros b. unfold finishRequest, shadowTarpit, date_now, recordReplay. always_steps.
Qed.
Lemma calls_payload req cfg p sd sg auth d : calls_le 1 (checkPayload req cfg p sd sg auth d : proc W _).
Proof.
  unfold checkPayload, date_now, recordExpiredTimestamp.
  calls_steps ltac:(apply calls_consume).
Qed.
Lemma calls_checkVerdict req cfg p sd sg auth : calls_le 1 (checkVerdict req cfg p sd sg auth : proc W _).
Proof. unfold checkVerdict, shadowTarpit. calls_steps ltac:(apply calls_payload). Qed.
Lemma calls_checkStatus req cfg p sd sg auth : calls_le 1 (checkStatus req cfg p sd sg auth : proc W _).
Proof.
  unfold checkStatus, shadowTarpit, date_now, ensureLocked, markExpired, markUsageExpired, conditionalStatus, atomic.
  calls_steps ltac:(apply calls_checkVerdict).
Qed.
Lemma calls_checkHeaders req cfg : calls_le 1 (checkHeaders req cfg : proc W _).
Proof. unfold checkHeaders, recordUnknownPair, reg_get. calls_steps ltac:(apply calls_checkStatus). Qed.
Lemma calls_verify req cfg : calls_le 1 (verifyBPCRequest req cfg : proc W _).
Proof. unfold verifyBPCRequest, recordRequest, shadowTarpit. calls_steps ltac:(apply calls_checkHeaders). Qed.

(** What the environment and the code both keep when they do not call the replay
    store: time does not go back, the retention stays, and a nonce that is known
    stays known for as many calls. *)
Record keeps_memory (w w' : W) : Prop := {
  km_time : (w_now w <= w_now w')%Z;
  km_window : sns_windowMs (w_nonces w') = sns_windowMs (w_nonces w);
  km_inv : nonce_inv (sns_backend (w_nonces w)) → nonce_inv (sns_backend (w_nonces w'));
  km_recalls n t k : nonce_inv (sns_backend (w_nonces w)) → (w_now w' <= t)%Z → recalls (sns_backend (w_nonces w)) n t k →
    recalls (sns_backend (w_nonces w')) n t k;
}.

Lemma code_step_keeps w w' : code_step w w' → keeps_memory w w'.
Proof. intros [Hnow Hn]. split; rewrite ?Hn; [lia|done..]. Qed.

(** Steps with at most [k] calls among them. *)
Inductive spends : ptrace W → nat → Prop :=
  | spends_nil k : spends [] k
  | spends_quiet e tr k : keeps_memory e.2.1 e.2.2 → spends tr k → spends (e :: tr) k
  | spends_call e tr k : nonce_step e.2.1 e.2.2 → spends tr k → spends (e :: tr) (Datatypes.S k).

Lemma spends_S tr k : spends tr k → spends tr (Datatypes.S k).
Proof. induction 1; by constructor. Qed.
Lemma spends_suffix tr1 tr2 k : spends (tr1 ++ tr2) k → spends tr2 k.
Proof.
  revert k. induction tr1 as [|e tr1 IH]; intros k H; [done|].
  inversion H; subst; [by apply IH|by apply spends_S, IH].
Qed.

(** The pool calls the replay store at most as often as its processes. *)
Lemma pool_spends {B} (ps ps' : list (proc W B)) w tr w' ks : pool_run keeps_memory ps w tr w' ps' →
  Forall2 (λ k p, calls_le k p) ks ps → spends tr (sum_list ks).
Proof.
  intros Hrun. revert ks. induction Hrun as [ps w|j f ps w w1 p' tr w' ps' Hj Hf Hrun IH|ps w w1 tr w' ps' HR Hrun IH];
    intros ks Hks; [constructor| |by constructor; [|apply IH]].
  destruct (Forall2_lookup_r _ _ _ _ _ Hks Hj) as (k & Hk & Hstep). specialize (Hstep w). rewrite Hf in Hstep. cbn [fst snd] in Hstep.
  destruct Hstep as [[Hc Hp]|[Hc (k' & -> & Hp)]].
  - apply spends_quiet; [by apply code_step_keeps|]. apply IH. rewrite <-(list_insert_id ks j k Hk). by apply Forall2_insert.
  - replace (sum_list ks) with (Datatypes.S (sum_list (<[j := k']> ks))).
    + apply spends_call; [done|]. apply IH. by apply Forall2_insert.
    + clear -Hk. revert j Hk. induction ks as [|k ks IH]; intros [|j] Hk; simplify_eq/=; [lia|]. specialize (IH j Hk). lia.
Qed.

Lemma nonce_step_keeps w w' : nonce_step w w' → (w_now w <= w_now w')%Z ∧
  sns_windowMs (w_nonces w') = sns_windowMs (w_nonces w) ∧
  (nonce_inv (sns_backend (w_nonces w)) → nonce_inv (sns_backend (w_nonces w')) ∧
   ∀ n t k, (w_now w' <= t)%Z → recalls (sns_backend (w_nonces w)) n t (Datatypes.S k) → recalls (sns_backend (w_nonces w')) n t k).
Proof.
  intros [Hnow [m Hn]]. rewrite Hn. unfold ServerNonceStore_checkAndConsume.
  pose proof (nonce_inv_stable m (sns_windowMs (w_nonces w)) (w_now w) (sns_backend (w_nonces w))) as Hi.
  pose proof (recalls_stable m (sns_windowMs (w_nonces w)) (w_now w) (sns_backend (w_nonces w))) as Hr.
  destruct (checkAndConsume _ _ _ _) as [b x]. cbn [fst sns_windowMs sns_backend] in *. split_and!; [lia|done|].
  intros Hinv. split; [auto|]. intros n t k Ht Hrec. apply Hr; [done|done|lia].
Qed.

(** Along such steps: what holds at the end of one still holds at the start of a
    later one. *)
Lemma spends_keeps {B} (ps ps' : list (proc W B)) w tr w' k : pool_run keeps_memory ps w tr w' ps' → spends tr k →
  ∀ tr2 e tr3, tr = tr2 ++ e :: tr3 →
  (w_now w <= w_now e.2.1)%Z ∧ sns_windowMs (w_nonces e.2.1) = sns_windowMs (w_nonces w) ∧
  (nonce_inv (sns_backend (w_nonces w)) → nonce_inv (sns_backend (w_nonces e.2.1)) ∧
   ∀ n t, (w_now e.2.1 <= t)%Z → recalls (sns_backend (w_nonces w)) n t k → ∃ k', recalls (sns_backend (w_nonces e.2.1)) n t k').
Proof.
  intros Hrun. revert k.
  assert (∀ (o : option nat) w w1 tr k, (∀ k, spends tr k → ∀ tr2 e tr3, tr = tr2 ++ e :: tr3 →
     (w_now w1 <= w_now e.2.1)%Z ∧ sns_windowMs (w_nonces e.2.1) = sns_windowMs (w_nonces w1) ∧
     (nonce_inv (sns_backend (w_nonces w1)) → nonce_inv (sns_backend (w_nonces e.2.1)) ∧
      ∀ n t, (w_now e.2.1 <= t)%Z → recalls (sns_backend (w_nonces w1)) n t k → ∃ k', recalls (sns_backend (w_nonces e.2.1)) n t k')) →
    spends ((o, (w, w1)) :: tr) k → ∀ tr2 e tr3, (o, (w, w1)) :: tr = tr2 ++ e :: tr3 →
     (w_now w <= w_now e.2.1)%Z ∧ sns_windowMs (w_nonces e.2.1) = sns_windowMs (w_nonces w) ∧
     (nonce_inv (sns_backend (w_nonces w)) → nonce_inv (sns_backend (w_nonces e.2.1)) ∧
      ∀ n t, (w_now e.2.1 <= t)%Z → recalls (sns_backend (w_nonces w)) n t k → ∃ k', recalls (sns_backend (w_nonces e.2.1)) n t k')) as Hstep.
  { clear. intros o w w1 tr k IH Hsp tr2 e tr3 Heq. destruct tr2 as [|e0 tr2]; simplify_eq/=.
    { split_and!; [lia|done|]. intros Hi. split; [done|]. eauto. }
    inversion Hsp as [|e1 tr1 k1 Hq Hsp1 He Hk|e1 tr1 k1 Hq Hsp1 He Hk]; subst; cbn [fst snd] in Hq.
    - destruct Hq as [T1 W1 I1 R1]. destruct (IH k Hsp1 tr2 e tr3 eq_refl) as (T2 & W2 & IR2). split_and!; [lia|congruence|].
      intros Hi. destruct (IR2 (I1 Hi)) as [I2 R2]. split; [done|]. intros n t Ht Hr. apply R2; [done|]. apply R1; [done|lia|done].
    - apply nonce_step_keeps in Hq as (T1 & W1 & IR1). destruct (IH k1 Hsp1 tr2 e tr3 eq_refl) as (T2 & W2 & IR2). split_and!; [lia|congruence|].
      intros Hi. destruct (IR1 Hi) as [I1 R1]. destruct (IR2 I1) as [I2 R2]. split; [done|]. intros n t Ht Hr. apply R2; [done|]. apply R1; [lia|done]. }
  induction Hrun as [ps w|j f ps w w1 p' tr w' ps' Hj Hf Hrun IH|ps w w1 tr w' ps' HR Hrun IH].
  - intros k _ [|??]; done.
  - intros k. by apply Hstep.
  - intros k. by apply Hstep.
Qed.

(** Two consumptions of one nonce within the retention. *)
Lemma consumed_known nonce (s : W * W) k : consumed nonce s → nonce_inv (sns_backend (w_nonces s.1)) → within k →
  recalls (sns_backend (w_nonces s.2)) nonce (w_now s.1 + sns_windowMs (w_nonces s.1)) k.
Proof.
  intros [H _] Hinv Hk. unfold ServerNonceStore_checkAndConsume in H.
  destruct (checkAndConsume nonce _ _ _) as [b r] eqn:C. injection H as H Hr. destruct r as [b0|]; [|done]. injection Hr as ->.
  rewrite <-H. by eapply accept_recalls.
Qed.
Lemma known_not_consumed nonce (s : W * W) t k : nonce_inv (sns_backend (w_nonces s.1)) →
  recalls (sns_backend (w_nonces s.1)) nonce t k → (w_now s.1 <= t)%Z → consumed nonce s → False.
Proof.
  intros Hinv Hr Ht [H _]. unfold ServerNonceStore_checkAndConsume in H.
  pose proof (recalled_not_accepted nonce (sns_windowMs (w_nonces s.1)) (w_now s.1) _ t k Hinv Hr Ht) as Hn.
  destruct (checkAndConsume nonce _ _ _) as [b r]. injection H as _ Hx. destruct r as [b0|]; [|done]. injection Hx as ->. done.
Qed.

(** What an accepted verification of a pool did. *)
Record consumes (tr : ptrace W) (i : nat) (signedData : string) (window verifiedAt : Z) (s : W * W) : Prop := {
  co_step : (Some i, s) ∈ tr;
  co_payload : ∃ payload nonce timestamp, decodePayload signedData = Ret (JObj payload) ∧
    own payload "nonce" = JStr nonce ∧ own payload "timestamp" = JNum (Fin timestamp) ∧
    consumed nonce s ∧ dec_far verifiedAt timestamp window = false;
  co_time : (verifiedAt <= w_now s.1)%Z;
}.

Definition verifications (config : BPCServerConfig) (reqs : list BPCRequestData) : list (proc W (exc BPCVerifyResult)) :=
  (λ req, verifyBPCRequest req config) <$> reqs.

Lemma verifications_spend config reqs w tr w' ps' :
  pool_run keeps_memory (verifications config reqs) w tr w' ps' → spends tr (length reqs).
Proof.
  intros Hrun. replace (length reqs) with (sum_list (replicate (length reqs) 1%nat)).
  - eapply pool_spends; [exact Hrun|]. unfold verifications. clear. induction reqs; constructor; [apply calls_verify|done].
  - clear. induction reqs; simpl; [done|lia].
Qed.

Lemma verification_consumes config reqs w tr w' ps' i req r :
  pool_run keeps_memory (verifications config reqs) w tr w' ps' →
  reqs !! i = Some req → ps' !! i = Some (Done (Ret r)) → vr_ok r = true →
  ∃ sd sn s, rq_signedData req = Some sd ∧ vr_snapshot r = Some sn ∧
    consumes tr i sd (cfg_sigWindowMs config) (sn_verifiedAt sn) s.
Proof.
  intros Hrun Hi Hd Hok.
  assert (verifications config reqs !! i = Some (verifyBPCRequest req config)) as Hp.
  { unfold verifications. by rewrite list_lookup_fmap, Hi. }
  destruct (pool_exec _ _ _ _ _ _ _ _ _ Hrun Hp Hd w) as [w1 Hex].
  apply verify_ok in Hex as (pairId & sd & sg & p & auth & nonce & now & delay & at_ & Hh & _ & [Hck] & -> & Hph); [|done].
  destruct Hck as (payload & ts & hmac & Hdec & Hnonce & _ & Hts & Hfar & _).
  apply phases_app in Hph as (ta & tb & Htr & _ & (t5 & ? & -> & _ & (t6 & ? & -> & _ & (t7 & ? & -> & _ & (t8 & ? & -> & H8 & Hph))))).
  destruct Hph as (t9 & ? & -> & H9 & (t10 & t11 & -> & H10 & _)).
  destruct H8 as (wc & ? & -> & [-> Hnow]), H9 as (wg & ? & -> & [-> _]), H10 as (u & u' & -> & Hcons).
  exists sd, (snapshotOf auth now), (u, u'). split_and!; [apply Hh|done|].
  assert (own_steps i tr = (ta ++ t5 ++ t6 ++ t7) ++ (wc, wc) :: (wg, wg) :: (u, u') :: t11) as Hown.
  { rewrite Htr. by rewrite <-!app_assoc. }
  apply own_steps_split in Hown as (x1 & x2 & Hx & Hown).
  change ((wg, wg) :: (u, u') :: t11) with ([(wg, wg)] ++ (u, u') :: t11) in Hown.
  apply own_steps_split in Hown as (x3 & x4 & -> & _).
  split.
  - rewrite Hx. set_solver.
  - by exists payload, nonce, ts.
  - destruct (pool_suffix _ _ _ _ _ _ Hrun x1 _ _ Hx) as [ps1 Hrun1]. cbn in Hrun1 |- *.
    assert (spends (x3 ++ (Some i, (u, u')) :: x4) (length reqs)) as Hsp.
    { apply (spends_suffix (x1 ++ [(Some i, (wc, wc))])). rewrite <-app_assoc. cbn [app]. rewrite <-Hx. by eapply verifications_spend. }
    destruct (spends_keeps _ _ _ _ _ _ Hrun1 Hsp x3 _ _ eq_refl) as (Ht & _). cbn in Ht. lia.
Qed.

(** Without environment moves the clock stands still. *)
Lemma sched_now {B} ks sc (ps : list (proc W B)) w : Forall2 (λ k p, calls_le k p) ks ps →
  Forall (λ e, w_now e.2.1 = w_now w) (sched sc ps w).1.1.
Proof.
  revert ks ps w. induction sc as [|i sc IH]; intros ks ps w Hps; simpl; [constructor|].
  destruct (ps !! i) as [[b|f]|] eqn:Hi; [by eapply IH| |by eapply IH].
  destruct (Forall2_lookup_r _ _ _ _ _ Hps Hi) as (k & Hk & Hstep). specialize (Hstep w).
  destruct (f w) as [w1 p'] eqn:Hf. cbn [fst snd] in Hstep.
  assert (∃ k', w_now w1 = w_now w ∧ calls_le k' p') as (k' & Hnow & Hp').
  { destruct Hstep as [[[? _] ?]|[[? _] (k' & _ & ?)]]; eauto. }
  specialize (IH (<[i := k']> ks) (<[i := p']> ps) w1). destruct (sched sc (<[i:=p']> ps) w1) as [[tr w'] ps']. cbn [fst] in *.
  constructor; [done|]. rewrite <-Hnow. apply IH. by apply Forall2_insert.
Qed.

Lemma verifications_calls config reqs : Forall2 (λ k p, calls_le k p) (replicate (length reqs) 1%nat) (verifications config reqs).
Proof. unfold verifications. induction reqs; constructor; [apply calls_verify|done]. Qed.

Lemma consumes_order config reqs w tr w' ps' i j sd v1 v2 s1 s2 buffer t1 t2 t3 :
  pool_run keeps_memory (verifications config reqs) w tr w' ps' →
  nonce_inv (sns_backend (w_nonces w)) → within (length reqs) →
  consumes tr i sd (cfg_sigWindowMs config) v1 s1 → consumes tr j sd (cfg_sigWindowMs config) v2 s2 →
  tr = t1 ++ (Some i, s1) :: t2 ++ (Some j, s2) :: t3 →
  (w_now s2.1 <= v2 + buffer)%Z →
  (2 * cfg_sigWindowMs config + buffer <= sns_windowMs (w_nonces w))%Z → False.
Proof.
  intros Hrun Hinv Hin [_ (p1 & n1 & x1 & D1 & N1 & X1 & C1 & F1) T1] [_ (p2 & n2 & x2 & D2 & N2 & X2 & C2 & F2) _] Htr Hb Hw.
  assert (p2 = p1) as -> by congruence. assert (n2 = n1) as -> by congruence. assert (x2 = x1) as -> by congruence.
  pose proof (verifications_spend _ _ _ _ _ _ Hrun) as Hsp.
  destruct (spends_keeps _ _ _ _ _ _ Hrun Hsp t1 (Some i, s1) _ Htr) as (_ & Hwin & Hkeep). cbn in Hwin, Hkeep.
  destruct (Hkeep Hinv) as [Hinv1 _].
  destruct (pool_suffix _ _ _ _ _ _ Hrun t1 (Some i, s1) _ Htr) as [ps1 Hrun1]. cbn in Hrun1.
  assert (spends (t2 ++ (Some j, s2) :: t3) (length reqs)) as Hsp1.
  { apply (spends_suffix (t1 ++ [(Some i, s1)])). rewrite <-app_assoc. cbn [app]. by rewrite <-Htr. }
  destruct (spends_keeps _ _ _ _ _ _ Hrun1 Hsp1 t2 (Some j, s2) t3 eq_refl) as (_ & _ & Hkeep2). cbn in Hkeep2.
  pose proof (consumed_known _ _ _ C1 Hinv1 Hin) as Hknown.
  assert (nonce_inv (sns_backend (w_nonces s1.2))) as Hinv2.
  { destruct C1 as [C1 _]. unfold ServerNonceStore_checkAndConsume in C1.
    pose proof (nonce_inv_stable n1 (sns_windowMs (w_nonces s1.1)) (w_now s1.1) _ Hinv1) as Hs.
    destruct (checkAndConsume n1 _ _ _) as [b r]. injection C1 as <- _. done. }
  destruct (Hkeep2 Hinv2) as [Hinv3 Hrec].
  pose proof (dec_far_near _ _ _ _ F2 F1) as Hnear.
  destruct (Hrec n1 (w_now s1.1 + sns_windowMs (w_nonces s1.1))%Z) as [k' Hk']; [lia|done|].
  eapply known_not_consumed; [exact Hinv3|exact Hk'|lia|done].
Qed.

(** C2 Two verifications of the same signed data are not both accepted, in any
    interleaving with each other and with an environment that keeps the clock
    monotone and the replay store's memory: provided the retention covers the
    signature window twice plus [buffer], an accepted verification consumes its
    nonce at most [buffer] ms after its timestamp check, and the replay store
    outlasts one call for each verification of the pool -- any number of calls on
    Redis, at most 90000 for the in-memory store. *)
Theorem verify_accepts_once config reqs w tr w' ps' i j reqi reqj ri rj buffer :
  pool_run keeps_memory (verifications config reqs) w tr w' ps' →
  nonce_inv (sns_backend (w_nonces w)) → within (length reqs) →
  reqs !! i = Some reqi → reqs !! j = Some reqj → rq_signedData reqi = rq_signedData reqj →
  ps' !! i = Some (Done (Ret ri)) → ps' !! j = Some (Done (Ret rj)) →
  i ≠ j → (2 * cfg_sigWindowMs config + buffer <= sns_windowMs (w_nonces w))%Z →
  (∀ k r sn s nonce, ps' !! k = Some (Done (Ret r)) → vr_snapshot r = Some sn →
     (Some k, s) ∈ tr → consumed nonce s → (w_now s.1 <= sn_verifiedAt sn + buffer)%Z) →
  vr_ok ri = true → vr_ok rj = false.
Proof.
  intros Hrun Hinv Hin Hi Hj Hsame Hdi Hdj Hne Hw Htimely Hoki. apply not_true_is_false. intros Hokj.
  destruct (verification_consumes _ _ _ _ _ _ _ _ _ Hrun Hi Hdi Hoki) as (sd & ni & si & E1 & Si & Ci).
  destruct (verification_consumes _ _ _ _ _ _ _ _ _ Hrun Hj Hdj Hokj) as (sd' & nj & sj & E2 & Sj & Cj).
  assert (sd' = sd) as -> by congruence.
  assert (w_now si.1 <= sn_verifiedAt ni + buffer)%Z as Ti.
  { destruct Ci as [Hsi (? & n & ? & _ & _ & _ & Hc & _) _]. by apply (Htimely i ri ni si n). }
  assert (w_now sj.1 <= sn_verifiedAt nj + buffer)%Z as Tj.
  { destruct Cj as [Hsj (? & n & ? & _ & _ & _ & Hc & _) _]. by apply (Htimely j rj nj sj n). }
  destruct (trace_order _ _ _ _ _ Hne (co_step _ _ _ _ _ _ Ci) (co_step _ _ _ _ _ _ Cj))
    as (t1 & t2 & t3 & [Htr|Htr]).
  - by eapply (consumes_order _ _ _ _ _ _ i j).
  - by eapply (consumes_order _ _ _ _ _ _ j i).
Qed.
End replay.
