(* ===== verification/Client.v ===== *)
(** * The client (packages/client-sdk/src/client.ts)

    Building the signed headers of a request and of a rotation, and the checks
    of [fetch] before anything is sent.  The network itself is not modelled: the
    functions end with what is handed to it.  The second part shows that what
    [signRequest] produces passes every check the verifier makes on a payload. *)

From S2P Require Import Prelude Proc JsNum Encoding Json Crypto Store Nonce RateLimiter Anomaly AuditChain World AnomalyEngine Registry Middleware.
From stdpp Require Import base gmap strings list.
From Stdlib Require Import ZArith Lia.

Local Open Scope bpc_scope.

Definition EMPTY_BODY_HASH : string := "sha256:47DEQpj8HBSa-_TImW-5JCeuQeRkm5NMpJWZG3hSuFU".

(** The kinds of body [exactBodyBytes] distinguishes. *)
Inductive RequestBody :=
  | BodyString (s : string)
  | BodyBytes (bytes : string)          (* ArrayBuffer, view or Blob *)
  | BodySearchParams (text : string)    (* [URLSearchParams.toString()] *)
  | BodyFormData
  | BodyStream
  | BodyObject (v : jsval)
  | BodyOther (type : string).

Definition exactBodyBytes (body : RequestBody) : exc string :=
  match body with
  | BodyString s => Ret (utf8_encode s)
  | BodyBytes b => Ret b
  | BodySearchParams s => Ret (utf8_encode s)
  | BodyFormData => Throw (TypeError "BPCClient: FormData wire boundaries cannot be pre-hashed deterministically")
  | BodyStream => Throw (TypeError "BPCClient: streaming request bodies require an application-supplied digest adapter")
  | BodyObject v => Ret (utf8_encode (stringify v))
  | BodyOther t => Throw (TypeError ("BPCClient: unsupported request body type " +:+ t))
  end.

Record SignedHeaders := mkHeaders {
  hd_pairId : string;
  hd_signature : string;
  hd_signedData : string;
  hd_version : string;
}.

(** [{ ...init.headers, ...headers }] *)
Definition mergeHeaders (initHeaders : list (string * string)) (h : SignedHeaders) : list (string * string) :=
  foldl (λ acc kv, om_set kv.1 kv.2 acc) initHeaders
    [("X-BPC-Pair-ID", hd_pairId h); ("X-BPC-Signature", hd_signature h);
     ("X-BPC-Signed-Data", hd_signedData h); ("X-BPC-Version", hd_version h)].

Section client.
Context `{WC : WebCrypto}.

Record BPCClientConfig := mkClientConfig {
  cc_serverUrl : string;
  cc_pairId : string;
  cc_privateKey : PrivateKey;
  cc_secret : string;
}.

Definition requestBodyHash (body : option RequestBody) : exc string :=
  match body with
  | Some b => bytes ← exactBodyBytes b; Ret ("sha256:" +:+ b64url (sha256 bytes))
  | None => Ret EMPTY_BODY_HASH
  end.

Definition requestPayload (bodyHash method nonce pairId path secretHmac : string) (timestamp : Z) :
    list (string * jsval) :=
  [("body_hash", JStr bodyHash); ("method", JStr method); ("nonce", JStr nonce); ("pair_id", JStr pairId);
   ("path", JStr path); ("secret_hmac", JStr secretHmac); ("timestamp", JNum (int timestamp));
   ("version", JStr BPC_PROTOCOL_VERSION)].

(** The random draws ([randomUUID], the signature's nonce) and the clock are
    arguments. *)
Definition signRequest (rnd : N) (nonce : string) (timestamp : Z) (config : BPCClientConfig)
    (method path : string) (body : option RequestBody) : exc SignedHeaders :=
  bodyHash ← requestBodyHash body;
  secretHash ← hashSecret (cc_secret config);
  secretHmac ← hmacDerive secretHash (nonce +:+ z_to_string timestamp);
  let payload := JObj (requestPayload bodyHash method nonce (cc_pairId config) path secretHmac timestamp) in
  signature ← signPayload rnd (cc_privateKey config) payload;
  canonical ← canonicalize payload;
  Ret (mkHeaders (cc_pairId config) signature (b64url (utf8_encode canonical)) BPC_PROTOCOL_VERSION).

Definition urlAllowed (serverUrl : string) : bool :=
  (starts_with "https://" serverUrl || starts_with "http://localhost" serverUrl ||
   starts_with "http://127.0.0.1" serverUrl)%bool.

(** What [fetch] is called with: the URL, the method and the headers. *)
Definition clientFetch (rnd : N) (nonce : string) (timestamp : Z) (config : BPCClientConfig)
    (path : string) (method : option string) (initHeaders : list (string * string)) (body : option RequestBody) :
    exc (string * string * list (string * string)) :=
  if negb (urlAllowed (cc_serverUrl config))
  then Throw (PlainError ("BPCClient: serverUrl must use HTTPS in production. Got: " +:+ cc_serverUrl config))
  else
    let method := toUpperCase (default "GET" method) in
    headers ← signRequest rnd nonce timestamp config method path body;
    Ret (cc_serverUrl config +:+ path, method, mergeHeaders initHeaders headers).

Record RotationBody := mkRotationBody {
  rb_oldPairId : string;
  rb_newPubJwk : jsval;
  rb_signature : string;
  rb_signedData : string;
  rb_timestamp : num;
}.

Definition rotationPayload (newPubJwkJson oldPairId : string) (timestamp : num) : list (string * jsval) :=
  [("new_pub_jwk_json", JStr newPubJwkJson); ("old_pair_id", JStr oldPairId); ("purpose", JStr "rotation");
   ("timestamp", JNum timestamp)].

(** The request body that [rotate] posts. *)
Definition clientRotate (rnd : N) (timestamp : Z) (config : BPCClientConfig) (newPubJwk : jsval) : exc RotationBody :=
  let payload := JObj (rotationPayload (stringify newPubJwk) (cc_pairId config) (int timestamp)) in
  canonical ← canonicalize payload;
  signature ← signPayload rnd (cc_privateKey config) payload;
  Ret (mkRotationBody (cc_pairId config) newPubJwk signature (b64url (utf8_encode canonical)) (int timestamp)).

(** The development exception is a prefix test: any host whose name starts with
    [localhost] may be addressed over plain HTTP. *)
Lemma urlAllowed_prefix s : urlAllowed ("http://localhost" +:+ s) = true.
Proof.
  unfold urlAllowed. replace (starts_with "http://localhost" _) with true; [by rewrite orb_true_r|].
  unfold starts_with. cbn. by destruct s.
Qed.

(** ** An honest payload *)

Lemma requestPayload_ok bodyHash method nonce pairId path hmac ts : is_safe_integer ts = true →
  let l := requestPayload bodyHash method nonce pairId path hmac ts in
  NoDup l.*1 ∧ Forall (λ kv, scalar_ok kv.2 ∧ jnorm kv.2 = kv.2) l.
Proof.
  intros Hts l. split; [by apply (bool_decide_unpack _); vm_compute|].
  unfold l, requestPayload. repeat constructor; by apply (int_jwf ts).
Qed.

Lemma num_to_string_int z : num_to_string (int z) = z_to_string z.
Proof. done. Qed.

Lemma own_perm (l l' : list (string * jsval)) k : NoDup l.*1 → l ≡ₚ l' → own l k = own l' k.
Proof. intros Hnd Hp. unfold own. by rewrite (om_get_perm k l l'). Qed.

(** The signed text reaches the server's parser unchanged: it is ASCII, and no
    field is spelled like a forbidden key. *)
Definition transparent (signedData : string) : Prop :=
  ∃ text, b64urlDecode signedData = Ret text ∧ is_ascii text = true ∧ assertNoForbiddenKeys text = Ret tt.

Lemma utf8_encode_is_ascii s : is_ascii (utf8_encode s) = true → utf8_encode s = s.
Proof.
  induction s as [|c s IH]; [done|]. unfold is_ascii in *. cbn [utf8_encode]. case_decide as Hc.
  - cbn [all_chars]. intros H. btrue. by rewrite IH.
  - cbn [all_chars]. intros H. btrue. exfalso. clear -H Hc.
    destruct c as [[] [] [] [] [] [] [] []]; vm_compute in H, Hc; congruence.
Qed.

(** What the server decodes has the fields the client signed. *)
Lemma decode_honest l canonical : NoDup l.*1 → Forall (λ kv, scalar_ok kv.2 ∧ jnorm kv.2 = kv.2) l →
  canonicalize (JObj l) = Ret canonical → transparent (b64url (utf8_encode canonical)) →
  ∃ l', decodePayload (b64url (utf8_encode canonical)) = Ret (JObj l') ∧ l ≡ₚ l' ∧
    canonicalize (JObj l') = Ret canonical.
Proof.
  intros Hnd Hsc Hc (text & Hd & Ha & Hf). rewrite b64url_decode_encode in Hd. injection Hd as <-.
  pose proof (utf8_encode_is_ascii _ Ha) as Hu. rewrite Hu in *.
  assert (Forall (λ kv, scalar_ok kv.2) l) as Hsc1 by (by eapply Forall_impl; [exact Hsc|]; intros ? []).
  pose proof (parse_canonical l canonical Hnd Hsc1 Hc) as Hp.
  set (l' := norm_field <$> js_order (fields_sorted l)) in *.
  assert (l ≡ₚ l') as Hperm.
  { unfold l'. rewrite js_order_perm, fields_sorted_perm by done.
    assert (norm_field <$> l = l) as ->; [|done].
    clear -Hsc. induction Hsc as [|[k v] l [_ Hv] _ IH]; [done|]. csimpl. unfold norm_field at 1. simpl in *.
    by rewrite Hv, IH. }
  exists l'. split_and!; [|done|by eapply canonicalize_perm].
  unfold decodePayload. rewrite b64url_decode_encode. cbn [mbind exc_bind]. rewrite Hf. exact Hp.
Qed.

(** A signature made by the client verifies over the decoded payload. *)
Lemma verify_decoded rnd sk pk l l' canonical s : key_pair sk pk →
  signPayload rnd sk (JObj l) = Ret s → canonicalize (JObj l) = Ret canonical →
  canonicalize (JObj l') = Ret canonical → verifyPayload pk (JObj l') s = true.
Proof.
  intros Hk Hs Hc Hc'. rewrite <-(verifyPayload_signPayload rnd sk pk (JObj l) s Hk Hs).
  unfold verifyPayload. by rewrite Hc, Hc'.
Qed.
End client.
Arguments mkClientConfig {WC}.
Arguments cc_serverUrl {WC}.
Arguments cc_pairId {WC}.
Arguments cc_privateKey {WC}.
Arguments cc_secret {WC}.
