(* ===== verification/Completeness.v ===== *)
(** * Honest requests are accepted

    What [signRequest] of the client produces passes every check of the
    verifier: first as an equation on [checkPayload], for any components and any
    interference, then as a full run over the in-memory components. *)

From S2P Require Import Prelude Proc JsNum Encoding Json Crypto Store MemoryStore Nonce RateLimiter Anomaly AuditChain World AnomalyEngine Registry Middleware Verification Client.
From stdpp Require Import base gmap strings list.
From Stdlib Require Import ZArith Lia.

Local Open Scope bpc_scope.

(** The server's view of a request: the pair's captured context belongs to the
    client's key and secret, and the request is the one that was signed. *)
Section honest.
Context `{WC : WebCrypto} `{!WebCryptoLaws WC}.

Record honest (req : BPCRequestData) (auth : AuthorizationContext) (config : BPCClientConfig)
    (rnd : N) (nonce : string) (timestamp : Z) (body : option RequestBody) (h : SignedHeaders) : Prop := {
  ho_signed : signRequest rnd nonce timestamp config (rq_method req) (rq_path req) body = Ret h;
  ho_transparent : transparent (hd_signedData h);
  ho_body : ∃ bh, requestBodyHash body = Ret bh ∧ rq_bodyHash req = Some bh;
  ho_nonce : UUID_RE nonce = true;
  ho_timestamp : is_safe_integer timestamp = true;
  ho_pair : au_pairId auth = cc_pairId config;
  ho_secret : hashSecret (cc_secret config) = Ret (au_secretHash auth);
  ho_key : ∃ pk, importPublicKeyFromJwk (au_pubJwk auth) = Ret pk ∧ key_pair (cc_privateKey config) pk;
  ho_scope : ∃ allowed, SCOPE_ALLOWED_METHODS (au_scope auth) = Some allowed ∧ toUpperCase (rq_method req) ∈ allowed;
}.

Lemma b64url_cons s t : s ≠ EmptyString → (s +:+ t) ≠ EmptyString.
Proof. by destruct s. Qed.

Lemma requestBodyHash_nonempty body bh : requestBodyHash body = Ret bh → bh ≠ EmptyString.
Proof.
  destruct body as [b|]; simpl; [|by intros [= <-]].
  intros (bytes & _ & [= <-])%exc_bind_Ret. by apply b64url_cons.
Qed.

(** The honest payload, as the server decodes it. *)
Lemma honest_decoded req auth config rnd nonce timestamp body h :
  honest req auth config rnd nonce timestamp body h →
  ∃ l hmac, decodePayload (hd_signedData h) = Ret (JObj l) ∧
    own l "nonce" = JStr nonce ∧ own l "timestamp" = JNum (int timestamp) ∧ own l "secret_hmac" = JStr hmac ∧
    hmac ≠ EmptyString ∧ au_secretHash auth ≠ EmptyString ∧
    verifySecretHmac (au_secretHash auth) nonce (int timestamp) (JStr hmac) = Ret true ∧
    bound req (au_pairId auth) (hd_signature h) auth l.
Proof.
  intros [Hs Ht (bh & Hbh & Hrq) Hn Hts Hp Hsec (pk & Hpk & Hkp) Hsc].
  unfold signRequest in Hs. rewrite Hbh, Hsec in Hs. cbn [mbind exc_bind] in Hs.
  apply exc_bind_Ret in Hs as (hmac & Hhm & Hs). apply exc_bind_Ret in Hs as (sg & Hsg & Hs).
  apply exc_bind_Ret in Hs as (canonical & Hc & [= <-]). cbn [hd_signedData hd_signature] in *.
  set (l0 := requestPayload _ _ _ _ _ _ _) in *.
  destruct (requestPayload_ok bh (rq_method req) nonce (cc_pairId config) (rq_path req) hmac timestamp Hts) as [Hnd Hok].
  fold l0 in Hnd, Hok.
  destruct (decode_honest l0 canonical) as (l & Hd & Hperm & Hcl); [done..|].
  exists l, hmac.
  assert (∀ k, own l k = own l0 k) as Hown by (intros k; symmetry; by apply own_perm).
  rewrite !Hown. pose proof (hmacDerive_Ret _ _ _ Hhm) as (tag & -> & Htag).
  split_and!; try done.
  - apply b64url_nonempty. by intros ->.
  - intros E. unfold hmacDerive in Hhm. by rewrite decide_True in Hhm.
  - by apply verifySecretHmac_str.
  - split; rewrite ?Hown; try done.
    + by rewrite Hp.
    + exists bh. split_and!; [done|by eapply requestBodyHash_nonempty|done].
    + exists pk. split; [done|]. by eapply verify_decoded.
Qed.

Section payload.
Context {S N A L U G : Type}.
Context `{!PairStore S} `{!AtomicPairStore S} `{!NonceBackend N} `{!AnomalyStore A} `{!RateLimiter L}
  `{!AuditLog U} `{!ContinuityGate G}.
Notation W := (World S N A L U G).

(** Nothing is left to decide but the clock and the replay gate. *)
Lemma honest_payload req server auth config rnd nonce timestamp body h delay :
  honest req auth config rnd nonce timestamp body h →
  (checkPayload req server (au_pairId auth) (hd_signedData h) (hd_signature h) auth delay : proc W _) =
  (let* now := date_now in
   if dec_far now (Dec timestamp 0) (cfg_sigWindowMs server)
   then do+ recordExpiredTimestamp (Some (au_pairId auth)) in deny req "timestamp_expired" true
   else consumeNonce req server (au_pairId auth) auth nonce now delay).
Proof.
  intros Hh. destruct (honest_decoded _ _ _ _ _ _ _ _ Hh) as (l & hmac & Hd & Hn & Ht & Hm & Hne & Hse & Hv & Hb).
  unfold checkPayload. rewrite Hd.
  change (prop (JObj l) "nonce") with (Ret (own l "nonce")).
  change (prop (JObj l) "timestamp") with (Ret (own l "timestamp")).
  change (prop (JObj l) "secret_hmac") with (Ret (own l "secret_hmac")).
  rewrite Hn, Ht, Hm. cbn [is_string is_finite int]. rewrite (ho_nonce _ _ _ _ _ _ _ _ Hh). cbn [negb].
  assert (truthy (JStr hmac) = true) as -> by (simpl; by rewrite bool_decide_true).
  cbn [negb]. rewrite decide_False by done. unfold int in Hv. rewrite Hv.
  apply binding_ok in Hb. by rewrite Hb.
Qed.
End payload.
End honest.

(** ** The in-memory verifier *)

Section memory.
Context `{WC : WebCrypto} `{!WebCryptoLaws WC} {N L U G : Type}.
Context `{!NonceBackend N} `{!RateLimiter L} `{!AuditLog U} `{!ContinuityGate G}.
Notation W := (World MemoryPairStore N MemoryAnomalyStore L U G).
Implicit Types w : W.

Definition set_counters (a : MemoryAnomalyStore) w : W :=
  set_anomaly (mkEngine a (ae_shadowState (w_anomaly w)) (ae_tarpitState (w_anomaly w))) w.

Lemma run_increment key w : ∃ a v, run (increment key) w = (set_counters a w, Ret v).
Proof.
  unfold increment, counter_op. simpl. unfold memory_increment.
  repeat case_match; simplify_eq/=; eauto.
Qed.

Lemma run_record name pairId w : ∃ a, run (record name pairId) w = (set_counters a w, Ret tt).
Proof.
  unfold record. rewrite run_ebind. destruct (run_increment ("global:" +:+ name) w) as (a & v & ->).
  destruct (present pairId) as [p|]; [|by exists a].
  rewrite run_ebind. destruct (run_increment ("pair:" +:+ p +:+ ":" +:+ name) (set_counters a w)) as (a' & v' & ->).
  by exists a'.
Qed.

(** No optional component is configured. *)
Definition bare (w : W) : Prop :=
  w_ipLimiter w = None ∧ w_limiter w = None ∧ w_audit w = None ∧ w_gate w = None.

(** Headers of the sizes and shapes the verifier admits. *)
Record wellFormedHeaders (req : BPCRequestData) (h : SignedHeaders) : Prop := {
  wf_pairId : rq_pairId req = Some (hd_pairId h);
  wf_signedData : rq_signedData req = Some (hd_signedData h);
  wf_signature : rq_signature req = Some (hd_signature h);
  wf_version : rq_version req = Some (hd_version h);
  wf_method : rq_method req ∈ ALLOWED_METHODS;
  wf_sizes : (str_len (hd_pairId h) <= MAX_PAIR_ID_LEN ∧ str_len (hd_signedData h) <= MAX_SIGNED_DATA_LEN ∧
    str_len (hd_signature h) <= MAX_SIGNATURE_LEN)%Z;
  wf_nonempty : hd_signedData h ≠ EmptyString ∧ hd_signature h ≠ EmptyString;
  wf_id : PAIR_ID_RE (hd_pairId h) = true;
}.

Lemma signRequest_headers rnd nonce ts config method path body h :
  signRequest rnd nonce ts config method path body = Ret h →
  hd_pairId h = cc_pairId config ∧ hd_version h = BPC_PROTOCOL_VERSION.
Proof.
  unfold signRequest. intros H. repeat apply exc_bind_Ret in H as (? & _ & H). by injection H as <-.
Qed.

Lemma present_nonempty s : s ≠ EmptyString → present (Some s) = Some s.
Proof. intros Hs. unfold present. by rewrite decide_False. Qed.

Lemma run_claim pairId p auth now w : reg_atomic (w_registry w) = true → valid_time now = true →
  store_inv (w_store w) → om_get pairId (mp_pairs (w_store w)) = Some p →
  captureAuthorizationContext p = Ret auth → sp_status p = active → elapsed (sp_expiresAt p) now = false →
  cap_reached (sp_maxRequests p) (sp_requests p) = false →
  ∃ w', run (claimSuccessfulUseOutcome pairId now (expectedUsePolicy auth)) w = (w', Ret claimed) ∧
    abs (w_store w') = <[pairId := used now p]> (abs (w_store w)) ∧ w_nonces w' = w_nonces w ∧ bare w' = bare w.
Proof.
  intros Hat Hv Hinv Hget Hcap Hst Hel Hc. unfold captureAuthorizationContext in Hcap.
  apply exc_bind_Ret in Hcap as (k & Hk & [= <-]). unfold claimSuccessfulUseOutcome.
  set (e := expectedUsePolicy _).
  rewrite run_bind. cbn [atomic read call run]. rewrite Hat, run_ebind.
  destruct (mem_claim_refines pairId now e k Hv ltac:(by eapply canonical_jwk_value) (w_store w) Hinv) as (_ & _ & Heq).
  unfold claim_spec in Heq. rewrite abs_lookup, Hget in Heq.
  assert (claim_pair now e p = Ret (Some (used now p), claimed)) as Hclaim.
  { apply claim_pair_claimed. unfold policy_agrees. split_and!; try done. exists k. split; [done|]. by eapply canonical_jwk_value. }
  rewrite Hclaim in Heq. cbn [store_op call run store_claimSuccessfulUse MemoryPairStore_atomic].
  destruct (mem_claimSuccessfulUse pairId now e (w_store w)) as [s r]. cbn [fst snd] in Heq.
  injection Heq as Habs ->. eexists. split; [reflexivity|]. done.
Qed.

(** The pair of an honest client, ready for use at the current time. *)
Record ready (p : StoredPair) (auth : AuthorizationContext) (server : BPCServerConfig) (now : Z) : Prop := {
  rd_capture : captureAuthorizationContext p = Ret auth;
  rd_active : sp_status p = active;
  rd_failures : (sp_failedSigs p < default 10 (cfg_lockoutCount server))%Z;
  rd_expiry : elapsed (sp_expiresAt p) now = false;
  rd_uses : cap_reached (sp_maxRequests p) (sp_requests p) = false;
  rd_kind : sp_kind p ≠ Some ghost;
}.

Lemma ready_context p auth server now : ready p auth server now →
  au_pairId auth = sp_id p ∧ au_status auth = active ∧ au_failedSigs auth = sp_failedSigs p ∧
  past_expiry (au_expiresAt auth) now = false ∧ cap_reached (au_maxRequests auth) (au_requests auth) = false ∧
  au_kind auth ≠ ghost.
Proof.
  intros [Hcap Hst _ Hex Hc Hk]. unfold captureAuthorizationContext in Hcap.
  apply exc_bind_Ret in Hcap as (k & _ & [= <-]). simpl. split_and!; try done.
  - unfold past_expiry. unfold elapsed in Hex. destruct (sp_expiresAt p) as [e|]; [|done]. rewrite Hex.
    apply andb_false_r.
  - destruct (sp_kind p) as [[]|]; naive_solver.
Qed.

(** The pipeline from the replay gate on. *)
Lemma run_consume req server pairId p auth nonce now delay w :
  bare w → reg_atomic (w_registry w) = true → valid_time (w_now w) = true →
  store_inv (w_store w) → om_get pairId (mp_pairs (w_store w)) = Some p → ready p auth server (w_now w) →
  (ServerNonceStore_checkAndConsume nonce (w_now w) (w_nonces w)).2 = Ret false →
  ∃ w', run (consumeNonce req server pairId auth nonce now delay) w =
      (w', Ret (mkResult true (Some pairId) (Some (snapshotOf auth now)) None None
                  (if decide (0 < delay)%Z then Some delay else None))) ∧
    abs (w_store w') = <[pairId := used (w_now w) p]> (abs (w_store w)) ∧
    w_nonces w' = (ServerNonceStore_checkAndConsume nonce (w_now w) (w_nonces w)).1.
Proof.
  intros (Hip & Hl & Hau & Hg) Hat Hv Hinv Hget Hrd Hn. unfold consumeNonce.
  rewrite run_bind. cbn [gate_op read call run]. rewrite Hg, run_bind, run_nonce_op, Hn. cbv iota.
  set (ns := (ServerNonceStore_checkAndConsume nonce (w_now w) (w_nonces w)).1).
  unfold finishRequest. destruct (ready_context _ _ _ _ Hrd) as (_ & _ & _ & _ & _ & Hk).
  rewrite decide_False by done. rewrite run_bind. cbn [date_now read call run]. rewrite run_ebind.
  destruct Hrd as [Hcap Hst _ Hex Hc _].
  destruct (run_claim pairId p auth (w_now (set_nonces ns w)) (set_nonces ns w))
    as (w' & -> & Habs & Hns & Hb); try done.
  cbv iota. rewrite run_ebind. cbn [audit_op call run].
  assert (bare w') as (_ & _ & -> & _) by (rewrite Hb; done).
  eexists. split; [reflexivity|]. by rewrite Habs, Hns.
Qed.

Lemma run_checkStatus req server auth p client rnd nonce timestamp body h w :
  honest req auth client rnd nonce timestamp body h → ready p auth server (w_now w) →
  (cfg_enableTarpit server = Some false ∨ rq_ip req = None) →
  dec_far (w_now w) (Dec timestamp 0) (cfg_sigWindowMs server) = false →
  run (checkStatus req server (au_pairId auth) (hd_signedData h) (hd_signature h) auth) w =
  run (consumeNonce req server (au_pairId auth) auth nonce (w_now w) 0 : proc W _) w.
Proof.
  intros Hh Hrd Htp Hfar. destruct (ready_context _ _ _ _ Hrd) as (_ & Hst & Hfs & Hex & Hc & _).
  unfold checkStatus. rewrite Hst, decide_False by (rewrite Hfs; pose proof (rd_failures _ _ _ _ Hrd); lia).
  rewrite run_bind. cbn [date_now read call run]. rewrite Hex, Hc.
  unfold checkVerdict.
  assert ((tarpitEnabled server && bool_decide (sourceIp req ≠ "unknown"))%bool = false) as ->.
  { unfold tarpitEnabled, sourceIp. by destruct Htp as [->| ->]; [|rewrite andb_false_r]. }
  rewrite (honest_payload _ _ _ _ _ _ _ _ _ _ Hh), run_bind. cbn [date_now read call run]. by rewrite Hfar.
Qed.

(** C3 A request signed by the client of an active pair is accepted: when the
    request reaches an in-memory verifier unchanged, within the signature
    window, with a nonce the replay store has not seen, and the source address
    is neither in shadow mode nor tarpitted, the verifier answers [ok] with the
    pair's snapshot, counts exactly one use and consumes the nonce. *)
Theorem honest_request_accepted req server client rnd nonce timestamp body h auth p w :
  honest req auth client rnd nonce timestamp body h → wellFormedHeaders req h →
  om_get (cc_pairId client) (mp_pairs (w_store w)) = Some p → store_inv (w_store w) →
  ready p auth server (w_now w) →
  bare w → reg_atomic (w_registry w) = true → valid_time (w_now w) = true →
  (cfg_enableTarpit server = Some false ∨ rq_ip req = None) →
  isInShadowState (cc_pairId client) (sourceIp req) (w_anomaly w) = false →
  dec_far (w_now w) (Dec timestamp 0) (cfg_sigWindowMs server) = false →
  (ServerNonceStore_checkAndConsume nonce (w_now w) (w_nonces w)).2 = Ret false →
  ∃ w', run (verifyBPCRequest req server) w =
      (w', Ret (mkResult true (Some (cc_pairId client)) (Some (snapshotOf auth (w_now w))) None None None)) ∧
    abs (w_store w') = <[cc_pairId client := used (w_now w) p]> (abs (w_store w)) ∧
    w_nonces w' = (ServerNonceStore_checkAndConsume nonce (w_now w) (w_nonces w)).1.
Proof.
  intros Hh Hwf Hget Hinv Hrd Hb Hat Hv Htp Hsh Hfar Hn. pose proof (ho_pair _ _ _ _ _ _ _ _ Hh) as Hid.
  destruct (signRequest_headers _ _ _ _ _ _ _ _ (ho_signed _ _ _ _ _ _ _ _ Hh)) as [Hpid Hver].
  destruct Hwf as [Wp Wd Wsg Wv Wm (W1 & W2 & W3) (N1 & N2) Wre].
  unfold verifyBPCRequest. rewrite run_ebind. destruct (run_record "total" (rq_pairId req) w) as [a Ha].
  unfold recordRequest. rewrite Ha. set (w1 := set_counters a w).
  assert (hd_pairId h ≠ EmptyString) as N0 by (intros E; rewrite E in Wre; vm_compute in Wre; congruence).
  pose proof Hb as (B1 & B2 & B3 & B4).
  assert (run (match present (rq_ip req) with Some ip => ip_limiter_op ("ip:" +:+ ip) | None => eret None end) w1 =
    (w1, Ret None)) as Hip.
  { destruct (present (rq_ip req)); [|done]. cbn. by rewrite B1. }
  rewrite run_ebind, Hip, run_bind. cbn [read call run]. rewrite Wp, present_nonempty by done.
  assert (isInShadowState (hd_pairId h) (sourceIp req) (w_anomaly w1) = false) as -> by (by rewrite Hpid).
  rewrite andb_false_r, run_ebind.
  assert (run (limiter_op ("pair:" +:+ hd_pairId h)) w1 = (w1, Ret None)) as -> by (cbn; by rewrite B2).
  unfold checkHeaders. rewrite decide_False by (intros H; by apply H).
  rewrite Wp, Wd, Wsg, !present_nonempty by done. rewrite decide_False by lia. rewrite Wre, Wv, Hver. cbn [negb].
  rewrite decide_False by (intros H; by apply H). rewrite run_ebind.
  cbn [reg_get store_op call run store_get MemoryPairStore_store mem_get].
  change (w_store w1) with (w_store w). rewrite Hpid, Hget, (rd_capture _ _ _ _ Hrd). cbv iota.
  rewrite <-Hid.
  erewrite (run_checkStatus req server auth p); [|done..|by destruct w].
  destruct (run_consume req server (au_pairId auth) p auth nonce (w_now w) 0 (set_store (w_store w1) w1))
    as (w' & Hrun & Habs & Hns); try done; [by rewrite Hid|].
  exists w'. split_and!; done.
Qed.
End memory.
