(* ===== verification/StoreGuard.v ===== *)
(** * Rely-guarantee over a pair store

    What a component promises about the pairs is a preorder [Rm] on the abstract
    map.  A process is [guarded] when, on an atomic and well-formed store, each
    of its steps keeps the store well formed and moves the pairs along [Rm],
    whatever other guarded processes and the environment do in between. *)

From S2P Require Import Prelude Proc JsNum Json Crypto Store Nonce RateLimiter Anomaly AuditChain World.
From stdpp Require Import base gmap strings list sets relations.
From Stdlib Require Import ZArith Lia.

Local Open Scope bpc_scope.

Class PairsOrder (Rm : pairs → pairs → Prop) := { pairs_preorder : PreOrder Rm }.
#[export] Existing Instance pairs_preorder.
#[export] Hint Mode PairsOrder ! : typeclass_instances.

Section guard.
Context {S N A L U G : Type} `{!StoreModel S}.
Notation W := (World S N A L U G).
Implicit Types w : W.
Context (Rm : pairs → pairs → Prop) `{!PairsOrder Rm}.

(** The store is atomic and well formed. *)
Definition fine w : Prop := reg_atomic (w_registry w) = true ∧ store_inv (w_store w).
Record keeps w w' : Prop := {
  keeps_fine : fine w → fine w';
  keeps_pairs : Rm (abs (w_store w)) (abs (w_store w'));
}.

#[export] Instance keeps_preorder : PreOrder keeps.
Proof.
  split; [intros w; by split|]. intros w1 w2 w3 [F1 K1] [F2 K2]. split; [auto|]. by etrans.
Qed.

Definition guarded {B} (p : proc W B) : Prop := ∀ w, fine w → wpg keeps keeps p (λ _, fine) w.

Lemma guarded_done {B} (b : B) : guarded (Done b).
Proof. by intros w Hw. Qed.
Lemma guarded_bind {B C} (p : proc W B) (k : B → proc W C) : guarded p → (∀ b, guarded (k b)) → guarded (pbind p k).
Proof. intros Hp Hk w Hw. apply wpg_bind. eapply wpg_mono; [|by apply Hp]. intros b w'. apply Hk. Qed.
Lemma guarded_ebind {B C} (p : proc W (exc B)) (k : B → proc W (exc C)) :
  guarded p → (∀ b, guarded (k b)) → guarded (ebind p k).
Proof. intros Hp Hk. apply guarded_bind; [done|]. intros [b|e]; [apply Hk|apply guarded_done]. Qed.

(** Reading the kind of store: the atomic path is taken. *)
Lemma guarded_atomic {B} (k : bool → proc W B) : guarded (k true) →
  guarded (let* isAtomic := read (λ w, reg_atomic (w_registry w)) in k isAtomic).
Proof.
  intros Hk w Hw. apply wpg_bind, wpg_call. intros w1 HR. cbn [fst snd]. split; [done|].
  pose proof (keeps_fine _ _ HR Hw) as Hw1. rewrite (proj1 Hw1). by apply Hk.
Qed.

(** Calls that leave the store alone. *)
Lemma guarded_elsewhere {B} (f : W → W * B) :
  (∀ w, w_store (f w).1 = w_store w ∧ reg_atomic (w_registry (f w).1) = reg_atomic (w_registry w)) →
  guarded (call f).
Proof.
  intros Hf w Hw. apply wpg_call. intros w1 HR. destruct (Hf w1) as [Hs Hr].
  apply (keeps_fine _ _ HR) in Hw. split; [split|]; unfold fine in *; by rewrite ?Hs, ?Hr.
Qed.

Lemma guarded_audit `{!AuditLog U} e : guarded (audit_op e : proc W _).
Proof.
  apply guarded_elsewhere. intros w. destruct (w_audit w); [|done]. by destruct (audit_write _ _ _).
Qed.

Lemma guarded_store {B} (op : S → S * exc B) spec : implements op spec → (∀ m, Rm m (spec m).1) →
  guarded (store_op op : proc W _).
Proof.
  intros Hop Hspec w Hw. apply wpg_call. intros w1 HR. destruct (keeps_fine _ _ HR Hw) as [Hat Hinv].
  destruct (Hop _ Hinv) as (Hi & _ & Hres). specialize (Hspec (abs (w_store w1))).
  destruct (op (w_store w1)) as [s r]. cbn [fst snd] in *.
  assert (fine (set_store s w1)) as Hf by done. split; [|done]. split; [done|]. cbn [set_store w_store].
  destruct r as [b|e]; [by rewrite Hres in Hspec|]. by destruct Hres as [->| ->].
Qed.

(** The store is fine at every step of a guarded process. *)
Lemma exec_fine (R : W → W → Prop) {B} (p : proc W B) w tr w' b : (∀ w1 w2, R w1 w2 → keeps w1 w2) →
  guarded p → fine w → exec R p w tr w' b → ∀ s, s ∈ tr → fine s.1.
Proof.
  intros HR Hp Hw Hex. specialize (Hp w Hw). induction Hex as [|f w w1 w2 p' tr w' b Hw1 Hf Hex IH]; [set_solver|].
  specialize (HR _ _ Hw1). specialize (Hp w1 HR). rewrite Hf in Hp. destruct Hp as [HG Hp].
  pose proof (keeps_fine _ _ HR Hw) as Hfine1.
  intros s [->|Hin]%elem_of_cons; [done|]. apply IH; [done|by apply (keeps_fine _ _ HG)|done].
Qed.

(** ** Pools of guarded processes *)

Lemma pool_keeps_store {B} (ps ps' : list (proc W B)) w tr w' :
  pool_run keeps ps w tr w' ps' → (∀ p, p ∈ ps → guarded p) → fine w → Forall (λ e, keeps e.2.1 e.2.2) tr.
Proof.
  intros Hrun Hps Hw. eapply (pool_guarantee keeps keeps (λ _ _, fine)); try exact Hrun.
  - intros w1 w2 w3. apply transitivity.
  - done.
  - intros w1. reflexivity.
  - intros _ _ w1 w2 HR. apply HR.
  - intros i p Hi. apply Hps; [by eapply list_elem_of_lookup_2|done].
Qed.

Lemma pool_fine {B} (ps ps' : list (proc W B)) w tr w' e :
  pool_run keeps ps w tr w' ps' → (∀ p, p ∈ ps → guarded p) → fine w → e ∈ tr → keeps w e.2.1.
Proof.
  intros Hrun Hps Hw Hin. destruct (list_elem_of_split _ _ Hin) as (t1 & t2 & Htr).
  eapply pool_rtc; [apply _|by eapply pool_keeps_store|]. by eapply pool_chain_from.
Qed.

(** Between two steps of different processes the pairs moved along [Rm]. *)
Lemma pool_between {B} (ps ps' : list (proc W B)) w tr w' i j (s1 s2 : W * W) :
  pool_run keeps ps w tr w' ps' → (∀ p, p ∈ ps → guarded p) → fine w → i ≠ j →
  (Some i, s1) ∈ tr → (Some j, s2) ∈ tr → keeps s1.2 s2.1 ∨ keeps s2.2 s1.1.
Proof.
  intros Hrun Hps Hw Hne H1 H2. pose proof (pool_keeps_store _ _ _ _ _ Hrun Hps Hw) as Hkeep.
  destruct (trace_order _ _ _ _ _ Hne H1 H2) as (t1 & t2 & t3 & [Htr|Htr]).
  - left. by apply (pool_rtc _ _ _ _ Hkeep (pool_chain _ _ _ _ _ _ Hrun t1 _ t2 _ t3 Htr)).
  - right. by apply (pool_rtc _ _ _ _ Hkeep (pool_chain _ _ _ _ _ _ Hrun t1 _ t2 _ t3 Htr)).
Qed.
End guard.
