(* ===== verification/Rotation.v ===== *)
(** * Key rotation (packages/server/src/rotation.ts)

    [handleRotation] as a process over the shared [World]: the request is
    checked and bound to the old key's signature, then the old pair is retired
    and its replacement created, in one atomic store step when the store has
    one. *)

From S2P Require Import Prelude Proc JsNum Encoding Json Crypto Store Nonce RateLimiter Anomaly AuditChain World AnomalyEngine Registry Middleware StoreGuard.
From stdpp Require Import base gmap strings list sets.
From Stdlib Require Import ZArith Lia.

Local Open Scope bpc_scope.

(** The request comes from outside: every field is a JSON value. *)
Record RotationRequest := mkRotation {
  ro_oldPairId : jsval;
  ro_newPubJwk : jsval;
  ro_signature : jsval;
  ro_signedData : jsval;
  ro_timestamp : jsval;
}.

Record RotationResult := mkRotationResult {
  rr_ok : bool;
  rr_newPairId : option string;
  rr_error : option string;
}.
Definition rotation_failed (error : string) : RotationResult := mkRotationResult false None (Some error).

Definition ROT_MAX_SIGNATURE_LEN : Z := 200.

Definition is_str (v : jsval) : bool := match v with JStr _ => true | _ => false end.

Definition isValidPublicJwk (jwk : jsval) : bool :=
  match jwk with
  | JObj l =>
      match own l "kty" with
      | JStr kty =>
          if decide (kty = "EC") then (is_str (own l "crv") && is_str (own l "x") && is_str (own l "y"))%bool
          else if decide (kty = "OKP") then (is_str (own l "crv") && is_str (own l "x"))%bool
          else if decide (kty = "RSA") then (is_str (own l "n") && is_str (own l "e"))%bool
          else false
      | _ => false
      end
  | _ => false
  end.

(** [===] on values of two separate [JSON.parse] results: objects and arrays
    are never identical. *)
Definition strict_eq (a b : jsval) : bool :=
  match a with JArr _ | JObj _ => false | _ => bool_decide (a = b) end.

Definition field (v : jsval) (k : string) : jsval := match v with JObj l => own l k | _ => JUndef end.

Definition sameJwk (a b : jsval) : bool :=
  forallb (λ f, strict_eq (field a f) (field b f)) ["kty"; "crv"; "x"; "y"; "n"; "e"].

(** [!v || typeof v !== 'string' || v.length > max] *)
Definition bounded_string (max : Z) (v : jsval) : option string :=
  match v with
  | JStr s => if decide (s = EmptyString ∨ max < str_len s)%Z then None else Some s
  | _ => None
  end.

(** The replacement keeps the policy of the old pair. *)
Definition replacementPair (newPairId : string) (newPubJwk : jsval) (now : Z) (old : StoredPair) : StoredPair :=
  mkPair newPairId (sp_name old) (sp_scope old) (sp_mode old) (sp_secretHash old) newPubJwk active now None 0 0
    None None (sp_expiresAt old) (sp_maxRequests old) (sp_kind old) (sp_canaryClass old).

(** The binding of the signed payload to the request: an error, or nothing. *)
Definition rotationBinding (payload : jsval) (oldPairId : string) (timestamp newPubJwk : jsval) : option string :=
  if negb (strict_eq (field payload "purpose") (JStr "rotation")) then Some "payload_field_mismatch"
  else if negb (strict_eq (field payload "old_pair_id") (JStr oldPairId)) then Some "payload_field_mismatch"
  else if negb (strict_eq (field payload "timestamp") timestamp) then Some "payload_field_mismatch"
  else
    match field payload "new_pub_jwk_json" with
    | JStr json =>
        match parse json with
        | Throw _ => Some "invalid_signed_data"
        | Ret parsed =>
            if negb (isValidPublicJwk parsed) then Some "invalid_request"
            else if negb (sameJwk parsed newPubJwk) then Some "payload_field_mismatch"
            else None
        end
    | _ => Some "payload_field_mismatch"
    end.

Section rotation.
Context `{WC : WebCrypto} {S N A L U G : Type}.
Context `{!PairStore S} `{!AtomicPairStore S} `{!AuditLog U}.
Notation W := (World S N A L U G).
Notation result := (proc W (exc RotationResult)).

Definition rotation_entry (action : AuditAction) (severity : option AuditSeverity) (pairId : string)
    (error detail : option string) : AuditInput :=
  mkInput action severity (Some pairId) error None None None None None detail.

Definition rotation_fail (pairId error : string) : result :=
  do+ (if decide (error = "invalid_signature")
       then audit_op (rotation_entry verify_fail None pairId (Some error) None)
       else eret tt) in
  eret (rotation_failed error).

(** The signature of the old key over the payload. *)
Definition rotationSignature (old : StoredPair) (payload : jsval) (signature : string) : bool :=
  match importPublicKeyFromJwk (sp_pubJwk old) with
  | Ret pk => verifyPayload pk payload signature
  | Throw _ => false
  end.

(** Steps 6 and 7. *)
Definition commitRotation (oldPairId : string) (newPubJwk : jsval) (old : StoredPair) : result :=
  let* newPairId := fresh_id "pair" in
  let* now := date_now in
  let new := replacementPair newPairId newPubJwk now old in
  let* isAtomic := atomic in
  let* committed := (if (isAtomic : bool) then store_op (rotatePair old new)
                     else do+ store_op (store_set (with_status rotated old)) in
                          do+ store_op (store_set new) in
                          eret true) in
  match committed with
  | Throw _ =>
      do+ audit_op (rotation_entry AuditChain.rotate (Some CRITICAL) oldPairId (Some "new_pair_persist_failed")
            (Some (stringify (JObj [("attemptedNewPairId", JStr newPairId)])))) in
      eret (rotation_failed "rotation_persist_failed")
  | Ret false => rotation_fail oldPairId "rotation_conflict"
  | Ret true =>
      do+ audit_op (rotation_entry AuditChain.rotate None oldPairId None
            (Some (stringify (JObj [("newPairId", JStr newPairId)])))) in
      do+ audit_op (rotation_entry register None newPairId None
            (Some (stringify (JObj [("rotatedFrom", JStr oldPairId)])))) in
      eret (mkRotationResult true (Some newPairId) None)
  end.

(** Steps 2 to 5. *)
Definition rotateChecked (req : RotationRequest) (oldPairId signedData signature : string) : result :=
  let+ oldPair := store_op (store_get oldPairId) in
  match oldPair with
  | None => rotation_fail oldPairId "unknown_pair"
  | Some old =>
      if decide (sp_status old ≠ active) then rotation_fail oldPairId "pair_not_active"
      else
        match (json ← b64urlDecode signedData; parse json) with
        | Throw _ => rotation_fail oldPairId "invalid_signed_data"
        | Ret payload =>
            if negb (rotationSignature old payload signature) then rotation_fail oldPairId "invalid_signature"
            else
              match rotationBinding payload oldPairId (ro_timestamp req) (ro_newPubJwk req) with
              | Some error => rotation_fail oldPairId error
              | None => commitRotation oldPairId (ro_newPubJwk req) old
              end
        end
  end.

Definition handleRotation (req : RotationRequest) (sigWindowMs : Z) : result :=
  match bounded_string MAX_PAIR_ID_LEN (ro_oldPairId req),
        bounded_string MAX_SIGNED_DATA_LEN (ro_signedData req),
        bounded_string ROT_MAX_SIGNATURE_LEN (ro_signature req), ro_timestamp req with
  | Some oldPairId, Some signedData, Some signature, JNum (Fin timestamp) =>
      if negb (isValidPublicJwk (ro_newPubJwk req)) then rotation_fail oldPairId "invalid_request"
      else
        let* now := date_now in
        if dec_far now timestamp sigWindowMs then rotation_fail oldPairId "timestamp_expired"
        else rotateChecked req oldPairId signedData signature
  | _, _, _, _ => eret (rotation_failed "invalid_request")
  end.

(** ** What a successful rotation did *)

Context `{!StoreModel S} `{!AtomicPairStoreLaws S}.

(** The payload binds the request to the key of [old]. *)
Record rotation_bound (req : RotationRequest) (oldPairId : string) (old : StoredPair) : Prop := {
  ror_payload : ∃ signedData signature json l newJson newKey pk,
    ro_signedData req = JStr signedData ∧ ro_signature req = JStr signature ∧
    b64urlDecode signedData = Ret json ∧ parse json = Ret (JObj l) ∧
    own l "purpose" = JStr "rotation" ∧ own l "old_pair_id" = JStr oldPairId ∧
    own l "timestamp" = ro_timestamp req ∧ own l "new_pub_jwk_json" = JStr newJson ∧
    parse newJson = Ret newKey ∧ isValidPublicJwk newKey = true ∧ sameJwk newKey (ro_newPubJwk req) = true ∧
    importPublicKeyFromJwk (sp_pubJwk old) = Ret pk ∧ verifyPayload pk (JObj l) signature = true;
}.

(** The store step that rotated [old] into [new]. *)
Definition rotation_step (old new : StoredPair) (s : W * W) : Prop :=
  rotatePair old new (w_store s.1) = (w_store s.2, Ret true).

(** Its effect on the abstract store. *)
Lemma rotation_step_spec old new (s : W * W) : store_inv (w_store s.1) → rotation_step old new s →
  abs (w_store s.1) !! sp_id old = Some old ∧ sp_status old = active ∧ abs (w_store s.1) !! sp_id new = None ∧
  abs (w_store s.2) = <[sp_id new := new]> (<[sp_id old := with_status rotated old]> (abs (w_store s.1))).
Proof.
  intros Hinv Hs. destruct (rotatePair_law old new _ Hinv) as (_ & _ & Hspec).
  rewrite Hs in Hspec. cbn [fst snd] in Hspec. unfold rotate_spec in Hspec.
  destruct (abs (w_store s.1) !! sp_id old) as [cur|] eqn:Hcur; [|done].
  destruct (_ && _)%bool eqn:Hc; [|done]. injection Hspec as Habs. btrue. subst cur.
  unfold isActive in *. btrue. done.
Qed.

Lemma rotation_binding_ok payload oldPairId timestamp newPubJwk :
  rotationBinding payload oldPairId timestamp newPubJwk = None →
  field payload "purpose" = JStr "rotation" ∧ field payload "old_pair_id" = JStr oldPairId ∧
  field payload "timestamp" = timestamp ∧
  ∃ newJson newKey, field payload "new_pub_jwk_json" = JStr newJson ∧ parse newJson = Ret newKey ∧
    isValidPublicJwk newKey = true ∧ sameJwk newKey newPubJwk = true.
Proof.
  assert (∀ a b, negb (strict_eq a b) = false → a = b) as Heq.
  { intros a b H. apply negb_false_iff in H. by destruct a; try done; apply bool_decide_eq_true in H. }
  unfold rotationBinding.
  destruct (negb (strict_eq _ (JStr "rotation"))) eqn:H1; [done|].
  destruct (negb (strict_eq _ (JStr oldPairId))) eqn:H2; [done|].
  destruct (negb (strict_eq _ timestamp)) eqn:H3; [done|].
  destruct (field payload "new_pub_jwk_json") as [| | | |json| |]; try done.
  destruct (parse json) as [newKey|] eqn:Hp; [|done].
  destruct (isValidPublicJwk newKey) eqn:Hv; [|done].
  destruct (sameJwk newKey newPubJwk) eqn:Hs; [|done]. intros _.
  split_and!; [by apply Heq..|]. by exists json, newKey.
Qed.

(** The step [s0] of [tr] that read the old pair. *)
Definition pair_read_as (k : string) (p : StoredPair) (s0 : W * W) (tr : steps W) : Prop :=
  s0 ∈ tr ∧ (store_get k (w_store s0.1)).2 = Ret (Some p).

Context (R : W → W → Prop).

Lemma rotation_fail_exec pairId error w tr w' r :
  exec R (rotation_fail pairId error) w tr w' (Ret r) → rr_ok r = false.
Proof.
  intros (u & w1 & tr1 & tr2 & _ & Hex & _)%exec_ebind_inv. apply exec_done_inv in Hex as (Heq & _). by injection Heq as ->.
Qed.

Definition all_atomic (tr : steps W) : Prop := Forall (λ s : W * W, reg_atomic (w_registry s.1) = true) tr.

Lemma commit_ok oldPairId newPubJwk old w tr w' r : all_atomic tr →
  exec R (commitRotation oldPairId newPubJwk old) w tr w' (Ret r) → rr_ok r = true →
  ∃ newPairId now s, rr_newPairId r = Some newPairId ∧ s ∈ tr ∧
    rotation_step old (replacementPair newPairId newPubJwk now old) s.
Proof.
  unfold commitRotation. intros Hat Hex Hr.
  apply exec_bind_inv in Hex as (newPairId & w1 & tr1 & tr2 & _ & Hex & ->).
  apply exec_bind_inv in Hex as (now & w2 & tr3 & tr4 & _ & Hex & ->).
  apply exec_bind_inv in Hex as (a & w3 & tr5 & tr6 & Ha & Hex & ->).
  apply exec_call_inv in Ha as (wa & _ & Ha & ->). injection Ha as -> <-.
  apply Forall_app in Hat as [_ Hat]. apply Forall_app in Hat as [_ Hat].
  apply Forall_app in Hat as [Ha _]. apply Forall_cons in Ha as [Ha _]. simpl in Ha. rewrite Ha in Hex.
  apply exec_bind_inv in Hex as (c & w4 & tr7 & tr8 & Hc & Hex & ->).
  destruct c as [[]|e].
  - apply exec_ebind_inv in Hex as (u1 & w5 & ? & ? & _ & Hex & ->).
    apply exec_ebind_inv in Hex as (u2 & w6 & ? & ? & _ & Hex & ->).
    apply exec_done_inv in Hex as (Heq & _). injection Heq as ->.
    apply exec_call_inv in Hc as (wb & _ & Hf & ->).
    exists newPairId, now, (wb, w4). split_and!; [done|set_solver|].
    unfold rotation_step. simpl. destruct (rotatePair _ _ _) as [st b] eqn:E. injection Hf as <- ->. done.
  - apply rotation_fail_exec in Hex. congruence.
  - apply exec_ebind_inv in Hex as (u1 & w5 & ? & ? & _ & Hex & _).
    apply exec_done_inv in Hex as (Heq & _). injection Heq as ->. done.
Qed.

Lemma rotateChecked_ok req oldPairId signedData signature w tr w' r : all_atomic tr →
  ro_signedData req = JStr signedData → ro_signature req = JStr signature →
  exec R (rotateChecked req oldPairId signedData signature) w tr w' (Ret r) → rr_ok r = true →
  ∃ old newPairId now s0 s, rr_newPairId r = Some newPairId ∧ s ∈ tr ∧ pair_read_as oldPairId old s0 tr ∧
    rotation_bound req oldPairId old ∧ rotation_step old (replacementPair newPairId (ro_newPubJwk req) now old) s.
Proof.
  unfold rotateChecked. intros Hat Hsd Hsg Hex Hr.
  apply exec_ebind_inv in Hex as (o & w1 & tr1 & tr2 & Hget & Hex & ->). apply Forall_app in Hat as [_ Hat].
  apply exec_call_inv in Hget as (w0 & _ & Hget & ->).
  destruct o as [old|]; [|apply rotation_fail_exec in Hex; congruence].
  destruct (decide (sp_status old ≠ active)); [apply rotation_fail_exec in Hex; congruence|].
  destruct (b64urlDecode signedData) as [json|] eqn:Hd; cbn [mbind exc_bind] in Hex;
    [|apply rotation_fail_exec in Hex; congruence].
  destruct (parse json) as [payload|] eqn:Hp; [|apply rotation_fail_exec in Hex; congruence].
  destruct (rotationSignature old payload signature) eqn:Hv; [|apply rotation_fail_exec in Hex; congruence].
  destruct (rotationBinding _ _ _ _) eqn:Hb; [apply rotation_fail_exec in Hex; congruence|].
  cbn [negb] in Hex. apply commit_ok in Hex as (newPairId & now & s & Hn & Hin & Hs); [|done..].
  exists old, newPairId, now, (w0, w1), s. split_and!; [done|set_solver| | |done].
  { split; [set_solver|]. cbn [fst]. destruct (store_get oldPairId (w_store w0)) as [st o]. by injection Hget as _ ->. }
  apply rotation_binding_ok in Hb as (H1 & H2 & H3 & newJson & newKey & H4 & H5 & H6 & H7).
  destruct payload as [| | | | | |l]; try done.
  unfold rotationSignature in Hv. destruct (importPublicKeyFromJwk (sp_pubJwk old)) as [pk|] eqn:Hpk; [|done].
  split. by exists signedData, signature, json, l, newJson, newKey, pk.
Qed.

Lemma handleRotation_ok req sigWindowMs w tr w' r : all_atomic tr →
  exec R (handleRotation req sigWindowMs) w tr w' (Ret r) → rr_ok r = true →
  ∃ oldPairId old newPairId now s0 s, ro_oldPairId req = JStr oldPairId ∧ rr_newPairId r = Some newPairId ∧ s ∈ tr ∧
    pair_read_as oldPairId old s0 tr ∧ rotation_bound req oldPairId old ∧
    rotation_step old (replacementPair newPairId (ro_newPubJwk req) now old) s.
Proof.
  assert (∀ m v s, bounded_string m v = Some s → v = JStr s) as Hbs.
  { intros m v s. unfold bounded_string. destruct v; try done. case_decide; [done|]. by intros [= ->]. }
  unfold handleRotation. intros Hat Hex Hr.
  destruct (bounded_string _ (ro_oldPairId req)) as [oldPairId|] eqn:B1;
    [|apply exec_done_inv in Hex as (Heq & _); by injection Heq as ->].
  destruct (bounded_string _ (ro_signedData req)) as [signedData|] eqn:B2;
    [|apply exec_done_inv in Hex as (Heq & _); by injection Heq as ->].
  destruct (bounded_string _ (ro_signature req)) as [signature|] eqn:B3;
    [|apply exec_done_inv in Hex as (Heq & _); by injection Heq as ->].
  destruct (ro_timestamp req) as [| | |[ts| |]| | |] eqn:Hts;
    try (apply exec_done_inv in Hex as (Heq & _); by injection Heq as ->).
  destruct (isValidPublicJwk (ro_newPubJwk req)); [|apply rotation_fail_exec in Hex; congruence]. cbn [negb] in Hex.
  apply exec_bind_inv in Hex as (now0 & w1 & tr1 & tr2 & _ & Hex & ->). apply Forall_app in Hat as [_ Hat].
  destruct (dec_far _ _ _); [apply rotation_fail_exec in Hex; congruence|].
  apply rotateChecked_ok in Hex as (old & newPairId & now & s0 & s & ? & ? & [? ?] & ? & ?); [|by eauto..].
  exists oldPairId, old, newPairId, now, s0, s. split_and!; [by eauto|done|set_solver|split; [set_solver|done]|done|done].
Qed.
End rotation.

(** ** Concurrent rotations *)

Section once.
Context `{WC : WebCrypto} {S N A L U G : Type}.
Context `{!PairStore S} `{!AtomicPairStore S} `{!AuditLog U} `{!StoreModel S} `{!PairStoreLaws S}
  `{!AtomicPairStoreLaws S}.
Notation W := (World S N A L U G).
Implicit Types w : W.

(** A rotated pair stays rotated. *)
Definition retired (k : string) (m : pairs) : Prop := ∃ p, m !! k = Some p ∧ sp_status p = rotated.
Definition keeps_retired (m m' : pairs) : Prop := ∀ k, retired k m → retired k m'.

#[export] Instance keeps_retired_order : PairsOrder keeps_retired.
Proof. split. split; [by intros m k|]. intros m1 m2 m3 H1 H2 k H. by apply H2, H1. Qed.

Notation guarded := (guarded keeps_retired).

Lemma guarded_get k : guarded (store_op (store_get k) : proc W _).
Proof. by refine (guarded_store _ _ _ (get_law k) _). Qed.

Lemma guarded_rotate old new : guarded (store_op (rotatePair old new) : proc W _).
Proof.
  refine (guarded_store _ _ _ (rotatePair_law old new) _). intros m k (p & Hk & Hst). unfold rotate_spec.
  destruct (m !! sp_id old) as [cur|] eqn:Hcur; [|by exists p].
  destruct (_ && _)%bool eqn:Hc; [|by exists p]. btrue. cbn [fst]. unfold retired.
  rewrite lookup_insert_ne by congruence.
  destruct (decide (sp_id old = k)) as [<-|Hne]; [rewrite lookup_insert_eq|rewrite lookup_insert_ne by done]; eauto.
Qed.

Lemma guarded_fail pairId error : guarded (rotation_fail pairId error : proc W _).
Proof.
  unfold rotation_fail. apply guarded_ebind; [case_decide; [refine (guarded_audit _ _)|apply guarded_done]|].
  intros _. apply guarded_done.
Qed.

Lemma guarded_commit oldPairId newPubJwk old : guarded (commitRotation oldPairId newPubJwk old : proc W _).
Proof.
  unfold commitRotation. apply guarded_bind; [by refine (guarded_elsewhere _ _ _)|]. intros newPairId.
  apply guarded_bind; [by refine (guarded_elsewhere _ _ _)|]. intros now. refine (guarded_atomic _ _ _).
  apply guarded_bind; [apply guarded_rotate|]. intros [[]|e].
  - repeat (apply guarded_ebind; [refine (guarded_audit _ _)|intros _]). apply guarded_done.
  - apply guarded_fail.
  - apply guarded_ebind; [refine (guarded_audit _ _)|]. intros _. apply guarded_done.
Qed.

Lemma guarded_rotation req sigWindowMs : guarded (handleRotation req sigWindowMs : proc W _).
Proof.
  unfold handleRotation, rotateChecked.
  repeat first [ apply guarded_done | apply guarded_fail | apply guarded_commit
               | apply guarded_bind; [by refine (guarded_elsewhere _ _ _)|]; intros ?
               | apply guarded_ebind; [apply guarded_get|]; intros ? | case_match ].
Qed.

Definition rotations (sigWindowMs : Z) (reqs : list RotationRequest) : list (proc W (exc RotationResult)) :=
  (λ req, handleRotation req sigWindowMs) <$> reqs.

(** Identities in the store are those of the pairs. *)
Definition ids_match : Prop := ∀ (s : S) k p, store_inv s → abs s !! k = Some p → sp_id p = k.

Lemma rotations_guarded sigWindowMs reqs p : p ∈ rotations sigWindowMs reqs → guarded p.
Proof. intros (req & -> & _)%list_elem_of_fmap. apply guarded_rotation. Qed.

(** What a successful rotation of the pool did. *)
Lemma rotation_rotates sigWindowMs reqs w tr w' ps' i req r : ids_match →
  pool_run (keeps keeps_retired) (rotations sigWindowMs reqs) w tr w' ps' → fine w →
  reqs !! i = Some req → ps' !! i = Some (Done (Ret r)) → rr_ok r = true →
  ∃ old new s, ro_oldPairId req = JStr (sp_id old) ∧ (Some i, s) ∈ tr ∧ fine s.1 ∧ rotation_step old new s.
Proof.
  intros Hids Hrun Hw Hi Hd Hok.
  assert (rotations sigWindowMs reqs !! i = Some (handleRotation req sigWindowMs)) as Hp.
  { unfold rotations. by rewrite list_lookup_fmap, Hi. }
  destruct (pool_exec _ _ _ _ _ _ _ _ _ Hrun Hp Hd w) as [w1 Hex].
  assert (∀ s, s ∈ own_steps i tr → (Some i, s) ∈ tr ∧ fine s.1) as Hown.
  { intros s Hs%own_step_pool. split; [done|].
    by apply (keeps_fine _ _ _ (pool_fine _ _ _ _ _ _ _ Hrun (rotations_guarded _ _) Hw Hs)). }
  apply handleRotation_ok in Hex as (k & old & newId & now & s0 & s & Hk & _ & Hs & [Hs0 Hread] & _ & Hstep); [|..|done].
  - exists old, (replacementPair newId (ro_newPubJwk req) now old), s.
    destruct (Hown _ Hs0) as [_ Hf0]. destruct (Hown _ Hs) as [Hin Hf].
    split_and!; [|done..]. rewrite Hk. f_equal.
    destruct (get_law k _ (proj2 Hf0)) as (Hinv & _ & Hspec). rewrite Hread in Hspec. unfold get_spec in Hspec.
    injection Hspec as Ha Hl. symmetry. eapply Hids; [exact (proj2 Hf0)|exact Hl].
  - apply Forall_forall. intros s' Hs'. by apply (Hown s').
Qed.

Lemma rotation_order old old' new new' (s1 s2 : W * W) : fine s1.1 → fine s2.1 → sp_id old = sp_id old' →
  rotation_step old new s1 → rotation_step old' new' s2 → keeps keeps_retired s1.2 s2.1 → False.
Proof.
  intros [_ H1] [_ H2] Hid R1 R2 HR.
  apply rotation_step_spec in R1 as (C1 & _ & N1 & A1); [|done].
  apply rotation_step_spec in R2 as (C2 & Hact & _); [|done].
  destruct (keeps_pairs _ _ _ HR (sp_id old)) as (p & Hp & Hst).
  { exists (with_status rotated old). split; [|done]. rewrite A1.
    rewrite lookup_insert_ne by congruence. apply lookup_insert_eq. }
  rewrite Hid, C2 in Hp. congruence.
Qed.

(** Of several rotations of one pair, in any interleaving, at most one
    succeeds: on an atomic store, with an environment that may change anything
    else but never brings a rotated pair back. *)
Theorem rotation_succeeds_once sigWindowMs reqs w tr w' ps' i j reqi reqj ri rj : ids_match →
  pool_run (keeps keeps_retired) (rotations sigWindowMs reqs) w tr w' ps' → fine w → i ≠ j →
  reqs !! i = Some reqi → reqs !! j = Some reqj → ro_oldPairId reqi = ro_oldPairId reqj →
  ps' !! i = Some (Done (Ret ri)) → ps' !! j = Some (Done (Ret rj)) → rr_ok ri = true → rr_ok rj = false.
Proof.
  intros Hids Hrun Hw Hne Hi Hj Hsame Hdi Hdj Hoki. apply not_true_is_false. intros Hokj.
  destruct (rotation_rotates _ _ _ _ _ _ _ _ _ Hids Hrun Hw Hi Hdi Hoki) as (oi & ni & si & Ei & Ini & Fi & Ri).
  destruct (rotation_rotates _ _ _ _ _ _ _ _ _ Hids Hrun Hw Hj Hdj Hokj) as (oj & nj & sj & Ej & Inj & Fj & Rj).
  assert (sp_id oi = sp_id oj) as Hid by congruence.
  destruct (pool_between _ _ _ _ _ _ _ _ _ _ Hrun (rotations_guarded _ _) Hw Hne Ini Inj).
  - by eapply (rotation_order oi oj ni nj si sj).
  - by eapply (rotation_order oj oi nj ni sj si).
Qed.

(** C6 A successful rotation is authorised by the old key and atomic: under any
    interference with an atomic, well-formed store, the request carries a
    payload, signed by the key of the pair that was read, that names this pair,
    the time of the request and the new key; and one step retires that pair,
    unchanged and active until then, and creates a pair under a fresh identifier
    with the same scope, mode, secret, limits and kind.  Nothing else changes. *)
Theorem rotation_commits (R : W → W → Prop) req sigWindowMs w tr w' r : ids_match →
  exec R (handleRotation req sigWindowMs) w tr w' (Ret r) → (∀ s, s ∈ tr → fine s.1) → rr_ok r = true →
  ∃ oldPairId old newPairId now s, s ∈ tr ∧ ro_oldPairId req = JStr oldPairId ∧ rr_newPairId r = Some newPairId ∧
    rotation_bound req oldPairId old ∧
    abs (w_store s.1) !! oldPairId = Some old ∧ sp_status old = active ∧ abs (w_store s.1) !! newPairId = None ∧
    abs (w_store s.2) = <[newPairId := replacementPair newPairId (ro_newPubJwk req) now old]>
                          (<[oldPairId := with_status rotated old]> (abs (w_store s.1))).
Proof.
  intros Hids Hex Hfine Hok.
  apply handleRotation_ok in Hex as (k & old & newId & now & s0 & s & Hk & Hr & Hs & [Hs0 Hread] & Hb & Hstep);
    [|by apply Forall_forall; intros s Hs; apply Hfine|done].
  exists k, old, newId, now, s.
  assert (sp_id old = k) as Hid.
  { destruct (Hfine _ Hs0) as [_ Hinv]. destruct (get_law k _ Hinv) as (_ & _ & Hspec). rewrite Hread in Hspec.
    injection Hspec as Ha Hl. by eapply Hids. }
  apply rotation_step_spec in Hstep as (H1 & H2 & H3 & H4); [|by apply Hfine].
  rewrite Hid in *. done.
Qed.
End once.
