(* ===== verification/UsageCap.v ===== *)
(** * The usage limit under concurrency

    [claimSuccessfulUseOutcome] (packages/server/src/registry.ts) is the last
    gate of a verification.  On an atomic store any number of concurrent claims
    grants at most [maxRequests] uses; on a store without atomic operations the
    get/set path agrees with the atomic one when it runs alone, and loses updates
    when two claims interleave. *)

From S2P Require Import Prelude Proc JsNum Json Crypto Store MemoryStore Nonce RateLimiter Anomaly AuditChain World Registry StoreGuard.
From stdpp Require Import base gmap strings list sets.
From Stdlib Require Import ZArith Lia.

Local Open Scope bpc_scope.

Section cap.
Context {S N A L U G : Type} `{!PairStore S} `{!AtomicPairStore S} `{!StoreModel S} `{!AtomicPairStoreLaws S}.
Notation W := (World S N A L U G).
Implicit Types w : W.
Context (k : string).

(** The pair's uses are only counted up, and its limit stays. *)
Definition uses_grow (m m' : pairs) : Prop := ∀ p, m !! k = Some p →
  ∃ p', m' !! k = Some p' ∧ (sp_requests p <= sp_requests p')%Z ∧ sp_maxRequests p' = sp_maxRequests p.

#[export] Instance uses_grow_order : PairsOrder uses_grow.
Proof.
  split. split; [intros m p Hp; by exists p|]. intros m1 m2 m3 H1 H2 p Hp.
  destruct (H1 p Hp) as (p' & Hp' & Hle & Heq). destruct (H2 p' Hp') as (p'' & ? & ? & ?).
  exists p''. split_and!; [done|lia|congruence].
Qed.

Lemma used_facts at_ p : sp_requests (used at_ p) = (sp_requests p + 1)%Z ∧ sp_maxRequests (used at_ p) = sp_maxRequests p.
Proof. unfold used. by case_match. Qed.

Lemma claim_pair_grows at_ e p p' r : claim_pair at_ e p = Ret (Some p', r) →
  (sp_requests p <= sp_requests p')%Z ∧ sp_maxRequests p' = sp_maxRequests p.
Proof.
  unfold claim_pair.
  repeat match goal with |- context [decide ?P] => destruct (decide P); [done|] end.
  destruct (elapsed _ _); [by intros [= <- <-]|]. destruct (cap_reached _ _); [by intros [= <- <-]|].
  intros ([] & _ & [= <- <-])%exc_bind_Ret. destruct (used_facts at_ p) as [-> ->]. split; [lia|done].
Qed.

Lemma claim_grows k' at_ e m : uses_grow m (claim_spec k' at_ e m).1.
Proof.
  unfold claim_spec. destruct (m !! k') as [q|] eqn:Hq; [|by intros p Hp; exists p].
  destruct (claim_pair at_ e q) as [[[q'|] r]|] eqn:Hc; [|by intros p Hp; exists p..].
  intros p Hp. cbn [fst store_opt]. destruct (decide (k' = k)) as [->|Hne].
  - rewrite lookup_insert_eq. exists q'. simplify_eq. split; [done|by eapply claim_pair_grows].
  - rewrite lookup_insert_ne by done. by exists p.
Qed.

Lemma guarded_claim k' at_ e : guarded uses_grow (claimSuccessfulUseOutcome k' at_ e : proc W _).
Proof.
  unfold claimSuccessfulUseOutcome. refine (guarded_atomic _ _ _).
  apply guarded_ebind; [|intros outcome].
  { destruct (valid_time at_) eqn:Hv.
    - refine (guarded_store _ _ _ (claim_law k' at_ e Hv) _). intros m. apply claim_grows.
    - refine (guarded_store _ _ _ (claim_invalid_law k' at_ e Hv) _). by intros m p Hp; exists p. }
   apply guarded_bind; [|intros []; apply guarded_done].
  case_decide; [by refine (guarded_elsewhere _ _ _)|apply guarded_done].
Qed.

(** The store step of a granted claim. *)
Definition granted (at_ : Z) (e : SuccessfulUsePolicy) (s : W * W) : Prop :=
  store_claimSuccessfulUse k at_ e (w_store s.1) = (w_store s.2, Ret claimed).

(** The step leaves the store alone. *)
Definition store_still (s : W * W) : Prop := w_store s.2 = w_store s.1.

(** A granted claim is one step on the store among steps that leave it alone. *)
Lemma claim_exec R at_ e w tr w' : Forall (λ s : W * W, reg_atomic (w_registry s.1) = true) tr →
  exec R (claimSuccessfulUseOutcome k at_ e) w tr w' (Ret claimed) →
  ∃ before s after, tr = before ++ s :: after ∧ granted at_ e s ∧ Forall store_still (before ++ after).
Proof.
  unfold claimSuccessfulUseOutcome. intros Hat Hex.
  apply exec_bind_inv in Hex as (a & w1 & tr1 & tr2 & Ha & Hex & ->).
  apply exec_call_inv in Ha as (wa & _ & Ha & ->). injection Ha as -> <-.
  apply Forall_app in Hat as [Ha _]. apply Forall_cons in Ha as [Ha _]. cbn [fst] in Ha. rewrite Ha in Hex.
  apply exec_ebind_inv in Hex as (o & w2 & tr3 & tr4 & Ho & Hex & ->).
  apply exec_bind_inv in Hex as (u & w3 & tr5 & tr6 & Hu & Hex & ->).
  apply exec_done_inv in Hex as (Heq & -> & _). injection Heq as <-. rewrite decide_True in Hu by done.
  apply exec_call_inv in Ho as (wb & _ & Hf & ->). apply exec_call_inv in Hu as (wc & _ & [= <- _] & ->).
  exists [(w1, w1)], (wb, w2), [(wc, set_registry (clearFailures k (w_registry wc)) wc)]. split_and!; [done| |by repeat constructor].
  unfold granted. cbn [fst snd]. destruct (store_claimSuccessfulUse _ _ _ _) as [st r]. by injection Hf as <- ->.
Qed.

Lemma granted_spec at_ e (s : W * W) : store_inv (w_store s.1) → granted at_ e s →
  ∃ p, abs (w_store s.1) !! k = Some p ∧ sp_status p = active ∧
    cap_reached (sp_maxRequests p) (sp_requests p) = false ∧ elapsed (sp_expiresAt p) at_ = false ∧
    policy_agrees p e ∧ abs (w_store s.2) = <[k := used at_ p]> (abs (w_store s.1)).
Proof.
  intros Hinv Hg. destruct (valid_time at_) eqn:Hv.
  2: { destruct (claim_invalid_law k at_ e Hv _ Hinv) as (_ & _ & Hspec). rewrite Hg in Hspec. done. }
  destruct (claim_law k at_ e Hv _ Hinv) as (_ & _ & Hspec). rewrite Hg in Hspec.
  cbn [fst snd] in Hspec. unfold claim_spec in Hspec.
  destruct (abs (w_store s.1) !! k) as [p|] eqn:Hp; [|done]. exists p. split; [done|].
  destruct (claim_pair at_ e p) as [[p' r]|] eqn:Hc; [|done]. injection Hspec as Habs ->.
  apply claim_pair_claimed in Hc as (-> & Hst & Hel & Hcap & Hpol). by split_and!.
Qed.

Definition is_claimed (p : proc W (exc SuccessfulUseClaim)) : bool :=
  match p with Done (Ret claimed) => true | _ => false end.

Definition claims (cs : list (Z * SuccessfulUsePolicy)) : list (proc W (exc SuccessfulUseClaim)) :=
  (λ c, claimSuccessfulUseOutcome k c.1 c.2) <$> cs.

Lemma claims_guarded cs p : p ∈ claims cs → guarded uses_grow p.
Proof.
  intros (c & -> & _)%list_elem_of_fmap. apply guarded_claim.
Qed.

(** The step of the pool at which process [i] took use number [v]. *)
Definition took (tr : ptrace W) (i : nat) (v : Z) : Prop :=
  ∃ s p, (Some i, s) ∈ tr ∧ abs (w_store s.1) !! k = Some p ∧ sp_requests p = v ∧
    cap_reached (sp_maxRequests p) v = false ∧
    ∃ p', abs (w_store s.2) !! k = Some p' ∧ sp_requests p' = (v + 1)%Z.

Lemma claimed_took cs w tr w' ps' i p : fine w →
  pool_run (keeps uses_grow) (claims cs) w tr w' ps' → ps' !! i = Some p → is_claimed p = true →
  ∃ v, took tr i v.
Proof.
  intros Hw Hrun Hi Hc. destruct p as [[[]|]|]; try done.
  assert (length ps' = length cs) as Hlen.
  { erewrite pool_length by exact Hrun. apply length_fmap. }
  destruct (lookup_lt_is_Some_2 cs i) as [[at_ e] Hci]; [rewrite <-Hlen; by eapply lookup_lt_Some|].
  assert (claims cs !! i = Some (claimSuccessfulUseOutcome k at_ e)) as Hp.
  { unfold claims. by rewrite list_lookup_fmap, Hci. }
  destruct (pool_exec _ _ _ _ _ _ _ _ _ Hrun Hp Hi w) as [w1 Hex].
  assert (∀ s, s ∈ own_steps i tr → (Some i, s) ∈ tr ∧ fine s.1) as Hown.
  { intros s Hs%own_step_pool. split; [done|].
    by apply (keeps_fine _ _ _ (pool_fine _ _ _ _ _ _ _ Hrun (claims_guarded cs) Hw Hs)). }
  apply claim_exec in Hex as (before & s & after & Hsplit & Hg & _); [|by apply Forall_forall; intros s Hs; apply (Hown s)].
  destruct (Hown s) as [Hin [_ Hinv]]; [rewrite Hsplit; set_solver|].
  apply granted_spec in Hg as (p & Hp1 & _ & Hcap & _ & _ & Habs); [|done..].
  exists (sp_requests p), s, p. split_and!; try done. exists (used at_ p). rewrite Habs, lookup_insert_eq.
  split; [done|apply used_facts].
Qed.

(** C5 The usage limit holds under any concurrency: of any number of concurrent
    claims on a pair with limit [m] and [r] uses so far, at most [m - r] are
    granted, in every interleaving with each other and with an environment that
    keeps the limit and does not take uses back. *)
Theorem claims_bounded cs w tr w' ps' p m : fine w →
  pool_run (keeps uses_grow) (claims cs) w tr w' ps' →
  abs (w_store w) !! k = Some p → sp_maxRequests p = Some m → (0 < m)%Z →
  (Z.of_nat (length (filter (λ q, is_claimed q = true) ps')) <= Z.max 0 (m - sp_requests p))%Z.
Proof.
  intros Hw Hrun Hp Hm Hpos. apply (filter_pigeonhole _ (took tr)).
  - intros i q Hi Hq. by eapply claimed_took.
  - intros i j v (si & pi & Ini & Pi & <- & _ & pi' & Pi' & Ri') (sj & pj & Inj & Pj & Hv & _ & pj' & Pj' & Rj').
    destruct (decide (i = j)) as [|Hne]; [done|exfalso].
    destruct (pool_between _ _ _ _ _ _ _ _ _ _ Hrun (claims_guarded cs) Hw Hne Ini Inj) as [K|K].
    + destruct (keeps_pairs _ _ _ K _ Pi') as (q & Hq & Hle & _). rewrite Pj in Hq. simplify_eq. lia.
    + destruct (keeps_pairs _ _ _ K _ Pj') as (q & Hq & Hle & _). rewrite Pi in Hq. simplify_eq. lia.
  - intros i v (s & q & Hin & Hq & <- & Hcap & _).
    pose proof (pool_fine _ _ _ _ _ _ _ Hrun (claims_guarded cs) Hw Hin) as K.
    destruct (keeps_pairs _ _ _ K _ Hp) as (q' & Hq' & Hle & Hmax). cbn [snd] in Hq'. rewrite Hq in Hq'. simplify_eq.
    split; [done|]. apply Z.nle_gt. intros Hge.
    assert (cap_reached (sp_maxRequests q') (sp_requests q') = true) as Hc; [|congruence].
    apply cap_reached_iff. exists m. rewrite Hmax. done.
Qed.
End cap.

(** ** The get/set path *)

Lemma legacy_claim_pair at_ e p : legacyClaim at_ e p =
  match claim_pair at_ e p with Ret (p', r) => Ret (default p p', r) | Throw err => Throw err end.
Proof.
  unfold legacyClaim, claim_pair.
  destruct (decide (sp_status p = expired)) as [Hs|Hs].
  - destruct (elapsed _ _) eqn:He; [by rewrite (decide_True (P := _ ∧ _))|].
    rewrite (decide_False (P := _ ∧ _)) by (intros [? ?]; congruence).
    destruct (cap_reached _ _) eqn:Hc; [by rewrite (decide_True (P := _ ∧ _))|].
    rewrite (decide_False (P := _ ∧ _)) by (intros [? ?]; congruence).
    by rewrite decide_True by congruence.
  - rewrite !(decide_False (P := _ ∧ _)) by (intros [? ?]; congruence).
    destruct (decide (sp_status p ≠ active)); [done|].
    destruct (elapsed _ _); [done|]. destruct (cap_reached _ (sp_requests p)); [done|].
    by destruct (successfulUsePolicyMatches p e) as [[]|].
Qed.

Lemma claim_pair_id at_ e p p' r : claim_pair at_ e p = Ret (p', r) → sp_id (default p p') = sp_id p.
Proof.
  unfold claim_pair.
  repeat match goal with |- context [decide ?P] => destruct (decide P); [by intros [= <- <-]|] end.
  destruct (elapsed _ _); [by intros [= <- <-]|]. destruct (cap_reached _ _); [by intros [= <- <-]|].
  intros ([] & _ & [= <- <-])%exc_bind_Ret; [|done]. simpl. unfold used. by case_match.
Qed.

Section legacy.
Context {N A L U G : Type}.
Notation W := (World MemoryPairStore N A L U G).
Implicit Types w : W.

(** Run alone, the get/set path of the claim does what the atomic operation
    specifies: the same outcome and the same pairs. *)
Theorem legacy_claim_sequential k at_ e w w' r : reg_atomic (w_registry w) = false → store_inv (w_store w) →
  run (claimSuccessfulUseOutcome k at_ e) w = (w', r) →
  claim_spec k at_ e (abs (w_store w)) = (abs (w_store w'), r).
Proof.
  intros Hat Hinv. unfold claimSuccessfulUseOutcome, claim_spec. rewrite run_bind. cbn [atomic read call run].
  rewrite Hat, run_ebind, run_store_op. cbn [store_get MemoryPairStore_store mem_get fst snd].
  rewrite abs_lookup. destruct (om_get k (mp_pairs (w_store w))) as [p|] eqn:Hget; [|by intros [= <- <-]].
  assert (sp_id p = k) as Hid by (apply (mem_id (w_store w)); [done|]; by rewrite abs_lookup).
  rewrite legacy_claim_pair. destruct (claim_pair at_ e p) as [[p' o]|err] eqn:Hc; [|by intros [= <- <-]].
  pose proof (claim_pair_id _ _ _ _ _ Hc) as Hid'. rewrite Hid in Hid'.
  rewrite run_ebind, run_store_op. cbn [store_set MemoryPairStore_store mem_set fst snd set_store w_store].
  assert (abs (put_pair (sp_id (default p p')) (default p p') (w_store w)) = store_opt k p' (abs (w_store w))) as Habs.
  { rewrite put_pair_abs, Hid'. destruct p' as [q|]; [done|]. cbn [default from_option store_opt].
    apply insert_id. by rewrite abs_lookup. }
  rewrite run_bind. destruct (decide (o = claimed)); cbn [run forgetFailures registry_op call]; intros [= <- <-];
    by rewrite <-Habs.
Qed.

(** Two interleaved claims on the get/set path lose an update: whenever the
    pair admits one use, both are granted it and only one is counted, whatever
    the limit. *)
Theorem legacy_claims_race k at_ e w p : reg_atomic (w_registry w) = false → store_inv (w_store w) →
  om_get k (mp_pairs (w_store w)) = Some p → claim_pair at_ e p = Ret (Some (used at_ p), claimed) →
  ∃ tr w', pool_run eq (replicate 2 (claimSuccessfulUseOutcome k at_ e)) w tr w' (replicate 2 (Done (Ret claimed))) ∧
    ∃ p', abs (w_store w') !! k = Some p' ∧ sp_requests p' = (sp_requests p + 1)%Z.
Proof.
  intros Hat Hinv Hget Hc.
  assert (legacyClaim at_ e p = Ret (used at_ p, claimed)) as Hl by (by rewrite legacy_claim_pair, Hc).
  assert (sp_id (used at_ p) = k) as Hid.
  { transitivity (sp_id p); [unfold used; by case_match|]. apply (mem_id (w_store w)); [done|]. by rewrite abs_lookup. }
  pose proof (sched_snd eq [0; 0; 1; 1; 0; 0; 1; 1]%nat (replicate 2 (claimSuccessfulUseOutcome k at_ e)) w) as Hrun.
  revert Hrun. unfold claimSuccessfulUseOutcome. cbn. rewrite Hat. cbn. rewrite Hat. cbn.
  rewrite Hget, !Hl. cbn. destruct (decide (claimed = claimed)) as [_|]; [|done]. cbn. intros Hrun.
  do 2 eexists. split; [exact Hrun|]. exists (used at_ p). split.
  - rewrite om_map_lookup. cbn [w_store set_store set_registry put_pair mp_pairs]. rewrite Hid. apply om_get_set.
  - apply used_facts.
Qed.
End legacy.
