(* ===== verification/Linearization.v ===== *)
(** * An accepted request is one use of the pair, at one instant

    Over an atomic store, an accepted verification has a linearization point:
    the step of its claim, at which the pair was still what the verifier had
    captured.  In particular a revocation is immediate, for verifications under
    way as well. *)

From S2P Require Import Prelude Proc JsNum Encoding Json Crypto Store MemoryStore Nonce RateLimiter Anomaly AuditChain World AnomalyEngine Registry Middleware Verification StoreGuard UsageCap.
From stdpp Require Import base gmap strings list sets.
From Stdlib Require Import ZArith Lia.

Local Open Scope bpc_scope.

Section linear.
Context `{WC : WebCrypto} {S N A L U G : Type}.
Context `{!PairStore S} `{!AtomicPairStore S} `{!NonceBackend N} `{!AnomalyStore A} `{!RateLimiter L}
  `{!AuditLog U} `{!ContinuityGate G} `{!StoreModel S} `{!PairStoreLaws S} `{!AtomicPairStoreLaws S}.
Notation W := (World S N A L U G).
Implicit Types w : W.

(** ** Steps that leave the store alone *)

Definition same_store w w' : Prop := w_store w' = w_store w.

Lemma still_ran {B} R (p : proc W B) b (t : steps W) : always same_store p → ran R p b t → Forall store_still t.
Proof. intros Hp (w & w' & Hex). eapply Forall_impl; [by eapply always_exec|]. done. Qed.
Lemma still_one (P : W → W → Prop) (t : steps W) : (∀ w w', P w w' → w_store w' = w_store w) → one P t → Forall store_still t.
Proof. intros H (w & w' & -> & HP). by repeat constructor; apply H. Qed.

Lemma always_counter {B} (f : Z → A → A * exc B) : always same_store (counter_op f : proc W (exc B)).
Proof. apply always_call. intros w. cbn. by case_match. Qed.
Lemma always_engine {B} (f : Z → AnomalyEngine A → AnomalyEngine A * B) : always same_store (engine_op f : proc W B).
Proof. apply always_call. intros w. cbn. by case_match. Qed.
Lemma always_look {B} (f : W → B) : always same_store (read f).
Proof. by apply always_read. Qed.

Create HintDb still.
#[local] Hint Resolve always_counter always_engine always_look : still.
Ltac still_steps :=
  repeat first [ solve [auto with still] | exact I | apply always_ebind; [|intros ?] | apply always_bind; [|intros ?] | case_match ].

Lemma still_recordRequest p : always same_store (recordRequest p : proc W (exc unit)).
Proof. unfold recordRequest, record, increment. still_steps. Qed.
Lemma still_applyTarpit ip v : always same_store (applyTarpit ip v : proc W Z).
Proof. unfold applyTarpit, sleep. still_steps. Qed.
Lemma still_getVerdict p ip : always same_store (getVerdict p ip : proc W (exc AnomalyVerdict)).
Proof. unfold getVerdict, enterShadow, threatScore, counter. still_steps. Qed.

Lemma still_limiter get set key w w' : (∀ (l : L) u, w_store (set l u) = w_store u) →
  limiter_passed get set key w w' → w_store w' = w_store w.
Proof. intros Hset. unfold limiter_passed. destruct (get w) as [l|]; [|by intros ->]. intros (l' & res & _ & _ & ->). apply Hset. Qed.

Lemma still_verdict R req config pairId delay (t : steps W) :
  verdict_passed R req config pairId delay t → Forall store_still t.
Proof.
  unfold verdict_passed. destruct (_ && _)%bool; [|by intros [-> _]].
  intros [[H _]|(t1 & t2 & -> & H1 & (t3 & t4 & -> & H2 & ->))].
  - eapply still_ran; [|exact H]. apply still_getVerdict.
  - apply Forall_app. split; [eapply still_ran; [apply still_getVerdict|exact H1]|]. rewrite app_nil_r.
    eapply still_ran; [apply still_applyTarpit|exact H2].
Qed.

Lemma still_audited req pairId w w' : passed_audited req pairId w w' → w_store w' = w_store w.
Proof. unfold passed_audited. destruct (w_audit w); [|by intros ->]. by intros (u' & _ & ->). Qed.
Lemma still_consumed nonce w w' : consumed nonce (w, w') → w_store w' = w_store w.
Proof. intros [_ H]. cbn [fst snd] in H. by rewrite H. Qed.

(** ** The linearization point *)

(** The policy a pair is used under, with its key in canonical form. *)
Definition same_policy (q p : StoredPair) : Prop :=
  sp_scope q = sp_scope p ∧ sp_mode q = sp_mode p ∧ sp_secretHash q = sp_secretHash p ∧
  (∃ k, pair_jwk q = Ret k ∧ pair_jwk p = Ret k) ∧
  sp_expiresAt q = sp_expiresAt p ∧ sp_maxRequests q = sp_maxRequests p ∧
  pair_kind (sp_kind q) = pair_kind (sp_kind p) ∧ sp_canaryClass q = sp_canaryClass p.

(** The step [s] uses the pair [pairId], read before as [p], at the time [at_]. *)
Definition committed (pairId : string) (p : StoredPair) (at_ : Z) (s : W * W) : Prop :=
  ∃ q, abs (w_store s.1) !! pairId = Some q ∧ sp_status q = active ∧ elapsed (sp_expiresAt q) at_ = false ∧
    cap_reached (sp_maxRequests q) (sp_requests q) = false ∧ same_policy q p ∧
    abs (w_store s.2) = <[pairId := used at_ q]> (abs (w_store s.1)).

Lemma capture_fields p auth : captureAuthorizationContext p = Ret auth →
  au_pairId auth = sp_id p ∧ ∃ k, pair_jwk p = Ret k ∧
    expectedUsePolicy auth = mkPolicy (sp_status p) (sp_scope p) (sp_mode p) (sp_secretHash p) (jwk_value k)
      (sp_expiresAt p) (sp_maxRequests p) (pair_kind (sp_kind p)) (sp_canaryClass p).
Proof. unfold captureAuthorizationContext. intros (k & Hk & [= <-])%exc_bind_Ret. split; [done|]. by exists k. Qed.

Lemma agrees_same q p auth : captureAuthorizationContext p = Ret auth → policy_agrees q (expectedUsePolicy auth) → same_policy q p.
Proof.
  intros (_ & k & Hk & ->)%capture_fields (_ & H1 & H2 & H3 & (k' & Hk' & Hv) & H4 & H5 & H6 & H7).
  split_and!; try done. cbn [up_pubJwk] in Hv. rewrite (canonical_jwk_value _ _ Hk) in Hv. injection Hv as <-. by exists k.
Qed.

Lemma fine_atomic (t : steps W) : (∀ s, s ∈ t → fine s.1) → Forall (λ s : W * W, reg_atomic (w_registry s.1) = true) t.
Proof. intros H. apply Forall_forall. intros s Hs. apply (H s Hs). Qed.

(** What the trace of a use looks like around its linearization point. *)
Record one_use (req : BPCRequestData) (r : BPCVerifyResult) (tr : steps W) (pairId : string) (p : StoredPair)
    (auth : AuthorizationContext) (sr sc s : W * W) (before after : steps W) : Prop := {
  ou_split : tr = before ++ s :: after;
  ou_request : rq_pairId req = Some pairId ∧ au_pairId auth = pairId;
  ou_read : sr ∈ before ∧ pair_read pairId p sr.1 sr.2;
  ou_captured : captureAuthorizationContext p = Ret auth;
  ou_answer : ∃ now, vr_snapshot r = Some (snapshotOf auth now);
  ou_clock : sc ∈ before;
  ou_committed : committed pairId p (w_now sc.1) s;
  ou_once : ∀ s', s' ∈ before ++ after → abs (w_store s'.2) = abs (w_store s'.1);
}.

Lemma accepted_once R req config (tr : steps W) r : (∀ s, s ∈ tr → fine s.1) →
  (∀ (st : S) k p, store_inv st → abs st !! k = Some p → sp_id p = k) →
  accepted R req config tr r → ∃ pairId p auth sr sc s before after, one_use req r tr pairId p auth sr sc s before after.
Proof.
  intros Hfine Hids (pairId & sd & sg & p & auth & nonce & now & delay & at_ & Hh & Ha & _ & -> & Hph).
  apply phases_app in Hph as (ta & tb & -> & (t1 & ? & -> & H1 & (t2 & ? & -> & H2 & (t3 & ? & -> & H3 & (t4 & ? & -> & H4 & ->)))) & Hph).
  apply phases_app in Hph as (tc & td & -> & (t5 & ? & -> & H5 & (t6 & ? & -> & H6 & (t7 & ? & -> & H7 & (t8 & ? & -> & H8 & ->)))) & Hph).
  destruct Hph as (t9 & ? & -> & H9 & (t10 & ? & -> & H10 & (t11 & ? & -> & H11 & (t12 & ? & -> & H12 & (t13 & ? & -> & H13 & ->))))).
  apply still_ran in H1; [|apply still_recordRequest].
  assert (Forall store_still t2) as S2.
  { unfold ip_limit_passed in H2. destruct (present _); [|by subst]. eapply still_one; [|exact H2]. intros w w'. by apply still_limiter. }
  apply still_one in H3; [|by intros w w' [-> _]].
  apply still_one in H4; [|intros w w'; by apply still_limiter].
  apply still_one in H6; [|by intros w w' [-> _]]. apply still_verdict in H7.
  apply still_one in H8; [|by intros w w' [-> _]]. apply still_one in H9; [|by intros w w' [-> _]].
  apply still_one in H10; [|apply still_consumed].
  apply still_one in H13; [|apply still_audited].
  destruct H5 as (wr & wr' & -> & Hread). destruct H11 as (wc & ? & -> & [-> <-]). destruct H12 as (wa & wb & Hclaim).
  apply claim_exec in Hclaim as (bf & s & af & -> & Hg & Hst); [|apply fine_atomic; intros x Hx; apply Hfine; set_solver].
  apply granted_spec in Hg as (q & Q1 & Q2 & Q3 & Q4 & Q5 & Q6); [|apply Hfine; set_solver].
  destruct (Hfine (wr, wr')) as [_ Hinv]; [set_solver|]. destruct (get_law pairId _ Hinv) as (_ & _ & Hspec). cbn [fst] in Hspec.
  destruct Hread as [Hget Hset]. rewrite Hget in Hspec. cbn [fst snd] in Hspec. injection Hspec as Habs Hl.
  pose proof (am_captured _ _ _ Ha) as Hcap. pose proof (capture_fields _ _ Hcap) as [Hid _].
  assert (au_pairId auth = pairId) as Hpid by (rewrite Hid; by eapply Hids).
  set (tr0 := t1 ++ t2 ++ t3 ++ t4). set (tr1 := t6 ++ t7 ++ t8 ++ t9 ++ t10).
  exists pairId, p, auth, (wr, wr'), (wc, wc), s, (tr0 ++ (wr, wr') :: tr1 ++ (wc, wc) :: bf), (af ++ t13). split.
  - unfold tr0, tr1. rewrite !app_nil_r. by rewrite <-?app_assoc, <-?app_comm_cons, <-?app_assoc; cbn; rewrite <-?app_assoc.
  - split; [apply Hh|done].
  - split; [set_solver|done].
  - done.
  - by exists now.
  - set_solver.
  - exists q. split_and!; try done. by eapply agrees_same.
  - intros s' Hs'. rewrite Forall_app in Hst. destruct Hst as [Hb Haf].
    assert (s' = (wr, wr') ∨ s' = (wc, wc) ∨ store_still s') as [-> |[-> |Hs]]; [|cbn; by rewrite Habs|done|by rewrite Hs].
    rewrite Forall_forall in *. unfold tr0, tr1 in Hs'. set_solver.
Qed.

(** C4 An accepted verification is exactly one use of the pair, at one instant.  One
    of its steps, after the pair was read and captured, found the pair of the request
    active, unexpired, below its usage limit and with the policy, secret and key with
    which it had been read, and counted the use in the same atomic step; no other
    step of the verification changed the pairs.  The answer is the snapshot of what
    was captured: whatever other requests or administrators did in between, nothing
    was authorised on outdated state. *)
Theorem verify_linearizes R req config w (tr : steps W) w' r :
  (∀ (st : S) k p, store_inv st → abs st !! k = Some p → sp_id p = k) → (∀ s, s ∈ tr → fine s.1) →
  exec R (verifyBPCRequest req config) w tr w' (Ret r) → vr_ok r = true →
  ∃ pairId p auth sr sc s before after, one_use req r tr pairId p auth sr sc s before after.
Proof. intros Hids Hfine Hex Hok. eapply accepted_once; [done|done|]. by eapply verify_ok. Qed.

(** ** Revocation *)

Context (k : string).

Definition revoked_in (m : pairs) : Prop := ∃ p, m !! k = Some p ∧ sp_status p = revoked.
Definition keeps_revoked (m m' : pairs) : Prop := revoked_in m → revoked_in m'.

#[export] Instance keeps_revoked_order : PairsOrder keeps_revoked.
Proof. split. split; [by intros m H|]. intros m1 m2 m3 H1 H2 H. by apply H2, H1. Qed.
Lemma keeps_revoked_refl m : keeps_revoked m m.
Proof. by intros H. Qed.
#[local] Hint Resolve keeps_revoked_refl : core.

Notation guarded := (guarded keeps_revoked).

(** Changes of one pair that leave revoked pairs alone. *)
Lemma keeps_revoked_insert m k' p p' : m !! k' = Some p → (sp_status p = revoked → sp_status p' = revoked) →
  keeps_revoked m (<[k' := p']> m).
Proof.
  intros Hp Hst (q & Hq & Hr). destruct (decide (k' = k)) as [->|Hne].
  - exists p'. rewrite lookup_insert_eq. split; [done|]. apply Hst. congruence.
  - exists q. by rewrite lookup_insert_ne.
Qed.

Lemma keeps_revoked_claim k' at_ e m : keeps_revoked m (claim_spec k' at_ e m).1.
Proof.
  unfold claim_spec. destruct (m !! k') as [p|] eqn:Hp; [|done].
  destruct (claim_pair at_ e p) as [[[q|] r]|] eqn:Hc; [|done..].
  apply (keeps_revoked_insert _ _ p); [done|]. intros Hr. unfold claim_pair in Hc.
  rewrite !(decide_False (P := _ ∧ _)) in Hc by (intros [? ?]; congruence).
  rewrite decide_True in Hc by congruence. done.
Qed.

Lemma keeps_revoked_status cond st k' m : (∀ p, cond p = true → sp_status p = active) →
  keeps_revoked m (status_spec cond st k' m).1.
Proof.
  intros Hcond. unfold status_spec. destruct (m !! k') as [p|] eqn:Hp; [|done].
  destruct (cond p) eqn:Hc; [|done]. apply (keeps_revoked_insert _ _ p); [done|].
  intros Hr. specialize (Hcond p Hc). congruence.
Qed.

Lemma keeps_revoked_mutate k' f m : (∀ p p', f p = Ret (Some p') → sp_status p = revoked → sp_status p' = revoked) →
  keeps_revoked m (mutate_spec k' f m).1.
Proof.
  intros Hf. unfold mutate_spec. destruct (m !! k') as [p|] eqn:Hp; [|done].
  destruct (f p) as [[p'|]|] eqn:Hfp; [|done..]. case_decide; [|done].
  apply (keeps_revoked_insert _ _ p); [done|]. by apply Hf.
Qed.

Lemma guarded_ensureLocked p n : guarded (ensureLocked p n : proc W _).
Proof.
  unfold ensureLocked, atomic. refine (guarded_atomic _ _ _).
  destruct (is_safe_integer n && bool_decide (1 <= n)%Z)%bool eqn:Hv.
  - refine (guarded_store _ _ _ (lock_law p n Hv) _). intros m. apply keeps_revoked_status.
    intros q H. unfold lockable, isActive in H. by btrue.
  - by refine (guarded_store _ _ _ (lock_invalid_law p n Hv) _).
Qed.

Lemma guarded_markExpired p now : guarded (markExpired p now : proc W _).
Proof.
  unfold markExpired, atomic. refine (guarded_atomic _ _ _). destruct (valid_time now) eqn:Hv.
  - refine (guarded_store _ _ _ (expireIfElapsed_law p now Hv) _). intros m. apply keeps_revoked_status.
    intros q H. unfold expirable, isActive in H. by btrue.
  - by refine (guarded_store _ _ _ (expireIfElapsed_invalid_law p now Hv) _).
Qed.

Lemma guarded_markUsageExpired p : guarded (markUsageExpired p : proc W _).
Proof.
  unfold markUsageExpired, atomic. refine (guarded_atomic _ _ _).
  refine (guarded_store _ _ _ (expireIfUsageExhausted_law p) _). intros m. apply keeps_revoked_status.
  intros q H. unfold exhausted, isActive in H. by btrue.
Qed.

Lemma guarded_claim_revoked p at_ e : guarded (claimSuccessfulUseOutcome p at_ e : proc W _).
Proof.
  unfold claimSuccessfulUseOutcome, atomic. refine (guarded_atomic _ _ _).
  apply guarded_ebind; [|intros outcome].
  { destruct (valid_time at_) eqn:Hv.
    - refine (guarded_store _ _ _ (claim_law p at_ e Hv) _). intros m. apply keeps_revoked_claim.
    - by refine (guarded_store _ _ _ (claim_invalid_law p at_ e Hv) _). }
  apply guarded_bind; [|intros []; apply guarded_done].
  case_decide; [by refine (guarded_elsewhere _ _ _)|apply guarded_done].
Qed.

Lemma guarded_mutatePair p f : (∀ q q', f q = Ret q' → sp_status q = revoked → sp_status q' = revoked) →
  guarded (mutatePair p f : proc W _).
Proof.
  intros Hf. unfold mutatePair, atomic. refine (guarded_atomic _ _ _).
  refine (guarded_store _ _ _ (atomicMutate_law p _) _). intros m. apply keeps_revoked_mutate.
  intros q q'. destruct (f q) as [q1|] eqn:E; [|done]. cbn. intros [= <-]. by apply Hf.
Qed.

Lemma applyFailure_revoked l now n p : sp_status p = revoked → sp_status (applyFailure l now n p) = revoked.
Proof.
  intros H. unfold applyFailure. destruct (applyCumulativeDecay now p). unfold isActive.
  set (q := with_failures _ _ _ p). assert (bool_decide (sp_status q = active) = false) as E.
  { apply bool_decide_false. by rewrite (H : sp_status q = revoked). }
  rewrite E, andb_false_r. cbv iota. by rewrite E, andb_false_r.
Qed.

Lemma guarded_recordFailure p ip : guarded (recordActivity p false ip : proc W _).
Proof.
  unfold recordActivity. apply guarded_bind.
  { refine (guarded_elsewhere _ _ _). intros w. cbn. repeat case_match; by simplify_eq. }
  intros [now n]. apply guarded_bind; [by refine (guarded_elsewhere _ _ _)|]. intros l.
  apply guarded_ebind; [|intros; apply guarded_done].
  apply guarded_mutatePair. intros q q' [= <-]. apply applyFailure_revoked.
Qed.

(** Counters, limiters, tarpit, audit and nonces do not touch the store. *)
Lemma guarded_counter {B} (f : Z → A → A * exc B) : guarded (counter_op f : proc W _).
Proof. refine (guarded_elsewhere _ _ _). intros w. cbn. by case_match. Qed.
Lemma guarded_engine {B} (f : Z → AnomalyEngine A → AnomalyEngine A * B) : guarded (engine_op f : proc W _).
Proof. refine (guarded_elsewhere _ _ _). intros w. cbn. by case_match. Qed.
Lemma guarded_read {B} (f : W → B) : guarded (read f).
Proof. by refine (guarded_elsewhere _ _ _). Qed.
Lemma guarded_nonce n : guarded (nonce_op n : proc W _).
Proof. refine (guarded_elsewhere _ _ _). intros w. cbn. by destruct (ServerNonceStore_checkAndConsume _ _ _). Qed.
Lemma guarded_ip_limiter key : guarded (ip_limiter_op key : proc W _).
Proof. refine (guarded_elsewhere _ _ _). intros w. cbn. destruct (w_ipLimiter w); [|done]. by destruct (limiter_check _ _ _). Qed.
Lemma guarded_limiter key : guarded (limiter_op key : proc W _).
Proof. refine (guarded_elsewhere _ _ _). intros w. cbn. destruct (w_limiter w); [|done]. by destruct (limiter_check _ _ _). Qed.
Lemma guarded_audit_op e : guarded (audit_op e : proc W _).
Proof. refine (guarded_audit _ _). Qed.
Lemma guarded_reg_get p : guarded (reg_get p : proc W _).
Proof. by refine (guarded_store _ _ _ (get_law p) _). Qed.

Create HintDb guards.
#[local] Hint Resolve guarded_counter guarded_engine guarded_read guarded_nonce guarded_ip_limiter guarded_limiter
  guarded_audit_op guarded_reg_get guarded_ensureLocked guarded_markExpired guarded_markUsageExpired
  guarded_claim_revoked guarded_recordFailure guarded_done : guards.

Ltac guarded_steps :=
  repeat first
    [ solve [auto with guards]
    | apply guarded_ebind; [|intros ?]
    | apply guarded_bind; [|intros ?]
    | case_match ].

Lemma guarded_record n p : guarded (record n p : proc W (exc unit)).
Proof. unfold record, increment, eret. guarded_steps. Qed.
#[local] Hint Resolve guarded_record : guards.
Lemma guarded_deny req e b : guarded (deny req e b : proc W _).
Proof. unfold deny, recordDenied, recordSigFailureForIp, recordSigFailure, increment, eret. guarded_steps. Qed.
Lemma guarded_applyTarpit ip v : guarded (applyTarpit ip v : proc W Z).
Proof. unfold applyTarpit, sleep. guarded_steps. Qed.
Lemma guarded_enterShadow p ip r : guarded (enterShadow p ip r : proc W unit).
Proof. unfold enterShadow. guarded_steps. Qed.
#[local] Hint Resolve guarded_deny guarded_applyTarpit guarded_enterShadow : guards.
Lemma guarded_getVerdict p ip : guarded (getVerdict p ip : proc W _).
Proof. unfold getVerdict, threatScore, counter, eret. guarded_steps. Qed.
#[local] Hint Resolve guarded_getVerdict : guards.
Lemma guarded_payload req cfg p sd sg auth d : guarded (checkPayload req cfg p sd sg auth d : proc W _).
Proof.
  unfold checkPayload, consumeNonce, finishRequest, shadowTarpit, date_now, gate_op, recordExpiredTimestamp,
    recordReplay, ethrow, eret.
  guarded_steps.
Qed.
#[local] Hint Resolve guarded_payload : guards.
Lemma guarded_verify req cfg : guarded (verifyBPCRequest req cfg : proc W _).
Proof.
  unfold verifyBPCRequest, checkHeaders, checkStatus, checkVerdict, shadowTarpit, recordRequest,
    recordUnknownPair, date_now, ethrow, eret.
  guarded_steps.
Qed.

(** Revocation is final: once the pair is revoked, no verification that starts
    for it is accepted, in any interleaving of any number of verifications with each
    other and with an environment that does not bring revoked pairs back. *)
Theorem revoked_never_accepted config reqs w tr w' ps' i req r :
  (∀ (st : S) k p, store_inv st → abs st !! k = Some p → sp_id p = k) →
  fine w → revoked_in (abs (w_store w)) →
  pool_run (keeps keeps_revoked) ((λ req, verifyBPCRequest req config) <$> reqs) w tr w' ps' →
  reqs !! i = Some req → rq_pairId req = Some k → ps' !! i = Some (Done (Ret r)) → vr_ok r = false.
Proof.
  intros Hids Hw Hrev Hrun Hi Hk Hd. apply not_true_is_false. intros Hok.
  assert (∀ p, p ∈ (λ req, verifyBPCRequest req config) <$> reqs → guarded p) as Hguard.
  { intros p (q & -> & _)%list_elem_of_fmap. apply guarded_verify. }
  assert (((λ req, verifyBPCRequest req config) <$> reqs) !! i = Some (verifyBPCRequest req config)) as Hp.
  { by rewrite list_lookup_fmap, Hi. }
  destruct (pool_exec _ _ _ _ _ _ _ _ _ Hrun Hp Hd w) as [w1 Hex].
  assert (∀ s, s ∈ own_steps i tr → keeps keeps_revoked w s.1) as Hown.
  { intros s Hs%own_step_pool. by apply (pool_fine _ _ _ _ _ _ _ Hrun Hguard Hw Hs). }
  apply verify_ok in Hex; [|done].
  apply accepted_once in Hex as (pid & p & auth & sr & sc & s & before & after & Hu);
    [|by intros s Hs; apply (keeps_fine _ _ _ (Hown s Hs))|done].
  destruct (ou_committed _ _ _ _ _ _ _ _ _ _ _ Hu) as (q & Hq & Hact & _).
  assert (s ∈ own_steps i tr) as Hs by (rewrite (ou_split _ _ _ _ _ _ _ _ _ _ _ Hu); set_solver).
  destruct (ou_request _ _ _ _ _ _ _ _ _ _ _ Hu) as [Hpid _]. assert (pid = k) as -> by congruence.
  destruct (keeps_pairs _ _ _ (Hown s Hs) Hrev) as (p' & Hkp & Hst). congruence.
Qed.
End linear.
