(* ===== verification/Lockout.v ===== *)
(** * Failure tracking and lockout

    [recordActivity(pairId, false, ip)] of packages/server/src/registry.ts over
    the in-memory store: what one failure does, when failures lock the pair, and
    when they never do. *)

From S2P Require Import Prelude Proc JsNum Json Crypto Store MemoryStore Nonce RateLimiter Anomaly AuditChain World Registry.
From stdpp Require Import base gmap strings list.
From Stdlib Require Import ZArith Lia.

Local Open Scope bpc_scope.

(** ** One failure *)

(** What a failure from [ip] at [now] does to the registry's tracker and the
    pair. *)
Definition failure (k ip : string) (now : Z) (st : PairRegistry * StoredPair) : PairRegistry * StoredPair :=
  let '(r, n) := trackFailure k ip now (evictStaleIpEntries now st.1) in
  (r, applyFailure (reg_lockoutCount r) now (Some n) st.2).

(** Failures, each from its address at its time. *)
Definition failures (k : string) (fs : list (string * Z)) (st : PairRegistry * StoredPair) : PairRegistry * StoredPair :=
  foldl (λ st f, failure k f.1 f.2 st) st fs.

Lemma applyFailure_id l now n p : sp_id (applyFailure l now n p) = sp_id p.
Proof. unfold applyFailure. by repeat case_match. Qed.

Lemma applyFailure_locked l now n p : sp_status p = locked → sp_status (applyFailure l now n p) = locked.
Proof. unfold applyFailure. intros H. by repeat case_match. Qed.

Lemma failures_locked k fs st : sp_status st.2 = locked → sp_status (failures k fs st).2 = locked.
Proof.
  revert st. induction fs as [|f fs IH]; intros st Hst; [done|]. apply IH. unfold failure.
  destruct (trackFailure _ _ _ _). by apply applyFailure_locked.
Qed.

Section run.
Context {N A L U G : Type}.
Notation W := (World MemoryPairStore N A L U G).
Implicit Types w : W.

Definition at_time (t : Z) w : W :=
  mkWorld t (w_random w) (w_draws w) (w_store w) (w_registry w) (w_nonces w) (w_anomaly w)
    (w_ipLimiter w) (w_limiter w) (w_audit w) (w_gate w).

(** Failed requests on the pair [k], one after the other. *)
Definition attack (k : string) (fs : list (string * Z)) w : W :=
  foldl (λ w f, (run (recordActivity k false (Some f.1)) (at_time f.2 w)).1) w fs.

Lemma run_failure k ip t w p : reg_atomic (w_registry w) = true → ip ≠ EmptyString → sp_id p = k →
  om_get k (mp_pairs (w_store w)) = Some p →
  let w' := (run (recordActivity k false (Some ip)) (at_time t w)).1 in
  let st := failure k ip t (w_registry w, p) in
  w_registry w' = st.1 ∧ om_get k (mp_pairs (w_store w')) = Some st.2 ∧ reg_atomic (w_registry w') = true.
Proof.
  intros Hat Hip Hid Hget. unfold recordActivity, failure. rewrite run_bind. cbn [registry_op call run].
  cbn [w_now w_registry at_time fst snd]. rewrite decide_False by done.
  destruct (trackFailure k ip t (evictStaleIpEntries t (w_registry w))) as [r n] eqn:Ht.
  assert (reg_atomic r = true) as Hr by (unfold trackFailure in Ht; injection Ht as <- _; done).
  cbn [run]. rewrite run_bind. cbn [read call run]. rewrite run_ebind. unfold mutatePair.
  rewrite run_bind. cbn [atomic read call run w_registry set_registry]. rewrite Hr, run_store_op.
  cbn [atomicMutate MemoryPairStore_atomic set_registry w_store at_time]. unfold mem_atomicMutate.
  rewrite Hget. cbn [fmap exc_fmap]. rewrite decide_False by (rewrite applyFailure_id; naive_solver).
  cbn. split_and!; [done|by rewrite om_get_set|done].
Qed.

Lemma attack_failures k fs w p : reg_atomic (w_registry w) = true → sp_id p = k →
  Forall (λ f, f.1 ≠ EmptyString) fs → om_get k (mp_pairs (w_store w)) = Some p →
  om_get k (mp_pairs (w_store (attack k fs w))) = Some (failures k fs (w_registry w, p)).2.
Proof.
  revert w p. induction fs as [|[ip t] fs IH]; intros w p Hat Hid Hfs Hget; [done|].
  inversion Hfs as [|? ? Hip Hfs']; subst. cbn [fst] in Hip. unfold attack, failures in *. cbn [foldl fst snd].
  destruct (run_failure (sp_id p) ip t w p) as (Hr & Hg & Ha); [done..|].
  destruct (failure (sp_id p) ip t (w_registry w, p)) as [r' p'] eqn:Hf. cbn [fst snd] in *.
  rewrite <-Hr. erewrite IH; [done|done| |done|done].
  unfold failure in Hf. destruct (trackFailure _ _ _ _). injection Hf as _ <-. apply applyFailure_id.
Qed.
End run.

(** ** Reaching the threshold *)

Lemma track_count k ip now r r' n : trackFailure k ip now (evictStaleIpEntries now r) = (r', n) →
  om_wf (reg_ipFailureTracker r) →
  om_wf (reg_ipFailureTracker r') ∧ reg_lockoutCount r' = reg_lockoutCount r ∧
  ∃ start, om_get (k +:+ ":" +:+ ip) (reg_ipFailureTracker r') = Some (mkIpFailure n start) ∧
    match om_get (k +:+ ":" +:+ ip) (reg_ipFailureTracker r) with
    | Some t => if decide (IP_FAILURE_WINDOW_MS < now - if_windowStart t)%Z then n = 1%Z ∧ start = now
                else n = (if_count t + 1)%Z ∧ start = if_windowStart t
    | None => n = 1%Z ∧ start = now
    end.
Proof.
  intros [= <- <-] Hwf. unfold evictStaleIpEntries. cbn [set_tracker reg_ipFailureTracker reg_lockoutCount].
  set (key := k +:+ ":" +:+ ip). rewrite om_get_filter by done.
  split_and!; [by apply om_wf_set, om_wf_filter|done|].
  destruct (om_get key (reg_ipFailureTracker r)) as [t|] eqn:Ht; cbn [mbind option_bind].
  - destruct (decide (IP_FAILURE_WINDOW_MS < now - if_windowStart t)%Z) as [Hs|Hs].
    + rewrite decide_False by (cbn; lia). exists now. by rewrite om_get_set.
    + rewrite decide_True by (cbn; lia). rewrite decide_False by done.
      exists (if_windowStart t). by rewrite om_get_set.
  - exists now. by rewrite om_get_set.
Qed.

Lemma applyFailure_threshold l now n p : (l <= n)%Z → sp_status p = active →
  sp_status (applyFailure l now (Some n) p) = locked.
Proof.
  intros Hn Hp. unfold applyFailure, isActive. destruct (applyCumulativeDecay now p).
  rewrite (bool_decide_true (l <= n)%Z) by done. cbn [sp_status with_failures]. rewrite Hp. simpl.
  by case_match.
Qed.

Lemma applyFailure_status l now n p : sp_status p = active →
  sp_status (applyFailure l now n p) = active ∨ sp_status (applyFailure l now n p) = locked.
Proof. unfold applyFailure. intros H. repeat case_match; cbn; auto. Qed.

(** Failures from one address within its window add up. *)
Lemma failures_count k ip ts start n r p : om_wf (reg_ipFailureTracker r) →
  om_get (k +:+ ":" +:+ ip) (reg_ipFailureTracker r) = Some (mkIpFailure n start) →
  Forall (λ t, t - start <= IP_FAILURE_WINDOW_MS)%Z ts → sp_status p = active ∨ sp_status p = locked →
  ts ≠ [] → (reg_lockoutCount r <= n + Z.of_nat (length ts))%Z →
  sp_status (failures k ((ip,.) <$> ts) (r, p)).2 = locked.
Proof.
  revert n r p. induction ts as [|t ts IH]; intros n r p Hwf Hget Hts Hp Hne Hl; [done|].
  destruct Hp as [Hp|Hp]; [|by apply failures_locked].
  inversion Hts as [|? ? Ht Hts']; subst. cbn [fmap list_fmap]. unfold failures, failure. cbn [foldl fst snd].
  destruct (trackFailure k ip t (evictStaleIpEntries t r)) as [r' n'] eqn:Htr.
  destruct (track_count _ _ _ _ _ _ Htr Hwf) as (Hwf' & Hlc & s' & Hget' & Hn). rewrite Hget in Hn.
  rewrite decide_False in Hn by (cbn; lia). destruct Hn as [-> ->]. cbn [if_count if_windowStart] in *.
  destruct ts as [|t' ts'].
  - cbn in *. rewrite Hlc. apply applyFailure_threshold; [lia|done].
  - apply (IH (n + 1)%Z); [done|done|done|by apply applyFailure_status|done|]. rewrite Hlc. cbn [length] in *. lia.
Qed.

(** Failures lock the pair: as many failed requests from one address as the
    lockout threshold, within five minutes of the first, leave an active pair
    locked -- whichever address that is. *)
Theorem failures_lock {N A L U G} (w : World MemoryPairStore N A L U G) k ip t ts p :
  reg_atomic (w_registry w) = true → om_wf (reg_ipFailureTracker (w_registry w)) → ip ≠ EmptyString →
  om_get k (mp_pairs (w_store w)) = Some p → sp_id p = k → sp_status p = active →
  om_get (k +:+ ":" +:+ ip) (reg_ipFailureTracker (w_registry w)) = None →
  Forall (λ t', t' - t <= IP_FAILURE_WINDOW_MS)%Z ts →
  (reg_lockoutCount (w_registry w) = 1 + Z.of_nat (length ts))%Z → ts ≠ [] →
  ∃ p', om_get k (mp_pairs (w_store (attack k ((ip,.) <$> t :: ts) w))) = Some p' ∧ sp_status p' = locked.
Proof.
  intros Hat Hwf Hip Hget Hid Hst Hnew Hts Hl Hne.
  exists (failures k ((ip,.) <$> t :: ts) (w_registry w, p)).2. split.
  { apply attack_failures; [done|done| |done]. by apply Forall_fmap, Forall_true. }
  cbn [fmap list_fmap]. unfold failures. cbn [foldl fst snd]. unfold failure at 2. cbn [fst snd].
  destruct (trackFailure k ip t (evictStaleIpEntries t (w_registry w))) as [r' n'] eqn:Htr.
  destruct (track_count _ _ _ _ _ _ Htr Hwf) as (Hwf' & Hlc & s' & Hget' & Hn). rewrite Hnew in Hn.
  destruct Hn as [-> ->]. eapply failures_count; [done|done|done|by apply applyFailure_status|done|].
  rewrite Hlc. lia.
Qed.

(** ** Staying below the threshold for ever *)

Definition dec_le (x : dec) (z : Z) : Prop := (dm x <= z * pow10 (dk x))%Z.

Lemma dec_norm_le m k z : (m <= z * pow10 k)%Z → dec_le (dec_norm m k) z.
Proof.
  intros H. unfold dec_le. pose proof (dec_norm_value m k). pose proof (pow10_pos k).
  pose proof (pow10_pos (dk (dec_norm m k))). nia.
Qed.

Lemma dec_add_le x z : dec_le x z → dec_le (dec_addZ x 1) (z + 1).
Proof. unfold dec_le at 1. intros H. apply dec_norm_le. lia. Qed.

Lemma dec_half_le x z w : dec_le x (2 * z) → (0 <= z)%Z → (1 <= w)%nat → dec_le (dec_half x w) z.
Proof.
  unfold dec_le at 1. intros H Hz Hw. apply dec_norm_le. destruct w as [|w]; [lia|].
  rewrite pow10_add, pow10_S. unfold pow10 at 2. rewrite Nat2Z.inj_succ, Z.pow_succ_r by lia.
  replace (10 ^ Z.of_nat w)%Z with (2 ^ Z.of_nat w * 5 ^ Z.of_nat w)%Z by (rewrite <-Z.pow_mul_l; done).
  pose proof (pow10_pos (dk x)). assert (0 < 2 ^ Z.of_nat w)%Z by lia. assert (0 < 5 ^ Z.of_nat w)%Z by lia.
  assert (dm x * 5 ^ Z.of_nat w <= 2 * z * pow10 (dk x) * 5 ^ Z.of_nat w)%Z by nia.
  assert (z * pow10 (dk x) * 5 ^ Z.of_nat w <= z * pow10 (dk x) * 5 ^ Z.of_nat w * 2 ^ Z.of_nat w)%Z; [|nia].
  assert (0 <= z * pow10 (dk x) * 5 ^ Z.of_nat w)%Z by nia. nia.
Qed.

Lemma dec_le_geZ x z l : dec_le x z → (z < l)%Z → dec_geZ x l = false.
Proof. unfold dec_le, dec_geZ. intros H Hl. apply bool_decide_eq_false. pose proof (pow10_pos (dk x)). nia. Qed.

Definition cumulative (p : StoredPair) : dec := default (Dec 0 0) (sp_cumulativeFailures p).

(** Between two failures of a burst at time [t]: [i] counted so far. *)
Record dripping (k ip : string) (t : Z) (i : Z) (r : PairRegistry) (p : StoredPair) : Prop := {
  dr_wf : om_wf (reg_ipFailureTracker r);
  dr_limit : reg_lockoutCount r = 10%Z;
  dr_active : sp_status p = active;
  dr_entry : om_get (k +:+ ":" +:+ ip) (reg_ipFailureTracker r) = Some (mkIpFailure i t);
  dr_cumulative : dec_le (cumulative p) (9 + i);
  dr_first : ∃ s, sp_firstFailureAt p = Some (Some s) ∧ (0 <= t - s < IP_FAILURE_WINDOW_MS)%Z;
}.

(** Before a burst at time [t]. *)
Record rested (k ip : string) (t : Z) (r : PairRegistry) (p : StoredPair) : Prop := {
  re_wf : om_wf (reg_ipFailureTracker r);
  re_limit : reg_lockoutCount r = 10%Z;
  re_active : sp_status p = active;
  re_entry : match om_get (k +:+ ":" +:+ ip) (reg_ipFailureTracker r) with
             | Some e => (IP_FAILURE_WINDOW_MS < t - if_windowStart e)%Z
             | None => True
             end;
  re_history : match sp_firstFailureAt p with
               | Some (Some s) => dec_le (cumulative p) 18 ∧ (IP_FAILURE_WINDOW_MS <= t - s)%Z
               | _ => dec_le (cumulative p) 9
               end;
}.

Lemma applyFailure_below now n p c first : applyCumulativeDecay now p = (c, first) → dec_le c 18 → (n < 10)%Z →
  sp_status p = active →
  applyFailure 10 now (Some n) p = with_failures n (Some c) (Some (Some first)) p.
Proof.
  intros Hc Hle Hn Hp. unfold applyFailure. rewrite Hc, (bool_decide_false (10 <= n)%Z) by lia. cbn [andb].
  by rewrite (dec_le_geZ c 18).
Qed.

(** One more failure at the same time. *)
Lemma drip_step k ip t i r p : dripping k ip t i r p → (i < 9)%Z →
  let st := failure k ip t (r, p) in dripping k ip t (i + 1) st.1 st.2.
Proof.
  intros [Hwf Hl Hst He Hc (s & Hf & Hs)] Hi. unfold failure. cbn [fst snd].
  destruct (trackFailure k ip t (evictStaleIpEntries t r)) as [r' n] eqn:Htr.
  destruct (track_count _ _ _ _ _ _ Htr Hwf) as (Hwf' & Hl' & s' & He' & Hn). rewrite He in Hn. cbn in Hn.
  rewrite decide_False in Hn by (unfold IP_FAILURE_WINDOW_MS; lia). destruct Hn as [-> ->]. cbn [fst snd]. rewrite Hl', Hl.
  assert (applyCumulativeDecay t p = (dec_addZ (cumulative p) 1, s)) as Hd.
  { unfold applyCumulativeDecay. rewrite Hf. cbn [default from_option id].
    rewrite (Z.div_small (t - s)) by done. done. }
  erewrite applyFailure_below; [|exact Hd| |lia|done].
  - split; [done|congruence|done|done| |by exists s]. cbn. replace (9 + (i + 1))%Z with (9 + i + 1)%Z by lia.
    by apply dec_add_le.
  - unfold dec_le in *. apply dec_add_le in Hc. unfold dec_le in Hc. pose proof (pow10_pos (dk (dec_addZ (cumulative p) 1))).
    nia.
Qed.

(** The first failure of a burst. *)
Lemma drip_first k ip t r p : rested k ip t r p →
  let st := failure k ip t (r, p) in dripping k ip t 1 st.1 st.2.
Proof.
  intros [Hwf Hl Hst He Hh]. unfold failure. cbn [fst snd].
  destruct (trackFailure k ip t (evictStaleIpEntries t r)) as [r' n] eqn:Htr.
  destruct (track_count _ _ _ _ _ _ Htr Hwf) as (Hwf' & Hl' & s' & He' & Hn).
  assert (n = 1%Z ∧ s' = t) as [-> ->].
  { destruct (om_get _ (reg_ipFailureTracker r)) as [e|]; [|done]. by rewrite decide_True in Hn. }
  cbn [fst snd]. rewrite Hl', Hl.
  assert (∃ c, applyCumulativeDecay t p = (dec_addZ c 1, t) ∧ dec_le c 9) as (c & Hd & Hc).
  { unfold applyCumulativeDecay. fold (cumulative p). destruct (sp_firstFailureAt p) as [[s|]|]; cbn [default from_option id].
    - destruct Hh as [Hc Hs]. assert (1 <= (t - s) / IP_FAILURE_WINDOW_MS)%Z.
      { apply Z.div_le_lower_bound; [by unfold IP_FAILURE_WINDOW_MS|lia]. }
      rewrite !decide_True by lia. eexists. split; [done|]. apply dec_half_le; [done|lia|lia].
    - rewrite Z.sub_diag, Z.div_0_l by done. by eexists.
    - rewrite Z.sub_diag, Z.div_0_l by done. by eexists. }
  apply dec_add_le in Hc. erewrite applyFailure_below; [|exact Hd| |lia|done].
  - split; [done|congruence|done|done|done|]. exists t. by rewrite Z.sub_diag.
  - unfold dec_le in *. pose proof (pow10_pos (dk (dec_addZ c 1))). nia.
Qed.

Definition DRIP_PERIOD_MS : Z := IP_FAILURE_WINDOW_MS + 1.

(** Nine failures at [t], nine more 300001 ms later, and so on. *)
Fixpoint drip (ip : string) (t : Z) (n : nat) : list (string * Z) :=
  match n with
  | O => []
  | S n => replicate 9 (ip, t) ++ drip ip (t + DRIP_PERIOD_MS) n
  end.

Lemma drip_burst k ip t r p : rested k ip t r p →
  let st := failures k (replicate 9 (ip, t)) (r, p) in rested k ip (t + DRIP_PERIOD_MS) st.1 st.2.
Proof.
  intros H. change (replicate 9 (ip, t)) with ((ip, t) :: replicate 8 (ip, t)). unfold failures. cbn [foldl fst snd].
  apply drip_first in H. destruct (failure k ip t (r, p)) as [r1 p1]. cbn [fst snd] in H.
  assert (∀ m i r p, dripping k ip t i r p → (i + Z.of_nat m <= 9)%Z →
    let st := foldl (λ st f, failure k f.1 f.2 st) (r, p) (replicate m (ip, t)) in
    dripping k ip t (i + Z.of_nat m) st.1 st.2) as Hm.
  { clear. induction m as [|m IH]; intros i r p H Hi; cbn [replicate foldl fst snd]; [by rewrite Z.add_0_r|].
    apply drip_step in H; [|lia]. destruct (failure k ip t (r, p)) as [r1 p1]. cbn [fst snd] in H.
    replace (i + Z.of_nat (S m))%Z with (i + 1 + Z.of_nat m)%Z by lia. apply IH; [done|lia]. }
  apply (Hm 8%nat) in H; [|done]. cbn zeta in H. destruct (foldl _ _ _) as [r2 p2]. cbn [fst snd] in *.
  destruct H as [Hwf Hl Hst He Hc (s & Hf & Hs)].
  split; [done|done|done| |]; unfold DRIP_PERIOD_MS, IP_FAILURE_WINDOW_MS in *.
  - rewrite He. cbn. lia.
  - rewrite Hf. split; [done|lia].
Qed.

(** A slow drip is never locked out: with the default threshold of ten, an
    address that fails nine times every 300001 ms probes an active pair for
    ever -- the pair is active after any number of bursts, because the
    cumulative score stays below eighteen while it locks at twenty. *)
Theorem slow_drip_never_locks {N A L U G} (w : World MemoryPairStore N A L U G) k ip t n p :
  reg_atomic (w_registry w) = true → om_wf (reg_ipFailureTracker (w_registry w)) → ip ≠ EmptyString →
  om_get k (mp_pairs (w_store w)) = Some p → sp_id p = k → sp_status p = active →
  om_get (k +:+ ":" +:+ ip) (reg_ipFailureTracker (w_registry w)) = None →
  reg_lockoutCount (w_registry w) = 10%Z → default None (sp_firstFailureAt p) = None → cumulative p = Dec 0 0 →
  ∃ p', om_get k (mp_pairs (w_store (attack k (drip ip t n) w))) = Some p' ∧ sp_status p' = active.
Proof.
  intros Hat Hwf Hip Hget Hid Hst Hnew Hl Hf Hc.
  exists (failures k (drip ip t n) (w_registry w, p)).2. split.
  { apply attack_failures; [done|done| |done]. clear -Hip. revert t. induction n as [|n IH]; intros t; [constructor|].
    apply Forall_app. split; [by apply Forall_replicate|apply IH]. }
  assert (rested k ip t (w_registry w) p) as Hr.
  { split; [done..|by rewrite Hnew|]. rewrite Hc. by destruct (sp_firstFailureAt p) as [[]|]. }
  clear Hget Hnew Hf Hc Hst Hl Hwf. revert t Hr. generalize (w_registry w) p. induction n as [|n IH]; intros r q t Hr.
  - apply (re_active _ _ _ _ _ Hr).
  - cbn [drip]. unfold failures. rewrite foldl_app. fold (failures k (replicate 9 (ip, t)) (r, q)).
    apply drip_burst in Hr. cbn zeta in Hr. destruct (failures k (replicate 9 (ip, t)) (r, q)) as [r' q'].
    by apply (IH r' q').
Qed.
