(* ===== verification/Scenario.v ===== *)
(** * A concrete deployment

    One active pair, its client, and a verifier over the in-memory store, the
    Redis nonce store with a concrete key space, the in-memory counters and audit
    log, and the toy cryptography of [ToyCrypto].  The examples of the later
    files run the theorems on it. *)

From S2P Require Import Prelude Proc JsNum Encoding Json Crypto Store ToyCrypto MemoryStore Nonce RateLimiter Anomaly AuditChain World AnomalyEngine Registry Middleware Client.
From stdpp Require Import base gmap strings list.
From Stdlib Require Import ZArith Lia.

Definition demo_x : string := "AAAAAAAAAAAAAAAAAAAAAAAAAAAAAAAAAAAAAAAAAAA".
Definition demo_y : string := "BBBBBBBBBBBBBBBBBBBBBBBBBBBBBBBBBBBBBBBBBBA".
Definition demo_key : CanonicalAuthorizationJwk := mkJwk demo_x demo_y.
Definition demo_id : string := "pair_0123456789abcdef".
Definition demo_secret : string := "Correct-Horse-9-Battery".
Definition demo_hash : string := match hashSecret demo_secret with Ret h => h | Throw _ => EmptyString end.
Definition demo_now : Z := 1700000000000.

Definition demo_pair (maxRequests : option Z) : StoredPair :=
  mkPair demo_id "agent" "read-write" "production" demo_hash (jwk_value demo_key) active 1690000000000 None 0 0 None
    None None maxRequests (Some legitimate) None.

Definition demo_client : BPCClientConfig := mkClientConfig "https://api.example.com" demo_id demo_key demo_secret.

Definition demo_server : BPCServerConfig := mkConfig 60000 None (Some true) (Some false).

(** A gate that is always open, for worlds that have none. *)
#[export] Instance open_gate : ContinuityGate unit := {| assertAcceptable _ _ := Ret tt |}.

Definition DemoWorld : Type :=
  World MemoryPairStore (RedisNonceStore (gmap string Z)) MemoryAnomalyStore MemoryRateLimiter MemoryAuditLog unit.

Definition demo_registry (isAtomic : bool) : PairRegistry := mkRegistry isAtomic 100 10 [].

Definition demo_world (isAtomic : bool) (p : StoredPair) : DemoWorld :=
  mkWorld demo_now (λ n, [1; 2; 3; 4; 5; 6; 7; Z.of_nat n; 9; 10; 11; 12; 13; 14; 15; 16]%Z) 0
    (mkMem [(demo_id, p)] []) (demo_registry isAtomic)
    (mkServerNonceStore (mkRedisNonceStore ∅ "bpc:demo:nonce:") 130000)
    (mkEngine [] [] []) None None None None.

Definition demo_nonce : string := "3b241101-e2bb-4255-8caf-4136c566a962".

(** The signed request, sent at [demo_now]. *)
Definition demo_headers : SignedHeaders :=
  match signRequest 0 demo_nonce demo_now demo_client "GET" "/v1/items" None with
  | Ret h => h
  | Throw _ => mkHeaders EmptyString EmptyString EmptyString EmptyString
  end.

Definition demo_request : BPCRequestData :=
  mkRequest (Some (hd_pairId demo_headers)) (Some (hd_signedData demo_headers)) (Some (hd_signature demo_headers))
    "GET" "/v1/items" (Some (hd_version demo_headers)) (Some EMPTY_BODY_HASH) (Some "203.0.113.9").

Definition demo_context (p : StoredPair) : AuthorizationContext :=
  match captureAuthorizationContext p with
  | Ret a => a
  | Throw _ => mkContext EmptyString EmptyString EmptyString legitimate None revoked 0 None None 0 EmptyString JUndef
  end.

Example demo_accepted :
  (run (verifyBPCRequest demo_request demo_server) (demo_world true (demo_pair None))).2 =
  Ret (mkResult true (Some demo_id) (Some (snapshotOf (demo_context (demo_pair None)) demo_now)) None None None).
Proof. vm_compute. reflexivity. Qed.
