(* ===== verification/Examples.v ===== *)
(** * The properties at work

    Each example applies one property of the development on the deployment of
    [Scenario], with every hypothesis discharged by computation. *)

From S2P Require Import Prelude Proc JsNum Encoding Json Crypto Store ToyCrypto MemoryStore Nonce RateLimiter Anomaly AuditChain World AnomalyEngine Registry Middleware Verification ReplaySafety Client Completeness StoreGuard Rotation UsageCap Linearization Lockout Scenario.
From stdpp Require Import base gmap strings list sets.
From Stdlib Require Import ZArith Lia.

Local Open Scope bpc_scope.

Notation demo := (demo_world true (demo_pair None)).

Definition demo_ok : BPCVerifyResult :=
  mkResult true (Some demo_id) (Some (snapshotOf (demo_context (demo_pair None)) demo_now)) None None None.

Lemma demo_store_inv p : sp_id p = demo_id → store_inv (mkMem [(demo_id, p)] []).
Proof. intros Hp. split_and!; [apply NoDup_singleton|constructor|]. by repeat constructor. Qed.

Lemma demo_fine : fine demo.
Proof. split; [done|]. by apply demo_store_inv. Qed.

Lemma memory_ids_match (st : MemoryPairStore) k p : store_inv st → abs st !! k = Some p → sp_id p = k.
Proof. apply mem_id. Qed.

(** ** Verification *)

Lemma demo_run : (run (verifyBPCRequest demo_request demo_server) demo).2 = Ret demo_ok.
Proof. vm_compute. reflexivity. Qed.

Lemma verify_sound_witness : ∃ tr w',
  exec eq (verifyBPCRequest demo_request demo_server) demo tr w' (Ret demo_ok) ∧ vr_ok demo_ok = true ∧
  accepted eq demo_request demo_server tr demo_ok.
Proof.
  destruct (run_exec (verifyBPCRequest demo_request demo_server) demo) as [tr Htr].
  rewrite demo_run in Htr.
  exists tr. eexists. split; [exact Htr|]. split; [reflexivity|]. eapply verify_sound; [exact Htr|reflexivity].
Defined.

(** Two copies of one request, one after the other, on a verifier that keeps its
    nonces in memory. *)
Definition kept_world :
    World MemoryPairStore MemoryNonceBackend MemoryAnomalyStore MemoryRateLimiter MemoryAuditLog unit :=
  mkWorld demo_now (w_random demo) 0 (mkMem [(demo_id, demo_pair None)] []) (demo_registry true)
    (mkServerNonceStore [] 130000) (mkEngine [] [] []) None None None None.
Definition replay_schedule : list nat := replicate 60 0%nat ++ replicate 60 1%nat.
Definition replay_pool := verifications (S := MemoryPairStore) (N := MemoryNonceBackend) (A := MemoryAnomalyStore)
  (L := MemoryRateLimiter) (U := MemoryAuditLog) (G := unit) demo_server [demo_request; demo_request].

Lemma verify_accepts_once_witness :
  (sched replay_schedule replay_pool kept_world).2 = [Done (Ret demo_ok); Done (Ret (denied "replay_detected"))] ∧
  vr_ok (denied "replay_detected") = false.
Proof.
  assert ((sched replay_schedule replay_pool kept_world).2 =
    [Done (Ret demo_ok); Done (Ret (denied "replay_detected"))]) as Hps by (vm_compute; reflexivity).
  split; [exact Hps|].
  pose proof (sched_snd keeps_memory replay_schedule replay_pool kept_world) as Hrun.
  pose proof (sched_now _ replay_schedule replay_pool kept_world (verifications_calls _ _)) as Hnow.
  rewrite Hps in Hrun.
  eapply (verify_accepts_once demo_server [demo_request; demo_request] kept_world _ _ _ 0 1
            demo_request demo_request demo_ok (denied "replay_detected") 10000 Hrun);
    [apply NoDup_nil_2|change (2 ≤ MAX_NONCE_ENTRIES - EVICT_COUNT)%nat; rewrite nonce_lifetime; lia
    |reflexivity|reflexivity|reflexivity|reflexivity|reflexivity|lia|vm_compute; congruence| |reflexivity].
  intros k r sn s nonce Hk Hsn Hin _. rewrite Forall_forall in Hnow. specialize (Hnow _ Hin). cbn [snd] in Hnow.
  rewrite Hnow. destruct k as [|[|k]]; cbn in Hk; [|injection Hk as <-; done|done].
  injection Hk as <-. injection Hsn as <-. vm_compute. congruence.
Defined.

Lemma demo_honest : honest demo_request (demo_context (demo_pair None)) demo_client 0 demo_nonce demo_now None demo_headers.
Proof.
  split; [vm_compute; reflexivity| | |vm_compute; reflexivity|vm_compute; reflexivity|vm_compute; reflexivity
         |vm_compute; reflexivity| |].
  - eexists. split_and!; vm_compute; reflexivity.
  - eexists. split; vm_compute; reflexivity.
  - exists demo_key. split; [vm_compute; reflexivity|]. apply toy_key_pair.
  - eexists. split; [vm_compute; reflexivity|]. apply (bool_decide_unpack _). vm_compute. exact I.
Qed.

Lemma demo_headers_ok : wellFormedHeaders demo_request demo_headers.
Proof.
  split; [vm_compute; reflexivity..| | | |vm_compute; reflexivity].
  - apply (bool_decide_unpack _). vm_compute. exact I.
  - vm_compute. split_and!; congruence.
  - vm_compute. split; congruence.
Qed.

Lemma honest_request_accepted_witness : ∃ w',
  run (verifyBPCRequest demo_request demo_server) demo = (w', Ret demo_ok) ∧
  abs (w_store w') = <[demo_id := used demo_now (demo_pair None)]> (abs (w_store demo)).
Proof.
  destruct (honest_request_accepted demo_request demo_server demo_client 0 demo_nonce demo_now None demo_headers
    (demo_context (demo_pair None)) (demo_pair None) demo demo_honest demo_headers_ok) as (w' & Hrun & Habs & _);
    [reflexivity|by apply demo_store_inv| |done|reflexivity|reflexivity|by left|reflexivity|reflexivity|reflexivity|].
  { by split; vm_compute. }
  exists w'. split; [exact Hrun|exact Habs].
Defined.

Lemma verify_linearizes_witness : ∃ tr w' pairId p auth sr sc s before after,
  exec eq (verifyBPCRequest demo_request demo_server) demo tr w' (Ret demo_ok) ∧
  one_use demo_request demo_ok tr pairId p auth sr sc s before after.
Proof.
  destruct (run_exec (verifyBPCRequest demo_request demo_server) demo) as [tr Htr].
  rewrite demo_run in Htr.
  assert (∀ s, s ∈ tr → fine s.1) as Hfine.
  { eapply (exec_fine (keeps_revoked demo_id) eq); [by intros w1 w2 ->|apply guarded_verify|exact demo_fine|exact Htr]. }
  destruct (verify_linearizes _ _ _ _ _ _ _ memory_ids_match Hfine Htr eq_refl) as (pairId & p & auth & sr & sc & s & before & after & H).
  exists tr. eexists. exists pairId, p, auth, sr, sc, s, before, after. split; [exact Htr|exact H].
Defined.

Notation revoked_demo := (demo_world true (with_status revoked (demo_pair None))).

Lemma revoked_never_accepted_witness : ∃ r,
  (sched (replicate 60 0%nat) ((λ req, verifyBPCRequest req demo_server) <$> [demo_request]) revoked_demo).2 =
    [Done (Ret r)] ∧ vr_error r = Some "pair_revoked" ∧ vr_ok r = false.
Proof.
  pose proof (sched_snd (keeps (keeps_revoked demo_id)) (replicate 60 0%nat)
    ((λ req, verifyBPCRequest req demo_server) <$> [demo_request]) revoked_demo) as Hrun.
  match type of Hrun with pool_run _ _ _ _ _ ?ps =>
    assert (ps = [Done (Ret (denied "pair_revoked"))]) as Hps by (vm_compute; reflexivity)
  end.
  exists (denied "pair_revoked"). split; [vm_compute; reflexivity|]. split; [reflexivity|]. rewrite Hps in Hrun.
  assert (fine revoked_demo) as Hfine by (split; [reflexivity|by apply demo_store_inv]).
  assert (revoked_in demo_id (abs (w_store revoked_demo))) as Hrev.
  { exists (with_status revoked (demo_pair None)). split; vm_compute; reflexivity. }
  exact (revoked_never_accepted demo_id demo_server [demo_request] _ _ _ _ 0 demo_request (denied "pair_revoked")
    memory_ids_match Hfine Hrev Hrun eq_refl eq_refl eq_refl).
Defined.

(** ** Rotation *)

Definition next_key : CanonicalAuthorizationJwk := mkJwk demo_y demo_x.

Definition demo_rotation : RotationRequest :=
  match clientRotate 0 demo_now demo_client (jwk_value next_key) with
  | Ret b => mkRotation (JStr (rb_oldPairId b)) (rb_newPubJwk b) (JStr (rb_signature b)) (JStr (rb_signedData b))
               (JNum (rb_timestamp b))
  | Throw _ => mkRotation JUndef JUndef JUndef JUndef JUndef
  end.

Definition rotated_ok : RotationResult := mkRotationResult true (Some "pair_0102030405060700") None.

Lemma demo_rotates : (run (handleRotation demo_rotation 60000) demo).2 = Ret rotated_ok.
Proof. vm_compute. reflexivity. Qed.

Lemma rotation_commits_witness : ∃ tr w' oldPairId old newPairId now s,
  exec eq (handleRotation demo_rotation 60000) demo tr w' (Ret rotated_ok) ∧ s ∈ tr ∧
  rr_newPairId rotated_ok = Some newPairId ∧
  abs (w_store s.2) = <[newPairId := replacementPair newPairId (ro_newPubJwk demo_rotation) now old]>
                        (<[oldPairId := with_status rotated old]> (abs (w_store s.1))).
Proof.
  destruct (run_exec (handleRotation demo_rotation 60000) demo) as [tr Htr]. rewrite demo_rotates in Htr.
  assert (∀ s, s ∈ tr → fine s.1) as Hfine.
  { eapply (exec_fine keeps_retired eq); [by intros w1 w2 ->|apply guarded_rotation|exact demo_fine|exact Htr]. }
  destruct (rotation_commits eq _ _ _ _ _ _ memory_ids_match Htr Hfine eq_refl) as (k & old & k' & now & s & H1 & _ & H2 & _ & _ & _ & _ & H3).
  exists tr. eexists. exists k, old, k', now, s. split; [exact Htr|]. split; [exact H1|]. split; [exact H2|exact H3].
Defined.

Definition rotation_schedule : list nat := replicate 3 0%nat ++ replicate 3 1%nat ++ replicate 9 0%nat ++ replicate 9 1%nat.

Lemma rotation_succeeds_once_witness : ∃ w' r,
  sched rotation_schedule (rotations 60000 [demo_rotation; demo_rotation]) demo =
    ((sched rotation_schedule (rotations 60000 [demo_rotation; demo_rotation]) demo).1.1, w',
     [Done (Ret rotated_ok); Done (Ret r)]) ∧ rr_error r = Some "rotation_conflict" ∧ rr_ok r = false.
Proof.
  assert ((sched rotation_schedule (rotations 60000 [demo_rotation; demo_rotation]) demo).2 =
    [Done (Ret rotated_ok); Done (Ret (rotation_failed "rotation_conflict"))]) as Hps by (vm_compute; reflexivity).
  exists (sched rotation_schedule (rotations 60000 [demo_rotation; demo_rotation]) demo).1.2,
    (rotation_failed "rotation_conflict").
  split; [rewrite <-Hps; by destruct (sched rotation_schedule _ _) as [[? ?] ?]|]. split; [reflexivity|].
  pose proof (sched_snd (keeps keeps_retired) rotation_schedule (rotations 60000 [demo_rotation; demo_rotation]) demo)
    as Hrun. rewrite Hps in Hrun.
  eapply (rotation_succeeds_once 60000 [demo_rotation; demo_rotation] demo _ _ _ 0 1 demo_rotation demo_rotation
    rotated_ok _ memory_ids_match Hrun demo_fine); [lia|reflexivity..].
Defined.

(** ** Uses *)

Notation capped_demo b := (demo_world b (demo_pair (Some 2%Z))).
Definition demo_policy (max : option Z) : SuccessfulUsePolicy := expectedUsePolicy (demo_context (demo_pair max)).
Definition three_claims : list (Z * SuccessfulUsePolicy) := replicate 3 (demo_now, demo_policy (Some 2%Z)).

Lemma claims_bounded_witness :
  let ps := (sched (concat (replicate 4 [0; 1; 2]%nat)) (claims demo_id three_claims) (capped_demo true)).2 in
  length (filter (λ q, is_claimed q = true) ps) = 2%nat ∧
  (Z.of_nat (length (filter (λ q, is_claimed q = true) ps)) <= Z.max 0 (2 - 0))%Z.
Proof.
  intros ps. split; [vm_compute; reflexivity|].
  eapply (claims_bounded demo_id three_claims (capped_demo true) _ _ ps (demo_pair (Some 2%Z)) 2%Z);
    [split; [reflexivity|by apply demo_store_inv]|apply sched_snd|reflexivity|reflexivity|lia].
Defined.

Lemma legacy_claim_sequential_witness : ∃ w',
  run (claimSuccessfulUseOutcome demo_id demo_now (demo_policy (Some 2%Z))) (capped_demo false) = (w', Ret claimed) ∧
  claim_spec demo_id demo_now (demo_policy (Some 2%Z)) (abs (w_store (capped_demo false))) =
    (abs (w_store w'), Ret claimed).
Proof.
  eexists. split; [|apply legacy_claim_sequential; [reflexivity|by apply demo_store_inv|]];
  rewrite (surjective_pairing (run _ _)); f_equal; vm_compute; reflexivity.
Defined.

Lemma legacy_claims_race_witness : ∃ tr w',
  pool_run eq (replicate 2 (claimSuccessfulUseOutcome demo_id demo_now (demo_policy (Some 1%Z))))
    (demo_world false (demo_pair (Some 1%Z))) tr w' (replicate 2 (Done (Ret claimed))).
Proof.
  destruct (legacy_claims_race demo_id demo_now (demo_policy (Some 1%Z)) (demo_world false (demo_pair (Some 1%Z)))
    (demo_pair (Some 1%Z))) as (tr & w' & Hrun & _); [reflexivity|by apply demo_store_inv|reflexivity|vm_compute; reflexivity|].
  exists tr, w'. exact Hrun.
Defined.

(** ** Lockout *)

Lemma failures_lock_witness : ∃ p',
  om_get demo_id (mp_pairs (w_store (attack demo_id (("198.51.100.7",.) <$> demo_now :: replicate 9 demo_now) demo))) =
    Some p' ∧ sp_status p' = locked.
Proof.
  apply (failures_lock demo demo_id "198.51.100.7" demo_now (replicate 9 demo_now) (demo_pair None));
    [reflexivity|constructor|done|reflexivity|reflexivity|reflexivity|reflexivity|
     by apply Forall_replicate; unfold IP_FAILURE_WINDOW_MS; lia|reflexivity|done].
Defined.

Lemma slow_drip_never_locks_witness : ∃ p',
  om_get demo_id (mp_pairs (w_store (attack demo_id (drip "198.51.100.7" demo_now 1000) demo))) = Some p' ∧
  sp_status p' = active.
Proof.
  apply (slow_drip_never_locks demo demo_id "198.51.100.7" demo_now 1000 (demo_pair None));
    [reflexivity|constructor|done|reflexivity..].
Defined.

(** ** The core library *)

Definition sample_value : jsval :=
  JObj [("a", JArr [JNum (int 1); JNum (Fin (Dec (-25) 1)); JNull; JBool true]); ("b", JStr (dq "x'y"))].

Lemma json_roundtrip_witness : jwf sample_value ∧ parse (stringify sample_value) = Ret sample_value.
Proof.
  assert (jwf sample_value) as Hwf.
  { cbn [jwf sample_value]. split; [split; [apply (bool_decide_unpack _); vm_compute; exact I|vm_compute; reflexivity]|].
    repeat split; vm_compute; try done; try (by left); try (by right). }
  split; [exact Hwf|]. apply json_roundtrip. exact Hwf.
Defined.

Definition fields_ab : list (string * jsval) := [("a", JNum (int 1)); ("b", JStr "x")].
Definition fields_ba : list (string * jsval) := [("b", JStr "x"); ("a", JNum (int 1))].

Lemma fields_nodup : NoDup fields_ab.*1 ∧ NoDup fields_ba.*1.
Proof. split; apply (bool_decide_unpack _); vm_compute; exact I. Qed.
Lemma fields_scalar : Forall (λ kv, scalar_ok kv.2) fields_ab ∧ Forall (λ kv, scalar_ok kv.2) fields_ba.
Proof. split; repeat constructor; by apply (int_jwf 1). Qed.
Lemma fields_perm : fields_ab ≡ₚ fields_ba.
Proof. apply Permutation_swap. Qed.

Lemma canonicalize_injective_witness : canonicalize (JObj fields_ab) = Ret (dq "{'a':1,'b':'x'}") ∧
  norm_field <$> fields_ab ≡ₚ norm_field <$> fields_ba.
Proof.
  split; [vm_compute; reflexivity|].
  apply (canonicalize_injective fields_ab fields_ba (dq "{'a':1,'b':'x'}"));
    [apply fields_nodup|apply fields_nodup|apply fields_scalar|apply fields_scalar|vm_compute; reflexivity..].
Defined.

Lemma canonicalize_order_witness : canonicalize (JObj fields_ba) = Ret (dq "{'a':1,'b':'x'}").
Proof.
  apply (canonicalize_order fields_ab); [apply fields_nodup|apply fields_perm|vm_compute; reflexivity].
Defined.

Lemma verifySecretHmac_correct_witness : ∃ tag,
  hmacDerive demo_hash (demo_nonce +:+ num_to_string (int demo_now)) = Ret tag ∧
  verifySecretHmac demo_hash demo_nonce (int demo_now) (JStr tag) = Ret true.
Proof.
  destruct (hmacDerive demo_hash (demo_nonce +:+ num_to_string (int demo_now))) as [tag|e] eqn:Hd.
  - exists tag. split; [reflexivity|]. apply verifySecretHmac_correct. exact Hd.
  - exfalso. vm_compute in Hd. congruence.
Defined.

Lemma sign_verify_roundtrip_witness : ∃ s, signPayload 0 (demo_key : @PrivateKey toy) (JObj fields_ab) = Ret s ∧
  verifyPayload (demo_key : @PublicKey toy) (JObj fields_ba) s = true.
Proof.
  destruct (signPayload 0 (demo_key : @PrivateKey toy) (JObj fields_ab)) as [s|e] eqn:Hs.
  - exists s. split; [reflexivity|].
    eapply (sign_verify_roundtrip 0 (demo_key : @PrivateKey toy) (demo_key : @PublicKey toy) fields_ab);
      [apply toy_key_pair|apply fields_nodup|apply fields_perm|exact Hs].
  - exfalso. vm_compute in Hs. congruence.
Defined.

(** ** Store, replay store, limiter *)

Definition demo_registration : PairRegistration :=
  mkRegistration "agent" "read-write" "production" demo_hash (jwk_value demo_key) None None (Some legitimate) None.
Definition demo_pending : MemoryPairStore := mkMem [] [("approval_1", mkPending demo_registration demo_now)].

Lemma approve_creates_witness : ∃ s',
  mem_approvePending "approval_1" (mkPending demo_registration demo_now) (demo_pair None) 10 demo_pending = (s', Ret true) ∧
  abs s' = <[demo_id := demo_pair None]> (abs demo_pending).
Proof.
  assert (store_inv demo_pending) as Hinv by (split_and!; [constructor|apply NoDup_singleton|constructor]).
  assert (mem_approvePending "approval_1" (mkPending demo_registration demo_now) (demo_pair None) 10 demo_pending =
    (mkMem [(demo_id, demo_pair None)] [], Ret true)) as Happ by (vm_compute; reflexivity).
  eexists. split; [exact Happ|]. eapply (approve_creates _ _ (demo_pair None)); [exact Hinv|exact Happ].
Defined.

Lemma memory_nonce_remembered_witness :
  memory_checkAndConsume "n1" 130000 1000 [] = ([("n1", 131000)], Ret false)%Z ∧
  (memory_checkAndConsume "n1" 130000 100000 (memory_calls 130000 [("n2", 2000)] [("n1", 131000)])).2%Z = Ret true.
Proof.
  assert (memory_checkAndConsume "n1" 130000 1000 [] = ([("n1", 131000)], Ret false))%Z as H.
  { unfold memory_checkAndConsume. cbn. rewrite decide_False by (pose proof nonce_caps; lia). reflexivity. }
  split; [exact H|].
  apply (memory_nonce_remembered "n1" 130000 1000 []); [constructor|exact H| |cbn; pose proof nonce_caps; lia|lia].
  by repeat constructor.
Defined.

Definition numbered (n : nat) : list (string * Z) := (λ i, (z_to_string (Z.of_nat i), 2000%Z)) <$> seq 0 n.

Lemma numbered_keys n : NoDup (numbered n).*1 ∧ "a" ∉ (numbered n).*1 ∧ "b" ∉ (numbered n).*1.
Proof.
  assert ((numbered n).*1 = (λ i, z_to_string (Z.of_nat i)) <$> seq 0 n) as ->.
  { unfold numbered. rewrite <-list_fmap_compose. by apply list_fmap_ext. }
  assert (∀ i : nat, z_to_string (Z.of_nat i) = digits (Z.of_nat i)) as Hz.
  { intros i. unfold z_to_string. by rewrite decide_False by lia. }
  split_and!.
  - apply NoDup_fmap_2; [|apply NoDup_seq]. intros i j. rewrite !Hz. intros Hd.
    apply digits_inj in Hd; lia.
  - intros (i & Hi & _)%list_elem_of_fmap. rewrite Hz in Hi. pose proof (digits_all (Z.of_nat i) ltac:(lia)) as H.
    rewrite <-Hi in H. done.
  - intros (i & Hi & _)%list_elem_of_fmap. rewrite Hz in Hi. pose proof (digits_all (Z.of_nat i) ltac:(lia)) as H.
    rewrite <-Hi in H. done.
Qed.

Lemma memory_nonce_shed_witness :
  let full := ("a", 2000%Z) :: numbered (MAX_NONCE_ENTRIES - 1) in
  (memory_checkAndConsume "a" 1000 1500 (memory_checkAndConsume "b" 1000 1500 full).1).2 = Ret false.
Proof.
  intros full. destruct (numbered_keys (MAX_NONCE_ENTRIES - 1)) as (H1 & H2 & H3).
  apply (memory_nonce_shed "a" "b" 1000 1500 2000); [done| | | |exact H3|lia].
  - apply NoDup_cons. split; [exact H2|exact H1].
  - unfold numbered. by rewrite length_fmap, length_seq.
  - constructor; [simpl; lia|]. apply Forall_fmap, Forall_true. intros i. simpl. lia.
Defined.

Lemma memory_nonce_bound_witness : (length (memory_checkAndConsume "n1" 130000 1000 []).1 ≤ MAX_NONCE_ENTRIES)%nat.
Proof. apply memory_nonce_bound; [constructor|simpl; lia]. Defined.

Lemma retention_covers_window_witness : deriveNonceRetentionMs 60000 10000 = Ret 130000%Z ∧
  (0 < 60000 ∧ 2 * 60000 <= 130000 <= MAX_SAFE_INTEGER)%Z.
Proof. split; [reflexivity|]. apply (retention_covers_window 60000 10000 130000). reflexivity. Defined.

Lemma limiter_window_bound_witness :
  window_bound 1000 2 (checks "k" [("k", 0); ("k", 10); ("j", 20); ("k", 30); ("k", 1005)]%Z
    (mkMemoryRateLimiter 2 1000 [])).2.
Proof.
  apply limiter_window_bound; [lia|lia|cbn; pose proof tracked_caps; lia|].
  csimpl. repeat (constructor; [|try constructor; lia]). constructor.
Defined.

Lemma limiter_memory_bound_witness :
  (length (mrl_windows (memory_limiter_check "k" 0 (mkMemoryRateLimiter 2 1000 [])).1) ≤ MAX_TRACKED_KEYS)%nat.
Proof. apply limiter_memory_bound. simpl. lia. Defined.

(** ** Anomaly engine and audit log *)

Definition counted_demo : DemoWorld :=
  set_anomaly (mkEngine [("global:total", mkCounter 10 1800000000000); ("global:replay", mkCounter 4 1800000000000)] [] [])
    demo.

Lemma threat_score_in_range_witness : ∃ tr w',
  exec keeps_counters threatScore counted_demo tr w' (Ret 8%Z) ∧ (0 <= 8 <= 100)%Z.
Proof.
  destruct (run_exec threatScore counted_demo) as [tr Htr].
  assert ((run threatScore counted_demo).2 = Ret 8%Z) as Hr by (vm_compute; reflexivity). rewrite Hr in Htr.
  apply (exec_mono eq keeps_counters) in Htr; [|by intros w1 w2 -> H].
  exists tr. eexists. split; [exact Htr|]. eapply threat_score_in_range; [|exact Htr].
  by repeat constructor.
Defined.

Lemma shadow_is_scoped_witness :
  isInShadowState demo_id "203.0.113.9" (enterShadowState demo_id "198.51.100.7" "test" 0 (w_anomaly demo)) = false.
Proof. apply shadow_is_scoped; reflexivity. Defined.

Definition audit_sample (p : string) : AuditInput :=
  mkInput verify_pass None (Some p) None None None None None None None.
Definition audit_sample_log : MemoryAuditLog :=
  audit_writes None [(audit_sample "p1", 1000%Z); (audit_sample "p2", 2000%Z); (audit_sample "p3", 3000%Z)].

Lemma audit_log_verifies_witness : MemoryAuditLog_verifyChain None
  (audit_writes (Some 2%Z) [(audit_sample "p1", 1000%Z); (audit_sample "p2", 2000%Z); (audit_sample "p3", 3000%Z)]) = valid.
Proof. apply audit_log_verifies. simpl. lia. Defined.

Lemma prefix_deletion_undetected_witness :
  verifyEntries (drop 2 (al_entries audit_sample_log)) (Some (MemoryAuditLog_head audit_sample_log)) = valid.
Proof.
  apply (prefix_deletion_undetected [(audit_sample "p1", 1000%Z); (audit_sample "p2", 2000%Z)] (audit_sample "p3") 3000%Z 2).
  simpl. lia.
Defined.

Lemma anchored_logs_agree_witness : ∃ e, e ∈ al_entries audit_sample_log ∧
  covered (e_base e) = covered (e_base e) ∧ e_chainHash e = e_chainHash e.
Proof.
  destruct (al_entries audit_sample_log) as [|e l] eqn:Hl; [vm_compute in Hl; congruence|].
  exists e. split; [apply list_elem_of_here|].
  apply (anchored_logs_agree (al_entries audit_sample_log) (al_entries audit_sample_log)
    (MemoryAuditLog_head audit_sample_log)); [vm_compute; reflexivity|vm_compute; reflexivity| | | | | |reflexivity|].
  - assert (forallb (λ e, forallb (λ e',
      implb (bool_decide (computeChainHash (e_base e) = computeChainHash (e_base e')))
        (bool_decide (chainPreimage (e_base e) (default info (ai_severity (ab_input (e_base e)))) =
                      chainPreimage (e_base e') (default info (ai_severity (ab_input (e_base e')))))))
      (al_entries audit_sample_log)) (al_entries audit_sample_log) = true) as H by (vm_compute; reflexivity).
    intros x x' Hx Hx' Hh. rewrite forallb_forall in H. specialize (H x). rewrite <-list_elem_of_In in H.
    specialize (H Hx). rewrite forallb_forall in H. specialize (H x'). rewrite <-list_elem_of_In in H. specialize (H Hx').
    rewrite bool_decide_true in H by exact Hh. by apply bool_decide_eq_true in H.
  - by repeat constructor.
  - by repeat constructor.
  - rewrite Hl. apply list_elem_of_here.
  - rewrite Hl. apply list_elem_of_here.
  - vm_compute in Hl. injection Hl as <- _. vm_compute. congruence.
Defined.

Lemma pg_writes_keep_chain_witness : ∃ tr w' ps', table_ok (mkPgAudit [] 1000 0 []) ∧
  pool_run appends (PgAuditLog_write 3 <$> [audit_sample "p1"; audit_sample "p2"]) (mkPgAudit [] 1000 0 []) tr w' ps' ∧
  ps' = replicate 2 (Done (Ret tt)) ∧ table_ok w'.
Proof.
  pose proof (sched_snd appends [0; 1; 0; 1; 0; 1; 0; 1; 0; 1]%nat
    (PgAuditLog_write 3 <$> [audit_sample "p1"; audit_sample "p2"]) (mkPgAudit [] 1000 0 [])) as Hrun.
  match type of Hrun with pool_run _ _ _ _ _ ?ps =>
    assert (ps = replicate 2 (Done (Ret tt))) as Hps by (vm_compute; reflexivity)
  end.
  rewrite Hps in Hrun. do 3 eexists. split; [exact I|]. split; [exact Hrun|]. split; [reflexivity|].
  eapply pg_writes_keep_chain; [|exact Hrun]. exact I.
Defined.

(** * Runs that end differently than the code means to

    Concrete runs, on the deployment of [Scenario], of behaviour that a comment
    or a contract of the program excludes. *)
Module Divergences.

(** A request for the demo pair whose signed data is the JSON text [null]. *)
Definition null_request : BPCRequestData :=
  mkRequest (Some demo_id) (Some (b64url "null")) (Some "AAAA") "GET" "/v1/items" (Some "1.0") (Some EMPTY_BODY_HASH)
    (Some "203.0.113.9").

(** A payload that is the JSON text [null] makes the verifier reject its
    promise: whatever the components and the interference, once the request has
    reached the payload checks no denial is returned, counted or audited, and
    the call ends with an uncaught [TypeError]. *)
Theorem null_payload_throws `{WC : WebCrypto} {S N A L U G : Type} `{!PairStore S} `{!AtomicPairStore S}
    `{!NonceBackend N} `{!AnomalyStore A} `{!RateLimiter L} `{!AuditLog U} `{!ContinuityGate G}
    req config pairId signedData signature auth delay :
  decodePayload signedData = Ret JNull →
  (checkPayload req config pairId signedData signature auth delay : proc (World S N A L U G) _) =
  ethrow (TypeError "Cannot read properties of null or undefined").
Proof. intros Hd. unfold checkPayload. by rewrite Hd. Qed.

Lemma null_payload_throws_witness :
  decodePayload (b64url "null") = Ret JNull ∧
  (run (verifyBPCRequest null_request demo_server) (demo_world true (demo_pair None))).2 =
    Throw (TypeError "Cannot read properties of null or undefined") ∧
  (checkPayload demo_request demo_server demo_id (b64url "null") "AAAA" (demo_context (demo_pair None)) 0
     : proc DemoWorld _) = ethrow (TypeError "Cannot read properties of null or undefined").
Proof.
  split; [vm_compute; reflexivity|]. split; [vm_compute; reflexivity|].
  apply null_payload_throws. vm_compute. reflexivity.
Defined.

(** ** Rotation to a key the verifier refuses *)

Definition rsa_key : jsval := JObj [("kty", JStr "RSA"); ("n", JStr "sXchDaQebHnPiGvyDOAT4saGEUetSyo9MKLOoWFsueri"); ("e", JStr "AQAB")].

Definition rsa_rotation : RotationRequest :=
  match clientRotate 0 demo_now demo_client rsa_key with
  | Ret b => mkRotation (JStr (rb_oldPairId b)) (rb_newPubJwk b) (JStr (rb_signature b)) (JStr (rb_signedData b))
               (JNum (rb_timestamp b))
  | Throw _ => mkRotation JUndef JUndef JUndef JUndef JUndef
  end.

(** Rotation accepts keys the verifier refuses: a request signed by the old
    key that names an RSA key succeeds, the old pair is retired, and capturing
    the authorization context of the new pair throws -- every later request
    with it rejects, so the client is locked out of both. *)
Theorem rotation_accepts_unusable_key :
  let res := run (handleRotation rsa_rotation 60000) (demo_world true (demo_pair None)) in
  ∃ newPairId p old, res.2 = Ret (mkRotationResult true (Some newPairId) None) ∧
    om_get newPairId (mp_pairs (w_store res.1)) = Some p ∧ sp_status p = active ∧
    om_get demo_id (mp_pairs (w_store res.1)) = Some old ∧ sp_status old = rotated ∧
    captureAuthorizationContext p = Throw (PlainError "pubJwk contains unexpected field 'n'").
Proof.
  do 3 eexists. split; [vm_compute; reflexivity|]. split; [vm_compute; reflexivity|]. split; [reflexivity|].
  split; [vm_compute; reflexivity|]. split; [reflexivity|]. vm_compute. reflexivity.
Qed.

End Divergences.
