(* ===== verification/OutboxExamples.v ===== *)
(** * Concrete runs of the durable outbox

    Two nodes with toy digests, a sanitizer that keeps one field, a receiver that
    counts, and a verifier that looks the receipt up among the decisions the
    receiver has issued. *)

From S2P Require Import Prelude Proc JsNum Encoding Json JsText Crypto ToyCrypto OutboxContract OutboxCanon OutboxDigest OutboxPg OutboxPgFacts OutboxPublisher OutboxSafety OutboxLive.
From stdpp Require Import base strings list gmap.
From Stdlib Require Import ZArith Lia.

Local Open Scope string_scope.

#[export] Instance demo_jsonb : Jsonb := { jsonb := copied }.
#[export] Instance demo_jsonb_laws : JsonbLaws demo_jsonb.
Proof. split. intros v Hv. split; [by apply copied_fin|by apply copied_sorted]. Qed.

(** Keeps [op], a text; a residual [secret] is refused. *)
#[export] Instance demo_sanitizer : MutationSanitizer := {
  sanitize raw := match field raw "op" with JStr op => Ret (JObj [("op", JStr op)]) | _ => Throw (PlainError "no op") end;
  assertSanitized v := match field v "secret" with JUndef => Ret tt | _ => Throw (PlainError "secret") end;
}.
#[export] Instance demo_sanitizer_laws : MutationSanitizerLaws demo_sanitizer.
Proof.
  split. intros raw clean. cbn. destruct (field raw "op"); try done. intros [= <-]. apply keys_distinct_obj.
  split; [apply NoDup_singleton|by repeat constructor].
Qed.

Abbreviation demo_world := (HA Z Z).
#[export] Instance demo_verifier : AckReceiptVerifier demo_world := {
  ack_verify receipt rec w :=
    if bool_decide (Exists (λ p : OutboxRecord * ReceiverDecision, p.1 = rec ∧ decision_text p.2 = ar_decision receipt) (ha_issued w))
    then Ret tt else Throw (PlainError "unknown receipt");
}.
Lemma demo_verifier_genuine receipt rec (w : demo_world) : ack_verify receipt rec w = Ret tt →
  ∃ d, ar_decision receipt = decision_text d ∧ (rec, d) ∈ ha_issued w.
Proof.
  cbn. case_bool_decide as H; [|done]. intros _. apply Exists_exists in H as ([r d] & Hin & <- & Hd). by exists d.
Qed.

Definition demo_session : Session := mkSession (Some "serializable") (Some "bpc") (Some "bpc") (Some "pg_catalog") None 2.
Definition demo_opts : PgOutboxOptions := mkOutboxOptions "pairs" 100 "quarantine".
Definition demo_apply (_ : OutboxRecord) (n : Z) : exc Z := Ret (n + 1)%Z.
Definition demo_bump (n : Z) : exc Z := Ret (n + 10)%Z.
Definition demo_raw (op : string) : jsval := JObj [("secret", JStr "s3cr3t"); ("op", JStr op)].
Definition demo_db (app : Z) : PgDb Z :=
  mkDb {["pairs" := 1%Z]} {["pairs" := mkSourceCp "e1" 0]} {["pairs" := mkReceiverCp "e1" 0 EmptyString]} ∅ ∅ ∅ ∅ app.

(** A receipt as the transport returns it. *)
Definition demo_receipt (decision : string) (rec : OutboxRecord) : jsval :=
  let h := or_header rec in
  JObj [("streamId", oh_streamId h); ("sourceEpoch", oh_sourceEpoch h); ("sequence", oh_sequence h);
        ("opDigest", oh_opDigest h); ("decision", JStr decision); ("receiverId", JStr "dest"); ("keyId", JStr "k1");
        ("issuedAt", JStr "2024-01-01T00:00:00.000Z"); ("signature", JStr "sig")].
Definition demo_ha : demo_world :=
  mkHA (demo_db 0) (demo_db 0) 1000000 [] [] (λ _, Committed) (λ _ rec, Ret (demo_receipt "applied" rec))
    (λ _, "lease-1") 0.

(** Two appends, a drain, and a receiver that gets the first record twice. *)
Definition demo_ops : list (node_op (A := Z)) :=
  [Append demo_bump (demo_raw "a") 1; Append demo_bump (demo_raw "b") 1; Drain 3; Receive 0; Receive 0].
Definition demo_schedule : list nat := [0; 1; 2; 2; 2; 2; 3; 2; 2; 2; 2; 2; 4; 2; 2; 2; 2; 2]%nat.
Definition demo_run :=
  sched demo_schedule (op_proc demo_session "bpc" "pairs" demo_opts 30000 None demo_apply <$> demo_ops) demo_ha.
Definition demo_end : demo_world := demo_run.1.2.

Lemma outbox_exactly_once_witness :
  (db_app (ha_dest demo_end) = 1%Z ∧ ro_acked <$> src_row "pairs" "e1" demo_end 1 = Some (Some 1000000%Z)) ∧
  ∃ n recs,
    db_source (ha_source demo_end) !! "pairs" = Some (mkSourceCp "e1" n) ∧
    (∀ q, is_Some (src_row "pairs" "e1" demo_end q) ↔ (1 <= q <= n)%Z) ∧
    (Z.of_nat (length recs) <= n)%Z ∧
    (∀ i rec, recs !! i = Some rec → ∃ r, src_row "pairs" "e1" demo_end (Z.of_nat i + 1) = Some r ∧
       carries (key "pairs" "e1" (Z.of_nat i + 1)) r rec) ∧
    replay demo_apply recs 0%Z = Ret (db_app (ha_dest demo_end)) ∧
    (∀ q r, src_row "pairs" "e1" demo_end q = Some r → ro_acked r ≠ None → (1 <= q <= Z.of_nat (length recs))%Z).
Proof.
  split; [split; vm_compute; reflexivity|].
  refine (outbox_exactly_once demo_session "bpc" "pairs" demo_opts 30000 None demo_apply "e1" 0%Z
    demo_verifier_genuine _ demo_ops demo_ha _ _ _ _ (sched_snd same_core demo_schedule
      (op_proc demo_session "bpc" "pairs" demo_opts 30000 None demo_apply <$> demo_ops) demo_ha)).
  - intros check d d' u H. discriminate.
  - split_and!; try reflexivity. by exists EmptyString.
Defined.

(** ** One transaction *)

Definition demo_append (mutate : Z → exc Z) (raw : jsval) (fence : Z) : tx (PgDb Z) OutboxRecordHeader :=
  withOutboxTx demo_session "bpc" None (tbind (app_write mutate) (λ _, appendInTx demo_opts "pairs" raw fence)).

Lemma append_atomic_witness :
  let x := transaction Committed (demo_append demo_bump (demo_raw "a") 1) (demo_db 0) in
  (x.1 = demo_db 0 ∧ ∃ e, x.2 = Throw e) ∨
  (∃ a h, demo_bump (db_app (demo_db 0)) = Ret a ∧ appended demo_opts "pairs" (demo_raw "a") 1 (set_app a (demo_db 0)) h x.1 ∧
     db_fence (demo_db 0) !! "pairs" = Some 1%Z ∧ (pending_rows "pairs" (demo_db 0) < oo_maxPendingRows demo_opts)%Z ∧
     (x.2 = Ret h ∨ ∃ e, x.2 = Throw e)).
Proof. intros x. apply (append_atomic demo_session "bpc" "pairs" demo_opts Committed demo_bump (demo_raw "a") 1). apply surjective_pairing. Defined.

(** A stale token, a full backlog and a refused commit leave the database alone. *)
Example demo_append_stale :
  transaction Committed (demo_append demo_bump (demo_raw "a") 0) (demo_db 0) = (demo_db 0, Throw (StaleFenceError 0 1)).
Proof. vm_compute. reflexivity. Qed.
Example demo_append_unclean :
  transaction Committed (demo_append demo_bump JNull 1) (demo_db 0) = (demo_db 0, Throw (PlainError "no op")).
Proof. vm_compute. reflexivity. Qed.

(** ** Redelivery *)

Definition demo_row : OutboxRow :=
  mkRow 1 "bb9658b5bb9658b5bb9658b5bb9658b5bb9658b5bb9658b5bb9658b5bb9658b5" (JObj [("op", JStr "a")]) None None None.
Definition demo_rec : OutboxRecord := mkRecord (row_header ("pairs", "e1", 1%Z) demo_row) (JObj [("op", JStr "a")]).
Definition demo_delivered : PgDb Z := (verify_and_apply demo_apply "pairs" demo_rec (demo_db 0)).1.

Lemma redelivery_idempotent_witness :
  verify_and_apply demo_apply "pairs" demo_rec demo_delivered = (demo_delivered, Ret duplicate_ok).
Proof.
  apply (redelivery_idempotent demo_apply ("pairs", "e1", 1%Z) demo_row demo_rec (demo_db 0) demo_delivered demo_delivered).
  - split_and!; [reflexivity| |reflexivity]. apply jfin_obj. split; [apply NoDup_singleton|by repeat constructor].
  - vm_compute. reflexivity.
  - split_and!; [done|reflexivity|]. intros cp Hcp. exists cp. split_and!; [exact Hcp|reflexivity|lia|].
    vm_compute in Hcp. injection Hcp as <-. vm_compute. discriminate.
Defined.

(** ** Draining *)

Definition demo_row2 : OutboxRow :=
  mkRow 1 "5dc97f815dc97f815dc97f815dc97f815dc97f815dc97f815dc97f815dc97f81" (JObj [("op", JStr "b")]) None None None.
Definition demo_rec2 : OutboxRecord := mkRecord (row_header ("pairs", "e1", 2%Z) demo_row2) (JObj [("op", JStr "b")]).
(** Two rows pending; the receiver has applied both records. *)
Definition demo_backlog : demo_world :=
  mkHA (set_rows (<[("pairs", "e1", 1%Z) := demo_row]> {[("pairs", "e1", 2%Z) := demo_row2]}) (demo_db 0)) (demo_db 2) 1000000 []
    [(demo_rec, applied); (demo_rec2, applied)] (λ _, Committed) (λ _ rec, Ret (demo_receipt "applied" rec)) (λ _, "lease-1") 0.

Lemma demo_sendable k r rec : k = ("pairs", "e1", 1%Z) ∧ r = demo_row ∧ rec = demo_rec ∨
  k = ("pairs", "e1", 2%Z) ∧ r = demo_row2 ∧ rec = demo_rec2 → sendable "pairs" demo_backlog k r.
Proof.
  intros H. assert (jfin (ro_mutation r) ∧ ro_quarantined r = None ∧ row_record "pairs" (row_obj (k, r)) = Ret rec) as (H1 & H2 & H3).
  { destruct H as [(-> & -> & ->)|(-> & -> & ->)]; (split; [|split; vm_compute; reflexivity]);
      apply jfin_obj; (split; [apply NoDup_singleton|by repeat constructor]). }
  split_and!; [done..|]. exists rec. split; [done|]. intros i.
  destruct H as [(-> & -> & ->)|(-> & -> & ->)]; (eexists _, _; split; [reflexivity|]; split_and!; [vm_compute; reflexivity| |vm_compute; reflexivity|apply list_elem_of_here]);
    intros w Hw; cbn; rewrite Hw; vm_compute; reflexivity.
Qed.

Lemma drain_delivers_witness :
  ∃ w' recs, run (drainOnce demo_session "bpc" "pairs" 30000 3) demo_backlog = (w', Ret (Some (mkDrain 2 2 0 false))) ∧
    db_rows (ha_source w') = all_acked "pairs" 1000000 (ha_source demo_backlog) ∧
    ha_sent w' = recs ∧ length recs = 2%nat ∧
    (∀ k r, pendings "pairs" (ha_source demo_backlog) !! k = Some r → ∃ rec, rec ∈ recs ∧ carries k r rec) ∧
    ha_dest w' = ha_dest demo_backlog ∧ db_lease (ha_source w') !! "pairs" = Some (mkLease None None).
Proof.
  refine (drain_delivers demo_session "bpc" "pairs" 30000 demo_backlog _ _ 3 _ _ _).
  - vm_compute. reflexivity.
  - reflexivity.
  - intros l u H. discriminate.
  - intros k r [Hr _]%pendings_Some.
    unfold demo_backlog, set_rows in Hr. cbn [ha_source db_rows] in Hr. apply lookup_insert_Some in Hr as [[<- <-]|[_ [<- <-]%lookup_singleton_Some]];
      eapply demo_sendable; [left|right]; by split_and!.
  - vm_compute. lia.
Defined.

(** ** Canonical text and digests *)

Definition demo_value : jsval := JObj [("b", JArr [JNum (int 1); JNull]); ("a", JStr (dq "x'y"))].
Definition demo_value' : jsval := JObj [("a", JStr (dq "x'y")); ("b", JArr [JNum (int 1); JNull])].
Lemma demo_value_distinct : keys_distinct demo_value ∧ keys_distinct demo_value'.
Proof. split; (apply keys_distinct_obj; split; [apply (bool_decide_unpack _); vm_compute; exact I|repeat constructor]). Qed.

Lemma canonical_text_spec_witness :
  jcs_canonicalize demo_value = Ret (dq "{'a':'x\'y','b':[1,null]}") ∧
  match jcs_canonicalize demo_value with
  | Ret s => canonicalizable demo_value ∧ s = stringify (jsorted demo_value)
  | Throw e => ¬ canonicalizable demo_value ∧ ∃ msg, e = ContractValidationError msg
  end.
Proof. split; [vm_compute; reflexivity|]. apply canonical_text_spec, demo_value_distinct. Defined.

(** A one-element array of 64 digits passes for a digest: the pattern is applied
    to its text. *)
Example array_digest_conforms :
  assertHeaderConformant (mkHeader (JStr "1") (JStr "pairs") (JStr "e1") (JNum (int 1)) (JStr "1")
    (JArr [JStr (ro_digest demo_row)])) = Ret tt.
Proof. vm_compute. reflexivity. Qed.

Definition demo_digest : string :=
  match canonicalOpDigest (JStr "pairs") (JStr "e1") (JNum (int 1)) (JStr "1") demo_value with Ret d => d | Throw _ => EmptyString end.
Lemma op_digest_spec_witness :
  admissible_op (JStr "pairs") (JStr "e1") (JNum (int 1)) (JStr "1") demo_value ∧
  ((JStr "pairs" = JStr "pairs" ∧ JStr "e1" = JStr "e1" ∧ JNum (int 1) = JNum (int 1) ∧ JStr "1" = JStr "1" ∧
    jsorted demo_value = jsorted demo_value') ∨
   collision (op_fields (JStr "pairs") (JStr "e1") (JNum (int 1)) (JStr "1") demo_value)
     (op_fields (JStr "pairs") (JStr "e1") (JNum (int 1)) (JStr "1") demo_value')).
Proof.
  destruct (op_digest_spec (JStr "pairs") (JStr "e1") (JNum (int 1)) (JStr "1") demo_value (proj1 demo_value_distinct)) as [Hdef Hbind].
  assert (canonicalOpDigest (JStr "pairs") (JStr "e1") (JNum (int 1)) (JStr "1") demo_value = Ret demo_digest) as Hd by (vm_compute; reflexivity).
  split; [apply Hdef; exists demo_digest; exact Hd|].
  apply (Hbind demo_digest Hd); [exact (proj2 demo_value_distinct)|vm_compute; reflexivity].
Defined.

Definition demo_transition (dg : string) : EpochTransitionRecord :=
  mkTransition "1" "pairs" "e1" (int 0) "e2" (int 1) (int 7) (ro_digest demo_row) "1" dg.
Definition demo_transition_digest : string :=
  match epochTransitionDigest (demo_transition EmptyString) with Ret d => d | Throw _ => EmptyString end.
Lemma epoch_transition_forward_witness :
  let r := demo_transition demo_transition_digest in
  (et_fromEpoch r ≠ et_toEpoch r ∧
   ∃ i, (0 <= i)%Z ∧ et_fromEpochIndex r = int i ∧ et_toEpochIndex r = int (i + 1)) ∧
  (assertEpochTransitionConformant r = Ret tt → et_transitionDigest r = et_transitionDigest r →
   r = r ∨ collision (epoch_fields r) (epoch_fields r)).
Proof. intros r. apply epoch_transition_forward. vm_compute. reflexivity. Defined.
