(* ===== verification/HttpExamples.v ===== *)
(** * Concrete runs of the outbox transport

    A client and a receiver with toy cryptography and the in-memory nonce store:
    two deliveries, a replay that is refused, a whole exchange, and two replies
    whose errors are left unclassified. *)

From S2P Require Import Prelude Proc JsNum Encoding Json JsText Crypto ToyCrypto OutboxContract OutboxPg OutboxPgFacts OutboxPublisher HttpNonce HttpTransport HttpReceiver HttpSafety HttpExchange.
From stdpp Require Import base strings list.
From Stdlib Require Import ZArith Lia.

Local Open Scope string_scope.

#[export] Instance demo_buffer : NodeBuffer := {
  from_base64url a := match b64urlDecode a with Ret b => b | Throw _ => EmptyString end;
}.
#[export] Instance demo_buffer_laws : NodeBufferLaws demo_buffer.
Proof. split. intros b. cbn. by rewrite b64url_decode_encode. Qed.

Definition demo_request_secret : Secret := SecretString "request-secret-request-secret-01".
Definition demo_response_secret : Secret := SecretString "response-secret-response-secret1".
Definition demo_url : URL := mkURL "https://b.example/outbox?v=1" "https:" EmptyString EmptyString EmptyString "/outbox" "?v=1".
Definition demo_resolve (id : string) (s : Secret) (keyId : string) : exc (option Secret) :=
  Ret (if decide (keyId = id) then Some s else None).

Definition demo_transport_opts : HttpOutboxTransportOptions :=
  mkTransportOptions demo_url "node-a" demo_request_secret (demo_resolve "node-b" demo_response_secret)
    (λ receipt _, if decide (field receipt "signature" = JStr "sig") then Ret tt else Throw (PlainError "bad signature"))
    DEFAULT_TIMEOUT_MS DEFAULT_MAX_BODY_BYTES DEFAULT_MAX_BODY_BYTES.
Definition demo_transport : HttpOutboxTransport :=
  mkTransport demo_transport_opts "/outbox?v=1" (secret_bytes demo_request_secret).
Definition demo_receiver_opts : HttpOutboxReceiverOptions :=
  mkReceiverOptions "/outbox?v=1" (demo_resolve "node-a" demo_request_secret) "node-b" demo_response_secret true
    DEFAULT_FRESHNESS_MS DEFAULT_NONCE_SAFETY_MS DEFAULT_MAX_BODY_BYTES DEFAULT_BODY_READ_MS.

(** Applies a record by counting it. *)
Definition demo_receipt_of (record : jsval) : jsval :=
  JObj [("streamId", field record "streamId"); ("sourceEpoch", field record "sourceEpoch");
        ("sequence", field record "sequence"); ("opDigest", field record "opDigest"); ("decision", JStr "applied");
        ("receiverId", JStr "b"); ("keyId", JStr "k1"); ("issuedAt", JStr "now"); ("signature", JStr "sig")].
Definition demo_receive (record : jsval) : proc Z (exc jsval) := call (λ n, ((n + 1)%Z, Ret (demo_receipt_of record))).

Definition demo_record (q : Z) : jsval :=
  JObj [("streamId", JStr "pairs"); ("sourceEpoch", JStr "e1"); ("sequence", JNum (int q)); ("opDigest", JStr "d"); ("mutation", JNull)].
Definition demo_prepared (q now : Z) (nonce : string) : jsval * string * FetchRequest :=
  match prepare demo_transport (demo_record q) nonce (int now) with
  | Ret x => x | Throw _ => (JUndef, EmptyString, mkFetch EmptyString EmptyString [] EmptyString) end.
Definition demo_incoming (q now : Z) (nonce : string) : IncomingMessage :=
  let req := (demo_prepared q now nonce).2 in
  as_received "/outbox?v=1" req [utf8_encode (fq_body req)].

Definition demo_nonces : MemoryReplayNonceStore := mkMemNonces DEFAULT_NONCE_RETENTION_MS [].
Definition demo_rx : Rx MemoryReplayNonceStore Z := mkRx 1000000 demo_nonces 0%Z [] 0.

(** Two deliveries and a replay of the first, interleaved. *)
Definition demo_requests : list IncomingMessage :=
  [demo_incoming 1 1000000 "nonce-nonce-nonce-1"; demo_incoming 2 999000 "nonce-nonce-nonce-2";
   demo_incoming 1 1000000 "nonce-nonce-nonce-1"].
Definition demo_http_run :=
  sched [0; 1; 2; 1; 0; 2; 0; 1]%nat
    (handlers demo_receiver_opts demo_receive (secret_bytes demo_response_secret) demo_requests) demo_rx.
Definition demo_answers : list (option (option Z)) :=
  List.map (λ p, match p with Done r => Some (option_map sr_status r) | Step _ => None end) demo_http_run.2.

Example demo_replay_refused :
  demo_answers = [Some (Some 200%Z); Some (Some 200%Z); Some (Some 401%Z)] ∧ rx_app demo_http_run.1.2 = 2%Z.
Proof. vm_compute. done. Qed.

Definition demo_answer (i : nat) : ServerResponse :=
  match demo_http_run.2 !! i with Some (Done (Some r)) => r | _ => mkResponse 0 [] EmptyString end.


Lemma request_single_use_witness :
  let a := demo_incoming 1 1000000 "nonce-nonce-nonce-1" in
  let b := demo_incoming 2 999000 "nonce-nonce-nonce-2" in
  (hdr a HDR_ts, hdr a HDR_nonce) ≠ (hdr b HDR_ts, hdr b HDR_nonce) ∧
  (header a HDR_keyId = header b HDR_keyId → header a HDR_sig = header b HDR_sig →
   ∃ secret, ro_resolveRequestKey demo_receiver_opts (hdr a HDR_keyId) = Ret (Some secret) ∧
     hmac_collision (secret_bytes secret) (signed_fields demo_receiver_opts a) (signed_fields demo_receiver_opts b)).
Proof.
  intros a b.
  apply (request_single_use demo_receiver_opts demo_receive (secret_bytes demo_response_secret) demo_requests demo_rx
    demo_http_run.1.1 demo_http_run.1.2 demo_http_run.2 0%nat 1%nat a b (demo_answer 0) (demo_answer 1)).
  3: unfold demo_http_run; apply sched_snd.
  all: first [by vm_compute|vm_compute; reflexivity].
Defined.

(** ** An exchange *)

Lemma demo_peers : peers demo_transport demo_receiver_opts demo_nonces (secret_bytes demo_response_secret).
Proof.
  split; [vm_compute; reflexivity..| |]; [exists demo_request_secret|exists demo_response_secret];
    split; vm_compute; reflexivity.
Qed.

Definition demo_x := demo_prepared 1 1000000 "nonce-nonce-nonce-1".
Definition demo_reply : ServerResponse :=
  match reply demo_receiver_opts (secret_bytes demo_response_secret) "nonce-nonce-nonce-1" demo_x.1.2 (demo_receipt_of (demo_record 1)) with
  | Ret r => r | Throw _ => mkResponse 0 [] EmptyString end.
Definition demo_network (_ : FetchRequest) : Race :=
  Settled (Fetched (as_fetched demo_reply [String.substring 0 7 (sr_body demo_reply); String.substring 7 1000 (sr_body demo_reply)])).

Lemma exchange_accepted_witness :
  (∃ mac, run (handle demo_receiver_opts demo_receive (secret_bytes demo_response_secret)
      (as_received (ht_path demo_transport) demo_x.2 [fq_body demo_x.2])) demo_rx =
    (mkRx 1000000 (mkMemNonces DEFAULT_NONCE_RETENTION_MS [("nonce-nonce-nonce-1", 1120000%Z)]) 1%Z
       ([] ++ [expected_admission demo_transport 1000000 "nonce-nonce-nonce-1" demo_x.1.2 mac]) 0%Z, Some demo_reply)) ∧
  sr_status demo_reply = 200%Z ∧
  deliverAndAwaitAck demo_transport (demo_record 1) "nonce-nonce-nonce-1" (int 1000000) demo_network =
    Ret (demo_receipt_of (demo_record 1)).
Proof.
  refine (exchange_accepted demo_transport demo_receiver_opts demo_receive demo_nonces (secret_bytes demo_response_secret)
    demo_peers (demo_record 1) "nonce-nonce-nonce-1" 1000000 demo_x.1.1 demo_x.1.2 demo_x.2
    (match demo_x.1.1 with JObj l => l | _ => [] end) demo_rx _ 1%Z (demo_receipt_of (demo_record 1))
    (demo_receipt_of (demo_record 1)) demo_reply [fq_body demo_x.2]
    [String.substring 0 7 (sr_body demo_reply); String.substring 7 1000 (sr_body demo_reply)] demo_network
    _ _ _ _ _ _ _ _ _ _ _ _ _ _ _ _);
    first [vm_compute; reflexivity|by vm_compute|by repeat constructor].
Defined.

Lemma reply_bound_witness :
  ∃ captured digest req res text env,
    prepare demo_transport (demo_record 1) "nonce-nonce-nonce-1" (int 1000000) = Ret (captured, digest, req) ∧
    demo_network req = Settled (Fetched res) ∧ fr_status res = 200%Z ∧
    readCapped demo_transport res = Ret text ∧ parse_utf8 text = Ret env ∧
    envelope_ok demo_transport env captured "nonce-nonce-nonce-1" digest (demo_receipt_of (demo_record 1)).
Proof. apply reply_bound. vm_compute. reflexivity. Defined.

(** ** Errors that are neither terminal nor transient *)

(** A reply without a valid tag, whose receipt has a fractional sequence number:
    the receipt is canonicalized before the tag is compared. *)
Definition demo_fractional : jsval :=
  JObj [("v", JStr ACK_DOMAIN); ("keyId", JStr "node-b"); ("challenge", JStr "nonce-nonce-nonce-1");
        ("requestDigest", JStr demo_x.1.2);
        ("receipt", match demo_receipt_of (demo_record 1) with
                    | JObj l => JObj (om_set "sequence" (JNum (Fin (Dec 15 1))) l) | v => v end);
        ("sig", JStr EmptyString)].
Definition demo_json_response (reads : list (exc string)) (_ : FetchRequest) : Race :=
  Settled (Fetched (mkFetched 200 [("content-type", CONTENT_TYPE)] (Some reads))).

Example fractional_receipt_unclassified :
  deliverAndAwaitAck demo_transport (demo_record 1) "nonce-nonce-nonce-1" (int 1000000)
    (demo_json_response [Ret (utf8_encode (stringify demo_fractional))]) =
  Throw (ContractValidationError "only safe-integer numbers are canonicalizable").
Proof. vm_compute. reflexivity. Qed.

(** A connection that breaks while the body is read. *)
Example broken_stream_unclassified :
  deliverAndAwaitAck demo_transport (demo_record 1) "nonce-nonce-nonce-1" (int 1000000)
    (demo_json_response [Ret "{"; Throw (PlainError "terminated")]) =
  Throw (PlainError "terminated").
Proof. vm_compute. reflexivity. Qed.
