(* ===== verification/HaExamples.v ===== *)
(** * Concrete runs of the replay guards and of the replication

    Witnesses and examples for the continuity guard and the governed replay store
    ([ReplayRuns]) and for the replicating store ([ReplicaRuns]). *)

From S2P Require Import Prelude Proc JsNum Encoding Json JsText Crypto ToyCrypto Nonce Continuity GovernedRedis GovernedSafety GovernedLive OutboxContract ReplicaEnvelope ReplicaReceiver Replicating ReplicaSafety Promotion.
From stdpp Require Import base gmap strings list.
From Stdlib Require Import ZArith Lia.

(** * Concrete runs of the continuity and high-availability parts

    Each lemma applies one theorem at concrete values, with the Redis client and
    key space instantiated by executable ones. *)
Module ReplayRuns.
#[local] Open Scope Z_scope.

(** ** The continuity guard *)

(** A Redis with one marker, or an unreachable one. *)
#[export] Instance marker_client : RedisContinuityClient (option (gmap string string)) := {
  marker_get key r := match r with Some m => (r, Ret (m !! key)) | None => (r, Throw NonceStoreUnavailableError) end;
  marker_set_nx key v r :=
    match r with
    | Some m => match m !! key with Some _ => (r, Ret (Some false)) | None => (Some (<[key := v]> m), Ret (Some true)) end
    | None => (r, Throw NonceStoreUnavailableError)
    end;
}.

Definition demo_guard : RedisContinuityGuard :=
  mkGuard "bpc:prod:continuity" 160000 (Some "epoch-1") true (At 0) continuity_store_unavailable.
Definition demo_guard_world (redis : option (gmap string string)) : GuardWorld (option (gmap string string)) :=
  mkGuardWorld 1000000 (λ n, "epoch-2") 0 redis demo_guard.

Lemma reconcile_fails_closed_witness :
  (∃ s, (Some 0%nat, s) ∈ (sched [0; 0]%nat [reconcile] (demo_guard_world None)).1.1 ∧ reads_intact s) ∨
  guard_assertAcceptable 1100000 (gw_guard (sched [0; 0]%nat [reconcile] (demo_guard_world None)).1.2) =
    Throw (AuthorizationQuarantineError continuity_store_unavailable (At 1160000)).
Proof.
  exact (reconcile_fails_closed 1 (demo_guard_world None) _ _ _ 0 1100000
    (sched_snd world_grows [0; 0]%nat [reconcile] (demo_guard_world None)) eq_refl ltac:(lia) ltac:(vm_compute; reflexivity)).
Defined.

Definition quarantined_guard : RedisContinuityGuard :=
  mkGuard "bpc:prod:continuity" 160000 None true (At 1165000) continuity_marker_lost.

Lemma quarantine_outlives_nonces_witness : dec_far 1165000 (Dec 1000000 0) 60000 = true.
Proof.
  apply (quarantine_outlives_nonces "prod" 60000 10000 30000 None 130000
    (mkGuard "bpc:prod:continuity" 160000 None false Never continuity_store_unavailable) quarantined_guard
    (Dec 1000000 0) 1004000 1005000 1165000); try (vm_compute; reflexivity); [lia|].
  split; [reflexivity|]. exists 1165000. split; [reflexivity|vm_compute; discriminate].
Defined.

Lemma restart_forgets_quarantine_witness :
  let w1 := (run reconcile (demo_guard_world (Some ∅))).1 in
  (∀ now, now < 1160000 → guard_assertAcceptable now (gw_guard w1) ≠ Ret tt) ∧
  (∀ now, 0 <= now → guard_assertAcceptable now (gw_guard (run reconcile (set_guard
     (mkGuard "bpc:prod:continuity" 160000 None false Never continuity_store_unavailable) w1)).1) = Ret tt).
Proof.
  refine (restart_forgets_quarantine "prod" 130000 (Some 30000) None
    (mkGuard "bpc:prod:continuity" 160000 None false Never continuity_store_unavailable)
    (demo_guard_world (Some ∅)) (Some ∅) (Some {["bpc:prod:continuity"%string := "epoch-2"%string]}) _ _ _ _ _).
  - vm_compute. reflexivity.
  - reflexivity.
  - intros k v [m|] s' Hset; simpl in Hset; [|discriminate].
    destruct (m !! k); [discriminate|]. injection Hset as <-. simpl. rewrite lookup_insert_eq. reflexivity.
  - vm_compute. reflexivity.
  - vm_compute. reflexivity.
Defined.

(** ** The governed replay store *)

Definition demo_options : GovernedOptions := mkOptions "prod" 60000 None None None None None.
Definition demo_config : GovernedConfig :=
  mkGoverned 130000 160000 5000 EmptyString (governed_keys "prod") (governed_prefix "prod") "130000:160000".

Lemma demo_config_derived : governed_config demo_options "epoch-1" = Ret demo_config.
Proof. vm_compute. reflexivity. Qed.

Lemma demo_deployment : deployment demo_config.
Proof. apply (governed_config_deployment _ _ _ demo_config_derived). Qed.

Definition demo_keys : Keys :=
  {["bpc:{prod}:continuity:v2"%string := ("epoch-1"%string, None);
    "bpc:{prod}:continuity-config:v2"%string := ("130000:160000"%string, None)]}.
Definition demo_gate : SharedContinuityGate := mkGate (Some "epoch-1"%string) (At 0) continuity_marker_lost false.

(** Two verifiers; the first command of each draws an epoch, the second is the
    script. *)
Definition demo_governed (s : Keys) (gate : SharedContinuityGate) : GovernedWorld Keys :=
  mkGWorld 1000000 s (λ _, gate) (λ _, "epoch-9"%string) (λ _, Delivered)
    (λ _, Ret (JArr [JStr "maxmemory-policy"; JStr "noeviction"])) 0.

Definition one_nonce : list verifier_call := [Consume 0 "n1"; Consume 1 "n1"].

Notation "'PoolState'" := (ptrace (GovernedWorld Keys) * GovernedWorld Keys *
  list (proc (GovernedWorld Keys) (exc bool)))%type (only parsing).

(** The first verifier runs, 200 seconds pass, the second runs. *)
Definition first_run : PoolState := sched (replicate 9 0%nat) (perform demo_config <$> one_nonce) (demo_governed demo_keys demo_gate).
Definition second_run : PoolState := sched (replicate 9 1%nat) first_run.2 (at_time 1200000 first_run.1.2).
Definition both_trace : ptrace (GovernedWorld Keys) :=
  first_run.1.1 ++ (None, (first_run.1.2, at_time 1200000 first_run.1.2)) :: second_run.1.1.

Lemma both_run : pool_run (env_move demo_config) (perform demo_config <$> one_nonce) (demo_governed demo_keys demo_gate)
  both_trace second_run.1.2 second_run.2.
Proof.
  unfold both_trace. eapply pool_run_app; [apply sched_snd|]. eapply pool_env; [|apply sched_snd].
  constructor. vm_compute. discriminate.
Qed.

Lemma governed_single_use_witness : ∃ si sj, (Some 0%nat, si) ∈ both_trace ∧ (Some 1%nat, sj) ∈ both_trace ∧
  consumes_at demo_config "n1" si ∧ consumes_at demo_config "n1" sj ∧ 130000 <= Z.abs (vw_now sj.1 - vw_now si.1).
Proof.
  refine (governed_single_use demo_config (dp_sound _ demo_deployment) one_nonce _ _ _ _ 0 1 0 1 "n1"
    both_run _ _ eq_refl eq_refl _ _).
  - intros n raw. discriminate.
  - discriminate.
  - vm_compute. reflexivity.
  - vm_compute. reflexivity.
Defined.

(** A quarantine of 5000 ms, and a verdict with a wrong TTL. *)
Lemma replies_fail_closed_witness :
  closed_until 1005000 (consume_reply 1000000 "epoch-1" (Ret (JArr [JStr "QUARANTINED"; JStr "epoch-1"; JStr "5000"])) demo_gate).1 ∧
  ∀ until, closed_until until (consume_reply 1000000 "epoch-1" (Ret (JArr [JStr "FRESH"; JStr "epoch-1"; JStr "10"])) demo_gate).1.
Proof.
  split.
  - destruct (replies_fail_closed 1000000 "epoch-1" (Ret (JArr [JStr "QUARANTINED"; JStr "epoch-1"; JStr "5000"])) demo_gate _ _
      ltac:(discriminate) (surjective_pairing _)) as [(b & (r0 & [= <-] & H) & _)|[(st & ep & ttl & (r0 & [= <-] & H & _) & _ & Hc)|(_ & _ & _ & Hc)]];
      [exfalso; destruct b; vm_compute in H; discriminate H| |apply Hc].
    assert (ttl = 5000) as -> by (vm_compute in H; congruence). exact Hc.
  - destruct (replies_fail_closed 1000000 "epoch-1" (Ret (JArr [JStr "FRESH"; JStr "epoch-1"; JStr "10"])) demo_gate _ _
      ltac:(discriminate) (surjective_pairing _)) as [(b & (r0 & [= <-] & H) & _)|[(st & ep & ttl & (r0 & [= <-] & H & Hq & _) & _ & _)|(_ & _ & _ & Hc)]];
      [exfalso; destruct b; vm_compute in H; discriminate H| |exact Hc].
    exfalso. assert (st = "FRESH") as -> by (vm_compute in H; congruence).
    unfold quarantine_statuses in Hq. rewrite !elem_of_cons, elem_of_nil in Hq. by repeat destruct Hq as [Hq|Hq].
Defined.

Lemma demo_calm : calm demo_config "epoch-1" 1000000 demo_keys.
Proof. intros t _. vm_compute. repeat split; reflexivity. Qed.

Lemma snapshot_restore_undetected_witness :
  answers_fresh (consume_script demo_config "n1" "epoch-1" "epoch-9" 130000 1000000 demo_keys).2 ∧
  reconcile_script demo_config "epoch-9" "epoch-1" 1001000 demo_keys = (demo_keys, reply "OK" "epoch-1" "-2") ∧
  answers_fresh (consume_script demo_config "n1" "epoch-1" "epoch-9" 130000 1001000 demo_keys).2.
Proof.
  apply (snapshot_restore_undetected demo_config demo_deployment "epoch-1" "n1" "epoch-9" 1000000 demo_keys demo_calm
    ltac:(intros t _; vm_compute; reflexivity) 1000000 1001000 ltac:(lia)).
Defined.

Lemma governed_recovers_witness : ∃ w1 w2,
  run (governed_bootstrap demo_config 0 "epoch-1") (demo_governed ∅ SharedContinuityGate_new) = (w1, Ret tt) ∧
  (∀ t', t' < 1160000 → gate_assertAcceptable t' (vw_gates w1 0%nat) ≠ Ret tt) ∧
  run (governed_checkAndConsume demo_config 0 "n1") (at_time 1160001 w1) = (w2, Ret false) ∧
  vw_gates w2 0%nat = vw_gates w1 0%nat.
Proof.
  apply (governed_recovers demo_config demo_deployment 0 "epoch-1" "n1" (demo_governed ∅ SharedContinuityGate_new) 1160001).
  - split; intros n; vm_compute; reflexivity.
  - vm_compute. reflexivity.
  - reflexivity.
  - reflexivity.
  - intros k. reflexivity.
  - vm_compute. reflexivity.
Defined.

End ReplayRuns.

(** * Concrete runs of the replication

    A store that is a map of pairs and one of pending registrations, toy
    cryptography, and three schedules in which the replica loses writes of the
    primary although every push has been acknowledged. *)
Module ReplicaRuns.
#[local] Open Scope string_scope.

(** ** A store *)

Definition KvStore : Type := list (string * jsval) * list (string * (jsval * num)).
#[export] Instance kv_store : ReplicaStore KvStore := {
  rs_set p s := ((om_set (js_str (field p "id")) p s.1, s.2), Ret tt);
  rs_delete k s := ((om_delete k s.1, s.2), Ret tt);
  rs_setPending t r a s := ((s.1, om_set t (r, a) s.2), Ret tt);
  rs_deletePending t s := ((s.1, om_delete t s.2), Ret tt);
}.
Lemma kv_all_or_nothing op (s s' : KvStore) e : replica_op op s = (s', Throw e) → s' = s.
Proof. by destruct op. Qed.

Definition demo_key : string := "0123456789abcdef0123456789abcdef".
Definition demo_target : ReplicaTarget := mkTarget "primary-1" demo_key.
Definition demo_b64 : string := "AAAAAAAAAAAAAAAAAAAAAAAAAAAAAAAAAAAAAAAAAAA".
Definition demo_jwk : jsval := JObj [("kty", JStr "EC"); ("crv", JStr "P-256"); ("x", JStr demo_b64); ("y", JStr demo_b64)].
Definition demo_pair (id name status : string) : jsval :=
  JObj [("id", JStr id); ("name", JStr name); ("scope", JStr "read"); ("mode", JStr "production");
        ("secretHash", JStr demo_b64); ("pubJwk", demo_jwk); ("status", JStr status); ("created", JNum (int 1));
        ("lastActive", JNull); ("requests", JNum (int 0)); ("failedSigs", JNum (int 0))].
Definition demo_rep (faults : nat → option error) : Rep KvStore KvStore :=
  mkRep ([], []) ([], ([], [])) 1700000000000 0 [] false 0 [] [] [] (λ _, true) faults 0.
Definition names (s : KvStore) : list (string * jsval) := (λ kv, (kv.1, field kv.2 "status")) <$> s.1.

Definition rep_run (maxQueue : Z) (faults : nat → option error) (schedule : list nat) (ops : list rep_op) :=
  (sched schedule (rep_proc demo_target (mkReplicatingOptions maxQueue 1000 30000) <$> ops) (demo_rep faults)).1.2.

(** ** Where replication loses a write *)

(** The queue sheds its oldest entry while that entry's push is in flight; when the
    push succeeds the drainer removes the head of the queue, which by then is an
    entry that was never sent.  The queue is empty, the only operation reported as
    dropped is one the replica has, and the lost one was reported to nobody. *)
Theorem shed_in_flight_loses :
  ∃ schedule ops,
    let w := rep_run 1 (λ _, None) schedule ops in
    names (rp_primary w) = [("a", JStr "active"); ("b", JStr "active")] ∧ rp_queue w = [] ∧ rp_draining w = false ∧
    names (rp_replica w).2 = [("a", JStr "active")] ∧ rp_dropped w = [OpSet (demo_pair "a" "A" "active")] ∧
    length (rp_posted w) = 1%nat.
Proof.
  exists [0; 0; 0; 1; 1; 1; 2; 2; 2; 3; 1; 1; 1]%nat,
    [Write (OpSet (demo_pair "a" "A" "active")); Drain 2; Write (OpSet (demo_pair "b" "B" "active")); Deliver 0 1700000000000].
  vm_compute. split_and!; reflexivity.
Qed.

(** The number of a write is taken after the primary has committed it, so two
    concurrent writes of one pair can be numbered in the other order: everything is
    delivered and acknowledged, and the replica keeps a pair active that the primary
    has revoked. *)
Theorem write_order_diverges :
  ∃ schedule ops,
    let w := rep_run 5000 (λ _, None) schedule ops in
    names (rp_primary w) = [("a", JStr "revoked")] ∧ rp_queue w = [] ∧ rp_dropped w = [] ∧
    names (rp_replica w).2 = [("a", JStr "active")].
Proof.
  exists [0; 1; 1; 1; 0; 0; 2; 2; 2; 3; 2; 2; 2; 2; 4; 2; 2; 2]%nat,
    [Write (OpSet (demo_pair "a" "A" "active")); Write (OpSet (demo_pair "a" "A" "revoked")); Drain 3;
     Deliver 0 1700000000000; Deliver 1 1700000000000].
  vm_compute. split_and!; reflexivity.
Qed.

(** A failure of the sequence source comes after the primary's commit: the write is
    reported as failed, stays on the primary, and is missing on the replica without
    a gap in the numbers. *)
Example numbering_failure_unreplicated :
  let w := rep_run 5000 (λ n, if decide (n = 0%nat) then Some (PlainError "sequence store unavailable") else None)
    [0; 0; 1; 1; 1; 2; 2; 2; 3; 2; 2; 2]%nat
    [Write (OpSet (demo_pair "a" "A" "active")); Write (OpSet (demo_pair "b" "B" "active")); Drain 2; Deliver 0 1700000000000] in
  names (rp_primary w) = [("a", JStr "active"); ("b", JStr "active")] ∧ rp_queue w = [] ∧ rp_dropped w = [] ∧
  names (rp_replica w).2 = [("b", JStr "active")] ∧ lastSequence "primary-1" (rp_replica w).1 = rp_sequence w.
Proof. vm_compute. split_and!; reflexivity. Qed.

(** A [__proto__] member is not covered by the signature. *)
Example proto_member_unsigned :
  canonicalJson (JObj [("op", JStr "delete"); ("pairId", JStr "a")]) =
  canonicalJson (JObj [("op", JStr "delete"); ("__proto__", JObj [("x", JNum (int 1))]); ("pairId", JStr "a")]).
Proof. vm_compute. reflexivity. Qed.

(** ** Witnesses *)

Lemma demo_pair_jfin id name status : jfin (op_value (OpSet (demo_pair id name status))).
Proof.
  assert (jfin (JNum (int 1)) ∧ jfin (JNum (int 0))) as [H1 H0] by (split; apply int_jfin; lia).
  assert (jfin demo_jwk) as Hj by (apply jfin_obj; split; [apply (bool_decide_unpack _); vm_compute; exact I|by repeat constructor]).
  apply jfin_obj. split; [apply (bool_decide_unpack _); vm_compute; exact I|].
  repeat apply Forall_cons_2; [done| |by apply Forall_nil_2]. cbn [snd]. apply jfin_obj.
  split; [apply (bool_decide_unpack _); vm_compute; exact I|].
  repeat apply Forall_cons_2; cbn [snd]; first [exact H1|exact H0|exact Hj|done|by apply Forall_nil_2].
Qed.

(** Of the injected requests the first replaces the operation under the posted
    signature and the second renumbers it; both are refused.  The third adds an
    unsigned [__proto__] member and passes. *)
Definition forged_envelope (q : Z) (op : jsval) : string :=
  stringify (JObj [("version", JStr REPLICA_ENVELOPE_VERSION); ("sourceId", JStr "primary-1"); ("sequence", JNum (int q));
                   ("sentAt", JNum (int 1700000000000)); ("op", op)]).
Definition posted_signature : jsval :=
  signature_headers (match signReplicaEnvelope (envelope_value "primary-1" 1 1700000000000 (OpSet (demo_pair "a" "A" "active"))) demo_key
                     with Ret s => s | Throw _ => EmptyString end).
Definition demo_rep_ops : list rep_op :=
  [Write (OpSet (demo_pair "a" "A" "active")); Drain 2; Deliver 0 1700000000000; Deliver 0 1700000000000;
   Inject posted_signature (forged_envelope 1 (JObj [("op", JStr "delete"); ("pairId", JStr "a")])) 1700000000000;
   Inject posted_signature (forged_envelope 2 (op_value (OpSet (demo_pair "a" "A" "active")))) 1700000000000;
   Inject posted_signature (forged_envelope 1 (JObj [("pair", demo_pair "a" "A" "active"); ("op", JStr "set");
     ("__proto__", JObj [])])) 1700000000000].
Definition demo_rep_run :=
  sched [0; 0; 0; 1; 1; 1; 4; 5; 6; 2; 3; 1; 1; 1]%nat (rep_proc demo_target DEFAULTS <$> demo_rep_ops) (demo_rep (λ _, None)).

Lemma replica_is_prefix_witness :
  names (rp_replica demo_rep_run.1.2).2 = [("a", JStr "active")] ∧
  ∃ (m : nat) applied, lastSequence "primary-1" (rp_replica demo_rep_run.1.2).1 = Z.of_nat m ∧
    (m <= length (rp_log demo_rep_run.1.2))%nat ∧ Forall2 signed_as applied (take m (rp_log demo_rep_run.1.2)) ∧
    replayed applied ([], []) = Ret (rp_replica demo_rep_run.1.2).2.
Proof.
  split; [vm_compute; reflexivity|].
  apply (replica_is_prefix demo_target DEFAULTS ([], []) kv_all_or_nothing demo_rep_ops (demo_rep (λ _, None)) demo_rep_run.1.1 _ demo_rep_run.2).
  - split_and!; try reflexivity. split; (vm_compute; discriminate).
  - repeat apply Forall_cons_2; [apply demo_pair_jfin|exact I..|by apply Forall_nil_2].
  - apply sched_snd.
Defined.

Definition demo_op : ReplicaOp := OpSet (demo_pair "a" "A" "active").
Definition demo_signature : string :=
  match signReplicaEnvelope (envelope_value "primary-1" 1 1700000000000 demo_op) demo_key with Ret s => s | Throw _ => EmptyString end.
Lemma push_accepted_witness :
  ∃ v g', parse (stringify (envelope_value "primary-1" 1 1700000000000 demo_op)) = Ret v ∧
    handleReplicaIngest (signature_headers demo_signature) v demo_key "primary-1" 1700000030000 ([], ([], [])) =
      ((g', ([("a", demo_pair "a" "A" "active")], [])), (200%Z, mkApplyResult true None)) ∧
    handleReplicaIngest (signature_headers demo_signature) v demo_key "primary-1" 1700000030000 (g', ([("a", demo_pair "a" "A" "active")], [])) =
      ((g', ([("a", demo_pair "a" "A" "active")], [])), (200%Z, mkApplyResult true (Some (Code "duplicate_ignored")))).
Proof.
  apply (push_accepted "primary-1" demo_key 1 1700000000000 1700000030000 demo_op demo_signature [] ([], []));
    [apply demo_pair_jfin|vm_compute; reflexivity|vm_compute; reflexivity|split; (vm_compute; discriminate)|
     split; (vm_compute; discriminate)|vm_compute; discriminate|vm_compute; discriminate|vm_compute; reflexivity|
     reflexivity|vm_compute; reflexivity].
Defined.

Definition demo_command (token command : string) : Request :=
  mkRequest (JObj [("x-guard-token", JStr token)]) (JObj [("command", JStr command); ("by", JStr "guard")]) 1700000000000.
(** Promoted by the guard; a demotion with another token is refused. *)
Example demo_promotion :
  assertWritable (handle_all demo_key [demo_command demo_key "promote"; demo_command "wrong" "demote"] (PromotionController_new replica)) = None ∧
  assertWritable (handle_all demo_key [demo_command demo_key "promote"; demo_command demo_key "demote"] (PromotionController_new replica)) =
    Some (503%Z, "replica_not_promoted").
Proof. vm_compute. by split. Qed.

End ReplicaRuns.
