(* ===== verification/SessionExamples.v ===== *)
(** * Concrete runs of sessions, caches and checkpoints

    Witnesses and examples for principal sessions ([PrincipalRuns]), rollback
    checkpoints ([RollbackRuns]) and the credential cache ([AgentCacheRuns]). *)

From S2P Require Import Prelude Proc ChainLink JsNum Encoding Json JsText RuntimeCapture Crypto Store ToyCrypto Nonce AuditChain OutboxContract ReplicaEnvelope AgentCache PrincipalSession PrincipalChain PrincipalPin PrincipalSafety PrincipalFallback RollbackCheckpoint.
From stdpp Require Import base gmap strings list.
From Stdlib Require Import ZArith Lia.

(** * Concrete runs of the principal ledger

    Two principals bind sessions over a ledger with toy cryptography, one of them
    replays a proof; the theorems of the principal files on these runs, and what the
    ledger does on rotated keys, on ambiguous stream names and on unusual proofs. *)
Module PrincipalRuns.
#[local] Open Scope string_scope.
#[local] Open Scope bpc_scope.

Definition key_a : CanonicalAuthorizationJwk :=
  mkJwk "AAAAAAAAAAAAAAAAAAAAAAAAAAAAAAAAAAAAAAAAAAA" "BBBBBBBBBBBBBBBBBBBBBBBBBBBBBBBBBBBBBBBBBBA".
Definition key_b : CanonicalAuthorizationJwk :=
  mkJwk "CAAAAAAAAAAAAAAAAAAAAAAAAAAAAAAAAAAAAAAAAAA" "DBBBBBBBBBBBBBBBBBBBBBBBBBBBBBBBBBBBBBBBBBA".

(** A binding request signed with a key. *)
Definition unsigned_bind (k : CanonicalAuthorizationJwk) (provider session : string) (agent : option string) (nonce : string)
    (signedAt : num) (signature : string) : BindSessionInput :=
  mkBind (jwk_value k) (mkProof nonce signedAt signature) provider session agent "policy-1" None
    (Some [("role", JStr "admin")]) None.
Definition signed_bind (k : CanonicalAuthorizationJwk) (provider session : string) (agent : option string) (nonce : string)
    (signedAt : num) : BindSessionInput :=
  let u := unsigned_bind k provider session agent nonce signedAt EmptyString in
  let fp := match computeFingerprint (jwk_value k) with Ret fp => fp | Throw _ => EmptyString end in
  unsigned_bind k provider session agent nonce signedAt
    (match signPayload 0 (k : @PrivateKey toy) (proof_payload u fp) with Ret s => s | Throw _ => EmptyString end).

Definition is_Ret {A} (r : exc A) : bool := match r with Ret _ => true | Throw _ => false end.

Definition ledger_now : Z := 1000000.
Definition ledger_resolve (i : AuthorizationResolutionInput) : exc PrincipalSession.AuthorizationContext := Ret [("role", JStr "reader")].
Definition demo_ledger : LedgerWorld := MemoryPrincipalSessionLedger_new ledger_now ledger_resolve.

Definition bind_a : BindSessionInput := signed_bind key_a "codex" "s1" None "nonce-nonce-nonce-1" (int 999000).
Definition bind_b : BindSessionInput := signed_bind key_b "codex" "s2" None "nonce-nonce-nonce-2" (int 999000).
Definition principal_of (k : CanonicalAuthorizationJwk) : string :=
  match computeFingerprint (jwk_value k) with Ret fp => principalIdFromFingerprint fp | Throw _ => EmptyString end.
Definition stream_a : string := makeStreamId (principal_of key_a) "codex" "codex:s1".

(** Two bindings, a replay of the first, an event and a rotation, interleaved. *)
Definition demo_ops : list LedgerOp :=
  [OpBind bind_a; OpBind bind_b; OpBind bind_a; OpAppend (principal_of key_a) stream_a session_event [("note", JStr "x")];
   OpRotate (principal_of key_b) (jwk_value key_a) None].
Definition demo_schedule : list nat := [0; 1; 2; 1; 0; 2; 0; 1; 0; 1; 0; 1; 3; 4; 4]%nat.
Definition demo_ledger_run := sched demo_schedule (ledger_op <$> demo_ops) demo_ledger.
Definition demo_end : LedgerWorld := demo_ledger_run.1.2.
Definition demo_binding (i : nat) : SessionBinding :=
  match demo_ledger_run.2 !! i with
  | Some (Done (Bound (Ret b))) => b
  | _ => mkBinding EmptyString EmptyString EmptyString EmptyString EmptyString 0 EmptyString [] JUndef EmptyString EmptyString EmptyString
  end.

Example demo_ledger_answers :
  List.map (λ p, match p with
    | Done (Bound (Ret b)) => Some (Ret (sb_authorizationContext b)) | Done (Bound (Throw e)) => Some (Throw e)
    | Done (Appended (Ret _)) | Done (Rotated (Ret _)) => Some (Ret []) | _ => None end) demo_ledger_run.2 =
  [Some (Ret [("role", JStr "reader")]); Some (Ret [("role", JStr "reader")]);
   Some (Throw (PlainError "principal session proof replayed")); Some (Ret []); Some (Ret [])].
Proof. vm_compute. reflexivity. Qed.

Lemma demo_no_collision : no_stream_collision demo_ops.
Proof. apply no_collision_checked. vm_compute. reflexivity. Qed.

Lemma ledger_continuity_witness :
  verifyPrincipalContinuity (sb_principalId (demo_binding 0)) demo_end =
    mkChainVerify true (sb_principalId (demo_binding 0)) None None ∧
  recorded (demo_binding 0) demo_end.
Proof.
  destruct (ledger_continuity demo_ops ledger_now ledger_resolve demo_ledger_run.1.1 demo_end demo_ledger_run.2 demo_no_collision)
    as [_ Hb].
  - unfold demo_end, demo_ledger_run. apply sched_snd.
  - destruct (Hb 0%nat (demo_binding 0)) as [Hr Hv]; [vm_compute; reflexivity|]. split; [exact Hv|exact Hr].
Defined.

(** The run cut after the bindings, and the rest of it. *)
Definition first_part := sched [0; 1; 2; 1; 0; 2; 0; 1; 0; 1; 0; 1]%nat (ledger_op <$> demo_ops) demo_ledger.
Definition second_part := sched [3; 4; 4]%nat first_part.2 first_part.1.2.

Lemma ledger_append_only_witness :
  entries_of first_part.1.2 stream_a `prefix_of` entries_of second_part.1.2 stream_a ∧
  length (entries_of first_part.1.2 stream_a) = 1%nat ∧ length (entries_of second_part.1.2 stream_a) = 2%nat.
Proof.
  split; [|by vm_compute].
  destruct (ledger_append_only demo_ops ledger_now ledger_resolve first_part.1.1 first_part.1.2 first_part.2
    second_part.1.1 second_part.1.2 second_part.2 demo_no_collision) as [He _].
  - unfold first_part. apply sched_snd.
  - unfold second_part. apply sched_snd.
  - apply He.
Defined.

(** The same history in a ledger that holds nothing else. *)
Definition lone_ops : list LedgerOp :=
  [OpBind bind_a; OpAppend (principal_of key_a) stream_a session_event [("note", JStr "x")]].
Definition lone_run := sched [0; 0; 0; 0; 0; 1]%nat (ledger_op <$> lone_ops) demo_ledger.
Definition lone_end : LedgerWorld := lone_run.1.2.
Definition record_of (pid : string) (w : LedgerWorld) : PrincipalRecord :=
  default (mkPrincipal EmptyString EmptyString JUndef 0 0 [] 0 [] [] [] EmptyString 0) (getPrincipal pid w).

Lemma checkpoint_pins_history_witness :
  pr_checkpointHead (record_of (principal_of key_a) demo_end) = pr_checkpointHead (record_of (principal_of key_a) lone_end) ∧
  (Forall2 same_checkpoint (checkpoints_of demo_end (principal_of key_a)) (checkpoints_of lone_end (principal_of key_a)) ∧
   (∀ sid, sid ≠ "__proto__" →
     (sid ∈ pr_streamIds (record_of (principal_of key_a) demo_end) ↔ sid ∈ pr_streamIds (record_of (principal_of key_a) lone_end)) ∧
     (sid ∈ pr_streamIds (record_of (principal_of key_a) demo_end) → Forall2 same_event (entries_of demo_end sid) (entries_of lone_end sid))) ∨
   histories_collide (principal_of key_a) (pr_streamIds (record_of (principal_of key_a) demo_end)) demo_end lone_end).
Proof.
  assert (pr_checkpointHead (record_of (principal_of key_a) demo_end) = pr_checkpointHead (record_of (principal_of key_a) lone_end)) as Hh
    by (vm_compute; reflexivity).
  split; [exact Hh|]. apply (checkpoint_pins_history (principal_of key_a) demo_end lone_end _ _); [..|exact Hh| |]; vm_compute; reflexivity.
Defined.

Lemma binding_sound_witness :
  ∃ fp now, computeFingerprint (jwk_value key_a) = Ret fp ∧ proof_holds bind_a fp now ∧
    sb_principalId (demo_binding 0) = principalIdFromFingerprint fp.
Proof.
  destruct (run_exec (bindSession bind_a) demo_ledger) as [tr Hex].
  assert ((run (bindSession bind_a) demo_ledger).2 = Ret (demo_binding 0)) as Hr by (vm_compute; reflexivity).
  rewrite Hr in Hex.
  destruct (binding_sound eq bind_a demo_ledger tr _ (demo_binding 0) Hex)
    as (fp & ctx & s1 & s2 & s3 & s4 & s5 & _ & _ & Hfp & Hph & _ & _ & _ & Hid & _).
  exists fp, (lw_now s1.1). split; [exact Hfp|]. split; [exact Hph|exact Hid].
Defined.

Lemma proof_binds_once_witness :
  demo_ops !! 0%nat = Some (OpBind bind_a) ∧ demo_ledger_run.2 !! 2%nat ≠ Some (Done (Bound (Ret (demo_binding 0)))).
Proof.
  split; [reflexivity|].
  apply (proof_binds_once demo_ops demo_ledger demo_ledger_run.1.1 demo_end demo_ledger_run.2 0%nat 2%nat bind_a bind_a
    (demo_binding 0) (demo_binding 0)); [|done|reflexivity..|vm_compute; reflexivity].
  unfold demo_end, demo_ledger_run. apply sched_snd.
Defined.

(** ** Fallback authorization *)

Definition demo_cache : SealedPrincipalCache :=
  match sealPrincipalCache (mkSeal "replica" (principal_of key_a) "policy-1" "head" (int 900000) (int 2000000) None
    (Some [("role", JStr "reader")]) "seal-key") with
  | Ret c => c | Throw _ => mkCache (mkBody EmptyString EmptyString EmptyString EmptyString NaN NaN [] []) EmptyString EmptyString end.
Definition demo_fallback : FallbackAuthorizationInput :=
  mkFallback demo_cache "seal-key" "policy-1" "head" "challenge-challenge-1" true None.
Definition fallback_world : FallbackWorld (RedisNonceStore (gmap string Z)) :=
  mkFW 1000000 (mkServerNonceStore (mkRedisNonceStore ∅ "bpc:nonce:") 1000).

(** The same cache with another policy under the same seal is refused. *)
Definition tampered_cache : SealedPrincipalCache :=
  mkCache (mkBody "replica" (principal_of key_a) "policy-2" "head" (int 900000) (int 2000000) [] [("role", JStr "admin")]) "1" (pc_seal demo_cache).
Example fallback_examples :
  (run (verifyFallbackAuthorization demo_fallback) fallback_world).2 = Ret (granted demo_fallback) ∧
  (run (verifyFallbackAuthorization (mkFallback tampered_cache "seal-key" "policy-2" "head" "challenge-challenge-1" true None))
    fallback_world).2 = refused "cache_seal_invalid".
Proof. split; vm_compute; reflexivity. Qed.

(** [nowMs] is not checked: an expired cache grants when it is NaN. *)
Definition expired_fallback (nowMs : option num) : FallbackAuthorizationInput :=
  mkFallback demo_cache "seal-key" "policy-1" "head" "challenge-challenge-1" true nowMs.
Theorem nan_now_grants_expired :
  (run (verifyFallbackAuthorization (expired_fallback (Some (int 2000000)))) fallback_world).2 = refused "cache_expired" ∧
  (run (verifyFallbackAuthorization (expired_fallback (Some NaN))) (mkFW 3000000 (fw_nonceStore fallback_world))).2 =
    Ret (granted (expired_fallback (Some NaN))).
Proof. split; vm_compute; reflexivity. Qed.

(** Two fallbacks for one challenge with the store's retention between them. *)
Definition fallback_first := sched [0; 0]%nat (fallbacks [demo_fallback; demo_fallback]) fallback_world.
Definition later (w : FallbackWorld (RedisNonceStore (gmap string Z))) := mkFW 1002000 (fw_nonceStore w).
Definition fallback_second := sched [1; 1]%nat fallback_first.2 (later fallback_first.1.2).

Lemma later_env w : (fw_now w <= 1002000)%Z → fw_env w (later w).
Proof. intros Ht. split; [exact Ht|by left]. Qed.

(** A schedule, a move of the environment, another schedule. *)
Lemma sched_env_sched {W A} (R : W → W → Prop) (f : W → W) sc1 sc2 (ps : list (proc W A)) w :
  let a := sched sc1 ps w in let b := sched sc2 a.2 (f a.1.2) in
  R a.1.2 (f a.1.2) → pool_run R ps w (a.1.1 ++ (None, (a.1.2, f a.1.2)) :: b.1.1)%list b.1.2 b.2.
Proof. intros a b HR. eapply pool_run_app; [apply sched_snd|]. eapply pool_env; [exact HR|apply sched_snd]. Qed.

Lemma fallback_single_use_witness :
  fallback_second.2 = [Done (Ret (granted demo_fallback)); Done (Ret (granted demo_fallback))] ∧
  (fw_now fallback_second.1.2 - fw_now fallback_world > sns_windowMs (fw_nonceStore fallback_world))%Z.
Proof.
  assert (fallback_second.2 = [Done (Ret (granted demo_fallback)); Done (Ret (granted demo_fallback))]) as Hps by (vm_compute; reflexivity).
  split; [exact Hps|].
  apply (fallback_single_use [demo_fallback; demo_fallback] fallback_world
    (fallback_first.1.1 ++ (None, (fallback_first.1.2, later fallback_first.1.2)) :: fallback_second.1.1)%list fallback_second.1.2
    fallback_second.2 0%nat 1%nat demo_fallback demo_fallback (granted demo_fallback) (granted demo_fallback));
    [|done|reflexivity..|by rewrite Hps|by rewrite Hps|reflexivity|reflexivity].
  unfold fallback_second, fallback_first.
  apply (sched_env_sched fw_env later [0; 0]%nat [1; 1]%nat (fallbacks [demo_fallback; demo_fallback]) fallback_world).
  apply later_env. by vm_compute.
Defined.

(** ** What the ledger does not do *)

Definition after_bind_a : LedgerWorld := (run (bindSession bind_a) demo_ledger).1.
Definition rotated_a : LedgerWorld := (run (rotatePrincipalKey (principal_of key_a) (jwk_value key_b) None) after_bind_a).1.

(** A rotated key keeps its principal: after the key of a principal was replaced,
    a proof by the old key still binds sessions to that principal, and a proof by
    the new key binds to another one. *)
Theorem rotated_key_still_binds :
  pr_keyFingerprint (record_of (principal_of key_a) rotated_a) = pr_keyFingerprint (record_of (principal_of key_b) (run (bindSession bind_b) demo_ledger).1) ∧
  (∃ b, (run (bindSession (signed_bind key_a "codex" "s3" None "nonce-nonce-nonce-3" (int 999000))) rotated_a).2 = Ret b ∧
     sb_principalId b = principal_of key_a) ∧
  (∃ b, (run (bindSession bind_b) rotated_a).2 = Ret b ∧ sb_principalId b = principal_of key_b ∧ principal_of key_b ≠ principal_of key_a).
Proof.
  split; [vm_compute; reflexivity|]. split; eexists; (split; [vm_compute; reflexivity|]); [vm_compute; reflexivity|].
  split; [vm_compute; reflexivity|]. vm_compute. congruence.
Qed.

(** Provider and agent are joined without escaping: two agents of two providers
    share one stream. *)
Example stream_names_collide :
  makeStreamId (principal_of key_a) "codex:eu" "1" = makeStreamId (principal_of key_a) "codex" "eu:1".
Proof. reflexivity. Qed.

(** A signing time that is no number is never too old. *)
Example nan_proof_never_expires :
  (run (bindSession (signed_bind key_a "codex" "s1" None "nonce-nonce-nonce-4" NaN)) demo_ledger).2 ≠
    Throw (PlainError "principal session proof expired") ∧
  is_Ret (run (bindSession (signed_bind key_a "codex" "s1" None "nonce-nonce-nonce-4" NaN)) demo_ledger).2 = true.
Proof. split; vm_compute; congruence. Qed.

(** Nor is any proof when the permitted age is no number. *)
Definition nan_age (i : BindSessionInput) : BindSessionInput :=
  mkBind (bi_publicKeyJwk i) (bi_proof i) (bi_provider i) (bi_providerSessionId i) (bi_agentInstanceId i) (bi_policyDigest i)
    (bi_runtimeMetadata i) (bi_authorizationContext i) (Some NaN).
Example nan_age_never_expires :
  let i := signed_bind key_a "codex" "s1" None "nonce-nonce-nonce-5" (int 0) in
  (run (bindSession i) demo_ledger).2 = Throw (PlainError "principal session proof expired") ∧
  is_Ret (run (bindSession (nan_age i)) demo_ledger).2 = true.
Proof. split; vm_compute; reflexivity. Qed.

(** A rotation to an unusable key throws and leaves the record with the new key and
    the old fingerprint. *)
Example failed_rotation_keeps_key :
  let '(w, r) := run (rotatePrincipalKey (principal_of key_a) (JObj [("kty", JStr "RSA")]) None) after_bind_a in
  is_Ret r = false ∧ pr_publicKeyJwk (record_of (principal_of key_a) w) = JObj [("kty", JStr "RSA")] ∧
  pr_keyFingerprint (record_of (principal_of key_a) w) = pr_keyFingerprint (record_of (principal_of key_a) after_bind_a).
Proof. vm_compute. done. Qed.

(** Closing a session on a stream that does not exist throws, but ends the session
    without an event. *)
Example failed_close_ends_session :
  let '(w, r) := closeSession (principal_of key_a) "stream_none" "s1" after_bind_a in
  is_Ret r = false ∧ pr_activeSessionIds (record_of (principal_of key_a) w) = [] ∧ lw_events w = lw_events after_bind_a.
Proof. vm_compute. done. Qed.

(** Between its creation and its first checkpoint a principal is reported as broken. *)
Example fresh_principal_invalid :
  let w := (upsertPrincipal (jwk_value key_a) (default EmptyString (match computeFingerprint (jwk_value key_a) with Ret f => Some f | _ => None end)) [] demo_ledger).1 in
  cv_valid (verifyPrincipalContinuity (principal_of key_a) w) = false.
Proof. vm_compute. reflexivity. Qed.

(** The query's last [limit] events; a limit of zero is no limit. *)
Definition query_types (limit : Z) (w : LedgerWorld) : list PrincipalEventType :=
  match queryPrincipalEvents (principal_of key_a) limit w with
  | Ret l => List.map (λ e, eb_eventType (ev_base e)) l | Throw _ => [] end.
Example query_examples :
  query_types 1 demo_end = [session_event] ∧ query_types 0 demo_end = [session_bound; session_event].
Proof. split; vm_compute; reflexivity. Qed.

End PrincipalRuns.

(** * Concrete runs of the rollback checkpoint

    A witness held in memory whose reads can be made to fail, and the theorems of
    [RollbackCheckpoint] on runs over it. *)
Module RollbackRuns.
#[local] Open Scope string_scope.
#[local] Open Scope bpc_scope.

(** The rows, and which of the next reads fail. *)
Record MemoryWitness := mkWitness { mw_rows : list (string * CheckpointState); mw_failing : list bool }.

Definition mw_read (ns : string) (t : MemoryWitness) : MemoryWitness * exc jsval :=
  let rest := mkWitness (mw_rows t) (tail (mw_failing t)) in
  match mw_failing t with
  | true :: _ => (rest, Throw (PlainError "connection refused"))
  | _ => (rest, Ret (match om_get ns (mw_rows t) with Some st => state_value st | None => JNull end))
  end.
Definition mw_advance (ns : string) (expected next : CheckpointState) (t : MemoryWitness) : MemoryWitness * exc jsval :=
  if decide (om_get ns (mw_rows t) = Some expected)
  then (mkWitness (om_set ns next (mw_rows t)) (mw_failing t), Ret (state_value next))
  else (t, Throw CheckpointConflictError).
Definition mw_genesis (ns : string) (genesis : CheckpointState) (t : MemoryWitness) : MemoryWitness * exc jsval :=
  match om_get ns (mw_rows t) with
  | Some _ => (t, Throw CheckpointConflictError)
  | None => (mkWitness (om_set ns genesis (mw_rows t)) (mw_failing t), Ret (state_value genesis))
  end.

#[export] Instance memory_witness : MonotonicCheckpoint MemoryWitness := {
  witness_read := mw_read; compareAndAdvance := mw_advance; createGenesis := mw_genesis }.
#[export] Program Instance memory_witness_laws : MonotonicCheckpointLaws MemoryWitness := {
  stored t ns := om_get ns (mw_rows t) }.
Next Obligation. intros ns t. cbn. unfold mw_read. destruct (mw_failing t) as [|[] l]; (split; [done|]); intros v; by intros [= <-]. Qed.
Next Obligation.
  intros ns expected next t. cbn. unfold mw_advance. case_decide as Hd; (split; [intros n Hn|]); [|right|done|by left].
  - by apply om_get_set_ne, not_eq_sym.
  - split; [done|]. cbn. by rewrite om_get_set.
Qed.
Next Obligation.
  intros ns genesis t. cbn. unfold mw_genesis. destruct (om_get ns (mw_rows t)) eqn:Hg; (split; [intros n Hn|]); [done|by left| |right].
  - by apply om_get_set_ne, not_eq_sym.
  - cbn. by rewrite om_get_set.
Qed.

Definition demo_guard : RollbackCheckpointGuard := mkRollbackGuard "bpc:prod".
Definition demo_view (q : Z) : RedisSequenceView := mkView (JStr "epoch-1") (int q).
Definition demo_witness (failing : list bool) : CheckpointWorld MemoryWitness :=
  mkCW (mkWitness [("bpc:prod", mkState "epoch-1" 7)] failing) (λ _ _, Ret true).
Definition empty_witness : CheckpointWorld MemoryWitness := mkCW (mkWitness [] []) (λ _ _, Ret true).

Lemma check_exact_witness :
  (run (check demo_guard (demo_view 6)) (demo_witness [])).2 = Ret v_rollback ∧
  ∃ s e q, view_of (demo_view 6) e q ∧ v_rollback = verdict_of (row (T := MemoryWitness) s (rg_ns demo_guard)) e q.
Proof.
  assert ((run (check demo_guard (demo_view 6)) (demo_witness [])).2 = Ret v_rollback) as Hr by (vm_compute; reflexivity).
  split; [exact Hr|]. destruct (run_exec (check demo_guard (demo_view 6)) (demo_witness [])) as [tr Hex]. rewrite Hr in Hex.
  destruct (check_exact eq demo_guard (demo_view 6) (demo_witness []) tr _ v_rollback Hex) as (s & e & q & _ & Hv & Hverdict & _).
  exists s.1, e, q. split; [exact Hv|exact Hverdict].
Defined.

Lemma reserve_advances_witness :
  (run (reserve demo_guard (demo_view 7)) (demo_witness [])).2 = Ret 8%Z ∧
  ∃ s e q, reserves (T := MemoryWitness) (rg_ns demo_guard) e q s ∧ 8%Z = (q + 1)%Z.
Proof.
  assert ((run (reserve demo_guard (demo_view 7)) (demo_witness [])).2 = Ret 8%Z) as Hr by (vm_compute; reflexivity).
  split; [exact Hr|]. destruct (run_exec (reserve demo_guard (demo_view 7)) (demo_witness [])) as [tr Hex]. rewrite Hr in Hex.
  destruct (reserve_advances eq demo_guard (demo_view 7) (demo_witness []) tr _ 8%Z Hex) as (s0 & s & e & q & _ & _ & _ & Hs & Hn & _).
  exists s, e, q. split; [exact Hs|exact Hn].
Defined.

(** Two guards reserve from one view at once -- one of them meets the conflict -- and
    a third reserves the next number. *)
Definition reserving : list CheckpointOp :=
  [OpReserve demo_guard (demo_view 7); OpReserve demo_guard (demo_view 7); OpReserve demo_guard (demo_view 8)].
Definition reserving_run := sched [0; 1; 0; 1; 2; 2]%nat (checkpoint_op <$> reserving) (demo_witness []).

Lemma reservations_unique_witness :
  reserving_run.2 = [Done (Reserved (Ret 8%Z)); Done (Reserved (Throw CheckpointConflictError)); Done (Reserved (Ret 9%Z))] ∧
  8%Z ≠ 9%Z.
Proof.
  assert (reserving_run.2 = [Done (Reserved (Ret 8%Z)); Done (Reserved (Throw CheckpointConflictError)); Done (Reserved (Ret 9%Z))])
    as Hps by (vm_compute; reflexivity).
  split; [exact Hps|].
  apply (reservations_unique reserving (demo_witness []) reserving_run.1.1 reserving_run.1.2 reserving_run.2 0%nat 2%nat
    demo_guard demo_guard (demo_view 7) (demo_view 8)); [|done|reflexivity..|by rewrite Hps|by rewrite Hps].
  unfold reserving_run. apply sched_snd.
Defined.

Lemma provision_never_reanchors_witness :
  (run (provision demo_guard (JStr "epoch-1")) empty_witness).2 = Ret (state_value (mkState "epoch-1" 0)) ∧
  ∃ s, row (T := MemoryWitness) s.1 (rg_ns demo_guard) = None ∧ row (T := MemoryWitness) s.2 (rg_ns demo_guard) = Some (mkState "epoch-1" 0).
Proof.
  assert ((run (provision demo_guard (JStr "epoch-1")) empty_witness).2 = Ret (state_value (mkState "epoch-1" 0))) as Hr
    by (vm_compute; reflexivity).
  split; [exact Hr|]. destruct (run_exec (provision demo_guard (JStr "epoch-1")) empty_witness) as [tr Hex].
  destruct (provision_never_reanchors eq demo_guard (JStr "epoch-1") empty_witness tr _ _ Hex) as (_ & _ & Hok).
  destruct (Hok _ Hr) as (s0 & s & _ & _ & H1 & H2). exists s. split; [exact H1|exact H2].
Defined.

(** An existing row is refused, whatever epoch is asked for. *)
Example provision_is_no_transition :
  (run (provision demo_guard (JStr "epoch-2")) (demo_witness [])).2 = Throw CheckpointConflictError.
Proof. vm_compute. reflexivity. Qed.

(** An outage during the check is reported as such; an outage during the second read,
    which only words the error of a mismatch, escapes as it is. *)
Example outage_reported : (run (reserve demo_guard (demo_view 6)) (demo_witness [true])).2 = Throw CheckpointUnavailableError.
Proof. vm_compute. reflexivity. Qed.
Example outage_escapes :
  (run (reserve demo_guard (demo_view 6)) (demo_witness [false; true])).2 = Throw (PlainError "connection refused").
Proof. vm_compute. reflexivity. Qed.

(** A reservation whose mirror write is lost is a rollback from then on. *)
Example unmirrored_reservation :
  let w := (run (reserve demo_guard (demo_view 7)) (demo_witness [])).1 in
  (run (check demo_guard (demo_view 7)) w).2 = Ret v_rollback ∧ (run (check demo_guard (demo_view 8)) w).2 = Ret v_ok.
Proof. vm_compute. done. Qed.

End RollbackRuns.

(** * Concrete runs of the credential cache

    The Windows protector over a PowerShell that prints back what it is given, the
    in-memory store, and the theorems of [AgentCache] on runs over them. *)
Module AgentCacheRuns.
#[local] Open Scope string_scope.
#[local] Open Scope bpc_scope.

Lemma atob_btoa s : atob (btoa s) = Ret s.
Proof.
  unfold btoa. rewrite atob_padded; [|apply b64_enc_bound, codes_bound|apply length_b64_enc_mod].
  by rewrite b64_dec_enc, of_codes_codes by apply codes_bound.
Qed.

#[export] Instance demo_base64 : NodeBase64 := {
  from_base64 s := match atob s with Ret b => b | Throw _ => EmptyString end }.
#[export] Instance demo_base64_laws : NodeBase64Laws demo_base64.
Proof. split. intros b. cbn. by rewrite atob_btoa. Qed.

Definition windows (platform : string) : WindowsCurrentUserDpapiProtector :=
  mkWindows platform (λ _ b64, Ret (b64 +:+ String "010"%char EmptyString)).

Lemma drop_space_solid l : Forall (λ c, is_js_space c = false) l → drop_space l = l.
Proof. intros [|c r Hc _]; [done|]. simpl. by rewrite Hc. Qed.

Lemma trim_line s : Forall (λ c, is_js_space c = false) (chars s) → trim (s +:+ String "010"%char EmptyString) = s.
Proof.
  intros Hs. unfold trim. rewrite chars_app. destruct (decide (s = EmptyString)) as [->|Hn]; [by vm_compute|].
  assert (drop_space (chars s ++ ["010"%char]) = chars s ++ ["010"%char])%list as Hd.
  { destruct s as [|c s]; [done|]. apply Forall_cons in Hs as [Hc _]. simpl. by rewrite Hc. }
  change (chars (String "010"%char EmptyString)) with ["010"%char]. rewrite Hd, reverse_snoc.
  change (drop_space ("010"%char :: reverse (chars s))) with (drop_space (reverse (chars s))).
  rewrite drop_space_solid by (by rewrite Forall_reverse). by rewrite reverse_involutive, unchars_chars.
Qed.

Lemma windows_runs operation b : b ≠ EmptyString → runDpapi operation b (windows "win32") = Ret b.
Proof.
  intros Hb. unfold runDpapi. cbn [wp_powershell windows mbind exc_bind]. rewrite trim_line by apply btoa_solid.
  rewrite decide_False by (by apply btoa_nonempty). by rewrite from_base64_btoa.
Qed.

(** This process on this platform. *)
#[export] Instance demo_protector : DpapiProtector unit := {
  dp_scope _ := "CurrentUser";
  protect b u := (u, windows_protect b (windows "win32")); unprotect c u := (u, windows_unprotect c (windows "win32")) }.

Lemma windows_protects b c : windows_protect b (windows "win32") = Ret c → c = b ∧ b ≠ EmptyString.
Proof.
  destruct (decide (b = EmptyString)) as [->|Hb]; [by vm_compute|].
  unfold windows_protect. rewrite decide_False by (by intros []). rewrite windows_runs by done. by intros [= ->].
Qed.

#[export] Program Instance demo_protector_laws : DpapiProtectorLaws unit := { same_identity _ _ := True }.
Next Obligation. done. Qed.
Next Obligation. intros b p p1 r. cbn. by intros [= <- _]. Qed.
Next Obligation.
  intros b p p1 p2 c. cbn. intros [= _ Hc] _. apply windows_protects in Hc as [-> Hb].
  unfold windows_unprotect. rewrite decide_False by (by intros []). by rewrite windows_runs.
Qed.
Next Obligation. intros b p p1 c. cbn. intros [= _ Hc] ->. by apply windows_protects in Hc as [-> ?]. Qed.

(** ** A credential, written and read *)

Definition demo_material : jsval := JObj [("token", JStr "t-1"); ("2", JNull)].
Definition demo_input (material : option jsval) : CreateAgentCredentialCacheEntryInput :=
  mkCreate (JStr "principal_1") (JStr "binding") (JStr "policy") (JStr "permissions") (JNum (int 5000)) material None.
Definition demo_expected (policy : string) (now : option num) : AgentCredentialCacheExpectedState :=
  mkExpected (JStr "principal_1") (JStr "binding") (JStr policy) (JStr "permissions") now.
Definition demo_entry (material : jsval) : AgentCredentialCacheEntry :=
  mkEntry (JStr "1") "principal_1" "binding" "policy" "permissions" (Dec 5000 0) (Dec 1000 0) material.

Notation CW := (CacheWorld unit MemoryAgentCredentialCacheStore).
Definition demo_cache : CW := mkCacheWorld 1000 tt [].
Definition written (material : option jsval) : CW * exc jsval := run (cache_write "agent-1" (demo_input material)) demo_cache.
Definition at_time (now : Z) (w : CW) : CW := mkCacheWorld now (aw_protector w) (aw_store w).
Definition demo_w (now : Z) : CW := at_time now (written (Some demo_material)).1.
Definition demo_read (policy : string) (now : option num) : proc CW (exc AgentCredentialCacheEntry) :=
  cache_read "agent-1" (demo_expected policy now).

Lemma cache_read_sound_witness :
  (run (demo_read "policy" None) (demo_w 4999)).2 = Ret (reread (demo_entry demo_material)) ∧
  ∃ clock, (int clock = NaN ∨ num_ltb (int clock) (Fin (Dec 5000 0)) = true) ∧ agrees "policy" (JStr "policy").
Proof.
  assert ((run (demo_read "policy" None) (demo_w 4999)).2 = Ret (reread (demo_entry demo_material))) as Hr by (vm_compute; reflexivity).
  split; [exact Hr|]. destruct (run_exec (demo_read "policy" None) (demo_w 4999)) as [tr Hex]. rewrite Hr in Hex.
  pose proof (cache_read_sound eq "agent-1" (demo_expected "policy" None) (demo_w 4999) tr _ _ Hex) as Hs.
  destruct Hs as (s1 & s2 & s3 & sealed & c & pt & parsed & _ & _ & _ & _ & _ & _ & _ & _ & _ & Hexp & _ & _ & Hag & _).
  exists (aw_now s3.1). split; [exact Hexp|exact Hag].
Defined.

Lemma cache_read_fails_closed_witness :
  (run (demo_read "policy-2" None) (demo_w 4999)).2 = tampered "policy_digest mismatch" ∧
  is_cache_error (CacheTamperedError "agent credential cache policy_digest mismatch") = true.
Proof.
  assert ((run (demo_read "policy-2" None) (demo_w 4999)).2 = tampered "policy_digest mismatch") as Hr by (vm_compute; reflexivity).
  split; [exact Hr|]. destruct (run_exec (demo_read "policy-2" None) (demo_w 4999)) as [tr Hex]. rewrite Hr in Hex.
  pose proof (cache_read_fails_closed eq "agent-1" (demo_expected "policy-2" None) (demo_w 4999) tr _ _ Hex) as Hs.
  destruct Hs as [H|_]; [exact H|reflexivity].
Defined.

Lemma cache_roundtrip_witness :
  ∃ tr s, exec eq (demo_read "policy" None) (demo_w 4999) tr (demo_w 4999) (Ret (reread (demo_entry demo_material))) ∧
    last tr = Some s ∧ dec_le_num (Dec 5000 0) (int (aw_now s.1)) = false.
Proof.
  set (u := demo_w 4999).
  assert (exec eq (demo_read "policy" None) u [(u, u); (u, u); (u, u)] u (Ret (reread (demo_entry demo_material)))) as Hex.
  { do 3 (econstructor; [reflexivity|vm_compute; reflexivity|]). vm_compute. constructor. }
  destruct (cache_roundtrip eq "agent-1" (demo_input (Some demo_material)) demo_cache (written (Some demo_material)).1
    (default JUndef (match (written (Some demo_material)).2 with Ret v => Some v | _ => None end))
    (demo_expected "policy" None) u [(u, u); (u, u); (u, u)] u
    (Ret (reread (demo_entry demo_material))) (demo_entry demo_material)) as (s & Hs & Hx); [..|exact Hex| |].
  - vm_compute. reflexivity.
  - vm_compute. reflexivity.
  - vm_compute. split; [|done]. apply (bool_decide_unpack _). reflexivity.
  - split; [by left|by vm_compute].
  - split; [by left|by vm_compute].
  - repeat (constructor; [vm_compute; done|]). constructor.
  - exists [(u, u); (u, u); (u, u)], s. split; [exact Hex|]. split; [exact Hs|]. injection Hs as <-. reflexivity.
Defined.

(** Reading later, under another identity's policy, a record that was altered, or on
    another platform. *)
Example cache_refusals :
  (run (demo_read "policy" None) (demo_w 5000)).2 = Throw CacheExpiredError ∧
  (run (cache_read "agent-2" (demo_expected "policy" None)) (demo_w 4999)).2 =
    Throw (CacheUnavailableError "agent credential cache entry unavailable") ∧
  (run (cache_read " " (demo_expected "policy" None)) (demo_w 4999)).2 =
    Throw (CacheUnavailableError "agent credential cache key is required") ∧
  (run (openAgentCredentialCacheEntry (sealed_value (Dec 1000 0) "not json") (demo_expected "policy" None)) (demo_w 4999)).2 =
    tampered "payload is not valid JSON" ∧
  windows_protect "x" (windows "linux") = only_on_windows.
Proof. vm_compute. done. Qed.

(** [credentialMaterial: undefined] is an own property, so it is sealed; its text has
    no such member, so it is never opened. *)
Example undefined_material_unreadable :
  let '(w, r) := written (Some JUndef) in
  (∃ sealed, r = Ret sealed) ∧
  (run (demo_read "policy" None) (at_time 1500 w)).2 = tampered "payload missing credential material".
Proof. vm_compute. split; [by eexists|done]. Qed.

(** [nowMs] of the expected state is not checked: with NaN no entry expires. *)
Example nan_now_never_expires :
  (run (demo_read "policy" (Some NaN)) (demo_w 9000)).2 = Ret (reread (demo_entry demo_material)).
Proof. vm_compute. reflexivity. Qed.

(** A sealed payload may name a checkpoint and a credential version: neither is read,
    so a mismatch goes unnoticed. *)
Definition demo_payload : list (string * jsval) :=
  match entry_value (demo_entry demo_material) with JObj l => l | _ => [] end.
Theorem checkpoint_and_version_unread checkpoint version :
  entry_of (JObj (demo_payload ++ [("checkpoint_hash", checkpoint); ("credential_version", version)])%list) =
  Ret (demo_entry demo_material) ∧ entry_of (JObj demo_payload) = Ret (demo_entry demo_material).
Proof. split; vm_compute; reflexivity. Qed.

(** The hash covers the context with its keys sorted. *)
Example permissions_hash_sorted : computePermissionsHash (JObj [("b", JNull); ("a", JBool true)]) =
  computePermissionsHash (JObj [("a", JBool true); ("b", JNull)]).
Proof. reflexivity. Qed.

End AgentCacheRuns.
