(* ===== verification/WriteExamples.v ===== *)
(** * Concrete runs of the write authority

    Witnesses and examples for the Redis fence ([FenceRuns]), for leases, cutovers
    and the write check ([CutoverRuns]), and for snapshots and promotion
    ([SnapshotRuns]). *)

From S2P Require Import Prelude Proc JsNum Encoding Json JsText Crypto ToyCrypto OutboxContract OutboxPg HttpTransport HaSigned RedisFence FenceSafety SourceLease LeaseSafety Cutover CutoverSafety WriteFence WriteSafety Snapshot SnapshotSafety OutboxExamples HttpExamples.
From stdpp Require Import base gmap strings list sorting relations.
From Stdlib Require Import ZArith Lia.

(** * Concrete runs of the Redis fence

    Toy Ed25519 keys, five members, claims and reads whose commands and answers are
    partly lost. *)
Module FenceRuns.
#[local] Open Scope string_scope.

(** ** Keys *)

(** A key is its name and whether it is the private half. *)
#[export] Instance demo_ed : Ed25519 := {
  KeyObject := string * bool;
  key_type k := if k.2 then "private" else "public";
  asymmetricKeyType _ := "ed25519";
  ed_sign k m := toy_hash (k.1 +:+ m);
  ed_verify k m s := bool_decide (s = toy_hash (k.1 +:+ m));
}.
Lemma demo_ed_pair name : ed_pair (name, true) (name, false).
Proof. intros m. cbn. by rewrite bool_decide_true. Qed.

Definition guard_key : KeyObject := ("guard", true).
Definition guard_resolver (id : string) : option KeyObject :=
  om_get id [("guard-1", ("guard", false)); ("source-1", ("source", false)); ("node-key-1", ("node", false))].

(** ** Claims *)

Definition demo_fence (epoch : Z) (node command : string) : RedisFenceRecord :=
  let bare := mkFenceRecord "pairs" epoch node "7001" "node-key-1" command 1000 EmptyString EmptyString in
  match signRedisFenceRecord "guard-1" guard_key bare with Ret r => r | Throw _ => bare end.
Definition fence_e1 : RedisFenceRecord := demo_fence 1 "node-a" "cmd-1".
Definition fence_e2 : RedisFenceRecord := demo_fence 2 "node-b" "cmd-2".
Definition fence_e2' : RedisFenceRecord := demo_fence 2 "node-c" "cmd-3".

Definition fates (l : list CommandFate) (i : nat) : CommandFate := default Answered (l !! i).
Definition fence_start : FenceWorld :=
  mkFenceWorld (replicate 5 (Some (fence_text fence_e1))) (fates [Answered; Answered; AnswerLost; NotRun]).
(** Every member's turn: the first claim at all members but the last, then the
    second claim at all, then the last. *)
Definition demo_order : list nat := [0; 1; 2; 3; 5; 6; 7; 8; 9; 4]%nat.
Definition results {A} (ps : list (proc FenceWorld (exc A))) : list (exc A) :=
  omap (λ p, match p with Done r => Some r | Step _ => None end) ps.
Definition two_claims (r r' : RedisFenceRecord) : list (exc bool) :=
  results (sched demo_order (claims guard_resolver 5 r ++ claims guard_resolver 5 r') fence_start).2.

(** Two nodes claim epoch 2: each is granted by some members, only one by enough. *)
Example one_winner :
  let rs := two_claims fence_e2 fence_e2' in
  granted 5 (take 5 rs) = false ∧ granted 5 (drop 5 rs) = false ∧
  rs = [Ret true; Ret true; lost; lost; Ret false; Ret false; Ret false; lost; lost; Ret true].
Proof. vm_compute. done. Qed.

Lemma fence_quorum_exclusive_witness :
  let rs := two_claims fence_e2 fence_e2 in
  granted 5 (take 5 rs) = true ∧ granted 5 (drop 5 rs) = true ∧ fence_e2 = fence_e2.
Proof.
  intros rs. split; [by vm_compute|]. split; [by vm_compute|].
  eapply (fence_quorum_exclusive guard_resolver 5 fence_e2 fence_e2 (take 5 rs) (drop 5 rs) fence_start).
  1-3: by vm_compute.
  1: match goal with |- pool_run _ ?ps ?w _ _ ?qs => 
       assert ((sched demo_order ps w).2 = qs) as <- by (vm_compute; reflexivity) end; apply sched_snd.
  all: by vm_compute.
Defined.

(** ** A claim, then a read *)

Definition claim_run := sched [4; 2; 0; 3; 1]%nat (claims guard_resolver 5 fence_e2) fence_start.
Definition read_run := sched [1; 0; 4; 2; 3]%nat (currents guard_resolver 5) claim_run.1.2.

Example read_value : rawCurrent 5 (results read_run.2) = Ret (fence_value fence_e2).
Proof. vm_compute. reflexivity. Qed.

Lemma claim_then_read :
  pool_run member_moves (claims guard_resolver 5 fence_e2) fence_start claim_run.1.1 claim_run.1.2 (Done <$> results claim_run.2) ∧
  pool_run member_moves (currents guard_resolver 5) claim_run.1.2 read_run.1.1 read_run.1.2 (Done <$> results read_run.2).
Proof.
  split.
  - assert (claim_run.2 = Done <$> results claim_run.2) as <- by (vm_compute; reflexivity).
    exact (sched_snd member_moves _ (claims guard_resolver 5 fence_e2) fence_start).
  - assert (read_run.2 = Done <$> results read_run.2) as <- by (vm_compute; reflexivity).
    exact (sched_snd member_moves _ (currents guard_resolver 5) claim_run.1.2).
Qed.

(** The answers of a minority are not enough: the read fails closed. *)
Example read_minority : rawCurrent 5 [Ret (Some (fence_value fence_e2)); Ret (Some (fence_value fence_e1)); lost; lost;
    Ret (Some (fence_value fence_e2))] = contract_error "Redis fence quorum has no authoritative majority (fail closed)".
Proof. vm_compute. reflexivity. Qed.

End FenceRuns.

(** * A promotion, run

    Leases of epoch 1, the genesis of the Redis fence, a cutover from node-a to node-b
    through its three phases, the ACTIVE receipt installed at node-b, and the checks
    of both sources. *)
Module CutoverRuns.
Import FenceRuns.
#[local] Open Scope string_scope.

(** ** The leases of epoch 1 *)

Lemma rtc_join {A} (R : A → A → Prop) x y z : rtc R x y → rtc R y z → rtc R x z.
Proof. intros H H'. by etrans. Qed.

Definition get {A} (x : A) (r : exc A) : A := match r with Ret a => a | Throw _ => x end.
Definition bare_grant (status command : string) (seq expires : Z) (prev : option string) : SourceLeaseGrant :=
  mkGrant "pairs" 1 status "node-a" "lease-a" command expires 1000 seq prev EmptyString EmptyString EmptyString.
Definition demo_grant (status command : string) (seq expires : Z) (prev : option string) : SourceLeaseGrant :=
  let g := bare_grant status command seq expires prev in get g (signSourceLeaseGrant "guard-1" guard_key g).
Definition grant_1 : SourceLeaseGrant := demo_grant "active" "grant-1" 1 9000 None.
Definition grant_2 : SourceLeaseGrant := demo_grant "active" "renew-2" 2 10000 (Some (sl_grantDigest grant_1)).
Definition grant_3 : SourceLeaseGrant := demo_grant "revoked" "revoke-3" 3 10000 (Some (sl_grantDigest grant_2)).

Definition install (g : SourceLeaseGrant) (f : fate) (d : LeaseDb) : LeaseDb :=
  (transaction f (installSourceLeaseGrant guard_resolver g) d).1.
Lemma install_step g f d : lease_step d (install g f d).
Proof. by exists guard_resolver, g, f. Qed.

(** The revocation is committed at its second attempt, and offered a third time. *)
Definition leases_1 : LeaseDb := install grant_1 Committed lease_empty.
Definition leases_2 : LeaseDb := install grant_2 (CommitLost (PgError "connection lost")) leases_1.
Definition leases_3 : LeaseDb := install grant_3 Committed (install grant_3 Committed (install grant_3 (Aborted (PgError "serialization")) leases_2)).
Lemma leases_reach : rtc lease_step lease_empty leases_1 ∧ rtc lease_step leases_1 leases_2 ∧ rtc lease_step leases_2 leases_3.
Proof.
  split_and!; [apply rtc_once, install_step..|].
  eapply rtc_l; [apply (install_step grant_3 (Aborted (PgError "serialization")))|].
  eapply rtc_l; [apply (install_step grant_3 Committed)|]. apply rtc_once, install_step.
Qed.

(** A revoked epoch is not reactivated, and another node is not let in. *)
Example lease_rules :
  ld_history leases_3 = [grant_1; grant_2; grant_3] ∧
  (installSourceLeaseGrant guard_resolver (demo_grant "active" "grant-4" 4 20000 (Some (sl_grantDigest grant_3))) leases_3).2 =
    contract_error "revoked epoch cannot reactivate".
Proof. by split; vm_compute. Qed.

Lemma lease_history_safe_witness : lease_inv leases_3 ∧ ∃ l, ld_history leases_3 = (ld_history leases_2 ++ l)%list.
Proof. destruct leases_reach as (H1 & H2 & H3). exact (lease_history_safe leases_2 leases_3 (rtc_join _ _ _ _ H1 H2) H3). Defined.

(** ** The cutover *)

Definition demo_digest (s : string) : string := sha256_hex s.
Definition demo_intent : CutoverIntent :=
  mkIntent "pairs" "cmd-2" 1 2 "node-b" "e2" (demo_digest "manifest") 3 (demo_digest "state")
    (get EmptyString (redisFenceRecordDigest (fence_value fence_e2))) (sl_grantDigest grant_3) 10000 1000.

Definition control_1 : ControlDb := set_lease_db leases_3 control_empty.
Definition genesis : tx ControlDb unit := get (tret tt) (bootstrapGenesis guard_resolver fence_e1).
Definition control_2 : ControlDb := (transaction Committed genesis control_1).1.
Definition control_3 : ControlDb := (transaction Committed (begin_tx guard_resolver "guard-1" guard_key demo_intent) control_2).1.
Definition demo_fence_tx (now : Z) : tx ControlDb CutoverReceipt :=
  fence_tx guard_resolver "guard-1" guard_key 25 now (Some (Ret (fence_value fence_e2))) "cmd-2".
Definition control_4 : ControlDb := (transaction Committed (demo_fence_tx 11025) control_3).1.
Definition control_5 : ControlDb := (transaction Committed (activate_tx guard_resolver "guard-1" guard_key "cmd-2") control_4).1.

Lemma genesis_ok : bootstrapGenesis guard_resolver fence_e1 = Ret genesis.
Proof.
  assert (match bootstrapGenesis guard_resolver fence_e1 with Ret _ => true | Throw _ => false end = true) as H by (vm_compute; reflexivity).
  unfold genesis. by destruct (bootstrapGenesis guard_resolver fence_e1).
Qed.

Lemma control_lease_steps l l' d : rtc lease_step l l' → rtc control_step (set_lease_db l d) (set_lease_db l' d).
Proof.
  induction 1 as [l|l l1 l' Hs _ IH]; [done|]. eapply rtc_l; [|exact IH].
  exact (step_lease (set_lease_db l d) l1 Hs).
Qed.
Lemma control_moves : control_step control_1 control_2 ∧ control_step control_2 control_3 ∧ control_step control_3 control_4 ∧
  control_step control_4 control_5.
Proof.
  split_and!.
  - exact (step_genesis control_1 guard_resolver fence_e1 genesis Committed genesis_ok).
  - exact (step_begin control_2 guard_resolver "guard-1" guard_key demo_intent Committed).
  - exact (step_fence control_3 guard_resolver "guard-1" guard_key 25 11025 (Some (Ret (fence_value fence_e2))) "cmd-2" Committed).
  - exact (step_active control_4 guard_resolver "guard-1" guard_key "cmd-2" Committed).
Qed.
Lemma control_3_reach : rtc control_step control_empty control_3.
Proof.
  destruct leases_reach as (H1 & H2 & H3). destruct control_moves as (M1 & M2 & _).
  assert (rtc control_step control_1 control_3) as M by (eapply rtc_l; [exact M1|apply rtc_once; exact M2]).
  refine (rtc_join _ _ _ _ (control_lease_steps lease_empty leases_3 control_empty _) M).
  exact (rtc_join _ _ _ _ H1 (rtc_join _ _ _ _ H2 H3)).
Qed.
Lemma control_5_reach : rtc control_step control_3 control_5.
Proof. destruct control_moves as (_ & _ & M3 & M4). eapply rtc_l; [exact M3|apply rtc_once; exact M4]. Qed.

Example demo_phases : (cr_phase <$> cn_history control_5) = ["PREPARING"; "FENCED"; "ACTIVE"] ∧ witness_at "pairs" control_5 = 2%Z ∧
  (demo_fence_tx 11024 control_3).2 = contract_error "old source lease expiry plus signed transaction window has not been proven".
Proof. by split_and!; vm_compute. Qed.

Lemma cutover_history_safe_witness : cutover_inv control_5 ∧ grows control_3 control_5.
Proof. destruct (cutover_history_safe control_3 control_5 control_3_reach control_5_reach) as (H1 & H2 & _). exact (conj H1 H2). Defined.

(** ** The retry that is refused *)

Definition active_receipt : CutoverReceipt :=
  default (mkReceipt demo_intent EmptyString None EmptyString EmptyString EmptyString) (cn_head control_5 !! "pairs").
Definition collide_test (r r' : CutoverReceipt) : bool :=
  match cutoverMessage (cr_intent r) (cr_phase r) (cr_prevStateDigest r) EmptyString,
        cutoverMessage (cr_intent r') (cr_phase r') (cr_prevStateDigest r') EmptyString with
  | Ret m, Ret m' => bool_decide (m ≠ m' ∧ sha256 m = sha256 m')
  | _, _ => false
  end.
Lemma collide_test_false r r' : collide_test r r' = false → ¬ receipts_collide r r'.
Proof. unfold collide_test. intros H (m & m' & Hm & Hm' & Hc). rewrite Hm, Hm' in H. apply bool_decide_eq_false in H. by apply H. Qed.

Lemma fence_retry_after_active_witness :
  (demo_fence_tx 11025 control_5).2 = contract_error "FENCED retry lost its signed PostgreSQL witness" ∧
  ∃ e, (demo_fence_tx 11025 control_5).2 = Throw e.
Proof.
  split; [by vm_compute|]. unfold demo_fence_tx.
  refine (fence_retry_after_active guard_resolver "guard-1" guard_key 25 11025 (Some (Ret (fence_value fence_e2))) "cmd-2" control_5
    active_receipt (rtc_join _ _ _ _ control_3_reach control_5_reach) _ _ _).
  - vm_compute. reflexivity.
  - vm_compute. reflexivity.
  - intros f Hf. apply collide_test_false. apply list_elem_of_In in Hf.
    assert (forallb (λ f, negb (collide_test f active_receipt)) (cn_history control_5) = true) as Hall by (vm_compute; reflexivity).
    exact (proj1 (negb_true_iff _) (proj1 (forallb_forall _ _) Hall f Hf)).
Defined.

(** ** The two sources *)

Definition node_prove (challenge : string) : exc string := signNodeIdentityChallenge "node-key-1" ("node", true) challenge.
Definition binding_of (g : SourceLeaseGrant) (skew : Z) : SourceLeaseBinding :=
  mkBinding "pairs" 1 "node-a" "7001" "node-key-1" "lease-a" (sl_grantDigest g)
    (get EmptyString (redisFenceRecordDigest (fence_value fence_e1))) skew 1000 None.
Definition source_a (l : LeaseDb) : SourceDb := mkSourceDb l ∅ "7001".
Definition a_check (g : SourceLeaseGrant) (l : LeaseDb) (now : Z) : exc unit :=
  assertWritableInTx guard_resolver (binding_of g 25) (Ret tt) now (Ret (fence_value fence_e1)) "n1" node_prove (source_a l).

Example a_checks :
  a_check grant_2 leases_2 9974 = Ret tt ∧ a_check grant_2 leases_2 9975 = contract_error "source lease expired (fail closed)" ∧
  a_check grant_2 leases_3 5000 = contract_error "source lease binding is stale or revoked".
Proof. by split_and!; vm_compute. Qed.

(** Two reads of the quorum, interleaved, and the write checks on them: of the
    source, and of its database after a renewal of the lease. *)
Definition two_reads_run := sched demo_order (currents guard_resolver 5 ++ currents guard_resolver 5) fence_start.
Definition first_read := take 5 (results two_reads_run.2).
Definition second_read := drop 5 (results two_reads_run.2).

Lemma writers_exclusive_witness :
  let b := binding_of grant_1 25 in let b' := binding_of grant_2 30 in
  sd_systemId (source_a leases_1) = sd_systemId (source_a leases_2) ∧ (sb_epoch b <= sb_epoch b')%Z.
Proof.
  intros b b'. destruct leases_reach as (H1 & H2 & _).
  destruct (writers_exclusive guard_resolver 5 first_read second_read fence_start two_reads_run.1.1 two_reads_run.1.2
    (λ _, Ret tt) (λ _, Ret tt) b b' (Ret tt) (Ret tt) 4000 5000 "n1" "n2" node_prove node_prove (source_a leases_1) (source_a leases_2))
    as [Hsame Horder]; [|vm_compute; reflexivity..|].
  - assert (two_reads_run.2 = (Done <$> first_read) ++ (Done <$> second_read))%list as <- by (vm_compute; reflexivity). apply sched_snd.
  - split; [by apply Hsame|by apply Horder].
Defined.

Lemma fenced_after_writes_witness : (9974 + 25 + 1000 + 25 < 11025)%Z.
Proof.
  apply (fenced_after_writes guard_resolver "guard-1" guard_key 25 11025 (Some (Ret (fence_value fence_e2))) "cmd-2" control_3
           control_4 (get active_receipt (demo_fence_tx 11025 control_3).2) (binding_of grant_2 25) (Ret tt) 9974
           (Ret (fence_value fence_e1)) "n1" node_prove (source_a leases_2) grant_2).
  - exact control_3_reach.
  - vm_compute. reflexivity.
  - vm_compute. reflexivity.
  - vm_compute. reflexivity.
  - vm_compute. reflexivity.
  - vm_compute. reflexivity.
  - apply (list_elem_of_lookup_2 _ 1%nat). vm_compute. reflexivity.
Defined.

(** ** The promoted source *)

Definition readiness : PromotionReadinessAttestation :=
  let bare d sg := mkReadiness "pairs" "cmd-2" 2 "e2" "7001" "source-1" (demo_digest "manifest") 3 (demo_digest "state")
    (default EmptyString (cr_prevStateDigest active_receipt)) "source-1" d sg in
  get (bare EmptyString EmptyString)
    (m ← promotionAttestationMessage (bare EmptyString EmptyString) EmptyString;
     m' ← promotionAttestationMessage (bare (sha256_hex m) EmptyString) (sha256_hex m);
     signature ← sign "source-1" ("source", true) m';
     Ret (bare (sha256_hex m) signature)).
Definition grant_b : SourceLeaseGrant :=
  let g := mkGrant "pairs" 2 "active" "node-b" "lease-b" "grant-b" 30000 1000 1 None EmptyString EmptyString EmptyString in
  get g (signSourceLeaseGrant "guard-1" guard_key g).
Definition source_b : SourceDb :=
  (installActiveCutoverReceipt guard_resolver Committed active_receipt readiness
     (mkSourceDb (install grant_b Committed lease_empty) ∅ "7001")).1.
Definition binding_b : SourceLeaseBinding :=
  mkBinding "pairs" 2 "node-b" "7001" "node-key-1" "lease-b" (sl_grantDigest grant_b)
    (ci_redisClaimDigest demo_intent) 25 1000 (Some (cr_stateDigestSigned active_receipt)).

(** [markActive] as the program runs it: three transactions. *)
Example demo_markActive :
  let '(d, r) := run (markActive guard_resolver "guard-1" guard_key fst guard_resolver Committed Committed Committed "cmd-2" readiness) control_4 in
  r = Ret active_receipt ∧ cn_attestation d !! "cmd-2" = Some readiness.
Proof. vm_compute. done. Qed.

Lemma stale_source_refused_witness : (rf_epoch fence_e2 <= sb_epoch binding_b)%Z ∧
  (sb_epoch binding_b = rf_epoch fence_e2 → sb_streamId binding_b = rf_streamId fence_e2 ∧ sb_holderNodeId binding_b = rf_nodeId fence_e2 ∧
     sb_nodeCredentialKeyId binding_b = rf_nodeCredentialKeyId fence_e2 ∧ sd_systemId source_b = rf_authoritySystemId fence_e2).
Proof.
  refine (stale_source_refused guard_resolver 5 fence_e2 (results claim_run.2) (results read_run.2) fence_start claim_run.1.1 claim_run.1.2
            read_run.1.1 read_run.1.2 (λ record, witness_verify guard_resolver record control_5) binding_b (Ret tt) 20000 "n2" node_prove source_b
            _ (proj1 claim_then_read) _ (proj2 claim_then_read) _); vm_compute; reflexivity.
Defined.

(** With the genesis lease and record, the old source is refused once the quorum
    stores the record of epoch 2. *)
Example old_source_refused :
  assertWritableInTx guard_resolver (binding_of grant_2 25) (Ret tt) 5000
    (quorum_current (λ record, witness_verify guard_resolver record control_5) 5 (results read_run.2)) "n3" node_prove (source_a leases_2) =
  contract_error "external Redis fence authority is missing, stale, or conflicting".
Proof. vm_compute. reflexivity. Qed.

(** ** Corners *)

(** The genesis record is no longer acknowledged once a cutover is prepared, while the
    source of a later epoch keeps its authority until the cutover is fenced. *)
Example genesis_ends_at_preparing :
  witness_verify guard_resolver (fence_value fence_e1) control_2 = Ret tt ∧
  witness_verify guard_resolver (fence_value fence_e1) control_3 = contract_error "signed FENCED witness history missing".
Proof. by split; vm_compute. Qed.

(** A cutover from epoch 0 is admitted for a stream without genesis; after that the
    genesis is refused, and so is any other cutover. *)
Definition zero_intent : CutoverIntent :=
  mkIntent "pairs" "cmd-0" 0 1 "node-b" "e2" (demo_digest "manifest") 3 (demo_digest "state") (demo_digest "claim") (demo_digest "lease") 10000 1000.
Definition zero_control : ControlDb := (transaction Committed (begin_tx guard_resolver "guard-1" guard_key zero_intent) control_1).1.
Example zero_is_stuck :
  (cr_phase <$> cn_history zero_control) = ["PREPARING"] ∧
  (genesis zero_control).2 = contract_error "genesis witness epoch must be a safe integer in [1, 1099511627776]" ∧
  (begin_tx guard_resolver "guard-1" guard_key demo_intent zero_control).2 = contract_error "another cutover intent is already authoritative".
Proof. by split_and!; vm_compute. Qed.

End CutoverRuns.

(** * A snapshot, imported and promoted

    Two committed records of a source, its signed snapshot, the import into an empty
    receiver and the promotion of that receiver. *)
Module SnapshotRuns.
Import FenceRuns.
Import CutoverRuns.
#[local] Open Scope string_scope.
#[local] Open Scope bpc_scope.

Definition count_text (n : Z) : string := z_to_string n.
Definition no_pending (_ : Z) : string := "[]".
Definition one_append (op : string) : tx (PgDb Z) OutboxRecordHeader :=
  do! app_write (λ n, Ret (n + 1)%Z) in appendInTx demo_opts "pairs" (demo_raw op) 1.
Definition snap_source : PgDb Z :=
  (transaction Committed (one_append "b") (transaction Committed (one_append "a") (demo_db 0)).1).1.
Definition no_manifest : PairSnapshotManifest := mkManifest EmptyString EmptyString 0 EmptyString EmptyString EmptyString 0 EmptyString EmptyString.
Definition snap_bundle : PairSnapshotBundle :=
  get (mkBundle no_manifest []) (buildPairSnapshotBundle count_text no_pending "7000" "pairs" 2 "source-1" ("source", true) 1000 snap_source).
Definition snap_receiver : PgDb Z * exc unit :=
  importPairSnapshotBundle count_text no_pending (λ n, n) (λ _, 0%Z) demo_apply guard_resolver Committed snap_bundle (demo_db 0).

(** The import is refused on a receiver that has pairs, and of an altered record. *)
Example import_refused :
  (importPairSnapshotBundle count_text no_pending (λ n, n) (λ _, 0%Z) demo_apply guard_resolver Committed snap_bundle (demo_db 1)).2 =
    contract_error "snapshot import requires an empty pair authority" ∧
  (importPairSnapshotBundle count_text no_pending (λ n, n) (λ _, 0%Z) demo_apply guard_resolver Committed
     (mkBundle (bu_manifest snap_bundle) (reverse (bu_records snap_bundle))) (demo_db 0)).2 =
    contract_error "snapshot history digest/length mismatch".
Proof. by split; vm_compute. Qed.

Lemma import_promotable_witness :
  snap_receiver.2 = Ret tt ∧
  check_receiver count_text no_pending (bu_manifest snap_bundle) (bu_records snap_bundle) snap_receiver.1 = Ret tt.
Proof.
  assert (importPairSnapshotBundle count_text no_pending (λ n, n) (λ _, 0%Z) demo_apply guard_resolver Committed snap_bundle (demo_db 0) =
          (snap_receiver.1, Ret tt)) as H by (vm_compute; reflexivity).
  split; [vm_compute; reflexivity|].
  destruct (import_promotable count_text no_pending (λ n, n) (λ _, 0%Z) demo_apply guard_resolver snap_bundle Committed (demo_db 0)
    snap_receiver.1 H) as (_ & _ & _ & Hc); [|exact Hc]. intros q. apply lookup_empty.
Defined.

Definition snap_intent : CutoverIntent :=
  mkIntent "pairs" "cmd-2" 1 2 "node-b" "e2" (get EmptyString (pairSnapshotManifestDigest (bu_manifest snap_bundle))) 2
    (sm_stateDigest (bu_manifest snap_bundle)) (demo_digest "claim") (demo_digest "lease") 10000 1000.
Definition snap_fenced : CutoverReceipt :=
  get active_receipt (signCutoverReceipt "guard-1" guard_key snap_intent "FENCED" (Some (demo_digest "preparing"))).
Definition snap_ha : HaDb Z := mkHaDb snap_receiver.1 ∅.
Definition snap_promote (f : fate) (d : HaDb Z) : HaDb Z * exc unit :=
  promoteReceiverToSource count_text no_pending guard_resolver guard_resolver f snap_bundle 2 "e2" snap_fenced d.

Lemma promotion_exact_witness :
  (snap_promote Committed snap_ha).2 = Ret tt ∧ db_fence (hd_pg (snap_promote Committed snap_ha).1) !! "pairs" = Some 2%Z ∧
  snap_promote Committed (snap_promote Committed snap_ha).1 = ((snap_promote Committed snap_ha).1, Ret tt).
Proof.
  assert (promoteReceiverToSource count_text no_pending guard_resolver guard_resolver Committed snap_bundle 2 "e2" snap_fenced snap_ha =
          ((snap_promote Committed snap_ha).1, Ret tt)) as H by (vm_compute; reflexivity).
  split; [vm_compute; reflexivity|]. split; [vm_compute; reflexivity|].
  destruct (promotion_exact count_text no_pending guard_resolver guard_resolver Committed snap_bundle 2 "e2" snap_fenced snap_ha
    (snap_promote Committed snap_ha).1 (lookup_empty _) H) as (_ & _ & _ & _ & _ & _ & _ & Hr). exact Hr.
Defined.

(** After the promotion the old token is stale, and the new source can attest. *)
Definition snap_attested : exc unit :=
  a ← buildPromotionReadinessAttestation count_text no_pending "7001" snap_fenced "source-1" "source-1" ("source", true)
        (hd_pg (snap_promote Committed snap_ha).1);
  verifyPromotionReadinessAttestation guard_resolver a.
Example promoted_source :
  (one_append "c" (hd_pg (snap_promote Committed snap_ha).1)).2 = Throw (StaleFenceError 1 2) ∧ snap_attested = Ret tt.
Proof. by split; vm_compute. Qed.

End SnapshotRuns.
